(* ===== verification/_CoqProject ===== *)
-Q . S2P
Prelude.v
U128.v
Decimal.v
WaitQueue.v
Axis.v
Reserve.v
Broker.v
BrokerInv.v
BrokerSteps.v
BrokerReach.v
BrokerProps.v
Chain.v
PrefixTable.v
GoTime.v
F64.v
Window.v
Counter.v
Tracker.v
Meter.v
Health.v
Coord.v
History.v
Guard.v
PolicyLex.v
PolicyVM.v
PolicyCompile.v
PolicyRef.v
PolicyCheck.v
PolicyProps.v
HookWatch.v
LuaEngine.v
LuaPat.v
LuaPatRef.v
LuaPatCode.v
LuaPatProps.v
PriceCatalog.v
PriceSelect.v
Price.v
PriceUsage.v
PriceInv.v
PriceSettle.v
PriceProps.v
PriceState.v
PriceLoad.v
PriceLoadProps.v
Sha256.v
Mask.v
MaskStream.v
MaskProps.v
MaskEngine.v
MaskSession.v
MaskVault.v
GoSort.v
Router.v
RouterOrder.v
RouterRR.v
RouterRoute.v
RouterNew.v
RouterSystem.v
RouterProps.v
RouterSafe.v
RouterSession.v
RouterProbe.v
