(* ===== verification/Prelude.v ===== *)
(** * dorang: a verification development

    dorang is a gateway in front of many language-model providers. A request is
    masked, screened by hooks, priced, admitted against concurrency ceilings and
    quotas, routed to a deployment whose cache is warm and whose circuit is
    closed, and metered. This library models the parts of that path that decide
    (the Go packages [internal/capacity], [internal/pricing], [internal/prefix],
    [internal/quota], [internal/health], [internal/keyguard], [internal/luaext],
    [internal/mask] and [internal/router]) as executable definitions, and proves what makes each of
    them correct.

    ** Conventions

    A Go integer is the [Z] it denotes; an operation that can leave its width is
    written with the wrap-around ([i64], [u64], ...). A function that returns an
    error is a [result]; a panic is [None]. A method on a mutable struct is a
    function from state to state (and answer); a mutex-protected method is one
    atomic function. Clock readings are arguments. Where the code iterates over a
    Go map the order is an argument, constrained only to enumerate the keys. A
    loop without a structural measure takes fuel, and the theorems show the fuel
    given suffices. [float64] is IEEE binary64 from the Standard Library. Code
    outside the repository is a parameter: the hash of the prefix chains, the
    account lease of a shared PostgreSQL store, a remote shared counter. So are
    the regular-expression engine of masking, behind [RegexpEngine] with its
    scanning law [RegexpLaws], and the readings of the clock a vault or a hook
    takes, numbered in order.

    ** Files, in dependency order

    - [Prelude]: results, machine integers, byte strings, tactics and hints.
    - [U128], [Decimal] ([internal/pricing/decimal.go]): two-word unsigned
      arithmetic over the 64-bit carry primitives, exact decimal prices, rounding
      to nano-dollars with a carry. Shown: [mulDiv] is exact at 192-bit
      intermediate width and never panics; text and parse round-trip; parsing
      never changes a price and refuses exactly what it cannot represent;
      rounding loses nothing.
    - [WaitQueue] ([capacity/queue.go]): the index-tracking binary heap behind
      every axis, refined to a set of waiters served oldest first.
    - [Axis], [Reserve] ([capacity/axis.go], configuration part of
      [broker.go]): axis keys, ceilings, the axes a candidate needs, the order in
      which candidates are tried, per-node shares and their overshoot, the
      binary64 reserve that lowers the ceiling of batch work.
    - [Broker] (the mutable part of [broker.go], [softreserve.go], the wake-up of
      [postgres.go]): buckets, waiters, reservations; acquire, release, serve,
      drain, soft reservations, timeout, cancellation, sweep, close.
      [BrokerInv] states the invariant, [BrokerSteps] and [BrokerReach] show that
      every operation keeps it (the state machine is the step relation of
      [BrokerReach]), [BrokerProps] draws the properties: exact occupancy,
      ceilings, all-or-nothing acquisition, no lost waiter, bounded and
      terminating service, abandonment, sweep, close, acquire and release as
      inverses, and the queue ceiling that a claim erases.
    - [Chain], [PrefixTable] ([internal/prefix]): streaming hash chains equal to a
      cut-then-fold reference, a digest match proving a common byte prefix up to
      a hash collision; the sharded table with its byte budget in one eviction
      pass, the deepest live match, and affinity after a record.
    - [GoTime], [F64]: instants, durations and the proleptic Gregorian calendar;
      binary64 arithmetic and conversions.
    - [Window], [Counter] ([quota/window.go], [quota/counter.go]): calendar and
      grid periods that tile the time line; the minute ring refined to the sum of
      a log over a window, and the earliest recovery of an exhausted counter.
    - [Tracker] ([quota/provider.go]): the provider's figures combined with local
      metering through the [LocalCounter] interface.
    - [Meter] ([quota/meter.go]): rules, admission, cooldown and disable; it
      implements [LocalCounter] and uses [Counter] and [Tracker]. Shown: exact
      admission and metering, sticky disable, and cooldowns that end when they
      say.
    - [Coord] ([quota/mode.go]): the local, shared and leased coordinators over
      the [SharedStore] interface; [SharedContract] states what a store promises,
      the in-memory store discharges it, and the shared and leased modes are
      proved not to overshoot within the lifetime of the counter. That an idle
      counter is forgotten within the period is proved too.
    - [Health] ([internal/health/health.go]): the circuit breaker, stand-downs,
      rate-limit backoff with overflow, smoothed latencies; module [Race] is the
      interleaving semantics of [Allow] on an open circuit.

    - [History], [Guard] ([internal/keyguard]): the bucketed usage history of a
      key behind the [History] interface, exact over spans within its retention;
      the token guard, which acts through the [Enforcer] interface and only on
      all of its grounds.

    - [PolicyLex], [PolicyVM], [PolicyCompile] ([luaext/lex.go], [value.go],
      [vm.go], [view.go], [hook.go], [compile.go]): the lexer, the values, the
      stack machine with its fuel, and the single-pass compiler of the policy
      language. [PolicyRef] is a reference semantics on syntax trees,
      [PolicyCheck] the kinds a compiled guard has, [PolicyProps] the theorems: a
      file that loads runs as its source reads, its guards are well kinded and
      stay in the stack, and a program decides within a bounded number of
      instructions.
    - [HookWatch] ([luaext/engine.go], [invoke.go]): the watchdog as a step
      relation over watchers, goroutines and deadlines; the goroutines are
      bounded, and a hook that fails closed is never switched off. [LuaEngine]:
      loading programs into hooks and refusing by the rules that match.
    - [LuaPat] ([luaext/luapat/pattern.go]): scanner, parser, compiler and
      backtracking machine of Lua patterns under a step budget. [LuaPatRef] is a
      denotational search, [LuaPatCode] relates code to patterns, [LuaPatProps]
      shows that [Find] is that search, ends within its budget, and which
      patterns make it panic.
    - [PriceCatalog], [PriceSelect] ([pricing/catalog.go], [match.go]): rules,
      their conditions, the index, and the selection, equal to the most specific
      rule of a scan. [Price], [PriceUsage] ([price.go], [types.go],
      [utilization.go]): classes, tiers, plan shares, adjustments,
      rounding. [PriceInv], [PriceSettle], [PriceProps]: the invariant of a
      catalogue, settlement step by step, and the theorems: settling conserves
      every fraction, usage is charged exactly, the parts of a cost add up,
      pricing previews settling. [PriceState]: adopting, saving and restoring
      accumulators across reloads and restarts, and the bound on a plan's share
      they keep. [PriceLoad], [PriceLoadProps] (documents to compiled rules, with
      the configuration's encoding in [app/build.go] and [config]): loading never
      panics and yields catalogues in the invariant.
    - [Sha256]: SHA-256, HMAC and hexadecimal. [Mask] ([internal/mask]): scopes,
      pattern sets, filters, sessions, placeholders, masking, restoring and the
      retention vault. [MaskStream] reads restoring as a byte-by-byte scan that
      distributes over clean cuts; [MaskProps] gives the invariant of a session
      and the streaming theorem; [MaskEngine] is a concrete engine that meets the
      law; [MaskSession] has the guarantees in every reachable state of a session
      (exact restoration, no foreign sentinel upstream, stable pseudonyms, failing
      closed); [MaskVault] the bound and the scoping of the vault, and the growth
      of its order.
    - [GoSort]: the stable sort of the Go library, insertion blocks merged by
      rotation; a permutation, and sorted for inputs of one block. [Router]
      ([internal/router]: [config.go], [errors.go], [strategy.go], [rotation.go],
      [sticky.go], [priority.go]): candidates, strategies, ordering, weighted
      round robin, credential rotation, session pins, priorities. [RouterOrder]:
      the first choice of the ordering, and what a missing price does to it;
      [RouterRR]: round robin is fair. [RouterRoute] ([router.go], [request.go],
      [reason.go], [canonical/capability.go]): the pipeline of [Route] and
      [Report], over the class [Subsystems] of what the router composes, with its
      promises in [SubsystemLaws]. [RouterNew]: compiling a configuration.
      [RouterSystem]: the instance made of [Broker], [Health], [PrefixTable],
      [Meter] and [Price], with its laws. [RouterProps]: a compiled router is well
      formed. [RouterSafe], [RouterSession]: what a decision satisfies, the
      account it is on, and the bounds of a session as a step relation; and the
      fit check that wraps. [RouterProbe]: what reports do to the circuit
      breaker: callers' mistakes stand nobody down, and a probe spent without a
      verdict is never given back.

    ** Fuel and bounds

    [Chain.write_loop] runs at most once per byte; [Broker.drainLocked] at most
    once per waiter and once more when no claim is rotated; heap sifting at most
    once per level; [Counter.reset_loop] once per bucket; the policy lexer and
    compiler once per byte or token, the policy machine on its own instruction
    budget; the pattern matcher on its step budget, the length of the pattern and
    of the subject; [Mask.substitute] once per byte. Each is proved enough where
    it is used. The loops of pricing are structural. The ceiling of [Reserve] is
    proved for ceilings below 2^52, the search theorem of [LuaPatProps] for
    subjects below 2^31 bytes, the first choice of the ordering for twenty
    candidates, which is one block of the sort, and fairness of round robin while
    the weights stay far from 2^63. A wait of [RouterSystem] drains with one round
    more than there are waiters.

    ** Not modelled

    Goroutine scheduling except in [Health.Race] and [HookWatch]; I/O (databases,
    HTTP, probers, notifications); decoding YAML, and parsing and rendering of
    configuration text for windows, metrics and modes; the explanation trace and
    the memo of the price evaluator; the regular-expression engine; the redacted
    renderings of masking; the Lua runtime outside its pattern matcher; of the
    router the texts of errors, the price estimate and the quota figures a
    decision carries, and what other requests do while one waits for capacity;
    the model catalogue, which the router reads through [CatalogView]; the cluster
    ledger and urgency ranking; protocol translation, administration, storage, the
    usage queue and the user interface, which are glue, persistence or text
    processing.
*)
From Stdlib Require Import ZArith Lia List Bool String Ascii.
Import ListNotations.
Open Scope Z_scope.

(** ** Fallible results *)

(** A Go function that returns [(value, error)] is a [result]: the error value
    is kept, the accompanying zero value is not observable by callers that test
    the error first. *)
Inductive result (E A : Type) : Type :=
| Ok (a : A)
| Err (e : E).
Arguments Ok {E A} a.
Arguments Err {E A} e.

Declare Scope go_scope.
Delimit Scope go_scope with go.

Notation "'let!' p := e 'in' k" :=
  (match e with Ok p => k | Err err => Err err end)
  (at level 10, p pattern, e at level 200, k at level 200) : go_scope.

(** Control flow that can panic is an [option]: [None] is the panic. *)
Notation "'let?' p := e 'in' k" :=
  (match e with Some p => k | None => None end)
  (at level 10, p pattern, e at level 200, k at level 200) : go_scope.

(** ** Go machine integers

    A Go integer is the [Z] it denotes; every operation that can leave the
    range of its type is written with the wrap-around the language specifies. *)

Definition two32 : Z := 2 ^ 32.
Definition two63 : Z := 2 ^ 63.
Definition two64 : Z := 2 ^ 64.

(** Conversion to [uint64], [uint32] and [uint8]. *)
Definition u64 (z : Z) : Z := z mod two64.
Definition u32 (z : Z) : Z := z mod two32.
Definition u8 (z : Z) : Z := z mod 256.

(** Conversion to [int64] (and [int], which is 64 bits wide): two's complement. *)
Definition i64 (z : Z) : Z := (z + two63) mod two64 - two63.

Definition two31 : Z := 2 ^ 31.
(** Conversion to [int32]. *)
Definition i32 (z : Z) : Z := (z + two31) mod two32 - two31.

Definition is_u64 (z : Z) : Prop := 0 <= z < two64.
Definition is_u32 (z : Z) : Prop := 0 <= z < two32.
Definition is_i64 (z : Z) : Prop := - two63 <= z < two63.

(** [math/bits]: the 64-bit carry primitives. [Div64] panics when the quotient
    does not fit ([y <= hi], which includes [y = 0]). *)
Definition Add64 (x y carry : Z) : Z * Z :=
  (u64 (x + y + carry), (x + y + carry) / two64).
Definition Sub64 (x y borrow : Z) : Z * Z :=
  (u64 (x - y - borrow), if x - y - borrow <? 0 then 1 else 0).
Definition Mul64 (x y : Z) : Z * Z := (x * y / two64, u64 (x * y)).
Definition Div64 (hi lo y : Z) : option (Z * Z) :=
  if y <=? hi then None
  else Some ((hi * two64 + lo) / y, (hi * two64 + lo) mod y).

(** Go integer division and remainder truncate toward zero. *)
Definition go_quot (a b : Z) : Z := Z.quot a b.
Definition go_rem (a b : Z) : Z := Z.rem a b.

(** ** Go strings: sequences of bytes *)

Definition bytes := list Z.

Definition bytes_of_string (s : string) : bytes :=
  map (fun c => Z.of_N (N_of_ascii c)) (list_ascii_of_string s).

Definition beqb (a b : bytes) : bool :=
  if list_eq_dec Z.eq_dec a b then true else false.

(** ['0' <= c && c <= '9']. *)
Definition is_digit (c : Z) : bool := (48 <=? c) && (c <=? 57).

(** The UTF-8 encodings of the code points with the Unicode White_Space
    property, which is what [strings.TrimSpace] removes at both ends. *)
Definition space_seqs : list bytes :=
  [[9]; [10]; [11]; [12]; [13]; [32]; [194; 133]; [194; 160]; [225; 154; 128]]
  ++ map (fun b => [226; 128; b]) [128; 129; 130; 131; 132; 133; 134; 135; 136; 137; 138;
                                  168; 169; 175]
  ++ [[226; 129; 159]; [227; 128; 128]].

Fixpoint strip_prefix (p s : bytes) : option bytes :=
  match p, s with
  | [], _ => Some s
  | x :: p', y :: s' => if x =? y then strip_prefix p' s' else None
  | _ :: _, [] => None
  end.

Fixpoint first_strip (ps : list bytes) (s : bytes) : option bytes :=
  match ps with
  | [] => None
  | p :: ps' => match strip_prefix p s with
                | Some r => Some r
                | None => first_strip ps' s
                end
  end.

(** Each round removes at least one byte, so the length bounds the rounds. *)
Fixpoint trim_left (seqs : list bytes) (fuel : nat) (s : bytes) : bytes :=
  match fuel with
  | O => s
  | S f => match first_strip seqs s with
           | Some r => trim_left seqs f r
           | None => s
           end
  end.

(** [strings.TrimSpace]. *)
Definition TrimSpace (s : bytes) : bytes :=
  let l := trim_left space_seqs (List.length s) s in
  rev (trim_left (map (@rev Z) space_seqs) (List.length l) (rev l)).

(** [strings.IndexByte]. *)
Fixpoint IndexByte (s : bytes) (c : Z) : option nat :=
  match s with
  | [] => None
  | x :: s' => if x =? c then Some O else option_map S (IndexByte s' c)
  end.

(** [strings.TrimRight(s, "c")] for a single-byte cutset. *)
Fixpoint drop_while_eq (c : Z) (s : bytes) : bytes :=
  match s with
  | x :: s' => if x =? c then drop_while_eq c s' else s
  | [] => []
  end.
Definition TrimRight1 (s : bytes) (c : Z) : bytes := rev (drop_while_eq c (rev s)).

(** ** Tactics *)

(** Turn boolean tests of the code into the propositions they decide. *)
Ltac breflect :=
  repeat match goal with
  | H : andb _ _ = true |- _ => apply andb_prop in H; destruct H
  | H : andb _ _ = false |- _ => apply andb_false_iff in H
  | H : orb _ _ = false |- _ => apply orb_false_iff in H; destruct H
  | H : orb _ _ = true |- _ => apply orb_true_iff in H
  | H : negb _ = true |- _ => apply negb_true_iff in H
  | H : negb _ = false |- _ => apply negb_false_iff in H
  | H : (_ <? _) = true |- _ => apply Z.ltb_lt in H
  | H : (_ <? _) = false |- _ => apply Z.ltb_ge in H
  | H : (_ <=? _) = true |- _ => apply Z.leb_le in H
  | H : (_ <=? _) = false |- _ => apply Z.leb_gt in H
  | H : (_ =? _) = true |- _ => apply Z.eqb_eq in H
  | H : (_ =? _) = false |- _ => apply Z.eqb_neq in H
  end.

(** Split on the scrutinee of a match or conditional in the goal or a
    hypothesis, remembering its value. *)
Ltac case_goal :=
  match goal with
  | |- context [match ?x with _ => _ end] =>
      lazymatch x with context [match _ with _ => _ end] => fail | _ => destruct x eqn:? end
  end.
Ltac case_hyp H :=
  match type of H with
  | context [match ?x with _ => _ end] =>
      lazymatch x with context [match _ with _ => _ end] => fail | _ => destruct x eqn:? end
  end.

Ltac inv H := inversion H; subst; clear H.

(** Expose the machine-width constants to [lia]. *)
Ltac widths :=
  unfold is_u64, is_u32, is_i64, two31, two32, two63, two64 in *;
  change (2 ^ 31) with 2147483648 in *;
  change (2 ^ 32) with 4294967296 in *;
  change (2 ^ 63) with 9223372036854775808 in *;
  change (2 ^ 64) with 18446744073709551616 in *.

(** ** Lemmas on machine integers *)

Create HintDb goint.
Create Rewrite HintDb goint.

Lemma u64_range z : is_u64 (u64 z).
Proof. apply Z.mod_pos_bound. reflexivity. Qed.

Lemma u64_id z : is_u64 z -> u64 z = z.
Proof. apply Z.mod_small. Qed.

Lemma i64_range z : is_i64 (i64 z).
Proof.
  unfold is_i64, i64. pose proof (Z.mod_pos_bound (z + two63) two64 eq_refl).
  unfold two63, two64 in *; lia.
Qed.

Lemma i64_id z : is_i64 z -> i64 z = z.
Proof.
  intros H. unfold i64. rewrite Z.mod_small; [lia|]. widths; lia.
Qed.

(** Wrapping is a congruence for addition, so a chain of wrapped additions
    wraps once. *)
Lemma i64_add_l a b : i64 (i64 a + b) = i64 (a + b).
Proof.
  unfold i64. f_equal. replace ((a + two63) mod two64 - two63 + b + two63) with ((a + two63) mod two64 + b) by lia.
  rewrite Z.add_mod_idemp_l by discriminate. f_equal. lia.
Qed.

Lemma i64_idem z : i64 (i64 z) = i64 z.
Proof. apply i64_id, i64_range. Qed.

Lemma u32_range z : is_u32 (u32 z).
Proof. apply Z.mod_pos_bound. reflexivity. Qed.

#[export] Hint Resolve u64_range i64_range u32_range : goint.
#[export] Hint Rewrite u64_id i64_id using (widths; lia) : goint.


(** ** Byte strings *)

Lemma beqb_eq a b : beqb a b = true <-> a = b.
Proof. unfold beqb. destruct (list_eq_dec Z.eq_dec a b); split; congruence. Qed.

(** ** Trimming *)

(** A string whose first byte starts none of the sequences is left alone. *)
Lemma trim_left_id seqs fuel c s :
  Forall (fun p => exists x p', p = x :: p' /\ x <> c) seqs ->
  trim_left seqs fuel (c :: s) = c :: s.
Proof.
  intros H. destruct fuel as [|f]; [reflexivity|]. cbn [trim_left].
  replace (first_strip seqs (c :: s)) with (@None bytes); [reflexivity|].
  induction H as [|p ps (x & p' & -> & N) _ IH]; [reflexivity|].
  cbn [first_strip strip_prefix]. rewrite (proj2 (Z.eqb_neq x c) N). exact IH.
Qed.

(** Bytes that are neither a white-space byte nor part of an encoding of a
    wider space: what digits, signs and letters are. *)
Definition plain (c : Z) : Prop := 33 <= c <= 127.

Lemma space_seqs_head c : plain c ->
  Forall (fun p => exists x p', p = x :: p' /\ x <> c) space_seqs /\
  Forall (fun p => exists x p', p = x :: p' /\ x <> c) (map (@rev Z) space_seqs).
Proof.
  unfold plain. intros H. split; cbn;
    repeat (constructor; [do 2 eexists; split; [reflexivity|lia]|]); constructor.
Qed.

Lemma TrimSpace_plain s : Forall plain s -> TrimSpace s = s.
Proof.
  intros H. unfold TrimSpace. destruct s as [|c s]; [reflexivity|].
  rewrite trim_left_id by (apply space_seqs_head; inversion H; assumption).
  destruct (rev (c :: s)) as [|d t] eqn:E.
  - apply (f_equal (@rev Z)) in E. rewrite rev_involutive in E. discriminate.
  - assert (plain d) as Hd.
    { eapply Forall_forall; [exact H|]. apply in_rev. rewrite E. left; reflexivity. }
    rewrite trim_left_id by (apply space_seqs_head; exact Hd).
    rewrite <- E, rev_involutive. reflexivity.
Qed.
