(* ===== verification/U128.v ===== *)
(** * Unsigned 128-bit integers ([internal/pricing/decimal.go])

    The two-limb integer the price path is computed in: comparison, addition and
    subtraction with their wrap-around flags, multiplication at 192-bit
    intermediate width followed by a long division, and the decimal text form in
    which an accumulator crosses a process boundary. *)
From S2P Require Import Prelude.
From Stdlib Require Import ZArith Lia List Bool.
Import ListNotations.
Open Scope Z_scope.
Open Scope go_scope.

(** ** Definitions *)

Record u128 : Type := mkU128 { hi : Z; lo : Z }.

Definition u64To128 (v : Z) : u128 := mkU128 0 v.

Definition isZero (a : u128) : bool := (hi a =? 0) && (lo a =? 0).

Definition cmp (a b : u128) : Z :=
  if negb (hi a =? hi b) then (if hi a <? hi b then -1 else 1)
  else if negb (lo a =? lo b) then (if lo a <? lo b then -1 else 1)
  else 0.

Definition add (a b : u128) : u128 * bool :=
  let '(l, c) := Add64 (lo a) (lo b) 0 in
  let '(h, c2) := Add64 (hi a) (hi b) c in
  (mkU128 h l, c2 =? 0).

Definition sub (a b : u128) : u128 * bool :=
  let '(l, br) := Sub64 (lo a) (lo b) 0 in
  let '(h, br2) := Sub64 (hi a) (hi b) br in
  (mkU128 h l, br2 =? 0).

(** [None] is a panic of [bits.Div64]; [mulDiv_correct] shows it never happens. *)
Definition mulDiv (a : u128) (b d : Z) : option (u128 * Z * bool) :=
  if d =? 0 then Some (mkU128 0 0, 0, false)
  else
    let '(h0, l0) := Mul64 (lo a) b in
    let '(h1, l1) := Mul64 (hi a) b in
    let p0 := l0 in
    let '(p1, c) := Add64 l1 h0 0 in
    let p2 := u64 (h1 + c) in
    let? (q2, rem2) := Div64 0 p2 d in
    let? (q1, rem1) := Div64 rem2 p1 d in
    let? (q0, rem0) := Div64 rem1 p0 d in
    Some (mkU128 q1 q0, rem0, q2 =? 0).

Definition mul (a : u128) (b : Z) : option (u128 * bool) :=
  let? (q, _, ok) := mulDiv a b 1 in Some (q, ok).

Definition divmod (a : u128) (d : Z) : option (u128 * Z) :=
  let? (q1, r) := Div64 0 (hi a) d in
  let? (q0, r2) := Div64 r (lo a) d in
  Some (mkU128 q1 q0, r2).

Definition digitChunk : Z := 10000000000000000000.

(** [for r > 0 { i--; buf[i] = '0' + r%10; r /= 10 }]: the bytes written in
    front of [acc], the part of the buffer already filled. A 64-bit [r] has at
    most twenty digits. *)
Fixpoint top_digits (fuel : nat) (r : Z) (acc : bytes) : bytes :=
  match fuel with
  | O => acc
  | S f => if 0 <? r then top_digits f (r / 10) ((48 + r mod 10) :: acc) else acc
  end.

(** [for n := 0; n < 19; n++ {...}]. *)
Fixpoint chunk_digits (n : nat) (r : Z) (acc : bytes) : bytes :=
  match n with
  | O => acc
  | S n' => chunk_digits n' (r / 10) ((48 + r mod 10) :: acc)
  end.

(** The [for] loop of [text], one division by [digitChunk] a round. [None] when
    a division panics or the rounds run out; three rounds are enough. *)
Fixpoint text_loop (fuel : nat) (a : u128) (acc : bytes) : option bytes :=
  match fuel with
  | O => None
  | S f =>
      let? (q, r) := divmod a digitChunk in
      if isZero q then Some (top_digits 20 r acc)
      else text_loop f q (chunk_digits 19 r acc)
  end.

Definition text (a : u128) : option bytes :=
  if isZero a then Some [48] else text_loop 3 a [].

Inductive num_error : Type := ErrOverflow | ErrBadDecimal | ErrExponent | ErrTooManyDigits.

Fixpoint parse_digits (t : bytes) (v : u128) : option (result num_error u128) :=
  match t with
  | [] => Some (Ok v)
  | c :: t' =>
      if (c <? 48) || (57 <? c) then Some (Err ErrBadDecimal)
      else
        let? (m, ok) := mul v 10 in
        if negb ok then Some (Err ErrOverflow)
        else
          let '(v', ok2) := add m (u64To128 (u64 (u8 (c - 48)))) in
          if negb ok2 then Some (Err ErrOverflow) else parse_digits t' v'
  end.

Definition parseU128 (s : bytes) : option (result num_error u128) :=
  let t := TrimSpace s in
  match t with
  | [] => Some (Ok (mkU128 0 0))
  | _ => parse_digits t (mkU128 0 0)
  end.

(** ** Meaning *)

Definition two128 : Z := 2 ^ 128.

(** The integer a pair of limbs denotes, and the pairs whose limbs are in range. *)
Definition val (a : u128) : Z := hi a * two64 + lo a.
Definition wf (a : u128) : Prop := is_u64 (hi a) /\ is_u64 (lo a).

(** The integer a digit string denotes. *)
Definition dval (s : bytes) (v : Z) : Z := fold_left (fun v c => v * 10 + (c - 48)) s v.

(** ** Facts *)

Ltac wide :=
  unfold wf, val, is_u64, two128, two64 in *; cbn [hi lo] in *;
  change (2 ^ 64) with 18446744073709551616 in *;
  change (2 ^ 128) with 340282366920938463463374607431768211456 in *.

Lemma val_range a : wf a -> 0 <= val a < two128.
Proof. intros [? ?]. wide. nia. Qed.

Lemma wf_intro h l : is_u64 h -> is_u64 l -> wf (mkU128 h l).
Proof. split; assumption. Qed.

Lemma val_inj a b : wf a -> wf b -> val a = val b -> a = b.
Proof.
  destruct a as [ah al], b as [bh bl]. intros [? ?] [? ?] E. wide.
  assert (ah = bh) by nia. f_equal; nia.
Qed.

Lemma isZero_val a : wf a -> isZero a = (val a =? 0).
Proof.
  intros [? ?]. unfold isZero. wide.
  destruct (Z.eqb_spec (hi a) 0), (Z.eqb_spec (lo a) 0), (Z.eqb_spec (hi a * 18446744073709551616 + lo a) 0);
    cbn; lia.
Qed.

Lemma cmp_val a b : wf a -> wf b ->
  cmp a b = (if val a <? val b then -1 else if val a =? val b then 0 else 1).
Proof.
  destruct a as [ah al], b as [bh bl]. intros [? ?] [? ?]. unfold cmp. wide.
  destruct (Z.eqb_spec ah bh), (Z.ltb_spec ah bh), (Z.eqb_spec al bl), (Z.ltb_spec al bl);
    cbn;
    destruct (Z.ltb_spec (ah * 18446744073709551616 + al) (bh * 18446744073709551616 + bl)),
             (Z.eqb_spec (ah * 18446744073709551616 + al) (bh * 18446744073709551616 + bl));
    lia.
Qed.

Lemma Add64_spec x y c s k : Add64 x y c = (s, k) ->
  is_u64 s /\ s + k * two64 = x + y + c.
Proof.
  unfold Add64. intros E; inv E. split; [apply u64_range|].
  unfold u64. pose proof (Z.div_mod (x + y + c) two64 ltac:(discriminate)). lia.
Qed.

Lemma Mul64_spec x y h l : is_u64 x -> is_u64 y -> Mul64 x y = (h, l) ->
  is_u64 l /\ 0 <= h <= two64 - 2 /\ h * two64 + l = x * y.
Proof.
  unfold Mul64. intros Hx Hy E; inv E.
  pose proof (u64_range (x * y)).
  pose proof (Z.div_mod (x * y) two64 ltac:(discriminate)) as D.
  split; [assumption|]. unfold u64 in *. split; [|lia].
  unfold is_u64, two64 in *. change (2 ^ 64) with 18446744073709551616 in *.
  split; [apply Z.div_pos; nia|].
  enough (x * y / 18446744073709551616 < 18446744073709551615) by lia.
  apply Z.div_lt_upper_bound; nia.
Qed.

Lemma Div64_spec h l y : 0 <= h < y -> is_u64 l ->
  exists q r, Div64 h l y = Some (q, r) /\ h * two64 + l = q * y + r /\ 0 <= r < y /\ is_u64 q.
Proof.
  intros Hh Hl. unfold Div64. replace (y <=? h) with false by (symmetry; apply Z.leb_gt; lia).
  exists ((h * two64 + l) / y), ((h * two64 + l) mod y).
  pose proof (Z.div_mod (h * two64 + l) y ltac:(lia)) as D.
  pose proof (Z.mod_pos_bound (h * two64 + l) y ltac:(lia)).
  repeat split; try reflexivity; try lia.
  - apply Z.div_pos; wide; nia.
  - apply Z.div_lt_upper_bound; wide; nia.
Qed.

Lemma add_val a b r ok : wf a -> wf b -> add a b = (r, ok) ->
  wf r /\ val r = (val a + val b) mod two128 /\ ok = (val a + val b <? two128).
Proof.
  intros [? ?] [? ?]. unfold add.
  destruct (Add64 (lo a) (lo b) 0) as [l c] eqn:E1.
  destruct (Add64 (hi a) (hi b) c) as [h c2] eqn:E2.
  intros E; inv E. apply Add64_spec in E1 as [? ?]. apply Add64_spec in E2 as [? ?].
  split; [apply wf_intro; assumption|]. wide.
  assert (c2 = 0 \/ c2 = 1) as [-> | ->] by lia; cbn [Z.eqb].
  - split; [rewrite Z.mod_small; lia|]. symmetry; apply Z.ltb_lt; lia.
  - split; [|symmetry; apply Z.ltb_ge; lia].
    apply Z.mod_unique_pos with 1; lia.
Qed.

Lemma Sub64_spec x y b s k : is_u64 x -> is_u64 y -> 0 <= b <= 1 -> Sub64 x y b = (s, k) ->
  is_u64 s /\ s - k * two64 = x - y - b /\ 0 <= k <= 1.
Proof.
  unfold Sub64. intros Hx Hy Hb E; inv E. pose proof (u64_range (x - y - b)) as R.
  split; [assumption|]. unfold u64 in *. wide.
  destruct (Z.ltb_spec (x - y - b) 0).
  - replace ((x - y - b) mod 18446744073709551616) with (x - y - b + 18446744073709551616); [lia|].
    apply Z.mod_unique_pos with (-1); lia.
  - rewrite Z.mod_small; lia.
Qed.

Lemma sub_val a b r ok : wf a -> wf b -> sub a b = (r, ok) ->
  wf r /\ val r = (val a - val b) mod two128 /\ ok = (val b <=? val a).
Proof.
  intros [? ?] [? ?]. unfold sub.
  destruct (Sub64 (lo a) (lo b) 0) as [l c] eqn:E1.
  destruct (Sub64 (hi a) (hi b) c) as [h c2] eqn:E2.
  intros E; inv E.
  apply Sub64_spec in E1 as (? & ? & ?); try assumption; try lia.
  apply Sub64_spec in E2 as (? & ? & ?); try assumption; try lia.
  split; [apply wf_intro; assumption|]. wide.
  assert (c2 = 0 \/ c2 = 1) as [-> | ->] by lia; cbn [Z.eqb].
  - split; [rewrite Z.mod_small; lia|]. symmetry; apply Z.leb_le; lia.
  - split; [|symmetry; apply Z.leb_gt; lia].
    apply Z.mod_unique_pos with (-1); lia.
Qed.

(** The 192-bit product is exact: its three limbs denote [val a * b]. *)
Lemma product_limbs a b h0 l0 h1 l1 p1 c : wf a -> is_u64 b ->
  Mul64 (lo a) b = (h0, l0) -> Mul64 (hi a) b = (h1, l1) -> Add64 l1 h0 0 = (p1, c) ->
  is_u64 l0 /\ is_u64 p1 /\ is_u64 (h1 + c) /\
  (h1 + c) * (two64 * two64) + p1 * two64 + l0 = val a * b.
Proof.
  intros [? ?] ? E0 E1 E2.
  apply Mul64_spec in E0 as (? & ? & ?); try assumption.
  apply Mul64_spec in E1 as (? & ? & ?); try assumption.
  apply Add64_spec in E2 as [? ?]. wide.
  repeat split; try lia.
Qed.

Lemma mulDiv_val a b d : wf a -> is_u64 b -> is_u64 d -> d <> 0 ->
  exists q r ok, mulDiv a b d = Some (q, r, ok) /\ wf q /\ r = (val a * b) mod d /\
    val q = (val a * b / d) mod two128 /\ ok = (val a * b / d <? two128).
Proof.
  intros Ha Hb Hd Hnz. unfold mulDiv. rewrite (proj2 (Z.eqb_neq d 0) Hnz).
  destruct (Mul64 (lo a) b) as [h0 l0] eqn:E0. destruct (Mul64 (hi a) b) as [h1 l1] eqn:E1.
  destruct (Add64 l1 h0 0) as [p1 c] eqn:E2.
  destruct (product_limbs _ _ _ _ _ _ _ _ Ha Hb E0 E1 E2) as (L0 & L1 & L2 & P).
  rewrite (u64_id (h1 + c)) by assumption.
  destruct (Div64_spec 0 (h1 + c) d) as (q2 & r2 & -> & D2 & ? & ?); try assumption; try (wide; lia).
  destruct (Div64_spec r2 p1 d) as (q1 & r1 & -> & D1 & ? & ?); try assumption.
  destruct (Div64_spec r1 l0 d) as (q0 & r0 & -> & D0 & ? & ?); try assumption.
  exists (mkU128 q1 q0), r0, (q2 =? 0).
  assert (Q : val a * b = d * (q2 * (two64 * two64) + (q1 * two64 + q0)) + r0) by (wide; nia).
  assert (EQ : val a * b / d = q2 * (two64 * two64) + (q1 * two64 + q0))
    by (symmetry; apply Z.div_unique_pos with r0; lia).
  split; [reflexivity|]. split; [apply wf_intro; assumption|].
  split; [apply Z.mod_unique_pos with (q2 * (two64 * two64) + (q1 * two64 + q0)); lia|].
  rewrite EQ. wide. split.
  - apply Z.mod_unique_pos with q2; lia.
  - destruct (Z.eqb_spec q2 0), (Z.ltb_spec (q2 * (18446744073709551616 * 18446744073709551616)
      + (q1 * 18446744073709551616 + q0)) 340282366920938463463374607431768211456); lia.
Qed.

Lemma mul_val a b : wf a -> is_u64 b ->
  exists q ok, mul a b = Some (q, ok) /\ wf q /\
    val q = (val a * b) mod two128 /\ ok = (val a * b <? two128).
Proof.
  intros Ha Hb. unfold mul.
  destruct (mulDiv_val a b 1) as (q & r & ok & -> & ? & _ & E & Eo); try assumption; try (wide; lia).
  rewrite Z.div_1_r in *. exists q, ok. auto.
Qed.

Lemma divmod_val a d : wf a -> is_u64 d -> d <> 0 ->
  exists q r, divmod a d = Some (q, r) /\ wf q /\ val q = val a / d /\ r = val a mod d.
Proof.
  intros [Hh Hl] Hd Hnz. unfold divmod.
  destruct (Div64_spec 0 (hi a) d) as (q1 & r1 & -> & D1 & ? & ?); try assumption; try (wide; lia).
  destruct (Div64_spec r1 (lo a) d) as (q0 & r0 & -> & D0 & ? & ?); try assumption.
  exists (mkU128 q1 q0), r0.
  assert (val a = d * (q1 * two64 + q0) + r0) as E by (wide; nia).
  split; [reflexivity|]. split; [apply wf_intro; assumption|]. split.
  - change (q1 * two64 + q0 = val a / d). apply Z.div_unique_pos with r0; lia.
  - apply Z.mod_unique_pos with (q1 * two64 + q0); lia.
Qed.

(** *** Digit strings *)

Definition digits (s : bytes) : Prop := Forall (fun c => 48 <= c <= 57) s.

Lemma dval_app s t v : dval (s ++ t) v = dval t (dval s v).
Proof. apply fold_left_app. Qed.

Lemma dval_shift s v : dval s v = v * 10 ^ Z.of_nat (length s) + dval s 0.
Proof.
  revert v. induction s as [|c s IH]; intros v; [cbn; lia|].
  cbn [dval fold_left length]. fold (dval s (v * 10 + (c - 48))) (dval s (0 * 10 + (c - 48))).
  rewrite (IH (v * 10 + _)), (IH (0 * 10 + _)), Nat2Z.inj_succ, Z.pow_succ_r by lia. ring.
Qed.

Lemma dval_nonneg s v : digits s -> 0 <= v -> v <= dval s v.
Proof.
  intros H. revert v. induction H as [|c s Hc _ IH]; intros v Hv; cbn; [lia|].
  fold (dval s (v * 10 + (c - 48))). specialize (IH (v * 10 + (c - 48))). lia.
Qed.

(** The digits written stay within a factor of ten of the number they denote,
    so there is no leading zero. *)
Lemma top_digits_spec fuel r acc : 0 <= r < 10 ^ Z.of_nat fuel ->
  exists ds, top_digits fuel r acc = ds ++ acc /\ digits ds /\ dval ds 0 = r /\
    10 ^ Z.of_nat (length ds) <= Z.max 1 (10 * r).
Proof.
  revert r acc. induction fuel as [|f IH]; intros r acc Hr.
  - exists []. cbn in Hr. assert (r = 0) as -> by lia.
    repeat split; [constructor|cbn; lia].
  - cbn [top_digits]. destruct (Z.ltb_spec 0 r).
    + rewrite Nat2Z.inj_succ, Z.pow_succ_r in Hr by lia.
      destruct (IH (r / 10) ((48 + r mod 10) :: acc)) as (ds & -> & D & V & B).
      { split; [apply Z.div_pos; lia|apply Z.div_lt_upper_bound; lia]. }
      pose proof (Z.mod_pos_bound r 10 ltac:(lia)). pose proof (Z.div_mod r 10 ltac:(lia)).
      exists (ds ++ [48 + r mod 10]). rewrite <- app_assoc. repeat split.
      * apply Forall_app; split; [assumption|]. repeat constructor; lia.
      * rewrite dval_app, V. cbn [dval fold_left]. lia.
      * rewrite length_app, Nat2Z.inj_add, Z.pow_add_r by lia. cbn [length].
        change (10 ^ Z.of_nat 1) with 10. lia.
    + assert (r = 0) as -> by lia. exists []. repeat split; [constructor|cbn; lia].
Qed.

Lemma chunk_digits_spec n r acc : 0 <= r ->
  exists ds, chunk_digits n r acc = ds ++ acc /\ digits ds /\ length ds = n /\
    dval ds 0 = r mod 10 ^ Z.of_nat n.
Proof.
  revert r acc. induction n as [|n IH]; intros r acc Hr.
  - exists []. cbn. rewrite Z.mod_1_r. repeat split. constructor.
  - cbn [chunk_digits]. destruct (IH (r / 10) ((48 + r mod 10) :: acc)) as (ds & -> & D & L & V);
      [apply Z.div_pos; lia|].
    pose proof (Z.mod_pos_bound r 10 ltac:(lia)).
    exists (ds ++ [48 + r mod 10]). rewrite <- app_assoc, length_app, L. repeat split.
    + apply Forall_app; split; [assumption|]. repeat constructor; lia.
    + cbn; lia.
    + rewrite dval_app, V, Nat2Z.inj_succ, Z.pow_succ_r, Z.rem_mul_r by lia. cbn [dval fold_left]. lia.
Qed.

Lemma text_loop_spec fuel a acc : wf a -> 0 < val a < 10 ^ (19 * Z.of_nat fuel) ->
  exists ds, text_loop fuel a acc = Some (ds ++ acc) /\ digits ds /\ dval ds 0 = val a /\
    10 ^ Z.of_nat (length ds) <= 10 * val a.
Proof.
  revert a acc. induction fuel as [|f IH]; intros a acc Ha Hr; [cbn in Hr; lia|].
  cbn [text_loop].
  destruct (divmod_val a digitChunk) as (q & r & -> & Hq & Vq & Vr); try assumption;
    try (unfold digitChunk; wide; lia).
  pose proof (Z.div_mod (val a) digitChunk ltac:(discriminate)) as DM.
  pose proof (Z.mod_pos_bound (val a) digitChunk ltac:(reflexivity)) as MB.
  rewrite isZero_val, Vq by assumption. destruct (Z.eqb_spec (val a / digitChunk) 0) as [Z0|NZ].
  - destruct (top_digits_spec 20 r acc) as (ds & -> & D & V & B).
    { subst r. split; [lia|]. eapply Z.lt_trans; [apply MB|reflexivity]. }
    exists ds. repeat split; try assumption; lia.
  - destruct (chunk_digits_spec 19 r acc) as (cs & -> & Dc & Lc & Vc); [lia|].
    assert (0 < val q) by (rewrite Vq; pose proof (Z.div_pos (val a) digitChunk);
                           unfold digitChunk in *; lia).
    destruct (IH q (cs ++ acc)) as (ds & -> & D & V & B); try assumption.
    { split; [assumption|]. rewrite Vq. apply Z.div_lt_upper_bound; [reflexivity|].
      replace (19 * Z.of_nat (S f)) with (19 + 19 * Z.of_nat f) in Hr by lia.
      rewrite Z.pow_add_r in Hr by lia. apply Hr. }
    exists (ds ++ cs). rewrite <- app_assoc, length_app, Nat2Z.inj_add, Z.pow_add_r, Lc by lia.
    change (10 ^ Z.of_nat 19) with digitChunk. repeat split.
    + apply Forall_app; split; assumption.
    + rewrite dval_app, dval_shift, V, Vc, Lc, Vq.
      change (10 ^ Z.of_nat 19) with digitChunk. rewrite Z.mod_small; lia.
    + rewrite <- Vq in DM. unfold digitChunk in *. lia.
Qed.

Lemma text_spec a : wf a ->
  exists s, text a = Some s /\ digits s /\ dval s 0 = val a /\ (1 <= length s <= 39)%nat.
Proof.
  intros Ha. pose proof (val_range a Ha). unfold text. rewrite isZero_val by assumption.
  destruct (Z.eqb_spec (val a) 0) as [E|NE].
  - exists [48]. repeat split; [repeat constructor; lia|cbn; lia|cbn; lia|cbn; lia].
  - destruct (text_loop_spec 3 a []) as (ds & -> & D & V & B); try assumption.
    { split; [lia|]. eapply Z.lt_trans; [apply H|reflexivity]. }
    rewrite app_nil_r. exists ds. repeat split; try assumption.
    + destruct ds; [cbn in V; lia|cbn; lia].
    + apply Nat2Z.inj_le, Z.lt_succ_r, (Z.pow_lt_mono_r_iff 10); [lia|lia|].
      apply Z.le_lt_trans with (10 * val a); [assumption|].
      apply Z.lt_trans with (10 * two128); [lia|reflexivity].
Qed.

Lemma parse_digits_spec t v : digits t -> wf v ->
  exists w, parse_digits t v = Some w /\
    if dval t (val v) <? two128 then exists u, w = Ok u /\ wf u /\ val u = dval t (val v)
    else w = Err ErrOverflow.
Proof.
  intros H. revert v. induction H as [|c t Hc Ht IH]; intros v Hv.
  - exists (Ok v). split; [reflexivity|]. pose proof (val_range v Hv). cbn [dval fold_left].
    rewrite (proj2 (Z.ltb_lt _ _)) by lia. eauto.
  - cbn [parse_digits]. replace ((c <? 48) || (57 <? c)) with false
      by (symmetry; apply orb_false_iff; split; apply Z.ltb_ge; lia).
    destruct (mul_val v 10) as (m & ok & -> & Hm & Vm & ->); [assumption|wide; lia|].
    pose proof (val_range v Hv).
    assert (G : val v * 10 + (c - 48) <= dval (c :: t) (val v)).
    { apply (dval_nonneg t (val v * 10 + (c - 48))); [assumption|lia]. }
    destruct (Z.ltb_spec (val v * 10) two128) as [Lt|Ge]; cbn [negb].
    + rewrite Z.mod_small in Vm by lia.
      assert (u8 (c - 48) = c - 48) as -> by (apply Z.mod_small; lia).
      rewrite u64_id by (wide; lia).
      destruct (add m (u64To128 (c - 48))) as [v' ok2] eqn:E.
      apply add_val in E as (Hv' & Vv' & ->); [|assumption|apply wf_intro; wide; lia].
      replace (val (u64To128 (c - 48))) with (c - 48) in * by (unfold u64To128; wide; lia).
      rewrite Vm in *.
      destruct (Z.ltb_spec (val v * 10 + (c - 48)) two128) as [Lt2|Ge2]; cbn [negb].
      * rewrite Z.mod_small in Vv' by lia. destruct (IH v' Hv') as (w & -> & W).
        exists w. split; [reflexivity|]. rewrite Vv' in W. exact W.
      * exists (Err ErrOverflow). split; [reflexivity|].
        rewrite (proj2 (Z.ltb_ge _ _)) by lia. reflexivity.
    + exists (Err ErrOverflow). split; [reflexivity|].
      rewrite (proj2 (Z.ltb_ge _ _)) by lia. reflexivity.
Qed.

Lemma digits_plain s : digits s -> Forall plain s.
Proof. apply Forall_impl. unfold plain. lia. Qed.

Lemma parseU128_digits s : digits s ->
  exists w, parseU128 s = Some w /\
    if dval s 0 <? two128 then exists u, w = Ok u /\ wf u /\ val u = dval s 0
    else w = Err ErrOverflow.
Proof.
  intros H. unfold parseU128. rewrite TrimSpace_plain by (apply digits_plain, H).
  destruct s as [|c s].
  - exists (Ok (mkU128 0 0)). split; [reflexivity|]. cbn. exists (mkU128 0 0).
    repeat split; apply wf_intro; wide; lia.
  - change 0 with (val (mkU128 0 0)). apply parse_digits_spec; [assumption|].
    apply wf_intro; wide; lia.
Qed.

(** ** Properties *)

(** [u128.mulDiv] computes [a*b/d] exactly at 192-bit intermediate width
    for every in-range input with a non-zero divisor: none of its three
    [bits.Div64] steps panics, the remainder is the exact remainder of the
    product, the returned quotient is the exact quotient reduced modulo 2^128,
    and the [ok] flag is true exactly when no reduction took place. *)
Theorem mulDiv_correct a b d : wf a -> is_u64 b -> is_u64 d -> d <> 0 ->
  exists q r ok, mulDiv a b d = Some (q, r, ok) /\ wf q /\
    r = (val a * b) mod d /\
    val q = (val a * b / d) mod two128 /\
    ok = (val a * b / d <? two128).
Proof. apply mulDiv_val. Qed.

Lemma mulDiv_correct_witness :
  exists q r ok, mulDiv (mkU128 5 7) 1000000007 3 = Some (q, r, ok) /\ wf q /\
    r = (val (mkU128 5 7) * 1000000007) mod 3 /\
    val q = (val (mkU128 5 7) * 1000000007 / 3) mod two128 /\
    ok = (val (mkU128 5 7) * 1000000007 / 3 <? two128).
Proof. apply (mulDiv_correct (mkU128 5 7)); [apply wf_intro|..]; wide; lia. Defined.

Lemma text_parses a : wf a ->
  exists s, text a = Some s /\ digits s /\ (1 <= length s <= 39)%nat /\
    parseU128 s = Some (Ok a).
Proof.
  intros Ha. destruct (text_spec a Ha) as (s & E & D & V & L). exists s.
  split; [assumption|]. split; [assumption|]. split; [assumption|].
  destruct (parseU128_digits s D) as (w & -> & W). pose proof (val_range a Ha).
  rewrite V, (proj2 (Z.ltb_lt _ _)) in W by lia.
  destruct W as (u & -> & Hu & Vu). f_equal. f_equal. apply val_inj; assumption.
Qed.

(** Round trip through the durable text form: for every in-range value
    [u128.text] terminates within its three division rounds without a panic,
    yields between one and thirty-nine digit bytes (the 40-byte buffer cannot
    be overrun), and [parseU128] reads exactly that value back. *)
Theorem text_parse_roundtrip a : wf a ->
  exists s, text a = Some s /\ digits s /\ (1 <= length s <= 39)%nat /\
    parseU128 s = Some (Ok a).
Proof. apply text_parses. Qed.

Lemma text_parse_roundtrip_witness :
  exists s, text (mkU128 542101086 4477988020393345024) = Some s /\ digits s /\
    (1 <= length s <= 39)%nat /\
    parseU128 s = Some (Ok (mkU128 542101086 4477988020393345024)).
Proof. apply text_parse_roundtrip. apply wf_intro; wide; lia. Defined.

(** [parseU128] never wraps: on any digit string it returns the number the
    string denotes when that is below 2^128 and [ErrOverflow] otherwise. *)
Theorem parseU128_exact s : digits s ->
  exists w, parseU128 s = Some w /\
    if dval s 0 <? two128 then exists u, w = Ok u /\ wf u /\ val u = dval s 0
    else w = Err ErrOverflow.
Proof. apply parseU128_digits. Qed.

Lemma parseU128_exact_witness :
  exists w, parseU128 [51; 52; 48; 50; 56] = Some w /\
    if dval [51; 52; 48; 50; 56] 0 <? two128
    then exists u, w = Ok u /\ wf u /\ val u = dval [51; 52; 48; 50; 56] 0
    else w = Err ErrOverflow.
Proof. apply parseU128_exact. repeat constructor; lia. Defined.
