(* ===== verification/Decimal.v ===== *)
(** * Exact amounts and decimal literals ([internal/pricing/decimal.go])

    Signed atto-unit amounts, the single half-to-even rounding to nano-units with
    the remainder carried into the next settlement, range-checked nano sums, and
    the exact decimal literal a catalog price is written as. *)
From S2P Require Import Prelude U128.
From Stdlib Require Import ZArith Lia List Bool.
Import ListNotations.
Open Scope Z_scope.
Open Scope go_scope.

(** ** Definitions *)

Definition attoPerNano : Z := 1000000000.
Definition attoScale : Z := 18.
Definition maxPriceScale : Z := 12.
Definition maxInt64 : Z := 9223372036854775807.

(** The [pow10] table; indexing past its twenty entries panics. *)
Definition pow10 : list Z :=
  [1; 10; 100; 1000; 10000; 100000; 1000000; 10000000; 100000000; 1000000000;
   10000000000; 100000000000; 1000000000000; 10000000000000; 100000000000000;
   1000000000000000; 10000000000000000; 100000000000000000; 1000000000000000000;
   10000000000000000000].
Definition pow10_at (i : Z) : option Z :=
  if i <? 0 then None else nth_error pow10 (Z.to_nat i).

Record amt : Type := mkAmt { neg : bool; m : u128 }.

Definition attoAmt (v : u128) : amt := mkAmt false v.

Definition negate (a : amt) : amt :=
  if isZero (m a) then a else mkAmt (negb (neg a)) (m a).

Definition addAmt (a b : amt) : amt * bool :=
  if eqb (neg a) (neg b) then
    let '(r, ok) := add (m a) (m b) in
    (mkAmt (neg a && negb (isZero r)) r, ok)
  else if 0 <=? cmp (m a) (m b) then
    let '(r, _) := sub (m a) (m b) in
    (mkAmt (neg a && negb (isZero r)) r, true)
  else
    let '(r, _) := sub (m b) (m a) in
    (mkAmt (neg b && negb (isZero r)) r, true).

Definition mulDivAmt (a : amt) (b d : Z) : option (amt * bool) :=
  let? (r, _, ok) := mulDiv (m a) b d in
  Some (mkAmt (neg a && negb (isZero r)) r, ok).

(** Returns [(nano, newCarry, err)]; [None] is a panic. *)
Definition roundToNano (v : amt) (carry : Z) : option (Z * Z * option num_error) :=
  let c := if carry <? 0 then mkAmt (carry <? 0) (u64To128 (u64 (i64 (- carry))))
           else mkAmt (carry <? 0) (u64To128 (u64 carry)) in
  let '(t, ok) := addAmt v c in
  if negb ok then Some (0, carry, Some ErrOverflow)
  else
    let? (q, r, ok) := mulDiv (m t) 1 attoPerNano in
    if negb ok then Some (0, carry, Some ErrOverflow)
    else
      let twice := u64 (r * 2) in
      let inc := if (attoPerNano <? twice)
                    || ((twice =? attoPerNano) && (Z.land (lo q) 1 =? 1)) then 1 else 0 in
      let '(q, ok) := if inc =? 1 then add q (u64To128 1) else (q, true) in
      if negb ok then Some (0, carry, Some ErrOverflow)
      else if negb (hi q =? 0) || (maxInt64 <? lo q) then Some (0, carry, Some ErrOverflow)
      else
        let n := i64 (lo q) in
        let rem := i64 (i64 r - i64 (i64 inc * attoPerNano)) in
        if neg t then Some (i64 (- n), i64 (- rem), None) else Some (n, rem, None).

Definition addNano (a b : Z) : result num_error Z :=
  let s := i64 (a + b) in
  if ((0 <? a) && (0 <? b) && (s <? 0)) || ((a <? 0) && (b <? 0) && (0 <=? s))
  then Err ErrOverflow else Ok s.

Record decimal : Type := mkDecimal { dneg : bool; units : Z; scale : Z; dtext : bytes }.

Definition atto (d : decimal) : option (u128 * bool) :=
  let? p := pow10_at (attoScale - scale d) in
  mul (u64To128 (units d)) p.

Definition exceedsHundred (d : decimal) : option bool :=
  let? p := pow10_at (scale d) in
  let '(h, l) := Mul64 100 p in
  Some (negb (h =? 0) || (l <? units d)).

(** [None] is a panic, [Some None] the [false] result. *)
Definition scaled (d : decimal) (want : Z) : option (option Z) :=
  if want <? scale d then Some None
  else
    let? p := pow10_at (want - scale d) in
    let '(h, l) := Mul64 (units d) p in
    if negb (h =? 0) then Some None else Some (Some l).

Definition allDigits (s : bytes) : bool := forallb is_digit s.

(** The inner digit loop of [parseDecimal], over both parts in turn. *)
Fixpoint digit_loop (part : bytes) (v : Z) : result num_error Z :=
  match part with
  | [] => Ok v
  | c :: part' =>
      let '(h, l) := Mul64 v 10 in
      if negb (h =? 0) then Err ErrOverflow
      else
        let '(sum, cy) := Add64 l (u64 (u8 (c - 48))) 0 in
        if negb (cy =? 0) then Err ErrOverflow else digit_loop part' sum
  end.

(** Splits the body at the first dot; [None] when a second dot follows it. *)
Definition split_dot (body : bytes) : option (bytes * bytes) :=
  match IndexByte body 46 with
  | Some dot =>
      let fracPart := skipn (S dot) body in
      match IndexByte fracPart 46 with
      | Some _ => None
      | None => Some (firstn dot body, fracPart)
      end
  | None => Some (body, [])
  end.

(** The sign of a literal and what follows it. *)
Definition split_sign (t : bytes) : bool * bytes :=
  match t with
  | c :: t' => if (c =? 43) || (c =? 45) then (c =? 45, t') else (false, t)
  | [] => (false, [])
  end.

Definition has_byte (s : bytes) (c : Z) : bool :=
  match IndexByte s c with Some _ => true | None => false end.

Definition parseDecimal (s : bytes) : result num_error decimal :=
  let t := TrimSpace s in
  match t with
  | [] => Err ErrBadDecimal
  | _ =>
      let '(ng, body) := split_sign t in
      match body with
      | [] => Err ErrBadDecimal
      | _ =>
          if has_byte body 101 || has_byte body 69 then Err ErrExponent
          else
            match split_dot body with
            | None => Err ErrBadDecimal
            | Some (intPart, fracPart) =>
                if match intPart, fracPart with [], [] => true | _, _ => false end
                then Err ErrBadDecimal
                else if negb (allDigits intPart) || negb (allDigits fracPart)
                then Err ErrBadDecimal
                else
                  let fracPart := TrimRight1 fracPart 48 in
                  if maxPriceScale <? Z.of_nat (length fracPart) then Err ErrTooManyDigits
                  else
                    let sc := u8 (Z.of_nat (length fracPart)) in
                    let! v1 := digit_loop intPart 0 in
                    let! v := digit_loop fracPart v1 in
                    if v =? 0 then Ok (mkDecimal false v 0 t)
                    else Ok (mkDecimal ng v sc t)
            end
      end
  end.

(** ** Meaning *)

(** The signed integer an amount denotes; amounts with limbs in range and no
    negative zero. *)
Definition sval (a : amt) : Z := if neg a then - val (m a) else val (m a).
Definition awf (a : amt) : Prop := wf (m a) /\ (neg a = true -> val (m a) <> 0).

(** A well-formed literal: an optional sign, then digits with at most one dot. *)
Definition literal (ng : bool) (sgn ip dot fp t : bytes) : Prop :=
  t = sgn ++ ip ++ dot ++ fp /\
  (sgn = [] /\ ng = false \/ sgn = [43] /\ ng = false \/ sgn = [45] /\ ng = true) /\
  (dot = [46] \/ dot = [] /\ fp = []) /\
  digits ip /\ digits fp /\ ip ++ fp <> [].

(** ** Facts about amounts *)

Lemma addAmt_sval a b r ok : awf a -> awf b -> addAmt a b = (r, ok) ->
  wf (m r) /\ (ok = true -> awf r /\ sval r = sval a + sval b) /\
  ok = (Z.abs (sval a + sval b) <? two128).
Proof.
  destruct a as [na ma], b as [nb mb]. intros [Ha Za] [Hb Zb]. unfold addAmt, awf, sval in *.
  cbn [neg m] in *. pose proof (val_range ma Ha). pose proof (val_range mb Hb).
  destruct (eqb na nb) eqn:E; [apply eqb_prop in E; subst nb|apply eqb_false_iff in E].
  - destruct (add ma mb) as [r' ok'] eqn:A. intros X; inv X. cbn [neg m].
    apply add_val in A as (Hr & Vr & Eo); try assumption. subst ok.
    split; [assumption|]. split.
    + intros L. apply Z.ltb_lt in L. rewrite Z.mod_small in Vr by lia.
      rewrite isZero_val by assumption.
      destruct na; cbn; destruct (Z.eqb_spec (val r') 0); cbn; split; try split; auto; lia.
    + f_equal. destruct na; lia.
  - rewrite cmp_val by assumption.
    destruct (Z.ltb_spec (val ma) (val mb)); [|destruct (Z.eqb_spec (val ma) (val mb))].
    all: match goal with |- context [0 <=? ?k] =>
           let v := eval compute in (0 <=? k) in change (0 <=? k) with v end; cbv iota.
    all: match goal with |- context [sub ?x ?y] => destruct (sub x y) as [r' ok'] eqn:ES end;
      intros X; inv X; cbn [neg m];
      apply sub_val in ES as (Hr & Vr & _); try assumption;
      rewrite Z.mod_small in Vr by lia; rewrite isZero_val by assumption;
      (split; [assumption|]); split;
      [intros _|symmetry; apply Z.ltb_lt; destruct na, nb; try congruence; lia].
    all: destruct na, nb; try congruence; cbn; destruct (Z.eqb_spec (val r') 0); cbn;
      (split; [split; [assumption|]|]); try lia; try discriminate.
Qed.

Lemma mulDivAmt_sval a b d : awf a -> is_u64 b -> is_u64 d -> d <> 0 ->
  exists r ok, mulDivAmt a b d = Some (r, ok) /\
    ok = (val (m a) * b / d <? two128) /\
    (ok = true -> awf r /\ sval r = Z.sgn (sval a) * (Z.abs (sval a) * b / d)).
Proof.
  intros [Ha Za] Hb Hd Hnz. unfold mulDivAmt.
  destruct (mulDiv_val (m a) b d) as (q & rm & ok & -> & Hq & _ & Vq & Eo); try assumption.
  eexists _, _. split; [reflexivity|]. split; [exact Eo|]. intros L. subst ok.
  apply Z.ltb_lt in L. pose proof (val_range _ Ha).
  assert (0 <= val (m a) * b / d) by (apply Z.div_pos; unfold is_u64 in *; nia).
  rewrite Z.mod_small in Vq by lia. unfold awf, sval. cbn [neg m].
  rewrite isZero_val by assumption. destruct (neg a); cbn.
  - specialize (Za eq_refl). destruct (Z.eqb_spec (val q) 0); cbn;
      (split; [split; [assumption|congruence || lia]|]).
    + rewrite Z.abs_opp, Z.abs_eq by lia. replace (Z.sgn (- val (m a))) with (-1) by lia. lia.
    + rewrite Z.abs_opp, Z.abs_eq by lia. replace (Z.sgn (- val (m a))) with (-1) by lia. lia.
  - split; [split; [assumption|discriminate]|]. rewrite Z.abs_eq by lia.
    destruct (Z.eq_dec (val (m a)) 0) as [E|NE].
    + rewrite Vq, E, Z.mul_0_l, Z.div_0_l by lia. reflexivity.
    + replace (Z.sgn (val (m a))) with 1 by lia. lia.
Qed.

(** *** Rounding *)

(** Rounding a non-negative atto amount: quotient and signed remainder. *)
Definition half_even (t : Z) : Z :=
  let q := t / attoPerNano in
  let r := t mod attoPerNano in
  if (attoPerNano <? 2 * r) || ((2 * r =? attoPerNano) && (q mod 2 =? 1)) then q + 1 else q.

Lemma half_even_bound t : 0 <= t ->
  let d := t - half_even t * attoPerNano in
  0 <= half_even t /\ - attoPerNano <= 2 * d <= attoPerNano /\
  (Z.abs (2 * d) = attoPerNano -> half_even t mod 2 = 0).
Proof.
  intros Ht. unfold half_even. pose proof (Z.div_mod t attoPerNano ltac:(discriminate)).
  pose proof (Z.mod_pos_bound t attoPerNano ltac:(reflexivity)).
  pose proof (Z.div_pos t attoPerNano Ht ltac:(reflexivity)).
  set (q := t / attoPerNano) in *. set (r := t mod attoPerNano) in *.
  pose proof (Z.mod_pos_bound q 2 ltac:(lia)). pose proof (Z.div_mod q 2 ltac:(lia)).
  unfold attoPerNano in *.
  destruct (Z.ltb_spec 1000000000 (2 * r)), (Z.eqb_spec (2 * r) 1000000000), (Z.eqb_spec (q mod 2) 1);
    cbn [orb andb]; repeat split; intros; try lia.
  symmetry. apply Z.mod_unique_pos with (q / 2 + 1); lia.
Qed.

Lemma carry_amt carry : Z.abs carry < attoPerNano ->
  exists c, (if carry <? 0 then mkAmt (carry <? 0) (u64To128 (u64 (i64 (- carry))))
             else mkAmt (carry <? 0) (u64To128 (u64 carry))) = c /\ awf c /\ sval c = carry.
Proof.
  intros H. eexists. split; [reflexivity|]. unfold attoPerNano in H.
  destruct (Z.ltb_spec carry 0); unfold awf, sval; cbn [neg m].
  - rewrite i64_id, u64_id by (widths; lia).
    unfold u64To128. repeat split; cbn; wide; lia.
  - rewrite u64_id by (widths; lia). unfold u64To128. repeat split; cbn; wide; lia.
Qed.

Lemma land_1_mod2 z : 0 <= z -> (Z.land z 1 =? 1) = (z mod 2 =? 1).
Proof.
  intros _. replace (Z.land z 1) with (z mod 2); [reflexivity|].
  symmetry. change 1 with (Z.ones 1). rewrite Z.land_ones by lia. reflexivity.
Qed.

(** The tail of [roundToNano] on the magnitude it rounds. *)
Lemma round_quotient (t : u128) : wf t ->
  exists q r, mulDiv t 1 attoPerNano = Some (q, r, true) /\ wf q /\
    val q = val t / attoPerNano /\ r = val t mod attoPerNano /\ val q <= two128 - 2.
Proof.
  intros Ht. pose proof (val_range t Ht).
  destruct (mulDiv_val t 1 attoPerNano) as (q & r & ok & -> & Hq & Vr & Vq & Eo);
    try assumption; try (unfold attoPerNano; wide; lia).
  rewrite Z.mul_1_r in *.
  assert (0 <= val t / attoPerNano) by (apply Z.div_pos; [lia|reflexivity]).
  assert (val t / attoPerNano <= two128 - 2).
  { enough (val t / attoPerNano < two128 - 1) by lia.
    apply Z.div_lt_upper_bound; unfold attoPerNano, two128 in *; lia. }
  rewrite Z.mod_small in Vq by lia. rewrite (proj2 (Z.ltb_lt _ _)) in Eo by lia. subst ok.
  exists q, r. repeat split; try apply Hq; try assumption; lia.
Qed.

Lemma lo_parity q : wf q -> lo q mod 2 = val q mod 2.
Proof.
  intros [_ _]. unfold val. rewrite Z.add_comm. change two64 with (2 * 9223372036854775808).
  replace (hi q * (2 * 9223372036854775808)) with (hi q * 9223372036854775808 * 2) by ring.
  rewrite Z.mod_add by lia. reflexivity.
Qed.

Lemma lo_max q : wf q -> negb (hi q =? 0) || (maxInt64 <? lo q) = (maxInt64 <? val q).
Proof.
  intros [? ?]. unfold maxInt64. wide.
  destruct (Z.eqb_spec (hi q) 0), (Z.ltb_spec 9223372036854775807 (lo q)),
    (Z.ltb_spec 9223372036854775807 (hi q * 18446744073709551616 + lo q)); cbn; lia.
Qed.

Lemma round_mag_spec (q : u128) (t : Z) : wf q -> 0 <= t -> val q = t / attoPerNano ->
  val q <= two128 - 2 ->
  let r := t mod attoPerNano in
  let twice := u64 (r * 2) in
  let inc := if (attoPerNano <? twice)
                || ((twice =? attoPerNano) && (Z.land (lo q) 1 =? 1)) then 1 else 0 in
  exists q', (if inc =? 1 then add q (u64To128 1) else (q, true)) = (q', true) /\ wf q' /\
    val q' = half_even t /\
    i64 (i64 r - i64 (i64 inc * attoPerNano)) = t - half_even t * attoPerNano.
Proof.
  intros Hq Ht Vq Hmax r twice. pose proof (Z.mod_pos_bound t attoPerNano ltac:(reflexivity)) as MB.
  pose proof (Z.div_mod t attoPerNano ltac:(discriminate)) as DM.
  assert (twice = 2 * r) as -> by (unfold twice, r; rewrite u64_id; [lia|unfold attoPerNano in *; widths; lia]).
  assert ((Z.land (lo q) 1 =? 1) = (t / attoPerNano mod 2 =? 1)) as ->.
  { destruct Hq as [? ?]. rewrite land_1_mod2 by (wide; lia). rewrite lo_parity, Vq by (split; assumption).
    reflexivity. }
  unfold half_even. fold r. pose proof (val_range q Hq).
  destruct ((attoPerNano <? 2 * r) || ((2 * r =? attoPerNano) && (t / attoPerNano mod 2 =? 1))) eqn:C;
    cbv zeta; cbv iota.
  - change (1 =? 1) with true; cbv iota. destruct (add q (u64To128 1)) as [q' ok] eqn:A.
    apply add_val in A as (Hq' & Vq' & Eo); [|assumption|apply wf_intro; wide; lia].
    replace (val (u64To128 1)) with 1 in * by reflexivity.
    rewrite Z.mod_small in Vq' by lia. rewrite (proj2 (Z.ltb_lt _ _)) in Eo by lia. subst ok.
    exists q'. repeat split; try apply Hq'; try lia.
    assert (i64 r = r) as -> by (apply i64_id; unfold r, attoPerNano in *; widths; lia).
    change (i64 (i64 1 * attoPerNano)) with attoPerNano.
    rewrite i64_id; unfold r, attoPerNano in *; widths; lia.
  - change (0 =? 1) with false; cbv iota. exists q. repeat split; try apply Hq; try lia.
    assert (i64 r = r) as -> by (apply i64_id; unfold r, attoPerNano in *; widths; lia).
    change (i64 (i64 0 * attoPerNano)) with 0.
    rewrite i64_id; unfold r, attoPerNano in *; widths; lia.
Qed.

(** ** Facts about literals *)

Lemma is_digit_range c : is_digit c = true <-> 48 <= c <= 57.
Proof. unfold is_digit. rewrite andb_true_iff, !Z.leb_le. reflexivity. Qed.

Lemma allDigits_digits s : allDigits s = true <-> digits s.
Proof.
  unfold allDigits, digits. rewrite forallb_forall, Forall_forall.
  split; intros H x Hx; apply is_digit_range; auto.
Qed.

Lemma digit_loop_spec part v : digits part -> is_u64 v ->
  digit_loop part v = if dval part v <? two64 then Ok (dval part v) else Err ErrOverflow.
Proof.
  intros H. revert v. induction H as [|c part Hc Hp IH]; intros v Hv.
  - cbn [digit_loop]. cbn [dval fold_left]. rewrite (proj2 (Z.ltb_lt _ _)); [reflexivity|apply Hv].
  - cbn [digit_loop]. destruct (Mul64 v 10) as [h l] eqn:M.
    apply Mul64_spec in M as (Hl & Hh & EM); [|assumption|wide; lia].
    assert (G : v * 10 + (c - 48) <= dval (c :: part) v)
      by (apply (dval_nonneg part (v * 10 + (c - 48))); [assumption|unfold is_u64 in Hv; lia]).
    assert (u8 (c - 48) = c - 48) as -> by (apply Z.mod_small; lia).
    rewrite u64_id by (widths; lia).
    destruct (Z.eqb_spec h 0) as [->|NZ]; cbn [negb].
    + destruct (Add64 l (c - 48) 0) as [s k] eqn:A. apply Add64_spec in A as [Hs EA].
      destruct (Z.eqb_spec k 0) as [->|NK]; cbn [negb].
      * rewrite IH by assumption. replace s with (v * 10 + (c - 48)) by lia. reflexivity.
      * rewrite (proj2 (Z.ltb_ge _ _)); [reflexivity|]. wide; nia.
    + rewrite (proj2 (Z.ltb_ge _ _)); [reflexivity|]. wide; nia.
Qed.

Lemma IndexByte_none s c : IndexByte s c = None <-> ~ In c s.
Proof.
  induction s as [|x s IH]; cbn; [tauto|].
  destruct (Z.eqb_spec x c) as [->|N]; [split; [discriminate|intros H; tauto]|].
  destruct (IndexByte s c); cbn; [split; [discriminate|]|]; [|tauto].
  intros H. enough (Some n = None) by discriminate. apply IH. tauto.
Qed.

Lemma IndexByte_app s c t : ~ In c s -> IndexByte (s ++ c :: t) c = Some (length s).
Proof.
  induction s as [|x s IH]; cbn; [rewrite Z.eqb_refl; reflexivity|].
  intros H. rewrite (proj2 (Z.eqb_neq x c)) by tauto. rewrite IH by tauto. reflexivity.
Qed.

Lemma IndexByte_some s c n : IndexByte s c = Some n ->
  exists t, s = firstn n s ++ c :: t /\ skipn (S n) s = t /\ ~ In c (firstn n s).
Proof.
  revert n. induction s as [|x s IH]; cbn; intros n; [discriminate|].
  destruct (Z.eqb_spec x c) as [->|N].
  - intros E; inv E. exists s. cbn. tauto.
  - destruct (IndexByte s c) as [k|]; cbn; [|discriminate]. intros E; inv E.
    destruct (IH k eq_refl) as (t & E1 & E2 & NI). exists t. cbn [firstn skipn In app].
    split; [f_equal; exact E1|]. split; [exact E2|]. intros [?|?]; [congruence|tauto].
Qed.

Lemma drop_while_eq_spec c s :
  exists k, s = repeat c k ++ drop_while_eq c s.
Proof.
  induction s as [|x s [k IH]]; [exists O; reflexivity|].
  cbn. destruct (Z.eqb_spec x c) as [->|N]; [|exists O; reflexivity].
  exists (S k). cbn. f_equal. exact IH.
Qed.

Lemma TrimRight1_spec s c : exists k, s = TrimRight1 s c ++ repeat c k.
Proof.
  unfold TrimRight1. destruct (drop_while_eq_spec c (rev s)) as [k E]. exists k.
  apply (f_equal (@rev Z)) in E. rewrite rev_involutive, rev_app_distr in E.
  rewrite E at 1. f_equal. clear. induction k as [|k IH]; [reflexivity|].
  cbn. rewrite IH. clear. induction k; cbn; congruence.
Qed.

Lemma dval_zeros k v : dval (repeat 48 k) v = v * 10 ^ Z.of_nat k.
Proof.
  rewrite dval_shift, repeat_length. enough (dval (repeat 48 k) 0 = 0) by lia.
  induction k; [reflexivity|exact IHk].
Qed.

Lemma digits_no c s : digits s -> (c < 48 \/ 57 < c) -> ~ In c s.
Proof. intros H Hc I. eapply Forall_forall in H; [|exact I]. cbn in H. lia. Qed.

(** What [parseDecimal] answers on a well-formed literal. *)
Definition literal_result (ng : bool) (ip fp t : bytes) : result num_error decimal :=
  let fp' := TrimRight1 fp 48 in
  if maxPriceScale <? Z.of_nat (length fp') then Err ErrTooManyDigits
  else if two64 <=? dval (ip ++ fp') 0 then Err ErrOverflow
  else if dval (ip ++ fp') 0 =? 0 then Ok (mkDecimal false 0 0 t)
  else Ok (mkDecimal ng (dval (ip ++ fp') 0) (Z.of_nat (length fp')) t).

Lemma TrimRight1_digits s : digits s -> digits (TrimRight1 s 48).
Proof.
  intros H. destruct (TrimRight1_spec s 48) as [k E]. rewrite E in H.
  apply Forall_app in H. apply H.
Qed.

(** The two digit loops run one after the other read the concatenation. *)
Lemma digit_loops ip fp : digits ip -> digits fp ->
  (match digit_loop ip 0 with Ok v => digit_loop fp v | Err e => Err e end)
  = if dval (ip ++ fp) 0 <? two64 then Ok (dval (ip ++ fp) 0) else Err ErrOverflow.
Proof.
  intros Hi Hf. rewrite digit_loop_spec by (assumption || (widths; lia)).
  rewrite dval_app. pose proof (dval_nonneg ip 0 Hi ltac:(lia)).
  destruct (Z.ltb_spec (dval ip 0) two64).
  - apply digit_loop_spec; [assumption|split; lia].
  - pose proof (dval_nonneg fp (dval ip 0) Hf ltac:(lia)).
    rewrite (proj2 (Z.ltb_ge _ _)) by lia. reflexivity.
Qed.

Lemma body_result ip fp ng t : digits ip -> digits fp ->
  (if maxPriceScale <? Z.of_nat (length (TrimRight1 fp 48)) then Err ErrTooManyDigits
   else
     match digit_loop ip 0 with
     | Ok v1 =>
         match digit_loop (TrimRight1 fp 48) v1 with
         | Ok v => if v =? 0 then Ok (mkDecimal false v 0 t)
                   else Ok (mkDecimal ng v (u8 (Z.of_nat (length (TrimRight1 fp 48)))) t)
         | Err e => Err e
         end
     | Err e => Err e
     end) = literal_result ng ip fp t.
Proof.
  intros Hi Hf. unfold literal_result. pose proof (digit_loops ip _ Hi (TrimRight1_digits _ Hf)) as L.
  set (f := TrimRight1 fp 48) in *.
  destruct (Z.ltb_spec maxPriceScale (Z.of_nat (length f))); [reflexivity|].
  rewrite Z.leb_antisym. unfold maxPriceScale in *.
  replace (u8 (Z.of_nat (length f))) with (Z.of_nat (length f))
    by (symmetry; apply Z.mod_small; lia).
  destruct (digit_loop ip 0) as [v1|e]; [destruct (digit_loop f v1)|];
    destruct (Z.ltb_spec (dval (ip ++ f) 0) two64); cbn [negb]; inv L; try reflexivity.
  destruct (Z.eqb_spec (dval (ip ++ f) 0) 0) as [->|]; reflexivity.
Qed.

Lemma literal_chars ng sgn ip dot fp t : literal ng sgn ip dot fp t ->
  Forall (fun c => c = 46 \/ 48 <= c <= 57) (ip ++ dot ++ fp).
Proof.
  intros (_ & _ & Hd & Hi & Hf & _).
  assert (D : forall s, digits s -> Forall (fun c => c = 46 \/ 48 <= c <= 57) s)
    by (intros s; apply Forall_impl; tauto).
  rewrite !Forall_app. repeat split; auto.
  destruct Hd as [-> | [-> _]]; repeat constructor.
Qed.

Lemma literal_sign ng sgn ip dot fp t : literal ng sgn ip dot fp t ->
  split_sign t = (ng, ip ++ dot ++ fp) /\ ip ++ dot ++ fp <> [] /\ t <> [].
Proof.
  intros L. pose proof (literal_chars _ _ _ _ _ _ L) as C.
  destruct L as (-> & Hs & _ & _ & _ & NE).
  assert (B : ip ++ dot ++ fp <> []).
  { intros E. apply app_eq_nil in E as [-> E]. apply app_eq_nil in E as [_ ->]. now apply NE. }
  split; [|split; [assumption|intros E; apply app_eq_nil in E; tauto]].
  destruct Hs as [[-> ->] | [[-> ->] | [-> ->]]]; cbn [app]; [|reflexivity|reflexivity].
  destruct (ip ++ dot ++ fp) as [|c s]; [contradiction|]. inversion C as [|? ? Hc _]; subst.
  cbn [split_sign]. rewrite (proj2 (Z.eqb_neq c 43)), (proj2 (Z.eqb_neq c 45)) by lia. reflexivity.
Qed.

Lemma literal_split ng sgn ip dot fp t : literal ng sgn ip dot fp t ->
  split_dot (ip ++ dot ++ fp) = Some (ip, fp).
Proof.
  intros (_ & _ & Hd & Hi & Hf & _). unfold split_dot.
  assert (~ In 46 ip) by (apply digits_no; [assumption|lia]).
  assert (~ In 46 fp) by (apply digits_no; [assumption|lia]).
  destruct Hd as [-> | [-> ->]]; cbn [app].
  - rewrite IndexByte_app by assumption.
    replace (skipn (S (length ip)) (ip ++ 46 :: fp)) with fp.
    + rewrite (proj2 (IndexByte_none fp 46)) by assumption.
      rewrite firstn_app, Nat.sub_diag, firstn_all, app_nil_r. reflexivity.
    + rewrite skipn_app, skipn_all2 by lia. replace (S (length ip) - length ip)%nat with 1%nat by lia.
      reflexivity.
  - rewrite app_nil_r. rewrite (proj2 (IndexByte_none ip 46)) by assumption. reflexivity.
Qed.

Lemma parseDecimal_of_literal ng sgn ip dot fp s :
  literal ng sgn ip dot fp (TrimSpace s) ->
  parseDecimal s = literal_result ng ip fp (TrimSpace s).
Proof.
  intros L. unfold parseDecimal. set (t := TrimSpace s) in *.
  destruct (literal_sign _ _ _ _ _ _ L) as (SS & NB & NT). pose proof (literal_chars _ _ _ _ _ _ L) as C.
  assert (NX : forall c, 57 < c -> has_byte (ip ++ dot ++ fp) c = false).
  { intros c Hc. unfold has_byte. rewrite (proj2 (IndexByte_none _ c)); [reflexivity|].
    intros I. eapply Forall_forall in C; [|exact I]. cbn in C. lia. }
  rewrite SS, !NX, (literal_split _ _ _ _ _ _ L) by lia. clear NX.
  destruct L as (_ & _ & _ & Hi & Hf & NE).
  rewrite (proj2 (allDigits_digits ip)), (proj2 (allDigits_digits fp)) by assumption.
  destruct t; [contradiction|]. destruct (ip ++ dot ++ fp) eqn:E; [contradiction|]. cbn [orb negb].
  destruct ip as [|ci ip]; [destruct fp as [|cf fp]; [now elim NE|]|];
    apply body_result; assumption.
Qed.

Lemma parseDecimal_accepts_literal s d : parseDecimal s = Ok d ->
  exists ng sgn ip dot fp, literal ng sgn ip dot fp (TrimSpace s).
Proof.
  unfold parseDecimal. set (t := TrimSpace s). intros H.
  destruct t as [|c0 t0] eqn:Et; [discriminate|]. rewrite <- Et in *.
  destruct (split_sign t) as [ng body] eqn:SS. destruct body as [|b0 b] eqn:Eb; [discriminate|].
  rewrite <- Eb in *. destruct (has_byte body 101 || has_byte body 69); [discriminate|].
  destruct (split_dot body) as [[ip fp]|] eqn:SD; [|discriminate].
  destruct (match ip, fp with [], [] => true | _, _ => false end) eqn:NEb; [discriminate|].
  destruct (allDigits ip) eqn:Di, (allDigits fp) eqn:Df; cbn [negb orb] in H; try discriminate.
  apply allDigits_digits in Di, Df. clear H.
  assert (NE : ip ++ fp <> []) by (destruct ip, fp; discriminate).
  assert (exists dot, body = ip ++ dot ++ fp /\ (dot = [46] \/ dot = [] /\ fp = [])) as (dot & B & Hd).
  { unfold split_dot in SD. destruct (IndexByte body 46) as [n|] eqn:I.
    - apply IndexByte_some in I as (u & E1 & E2 & _). rewrite E2 in SD.
      destruct (IndexByte u 46); [discriminate|]. inv SD. exists [46]. cbn [app]. tauto.
    - inv SD. exists []. cbn. rewrite app_nil_r. tauto. }
  assert (exists sgn, t = sgn ++ body /\
            (sgn = [] /\ ng = false \/ sgn = [43] /\ ng = false \/ sgn = [45] /\ ng = true)) as (sgn & T & Hs).
  { rewrite Et in SS |- *. cbn [split_sign] in SS.
    destruct (Z.eqb_spec c0 43) as [->|]; [|destruct (Z.eqb_spec c0 45) as [->|]];
      cbn in SS; inversion SS; subst ng; [exists [43]|exists [45]|exists []]; cbn; rewrite <- ?Eb; tauto. }
  exists ng, sgn, ip, dot, fp. rewrite B in T. repeat split; assumption.
Qed.

Lemma literal_result_exact ng ip fp t d : digits ip -> digits fp ->
  literal_result ng ip fp t = Ok d ->
  is_u64 (units d) /\ 0 <= scale d <= maxPriceScale /\
  units d * 10 ^ Z.of_nat (length fp) = dval (ip ++ fp) 0 * 10 ^ scale d /\
  dneg d = ng && negb (units d =? 0) /\ dtext d = t.
Proof.
  intros Hi Hf. unfold literal_result, maxPriceScale.
  destruct (TrimRight1_spec fp 48) as [k E]. pose proof (TrimRight1_digits fp Hf) as Hf'.
  generalize dependent (TrimRight1 fp 48). intros f E Hf'.
  assert (V : dval (ip ++ fp) 0 = dval (ip ++ f) 0 * 10 ^ Z.of_nat k)
    by (rewrite E, app_assoc, dval_app, dval_zeros; reflexivity).
  assert (L : Z.of_nat (length fp) = Z.of_nat (length f) + Z.of_nat k)
    by (rewrite E, length_app, repeat_length; lia).
  pose proof (dval_nonneg (ip ++ f) 0 (proj2 (Forall_app _ _ _) (conj Hi Hf')) ltac:(lia)).
  destruct (Z.ltb_spec 12 (Z.of_nat (length f))); [discriminate|].
  destruct (Z.leb_spec two64 (dval (ip ++ f) 0)); [discriminate|].
  rewrite V, L, Z.pow_add_r by lia.
  destruct (Z.eqb_spec (dval (ip ++ f) 0) 0) as [Z0|NZ]; intros X; inv X;
    cbn [units scale dneg dtext].
  - rewrite Z0. repeat split; try (widths; lia).
  - rewrite (proj2 (Z.eqb_neq _ _) NZ), andb_true_r. repeat split; try lia.
Qed.

(** ** Properties *)

(** The sign is put back after rounding the magnitude. *)
Lemma signed_round (ng : bool) (t x n rem : Z) :
  t = (if ng then - x else x) -> 0 <= x -> n = half_even x -> n <= maxInt64 ->
  rem = x - n * attoPerNano ->
  let nano := if ng then i64 (- n) else n in
  let c := if ng then i64 (- rem) else rem in
  nano = Z.sgn t * half_even (Z.abs t) /\ is_i64 nano /\ nano * attoPerNano + c = t /\
  2 * Z.abs c <= attoPerNano /\ (2 * Z.abs c = attoPerNano -> nano mod 2 = 0).
Proof.
  intros Et Hx -> Hn ->. destruct (half_even_bound x Hx) as (HP & HB & HE).
  assert (Z.abs t = x) as -> by (destruct ng; lia).
  assert (Z0 : x = 0 -> half_even x = 0) by (intros ->; reflexivity).
  pose proof (Z.mod_opp_l_z (half_even x) 2 ltac:(lia)) as OPP.
  assert (N : (if ng then - half_even x else half_even x) = Z.sgn t * half_even x)
    by (destruct (Z.eq_dec x 0) as [E|]; [rewrite (Z0 E); destruct ng; lia|];
        destruct ng; [replace (Z.sgn t) with (-1) by lia|replace (Z.sgn t) with 1 by lia]; lia).
  unfold attoPerNano, maxInt64 in *. cbv zeta.
  destruct ng; rewrite ?i64_id by (widths; lia); (split; [exact N|]);
    repeat split; intros; widths; lia.
Qed.

Lemma roundToNano_spec v carry : awf v -> Z.abs carry < attoPerNano ->
  let t := sval v + carry in
  exists nano newCarry err, roundToNano v carry = Some (nano, newCarry, err) /\
    if (Z.abs t <? two128) && (half_even (Z.abs t) <=? maxInt64) then
      err = None /\ nano = Z.sgn t * half_even (Z.abs t) /\ is_i64 nano /\
      nano * attoPerNano + newCarry = t /\ 2 * Z.abs newCarry <= attoPerNano /\
      (2 * Z.abs newCarry = attoPerNano -> nano mod 2 = 0)
    else err = Some ErrOverflow /\ newCarry = carry.
Proof.
  intros Hv Hc t. unfold roundToNano.
  destruct (carry_amt carry Hc) as (c & -> & Wc & Sc).
  destruct (addAmt v c) as [ta ok] eqn:A. apply addAmt_sval in A as (Wt & Ht & ->); try assumption.
  rewrite Sc in *. fold t in Ht |- *.
  destruct (Z.ltb_spec (Z.abs t) two128) as [Lt|Ge]; cbn [negb andb]; [|eauto 8].
  destruct (Ht eq_refl) as [_ St]. clear Ht. pose proof (val_range _ Wt).
  assert (Z.abs t = val (m ta)) as Et by (unfold sval in St; destruct (neg ta); lia).
  destruct (round_quotient (m ta) Wt) as (q & r & -> & Hq & Vq & -> & Hmax). cbn [negb].
  destruct (round_mag_spec q (val (m ta)) Hq ltac:(lia) Vq Hmax) as (q' & E & Hq' & Vq' & R).
  cbv zeta in E, R |- *. rewrite E. cbn [negb]. rewrite lo_max, Vq' by assumption.
  destruct (half_even_bound (val (m ta)) ltac:(lia)) as (HP & HB & HE).
  rewrite Et, Z.leb_antisym.
  destruct (Z.ltb_spec maxInt64 (half_even (val (m ta)))) as [Big|Small]; cbn [negb]; [eauto 8|].
  assert (L : lo q' = half_even (val (m ta)))
    by (destruct Hq'; unfold maxInt64 in *; wide; lia).
  rewrite R, L, (i64_id (half_even (val (m ta)))) by (unfold maxInt64 in Small; widths; lia).
  pose proof (signed_round (neg ta) t (val (m ta)) _ _ (eq_sym St) ltac:(lia) eq_refl Small eq_refl) as SR.
  cbv zeta in SR. rewrite Et in SR.
  destruct (neg ta); do 3 eexists; (split; [reflexivity|]); (split; [reflexivity|]); exact SR.
Qed.

(** [roundToNano] settles every amount exactly: with a carry below one nano
    it never panics; it succeeds exactly when the rounded magnitude fits an
    [int64] (otherwise it reports [ErrOverflow] and leaves the carry alone);
    and on success nothing is lost, the nano amount and the new carry adding up
    to the amount and the old carry, with the carry at most half a nano and
    ties going to the even nano. *)
Theorem roundToNano_conserves v carry : awf v -> Z.abs carry < attoPerNano ->
  let t := sval v + carry in
  exists nano newCarry err, roundToNano v carry = Some (nano, newCarry, err) /\
    if (Z.abs t <? two128) && (half_even (Z.abs t) <=? maxInt64) then
      err = None /\ nano = Z.sgn t * half_even (Z.abs t) /\ is_i64 nano /\
      nano * attoPerNano + newCarry = t /\ 2 * Z.abs newCarry <= attoPerNano /\
      (2 * Z.abs newCarry = attoPerNano -> nano mod 2 = 0)
    else err = Some ErrOverflow /\ newCarry = carry.
Proof. apply roundToNano_spec. Qed.

Lemma roundToNano_conserves_witness :
  exists nano newCarry err,
    roundToNano (mkAmt true (mkU128 0 2500000000)) (-7) = Some (nano, newCarry, err) /\
    if (Z.abs (sval (mkAmt true (mkU128 0 2500000000)) + -7) <? two128)
       && (half_even (Z.abs (sval (mkAmt true (mkU128 0 2500000000)) + -7)) <=? maxInt64) then
      err = None /\
      nano = Z.sgn (sval (mkAmt true (mkU128 0 2500000000)) + -7)
             * half_even (Z.abs (sval (mkAmt true (mkU128 0 2500000000)) + -7)) /\ is_i64 nano /\
      nano * attoPerNano + newCarry = sval (mkAmt true (mkU128 0 2500000000)) + -7 /\
      2 * Z.abs newCarry <= attoPerNano /\
      (2 * Z.abs newCarry = attoPerNano -> nano mod 2 = 0)
    else err = Some ErrOverflow /\ newCarry = -7.
Proof.
  apply roundToNano_conserves; [|reflexivity].
  split; [apply wf_intro; wide; lia|cbn; wide; lia].
Defined.

(** [addNano] returns the exact sum when it fits an [int64] and
    [ErrOverflow] otherwise, for all [int64] arguments. *)
Theorem addNano_exact a b : is_i64 a -> is_i64 b ->
  addNano a b = if (- two63 <=? a + b) && (a + b <? two63) then Ok (a + b) else Err ErrOverflow.
Proof.
  intros Ha Hb. unfold addNano.
  assert ((i64 (a + b) = a + b /\ - two63 <= a + b < two63) \/ (i64 (a + b) = a + b - two64 /\ two63 <= a + b) \/
          (i64 (a + b) = a + b + two64 /\ a + b < - two63)) as C.
  { destruct (Z.ltb_spec (a + b) (- two63)); [|destruct (Z.ltb_spec (a + b) two63)].
    - right; right. split; [|assumption]. unfold i64. widths.
      replace ((a + b + 9223372036854775808) mod 18446744073709551616)
        with (a + b + 9223372036854775808 + 18446744073709551616); [lia|].
      apply Z.mod_unique_pos with (-1); lia.
    - left. split; [apply i64_id; widths; lia|lia].
    - right; left. split; [|assumption]. unfold i64. widths.
      replace ((a + b + 9223372036854775808) mod 18446744073709551616)
        with (a + b + 9223372036854775808 - 18446744073709551616); [lia|].
      apply Z.mod_unique_pos with 1; lia. }
  destruct (Z.leb_spec (- two63) (a + b)), (Z.ltb_spec (a + b) two63);
  destruct (Z.ltb_spec 0 a), (Z.ltb_spec 0 b), (Z.ltb_spec a 0), (Z.ltb_spec b 0),
    (Z.ltb_spec (i64 (a + b)) 0), (Z.leb_spec 0 (i64 (a + b))); cbn [andb orb]; f_equal;
    widths; lia.
Qed.

Lemma addNano_exact_witness :
  addNano 9223372036854775807 1 =
  if (- two63 <=? 9223372036854775807 + 1) && (9223372036854775807 + 1 <? two63)
  then Ok (9223372036854775807 + 1) else Err ErrOverflow.
Proof. apply addNano_exact; widths; lia. Defined.

(** [parseDecimal] never changes a price: whatever it accepts is a signed
    digit literal with at most one dot, and the decimal it returns denotes
    exactly that literal, in lowest terms of trailing zeros, within 64-bit
    units and at most twelve fractional digits. *)
Theorem parseDecimal_exact s d : parseDecimal s = Ok d ->
  exists ng sgn ip dot fp, literal ng sgn ip dot fp (TrimSpace s) /\
    is_u64 (units d) /\ 0 <= scale d <= maxPriceScale /\
    units d * 10 ^ Z.of_nat (length fp) = dval (ip ++ fp) 0 * 10 ^ scale d /\
    dneg d = ng && negb (units d =? 0) /\ dtext d = TrimSpace s.
Proof.
  intros H. destruct (parseDecimal_accepts_literal s d H) as (ng & sgn & ip & dot & fp & L).
  exists ng, sgn, ip, dot, fp. split; [exact L|].
  rewrite (parseDecimal_of_literal _ _ _ _ _ _ L) in H.
  destruct L as (_ & _ & _ & Hi & Hf & _). eapply literal_result_exact; eassumption.
Qed.

(** [" -12.3400"]. *)
Definition sample_literal : bytes := [32; 45; 49; 50; 46; 51; 52; 48; 48].

Lemma parseDecimal_exact_witness :
  exists ng sgn ip dot fp, literal ng sgn ip dot fp (TrimSpace sample_literal) /\
    is_u64 (units (mkDecimal true 1234 2 (tl sample_literal))) /\
    0 <= scale (mkDecimal true 1234 2 (tl sample_literal)) <= maxPriceScale /\
    units (mkDecimal true 1234 2 (tl sample_literal)) * 10 ^ Z.of_nat (length fp)
      = dval (ip ++ fp) 0 * 10 ^ scale (mkDecimal true 1234 2 (tl sample_literal)) /\
    dneg (mkDecimal true 1234 2 (tl sample_literal))
      = ng && negb (units (mkDecimal true 1234 2 (tl sample_literal)) =? 0) /\
    dtext (mkDecimal true 1234 2 (tl sample_literal)) = TrimSpace sample_literal.
Proof. apply parseDecimal_exact. vm_compute. reflexivity. Defined.

(** [parseDecimal] accepts every well-formed literal it can represent: on a
    literal whose significant fraction has at most twelve digits and whose
    digits fit 64 bits it succeeds, and the two refusals are exactly the other
    two cases. *)
Theorem parseDecimal_complete ng sgn ip dot fp s :
  literal ng sgn ip dot fp (TrimSpace s) ->
  let significant := TrimRight1 fp 48 in
  parseDecimal s =
    if maxPriceScale <? Z.of_nat (length significant) then Err ErrTooManyDigits
    else if two64 <=? dval (ip ++ significant) 0 then Err ErrOverflow
    else if dval (ip ++ significant) 0 =? 0 then Ok (mkDecimal false 0 0 (TrimSpace s))
    else Ok (mkDecimal ng (dval (ip ++ significant) 0)
               (Z.of_nat (length significant)) (TrimSpace s)).
Proof. apply parseDecimal_of_literal. Qed.

Lemma parseDecimal_complete_witness :
  let significant := TrimRight1 [51; 52; 48; 48] 48 in
  parseDecimal sample_literal =
    if maxPriceScale <? Z.of_nat (length significant) then Err ErrTooManyDigits
    else if two64 <=? dval ([49; 50] ++ significant) 0 then Err ErrOverflow
    else if dval ([49; 50] ++ significant) 0 =? 0
    then Ok (mkDecimal false 0 0 (TrimSpace sample_literal))
    else Ok (mkDecimal true (dval ([49; 50] ++ significant) 0)
               (Z.of_nat (length significant)) (TrimSpace sample_literal)).
Proof.
  apply (parseDecimal_complete true [45] [49; 50] [46]). vm_compute.
  repeat split; try (repeat constructor; discriminate); auto; discriminate.
Defined.

(** The atto form of every parsed price is exact and fits 128 bits, which
    is what the twelve-digit bound on prices is for. *)
Theorem atto_exact s d : parseDecimal s = Ok d ->
  exists v, atto d = Some (v, true) /\ wf v /\
    val v * 10 ^ scale d = units d * 10 ^ attoScale.
Proof.
  intros H. destruct (parseDecimal_accepts_literal s d H) as (ng & sgn & ip & dot & fp & L).
  rewrite (parseDecimal_of_literal _ _ _ _ _ _ L) in H. destruct L as (_ & _ & _ & Hi & Hf & _).
  destruct (literal_result_exact _ _ _ _ _ Hi Hf H) as (U & Sc & _). clear H.
  unfold atto, pow10_at, attoScale, maxPriceScale in *.
  rewrite (proj2 (Z.ltb_ge (18 - scale d) 0)) by lia.
  assert (P : nth_error pow10 (Z.to_nat (18 - scale d)) = Some (10 ^ (18 - scale d))).
  { assert (C : In (scale d) [0; 1; 2; 3; 4; 5; 6; 7; 8; 9; 10; 11; 12]) by (cbn; lia).
    repeat destruct C as [<- | C]; try reflexivity. destruct C. }
  rewrite P.
  assert (B : 0 < 10 ^ (18 - scale d) <= 1000000000000000000).
  { split; [apply Z.pow_pos_nonneg; lia|].
    change 1000000000000000000 with (10 ^ 18). apply Z.pow_le_mono_r; lia. }
  destruct (mul_val (u64To128 (units d)) (10 ^ (18 - scale d))) as (v & ok & -> & Hv & Vv & ->);
    [apply wf_intro; wide; lia|wide; lia|].
  replace (val (u64To128 (units d))) with (units d) in * by (unfold u64To128; wide; lia).
  rewrite Z.mod_small in Vv by (wide; nia).
  exists v. rewrite (proj2 (Z.ltb_lt _ _)) by (wide; nia). split; [reflexivity|].
  split; [assumption|]. rewrite Vv, <- Z.mul_assoc, <- Z.pow_add_r by lia. do 2 f_equal. lia.
Qed.

Lemma atto_exact_witness :
  exists v, atto (mkDecimal true 1234 2 (tl sample_literal)) = Some (v, true) /\ wf v /\
    val v * 10 ^ scale (mkDecimal true 1234 2 (tl sample_literal))
    = units (mkDecimal true 1234 2 (tl sample_literal)) * 10 ^ attoScale.
Proof. apply (atto_exact sample_literal). vm_compute. reflexivity. Defined.
