(* ===== verification/WaitQueue.v ===== *)
(** * The per-axis wait queue ([internal/capacity/queue.go])

    A binary heap of waiters ordered by arrival sequence, with the position of
    every member cached in the member so that removal needs no scan. The file
    states what a queue promises its client as a class, models the heap with the
    [container/heap] algorithms it is driven by, and proves the heap keeps the
    promise. A waiter is named by its sequence number, which is unique. *)
From stdpp Require Import gmap list.
From Stdlib Require Import Lia.

(** ** The interface *)

(** What the broker relies on: a finite set of waiters with its oldest member
    at the head. [qcontents] is the abstract value of a queue and [qvalid] the
    states the operations keep. *)
Class WaitQueue (Q : Type) := {
  qempty : Q;
  qLen : Q → nat;
  qhead : Q → option nat;
  qpush : Q → nat → Q;
  qremove : Q → nat → Q;
  qvalid : Q → Prop;
  qcontents : Q → gset nat;
  qempty_valid : qvalid qempty;
  qempty_contents : qcontents qempty = ∅;
  qLen_size q : qvalid q → qLen q = size (qcontents q);
  qhead_none q : qvalid q → qhead q = None ↔ qcontents q = ∅;
  qhead_some q w : qvalid q → qhead q = Some w →
    w ∈ qcontents q ∧ ∀ v, v ∈ qcontents q → w ≤ v;
  qpush_valid q w : qvalid q → w ∉ qcontents q → qvalid (qpush q w);
  qpush_contents q w : qvalid q → w ∉ qcontents q →
    qcontents (qpush q w) = {[w]} ∪ qcontents q;
  qremove_valid q w : qvalid q → qvalid (qremove q w);
  qremove_contents q w : qvalid q → qcontents (qremove q w) = qcontents q ∖ {[w]};
}.

(** ** The heap *)

(** [n] is the backing array of the heap; [idx] the cached position of each
    node, absent standing for -1. *)
Record waitQueue : Type := mkQueue { n : list nat; idx : gmap nat nat }.

Definition Len (q : waitQueue) : nat := length (n q).

Definition Less (q : waitQueue) (i j : nat) : bool :=
  match n q !! i, n q !! j with
  | Some a, Some b => bool_decide (a < b)
  | _, _ => false
  end.

(** Out of range is a panic in the source; [up] and [down] stay in range. *)
Definition Swap (q : waitQueue) (i j : nat) : waitQueue :=
  match n q !! i, n q !! j with
  | Some a, Some b => mkQueue (<[i:=b]> (<[j:=a]> (n q))) (<[a:=j]> (<[b:=i]> (idx q)))
  | _, _ => q
  end.

Definition Push (q : waitQueue) (x : nat) : waitQueue :=
  mkQueue (n q ++ [x]) (<[x:=length (n q)]> (idx q)).

Definition Pop (q : waitQueue) : waitQueue :=
  match last (n q) with
  | Some x => mkQueue (take (length (n q) - 1) (n q)) (delete x (idx q))
  | None => q
  end.

(** [container/heap]'s sifting loops; each round moves to a parent or a child,
    so the index, respectively the length, bounds the rounds. *)
Fixpoint up (fuel : nat) (q : waitQueue) (j : nat) : waitQueue :=
  match fuel with
  | O => q
  | S f =>
      let i := (j - 1) / 2 in
      if decide (i = j) then q
      else if Less q j i then up f (Swap q i j) i else q
  end.

Fixpoint down (fuel : nat) (q : waitQueue) (i m : nat) : waitQueue * nat :=
  match fuel with
  | O => (q, i)
  | S f =>
      let j1 := 2 * i + 1 in
      if decide (m ≤ j1) then (q, i)
      else
        let j := if decide (j1 + 1 < m) then (if Less q (j1 + 1) j1 then j1 + 1 else j1) else j1 in
        if Less q j i then down f (Swap q i j) j m else (q, i)
  end.

Definition heap_Push (q : waitQueue) (x : nat) : waitQueue :=
  let q := Push q x in up (S (Len q)) q (Len q - 1).

Definition heap_Remove (q : waitQueue) (i : nat) : waitQueue :=
  let m := Len q - 1 in
  if decide (m = i) then Pop q
  else
    let '(q, i') := down (S m) (Swap q i m) i m in
    Pop (if decide (i < i') then q else up (S m) q i).

Definition head (q : waitQueue) : option nat := n q !! 0.

Definition push (q : waitQueue) (w : nat) : waitQueue := heap_Push q w.

Definition remove (q : waitQueue) (w : nat) : waitQueue :=
  match idx q !! w with
  | Some i => if decide (n q !! i = Some w) then heap_Remove q i else q
  | None => q
  end.

(** ** Invariant *)

(** Cached positions are right, and every parent is at most its child. *)
Definition idx_ok (q : waitQueue) : Prop :=
  ∀ w i, idx q !! w = Some i ↔ n q !! i = Some w.

Definition edge (q : waitQueue) (p c : nat) : Prop :=
  ∀ a b, n q !! p = Some a → n q !! c = Some b → a ≤ b.

Definition heap_upto (q : waitQueue) (m : nat) : Prop :=
  ∀ k, 0 < k < m → edge q ((k - 1) / 2) k.

Definition queue_ok (q : waitQueue) : Prop := idx_ok q ∧ heap_upto q (Len q).

Definition contents (q : waitQueue) : gset nat := list_to_set (n q).

(** ** Swapping *)

Definition transpose (i j k : nat) : nat :=
  if decide (k = i) then j else if decide (k = j) then i else k.

Lemma Swap_lookup q i j k : i < Len q → j < Len q →
  n (Swap q i j) !! k = n q !! transpose i j k.
Proof.
  unfold Len, Swap, transpose. intros Hi Hj.
  destruct (lookup_lt_is_Some_2 _ _ Hi) as [a Ha], (lookup_lt_is_Some_2 _ _ Hj) as [b Hb].
  rewrite Ha, Hb. cbn. destruct (decide (k = i)) as [->|Ni].
  - rewrite list_lookup_insert_eq; [done|]. by rewrite length_insert.
  - rewrite list_lookup_insert_ne by done. destruct (decide (k = j)) as [->|Nj].
    + by rewrite list_lookup_insert_eq.
    + by rewrite list_lookup_insert_ne.
Qed.

Lemma Swap_Len q i j : Len (Swap q i j) = Len q.
Proof.
  unfold Len, Swap. destruct (n q !! i), (n q !! j); try done. cbn. by rewrite !length_insert.
Qed.

Lemma transpose_invol i j k : transpose i j (transpose i j k) = k.
Proof. unfold transpose. repeat case_decide; congruence. Qed.

Lemma Swap_contents q i j : i < Len q → j < Len q → contents (Swap q i j) = contents q.
Proof.
  intros Hi Hj. apply set_eq. intros x. unfold contents.
  rewrite !elem_of_list_to_set, !list_elem_of_lookup. split; intros [k Hk].
  - rewrite Swap_lookup in Hk by done. eauto.
  - exists (transpose i j k). by rewrite Swap_lookup, transpose_invol.
Qed.

Lemma idx_ok_inj q a i j : idx_ok q → n q !! i = Some a → n q !! j = Some a → i = j.
Proof. intros H Hi Hj. apply H in Hi, Hj. congruence. Qed.

Lemma Swap_idx_ok q i j : i < Len q → j < Len q → idx_ok q → idx_ok (Swap q i j).
Proof.
  intros Hi Hj H w k. rewrite Swap_lookup by done. unfold Len, Swap in *.
  destruct (lookup_lt_is_Some_2 _ _ Hi) as [a Ha], (lookup_lt_is_Some_2 _ _ Hj) as [b Hb].
  rewrite Ha, Hb. cbn. unfold transpose.
  destruct (decide (w = a)) as [->|Na]; [|destruct (decide (w = b)) as [->|Nb]].
  - rewrite lookup_insert_eq. split.
    + intros [= <-]. repeat case_decide; congruence.
    + repeat case_decide; subst; intros E; f_equal; eauto using idx_ok_inj.
      exfalso. eauto using idx_ok_inj.
  - rewrite lookup_insert_ne, lookup_insert_eq by done. split.
    + intros [= <-]. by rewrite decide_True.
    + repeat case_decide; subst; intros E; [done|congruence|].
      exfalso. eauto using idx_ok_inj.
  - rewrite !lookup_insert_ne by done. rewrite (H w k).
    repeat case_decide; subst; split; congruence.
Qed.

(** ** Sifting *)

Lemma Less_spec q i j a b : n q !! i = Some a → n q !! j = Some b →
  Less q i j = bool_decide (a < b).
Proof. unfold Less. by intros -> ->. Qed.

Lemma parent_lt k : 0 < k → (k - 1) / 2 < k.
Proof. intros. apply Nat.Div0.div_lt_upper_bound. lia. Qed.

Lemma parent_child k i : 0 < k → (k - 1) / 2 = i ↔ k = 2 * i + 1 ∨ k = 2 * i + 2.
Proof.
  intros Hk. pose proof (Nat.div_mod_eq (k - 1) 2). pose proof (Nat.mod_upper_bound (k - 1) 2).
  split; [lia|]. intros [-> | ->].
  - replace (2 * i + 1 - 1) with (i * 2) by lia. by rewrite Nat.div_mul.
  - replace (2 * i + 2 - 1) with (1 + i * 2) by lia. by rewrite Nat.div_add.
Qed.

(** Everything but the edge above [j] is in order, and the parent of [j] is
    below the children of [j]. *)
Definition up_inv (q : waitQueue) (j m : nat) : Prop :=
  (∀ k, 0 < k < m → k ≠ j → edge q ((k - 1) / 2) k) ∧
  (∀ k, 0 < k < m → (k - 1) / 2 = j → 0 < j → edge q ((j - 1) / 2) k).

(** What every sifting step below position [m] preserves besides the order. *)
Definition same_queue (m : nat) (q q' : waitQueue) : Prop :=
  Len q' = Len q ∧ contents q' = contents q ∧ (idx_ok q → idx_ok q') ∧
  (∀ k, m ≤ k → n q' !! k = n q !! k).

Lemma same_queue_refl m q : same_queue m q q.
Proof. done. Qed.

Lemma same_queue_trans m q1 q2 q3 : same_queue m q1 q2 → same_queue m q2 q3 → same_queue m q1 q3.
Proof.
  intros (? & ? & ? & F1) (? & ? & ? & F2). split_and!; [congruence|congruence|auto|].
  intros k Hk. by rewrite F2, F1.
Qed.

Lemma Swap_same m q i j : i < m → j < m → m ≤ Len q → same_queue m q (Swap q i j).
Proof.
  intros. split_and!; [apply Swap_Len|apply Swap_contents; lia|apply Swap_idx_ok; lia|].
  intros k Hk. rewrite Swap_lookup by lia. unfold transpose. repeat case_decide; lia || done.
Qed.

Lemma up_step q j m a b : 0 < j < m → m ≤ Len q →
  n q !! j = Some a → n q !! ((j - 1) / 2) = Some b → a < b →
  up_inv q j m → up_inv (Swap q ((j - 1) / 2) j) ((j - 1) / 2) m.
Proof.
  intros Hj Hm Ha Hb Hab [H1 H2]. pose proof (parent_lt j ltac:(lia)).
  set (i := (j - 1) / 2) in *.
  assert (L : ∀ k, n (Swap q i j) !! k = n q !! transpose i j k) by (intros; apply Swap_lookup; lia).
  split.
  - intros k Hk Ne x y. rewrite !L. unfold transpose. pose proof (parent_lt k ltac:(lia)).
    repeat case_decide; simplify_eq; try lia; intros; simplify_eq; try lia.
    + pose proof (H1 k Hk ltac:(done) _ _ ltac:(by rewrite H3) ltac:(done)). lia.
    + eapply (H2 k Hk); eauto; try lia.
    + eapply (H1 k); eauto.
  - intros k Hk Ek Hi x y. rewrite !L. unfold transpose. pose proof (parent_lt i ltac:(lia)).
    assert (n q !! ((i - 1) / 2) = Some x → x ≤ b) by (intros; eapply (H1 i); eauto; lia).
    repeat case_decide; simplify_eq; try lia; intros; simplify_eq; try lia; auto.
    transitivity b; auto. eapply (H1 k); eauto. by rewrite Ek.
Qed.

Lemma up_spec fuel q j m : j < fuel → j < m → m ≤ Len q → up_inv q j m →
  same_queue m q (up fuel q j) ∧ heap_upto (up fuel q j) m.
Proof.
  revert q j. induction fuel as [|f IH]; intros q j Hf Hj Hm Inv; [lia|]. cbn [up].
  case_decide as E.
  { assert (j = 0) as -> by (destruct j; [done|]; pose proof (parent_lt (S j)); lia).
    split; [apply same_queue_refl|]. intros k Hk. apply Inv; lia. }
  assert (0 < j) by (destruct j; [done|lia]). pose proof (parent_lt j ltac:(lia)).
  destruct (lookup_lt_is_Some_2 (n q) j) as [a Ha]; [unfold Len in *; lia|].
  destruct (lookup_lt_is_Some_2 (n q) ((j - 1) / 2)) as [b Hb]; [unfold Len in *; lia|].
  rewrite (Less_spec _ _ _ _ _ Ha Hb). case_bool_decide as C.
  - destruct (IH (Swap q ((j - 1) / 2) j) ((j - 1) / 2)) as [S O];
      [lia|lia|rewrite Swap_Len; lia|eapply up_step; eauto; lia|].
    split; [|done]. eapply same_queue_trans; [|exact S]. apply Swap_same; lia.
  - split; [apply same_queue_refl|]. intros k Hk. destruct (decide (k = j)) as [->|Nk].
    + intros x y Hx Hy. simplify_eq. lia.
    + by apply Inv.
Qed.

(** Everything but the edges at [i] is in order, and the parent of [i] is below
    the children of [i]. *)
Definition down_inv (q : waitQueue) (i m : nat) : Prop :=
  (∀ k, 0 < k < m → (k - 1) / 2 ≠ i → k ≠ i → edge q ((k - 1) / 2) k) ∧
  (∀ k, 0 < k < m → (k - 1) / 2 = i → 0 < i → edge q ((i - 1) / 2) k).

Lemma down_step q i j m a b : 0 < j < m → (j - 1) / 2 = i → m ≤ Len q →
  n q !! i = Some a → n q !! j = Some b → b < a →
  (∀ k, 0 < k < m → (k - 1) / 2 = i → edge q j k) →
  down_inv q i m →
  down_inv (Swap q i j) j m ∧ edge (Swap q i j) ((j - 1) / 2) j.
Proof.
  intros Hj Ej Hm Ha Hb Hab Min [H1 H2]. pose proof (parent_lt j ltac:(lia)).
  assert (L : ∀ k, n (Swap q i j) !! k = n q !! transpose i j k) by (intros; apply Swap_lookup; lia).
  split; [split|].
  - intros k Hk Nk Nj x y. rewrite !L. unfold transpose. pose proof (parent_lt k ltac:(lia)).
    destruct (decide ((k - 1) / 2 = i)) as [E|N].
    + rewrite (decide_False (P := k = i)), (decide_False (P := k = j)) by lia.
      intros. simplify_eq. eapply Min; eauto; lia.
    + rewrite (decide_False (P := (k - 1) / 2 = j)), (decide_False (P := k = j)) by lia.
      case_decide as Ek; intros; simplify_eq; [|eapply (H1 k); eauto].
      eapply (H2 j); eauto; lia.
  - intros k Hk Ek _ x y. rewrite !L, Ej. unfold transpose. pose proof (parent_lt k ltac:(lia)).
    rewrite decide_True, (decide_False (P := k = i)), (decide_False (P := k = j)) by lia.
    intros. simplify_eq. eapply (H1 k); eauto; lia.
  - intros x y. rewrite !L, Ej. unfold transpose.
    rewrite decide_True, (decide_False (P := j = i)), decide_True by lia. intros. simplify_eq. lia.
Qed.

(** The child [down] compares with is in range and minimal. *)
Lemma down_child q i m : 2 * i + 1 < m → m ≤ Len q →
  let j1 := 2 * i + 1 in
  let j := if decide (j1 + 1 < m) then (if Less q (j1 + 1) j1 then j1 + 1 else j1) else j1 in
  0 < j < m ∧ (j - 1) / 2 = i ∧ i < j ∧
  (∀ k, 0 < k < m → (k - 1) / 2 = i → edge q j k).
Proof.
  intros H1 Hm j1 j.
  destruct (lookup_lt_is_Some_2 (n q) j1) as [a Ha]; [unfold Len in *; lia|].
  assert (M : 0 < j < m ∧ (j = j1 ∨ j = j1 + 1) ∧
    (∀ k, k = j1 ∨ k = j1 + 1 → 0 < k < m → edge q j k)).
  { unfold j. case_decide as D.
    - destruct (lookup_lt_is_Some_2 (n q) (j1 + 1)) as [b Hb]; [unfold Len in *; lia|].
      rewrite (Less_spec _ _ _ _ _ Hb Ha). case_bool_decide; (split_and!; [lia|lia|lia|]);
        intros k [-> | ->] _ x y Hx Hy; simplify_eq; lia.
    - split_and!; [lia|lia|lia|]. intros k [-> | ->] Hk x y Hx Hy; simplify_eq; lia. }
  destruct M as (B & Ej & Mn). split_and!; try lia.
  - apply parent_child; lia.
  - intros k Hk Ek. apply parent_child in Ek; [|lia]. apply Mn; lia.
Qed.

Lemma down_spec fuel q i m : m < fuel + i → i < m → m ≤ Len q → down_inv q i m →
  let '(q', i') := down fuel q i m in
  same_queue m q q' ∧ i ≤ i' ∧
  (∀ k, 0 < k < m → k ≠ i' → edge q' ((k - 1) / 2) k) ∧
  (i < i' → edge q' ((i' - 1) / 2) i') ∧
  (i = i' → q' = q).
Proof.
  revert q i. induction fuel as [|f IH]; intros q i Hf Hi Hm Inv; [lia|]. cbn [down].
  case_decide as C.
  { split_and!; [apply same_queue_refl|lia| |lia|done].
    intros k Hk Nk. apply Inv; try done. intros E. apply parent_child in E; lia. }
  pose proof (down_child q i m ltac:(lia) Hm) as (Hj & Ej & Hij & Min).
  set (j := if decide (2 * i + 1 + 1 < m) then _ else _) in *.
  destruct (lookup_lt_is_Some_2 (n q) i) as [a Ha]; [unfold Len in *; lia|].
  destruct (lookup_lt_is_Some_2 (n q) j) as [b Hb]; [unfold Len in *; lia|].
  rewrite (Less_spec _ _ _ _ _ Hb Ha). case_bool_decide as L.
  - destruct (down_step q i j m a b) as [D E]; try done.
    specialize (IH (Swap q i j) j). destruct (down f (Swap q i j) j m) as [q' i'].
    destruct IH as (S & Le & O & E1 & E2); [lia|lia|rewrite Swap_Len; lia|done|].
    split_and!; try done; try lia.
    + eapply same_queue_trans; [|exact S]. apply Swap_same; lia.
    + intros _. destruct (decide (j = i')) as [Eq|]; [|apply E1; lia].
      rewrite (E2 Eq), <- Eq. done.
  - split_and!; [apply same_queue_refl|lia| |lia|done].
    intros k Hk Nk. destruct (decide ((k - 1) / 2 = i)) as [E|N]; [|by apply Inv].
    rewrite E. intros x y Hx Hy. simplify_eq.
    transitivity b; [lia|]. eapply Min; eauto.
Qed.

(** ** Insertion and removal *)

Lemma idx_ok_NoDup q : idx_ok q → NoDup (n q).
Proof. intros H. apply NoDup_alt. intros i j x Hi Hj. eapply idx_ok_inj; eauto. Qed.

Lemma push_ok q w : queue_ok q → w ∉ contents q →
  queue_ok (push q w) ∧ contents (push q w) = {[w]} ∪ contents q.
Proof.
  intros [Hi Hh] Hw. unfold push, heap_Push. set (q1 := Push q w).
  assert (L1 : Len q1 = S (Len q)) by (unfold Len, q1; cbn; rewrite length_app; cbn; lia).
  assert (I1 : idx_ok q1).
  { intros v i. unfold q1. cbn. unfold contents in Hw. rewrite elem_of_list_to_set in Hw.
    rewrite lookup_app. destruct (decide (v = w)) as [->|N].
    - rewrite lookup_insert_eq. destruct (n q !! i) as [x|] eqn:E.
      + split; [|intros [= ->]; exfalso; apply Hw, list_elem_of_lookup; eauto].
        intros [= <-]. apply lookup_lt_Some in E. lia.
      + apply lookup_ge_None in E. split; [intros [= <-]; by rewrite Nat.sub_diag|].
        destruct (i - length (n q)) eqn:D; [|done]. intros _. f_equal. lia.
    - rewrite lookup_insert_ne, (Hi v i) by done. destruct (n q !! i) as [x|] eqn:E; [done|].
      split; [done|]. destruct (i - length (n q)); cbn; [congruence|done]. }
  destruct (up_spec (S (Len q1)) q1 (Len q1 - 1) (Len q1)) as [(Ls & Cs & Is & _) O]; try lia.
  { split; [|intros k Hk E; apply parent_child in E; lia].
    intros k Hk Nk a b Ha Hb. pose proof (parent_lt k ltac:(lia)). unfold q1, Push in Ha, Hb. cbn [n] in Ha, Hb.
    unfold Len in *. rewrite lookup_app_l in Ha, Hb by lia.
    eapply (Hh k); eauto. lia. }
  split; [split; [auto|by rewrite Ls]|]. rewrite Cs. unfold contents, q1. cbn.
  rewrite list_to_set_app_L. cbn. set_solver.
Qed.

Lemma Pop_ok q w : idx_ok q → 0 < Len q → n q !! (Len q - 1) = Some w → heap_upto q (Len q - 1) →
  queue_ok (Pop q) ∧ contents (Pop q) = contents q ∖ {[w]}.
Proof.
  intros Hi Hl Hw Hh. pose proof (idx_ok_NoDup q Hi) as ND. unfold Len in *.
  assert (last (n q) = Some w) as La by (rewrite last_lookup; by replace (pred _) with (length (n q) - 1) by lia).
  pose proof La as La'. apply last_Some in La' as [l El].
  assert (T : take (length (n q) - 1) (n q) = l)
    by (rewrite El, length_app; cbn; replace (length l + 1 - 1) with (length l) by lia;
        by rewrite take_app_length).
  unfold Pop. rewrite La, T. rewrite El in ND. apply NoDup_app in ND as (_ & Nw & _).
  split; [split|].
  - intros v i. cbn. destruct (decide (v = w)) as [->|N].
    + rewrite lookup_delete_eq. split; [done|]. intros E. exfalso.
      eapply Nw; [by eapply list_elem_of_lookup_2|set_solver].
    + rewrite lookup_delete_ne, (Hi v i), El by done. destruct (decide (i < length l)).
      * by rewrite lookup_app_l.
      * rewrite lookup_app_r, (lookup_ge_None_2 l i) by lia.
        split; [|done]. destruct (i - length l) as [|[|k]]; cbn; congruence.
  - intros k Hk a b Ha Hb. unfold Len in *. cbn in *. pose proof (parent_lt k ltac:(lia)).
    rewrite El, length_app in Hh. cbn in Hh.
    eapply (Hh k); rewrite ?El; [lia| |]; rewrite lookup_app_l; eauto; lia.
  - unfold contents. cbn. rewrite El, list_to_set_app_L. cbn.
    apply set_eq. intros x. rewrite elem_of_difference, elem_of_union, elem_of_list_to_set. set_solver.
Qed.

Lemma remove_down_inv q i w : heap_upto q (Len q) → n q !! i = Some w → Len q - 1 ≠ i →
  down_inv (Swap q i (Len q - 1)) i (Len q - 1).
Proof.
  intros Hh Hw E. pose proof (lookup_lt_Some _ _ _ Hw) as Li. fold (Len q) in Li.
  set (m := Len q - 1) in *.
  assert (L : ∀ k, n (Swap q i m) !! k = n q !! transpose i m k) by (intros; apply Swap_lookup; lia).
  split.
  - intros k Hk Nk Nki a b. rewrite !L. pose proof (parent_lt k ltac:(lia)).
    unfold transpose. repeat case_decide; try lia. apply Hh. lia.
  - intros k Hk Ek Hp a b. rewrite !L. pose proof (parent_lt k ltac:(lia)).
    pose proof (parent_lt i ltac:(lia)). unfold transpose. repeat case_decide; try lia.
    intros Ha Hb. transitivity w.
    + apply (Hh i ltac:(lia) a w); done.
    + apply (Hh k ltac:(lia) w b); [by rewrite Ek|done].
Qed.

Lemma heap_Remove_ok q i w : queue_ok q → n q !! i = Some w →
  queue_ok (heap_Remove q i) ∧ contents (heap_Remove q i) = contents q ∖ {[w]}.
Proof.
  intros [Hi Hh] Hw. pose proof (lookup_lt_Some _ _ _ Hw) as Li. fold (Len q) in Li.
  unfold heap_Remove. case_decide as E.
  { apply Pop_ok; [done|lia|by rewrite E|]. intros k Hk. apply Hh. lia. }
  set (m := Len q - 1) in *. set (q1 := Swap q i m).
  assert (L : ∀ k, n q1 !! k = n q !! transpose i m k) by (intros; apply Swap_lookup; lia).
  assert (L1 : Len q1 = Len q) by apply Swap_Len.
  assert (C1 : contents q1 = contents q) by (apply Swap_contents; lia).
  assert (I1 : idx_ok q1) by (apply Swap_idx_ok; [lia|lia|done]).
  assert (W1 : n q1 !! m = Some w).
  { rewrite L. unfold transpose. rewrite decide_False, decide_True by done. done. }
  pose proof (remove_down_inv q i w Hh Hw E) as Inv. fold m q1 in Inv.
  pose proof (down_spec (S m) q1 i m ltac:(lia) ltac:(lia) ltac:(lia) Inv) as D.
  destruct (down (S m) q1 i m) as [q2 i']. destruct D as ((L2 & C2 & I2 & F2) & Le & O & E1 & E2).
  assert (F : ∀ q3, same_queue m q2 q3 → heap_upto q3 m →
    queue_ok (Pop q3) ∧ contents (Pop q3) = contents q ∖ {[w]}).
  { intros q3 (L3 & C3 & I3 & F3) H3. rewrite <- C1, <- C2, <- C3.
    apply Pop_ok; replace (Len q3 - 1) with m by lia; auto; [lia|].
    by rewrite F3, F2. }
  case_decide as C.
  - apply F; [apply same_queue_refl|]. intros k Hk. destruct (decide (k = i')) as [->|]; auto.
  - assert (i' = i) as -> by lia. rewrite (E2 eq_refl) in *.
    destruct (up_spec (S m) q1 i m) as [S H3]; [lia|lia|lia| |by apply F].
    split; [exact O|]. apply Inv.
Qed.

Lemma remove_ok q w : queue_ok q →
  queue_ok (remove q w) ∧ contents (remove q w) = contents q ∖ {[w]}.
Proof.
  intros H. unfold remove. destruct (idx q !! w) as [i|] eqn:E; [case_decide as C|].
  - by apply heap_Remove_ok.
  - exfalso. apply C. by apply H.
  - split; [done|]. assert (w ∉ contents q); [|set_solver].
    unfold contents. rewrite elem_of_list_to_set, list_elem_of_lookup. intros [i Hi].
    apply H in Hi. congruence.
Qed.

(** ** The heap keeps the promise *)

Lemma heap_root q a b k : heap_upto q (Len q) → n q !! 0 = Some a → n q !! k = Some b → a ≤ b.
Proof.
  intros Hh Ha. revert b. induction k as [k IH] using lt_wf_ind. intros b Hb.
  destruct (decide (k = 0)) as [->|N]; [simplify_eq; lia|].
  pose proof (lookup_lt_Some _ _ _ Hb). pose proof (parent_lt k ltac:(lia)).
  destruct (lookup_lt_is_Some_2 (n q) ((k - 1) / 2)) as [c Hc]; [lia|].
  transitivity c; [eapply IH; eauto|eapply (Hh k); eauto]. unfold Len. lia.
Qed.

#[export] Program Instance heap_queue : WaitQueue waitQueue := {|
  qempty := mkQueue [] ∅;
  qLen := Len;
  qhead := head;
  qpush := push;
  qremove := remove;
  qvalid := queue_ok;
  qcontents := contents;
|}.
Next Obligation. split; [intros w i; cbn; by rewrite lookup_empty|intros k Hk; cbn in Hk; lia]. Qed.
Next Obligation. done. Qed.
Next Obligation.
  intros q [Hi _]. unfold Len, contents. rewrite size_list_to_set; [done|]. by apply idx_ok_NoDup.
Qed.
Next Obligation.
  intros q [Hi _]. unfold head, contents. destruct (n q) as [|x l]; cbn; [done|].
  split; [done|]. set_solver.
Qed.
Next Obligation.
  intros q w [Hi Hh] Hw. unfold head in Hw. unfold contents. split.
  - apply elem_of_list_to_set, list_elem_of_lookup. eauto.
  - intros v Hv. apply elem_of_list_to_set, list_elem_of_lookup in Hv as [k Hk].
    by eapply heap_root.
Qed.
Next Obligation. intros. by apply push_ok. Qed.
Next Obligation. intros. by apply push_ok. Qed.
Next Obligation. intros. by apply remove_ok. Qed.
Next Obligation. intros. by apply remove_ok. Qed.

(** ** Refinement of the abstract queue *)

Inductive qop : Type := QPush (w : nat) | QRemove (w : nat).

(** A run of the heap, and the same run on the abstract set of waiters. *)
Definition qstep (q : waitQueue) (o : qop) : waitQueue :=
  match o with QPush w => push q w | QRemove w => remove q w end.
Definition sstep (s : gset nat) (o : qop) : gset nat :=
  match o with QPush w => {[w]} ∪ s | QRemove w => s ∖ {[w]} end.

(** No waiter is pushed twice into one queue: what the broker guarantees by
    leaving every queue before it enqueues again. *)
Fixpoint fresh_pushes (s : gset nat) (ops : list qop) : bool :=
  match ops with
  | [] => true
  | o :: ops' =>
      match o with QPush w => bool_decide (w ∉ s) | QRemove _ => true end
      && fresh_pushes (sstep s o) ops'
  end.

Lemma qrun_contents ops q : queue_ok q → fresh_pushes (contents q) ops = true →
  queue_ok (foldl qstep q ops) ∧ contents (foldl qstep q ops) = foldl sstep (contents q) ops.
Proof.
  revert q. induction ops as [|o ops IH]; intros q Hq; [done|]. cbn [fresh_pushes foldl].
  intros [Ho Hf]%andb_prop.
  assert (queue_ok (qstep q o) ∧ contents (qstep q o) = sstep (contents q) o) as [Ok Eq].
  { destruct o; cbn in *; [apply push_ok|apply remove_ok]; try done.
    by apply bool_decide_eq_true in Ho. }
  rewrite <- Eq in *. by apply IH.
Qed.

(** C36. The heap behind every axis implements a set of waiters with the oldest
    one at its head: after any run of pushes of fresh waiters and removals
    (of members or not), its contents are those of the abstract set, its length
    is the number of members, and its head is the smallest sequence number,
    absent exactly when the queue is empty. *)
Theorem heap_refines_oldest_first ops : fresh_pushes ∅ ops = true →
  let q := foldl qstep (mkQueue [] ∅) ops in
  contents q = foldl sstep ∅ ops ∧ Len q = size (foldl sstep ∅ ops) ∧
  match head q with
  | Some w => w ∈ foldl sstep ∅ ops ∧ ∀ v, v ∈ foldl sstep ∅ ops → w ≤ v
  | None => foldl sstep ∅ ops = ∅
  end.
Proof.
  intros Hf q. pose proof (@qempty_valid _ heap_queue) as V0.
  destruct (qrun_contents ops (mkQueue [] ∅) V0 Hf) as [Ok Eq]. fold q in Ok, Eq.
  change (contents (mkQueue [] ∅)) with (∅ : gset nat) in Eq. rewrite <- Eq.
  split; [done|]. split; [exact (qLen_size q Ok)|].
  destruct (head q) as [w|] eqn:E; [exact (qhead_some q w Ok E)|exact (proj1 (qhead_none q Ok) E)].
Qed.

Lemma heap_refines_oldest_first_witness :
  let ops := [QPush 5; QPush 2; QPush 9; QPush 1; QRemove 2; QRemove 7; QPush 3; QRemove 1] in
  let q := foldl qstep (mkQueue [] ∅) ops in
  contents q = foldl sstep ∅ ops ∧ Len q = size (foldl sstep ∅ ops) ∧
  match head q with
  | Some w => w ∈ foldl sstep ∅ ops ∧ ∀ v, v ∈ foldl sstep ∅ ops → w ≤ v
  | None => foldl sstep ∅ ops = ∅
  end.
Proof. apply heap_refines_oldest_first. vm_compute. reflexivity. Defined.
