(* ===== verification/Axis.v ===== *)
(** * Capacity axes and requests ([internal/capacity/axis.go], [broker.go])

    The dimensions a concurrency ceiling is counted over, the keys that name one
    counted bucket each, the broker's immutable configuration, and the
    derivation of the axes one candidate of a request needs. *)
From S2P Require Import Prelude.
From stdpp Require Import base gmap strings list.
From Stdlib Require Import ZArith Lia SpecFloat Sorted.
Open Scope Z_scope.

(** ** Axes and keys *)

Inductive Axis : Type :=
| AxisGlobal | AxisPrincipal | AxisRoute | AxisProviderGroup | AxisModel
| AxisCredentialGroup | AxisKey.

(** The constants are declared with [iota]; [numAxes] is the number of them. *)
Definition axis_ord (a : Axis) : Z :=
  match a with
  | AxisGlobal => 0 | AxisPrincipal => 1 | AxisRoute => 2 | AxisProviderGroup => 3
  | AxisModel => 4 | AxisCredentialGroup => 5 | AxisKey => 6
  end.
Definition numAxes : Z := axis_ord AxisKey + 1.

Definition Axis_String (a : Axis) : string :=
  match a with
  | AxisGlobal => "global" | AxisPrincipal => "principal" | AxisRoute => "route"
  | AxisProviderGroup => "pgroup" | AxisModel => "model" | AxisCredentialGroup => "cgroup"
  | AxisKey => "key"
  end.

Record axisKey : Type := mkKey { axis : Axis; ka : string; kb : string }.

#[export] Instance Axis_eq_dec : EqDecision Axis.
Proof. solve_decision. Defined.
#[export] Instance axisKey_eq_dec : EqDecision axisKey.
Proof. solve_decision. Defined.

Definition axis_of_ord (z : Z) : Axis :=
  match z with
  | 0 => AxisGlobal | 1 => AxisPrincipal | 2 => AxisRoute | 3 => AxisProviderGroup
  | 4 => AxisModel | 5 => AxisCredentialGroup | _ => AxisKey
  end.
#[export] Program Instance Axis_countable : Countable Axis :=
  inj_countable' axis_ord axis_of_ord _.
Next Obligation. by intros []. Qed.
#[export] Program Instance axisKey_countable : Countable axisKey :=
  inj_countable' (λ k, (axis k, ka k, kb k)) (λ '(x, y, z), mkKey x y z) _.
Next Obligation. by intros []. Qed.

Definition axisKey_String (k : axisKey) : string :=
  if decide (kb k = "") then Axis_String (axis k) +:+ ":" +:+ ka k
  else Axis_String (axis k) +:+ ":" +:+ ka k +:+ "|" +:+ kb k.

Definition globalKey : axisKey := mkKey AxisGlobal "" "".
Definition principalKey (id : string) : axisKey := mkKey AxisPrincipal id "".
Definition routeKey (provider : string) : axisKey := mkKey AxisRoute provider "".
Definition pgroupKey (group : string) : axisKey := mkKey AxisProviderGroup group "".
Definition modelAxisKey (provider model : string) : axisKey := mkKey AxisModel provider model.
Definition cgroupKey (group : string) : axisKey := mkKey AxisCredentialGroup group "".
Definition credAxisKey (provider id : string) : axisKey := mkKey AxisKey provider id.

(** [modelIdent] is the pair (provider, model). *)
Definition modelIdent : Type := string * string.

Record axisNeed : Type := mkNeed { nkey : axisKey; nlimit : Z; nqueue : Z }.

(** ** Requests *)

Inductive OnCapacity : Type := Wait | Spill.

Record Candidate : Type := mkCand {
  ID : string; CapacityGroup : string; MaxConcurrent : Z;
  cProvider : string; UpstreamModel : string; cProviderGroup : string }.

(** [TTL] is in nanoseconds. *)
Record Request : Type := mkReq {
  Provider : string; Model : string; ProviderGroup : string;
  PrincipalID : string; PrincipalMax : Z;
  Candidates : list Candidate; Preferred : string; OnCap : OnCapacity;
  Batch : bool; TTL : Z }.

(** ** Configuration *)

Record ModelLimit : Type := mkModelLimit { mlProvider : string; mlModel : string; mlMax : Z }.

(** [queueLimits]: the compiled depth ceilings. *)
Record queueLimits : Type := mkQLimits {
  qglobal : Z; qpgroups : gmap string Z; qcgroups : gmap string Z; qroutes : gmap string Z;
  qmodels : gmap modelIdent Z; qprincipals : gmap string Z; qhasDefaultP : bool }.

(** The fields of [Broker] that are immutable after [New]. [reserve] is a
    binary64 value; [shared] says whether account slots live in the shared
    store, whose answers are an argument of the operations that ask it. *)
Record Static : Type := mkStatic {
  shared : bool;
  global : Z; pgroups : gmap string Z; cgroups : gmap string Z; routes : gmap string Z;
  models : gmap modelIdent Z; principals : gmap string Z;
  reserve : spec_float; ttl : Z; sweepEvery : Z; wakeSlack : Z; hasDefaultP : bool;
  soft : bool; softAfter : Z;
  queues : queueLimits; waits : gmap string Z; hasDefaultW : bool; bounded : bool }.

(** Indexing a Go map by an absent key yields zero. *)
Definition map_get {K : Type} `{Countable K} (mp : gmap K Z) (k : K) : Z := default 0 (mp !! k).

Definition queue_principal (q : queueLimits) (id : string) : Z :=
  match qprincipals q !! id with
  | Some l => l
  | None => if qhasDefaultP q then map_get (qprincipals q) "default" else 0
  end.

Definition principalLimit (b : Static) (id : string) : Z :=
  match principals b !! id with
  | Some l => l
  | None => if hasDefaultP b then map_get (principals b) "default" else 0
  end.

Definition waitBudget (b : Static) (principal : string) : Z :=
  if decide (size (waits b) = 0%nat) then 0
  else match waits b !! principal with
       | Some d => d
       | None => if hasDefaultW b then map_get (waits b) "default" else 0
       end.

Definition strictest (a b : Z) : Z :=
  if a <=? 0 then b else if b <=? 0 then a else if b <? a then b else a.

(** *** The interactive reserve, in binary64 *)

Definition prec : Z := 53.
Definition emax : Z := 1024.
Definition f64_of_Z (z : Z) : spec_float := binary_normalize prec emax z 0 false.
Definition f64_one : spec_float := f64_of_Z 1.
(** [1e-9]: the binary64 value nearest to 10^-9. *)
Definition f64_1e9 : spec_float := S754_finite false 4835703278458517 (-82).
Definition f64_le0 (x : spec_float) : bool := SFleb x (S754_zero false).
Definition f64_ge1 (x : spec_float) : bool := SFleb f64_one x.

(** [int(math.Floor(x))] for a finite [x]; an infinity or NaN has no defined
    conversion and yields zero here. *)
Definition f64_floor (x : spec_float) : Z :=
  match x with
  | S754_finite s m e =>
      let z := if s then Zneg m else Zpos m in
      if 0 <=? e then z * 2 ^ e else z / 2 ^ (- e)
  | _ => 0
  end.

Definition effLimit (b : Static) (limit : Z) (batch : bool) : Z :=
  if negb batch || f64_le0 (reserve b) then limit
  else if f64_ge1 (reserve b) then 0
  else f64_floor (SFadd prec emax
         (SFmul prec emax (f64_of_Z limit) (SFsub prec emax f64_one (reserve b))) f64_1e9).

(** ** Axis derivation *)

(** [divideByShare]: each ceiling becomes this node's share of it, at least
    one, unless the shared store already divides the account axis. *)
Definition divideByShare (b : Static) (share : Z) (out : list axisNeed) : list axisNeed :=
  if shared b && existsb (λ nd, bool_decide (axis (nkey nd) = AxisCredentialGroup)) out then out
  else if share <=? 1 then out
  else map (λ nd, if nlimit nd <=? 0 then nd
                  else if 0 <? nlimit nd / share then mkNeed (nkey nd) (nlimit nd / share) (nqueue nd)
                  else mkNeed (nkey nd) 1 (nqueue nd)) out.

(** [if l > 0 { out = append(out, ...) }]. *)
Definition need_if (cond : bool) (k : axisKey) (l q : Z) : list axisNeed :=
  if cond && (0 <? l) then [mkNeed k l q] else [].

Definition nonempty (s : string) : bool := negb (bool_decide (s = "")).

(** A candidate's own value, or the request's when it is empty. *)
Definition override (own dflt : string) : string := if nonempty own then own else dflt.

Definition provider_of (req : Request) (c : option Candidate) : string :=
  match c with Some c => override (cProvider c) (Provider req) | None => Provider req end.
Definition model_of (req : Request) (c : option Candidate) : string :=
  match c with Some c => override (UpstreamModel c) (Model req) | None => Model req end.
Definition pgroup_of (req : Request) (c : option Candidate) : string :=
  match c with Some c => override (cProviderGroup c) (ProviderGroup req) | None => ProviderGroup req end.

(** The axes of a candidate with their configured, undivided ceilings. *)
Definition raw_needs (b : Static) (req : Request) (c : option Candidate) : list axisNeed :=
  let qd (z : Z) := if bounded b then z else 0 in
  let provider := provider_of req c in
  let model := model_of req c in
  let pgroup := pgroup_of req c in
  need_if true globalKey (global b) (qd (qglobal (queues b)))
  ++ need_if (nonempty (PrincipalID req)) (principalKey (PrincipalID req))
       (strictest (principalLimit b (PrincipalID req)) (PrincipalMax req))
       (qd (queue_principal (queues b) (PrincipalID req)))
  ++ need_if (nonempty provider) (routeKey provider) (map_get (routes b) provider)
       (qd (map_get (qroutes (queues b)) provider))
  ++ need_if (nonempty pgroup) (pgroupKey pgroup) (map_get (pgroups b) pgroup)
       (qd (map_get (qpgroups (queues b)) pgroup))
  ++ need_if (nonempty model) (modelAxisKey provider model)
       (map_get (models b) (provider, model))
       (qd (map_get (qmodels (queues b)) (provider, model)))
  ++ match c with
     | Some c =>
         need_if (nonempty (CapacityGroup c)) (cgroupKey (CapacityGroup c))
           (map_get (cgroups b) (CapacityGroup c))
           (qd (map_get (qcgroups (queues b)) (CapacityGroup c)))
         ++ need_if (nonempty (ID c)) (credAxisKey provider (ID c)) (MaxConcurrent c) 0
     | None => []
     end.

Definition needs (b : Static) (share : Z) (req : Request) (c : option Candidate) : list axisNeed :=
  divideByShare b share (raw_needs b req c).

(** ** Candidates in attempt order *)

Fixpoint pref_index (cs : list Candidate) (preferred : string) (j : nat) : nat :=
  match cs with
  | [] => 0%nat
  | c :: cs' => if decide (ID c = preferred) then j else pref_index cs' preferred (S j)
  end.

Definition candidateAt (req : Request) (i : nat) : option Candidate :=
  let n := length (Candidates req) in
  if decide (n = 0%nat) then None
  else
    let pref := if nonempty (Preferred req) then pref_index (Candidates req) (Preferred req) 0
                else 0%nat in
    if decide (i = 0%nat) then Candidates req !! pref
    else if decide ((i <= pref)%nat) then Candidates req !! (i - 1)%nat
    else if decide ((i < n)%nat) then Candidates req !! i
    else None.

Definition candidateCount (req : Request) : nat :=
  match OnCap req with
  | Wait => 1%nat
  | Spill => if decide (length (Candidates req) = 0%nat) then 1%nat else length (Candidates req)
  end.

(** ** Sharing ceilings across nodes *)

Definition SetShare (nodes : Z) : Z := if nodes <? 1 then 1 else nodes.
Definition Share (share : Z) : Z := if 1 <? share then share else 1.

Definition ShareOvershoot (limit nodes : Z) : Z :=
  if (nodes <=? 1) || (limit <=? 0) || (nodes <=? limit) then 0 else nodes - limit.

(** ** Building the configuration *)

(** [copyLimits]: unlimited entries are dropped. *)
Definition copyLimits (m : gmap string Z) : gmap string Z := filter (λ kv, 0 < kv.2) m.

Definition model_limits (ms : list ModelLimit) : gmap modelIdent Z :=
  foldl (λ acc ml, if 0 <? mlMax ml then <[(mlProvider ml, mlModel ml) := mlMax ml]> acc else acc)
    ∅ ms.

Record QueueConfig : Type := mkQConfig {
  qcGlobal : Z; qcProviderGroups : gmap string Z; qcCredentialGroups : gmap string Z;
  qcRoutes : gmap string Z; qcModels : list ModelLimit; qcPrincipals : gmap string Z;
  qcMaxWait : gmap string Z }.

Definition QueueConfig_empty (q : QueueConfig) : bool :=
  (qcGlobal q <=? 0) && bool_decide (size (qcProviderGroups q) = 0%nat)
  && bool_decide (size (qcCredentialGroups q) = 0%nat) && bool_decide (size (qcRoutes q) = 0%nat)
  && bool_decide (length (qcModels q) = 0%nat) && bool_decide (size (qcPrincipals q) = 0%nat)
  && bool_decide (size (qcMaxWait q) = 0%nat).

Inductive SoftReservationMode : Type :=
| SoftReservationsDefault | SoftReservationsOn | SoftReservationsOff.

Definition soft_enabled (m : SoftReservationMode) : bool :=
  match m with SoftReservationsOff => false | _ => true end.

Definition DefaultSoftReserveAfter : Z := 4.
Definition DefaultWakeSlack : Z := 8.
Definition second : Z := 1000000000.
Definition minute : Z := 60 * second.
Definition DefaultReservationTTL : Z := 10 * minute.
Definition DefaultSweepInterval : Z := 30 * second.

Record Config : Type := mkConfig {
  SharedAccounts : bool;
  Global : Z; ProviderGroups : gmap string Z; CredentialGroups : gmap string Z;
  Routes : gmap string Z; Models : list ModelLimit; Principals : gmap string Z;
  Queues : QueueConfig; InteractiveReserve : spec_float; ReservationTTL : Z;
  SweepInterval : Z; WakeSlack : Z; SoftReservations : SoftReservationMode;
  SoftReserveAfter : Z }.

(** The static part of [New]. *)
Definition New_static (cfg : Config) : Static :=
  let qp := copyLimits (qcPrincipals (Queues cfg)) in
  let wt := filter (λ kv, 0 < kv.2) (qcMaxWait (Queues cfg)) in
  let pr := copyLimits (Principals cfg) in
  let r0 := InteractiveReserve cfg in
  let r1 := if SFltb r0 (S754_zero false) then S754_zero false else r0 in
  let r2 := if SFltb f64_one r1 then f64_one else r1 in
  {| shared := SharedAccounts cfg;
     global := Global cfg;
     pgroups := copyLimits (ProviderGroups cfg);
     cgroups := copyLimits (CredentialGroups cfg);
     routes := copyLimits (Routes cfg);
     models := model_limits (Models cfg);
     principals := pr;
     reserve := r2;
     ttl := if ReservationTTL cfg =? 0 then DefaultReservationTTL
            else if ReservationTTL cfg <? 0 then 0 else ReservationTTL cfg;
     sweepEvery := if SweepInterval cfg =? 0 then DefaultSweepInterval
                   else if SweepInterval cfg <? 0 then 0 else SweepInterval cfg;
     wakeSlack := if WakeSlack cfg =? 0 then DefaultWakeSlack
                  else if WakeSlack cfg <? 0 then 0 else WakeSlack cfg;
     hasDefaultP := bool_decide (is_Some (pr !! "default"));
     soft := soft_enabled (SoftReservations cfg);
     softAfter := if SoftReserveAfter cfg =? 0 then DefaultSoftReserveAfter
                  else if SoftReserveAfter cfg <? 1 then 1 else SoftReserveAfter cfg;
     queues := {| qglobal := qcGlobal (Queues cfg);
                  qpgroups := copyLimits (qcProviderGroups (Queues cfg));
                  qcgroups := copyLimits (qcCredentialGroups (Queues cfg));
                  qroutes := copyLimits (qcRoutes (Queues cfg));
                  qmodels := model_limits (qcModels (Queues cfg));
                  qprincipals := qp;
                  qhasDefaultP := bool_decide (is_Some (qp !! "default")) |};
     waits := wt;
     hasDefaultW := bool_decide (is_Some (wt !! "default"));
     bounded := negb (QueueConfig_empty (Queues cfg)) |}.

(** ** Properties of the axis derivation *)

(** What [divideByShare] does to one need. *)
Definition share_need (share : Z) (nd : axisNeed) : axisNeed :=
  if nlimit nd <=? 0 then nd
  else if 0 <? nlimit nd / share then mkNeed (nkey nd) (nlimit nd / share) (nqueue nd)
  else mkNeed (nkey nd) 1 (nqueue nd).

(** The ceiling the configuration itself puts on a key, zero when it puts none
    or when the ceiling comes with the request (principal and key axes). *)
Definition configured (s : Static) (k : axisKey) : Z :=
  match axis k with
  | AxisGlobal => global s
  | AxisRoute => map_get (routes s) (ka k)
  | AxisProviderGroup => map_get (pgroups s) (ka k)
  | AxisModel => map_get (models s) (ka k, kb k)
  | AxisCredentialGroup => map_get (cgroups s) (ka k)
  | AxisPrincipal | AxisKey => 0
  end.
Definition is_configured (k : axisKey) : bool :=
  match axis k with AxisPrincipal | AxisKey => false | _ => true end.

Lemma share_need_key sh nd : nkey (share_need sh nd) = nkey nd.
Proof. unfold share_need. repeat case_match; done. Qed.

Lemma share_need_limit sh nd :
  1 < sh → 0 < nlimit nd → 0 < nlimit (share_need sh nd) <= nlimit nd.
Proof.
  intros Hsh Hl. unfold share_need.
  pose proof (Z.div_le_upper_bound (nlimit nd) sh (nlimit nd) ltac:(lia) ltac:(nia)).
  repeat case_match; simpl; lia.
Qed.

Lemma divideByShare_cases s sh out :
  divideByShare s sh out = out ∨ (1 < sh ∧ divideByShare s sh out = map (share_need sh) out).
Proof.
  unfold divideByShare. case_match; [by left|]. case_match; [by left|].
  right. split; [lia|]. apply map_ext. done.
Qed.

Lemma elem_of_need_if cond k l qm nd :
  nd ∈ need_if cond k l qm → cond = true ∧ 0 < l ∧ nkey nd = k ∧ nlimit nd = l.
Proof.
  unfold need_if. destruct cond; simpl; [|set_solver].
  case_match; [|set_solver]. intros ->%list_elem_of_singleton. simpl. repeat split; lia.
Qed.

Ltac each_need H := repeat match type of H with _ ∨ _ => destruct H as [H|H] end.

(** The axes of a candidate come in the fixed axis order, one need per axis. *)
Lemma raw_needs_sorted s req c : StronglySorted Z.lt (map (λ nd, axis_ord (axis (nkey nd))) (raw_needs s req c)).
Proof.
  unfold raw_needs. rewrite !map_app. unfold need_if.
  destruct c; repeat case_match; simpl; repeat constructor.
Qed.

Lemma needs_keys s sh req c : map nkey (needs s sh req c) = map nkey (raw_needs s req c).
Proof.
  unfold needs. destruct (divideByShare_cases s sh (raw_needs s req c)) as [->|[_ ->]]; [done|].
  rewrite map_map. apply map_ext, share_need_key.
Qed.

Lemma strongly_sorted_nodup (l : list Z) : StronglySorted Z.lt l → NoDup l.
Proof.
  induction 1 as [|a l _ IH Hall]; constructor; [|done].
  intros Hin. rewrite Forall_forall in Hall. specialize (Hall a Hin). lia.
Qed.

Lemma needs_keys_nodup s sh req c : NoDup (map nkey (needs s sh req c)).
Proof.
  rewrite needs_keys. apply (NoDup_fmap_1 (λ k, axis_ord (axis k))).
  pose proof (strongly_sorted_nodup _ (raw_needs_sorted s req c)) as H.
  change (NoDup (map (λ k, axis_ord (axis k)) (map nkey (raw_needs s req c)))).
  by rewrite map_map.
Qed.

Lemma needs_limit s sh req c nd :
  nd ∈ needs s sh req c →
  ∃ nd', nd' ∈ raw_needs s req c ∧ nkey nd' = nkey nd ∧ 0 < nlimit nd <= nlimit nd'.
Proof.
  assert (∀ nd, nd ∈ raw_needs s req c → 0 < nlimit nd) as Hpos.
  { intros nd'. unfold raw_needs. destruct c; rewrite ?elem_of_app;
      intros H; each_need H; try (apply elem_of_need_if in H; lia);
      by apply not_elem_of_nil in H. }
  unfold needs. destruct (divideByShare_cases s sh (raw_needs s req c)) as [->|[Hsh ->]].
  - intros Hin. exists nd. specialize (Hpos _ Hin). split_and!; [done|done|lia|lia].
  - intros (nd' & -> & Hin)%list_elem_of_fmap. exists nd'.
    pose proof (share_need_limit sh nd' Hsh (Hpos _ Hin)). by rewrite share_need_key.
Qed.

(** On an axis whose ceiling is configuration, no request is admitted under a
    looser one. *)
Lemma needs_configured s sh req c nd :
  nd ∈ needs s sh req c → is_configured (nkey nd) = true →
  0 < nlimit nd <= configured s (nkey nd).
Proof.
  intros (nd' & Hin & <- & Hl)%needs_limit Hc. revert Hin Hc. unfold raw_needs.
  destruct c; rewrite ?elem_of_app; intros H Hc; each_need H;
    try (apply elem_of_need_if in H as (_ & ? & Hk & ?); rewrite Hk in *; cbn in *; first [lia | done]);
    by apply not_elem_of_nil in H.
Qed.

(** *** The attempt order *)

Lemma pref_index_spec cs p j :
  (∃ i c, pref_index cs p j = (j + i)%nat ∧ cs !! i = Some c ∧ ID c = p
     ∧ ∀ i' c', (i' < i)%nat → cs !! i' = Some c' → ID c' ≠ p)
  ∨ (pref_index cs p j = 0%nat ∧ ∀ c, c ∈ cs → ID c ≠ p).
Proof.
  revert j. induction cs as [|c cs IH]; intros j; simpl.
  { right. split; [done|]. by intros c ?%not_elem_of_nil. }
  destruct (decide (ID c = p)) as [Hp|Hp].
  { left. exists 0%nat, c. split_and!; [lia|done|done|lia]. }
  destruct (IH (S j)) as [(i & c' & Hi & Hc & Hid & Hlt)|[Hi Hno]].
  - left. exists (S i), c'. split_and!; [lia|done|done|].
    intros [|i'] c'' ?; simpl; [naive_solver|]. apply Hlt. lia.
  - right. split; [done|]. intros c'. rewrite elem_of_cons. naive_solver.
Qed.

(** The index of the candidate tried first. *)
Definition preferred_index (req : Request) : nat :=
  if nonempty (Preferred req) then pref_index (Candidates req) (Preferred req) 0 else 0%nat.

Lemma preferred_index_lt req :
  Candidates req ≠ [] → (preferred_index req < length (Candidates req))%nat.
Proof.
  intros Hne. assert (0 < length (Candidates req))%nat by (destruct (Candidates req); simpl; [done|lia]).
  unfold preferred_index. case_match; [|lia].
  destruct (pref_index_spec (Candidates req) (Preferred req) 0) as [(i & c & -> & Hc & _)|[-> _]]; [|lia].
  by apply lookup_lt_Some in Hc.
Qed.

Lemma candidateAt_lookup req i :
  Candidates req ≠ [] → (i < length (Candidates req))%nat →
  candidateAt req i = Candidates req !! (if decide (i = 0%nat) then preferred_index req
                      else if decide (i <= preferred_index req)%nat then (i - 1)%nat else i).
Proof.
  intros Hne Hi. unfold candidateAt. fold (preferred_index req).
  repeat (case_decide; try lia); done.
Qed.

(** The attempt order of a request with candidates is a rearrangement of
    them: the preferred one first (the first whose id is [Preferred], or the
    first declared one when none is), then the others in declaration order. So a
    [Spill] request tries every candidate exactly once. *)
Theorem candidate_order req :
  Candidates req ≠ [] →
  ∃ pref c, Candidates req !! pref = Some c
    ∧ map (candidateAt req) (seq 0 (length (Candidates req)))
      = map Some (c :: take pref (Candidates req) ++ drop (S pref) (Candidates req))
    ∧ (∀ c', c' ∈ Candidates req → Preferred req ≠ "" → ID c' = Preferred req →
         ID c = Preferred req ∧ ∀ i d, (i < pref)%nat → Candidates req !! i = Some d → ID d ≠ Preferred req).
Proof.
  intros Hne. pose proof (preferred_index_lt req Hne) as Hlt.
  destruct (lookup_lt_is_Some_2 _ _ Hlt) as [c Hc].
  exists (preferred_index req), c. split_and!; [done| |].
  - apply list_eq. intros i. rewrite !list_lookup_fmap.
    destruct (decide (i < length (Candidates req))%nat) as [Hi|Hi].
    + rewrite lookup_seq_lt by done. simpl. rewrite candidateAt_lookup by done.
      destruct i as [|i]; simpl; [by rewrite Hc|].
      case_decide.
      * rewrite lookup_app_l by (rewrite length_take; lia).
        rewrite lookup_take_lt by lia. rewrite Nat.sub_0_r.
        destruct (lookup_lt_is_Some_2 (Candidates req) i) as [d ->]; [lia|done].
      * rewrite lookup_app_r by (rewrite length_take; lia).
        rewrite length_take, lookup_drop, Nat.min_l by lia.
        replace (S (preferred_index req) + (i - preferred_index req))%nat with (S i) by lia.
        destruct (lookup_lt_is_Some_2 (Candidates req) (S i)) as [d ->]; [lia|done].
    + rewrite lookup_seq_ge by lia. simpl.
      rewrite lookup_ge_None_2; [done|]. simpl.
      rewrite length_app, length_take, length_drop. lia.
  - intros c' Hin Hp Hid. unfold preferred_index, nonempty in *.
    rewrite (bool_decide_eq_false_2 _ Hp) in *. simpl in *.
    destruct (pref_index_spec (Candidates req) (Preferred req) 0) as [(i & d & E & Hd & ? & ?)|[_ Hno]];
      [|by destruct (Hno c' Hin)].
    rewrite E in Hc |- *. simpl in Hc |- *. naive_solver.
Qed.

Lemma candidate_order_witness :
  let c i := mkCand i "" 0 "" "" "" in
  let req := mkReq "p" "" "" "" 0 [c "a"; c "b"; c "c"] "b" Spill false 0 in
  map (candidateAt req) (seq 0 3) = map Some [c "b"; c "a"; c "c"]
  ∧ ∃ pref d, Candidates req !! pref = Some d
    ∧ map (candidateAt req) (seq 0 (length (Candidates req)))
      = map Some (d :: take pref (Candidates req) ++ drop (S pref) (Candidates req))
    ∧ (∀ c', c' ∈ Candidates req → Preferred req ≠ "" → ID c' = Preferred req →
         ID d = Preferred req ∧ ∀ i d, (i < pref)%nat → Candidates req !! i = Some d → ID d ≠ Preferred req).
Proof. intros c req. split; [reflexivity|]. apply (candidate_order req). discriminate. Defined.

(** *** Dividing a ceiling across nodes *)

(** When [nodes] brokers each admit their share of a configured ceiling, the
    deployment as a whole admits at most the ceiling plus the overshoot that
    [ShareOvershoot] publishes, which is zero unless the ceiling is below the
    node count; and no node's share is zero. *)
Theorem share_overshoot_bound s nodes nd :
  0 < nlimit nd → 1 <= nodes → shared s = false →
  ∃ nd', divideByShare s (SetShare nodes) [nd] = [nd'] ∧ nkey nd' = nkey nd ∧ 1 <= nlimit nd'
    ∧ nodes * nlimit nd' <= nlimit nd + ShareOvershoot (nlimit nd) nodes.
Proof.
  intros Hl Hn Hs. unfold divideByShare, ShareOvershoot, SetShare. rewrite Hs. simpl.
  pose proof (Z.mul_div_le (nlimit nd) nodes ltac:(lia)).
  assert (nodes <= nlimit nd → 1 <= nlimit nd / nodes) by (intros; apply Z.div_le_lower_bound; lia).
  rewrite (proj2 (Z.ltb_ge nodes 1)) by lia.
  destruct (Z.leb_spec nodes 1); simpl.
  { exists nd. split_and!; [done|done|lia|nia]. }
  rewrite (proj2 (Z.leb_gt (nlimit nd) 0)) by lia. simpl.
  destruct (Z.leb_spec nodes (nlimit nd)), (Z.ltb_spec 0 (nlimit nd / nodes)); try lia;
    eexists; (split_and!; [done|done|simpl; lia|simpl]); try lia.
Qed.

Lemma share_overshoot_bound_witness :
  let s := New_static (mkConfig false 0 ∅ ∅ ∅ [] ∅ (mkQConfig 0 ∅ ∅ ∅ [] ∅ ∅) (S754_zero false)
             0 0 0 SoftReservationsDefault 0) in
  ∃ nd', divideByShare s (SetShare 3) [mkNeed globalKey 2 0] = [nd'] ∧ nkey nd' = globalKey
    ∧ 1 <= nlimit nd' ∧ 3 * nlimit nd' <= 2 + ShareOvershoot 2 3.
Proof. apply (share_overshoot_bound _ 3 (mkNeed globalKey 2 0)); [reflexivity|lia|reflexivity]. Defined.
