(* ===== verification/Reserve.v ===== *)
(** * The interactive reserve in binary64 ([effLimit] of [internal/capacity/broker.go])

    The lowered ceiling batch work sees is computed in floating point. This file
    shows that rounding never lifts it above the configured ceiling, for any
    reserve and any ceiling up to 2^52. The argument needs one fact on rounding
    to nearest: a positive value below a short dyadic number stays below it. *)
From stdpp Require Import base gmap strings.
From Stdlib Require Import ZArith Lia SpecFloat.
From S2P Require Import Prelude Axis.
Open Scope Z_scope.

(** ** Comparing dyadic numbers *)

(** [m * 2^e <= c * 2^g]. *)
Definition dle (m e c g : Z) : Prop :=
  m * 2 ^ (e - Z.min e g) <= c * 2 ^ (g - Z.min e g).

Lemma dle_scale f m e c g :
  f <= e -> f <= g -> dle m e c g <-> m * 2 ^ (e - f) <= c * 2 ^ (g - f).
Proof.
  intros He Hg. unfold dle. set (k := Z.min e g - f).
  replace (e - f) with (e - Z.min e g + k) by lia.
  replace (g - f) with (g - Z.min e g + k) by lia.
  rewrite !Z.pow_add_r, !Z.mul_assoc by lia.
  assert (0 < 2 ^ k) by (apply Z.pow_pos_nonneg; lia). split; intros; nia.
Qed.

Lemma dle_at f m e c g :
  dle m e c g -> f <= e -> f <= g -> m * 2 ^ (e - f) <= c * 2 ^ (g - f).
Proof. intros H He Hg. apply (dle_scale f); assumption. Qed.

(** ** Shifting right *)

(** After [n] one-bit shifts the record holds the quotient, and a set round or
    sticky bit means that something was shifted out. *)
Definition shifted (m0 : Z) (n : nat) (x : shr_record) : Prop :=
  exists rem, m0 = shr_m x * 2 ^ Z.of_nat n + rem /\ 0 <= rem < 2 ^ Z.of_nat n
    /\ 0 <= shr_m x /\ (shr_r x = true \/ shr_s x = true -> 0 < rem).

Lemma shr_1_shifted m0 n x : shifted m0 n x -> shifted m0 (S n) (shr_1 x).
Proof.
  intros (rem & Hm & Hr & Hp & Hb). destruct x as [m r s]; cbn [shr_m shr_r shr_s] in *.
  assert (2 ^ Z.of_nat (S n) = 2 * 2 ^ Z.of_nat n) as E by (rewrite Nat2Z.inj_succ, Z.pow_succ_r; lia).
  assert (r || s = true -> 0 < rem)%bool as Hb' by (destruct r, s; simpl; auto).
  unfold shifted. rewrite E.
  destruct m as [|[p|p|]|p]; cbn; [| | | |lia].
  - exists rem. repeat split; try lia. intros [?|?]; [discriminate|auto].
  - exists (rem + 2 ^ Z.of_nat n). repeat split; try lia.
  - exists rem. repeat split; try lia. intros [?|?]; [discriminate|auto].
  - exists (rem + 2 ^ Z.of_nat n). repeat split; try lia.
Qed.

Lemma iter_pos_nat {A} (f : A -> A) p : forall x, iter_pos f p x = Nat.iter (Pos.to_nat p) f x.
Proof.
  assert (forall n x, Nat.iter n f (f x) = f (Nat.iter n f x)) as Hc.
  { induction n; intros x; simpl; [reflexivity|]. f_equal. apply IHn. }
  assert (forall m n x, Nat.iter (m + n) f x = Nat.iter m f (Nat.iter n f x)) as Ha.
  { induction m; intros n x; simpl; [reflexivity|]. f_equal. apply IHm. }
  induction p as [p IH|p IH|]; intros x; cbn [iter_pos]; rewrite ?IH.
  - rewrite Pos2Nat.inj_xI, <- Ha. replace (S (2 * Pos.to_nat p)) with (S (Pos.to_nat p + Pos.to_nat p)) by lia.
    cbn [Nat.iter]. apply Hc.
  - rewrite Pos2Nat.inj_xO, <- Ha. f_equal. lia.
  - reflexivity.
Qed.

Lemma shr_shifted m e n :
  0 <= m ->
  let '(x, e') := shr (shr_record_of_loc m loc_Exact) e n in
  e' = e + Z.max 0 n /\ shifted m (Z.to_nat (Z.max 0 n)) x.
Proof.
  intros Hm.
  assert (shifted m 0 (shr_record_of_loc m loc_Exact)) as H0.
  { exists 0. cbn. repeat split; lia. }
  destruct n as [|p|p]; cbn [shr]; (split; [lia|]); [exact H0| |exact H0].
  rewrite iter_pos_nat. replace (Z.to_nat (Z.max 0 (Z.pos p))) with (Pos.to_nat p) by lia.
  induction (Pos.to_nat p) as [|k IH]; [exact H0|]. simpl. apply shr_1_shifted, IH.
Qed.

(** Rounding to nearest moves up by at most one, and only if something was
    shifted out. *)
Lemma round_up m n x c :
  shifted m n x -> m <= c * 2 ^ Z.of_nat n ->
  0 <= round_nearest_even (shr_m x) (loc_of_shr_record x) <= c.
Proof.
  intros (rem & Hm & Hr & Hp & Hb) Hle. destruct x as [mx r s]; cbn [shr_m shr_r shr_s] in *.
  assert (0 < 2 ^ Z.of_nat n) by (apply Z.pow_pos_nonneg; lia).
  assert (mx <= c) by nia. assert (r = true \/ s = true -> mx < c) by (intros Hrs; specialize (Hb Hrs); nia).
  destruct r, s; cbn; try (destruct (Z.even mx)); intuition lia.
Qed.

Lemma digits2_bound p : 2 ^ (Z.pos (digits2_pos p) - 1) <= Z.pos p.
Proof.
  assert (forall z, 0 < z -> 2 ^ (Z.succ z - 1) = 2 * 2 ^ (z - 1)) as E.
  { intros z Hz. replace (Z.succ z - 1) with (Z.succ (z - 1)) by lia. apply Z.pow_succ_r. lia. }
  induction p as [p IH|p IH|]; cbn [digits2_pos]; rewrite ?Pos2Z.inj_succ, ?E by lia; lia.
Qed.

(** ** Rounding below a short dyadic number *)

(** A non-negative float no greater than [c * 2^g]. *)
Definition fin_le (x : spec_float) (c g : Z) : Prop :=
  match x with
  | S754_zero _ => True
  | S754_finite false m e => dle (Z.pos m) e c g
  | _ => False
  end.

Lemma shr_fexp_exact m e :
  0 <= m ->
  let '(x, e') := shr_fexp prec emax m e loc_Exact in
  exists n, e' = e + Z.of_nat n /\ shifted m n x
    /\ (n <> 0%nat -> e' = fexp prec emax (Zdigits2 m + e)).
Proof.
  intros Hm. unfold shr_fexp. set (d := fexp _ _ _ - e).
  pose proof (shr_shifted m e d Hm) as H. destruct (shr _ e d) as [x e']. destruct H as [He Hs].
  exists (Z.to_nat (Z.max 0 d)). split; [lia|]. split; [exact Hs|]. intros. unfold d in *. lia.
Qed.

Lemma round_le sx m e c g :
  0 < c < 2 ^ 53 -> -1074 <= g <= 0 -> dle (Z.pos m) e c g ->
  sx = false -> fin_le (binary_round_aux prec emax sx (Z.pos m) e loc_Exact) c g.
Proof.
  intros Hc Hg Hle ->. unfold binary_round_aux.
  pose proof (shr_fexp_exact (Z.pos m) e ltac:(lia)) as H.
  destruct (shr_fexp _ _ (Z.pos m) e _) as [x1 e1]. destruct H as (n1 & He1 & Hs1 & Hn1).
  set (m1 := round_nearest_even _ _).
  set (f := Z.min e g). pose proof (dle_at f _ _ _ _ Hle ltac:(lia) ltac:(lia)) as Hle'.
  assert (0 <= m1 /\ dle m1 e1 c g) as [Hm1 Hle1].
  { destruct (Nat.eq_dec n1 0) as [->|Hn].
    - destruct (round_up _ _ _ (Z.pos m) Hs1 ltac:(change (Z.of_nat 0) with 0; rewrite Z.pow_0_r; lia)) as [? ?]. split; [assumption|].
      apply (dle_scale f); [lia|lia|]. replace (e1 - f) with (e - f) by lia.
      assert (0 < 2 ^ (e - f)) by (apply Z.pow_pos_nonneg; lia). fold m1 in H0. nia.
    - assert (e1 <= g) as He1g.
      { rewrite (Hn1 Hn). cbn [Zdigits2]. unfold fexp, emin, prec, emax.
        pose proof (digits2_bound m) as Hd. set (d := Z.pos (digits2_pos m)) in *.
        destruct (Z_lt_le_dec g (d + e - 53)) as [Hlt|]; [exfalso|lia].
        assert (2 ^ (d - 1) * 2 ^ (e - f) <= c * 2 ^ (g - f)) as Hx.
        { assert (0 <= 2 ^ (e - f)) by (apply Z.pow_nonneg; lia). nia. }
        rewrite <- Z.pow_add_r in Hx by lia.
        assert (2 ^ 53 * 2 ^ (g - f) <= 2 ^ (d - 1 + (e - f))).
        { rewrite <- Z.pow_add_r by lia. apply Z.pow_le_mono_r; lia. }
        assert (0 < 2 ^ (g - f)) by (apply Z.pow_pos_nonneg; lia). nia. }
      assert (Z.pos m <= c * 2 ^ (g - e1) * 2 ^ Z.of_nat n1) as Hup.
      { rewrite <- Z.mul_assoc, <- Z.pow_add_r by lia.
        replace (g - e1 + Z.of_nat n1) with (g - f) by lia. replace (e - f) with 0 in Hle' by lia. lia. }
      destruct (round_up _ _ _ _ Hs1 Hup) as [? Hr]. split; [assumption|]. fold m1 in Hr.
      apply (dle_scale e1); [lia|lia|]. rewrite Z.sub_diag. lia. }
  pose proof (shr_fexp_exact m1 e1 Hm1) as H2.
  destruct (shr_fexp _ _ m1 e1 _) as [x2 e2]. destruct H2 as (n2 & He2 & (rem & Hrem & Hr2 & Hp2 & _) & _).
  destruct (shr_m x2) as [|p|p]; [exact I| |lia].
  assert (dle (Z.pos p) e2 c g) as Hle2.
  { set (f2 := Z.min e1 g). apply (dle_scale f2); [lia|lia|].
    pose proof (dle_at f2 _ _ _ _ Hle1 ltac:(lia) ltac:(lia)) as H1.
    replace (e2 - f2) with (Z.of_nat n2 + (e1 - f2)) by lia. rewrite Z.pow_add_r by lia.
    assert (0 < 2 ^ (e1 - f2)) by (apply Z.pow_pos_nonneg; lia). nia. }
  destruct (Z.leb_spec e2 (emax - prec)) as [|Hbig]; [exact Hle2|].
  exfalso. unfold emax, prec in Hbig. set (f3 := Z.min e2 g).
  pose proof (dle_at f3 _ _ _ _ Hle2 ltac:(lia) ltac:(lia)) as H3.
  replace (g - f3) with 0 in H3 by lia. replace (e2 - f3) with (e2 - g) in H3 by lia.
  assert (2 ^ 53 <= 2 ^ (e2 - g)) as Ht by (apply Z.pow_le_mono_r; lia).
  rewrite Z.pow_0_r in H3. set (t := 2 ^ (e2 - g)) in *. nia.
Qed.

(** ** The operations of [effLimit] *)

Lemma iter_xO m d : Z.pos (Pos.iter xO m d) = Z.pos m * 2 ^ Z.pos d.
Proof.
  induction d using Pos.peano_ind.
  - simpl. lia.
  - rewrite Pos.iter_succ, Pos2Z.inj_xO, IHd, Pos2Z.inj_succ, Z.pow_succ_r by lia. lia.
Qed.

Lemma shl_align_value m e e' :
  let '(mz, ez) := shl_align m e e' in
  ez = Z.min e e' /\ Z.pos mz = Z.pos m * 2 ^ (e - ez).
Proof.
  unfold shl_align. destruct (e' - e) as [|d|d] eqn:E.
  - split; [lia|]. replace (e - e) with 0 by lia. lia.
  - split; [lia|]. replace (e - e) with 0 by lia. lia.
  - split; [lia|]. rewrite iter_xO. repeat f_equal. lia.
Qed.

Lemma shl_align_fst m e e' : e' <= e -> Z.pos (fst (shl_align m e e')) = Z.pos m * 2 ^ (e - e').
Proof.
  intros He. pose proof (shl_align_value m e e') as H. destruct (shl_align m e e') as [mz ez].
  destruct H as [-> H]. cbn [fst]. rewrite H. repeat f_equal. lia.
Qed.

Lemma binary_round_le m e c g :
  0 < c < 2 ^ 53 -> -1074 <= g <= 0 -> dle (Z.pos m) e c g ->
  fin_le (binary_round prec emax false m e) c g.
Proof.
  intros Hc Hg Hle. unfold binary_round. set (e' := fexp _ _ _).
  pose proof (shl_align_value m e e') as H. destruct (shl_align m e e') as [mz ez].
  destruct H as [He Hm]. apply round_le; try assumption; [|reflexivity].
  set (f := Z.min ez g). apply (dle_scale f); [lia|lia|]. rewrite Hm.
  pose proof (dle_at f _ _ _ _ Hle ltac:(lia) ltac:(lia)) as H.
  rewrite <- Z.mul_assoc, <- Z.pow_add_r by lia. replace (e - ez + (ez - f)) with (e - f) by lia. exact H.
Qed.

(** A value that is not positive: floored, it is at most zero. *)
Definition nonpos (x : spec_float) : Prop :=
  match x with S754_finite false _ _ | S754_infinity false => False | _ => True end.

Lemma round_neg m e l : nonpos (binary_round_aux prec emax true m e l).
Proof.
  unfold binary_round_aux. destruct (shr_fexp _ _ m e l) as [x1 e1].
  destruct (shr_fexp _ _ _ e1 _) as [x2 e2]. destruct (shr_m x2) as [|p|p]; simpl; trivial.
  destruct (e2 <=? _); exact I.
Qed.

(** A normalised difference or sum: small, or not positive. *)
Lemma normalize_le z e c g :
  0 < c < 2 ^ 53 -> -1074 <= g <= 0 -> (0 < z -> dle z e c g) ->
  fin_le (binary_normalize prec emax z e false) c g \/ nonpos (binary_normalize prec emax z e false).
Proof.
  intros Hc Hg Hz. destruct z as [|p|p]; cbn [binary_normalize].
  - left. exact I.
  - left. apply binary_round_le; auto. apply Hz. lia.
  - right. unfold binary_round. destruct (shl_align _ _ _). apply round_neg.
Qed.

Lemma f64_of_Z_le l : 0 < l < 2 ^ 53 -> fin_le (f64_of_Z l) l 0.
Proof.
  intros Hl. unfold f64_of_Z. destruct l as [|p|p]; [lia| |lia]. cbn [binary_normalize].
  apply binary_round_le; [assumption|lia|]. unfold dle. lia.
Qed.

(** [1 - reserve] for a positive reserve. *)
Lemma one_minus_le m e :
  let x := SFsub prec emax f64_one (S754_finite false m e) in fin_le x 1 0 \/ nonpos x.
Proof.
  assert (f64_one = S754_finite false 4503599627370496 (-52)) as -> by reflexivity.
  cbn [SFsub]. set (ez := Z.min (-52) e). apply normalize_le; [lia|lia|].
  cbn [cond_Zopp]. rewrite !shl_align_fst by lia. intros _.
  set (f := Z.min ez 0). apply (dle_scale f); [lia|lia|]. replace (ez - f) with 0 by lia.
  replace (0 - f) with (52 + (-52 - ez)) by lia. rewrite Z.pow_add_r by lia.
  change (Z.pos 4503599627370496) with (2 ^ 52).
  assert (0 <= 2 ^ (e - ez)) by (apply Z.pow_nonneg; lia). nia.
Qed.

Lemma mul_le x y l :
  0 < l < 2 ^ 53 -> fin_le x l 0 -> fin_le y 1 0 \/ nonpos y ->
  fin_le (SFmul prec emax x y) l 0 \/ nonpos (SFmul prec emax x y).
Proof.
  intros Hl Hx Hy. destruct x as [sx|sx| |[] mx ex]; simpl in Hx; try contradiction.
  { destruct y; cbn; auto. }
  destruct y as [sy|sy| |[] my ey]; cbn [SFmul xorb]; try (left; exact I); try (right; exact I).
  - right. destruct sy; [exact I|]. destruct Hy; contradiction.
  - right. apply round_neg.
  - destruct Hy as [Hy|Hy]; [|contradiction]. left. apply round_le; [lia|lia| |reflexivity]. simpl in Hy.
    set (f1 := Z.min ex 0). set (f2 := Z.min ey 0).
    pose proof (dle_at f1 _ _ _ _ Hx ltac:(lia) ltac:(lia)) as H1.
    pose proof (dle_at f2 _ _ _ _ Hy ltac:(lia) ltac:(lia)) as H2.
    apply (dle_scale (f1 + f2)); [lia|lia|]. rewrite Pos2Z.inj_mul.
    replace (ex + ey - (f1 + f2)) with ((ex - f1) + (ey - f2)) by lia.
    replace (0 - (f1 + f2)) with ((0 - f1) + (0 - f2)) by lia. rewrite !Z.pow_add_r by lia.
    assert (0 < 2 ^ (ex - f1)) by (apply Z.pow_pos_nonneg; lia).
    assert (0 < 2 ^ (ey - f2)) by (apply Z.pow_pos_nonneg; lia).
    transitivity ((Z.pos mx * 2 ^ (ex - f1)) * (Z.pos my * 2 ^ (ey - f2))); [nia|].
    transitivity ((l * 2 ^ (0 - f1)) * (1 * 2 ^ (0 - f2))); [|nia].
    apply Z.mul_le_mono_nonneg; nia.
Qed.

Lemma add_eps_le x l :
  0 < l <= 2 ^ 52 - 1 -> fin_le x l 0 \/ nonpos x ->
  fin_le (SFadd prec emax x f64_1e9) (2 * l + 1) (-1) \/ nonpos (SFadd prec emax x f64_1e9).
Proof.
  intros Hl Hx. unfold f64_1e9. destruct x as [s|s| |s m e]; cbn [SFadd].
  - left. unfold fin_le, dle. change (Z.min (-82) (-1)) with (-82). simpl. lia.
  - destruct s; [right; exact I|]. destruct Hx; contradiction.
  - right. exact I.
  - set (ez := Z.min e (-82)). apply normalize_le; [lia|lia|]. rewrite !shl_align_fst by lia.
    cbn [cond_Zopp]. set (d := -82 - ez).
    assert (0 < 2 ^ d) by (apply Z.pow_pos_nonneg; lia).
    assert (2 ^ (-1 - ez) = 2 ^ 81 * 2 ^ d) as E by (rewrite <- Z.pow_add_r by lia; f_equal; lia).
    intros _. apply (dle_scale ez); [lia|lia|]. rewrite Z.sub_diag, E, Z.pow_0_r.
    assert (0 < 2 ^ (e - ez)) by (apply Z.pow_pos_nonneg; lia).
    destruct s; cbn [cond_Zopp]; [nia|].
    destruct Hx as [Hx|Hx]; [|contradiction]. simpl in Hx.
    pose proof (dle_at ez _ _ _ _ Hx ltac:(lia) ltac:(lia)) as H1.
    assert (2 ^ (0 - ez) = 2 ^ 82 * 2 ^ d) as E0 by (rewrite <- Z.pow_add_r by lia; f_equal; lia).
    rewrite E0 in H1. fold d. nia.
Qed.

Lemma f64_floor_le x l :
  0 <= l -> fin_le x (2 * l + 1) (-1) \/ nonpos x -> f64_floor x <= l.
Proof.
  intros Hl Hx. unfold f64_floor. destruct x as [s|s| |s m e]; try lia.
  assert (0 < 2 ^ Z.abs e) as Hp by (apply Z.pow_pos_nonneg; lia).
  destruct s.
  - destruct (Z.leb_spec 0 e).
    + replace e with (Z.abs e) by lia. nia.
    + replace (- e) with (Z.abs e) by lia. transitivity 0; [|lia].
      apply Z.div_le_upper_bound; lia.
  - destruct Hx as [Hx|Hx]; [|contradiction]. simpl in Hx.
    destruct (Z.leb_spec 0 e).
    + pose proof (dle_at (-1) _ _ _ _ Hx ltac:(lia) ltac:(lia)) as H1.
      replace (e - -1) with (Z.succ e) in H1 by lia. rewrite Z.pow_succ_r in H1 by lia.
      change (2 ^ (-1 - -1)) with 1 in H1. lia.
    + pose proof (dle_at e _ _ _ _ Hx ltac:(lia) ltac:(lia)) as H1. rewrite Z.sub_diag in H1.
      apply Z.lt_succ_r. apply Z.div_lt_upper_bound; [replace (- e) with (Z.abs e) by lia; lia|].
      replace (- e) with (Z.succ (-1 - e)) by lia. rewrite Z.pow_succ_r by lia.
      assert (0 < 2 ^ (-1 - e)) by (apply Z.pow_pos_nonneg; lia). nia.
Qed.

(** The ceiling batch work sees is never above the configured one. *)
Lemma effLimit_le s l batch : 0 < l < 2 ^ 52 -> effLimit s l batch <= l.
Proof.
  intros Hl. unfold effLimit. destruct (orb (negb batch) (f64_le0 (reserve s))) eqn:E0; [lia|].
  apply Bool.orb_false_iff in E0 as [_ E0]. destruct (f64_ge1 (reserve s)) eqn:E1; [lia|].
  apply f64_floor_le; [lia|]. apply add_eps_le; [lia|]. apply mul_le; [lia|apply f64_of_Z_le; lia|].
  destruct (reserve s) as [sr|sr| |[] m e]; try discriminate.
  - destruct sr; discriminate.
  - right. exact I.
  - apply one_minus_le.
Qed.

(** The interactive reserve only ever lowers a ceiling: whatever the reserve
    (any binary64 value, NaN included) and whatever the rounding of the product
    and the epsilon, the effective ceiling of batch work is at most the
    configured one. *)
Theorem effLimit_never_raises s l batch :
  0 < l < 2 ^ 52 -> effLimit s l batch <= l.
Proof. apply effLimit_le. Qed.

(** At a reserve of 0.3 a ceiling of ten leaves seven, not six. *)
Lemma effLimit_never_raises_witness :
  let s := New_static (mkConfig false 10 ∅ ∅ ∅ nil ∅ (mkQConfig 0 ∅ ∅ ∅ nil ∅ ∅)
             (S754_finite false 5404319552844595 (-54)) 0 0 0 SoftReservationsDefault 0) in
  effLimit s 10 true = 7 /\ effLimit s 10 true <= 10.
Proof. split; [vm_compute; reflexivity|]. apply (effLimit_never_raises _ 10 true). lia. Defined.
