(* ===== verification/Broker.v ===== *)
(** * The capacity broker ([internal/capacity/broker.go], [softreserve.go])

    Every operation of the broker as a function on one state record, the
    critical section of the single mutex. Pointers are names: a bucket is named
    by its axis key, because a bucket is created once, stored in [buckets] under
    its key and never replaced or removed; a waiter by its sequence number; a
    reservation by the order it was created in. [wheap] and [rheap] are the heap
    objects, [waiters] and [live] the two sets that say which of them are still
    queued or held. The clock is read through the [now] argument, and the
    iteration order of a Go map, which is unspecified, is an argument of the
    operations whose effect depends on it. *)
From S2P Require Import Prelude Axis WaitQueue.
From stdpp Require Import base gmap strings list.
From Stdlib Require Import ZArith Lia.
Open Scope Z_scope.
Open Scope go_scope.

(** ** Constants, waiters and reservations *)

Definition maxBlockAxes : nat := 8.
Definition maxProbePerRelease : Z := 16.

Inductive error : Type :=
| ErrClosed | ErrUnsatisfiable | ErrQueueFull | ErrQueueTimeout | ErrContext.

Inductive waiterState : Type := stateWaiting | stateGranted | stateCancelled | stateFailed.

#[export] Instance waiterState_eq_dec : EqDecision waiterState.
Proof. solve_decision. Defined.

(** A reservation on success, an error otherwise. *)
Inductive grant : Type := grant_res (r : nat) | grant_err (e : error).

(** [ch] is the one-slot channel the result is sent on; [at_] the keys of the
    queues the waiter sits in. *)
Record waiter : Type := mkWaiter {
  enqueued : Z; wreq : Request; ch : option grant; wstate : waiterState;
  claimed : bool; bounces : Z; claimIdx : nat; stall : Z; at_ : list axisKey; wpass : nat }.

(** [deadline] is [None] for the zero time; [account] says whether a shared
    account lease is held. *)
Record Reservation : Type := mkRes {
  credID : string; deadline : option Z; held : list axisKey; account : bool; released : bool }.

Definition set_ch (w : waiter) (x : option grant) : waiter :=
  mkWaiter (enqueued w) (wreq w) x (wstate w) (claimed w) (bounces w) (claimIdx w) (stall w) (at_ w) (wpass w).
Definition set_wstate (w : waiter) (x : waiterState) : waiter :=
  mkWaiter (enqueued w) (wreq w) (ch w) x (claimed w) (bounces w) (claimIdx w) (stall w) (at_ w) (wpass w).
Definition set_claimed (w : waiter) (x : bool) : waiter :=
  mkWaiter (enqueued w) (wreq w) (ch w) (wstate w) x (bounces w) (claimIdx w) (stall w) (at_ w) (wpass w).
Definition set_bounces (w : waiter) (x : Z) : waiter :=
  mkWaiter (enqueued w) (wreq w) (ch w) (wstate w) (claimed w) x (claimIdx w) (stall w) (at_ w) (wpass w).
Definition set_claimIdx (w : waiter) (x : nat) : waiter :=
  mkWaiter (enqueued w) (wreq w) (ch w) (wstate w) (claimed w) (bounces w) x (stall w) (at_ w) (wpass w).
Definition set_stall (w : waiter) (x : Z) : waiter :=
  mkWaiter (enqueued w) (wreq w) (ch w) (wstate w) (claimed w) (bounces w) (claimIdx w) x (at_ w) (wpass w).
Definition set_at (w : waiter) (x : list axisKey) : waiter :=
  mkWaiter (enqueued w) (wreq w) (ch w) (wstate w) (claimed w) (bounces w) (claimIdx w) (stall w) x (wpass w).
Definition set_wpass (w : waiter) (x : nat) : waiter :=
  mkWaiter (enqueued w) (wreq w) (ch w) (wstate w) (claimed w) (bounces w) (claimIdx w) (stall w) (at_ w) x.
Definition set_released (r : Reservation) (x : bool) : Reservation :=
  mkRes (credID r) (deadline r) (held r) (account r) x.

Section Broker.
Context {Q : Type} `{!WaitQueue Q}.

(** ** State *)

(** [inUse] counts committed reservations and the claim, if any. *)
Record bucket : Type := mkBucket {
  limit : Z; queueMax : Z; inUse : Z; q : Q; claimant : option nat }.

Definition set_inUse (bk : bucket) (x : Z) : bucket :=
  mkBucket (limit bk) (queueMax bk) x (q bk) (claimant bk).
Definition set_q (bk : bucket) (x : Q) : bucket :=
  mkBucket (limit bk) (queueMax bk) (inUse bk) x (claimant bk).
Definition set_claimant (bk : bucket) (x : option nat) : bucket :=
  mkBucket (limit bk) (queueMax bk) (inUse bk) (q bk) x.

Definition committed (bk : bucket) : Z :=
  match claimant bk with Some _ => inUse bk - 1 | None => inUse bk end.

Record Broker : Type := mkBroker {
  st : Static;
  share : Z;
  buckets : gmap axisKey bucket;
  wheap : gmap nat waiter;
  waiters : gset nat;
  rheap : gmap nat Reservation;
  live : gset nat;
  seq : nat;
  pass : nat;
  closed : bool;
  wakeups : Z;
  grants : Z;
  expired : Z;
  softPlaced : Z;
  queueRefused : Z;
  queueTimeouts : Z;
  pending : list axisKey;
  nres : nat;
  asks : nat }.

Definition set_share (b : Broker) (x : Z) : Broker :=
  mkBroker (st b) x (buckets b) (wheap b) (waiters b) (rheap b) (live b) (seq b) (pass b) (closed b) (wakeups b) (grants b) (expired b) (softPlaced b) (queueRefused b) (queueTimeouts b) (pending b) (nres b) (asks b).
Definition set_buckets (b : Broker) (x : gmap axisKey bucket) : Broker :=
  mkBroker (st b) (share b) x (wheap b) (waiters b) (rheap b) (live b) (seq b) (pass b) (closed b) (wakeups b) (grants b) (expired b) (softPlaced b) (queueRefused b) (queueTimeouts b) (pending b) (nres b) (asks b).
Definition set_wheap (b : Broker) (x : gmap nat waiter) : Broker :=
  mkBroker (st b) (share b) (buckets b) x (waiters b) (rheap b) (live b) (seq b) (pass b) (closed b) (wakeups b) (grants b) (expired b) (softPlaced b) (queueRefused b) (queueTimeouts b) (pending b) (nres b) (asks b).
Definition set_waiters (b : Broker) (x : gset nat) : Broker :=
  mkBroker (st b) (share b) (buckets b) (wheap b) x (rheap b) (live b) (seq b) (pass b) (closed b) (wakeups b) (grants b) (expired b) (softPlaced b) (queueRefused b) (queueTimeouts b) (pending b) (nres b) (asks b).
Definition set_rheap (b : Broker) (x : gmap nat Reservation) : Broker :=
  mkBroker (st b) (share b) (buckets b) (wheap b) (waiters b) x (live b) (seq b) (pass b) (closed b) (wakeups b) (grants b) (expired b) (softPlaced b) (queueRefused b) (queueTimeouts b) (pending b) (nres b) (asks b).
Definition set_live (b : Broker) (x : gset nat) : Broker :=
  mkBroker (st b) (share b) (buckets b) (wheap b) (waiters b) (rheap b) x (seq b) (pass b) (closed b) (wakeups b) (grants b) (expired b) (softPlaced b) (queueRefused b) (queueTimeouts b) (pending b) (nres b) (asks b).
Definition set_seq (b : Broker) (x : nat) : Broker :=
  mkBroker (st b) (share b) (buckets b) (wheap b) (waiters b) (rheap b) (live b) x (pass b) (closed b) (wakeups b) (grants b) (expired b) (softPlaced b) (queueRefused b) (queueTimeouts b) (pending b) (nres b) (asks b).
Definition set_pass (b : Broker) (x : nat) : Broker :=
  mkBroker (st b) (share b) (buckets b) (wheap b) (waiters b) (rheap b) (live b) (seq b) x (closed b) (wakeups b) (grants b) (expired b) (softPlaced b) (queueRefused b) (queueTimeouts b) (pending b) (nres b) (asks b).
Definition set_closed (b : Broker) (x : bool) : Broker :=
  mkBroker (st b) (share b) (buckets b) (wheap b) (waiters b) (rheap b) (live b) (seq b) (pass b) x (wakeups b) (grants b) (expired b) (softPlaced b) (queueRefused b) (queueTimeouts b) (pending b) (nres b) (asks b).
Definition set_wakeups (b : Broker) (x : Z) : Broker :=
  mkBroker (st b) (share b) (buckets b) (wheap b) (waiters b) (rheap b) (live b) (seq b) (pass b) (closed b) x (grants b) (expired b) (softPlaced b) (queueRefused b) (queueTimeouts b) (pending b) (nres b) (asks b).
Definition set_grants (b : Broker) (x : Z) : Broker :=
  mkBroker (st b) (share b) (buckets b) (wheap b) (waiters b) (rheap b) (live b) (seq b) (pass b) (closed b) (wakeups b) x (expired b) (softPlaced b) (queueRefused b) (queueTimeouts b) (pending b) (nres b) (asks b).
Definition set_expired (b : Broker) (x : Z) : Broker :=
  mkBroker (st b) (share b) (buckets b) (wheap b) (waiters b) (rheap b) (live b) (seq b) (pass b) (closed b) (wakeups b) (grants b) x (softPlaced b) (queueRefused b) (queueTimeouts b) (pending b) (nres b) (asks b).
Definition set_softPlaced (b : Broker) (x : Z) : Broker :=
  mkBroker (st b) (share b) (buckets b) (wheap b) (waiters b) (rheap b) (live b) (seq b) (pass b) (closed b) (wakeups b) (grants b) (expired b) x (queueRefused b) (queueTimeouts b) (pending b) (nres b) (asks b).
Definition set_queueRefused (b : Broker) (x : Z) : Broker :=
  mkBroker (st b) (share b) (buckets b) (wheap b) (waiters b) (rheap b) (live b) (seq b) (pass b) (closed b) (wakeups b) (grants b) (expired b) (softPlaced b) x (queueTimeouts b) (pending b) (nres b) (asks b).
Definition set_queueTimeouts (b : Broker) (x : Z) : Broker :=
  mkBroker (st b) (share b) (buckets b) (wheap b) (waiters b) (rheap b) (live b) (seq b) (pass b) (closed b) (wakeups b) (grants b) (expired b) (softPlaced b) (queueRefused b) x (pending b) (nres b) (asks b).
Definition set_pending (b : Broker) (x : list axisKey) : Broker :=
  mkBroker (st b) (share b) (buckets b) (wheap b) (waiters b) (rheap b) (live b) (seq b) (pass b) (closed b) (wakeups b) (grants b) (expired b) (softPlaced b) (queueRefused b) (queueTimeouts b) x (nres b) (asks b).
Definition set_nres (b : Broker) (x : nat) : Broker :=
  mkBroker (st b) (share b) (buckets b) (wheap b) (waiters b) (rheap b) (live b) (seq b) (pass b) (closed b) (wakeups b) (grants b) (expired b) (softPlaced b) (queueRefused b) (queueTimeouts b) (pending b) x (asks b).
Definition set_asks (b : Broker) (x : nat) : Broker :=
  mkBroker (st b) (share b) (buckets b) (wheap b) (waiters b) (rheap b) (live b) (seq b) (pass b) (closed b) (wakeups b) (grants b) (expired b) (softPlaced b) (queueRefused b) (queueTimeouts b) (pending b) (nres b) x.

(** A broker as [New] returns it. *)
Definition New (cfg : Config) : Broker :=
  mkBroker (New_static cfg) 0 ∅ ∅ ∅ ∅ ∅ 0 0 false 0 0 0 0 0 0 [] 0 0.

(** Writing through a waiter pointer, and through a bucket pointer. *)
Definition upd_waiter (b : Broker) (w : nat) (f : waiter → waiter) : Broker :=
  set_wheap b (alter f w (wheap b)).
Definition upd_bucket (b : Broker) (k : axisKey) (f : bucket → bucket) : Broker :=
  set_buckets b (alter f k (buckets b)).

(** ** Checking and committing *)

(** The waiter an attempt is made for; [None] is the [noClaimant] sentinel,
    which is never stored as a bucket's claimant. *)
Definition is_claimant (bk : bucket) (w : option nat) : bool :=
  match w, claimant bk with
  | Some i, Some j => bool_decide (i = j)
  | _, _ => false
  end.

(** [(blocking, ok, permanent)]. *)
Fixpoint checkLocked (bs : gmap axisKey bucket) (ns : list axisNeed) (w : option nat)
  : option axisKey * bool * bool :=
  match ns with
  | [] => (None, true, false)
  | nd :: ns' =>
      match bs !! nkey nd with
      | None => checkLocked bs ns' w
      | Some bk =>
          if inUse bk <? nlimit nd then checkLocked bs ns' w
          else if negb (is_claimant bk w) || (nlimit nd <=? inUse bk - 1)
          then (Some (nkey nd), false, false)
          else checkLocked bs ns' w
      end
  end.

Fixpoint checkReservedLocked (s : Static) (bs : gmap axisKey bucket) (ns : list axisNeed)
  : option axisKey * bool * bool :=
  match ns with
  | [] => (None, true, false)
  | nd :: ns' =>
      let eff := effLimit s (nlimit nd) true in
      if eff <=? 0 then (None, false, true)
      else match bs !! nkey nd with
           | Some bk => if eff <=? inUse bk then (Some (nkey nd), false, false)
                        else checkReservedLocked s bs ns'
           | None => checkReservedLocked s bs ns'
           end
  end.

(** The bucket a need is committed on, created if absent, and its value after. *)
Definition commit_one (bs : gmap axisKey bucket) (w : option nat) (nd : axisNeed)
  : gmap axisKey bucket :=
  let bk := default (mkBucket (nlimit nd) (nqueue nd) 0 qempty None) (bs !! nkey nd) in
  <[nkey nd := if is_claimant bk w then set_claimant bk None
               else set_inUse bk (inUse bk + 1)]> bs.

Definition commitLocked (b : Broker) (ns : list axisNeed) (cred : string) (reqTTL : Z)
    (acct : bool) (w : option nat) (now : Z) : Broker * nat :=
  let t := if reqTTL =? 0 then ttl (st b) else reqTTL in
  let r := mkRes cred (if 0 <? t then Some (now + t) else None) (map nkey ns) acct false in
  let id := nres b in
  let b := set_buckets b (foldl (λ bs nd, commit_one bs w nd) (buckets b) ns) in
  let b := set_rheap b (<[id := r]> (rheap b)) in
  let b := set_live b ({[id]} ∪ live b) in
  (set_nres b (S id), id).

(** ** The acquisition attempt *)

(** Answers of the shared account store: the [i]-th question asks for a slot of
    a group under a ceiling. It is consulted only when [shared] is set. *)
Variable account_try : nat → string → Z → bool.

(** Asks the store for an account slot when the candidate needs one. Returns the
    state, the blocking key, whether the candidate still passes and whether an
    account lease is held. A refusal blocks on the group's bucket, which is
    created if absent. *)
Definition ask_account (b : Broker) (c : option Candidate) (blk : option axisKey) (ok : bool)
  : Broker * option axisKey * bool * bool :=
  match c with
  | Some c' =>
      let g := CapacityGroup c' in
      let lim := map_get (cgroups (st b)) g in
      if ok && shared (st b) && (0 <? lim) then
        let granted := account_try (asks b) g lim in
        let b := set_asks b (S (asks b)) in
        if granted then (b, blk, true, true)
        else
          let key := cgroupKey g in
          let b := match buckets b !! key with
                   | Some _ => b
                   | None => set_buckets b
                       (<[key := mkBucket lim (map_get (qcgroups (queues (st b))) g) 0 qempty None]>
                          (buckets b))
                   end in
          (b, Some key, false, false)
      else (b, blk, ok, false)
  | None => (b, blk, ok, false)
  end.

Definition add_blocking (blocking : list axisKey) (blk : option axisKey) : list axisKey :=
  match blk with
  | Some k => if bool_decide ((length blocking < maxBlockAxes)%nat) && bool_decide (k ∉ blocking)
              then blocking ++ [k] else blocking
  | None => blocking
  end.

(** Only batch work under a non-zero reserve is checked against the lowered
    ceilings. *)
Definition reserved (s : Static) (req : Request) : bool := Batch req && negb (f64_le0 (reserve s)).

(** Candidate [i] and the ones after it, [k] of them. *)
Fixpoint try_loop (k : nat) (b : Broker) (req : Request) (w : option nat) (now : Z) (i : nat)
    (blocking : list axisKey) (permanent : bool)
  : Broker * option nat * list axisKey * bool :=
  match k with
  | O => (b, None, blocking, permanent)
  | S k' =>
      let c := candidateAt req i in
      if bool_decide (c = None) && bool_decide (0 < length (Candidates req))%nat
      then (b, None, blocking, permanent)
      else
        let ns := needs (st b) (share b) req c in
        let '(blk, ok, perm) := if reserved (st b) req
                                then checkReservedLocked (st b) (buckets b) ns
                                else checkLocked (buckets b) ns w in
        let '(b, blk, ok, acct) := ask_account b c blk ok in
        if ok then
          let cred := match c with Some c' => ID c' | None => "" end in
          let '(b, r) := commitLocked b ns cred (TTL req) acct w now in
          (b, Some r, [], false)
        else if perm then try_loop k' b req w now (S i) blocking permanent
        else try_loop k' b req w now (S i) (add_blocking blocking blk) false
  end.

Definition tryLocked (b : Broker) (req : Request) (w : option nat) (now : Z)
  : Broker * option nat * list axisKey * bool :=
  try_loop (candidateCount req) b req w now 0 [] true.

(** ** Queue membership *)

Definition queue_full (b : Broker) (k : axisKey) : bool :=
  match buckets b !! k with
  | Some bk => (0 <? queueMax bk) && (queueMax bk <=? Z.of_nat (qLen (q bk)))
  | None => false
  end.
Definition queueFullLocked (b : Broker) (blocking : list axisKey) : Broker * option axisKey :=
  if negb (bounded (st b)) then (b, None)
  else
    match list_find (λ k, queue_full b k = true) blocking with
    | Some (_, k) => (set_queueRefused b (queueRefused b + 1), Some k)
    | None => (b, None)
    end.

Definition enqueue_one (b : Broker) (w : nat) (k : axisKey) : Broker :=
  let b := upd_bucket b k (λ bk, set_q bk (qpush (q bk) w)) in
  upd_waiter b w (λ x, set_at x (at_ x ++ [k])).
Definition enqueueLocked (b : Broker) (w : nat) (axes : list axisKey) : Broker :=
  foldl (λ b k, enqueue_one b w k) b axes.

Definition unqueue_one (b : Broker) (w : nat) (k : axisKey) : Broker :=
  upd_bucket b k (λ bk, set_q bk (qremove (q bk) w)).
Definition at_of (b : Broker) (w : nat) : list axisKey :=
  match wheap b !! w with Some x => at_ x | None => [] end.
Definition unqueueLocked (b : Broker) (w : nat) : Broker :=
  upd_waiter (foldl (λ b k, unqueue_one b w k) b (at_of b w)) w (λ x, set_at x []).

(** ** Soft reservations *)

(** [Some c] is the claim candidate ([c] itself is [None] for the implicit one);
    [None] when the index is past the candidates. *)
Definition claimCandidate (x : waiter) : option (option Candidate) :=
  let c := candidateAt (wreq x) (claimIdx x) in
  if bool_decide (c = None) && bool_decide (0 < length (Candidates (wreq x)))%nat then None
  else Some c.

Definition claimableLocked (bk : option bucket) (nd : axisNeed) (w : nat) : bool :=
  if nlimit nd <=? 0 then false
  else match bk with
       | None => true
       | Some bk =>
           match claimant bk with
           | Some c => bool_decide (c = w)
           | None =>
               if nlimit nd <=? inUse bk then false
               else match qhead (q bk) with
                    | Some h => negb (bool_decide (h ≠ w) && bool_decide (h < w)%nat)
                    | None => true
                    end
           end
       end.

Definition release_claim_one (w : nat) (b : Broker) (nd : axisNeed) : Broker :=
  match buckets b !! nkey nd with
  | Some bk =>
      if is_claimant bk (Some w) then
        let b := upd_bucket b (nkey nd) (λ bk, set_inUse (set_claimant bk None) (inUse bk - 1)) in
        set_pending b (pending b ++ [nkey nd])
      else b
  | None => b
  end.

Definition releaseClaimsLocked (b : Broker) (w : nat) : Broker :=
  match wheap b !! w with
  | Some x =>
      if claimed x then
        let b := upd_waiter b w (λ x, set_claimed x false) in
        match claimCandidate x with
        | Some c => foldl (release_claim_one w) b (needs (st b) (share b) (wreq x) c)
        | None => b
        end
      else b
  | None => b
  end.

(** The first candidate from [i] on, [k] of them, whose axes include [on]. *)
Fixpoint candidateNeeding (k : nat) (b : Broker) (req : Request) (on : axisKey) (i : nat)
  : option nat :=
  match k with
  | O => None
  | S k' =>
      let c := candidateAt req i in
      if bool_decide (c = None) && bool_decide (0 < length (Candidates req))%nat then None
      else if existsb (λ nd, bool_decide (nkey nd = on) && bool_decide (is_Some (buckets b !! on)))
                (needs (st b) (share b) req c)
      then Some i
      else candidateNeeding k' b req on (S i)
  end.

Definition rotateClaimLocked (b : Broker) (w : nat) (on : axisKey) : Broker :=
  match wheap b !! w with
  | Some x =>
      match candidateNeeding (candidateCount (wreq x)) b (wreq x) on 0 with
      | Some i =>
          if decide (i = claimIdx x) then b
          else upd_waiter (releaseClaimsLocked b w) w (λ x, set_stall (set_claimIdx x i) 0)
      | None => b
      end
  | None => b
  end.

(** Places one claim. *)
Definition place_claim (b : Broker) (w : nat) (nd : axisNeed) : Broker :=
  let bk := default (mkBucket (nlimit nd) 0 0 qempty None) (buckets b !! nkey nd) in
  let b := set_buckets b (<[nkey nd := set_inUse (set_claimant bk (Some w)) (inUse bk + 1)]> (buckets b)) in
  let b := upd_waiter b w (λ x, set_claimed x true) in
  set_softPlaced b (softPlaced b + 1).

(** The walk over the claim candidate's axes: [(state, claimedOn, placed)]. *)
Fixpoint extend_loop (b : Broker) (w : nat) (on : axisKey) (ns : list axisNeed)
    (claimedOn : bool) (placed : Z) : Broker * bool * Z :=
  match ns with
  | [] => (b, claimedOn, placed)
  | nd :: ns' =>
      let bk := buckets b !! nkey nd in
      if match bk with Some bk => is_claimant bk (Some w) | None => false end
      then extend_loop b w on ns' claimedOn placed
      else if negb (claimableLocked bk nd w) then (b, claimedOn, placed)
      else extend_loop (place_claim b w nd) w on ns'
             (claimedOn || bool_decide (nkey nd = on)) (placed + 1)
  end.

Definition extendClaimsLocked (b : Broker) (w : nat) (on : axisKey) : Broker * bool :=
  match wheap b !! w with
  | None => (b, false)
  | Some x =>
      if negb (soft (st b)) || (bounces x <? i32 (softAfter (st b))) || reserved (st b) (wreq x)
      then (b, false)
      else
        let b := if (i32 (softAfter (st b)) <=? stall x)
                    && bool_decide (1 < candidateCount (wreq x))%nat
                 then rotateClaimLocked b w on else b in
        match wheap b !! w with
        | None => (b, false)
        | Some x =>
            match claimCandidate x with
            | None => (b, false)
            | Some c =>
                let '(b, claimedOn, placed) :=
                  extend_loop b w on (needs (st b) (share b) (wreq x) c) false 0 in
                let b := upd_waiter b w (λ x, set_stall x (if 0 <? placed then 0 else i32 (stall x + 1))) in
                (b, claimedOn)
            end
        end
  end.

(** ** Delivering a result *)

Definition finishLocked (b : Broker) (w : nat) (g : grant) (s : waiterState) : Broker * bool :=
  match wheap b !! w with
  | Some x =>
      if decide (wstate x = stateWaiting) then
        let b := upd_waiter b w (λ x, set_wstate x s) in
        let b := set_waiters b (waiters b ∖ {[w]}) in
        let b := upd_waiter b w (λ x, set_ch x (Some g)) in
        (releaseClaimsLocked b w, true)
      else (b, false)
  | None => (b, false)
  end.

(** ** Release and targeted wakeup *)

(** The loop of [serveLocked]; [park] holds the waiters taken out of the queue
    for the duration of the pass. [None] when the rounds run out. *)
Fixpoint serve_loop (fuel : nat) (b : Broker) (k : axisKey) (freed : Z) (pn : nat) (now : Z)
    (budget granted : Z) (park : list nat) : option (Broker * list nat) :=
  match fuel with
  | O => None
  | S f =>
      if (granted <? freed) && (0 <? budget) then
        match qhead (match buckets b !! k with Some bk => q bk | None => qempty end) with
        | None => Some (b, park)
        | Some w =>
            match wheap b !! w with
            | None => Some (b, park)
            | Some x =>
                if decide (wpass x = pn) then
                  if bool_decide (k ∉ at_ x) || (maxProbePerRelease <=? Z.of_nat (length park))
                  then Some (b, park)
                  else serve_loop f (unqueue_one b w k) k freed pn now budget granted (park ++ [w])
                else
                  let b := upd_waiter b w (λ x, set_wpass x pn) in
                  let budget := budget - 1 in
                  let b := set_wakeups b (wakeups b + 1) in
                  let '(b, res, blocking, permanent) := tryLocked b (wreq x) (Some w) now in
                  let b := unqueueLocked b w in
                  match res with
                  | Some r =>
                      let '(b, _) := finishLocked b w (grant_res r) stateGranted in
                      let b := set_grants b (grants b + 1) in
                      serve_loop f b k freed pn now budget (granted + 1) park
                  | None =>
                      if permanent then
                        let '(b, _) := finishLocked b w (grant_err ErrUnsatisfiable) stateFailed in
                        serve_loop f b k freed pn now budget granted park
                      else
                        let b := upd_waiter b w (λ x, set_bounces x (i32 (bounces x + 1))) in
                        let '(b, claimedOn) := extendClaimsLocked b w k in
                        let granted := if claimedOn : bool then granted + 1 else granted in
                        let b := enqueueLocked b w blocking in
                        if bool_decide (k ∈ at_of b w)
                           && (Z.of_nat (length park) <? maxProbePerRelease)
                        then serve_loop f (unqueue_one b w k) k freed pn now budget granted (park ++ [w])
                        else serve_loop f b k freed pn now budget granted park
                  end
            end
        end
      else Some (b, park)
  end.

(** Parked waiters are pushed back with their sequence intact. *)
Definition unpark (b : Broker) (k : axisKey) (park : list nat) : Broker :=
  foldl (λ b w, upd_bucket b k (λ bk, set_q bk (qpush (q bk) w))) b park.

(** Each round probes a waiter or parks one: 32 rounds and the last test. *)
Definition serve_rounds : nat := 33.

Definition serveLocked (b : Broker) (k : axisKey) (freed : Z) (pn : nat) (now : Z) : option Broker :=
  let len := match buckets b !! k with Some bk => qLen (q bk) | None => 0%nat end in
  if bool_decide (len = 0%nat) || closed b then Some b
  else
    let budget := Z.min (freed + wakeSlack (st b)) maxProbePerRelease in
    let? (b, park) := serve_loop serve_rounds b k freed pn now budget 0 [] in
    Some (unpark b k park).

Fixpoint serve_each (b : Broker) (ks : list axisKey) (pn : nat) (now : Z) : option Broker :=
  match ks with
  | [] => Some b
  | k :: ks' => let? b := serveLocked b k 1 pn now in serve_each b ks' pn now
  end.

(** The rounds of [drainLocked]: [None] when [fuel] rounds were not enough. *)
Fixpoint drainLocked (fuel : nat) (b : Broker) (now : Z) : option Broker :=
  if bool_decide (pending b = []) || closed b then Some (set_pending b [])
  else
    match fuel with
    | O => None
    | S f =>
        let n := length (pending b) in
        let b := set_pass b (S (pass b)) in
        let? b := serve_each b (pending b) (pass b) now in
        drainLocked f (set_pending b (drop n (pending b))) now
    end.

Definition drainPendingLocked (fuel : nat) (b : Broker) (now : Z) : option Broker :=
  if decide (pending b = []) then Some b else drainLocked fuel b now.

Definition dec_inUse (bk : bucket) : bucket :=
  if 0 <? inUse bk then set_inUse bk (inUse bk - 1) else bk.

Definition releaseLocked (fuel : nat) (b : Broker) (hd : list axisKey) (now : Z) : option Broker :=
  let b := foldl (λ b k, upd_bucket b k dec_inUse) b hd in
  let b := set_pass b (S (pass b)) in
  let? b := serve_each b hd (pass b) now in
  drainPendingLocked fuel b now.

(** ** Entry points *)

Definition TryAcquire (b : Broker) (req : Request) (now : Z) : Broker * option nat :=
  if closed b then (b, None)
  else
    let '(b, res, _, _) := tryLocked b req None now in
    match res with
    | Some r => (set_grants b (grants b + 1), Some r)
    | None => (b, None)
    end.

(** What the part of [Acquire] before the wait ends in. *)
Inductive acquired : Type := AGranted (r : nat) | AFailed (e : error) | ABlocked (w : nat).

Definition new_waiter (req : Request) (now : Z) : waiter :=
  mkWaiter now req None stateWaiting false 0 0 0 [] 0.

(** [Acquire] up to the point where it blocks: [ctxDone] is [ctx.Err() != nil]. *)
Definition Acquire (b : Broker) (ctxDone : bool) (req : Request) (now : Z) : Broker * acquired :=
  if ctxDone then (b, AFailed ErrContext)
  else if closed b then (b, AFailed ErrClosed)
  else
    let '(b, res, blocking, permanent) := tryLocked b req None now in
    match res with
    | Some r => (set_grants b (grants b + 1), AGranted r)
    | None =>
        if permanent || bool_decide (blocking = []) then (b, AFailed ErrUnsatisfiable)
        else
          let '(b, full) := queueFullLocked b blocking in
          match full with
          | Some _ => (b, AFailed ErrQueueFull)
          | None =>
              let b := set_seq b (S (seq b)) in
              let w := seq b in
              let b := set_wheap b (<[w := new_waiter req now]> (wheap b)) in
              let b := set_waiters b ({[w]} ∪ waiters b) in
              (enqueueLocked b w blocking, ABlocked w)
          end
    end.

(** The common part of the two abandoning branches of [Acquire]'s select. *)
Definition abandon (fuel : nat) (b : Broker) (w : nat) (timeout : bool) (now : Z) : option Broker :=
  let b := unqueueLocked b w in
  let b := upd_waiter b w (λ x, set_wstate x stateCancelled) in
  let b := set_waiters b (waiters b ∖ {[w]}) in
  let b := if timeout then set_queueTimeouts b (queueTimeouts b + 1) else b in
  drainPendingLocked fuel (releaseClaimsLocked b w) now.

(** [case g := <-w.ch]: takes the result out of the channel. [None] blocks. *)
Definition recv (b : Broker) (w : nat) : option (Broker * grant) :=
  match wheap b !! w with
  | Some x => match ch x with
              | Some g => Some (upd_waiter b w (λ x, set_ch x None), g)
              | None => None
              end
  | None => None
  end.

Definition Release (fuel : nat) (b : Broker) (r : nat) (now : Z) : option Broker :=
  match rheap b !! r with
  | Some x =>
      if released x then Some b
      else
        let b := set_rheap b (<[r := set_released x true]> (rheap b)) in
        let b := set_live b (live b ∖ {[r]}) in
        releaseLocked fuel b (held x) now
  | None => Some b
  end.

Definition grant_result (g : grant) : acquired :=
  match g with grant_res r => AGranted r | grant_err e => AFailed e end.

(** [case <-timeout]. *)
Definition Acquire_timeout (fuel : nat) (b : Broker) (w : nat) (now : Z) : option (Broker * acquired) :=
  match wheap b !! w with
  | Some x =>
      if decide (wstate x = stateWaiting) then
        let? b := abandon fuel b w true now in Some (b, AFailed ErrQueueTimeout)
      else
        let? (b, g) := recv b w in Some (b, grant_result g)
  | None => None
  end.

(** [case <-ctx.Done()]. *)
Definition Acquire_cancel (fuel : nat) (b : Broker) (w : nat) (now : Z) : option (Broker * acquired) :=
  match wheap b !! w with
  | Some x =>
      if decide (wstate x = stateWaiting) then
        let? b := abandon fuel b w false now in Some (b, AFailed ErrContext)
      else
        let? (b, g) := recv b w in
        match g with
        | grant_res r => let? b := Release fuel b r now in Some (b, AFailed ErrContext)
        | grant_err _ => Some (b, AFailed ErrContext)
        end
  | None => None
  end.

(** Whether the sweeper reclaims a reservation at [now]. *)
Definition doomed (b : Broker) (now : Z) (r : nat) : bool :=
  match rheap b !! r with
  | Some x => negb (account x) && match deadline x with Some d => d <? now | None => false end
  | None => false
  end.

Fixpoint sweep_each (fuel : nat) (b : Broker) (rs : list nat) (now : Z) : option Broker :=
  match rs with
  | [] => Some b
  | r :: rs' =>
      match rheap b !! r with
      | Some x =>
          let b := set_rheap b (<[r := set_released x true]> (rheap b)) in
          let b := set_live b (live b ∖ {[r]}) in
          let b := set_expired b (expired b + 1) in
          let? b := releaseLocked fuel b (held x) now in sweep_each fuel b rs' now
      | None => sweep_each fuel b rs' now
      end
  end.

(** [order] is the order [range b.live] visits. *)
Definition Sweep (fuel : nat) (b : Broker) (order : list nat) (now : Z) : option (Broker * nat) :=
  let ds := filter (λ r, doomed b now r = true) order in
  let? b := sweep_each fuel b ds now in Some (b, length ds).

(** [order] is the order [range b.waiters] visits. *)
Definition Close (b : Broker) (order : list nat) : Broker :=
  let b := set_closed b true in
  let b := foldl (λ b w, (finishLocked (unqueueLocked b w) w (grant_err ErrClosed) stateFailed).1)
             b order in
  set_pending b [].

(** A tick of [sharedWakeLoop]; [order] is the order [range b.buckets] visits. *)
Definition sharedWake (fuel : nat) (b : Broker) (order : list axisKey) (now : Z) : option Broker :=
  if closed b || bool_decide (waiters b = ∅) then Some b
  else
    let b := set_pass b (S (pass b)) in
    let? b := serve_each b order (pass b) now in
    drainPendingLocked fuel b now.

(** ** Observability *)

Definition InUse (b : Broker) (k : axisKey) : option Z := committed <$> buckets b !! k.

Definition softReservedLocked (b : Broker) : nat :=
  size (filter (λ kv : axisKey * bucket, is_Some (claimant kv.2)) (buckets b)).

Fixpoint least_used (b : Broker) (provider : string) (cands : list Candidate) (best : string)
    (bestN : Z) : string :=
  match cands with
  | [] => best
  | c :: cands' =>
      if decide (ID c = "") then least_used b provider cands' best bestN
      else
        let n := match buckets b !! credAxisKey provider (ID c) with
                 | Some bk => committed bk | None => 0 end in
        if bool_decide (best = "") || (n <? bestN)
        then least_used b provider cands' (ID c) n
        else least_used b provider cands' best bestN
  end.
Definition LeastUsedKey (b : Broker) (provider : string) (cands : list Candidate) : string :=
  least_used b provider cands "" 0.

End Broker.

#[global] Arguments is_claimant : simpl never.
#[global] Arguments needs : simpl never.
#[global] Arguments candidateAt : simpl never.
#[global] Arguments candidateCount : simpl never.
