(* ===== verification/BrokerInv.v ===== *)
(** * Invariants of the capacity broker

    What every operation of [Broker.v] keeps. [acct_inv] is the accounting: the
    count on every axis is the number of live reservations holding it plus the
    one unit a claim sets aside, and a claim belongs to a waiter that is still
    waiting and lies on an axis of its claim candidate. [queue_inv] is the queue
    discipline: the queue of an axis holds exactly the waiters that say they sit
    in it, all of them waiting, and every waiting one sits in some queue. The
    operations are described through views of the state that forget what the
    invariant in question does not look at. *)
From stdpp Require Import base gmap strings list.
From Stdlib Require Import ZArith Lia.
From S2P Require Import Prelude Axis WaitQueue Broker.
Open Scope Z_scope.
#[local] Set Default Proof Using "Type*".

Section Inv.
Context {Q : Type} `{!WaitQueue Q}.
Implicit Types (b : Broker (Q := Q)) (k : axisKey) (w r : nat).

(** ** Views *)

(** Occupancy and claimant of an axis. *)
Definition occ b k : option (Z * option nat) :=
  (λ bk, (inUse bk, claimant bk)) <$> buckets b !! k.
(** What the accounting sees of a waiter. *)
Definition wview b w : option (Request * waiterState * bool * nat) :=
  (λ x, (wreq x, wstate x, claimed x, claimIdx x)) <$> wheap b !! w.
(** What the queue discipline sees of an axis and of a waiter. *)
Definition qview b k : option Q := q <$> buckets b !! k.
Definition aview b w : option (list axisKey * waiterState) :=
  (λ x, (at_ x, wstate x)) <$> wheap b !! w.

Definition held_of b r : list axisKey :=
  match rheap b !! r with Some x => held x | None => [] end.
Definition holders b k : gset nat := filter (λ r, k ∈ held_of b r) (live b).
Definition claim_unit (c : option nat) : Z := match c with Some _ => 1 | None => 0 end.

(** The axes of the claim candidate of a request, in axis order. *)
Definition claim_keys (s : Static) (rq : Request) (i : nat) : list axisKey :=
  let c := candidateAt rq i in
  if bool_decide (c = None) && bool_decide (0 < length (Candidates rq))%nat then []
  else map nkey (raw_needs s rq c).

(** The reserve never raises a ceiling up to [m]; [Reserve.v] shows it for every
    configuration and every [m] up to 2^52. *)
Definition reserve_lowers (s : Static) (m : Z) : Prop :=
  ∀ l, 0 < l <= m → effLimit s l true <= l.

(** The occupancy [u] of [k] is within the configured ceiling. *)
Definition under_ceiling (s : Static) k (u : Z) : Prop :=
  is_configured k = true → reserve_lowers s (configured s k) → u <= configured s k.

(** ** The two invariants *)

(** [ex] names a waiter in the middle of leaving the wait state, whose claims
    are about to be given back. *)
Record acct_inv (ex : option nat) b : Prop := {
  ai_count : ∀ k u c, occ b k = Some (u, c) → u = Z.of_nat (size (holders b k)) + claim_unit c;
  ai_ceiling : ∀ k u c, occ b k = Some (u, c) → under_ceiling (st b) k u;
  ai_held : ∀ r, r ∈ live b → ∃ x, rheap b !! r = Some x ∧ released x = false
    ∧ NoDup (held x) ∧ ∀ k, k ∈ held x → is_Some (occ b k);
  ai_released : ∀ r x, rheap b !! r = Some x → released x = false → r ∈ live b;
  ai_fresh : ∀ r, is_Some (rheap b !! r) → (r < nres b)%nat;
  ai_claim : ∀ k u w, occ b k = Some (u, Some w) →
    ∃ rq s i, wview b w = Some (rq, s, true, i) ∧ k ∈ claim_keys (st b) rq i
      ∧ (ex ≠ Some w → s = stateWaiting);
  ai_waiters : ∀ w, w ∈ waiters b ↔ ∃ rq cl i, wview b w = Some (rq, stateWaiting, cl, i) }.

(** [pk] is the axis being served with the waiters parked out of its queue, and
    [ex] a waiter taken out of every queue for the moment. *)
Record queue_inv (ex : option nat) (pk : axisKey) (pl : list nat) b : Prop := {
  qi_valid : ∀ k qq, qview b k = Some qq → qvalid qq;
  qi_mem : ∀ k qq w, qview b k = Some qq →
    w ∈ qcontents qq ↔ (∃ l s, aview b w = Some (l, s) ∧ k ∈ l) ∧ ¬ (k = pk ∧ w ∈ pl);
  qi_at : ∀ w l s, aview b w = Some (l, s) → NoDup l ∧ (∀ k, k ∈ l → is_Some (qview b k))
    ∧ (l ≠ [] → s = stateWaiting) ∧ (w <= seq b)%nat;
  qi_parked : NoDup pl ∧ ∀ w, w ∈ pl → ∃ l s, aview b w = Some (l, s) ∧ pk ∈ l;
  qi_queued : ∀ w l, aview b w = Some (l, stateWaiting) → ex ≠ Some w → l ≠ [] }.

(** The part of the state no internal step of the broker changes. *)
Record same_cfg b b' : Prop := {
  sc_st : st b' = st b; sc_share : share b' = share b;
  sc_closed : closed b' = closed b; sc_seq : seq b' = seq b;
  sc_wakeups : wakeups b' = wakeups b; sc_pass : pass b' = pass b }.

#[global] Instance same_cfg_preorder : PreOrder same_cfg.
Proof. split; [by split|]. intros x y z [] []. split; congruence. Qed.

(** Same accounting, and queues that differ at most by new empty ones. *)
Record same_acct b b' : Prop := {
  sa_st : st b' = st b; sa_occ : ∀ k, occ b' k = occ b k; sa_w : ∀ w, wview b' w = wview b w;
  sa_rheap : rheap b' = rheap b; sa_live : live b' = live b; sa_nres : nres b' = nres b;
  sa_waiters : waiters b' = waiters b }.

#[global] Instance same_acct_preorder : PreOrder same_acct.
Proof. split; [by split|]. intros x y z [] []. split; intros; congruence. Qed.

Definition grow_queue (x y : option Q) : Prop := y = x ∨ (x = None ∧ y = Some qempty).
Record same_queue b b' : Prop := {
  sq_q : ∀ k, grow_queue (qview b k) (qview b' k);
  sq_a : ∀ w, aview b' w = aview b w;
  sq_seq : seq b' = seq b }.

#[global] Instance same_queue_preorder : PreOrder same_queue.
Proof.
  split; [split; intros; [by left|done|done]|]. intros x y z [Hq1 Ha1 Hs1] [Hq2 Ha2 Hs2].
  split; intros; [|congruence..].
  destruct (Hq1 k) as [E1|[E1 E1']], (Hq2 k) as [E2|[E2 E2']]; unfold grow_queue in *; intuition congruence.
Qed.

Lemma acct_inv_ext ex b b' : same_acct b b' → acct_inv ex b → acct_inv ex b'.
Proof.
  intros [Est Eo Ew Er El En Ewt] [H1 HC H2 H3 H4 H5 H6].
  assert (∀ k, holders b' k = holders b k) as Eh.
  { intros k. unfold holders, held_of. by rewrite Er, El. }
  split; intros; rewrite ?Er, ?El, ?En, ?Ewt, ?Eh, ?Est, ?Eo, ?Ew in *; eauto.
  - destruct (H2 _ H) as (x & ? & ? & ? & Hk). exists x. split_and!; [done..|].
    intros k Hk'. rewrite Eo. auto.
Qed.

Lemma queue_inv_ext ex pk pl b b' : same_queue b b' → queue_inv ex pk pl b → queue_inv ex pk pl b'.
Proof.
  intros [Eq Ea Es] [H1 H2 H3 H4 H5].
  split; intros; rewrite ?Es in *; repeat setoid_rewrite Ea; rewrite ?Ea in *; eauto.
  - destruct (Eq k) as [E|[E E']]; [rewrite E in *; eauto|].
    rewrite E' in H. simplify_eq. apply qempty_valid.
  - destruct (Eq k) as [E|[E E']]; [rewrite E in *; eauto|].
    rewrite E' in H. simplify_eq. rewrite qempty_contents. split; [set_solver|].
    intros [(l & s & Hl & Hk) _]. destruct (H3 _ _ _ Hl) as (_ & Hq & _).
    specialize (Hq _ Hk). rewrite E in Hq. by destruct Hq.
  - destruct (H3 _ _ _ H) as (? & Hq & ? & ?). split_and!; [done| |done|done].
    intros k Hk. destruct (Eq k) as [->|[E ->]]; eauto.
Qed.

(** ** Views of the primitive updates *)

Lemma occ_upd_bucket b k f k' :
  occ (upd_bucket b k f) k'
  = if decide (k' = k) then (λ bk, (inUse (f bk), claimant (f bk))) <$> buckets b !! k else occ b k'.
Proof.
  unfold occ, upd_bucket; simpl. case_decide; subst.
  - rewrite lookup_alter_eq. by destruct (buckets b !! k).
  - by rewrite lookup_alter_ne.
Qed.
Lemma qview_upd_bucket b k f k' :
  qview (upd_bucket b k f) k' = if decide (k' = k) then (λ bk, q (f bk)) <$> buckets b !! k else qview b k'.
Proof.
  unfold qview, upd_bucket; simpl. case_decide; subst.
  - rewrite lookup_alter_eq. by destruct (buckets b !! k).
  - by rewrite lookup_alter_ne.
Qed.
Lemma wview_upd_waiter b w f w' :
  wview (upd_waiter b w f) w'
  = if decide (w' = w)
    then (λ x, (wreq (f x), wstate (f x), claimed (f x), claimIdx (f x))) <$> wheap b !! w
    else wview b w'.
Proof.
  unfold wview, upd_waiter; simpl. case_decide; subst.
  - rewrite lookup_alter_eq. by destruct (wheap b !! w).
  - by rewrite lookup_alter_ne.
Qed.
Lemma aview_upd_waiter b w f w' :
  aview (upd_waiter b w f) w'
  = if decide (w' = w) then (λ x, (at_ (f x), wstate (f x))) <$> wheap b !! w else aview b w'.
Proof.
  unfold aview, upd_waiter; simpl. case_decide; subst.
  - rewrite lookup_alter_eq. by destruct (wheap b !! w).
  - by rewrite lookup_alter_ne.
Qed.

Lemma same_acct_bucket b k f :
  (∀ bk, inUse (f bk) = inUse bk ∧ claimant (f bk) = claimant bk) → same_acct b (upd_bucket b k f).
Proof.
  intros Hf. split; try done. intros k'. rewrite occ_upd_bucket. case_decide; [|done]. subst.
  unfold occ. destruct (buckets b !! k) as [bk|]; [|done]. simpl. by destruct (Hf bk) as [-> ->].
Qed.
Lemma same_acct_waiter b w f :
  (∀ x, wreq (f x) = wreq x ∧ wstate (f x) = wstate x ∧ claimed (f x) = claimed x
        ∧ claimIdx (f x) = claimIdx x) → same_acct b (upd_waiter b w f).
Proof.
  intros Hf. split; try done. intros w'. rewrite wview_upd_waiter. case_decide; [|done]. subst.
  unfold wview. destruct (wheap b !! w) as [x|]; [|done]. simpl. by destruct (Hf x) as (-> & -> & -> & ->).
Qed.
Lemma same_queue_bucket b k f : (∀ bk, q (f bk) = q bk) → same_queue b (upd_bucket b k f).
Proof.
  intros Hf. split; try done. intros k'. left. rewrite qview_upd_bucket. case_decide; [|done]. subst.
  unfold qview. destruct (buckets b !! k) as [bk|]; [|done]. simpl. by rewrite Hf.
Qed.
Lemma same_queue_waiter b w f :
  (∀ x, at_ (f x) = at_ x ∧ wstate (f x) = wstate x) → same_queue b (upd_waiter b w f).
Proof.
  intros Hf. split; try done; [by left|]. intros w'. rewrite aview_upd_waiter. case_decide; [|done]. subst.
  unfold aview. destruct (wheap b !! w) as [x|]; [|done]. simpl. by destruct (Hf x) as [-> ->].
Qed.

Lemma buckets_foldl_upd f ks b k :
  NoDup ks →
  buckets (foldl (λ b k, upd_bucket b k f) b ks) !! k
  = if decide (k ∈ ks) then f <$> buckets b !! k else buckets b !! k.
Proof.
  revert b. induction ks as [|k0 ks IH]; intros b Hnd; simpl.
  { done. }
  apply NoDup_cons in Hnd as [Hk0 Hnd]. rewrite IH by done. unfold upd_bucket at 1 2; simpl.
  destruct (decide (k = k0)) as [->|Hne].
  - rewrite decide_False, decide_True, lookup_alter_eq by (done || by left). done.
  - rewrite lookup_alter_ne by done.
    destruct (decide (k ∈ ks)).
    + by rewrite decide_True by (by right).
    + by rewrite decide_False by (rewrite elem_of_cons; tauto).
Qed.

(** A fold of steps each related to the next by a preorder. *)
Lemma foldl_rel {A B} (R : A → A → Prop) `{!PreOrder R} (g : A → B → A) l a :
  (∀ a x, R a (g a x)) → R a (foldl g a l).
Proof.
  intros Hg. revert a. induction l as [|x l IH]; intros a; simpl; [done|].
  etrans; [apply Hg|apply IH].
Qed.

(** ** Queue membership *)

Lemma enqueueLocked_acct b w axes : same_acct b (enqueueLocked b w axes).
Proof.
  unfold enqueueLocked. apply (foldl_rel same_acct). intros b' k. unfold enqueue_one.
  transitivity (upd_bucket b' k (λ bk, set_q bk (qpush (q bk) w)));
    [by apply same_acct_bucket|by apply same_acct_waiter].
Qed.
Lemma enqueueLocked_cfg b w axes : same_cfg b (enqueueLocked b w axes).
Proof. unfold enqueueLocked. apply (foldl_rel same_cfg). intros b' k. by split. Qed.
Lemma unqueueLocked_acct b w : same_acct b (unqueueLocked b w).
Proof.
  unfold unqueueLocked. transitivity (foldl (λ b k, unqueue_one b w k) b (at_of b w));
    [|by apply same_acct_waiter].
  apply (foldl_rel same_acct). intros b' k. unfold unqueue_one. by apply same_acct_bucket.
Qed.
Lemma unqueueLocked_cfg b w : same_cfg b (unqueueLocked b w).
Proof.
  unfold unqueueLocked. transitivity (foldl (λ b k, unqueue_one b w k) b (at_of b w));
    [apply (foldl_rel same_cfg)|by split].
  intros b' k. by split.
Qed.
Lemma unpark_acct b k l : same_acct b (unpark b k l).
Proof. unfold unpark. apply (foldl_rel same_acct). intros b' w. by apply same_acct_bucket. Qed.
Lemma unpark_cfg b k l : same_cfg b (unpark b k l).
Proof. unfold unpark. apply (foldl_rel same_cfg). intros b' w. by split. Qed.

Lemma foldl_upd_bucket_wheap f ks b :
  wheap (foldl (λ b k, upd_bucket b k f) b ks) = wheap b.
Proof. revert b. induction ks; intros b; simpl; [done|]. by rewrite IHks. Qed.

Lemma unqueueLocked_views b w l s :
  aview b w = Some (l, s) → NoDup l →
  (∀ k, qview (unqueueLocked b w) k
        = if decide (k ∈ l) then (λ qq, qremove qq w) <$> qview b k else qview b k)
  ∧ (∀ w', aview (unqueueLocked b w) w' = if decide (w' = w) then Some ([], s) else aview b w').
Proof.
  unfold unqueueLocked. intros Hw Hnd. unfold aview in Hw.
  destruct (wheap b !! w) as [x|] eqn:Ex; [|done]. simplify_eq/=.
  unfold at_of. rewrite Ex. split.
  - intros k. unfold qview. change (buckets (upd_waiter ?b' _ _)) with (buckets b').
    unfold unqueue_one. rewrite buckets_foldl_upd by done.
    case_decide; [|done]. by destruct (buckets b !! k).
  - intros w'. rewrite aview_upd_waiter. unfold aview, unqueue_one.
    rewrite foldl_upd_bucket_wheap, Ex. case_decide; by subst.
Qed.

Lemma enqueueLocked_views b w l s axes :
  aview b w = Some (l, s) → NoDup axes →
  (∀ k, qview (enqueueLocked b w axes) k
        = if decide (k ∈ axes) then (λ qq, qpush qq w) <$> qview b k else qview b k)
  ∧ (∀ w', aview (enqueueLocked b w axes) w'
           = if decide (w' = w) then Some (l ++ axes, s) else aview b w').
Proof.
  unfold enqueueLocked. revert b l. induction axes as [|k0 axes IH]; intros b l Hw Hnd; simpl.
  { rewrite app_nil_r. split; [done|]. intros w'. case_decide; by subst. }
  apply NoDup_cons in Hnd as [Hk0 Hnd].
  assert (aview (enqueue_one b w k0) w = Some (l ++ [k0], s)) as Hw'.
  { unfold enqueue_one. rewrite aview_upd_waiter, decide_True by done. unfold aview in Hw. simpl.
    destruct (wheap b !! w); simplify_eq/=; done. }
  destruct (IH _ _ Hw' Hnd) as [Hq Ha]. split.
  - intros k. rewrite Hq. change (qview (enqueue_one b w k0)) with
      (qview (upd_bucket b k0 (λ bk, set_q bk (qpush (q bk) w)))). rewrite qview_upd_bucket.
    destruct (decide (k = k0)) as [->|Hne].
    + rewrite decide_False, decide_True by (done || by left). unfold qview. by destruct (buckets b !! k0).
    + destruct (decide (k ∈ axes)).
      * by rewrite decide_True by (by right).
      * by rewrite decide_False by (rewrite elem_of_cons; tauto).
  - intros w'. rewrite Ha. case_decide; [by rewrite <-app_assoc|].
    unfold enqueue_one. rewrite aview_upd_waiter. by case_decide.
Qed.

(** Taking a waiter out of every queue. *)
Lemma queue_inv_unqueue ex pk pl b w l s :
  queue_inv ex pk pl b → aview b w = Some (l, s) → w ∉ pl → ex = None ∨ ex = Some w →
  queue_inv (Some w) pk pl (unqueueLocked b w).
Proof.
  intros [Hv Hm Ha [Hp1 Hp2] Hw] Hwl Hpl Hex. destruct (Ha _ _ _ Hwl) as (Hnd & Hl & Hs & Hseq).
  destruct (unqueueLocked_views b w l s Hwl Hnd) as [Eq Ea].
  pose proof (sc_seq _ _ (unqueueLocked_cfg b w)) as Eseq.
  split.
  - intros k qq. rewrite Eq. case_decide; [|by apply Hv]. intros (q0 & E & ->)%fmap_Some.
    eapply qremove_valid, Hv, E.
  - intros k qq w'. rewrite Eq, Ea. destruct (decide (k ∈ l)) as [Hk|Hk].
    + intros (q0 & E & ->)%fmap_Some. rewrite (qremove_contents _ _ (Hv _ _ E)).
      rewrite elem_of_difference, elem_of_singleton, (Hm _ _ w' E). case_decide; subst; [|naive_solver].
      split; [naive_solver|]. intros [(?&?&?&?) _]. simplify_eq. by exfalso; eapply not_elem_of_nil.
    + intros E. rewrite (Hm _ _ w' E). case_decide; subst; [|done].
      split; intros [(?&?&?&?) ?]; simplify_eq; first [done | by exfalso; eapply not_elem_of_nil].
  - intros w' l' s'. rewrite Ea, Eseq. case_decide; subst.
    + intros ?; simplify_eq. split_and!; [constructor| |done|done]. by intros k ?%not_elem_of_nil.
    + intros (? & Hk & ? & ?)%Ha. split_and!; [done| |done|done].
      intros k Hin. rewrite Eq. case_decide; [|by apply Hk]. destruct (Hk k Hin) as [? ->]. by eexists.
  - split; [done|]. intros w' Hin. rewrite Ea. case_decide; [by subst|]. by apply Hp2.
  - intros w' l'. rewrite Ea. case_decide; [by subst|]. intros Haw Hne.
    eapply Hw; [done|]. destruct Hex; congruence.
Qed.

(** Putting it back, on at least one axis. *)
Lemma queue_inv_enqueue pk pl b w axes :
  queue_inv (Some w) pk pl b → aview b w = Some ([], stateWaiting) → w ∉ pl →
  NoDup axes → axes ≠ [] → (∀ k, k ∈ axes → is_Some (qview b k)) →
  queue_inv None pk pl (enqueueLocked b w axes).
Proof.
  intros [Hv Hm Ha [Hp1 Hp2] Hw] Hwl Hpl Hnd Hne Hks.
  destruct (Ha _ _ _ Hwl) as (_ & _ & _ & Hseq).
  destruct (enqueueLocked_views b w [] stateWaiting axes Hwl Hnd) as [Eq Ea]. simpl in Ea.
  pose proof (sc_seq _ _ (enqueueLocked_cfg b w axes)) as Eseq.
  assert (∀ k q0, qview b k = Some q0 → w ∉ qcontents q0) as Hnot.
  { intros k q0 E. rewrite (Hm _ _ w E). intros [(?&?&?&?) _]. simplify_eq. by eapply not_elem_of_nil. }
  split.
  - intros k qq. rewrite Eq. case_decide; [|by apply Hv]. intros (q0 & E & ->)%fmap_Some.
    apply qpush_valid; eauto.
  - intros k qq w'. rewrite Eq, Ea. destruct (decide (k ∈ axes)) as [Hk|Hk].
    + intros (q0 & E & ->)%fmap_Some. rewrite qpush_contents by eauto.
      rewrite elem_of_union, elem_of_singleton, (Hm _ _ w' E). case_decide; subst; [|naive_solver].
      split; [|by left]. intros _. split; [by eauto|]. naive_solver.
    + intros E. rewrite (Hm _ _ w' E). case_decide; subst; [|done].
      split; intros [(?&?&?&?) ?]; simplify_eq; first [done | by exfalso; eapply not_elem_of_nil].
  - intros w' l' s'. rewrite Ea, Eseq. case_decide; subst.
    + intros ?; simplify_eq. split_and!; [done| |done|done].
      intros k Hin. rewrite Eq, decide_True by done. destruct (Hks k Hin) as [? ->]. by eexists.
    + intros (? & Hk & ? & ?)%Ha. split_and!; [done| |done|done].
      intros k Hin. rewrite Eq. destruct (Hk k Hin) as [? ->]. case_decide; by eexists.
  - split; [done|]. intros w' Hin. rewrite Ea. case_decide; [by subst|]. by apply Hp2.
  - intros w' l' E _. rewrite Ea in E. case_decide; [by simplify_eq|]. eapply Hw; [done|congruence].
Qed.

(** Parking one waiter of the axis being served, and restoring them all. *)
Lemma queue_inv_park k pl b w l s :
  queue_inv None k pl b → aview b w = Some (l, s) → k ∈ l → w ∉ pl →
  queue_inv None k (pl ++ [w]) (unqueue_one b w k).
Proof.
  intros [Hv Hm Ha [Hp1 Hp2] Hw] Hwl Hk Hpl. unfold unqueue_one.
  split; try setoid_rewrite qview_upd_bucket.
  - intros k' qq. case_decide; [|by apply Hv]. subst. intros (bk & E & ->)%fmap_Some.
    apply qremove_valid, (Hv k). unfold qview. by rewrite E.
  - intros k' qq w'. case_decide as Hk'.
    + subst. intros (bk & E & ->)%fmap_Some. simpl.
      assert (qview b k = Some (q bk)) as Eq by (unfold qview; by rewrite E).
      rewrite (qremove_contents _ _ (Hv _ _ Eq)), elem_of_difference, elem_of_singleton, (Hm _ _ w' Eq).
      change (aview (upd_bucket b k _)) with (aview b).
      rewrite elem_of_app, list_elem_of_singleton. naive_solver.
    + intros E. rewrite (Hm _ _ w' E). naive_solver.
  - intros w' l' s' Hw'. destruct (Ha w' l' s' Hw') as (? & Hq & ? & ?). split_and!; [done| |done|done].
    intros k' Hk'. specialize (Hq k' Hk'). case_decide; [|done]. subst.
    unfold qview in Hq. by destruct (buckets b !! k); [eexists|destruct Hq].
  - split; [apply NoDup_app; split_and!; [done| |apply NoDup_singleton];
      intros x ? ->%list_elem_of_singleton; done|].
    intros w' [?| ->%list_elem_of_singleton]%elem_of_app; [by apply Hp2|by eauto].
  - done.
Qed.

Lemma queue_inv_unpark k pl b :
  queue_inv None k pl b → (pl ≠ [] → is_Some (qview b k)) → queue_inv None k [] (unpark b k pl).
Proof.
  unfold unpark. revert b. induction pl as [|w pl IH]; intros b Hinv Hk; simpl; [done|].
  destruct Hinv as [Hv Hm Ha [Hp1 Hp2] Hw]. apply NoDup_cons in Hp1 as [Hpw Hp1].
  destruct (Hk ltac:(done)) as [q0 Eq]. destruct (Hp2 w ltac:(by left)) as (lw & sw & Hwl & Hkl).
  assert (w ∉ qcontents q0) as Hnot by (rewrite (Hm _ _ w Eq); intros [_ []]; by repeat constructor).
  assert (∀ k', qview (upd_bucket b k (λ bk, set_q bk (qpush (q bk) w))) k'
     = if decide (k' = k) then Some (qpush q0 w) else qview b k') as E.
  { intros k'. rewrite qview_upd_bucket. case_decide; [|done]. unfold qview in Eq.
    by destruct (buckets b !! k); simplify_eq/=. }
  apply IH; [|intros _; rewrite E, decide_True by done; by eexists].
  split; try setoid_rewrite E.
  - intros k' qq. case_decide; [|by apply Hv]. intros ?; simplify_eq. apply qpush_valid; eauto.
  - intros k' qq w' Eq'. change (aview (upd_bucket b k _)) with (aview b). case_decide as Hk'.
    + simplify_eq. rewrite qpush_contents by eauto.
      rewrite elem_of_union, elem_of_singleton, (Hm _ _ w' Eq), elem_of_cons.
      destruct (decide (w' = w)) as [->|]; [|naive_solver].
      split; [|by left]. intros _. split; [by eauto|]. naive_solver.
    + rewrite (Hm _ _ w' Eq'). naive_solver.
  - intros w' l' s' Hw'. destruct (Ha w' l' s' Hw') as (? & Hq & ? & ?). split_and!; [done| |done|done].
    intros k' Hk'. specialize (Hq k' Hk'). case_decide; [by eexists|done].
  - split; [done|]. intros w' Hin. apply Hp2. by right.
  - done.
Qed.

(** A waiter that sits in no queue may leave the wait state. *)
Lemma queue_inv_leave pk pl b b' w s s' :
  queue_inv (Some w) pk pl b → aview b w = Some ([], s) → s' ≠ stateWaiting →
  (∀ k, qview b' k = qview b k) →
  (∀ w', aview b' w' = if decide (w' = w) then Some ([], s') else aview b w') →
  seq b' = seq b → queue_inv None pk pl b'.
Proof.
  intros [Hv Hm Ha [Hp1 Hp2] Hw] Hwl Hs Eq Ea Es.
  split; repeat setoid_rewrite Eq; rewrite ?Es.
  - done.
  - intros k qq w' E. rewrite (Hm _ _ w' E), Ea. case_decide; [|done]. subst.
    split; intros [(?&?&?&?) ?]; simplify_eq; by exfalso; eapply not_elem_of_nil.
  - intros w' l' t. rewrite Ea. case_decide; [|by apply Ha]. intros ?; simplify_eq.
    split_and!; [constructor|by intros k ?%not_elem_of_nil|done|by apply (Ha _ _ _ Hwl)].
  - split; [done|]. intros w' Hin. rewrite Ea. case_decide; [subst|by apply Hp2].
    destruct (Hp2 _ Hin) as (?&?&?&?). simplify_eq. by exfalso; eapply not_elem_of_nil.
  - intros w' l'. rewrite Ea. case_decide; [by intros ?; simplify_eq|].
    intros E _. eapply Hw; [done|congruence].
Qed.

(** A new waiter, before it is queued. *)
Lemma queue_inv_join pk b b' w :
  queue_inv None pk [] b → (∀ k, qview b' k = qview b k) →
  (∀ w', aview b' w' = if decide (w' = w) then Some ([], stateWaiting) else aview b w') →
  w = S (seq b) → seq b' = w → queue_inv (Some w) pk [] b'.
Proof.
  intros [Hv Hm Ha _ Hw] Eq Ea Hseq Es.
  split; repeat setoid_rewrite Eq; rewrite ?Es.
  - done.
  - intros k qq w' E. rewrite (Hm _ _ w' E), Ea. case_decide; [|done]. subst.
    split; intros [(?&?&Hx&?) ?]; [apply Ha in Hx; lia|simplify_eq; by exfalso; eapply not_elem_of_nil].
  - intros w' l' t. rewrite Ea. case_decide.
    + intros ?; simplify_eq. split_and!; [constructor|by intros k ?%not_elem_of_nil|done|done].
    + intros (?&?&?&?)%Ha. split_and!; [done..|lia].
  - split; [constructor|]. by intros ? ?%not_elem_of_nil.
  - intros w' l'. rewrite Ea. case_decide; [by subst|]. intros E _. by eapply Hw.
Qed.

(** ** Committing a reservation *)

(** What a commit for [w] does to one axis. *)
Definition commit_occ (w : option nat) (o : option (Z * option nat)) : Z * option nat :=
  match o with
  | None => (1, None)
  | Some (u, c) => if bool_decide (c ≠ None ∧ c = w) then (u, None) else (u + 1, c)
  end.

Lemma is_claimant_spec (bk : bucket (Q := Q)) (w : option nat) :
  is_claimant bk w = bool_decide (claimant bk ≠ None ∧ claimant bk = w).
Proof.
  unfold is_claimant. destruct w as [w|], (claimant bk) as [c|];
    (case_bool_decide || idtac); repeat case_bool_decide; naive_solver.
Qed.

Lemma commit_one_views (w : option nat) nd (bs : gmap axisKey bucket) :
  let bs' := commit_one bs w nd in
  (λ bk : bucket (Q := Q), (inUse bk, claimant bk)) <$> bs' !! nkey nd
  = Some (commit_occ w ((λ bk, (inUse bk, claimant bk)) <$> bs !! nkey nd))
  ∧ grow_queue (q <$> bs !! nkey nd) (q <$> bs' !! nkey nd).
Proof.
  simpl. unfold commit_one. rewrite lookup_insert_eq, is_claimant_spec.
  destruct (bs !! nkey nd) as [bk|]; simpl.
  - case_bool_decide; (split; [done|by left]).
  - by split; [|right].
Qed.

Lemma commit_fold_views (w : option nat) ns (bs : gmap axisKey bucket) k :
  NoDup (map nkey ns) →
  let bs' := foldl (λ bs nd, commit_one bs w nd) bs ns in
  (λ bk : bucket (Q := Q), (inUse bk, claimant bk)) <$> bs' !! k
  = (if decide (k ∈ map nkey ns)
     then Some (commit_occ w ((λ bk, (inUse bk, claimant bk)) <$> bs !! k))
     else (λ bk, (inUse bk, claimant bk)) <$> bs !! k)
  ∧ grow_queue (q <$> bs !! k) (q <$> bs' !! k).
Proof.
  revert bs. induction ns as [|nd ns IH]; intros bs Hnd bs'; subst bs'; simpl in *.
  { split; [done|by left]. }
  apply NoDup_cons in Hnd as [Hk0 Hnd]. destruct (IH (commit_one bs w nd) Hnd) as [-> Hg]. simpl in Hg.
  destruct (decide (k = nkey nd)) as [->|Hne].
  - rewrite decide_False, decide_True by (done || by left).
    destruct (commit_one_views w nd bs) as [-> Hg']. split; [done|].
    unfold grow_queue in *. intuition congruence.
  - assert (commit_one bs w nd !! k = bs !! k) as E by (unfold commit_one; by rewrite lookup_insert_ne).
    rewrite E in *. split; [|done]. destruct (decide (k ∈ map nkey ns)).
    + by rewrite decide_True by (by right).
    + by rewrite decide_False by (rewrite elem_of_cons; tauto).
Qed.

Lemma commitLocked_spec b ns cred t acct (w : option nat) now b' r :
  NoDup (map nkey ns) → commitLocked b ns cred t acct w now = (b', r) →
  r = nres b ∧ same_cfg b b' ∧ same_queue b b'
  ∧ (∀ k, occ b' k = if decide (k ∈ map nkey ns) then Some (commit_occ w (occ b k)) else occ b k)
  ∧ (∀ w', wview b' w' = wview b w') ∧ waiters b' = waiters b ∧ pending b' = pending b
  ∧ live b' = {[r]} ∪ live b ∧ nres b' = S r
  ∧ ∃ x, rheap b' = <[r := x]> (rheap b) ∧ held x = map nkey ns ∧ released x = false.
Proof.
  unfold commitLocked. intros Hnd E. simplify_eq.
  pose proof (λ k, commit_fold_views w ns (buckets b) k Hnd) as Hv. simpl in Hv.
  split_and!; try done.
  - split; [|done|done]. intros k. apply Hv.
  - intros k. apply Hv.
  - eexists. split_and!; [done..].
Qed.

Lemma holders_add b b' r x k :
  rheap b' = <[r := x]> (rheap b) → live b' = {[r]} ∪ live b → r ∉ live b →
  size (holders b' k) = ((if decide (k ∈ held x) then 1 else 0) + size (holders b k))%nat.
Proof.
  intros Er El Hr.
  assert (filter (λ r, k ∈ held_of b' r) (live b) = holders b k) as E.
  { apply set_eq. intros r'. unfold holders, held_of. rewrite Er, !elem_of_filter.
    split; intros [H1 H2]; (split; [|done]); rewrite lookup_insert_ne in * by naive_solver; done. }
  assert (held_of b' r = held x) as Ehr by (unfold held_of; by rewrite Er, lookup_insert_eq).
  unfold holders at 1. rewrite El, filter_union_L, E.
  rewrite (filter_singleton_L (λ r, k ∈ held_of b' r) r), Ehr. case_decide as Hk.
  - rewrite size_union, size_singleton; [done|]. unfold holders. set_solver.
  - by replace (∅ ∪ holders b k) with (holders b k) by set_solver.
  - apply _.
Qed.

(** Nobody holds a unit of an axis that has no bucket yet. *)
Lemma holders_none ex b k : acct_inv ex b → occ b k = None → size (holders b k) = 0%nat.
Proof.
  intros Hinv Hk. assert (holders b k = ∅) as ->; [|by rewrite size_empty].
  apply set_eq. intros r. split; [|set_solver].
  unfold holders, held_of. intros [Hin Hl]%elem_of_filter.
  destruct (ai_held _ _ Hinv r Hl) as (y & Hy & _ & _ & Hkeys). rewrite Hy in Hin.
  specialize (Hkeys _ Hin). rewrite Hk in Hkeys. by destruct Hkeys.
Qed.

Lemma acct_inv_commit ex b ns cred t acct (w : option nat) now b' r :
  acct_inv ex b → NoDup (map nkey ns) →
  (∀ nd, nd ∈ ns → under_ceiling (st b) (nkey nd) (commit_occ w (occ b (nkey nd))).1) →
  commitLocked b ns cred t acct w now = (b', r) →
  acct_inv ex b'.
Proof.
  intros [Hc HC Hh Hr Hf Hcl Hw] Hnd Hroom E.
  destruct (commitLocked_spec _ _ _ _ _ _ _ _ _ Hnd E)
    as (-> & [Est _ _ _ _ _] & _ & Eo & Ew & Ewt & _ & El & En & x & Er & Ehx & Erx).
  assert (nres b ∉ live b) as Hfr.
  { intros (y & Hy & _)%Hh. specialize (Hf (nres b) (mk_is_Some _ _ Hy)). lia. }
  assert (∀ k, is_Some (occ b k) → is_Some (occ b' k)) as Hmono.
  { intros k Hk. rewrite Eo. by case_decide. }
  split.
  - intros k u c. rewrite Eo, (holders_add b b' _ x) by done. rewrite Ehx.
    case_decide as Hk; [|rewrite Nat.add_0_l; apply Hc].
    destruct (occ b k) as [[u0 c0]|] eqn:Ek; simpl.
    + specialize (Hc _ _ _ Ek). case_bool_decide as Hb; intros ?; simplify_eq.
      * destruct c0; [simpl in *; lia|by destruct Hb].
      * simpl. lia.
    + intros ?; simplify_eq. rewrite (holders_none ex b k) by (done || by split). done.
  - intros k u c. rewrite Eo, Est. case_decide as Hk; [|apply HC].
    apply list_elem_of_fmap in Hk as (nd & -> & Hin). intros [= Hu]. specialize (Hroom nd Hin).
    by rewrite Hu in Hroom.
  - intros r Hin. rewrite Er. destruct (decide (r = nres b)) as [->|Hne].
    + rewrite lookup_insert_eq. exists x. split_and!; [done|done|by rewrite Ehx|].
      intros k. rewrite Ehx, Eo. intros Hk. rewrite decide_True by done. by eexists.
    + rewrite lookup_insert_ne by done. destruct (Hh r) as (y & ? & ? & ? & ?); [set_solver|].
      exists y. eauto 10.
  - intros r y. rewrite Er, El. destruct (decide (r = nres b)) as [->|Hne]; [set_solver|].
    rewrite lookup_insert_ne by done. intros. apply elem_of_union_r. eauto.
  - intros r. rewrite Er, En. destruct (decide (r = nres b)) as [->|Hne]; [lia|].
    rewrite lookup_insert_ne by done. intros ?%Hf. lia.
  - intros k u w'. rewrite Eo, Ew, Est. case_decide; [|apply Hcl].
    destruct (occ b k) as [[u0 c0]|] eqn:Ek; simpl; [|done].
    case_bool_decide; intros ?; simplify_eq. by eapply Hcl.
  - intros w'. rewrite Ewt, Hw. by setoid_rewrite Ew.
Qed.

(** ** Giving a reservation back *)

Lemma holders_remove b b' r x y k :
  rheap b !! r = Some x → held y = held x →
  rheap b' = <[r := y]> (rheap b) → live b' = live b ∖ {[r]} → r ∈ live b →
  size (holders b k) = ((if decide (k ∈ held x) then 1 else 0) + size (holders b' k))%nat.
Proof.
  intros Hx Hy Er El Hr.
  assert (rheap b = <[r := x]> (rheap b')) as Er'.
  { rewrite Er, insert_insert_eq. by rewrite insert_id. }
  apply (holders_add b' b r x); [done| |set_solver].
  rewrite El. apply set_eq. intros r'. destruct (decide (r' = r)); set_solver.
Qed.

Lemma occ_dec_fold b ks k :
  NoDup ks →
  occ (foldl (λ b k, upd_bucket b k dec_inUse) b ks) k
  = if decide (k ∈ ks) then (λ '(u, c), (if 0 <? u then u - 1 else u, c)) <$> occ b k else occ b k.
Proof.
  intros Hnd. unfold occ. rewrite buckets_foldl_upd by done. case_decide; [|done].
  destruct (buckets b !! k) as [bk|]; [|done]. simpl. unfold dec_inUse. by case_match.
Qed.

(** The decrements touch nothing but occupancy. *)
Lemma dec_fold_frame b ks :
  let b' := foldl (λ b k, upd_bucket b k dec_inUse) b ks in
  same_cfg b b' ∧ same_queue b b' ∧ wheap b' = wheap b ∧ rheap b' = rheap b ∧ live b' = live b
  ∧ nres b' = nres b ∧ waiters b' = waiters b ∧ pending b' = pending b.
Proof.
  simpl. revert b. induction ks as [|k ks IH]; intros b; simpl; [by split_and!|].
  destruct (IH (upd_bucket b k dec_inUse)) as (H1 & H2 & H3 & H4 & H5 & H6 & H7 & H8).
  split_and!; [by etrans; [|exact H1]| |done..].
  etrans; [|exact H2]. apply same_queue_bucket. intros bk. unfold dec_inUse. by case_match.
Qed.

(** A live reservation is taken out of [live], marked, and every axis it holds
    is decremented. The floor at zero of the decrement never applies. *)
Lemma acct_inv_give_back b b1 r x :
  acct_inv None b → rheap b !! r = Some x → r ∈ live b →
  st b1 = st b → (∀ k, occ b1 k = occ b k) → (∀ w, wview b1 w = wview b w) →
  waiters b1 = waiters b → nres b1 = nres b →
  rheap b1 = <[r := set_released x true]> (rheap b) → live b1 = live b ∖ {[r]} →
  acct_inv None (foldl (λ b k, upd_bucket b k dec_inUse) b1 (held x)).
Proof.
  intros [Hc HC Hh Hr Hf Hcl Hw] Hx Hlive Est Eo Ew Ewt En Er El.
  destruct (Hh r Hlive) as (x' & Hx' & _ & Hnd & Hks). rewrite Hx in Hx'. simplify_eq.
  destruct (dec_fold_frame b1 (held x')) as ([Fst _ _ _ _ _] & _ & Fw & Fr & Fl & Fn & Fwt & _).
  set (b2 := foldl _ b1 _) in *.
  assert (∀ k, occ b2 k = if decide (k ∈ held x') then (λ '(u, c), (u - 1, c)) <$> occ b k else occ b k) as E2.
  { intros k. unfold b2. rewrite occ_dec_fold by done. rewrite Eo. case_decide as Hk; [|done].
    destruct (occ b k) as [[u c]|] eqn:Ek; [|done]. simpl. specialize (Hc _ _ _ Ek).
    rewrite (holders_remove b b2 r x' (set_released x' true)) in Hc
      by (done || by rewrite Fr, Er || by rewrite Fl, El).
    rewrite decide_True in Hc by done. destruct c; simpl in *;
      destruct (Z.ltb_spec 0 u); (done || lia). }
  assert (∀ k, is_Some (occ b k) → is_Some (occ b2 k)) as Hmono.
  { intros k [[u c] Hk]. rewrite E2, Hk. case_decide; by eexists. }
  split.
  - intros k u c. rewrite E2. intros Hk.
    pose proof (holders_remove b b2 r x' (set_released x' true) k Hx eq_refl
      ltac:(by rewrite Fr, Er) ltac:(by rewrite Fl, El) Hlive) as Hsz.
    case_decide; [|rewrite (Hc _ _ _ Hk); lia].
    apply fmap_Some in Hk as ([u0 c0] & Hk & ?). simplify_eq. specialize (Hc _ _ _ Hk). lia.
  - intros k u c. rewrite E2, Fst, Est. case_decide; [|apply HC].
    intros ([u0 c0] & Hk & ?)%fmap_Some Hcf He. simplify_eq. specialize (HC _ _ _ Hk Hcf He). lia.
  - intros r'. rewrite Fl, El, elem_of_difference, not_elem_of_singleton. intros [Hin Hne].
    rewrite Fr, Er, lookup_insert_ne by done. destruct (Hh r' Hin) as (y & ? & ? & ? & ?). exists y. eauto 10.
  - intros r' y. rewrite Fr, Er, Fl, El. destruct (decide (r' = r)) as [->|Hne].
    + rewrite lookup_insert_eq. intros; simplify_eq/=.
    + rewrite lookup_insert_ne by done. intros. apply elem_of_difference. split; [eauto|set_solver].
  - intros r'. rewrite Fr, Er, Fn, En. destruct (decide (r' = r)) as [->|Hne]; [intros _; by eapply Hf|].
    rewrite lookup_insert_ne by done. apply Hf.
  - intros k u w. rewrite E2, Fst, Est. unfold wview. rewrite Fw. fold (wview b1 w). rewrite Ew.
    case_decide; [|apply Hcl]. intros ([u0 c0] & Hk & ?)%fmap_Some. simplify_eq. by eapply Hcl.
  - intros w. rewrite Fwt, Ewt, Hw. unfold wview. rewrite Fw. fold (wview b1 w). by rewrite Ew.
Qed.

(** ** Soft reservations *)

Lemma claimCandidate_keys s sh (x : waiter) :
  match claimCandidate x with
  | Some c => map nkey (needs s sh (wreq x) c) = claim_keys s (wreq x) (claimIdx x)
  | None => claim_keys s (wreq x) (claimIdx x) = []
  end.
Proof.
  unfold claimCandidate, claim_keys. destruct (bool_decide _ && bool_decide _); [done|apply needs_keys].
Qed.

(** What giving back the claims of [w] does to one axis. *)
Definition unclaim (w : nat) (on : bool) (o : option (Z * option nat)) : option (Z * option nat) :=
  match o with
  | Some (u, Some c) => if decide (c = w ∧ on = true) then Some (u - 1, None) else o
  | _ => o
  end.

Lemma release_claim_one_spec w b nd :
  let b' := release_claim_one w b nd in
  same_cfg b b' ∧ same_queue b b' ∧ wheap b' = wheap b ∧ rheap b' = rheap b ∧ live b' = live b
  ∧ nres b' = nres b ∧ waiters b' = waiters b
  ∧ (∀ k, occ b' k = if decide (k = nkey nd) then unclaim w true (occ b k) else occ b k)
  ∧ (pending b' = pending b ++ [nkey nd] ∧ (∃ u, occ b (nkey nd) = Some (u, Some w)) ∨ pending b' = pending b).
Proof.
  simpl. unfold release_claim_one. destruct (buckets b !! nkey nd) as [bk|] eqn:Ebk.
  - rewrite is_claimant_spec. case_bool_decide as Hb.
    + split_and!; try done.
      * transitivity (upd_bucket b (nkey nd) (λ bk, set_inUse (set_claimant bk None) (inUse bk - 1)));
          [by apply same_queue_bucket|by split; [left| |]].
      * intros k. change (occ (set_pending ?b' _)) with (occ b'). rewrite occ_upd_bucket.
        case_decide; [|done]. subst. unfold occ. rewrite Ebk. simpl. destruct Hb as [_ ->]. simpl.
        by rewrite decide_True.
      * left. split; [done|]. unfold occ. rewrite Ebk. simpl. destruct Hb as [_ ->]. by eexists.
    + split_and!; try done; [|by right]. intros k. case_decide; [|done]. subst.
      unfold occ. rewrite Ebk. simpl. destruct (claimant bk); simpl; [|done].
      rewrite decide_False; naive_solver.
  - split_and!; try done; [|by right]. intros k. case_decide; [|done]. subst. unfold occ. by rewrite Ebk.
Qed.

Lemma release_claims_fold w b ns :
  NoDup (map nkey ns) →
  let b' := foldl (release_claim_one w) b ns in
  same_cfg b b' ∧ same_queue b b' ∧ wheap b' = wheap b ∧ rheap b' = rheap b ∧ live b' = live b
  ∧ nres b' = nres b ∧ waiters b' = waiters b
  ∧ (∀ k, occ b' k = if decide (k ∈ map nkey ns) then unclaim w true (occ b k) else occ b k).
Proof.
  simpl. revert b. induction ns as [|nd ns IH]; intros b Hnd; simpl in *; [by split_and!|].
  apply NoDup_cons in Hnd as [Hk0 Hnd].
  destruct (release_claim_one_spec w b nd) as (A1 & A2 & A3 & A4 & A5 & A6 & A7 & A8 & _).
  destruct (IH (release_claim_one w b nd) Hnd) as (B1 & B2 & B3 & B4 & B5 & B6 & B7 & B8).
  split_and!; try (by etrans); try congruence.
  intros k. rewrite B8, A8. destruct (decide (k = nkey nd)) as [->|Hne].
  - by rewrite decide_False, decide_True by (done || by left).
  - destruct (decide (k ∈ map nkey ns)).
    + by rewrite decide_True by (by right).
    + by rewrite decide_False by (rewrite elem_of_cons; tauto).
Qed.

Definition unclaimed_view : Request * waiterState * bool * nat → Request * waiterState * bool * nat :=
  λ '(rq, s, _, i), (rq, s, false, i).

(** Giving claims back: every unit claimed for [w] on its claim candidate's axes
    stops being counted, and nothing else changes. *)
Lemma releaseClaimsLocked_views b w :
  let b' := releaseClaimsLocked b w in
  same_cfg b b' ∧ same_queue b b' ∧ rheap b' = rheap b ∧ live b' = live b ∧ nres b' = nres b
  ∧ waiters b' = waiters b
  ∧ (∀ w', wview b' w' = if decide (w' = w) then unclaimed_view <$> wview b w else wview b w')
  ∧ (∀ k, occ b' k = match wview b w with
                     | Some (rq, _, true, i) =>
                         unclaim w (bool_decide (k ∈ claim_keys (st b) rq i)) (occ b k)
                     | _ => occ b k
                     end).
Proof.
  simpl. assert (wview b w = (λ x, (wreq x, wstate x, claimed x, claimIdx x)) <$> wheap b !! w) as Hwv by done.
  unfold releaseClaimsLocked. destruct (wheap b !! w) as [x|] eqn:Ex; simpl in Hwv; rewrite Hwv; simpl.
  2:{ split_and!; try done. intros w'. case_decide; by subst. }
  destruct (claimed x) eqn:Hcl; simpl.
  2:{ split_and!; try done. intros w'. case_decide; [|done]. by subst. }
  set (b1 := upd_waiter b w (λ x, set_claimed x false)).
  assert (same_queue b b1) as Hq1 by by apply same_queue_waiter.
  assert (∀ w', wview b1 w' = if decide (w' = w) then Some (wreq x, wstate x, false, claimIdx x) else wview b w') as Hw1.
  { intros w'. unfold b1. rewrite wview_upd_waiter. case_decide; [|done]. by rewrite Ex. }
  pose proof (claimCandidate_keys (st b) (share b) x) as Hck.
  destruct (claimCandidate x) as [c|].
  - destruct (release_claims_fold w b1 (needs (st b1) (share b1) (wreq x) c) (needs_keys_nodup _ _ _ _))
      as (B1 & B2 & B3 & B4 & B5 & B6 & B7 & B8). simpl in *.
    split_and!; try done.
    + etrans; [|exact B1]. by split.
    + by etrans.
    + intros w'. unfold wview at 1. rewrite B3. apply Hw1.
    + intros k. rewrite B8, Hck. change (occ b1 k) with (occ b k).
      case_decide; [by rewrite bool_decide_eq_true_2|]. rewrite bool_decide_eq_false_2 by done.
      destruct (occ b k) as [[u [c'|]]|]; simpl; try done. rewrite decide_False; naive_solver.
  - rewrite Hck. split_and!; try done. intros k. change (occ b1 k) with (occ b k).
    rewrite bool_decide_eq_false_2 by apply not_elem_of_nil.
    destruct (occ b k) as [[u [c'|]]|]; simpl; try done. rewrite decide_False; naive_solver.
Qed.

Lemma acct_inv_releaseClaims ex b w :
  acct_inv ex b → ex = None ∨ ex = Some w →
  acct_inv None (releaseClaimsLocked b w)
  ∧ ∀ k u, occ (releaseClaimsLocked b w) k ≠ Some (u, Some w).
Proof.
  intros [Hc HC Hh Hr Hf Hcl Hw] Hex.
  destruct (releaseClaimsLocked_views b w) as ([Est _ _ _ _ _] & _ & Er & El & En & Ewt & Ew & Eo).
  set (b' := releaseClaimsLocked b w) in *.
  assert (∀ k, holders b' k = holders b k) as Eh.
  { intros k. unfold holders, held_of. by rewrite Er, El. }
  assert (∀ k, occ b' k = unclaim w true (occ b k)) as Eo'.
  { intros k. rewrite Eo. destruct (occ b k) as [[u [c|]]|] eqn:Ek; simpl.
    - destruct (decide (c = w)) as [->|Hne].
      + destruct (Hcl _ _ _ Ek) as (rq & s & i & -> & Hin & _).
        by rewrite bool_decide_eq_true_2.
      + rewrite (decide_False (P := c = w ∧ true = true)) by naive_solver.
        destruct (wview b w) as [[[[rq s] []] i]|]; try done. rewrite decide_False; naive_solver.
    - by destruct (wview b w) as [[[[rq s] []] i]|].
    - by destruct (wview b w) as [[[[rq s] []] i]|]. }
  assert (∀ k u, occ b' k ≠ Some (u, Some w)) as Hno.
  { intros k u. rewrite Eo'. destruct (occ b k) as [[v [c|]]|]; simpl; try done.
    case_decide; naive_solver. }
  split; [|done]. split; rewrite ?Er, ?El, ?En, ?Ewt.
  - intros k u c. rewrite Eh, Eo'. destruct (occ b k) as [[v [c0|]]|] eqn:Ek; simpl; try done.
    + specialize (Hc _ _ _ Ek). simpl in Hc. case_decide; intros; simplify_eq/=; lia.
    + intros; simplify_eq. by apply Hc.
  - intros k u c. rewrite Est, Eo'. destruct (occ b k) as [[v [c0|]]|] eqn:Ek; simpl;
      [|by intros; simplify_eq; eauto|done].
    case_decide; [|by intros; simplify_eq; eauto]. intros ? Hcf He; simplify_eq.
    specialize (HC _ _ _ Ek Hcf He). lia.
  - intros r Hin. destruct (Hh r Hin) as (y & ? & ? & ? & Hk). exists y. split_and!; try done.
    intros k Hin'. rewrite Eo'. destruct (Hk k Hin') as [[v [c|]] ->]; simpl; [|by eexists].
    case_decide; by eexists.
  - done.
  - done.
  - intros k u w'. rewrite Est, Ew. intros Hk. case_decide; [subst; by destruct (Hno k u)|].
    rewrite Eo' in Hk. destruct (occ b k) as [[v [c|]]|] eqn:Ek; simpl in *; try done.
    case_decide; simplify_eq. destruct (Hcl _ _ _ Ek) as (rq & s & i & ? & ? & Hs).
    exists rq, s, i. split_and!; [done..|]. intros _. apply Hs. destruct Hex; naive_solver.
  - intros w'. rewrite Hw, Ew. case_decide; [|done]. subst.
    destruct (wview b w) as [[[[rq s] cl] i]|]; simpl; naive_solver.
Qed.
End Inv.
