(* ===== verification/BrokerSteps.v ===== *)
(** * The broker's compound operations keep its invariants

    Placing and moving claims, delivering a result, the acquisition attempt, one
    serving pass over an axis, and the drain, each shown to keep [acct_inv] and
    [queue_inv]. The shared store's answers are arbitrary throughout. *)
From stdpp Require Import base gmap strings list.
From Stdlib Require Import ZArith Lia.
From S2P Require Import Prelude Axis WaitQueue Broker BrokerInv.
Open Scope Z_scope.
#[local] Set Default Proof Using "Type*".

Section Steps.
Context {Q : Type} `{!WaitQueue Q}.
Implicit Types (b : Broker (Q := Q)) (k : axisKey) (w r : nat).

(** ** Steps made for one waiter *)

Definition req_state b w : option (Request * waiterState) := (λ '(rq, s, _, _), (rq, s)) <$> wview b w.

Definition req_of b w : option Request := fst <$> req_state b w.

(** A step made for [w] that touches nothing of other waiters, no reservation
    and no queue, and keeps [w]'s request and state. *)
Record wstep w b b' : Prop := {
  ws_cfg : same_cfg b b'; ws_queue : same_queue b b';
  ws_waiters : waiters b' = waiters b; ws_live : live b' = live b;
  ws_rheap : rheap b' = rheap b; ws_nres : nres b' = nres b;
  ws_other : ∀ w', w' ≠ w → wview b' w' = wview b w';
  ws_self : req_state b' w = req_state b w }.

#[global] Instance wstep_preorder w : PreOrder (wstep w).
Proof.
  split; [by split|]. intros x y z [C1 Q1 ? ? ? ? O1 ?] [C2 Q2 ? ? ? ? O2 ?].
  split; [by etrans|by etrans|congruence..| |congruence].
  intros w' Hw'. rewrite (O2 w' Hw'). by apply O1.
Qed.

Lemma wstep_req w b b' : wstep w b b' → ∀ w', req_of b' w' = req_of b w'.
Proof.
  intros H w'. unfold req_of. destruct (decide (w' = w)) as [->|Hne]; [by rewrite (ws_self _ _ _ H)|].
  unfold req_state. by rewrite (ws_other _ _ _ H).
Qed.

Lemma wstep_waiter b w f :
  (∀ x, wreq (f x) = wreq x ∧ wstate (f x) = wstate x ∧ at_ (f x) = at_ x) →
  wstep w b (upd_waiter b w f).
Proof.
  intros Hf. split; try done.
  - apply same_queue_waiter. intros x. by destruct (Hf x) as (_ & -> & ->).
  - intros w' ?. rewrite wview_upd_waiter. by case_decide.
  - unfold req_state. rewrite wview_upd_waiter, decide_True by done. unfold wview.
    destruct (wheap b !! w) as [x|]; [|done]. simpl. by destruct (Hf x) as (-> & -> & _).
Qed.

Lemma wstep_releaseClaims b w : wstep w b (releaseClaimsLocked b w).
Proof.
  destruct (releaseClaimsLocked_views b w) as (? & ? & ? & ? & ? & ? & Ew & _). split; try done.
  - intros w' ?. rewrite Ew. by case_decide.
  - unfold req_state. rewrite Ew, decide_True by done. by destruct (wview b w) as [[[[]]]|].
Qed.

Lemma place_claim_views b w nd :
  let b' := place_claim b w nd in
  same_cfg b b' ∧ same_queue b b' ∧ rheap b' = rheap b ∧ live b' = live b ∧ nres b' = nres b
  ∧ waiters b' = waiters b
  ∧ (∀ w', wview b' w' = if decide (w' = w) then (λ '(rq, s, _, i), (rq, s, true, i)) <$> wview b w
                         else wview b w')
  ∧ (∀ k, occ b' k = if decide (k = nkey nd) then Some (from_option fst 0 (occ b k) + 1, Some w)
                     else occ b k).
Proof.
  simpl. unfold place_claim.
  set (bk := default _ _). set (b1 := set_buckets b _).
  assert (same_queue b b1) as Hq1.
  { split; try done. intros k. unfold qview, b1; simpl. unfold bk.
    destruct (decide (k = nkey nd)) as [->|]; [|rewrite lookup_insert_ne by done; by left].
    rewrite lookup_insert_eq. destruct (buckets b !! nkey nd); [by left|by right]. }
  split_and!; try done.
  - transitivity b1; [done|]. transitivity (upd_waiter b1 w (λ x, set_claimed x true)).
    + by apply same_queue_waiter.
    + by split; [left| |].
  - intros w'. change (wview (set_softPlaced ?b' _)) with (wview b'). rewrite wview_upd_waiter.
    case_decide; [|done]. unfold wview. change (wheap b1) with (wheap b). by destruct (wheap b !! w).
  - intros k. unfold occ, b1, bk; simpl. destruct (decide (k = nkey nd)) as [->|].
    + rewrite lookup_insert_eq. by destruct (buckets b !! nkey nd).
    + by rewrite lookup_insert_ne.
Qed.

Lemma wstep_place b w nd : wstep w b (place_claim b w nd).
Proof.
  destruct (place_claim_views b w nd) as (? & ? & ? & ? & ? & ? & Ew & _). split; try done.
  - intros w' ?. rewrite Ew. by case_decide.
  - unfold req_state. rewrite Ew, decide_True by done. by destruct (wview b w) as [[[[]]]|].
Qed.

Lemma acct_inv_place b w nd rq cl i :
  acct_inv None b → wview b w = Some (rq, stateWaiting, cl, i) →
  nkey nd ∈ claim_keys (st b) rq i → (is_configured (nkey nd) = true → 0 < nlimit nd <= configured (st b) (nkey nd)) →
  (∀ u c, occ b (nkey nd) = Some (u, c) → c = None ∧ u < nlimit nd) →
  acct_inv None (place_claim b w nd) ∧ wview (place_claim b w nd) w = Some (rq, stateWaiting, true, i).
Proof.
  intros Hinv Hwv Hin Hlim Hfree. pose proof Hinv as [Hc HC Hh Hr Hf Hcl Hw].
  destruct (place_claim_views b w nd) as ([Est _ _ _ _ _] & _ & Er & El & En & Ewt & Ew & Eo).
  set (b' := place_claim b w nd) in *.
  split; [|by rewrite Ew, decide_True, Hwv by done].
  assert (∀ k, holders b' k = holders b k) as Eh by (intros; unfold holders, held_of; by rewrite Er, El).
  split; rewrite ?Er, ?El, ?En, ?Ewt.
  - intros k u c. rewrite Eh, Eo. case_decide; [subst|apply Hc].
    intros; simplify_eq/=. destruct (occ b (nkey nd)) as [[u c]|] eqn:Ek; simpl.
    + rewrite (Hc _ _ _ Ek). rewrite (proj1 (Hfree _ _ eq_refl)). simpl. lia.
    + rewrite (holders_none None b) by done. done.
  - intros k u c. rewrite Est, Eo. case_decide; [subst|apply HC]. intros ? Hcf _. simplify_eq/=.
    specialize (Hlim Hcf). destruct (occ b (nkey nd)) as [[u c]|]; simpl; [|lia].
    destruct (Hfree _ _ eq_refl). lia.
  - intros r Hr'. destruct (Hh r Hr') as (y & ? & ? & ? & Hk). exists y. split_and!; try done.
    intros k Hk'. rewrite Eo. case_decide; [by eexists|by apply Hk].
  - done.
  - done.
  - intros k u w'. rewrite Est, Eo, Ew. case_decide; intros; simplify_eq.
    + rewrite decide_True by done. rewrite Hwv. simpl. eauto 10.
    + destruct (Hcl k u w' ltac:(done)) as (rq' & s' & i' & E & ? & ?).
      case_decide; [|by eauto 10]. subst. rewrite Hwv in E |- *. simplify_eq/=. eauto 10.
  - intros w'. rewrite Hw, Ew. case_decide; [|done]. subst.
    rewrite Hwv. simpl. naive_solver.
Qed.

(** ** Extending a claim prefix *)

Lemma claimable_free b w nd :
  (match buckets b !! nkey nd with Some bk => is_claimant bk (Some w) | None => false end) = false →
  claimableLocked (buckets b !! nkey nd) nd w = true →
  ∀ u c, occ b (nkey nd) = Some (u, c) → c = None ∧ u < nlimit nd.
Proof.
  unfold claimableLocked, occ. destruct (nlimit nd <=? 0); [done|]. destruct (buckets b !! nkey nd) as [bk|]; [|done].
  rewrite is_claimant_spec. intros Hn%bool_decide_eq_false. simpl.
  destruct (claimant bk) as [c|] eqn:Ec.
  - intros ->%bool_decide_eq_true. naive_solver.
  - destruct (Z.leb_spec (nlimit nd) (inUse bk)); [done|]. intros _ u c ?; by simplify_eq.
Qed.

Lemma extend_loop_inv w on ns : ∀ b con pl b' con' pl' rq cl i,
  acct_inv None b → wview b w = Some (rq, stateWaiting, cl, i) →
  (∀ nd, nd ∈ ns → nkey nd ∈ claim_keys (st b) rq i
     ∧ (is_configured (nkey nd) = true → 0 < nlimit nd <= configured (st b) (nkey nd))) →
  extend_loop b w on ns con pl = (b', con', pl') →
  acct_inv None b' ∧ wstep w b b'.
Proof.
  induction ns as [|nd ns IH]; intros b con pl b' con' pl' rq cl i Hinv Hwv Hks E; simpl in E.
  { by simplify_eq. }
  destruct (match buckets b !! nkey nd with Some bk => is_claimant bk (Some w) | None => false end) eqn:Hown.
  { eapply IH; [..|exact E]; eauto. intros ??. apply Hks. by right. }
  destruct (claimableLocked _ nd w) eqn:Hc; simpl in E; [|by simplify_eq].
  destruct (acct_inv_place b w nd rq cl i) as [Hinv' Hwv'];
    [done|done|apply Hks; by left|apply Hks; by left| |].
  { intros u c Ho. by eapply claimable_free. }
  destruct (IH _ _ _ _ _ _ _ _ _ Hinv' Hwv' ltac:(intros ??; apply Hks; by right) E) as [? ?].
  split; [done|]. etrans; [apply wstep_place|done].
Qed.

Lemma wview_of_state b w rq : req_state b w = Some (rq, stateWaiting) →
  ∃ cl i, wview b w = Some (rq, stateWaiting, cl, i).
Proof.
  unfold req_state. destruct (wview b w) as [[[[rq' s] cl] i]|]; simpl; [|done].
  intros; simplify_eq. by eauto.
Qed.

(** Changing the claim candidate is sound once no claim is held. *)
Lemma acct_inv_reindex b w f :
  acct_inv None b → (∀ k u, occ b k ≠ Some (u, Some w)) →
  (∀ x, wstate (f x) = wstate x) → acct_inv None (upd_waiter b w f).
Proof.
  intros [Hc HC Hh Hr Hf Hcl Hw] Hno Hfs. split; try done.
  - intros k u w' Hk. rewrite wview_upd_waiter. case_decide; [subst; by destruct (Hno k u)|by eapply Hcl].
  - intros w'. rewrite wview_upd_waiter. change (waiters (upd_waiter b w f)) with (waiters b). rewrite Hw.
    case_decide; [|done]. subst. unfold wview.
    destruct (wheap b !! w) as [x|]; [|done]. simpl. rewrite Hfs.
    split; intros (?&?&?&[= _ Hs _ _]); rewrite Hs; eauto.
Qed.

Lemma rotateClaimLocked_inv b w on :
  acct_inv None b → acct_inv None (rotateClaimLocked b w on) ∧ wstep w b (rotateClaimLocked b w on).
Proof.
  intros Hinv. unfold rotateClaimLocked. destruct (wheap b !! w) as [x|]; [|done].
  case_match; [|done]. case_decide; [done|].
  destruct (acct_inv_releaseClaims None b w Hinv) as [Hinv' Hno]; [by left|]. split.
  - by apply acct_inv_reindex.
  - etrans; [apply wstep_releaseClaims|]. by apply wstep_waiter.
Qed.

Lemma extendClaimsLocked_inv b w on b' on' rq :
  acct_inv None b → req_state b w = Some (rq, stateWaiting) →
  extendClaimsLocked b w on = (b', on') → acct_inv None b' ∧ wstep w b b'.
Proof.
  intros Hinv Hrs. unfold extendClaimsLocked.
  destruct (wheap b !! w) as [x|]; [|by intros; simplify_eq].
  case_match; [by intros; simplify_eq|]. set (b1 := if _ : bool then _ else b).
  assert (acct_inv None b1 ∧ wstep w b b1) as [Hinv1 Hs1].
  { unfold b1. case_match; [by apply rotateClaimLocked_inv|done]. }
  destruct (wheap b1 !! w) as [x1|] eqn:Ex1; [|by intros; simplify_eq].
  pose proof (claimCandidate_keys (st b1) (share b1) x1) as Hck.
  destruct (claimCandidate x1) as [c|]; [|by intros; simplify_eq].
  destruct (extend_loop _ _ _ _ _ _) as [[b2 con] pl] eqn:El. intros E; simplify_eq.
  pose proof (ws_self _ _ _ Hs1) as Hself. rewrite Hrs in Hself.
  destruct (wview_of_state _ _ _ Hself) as (cl & i & Hwv).
  assert (rq = wreq x1 ∧ i = claimIdx x1) as [-> ->]
    by (unfold wview in Hwv; rewrite Ex1 in Hwv; by simplify_eq/=).
  edestruct (extend_loop_inv w on) as [Hinv2 Hs2]; [exact Hinv1|exact Hwv| |exact El|].
  { intros nd Hnd. split; [rewrite <-Hck; by apply list_elem_of_fmap_2|by eapply needs_configured]. }
  split.
  - eapply acct_inv_ext; [|exact Hinv2]. by apply same_acct_waiter.
  - etrans; [exact Hs1|]. etrans; [exact Hs2|]. by apply wstep_waiter.
Qed.

(** ** Leaving the wait state *)

Definition restate (s : waiterState) : Request * waiterState * bool * nat → Request * waiterState * bool * nat :=
  λ '(rq, _, cl, i), (rq, s, cl, i).

Lemma acct_inv_leave b b2 w s :
  acct_inv None b → s ≠ stateWaiting →
  st b2 = st b → (∀ k, occ b2 k = occ b k) → rheap b2 = rheap b → live b2 = live b →
  nres b2 = nres b → waiters b2 = waiters b ∖ {[w]} →
  (∀ w', wview b2 w' = if decide (w' = w) then restate s <$> wview b w else wview b w') →
  acct_inv (Some w) b2.
Proof.
  intros [Hc HC Hh Hr Hf Hcl Hw] Hs Est Eo Er El En Ewt Ew.
  assert (∀ k, holders b2 k = holders b k) as Eh by (intros; unfold holders, held_of; by rewrite Er, El).
  split; rewrite ?Er, ?El, ?En, ?Ewt; try done; repeat setoid_rewrite Eo; try done.
  - intros k u c Hk. rewrite Eh. by apply Hc.
  - intros k u c Hk. rewrite Est. by eapply HC.
  - intros k u w' Hk. rewrite Est, Ew. destruct (Hcl _ _ _ Hk) as (rq & s' & i & Hwv & ? & ?).
    case_decide; [subst; rewrite Hwv; simpl; eexists rq, s, i; naive_solver|].
    exists rq, s', i. naive_solver.
  - intros w'. rewrite elem_of_difference, not_elem_of_singleton, Hw, Ew. case_decide; [|naive_solver].
    subst. split; [naive_solver|]. destruct (wview b w) as [[[[]]]|]; naive_solver.
Qed.

(** The two-phase exit of a waiter that sits in no queue: state first, claims
    after. Both [finishLocked] and the abandoning branches of [Acquire] are of
    this form. *)
Lemma leave_inv b b2 w s pk pl :
  acct_inv None b → queue_inv (Some w) pk pl b → (∃ s0, aview b w = Some ([], s0)) →
  s ≠ stateWaiting → same_cfg b b2 → buckets b2 = buckets b → rheap b2 = rheap b → live b2 = live b →
  nres b2 = nres b → waiters b2 = waiters b ∖ {[w]} →
  (∀ w', wview b2 w' = if decide (w' = w) then restate s <$> wview b w else wview b w') →
  (∀ w', aview b2 w' = if decide (w' = w) then Some ([], s) else aview b w') →
  let b' := releaseClaimsLocked b2 w in
  acct_inv None b' ∧ queue_inv None pk pl b' ∧ same_cfg b b' ∧ live b' = live b ∧ rheap b' = rheap b
  ∧ waiters b' = waiters b ∖ {[w]} ∧ (∀ w', req_of b' w' = req_of b w')
  ∧ (∀ k u, occ b' k ≠ Some (u, Some w)).
Proof.
  intros Ha Hq [s0 Hs0] Hs Hcfg Eb Er El En Ewt Ew Eav b'.
  assert (acct_inv (Some w) b2) as Ha2.
  { eapply acct_inv_leave; try done; [apply Hcfg|]. intros k. unfold occ. by rewrite Eb. }
  destruct (acct_inv_releaseClaims _ _ w Ha2 (or_intror eq_refl)) as [Ha3 Hno].
  pose proof (wstep_req _ _ _ (wstep_releaseClaims b2 w)) as Hreq.
  destruct (wstep_releaseClaims b2 w) as [C1 C2 C3 C4 C5 C6 _ _].
  split_and!; [done| |by etrans|by subst b'; rewrite C4|by subst b'; rewrite C5|by subst b'; rewrite C3| |done].
  2:{ intros w'. subst b'. rewrite Hreq. unfold req_of, req_state. rewrite Ew. case_decide; [subst|done].
      by destruct (wview b w) as [[[[]]]|]. }
  eapply queue_inv_ext; [exact C2|]. eapply (queue_inv_leave pk pl b b2 w s0 s); try done.
  - intros k. unfold qview. by rewrite Eb.
  - apply Hcfg.
Qed.

Lemma finishLocked_inv b w g s pk pl b' fin :
  acct_inv None b → queue_inv (Some w) pk pl b → (∃ s0, aview b w = Some ([], s0)) →
  (∃ rq, req_state b w = Some (rq, stateWaiting)) → s ≠ stateWaiting →
  finishLocked b w g s = (b', fin) →
  fin = true ∧ acct_inv None b' ∧ queue_inv None pk pl b' ∧ same_cfg b b' ∧ live b' = live b
  ∧ rheap b' = rheap b ∧ waiters b' = waiters b ∖ {[w]} ∧ (∀ w', req_of b' w' = req_of b w') ∧ (∀ k u, occ b' k ≠ Some (u, Some w)).
Proof.
  intros Ha Hq Hs0 [rq Hrq] Hs. unfold finishLocked.
  assert (∃ x, wheap b !! w = Some x ∧ wstate x = stateWaiting) as (x & Ex & Hx).
  { unfold req_state, wview in Hrq. destruct (wheap b !! w) as [x|]; simplify_eq/=. by eauto. }
  rewrite Ex, decide_True by done. intros E; simplify_eq. split; [done|].
  eapply (leave_inv b _ w s pk pl); try done; intros w'.
  - rewrite wview_upd_waiter. unfold wview; simpl. case_decide; simpl.
    + by rewrite lookup_alter_eq, Ex.
    + by rewrite lookup_alter_ne.
  - destruct Hs0 as [s0 Hs0]. unfold aview in Hs0. rewrite Ex in Hs0. simplify_eq/=.
    rewrite aview_upd_waiter. unfold aview; simpl. case_decide; simpl.
    + rewrite lookup_alter_eq, Ex. simpl. congruence.
    + by rewrite lookup_alter_ne.
Qed.

(** ** The acquisition attempt *)

(** Nothing is acquired; a refused shared account may have created its empty
    bucket. *)
Record try_fail b b' : Prop := {
  tf_cfg : same_cfg b b'; tf_queue : same_queue b b';
  tf_occ : ∀ k, occ b' k = occ b k ∨ (occ b k = None ∧ occ b' k = Some (0, None) ∧ 0 <= configured (st b) k);
  tf_w : wheap b' = wheap b; tf_rheap : rheap b' = rheap b; tf_live : live b' = live b;
  tf_nres : nres b' = nres b; tf_waiters : waiters b' = waiters b; tf_pending : pending b' = pending b }.

#[global] Instance try_fail_preorder : PreOrder try_fail.
Proof.
  split; [split; try done; by left|].
  intros x y z [C1 Q1 O1] [C2 Q2 O2]. split; [by etrans|by etrans| |congruence..].
  intros k. rewrite (sc_st _ _ C1) in O2.
  destruct (O1 k) as [E1|[E1 E1']], (O2 k) as [E2|[E2 E2']]; intuition congruence.
Qed.

Lemma acct_inv_fail b b' : try_fail b b' → acct_inv None b → acct_inv None b'.
Proof.
  intros [[Est _ _ _ _ _] _ Eo Ew Er El En Ewt _] Hinv. pose proof Hinv as [Hc HC Hh Hr Hf Hcl Hw].
  assert (∀ k, holders b' k = holders b k) as Eh by (intros; unfold holders, held_of; by rewrite Er, El).
  split; rewrite ?Er, ?El, ?En, ?Ewt; try done.
  - intros k u c. rewrite Eh. destruct (Eo k) as [->|(Hn & -> & _)]; [apply Hc|].
    intros; simplify_eq. by rewrite (holders_none None b) by done.
  - intros k u c. rewrite Est. destruct (Eo k) as [->|(_ & -> & ?)]; [apply HC|].
    by intros ? _ _; simplify_eq.
  - intros r Hr'. destruct (Hh r Hr') as (y & ? & ? & ? & Hk). exists y. split_and!; try done.
    intros k Hk'. destruct (Eo k) as [->|(_ & -> & _)]; [by apply Hk|by eexists].
  - intros k u w. rewrite Est. destruct (Eo k) as [->|(_ & -> & _)]; [|done].
    intros Hk. unfold wview. rewrite Ew. by eapply Hcl.
  - intros w. unfold wview. rewrite Ew. apply Hw.
Qed.

(** The shared store's answers. *)
Variable account_try : nat → string → Z → bool.

Lemma ask_account_spec b c blk ok b' blk' ok' acct :
  ask_account account_try b c blk ok = (b', blk', ok', acct) →
  try_fail b b' ∧ (ok' = true → ok = true ∧ buckets b' = buckets b)
  ∧ (ok' = false → (ok = false ∧ blk' = blk) ∨ ∃ k, blk' = Some k ∧ is_Some (qview b' k)).
Proof.
  unfold ask_account. destruct c as [c|]; [|by intros; simplify_eq; split_and!; [reflexivity|done|by left]].
  destruct ok; simpl; [|by intros; simplify_eq; split_and!; [reflexivity|done|by left]].
  destruct (shared (st b) && (0 <? map_get (cgroups (st b)) (CapacityGroup c))) eqn:Hlim;
    [|by intros; simplify_eq; split_and!; [reflexivity|done|by left]].
  apply andb_true_iff in Hlim as [_ Hlim%Z.ltb_lt].
  assert (try_fail b (set_asks b (S (asks b)))) as Hask.
  { split; try done; [by split; [left| |]|by left]. }
  case_match; [by intros; simplify_eq; split_and!|].
  destruct (buckets b !! cgroupKey (CapacityGroup c)) as [bk|] eqn:Ebk; simpl;
    intros; simplify_eq; (split_and!; [|done|]).
  - done.
  - intros _. right. eexists. split; [done|]. unfold qview; simpl. rewrite Ebk. by eexists.
  - split; try done; [split; try done|]; intros k; unfold grow_queue, qview, occ; simpl;
      (destruct (decide (k = cgroupKey (CapacityGroup c))) as [->|];
       [rewrite lookup_insert_eq, Ebk; right|rewrite lookup_insert_ne by done; by left]); [done|].
    split_and!; [done|done|]. unfold configured. simpl. lia.
  - intros _. right. eexists. split; [done|]. unfold qview; simpl. rewrite lookup_insert_eq. by eexists.
Qed.

(** What a candidate's axes look like when the check passes. *)
Definition has_room (s : Static) (req : Request) (bs : gmap axisKey (bucket (Q := Q))) (w : option nat)
    (nd : axisNeed) : Prop :=
  ∀ bk, bs !! nkey nd = Some bk →
    if reserved s req then inUse bk < effLimit s (nlimit nd) true
    else inUse bk < nlimit nd ∨ (claimant bk ≠ None ∧ claimant bk = w ∧ inUse bk - 1 < nlimit nd).

Lemma checkLocked_spec (bs : gmap axisKey (bucket (Q := Q))) ns (w : option nat) blk ok perm :
  checkLocked bs ns w = (blk, ok, perm) →
  perm = false
  ∧ (ok = true → ∀ nd bk, nd ∈ ns → bs !! nkey nd = Some bk →
       inUse bk < nlimit nd ∨ (claimant bk ≠ None ∧ claimant bk = w ∧ inUse bk - 1 < nlimit nd))
  ∧ (ok = false → ∃ k, blk = Some k ∧ is_Some (bs !! k)).
Proof.
  induction ns as [|nd ns IH]; simpl.
  { intros; simplify_eq. split_and!; [done| |done]. by intros _ nd bk ?%not_elem_of_nil. }
  destruct (bs !! nkey nd) as [bk|] eqn:Ebk.
  - destruct (Z.ltb_spec (inUse bk) (nlimit nd)).
    + intros (? & Hok & ?)%IH. split_and!; [done| |done]. intros ? nd' bk' [->|?]%elem_of_cons ?; [naive_solver|eauto].
    + rewrite is_claimant_spec. case_bool_decide as Hc; simpl; [|intros; simplify_eq; split_and!; [done|done|by eauto]].
      destruct (Z.leb_spec (nlimit nd) (inUse bk - 1)); [intros; simplify_eq; split_and!; [done|done|by eauto]|].
      intros (? & Hok & ?)%IH. split_and!; [done| |done]. intros ? nd' bk' [->|?]%elem_of_cons ?; [naive_solver|eauto].
  - intros (? & Hok & ?)%IH. split_and!; [done| |done]. intros ? nd' bk' [->|?]%elem_of_cons ?; [naive_solver|eauto].
Qed.

Lemma checkReservedLocked_spec s (bs : gmap axisKey (bucket (Q := Q))) ns blk ok perm :
  checkReservedLocked s bs ns = (blk, ok, perm) →
  (ok = true → ∀ nd bk, nd ∈ ns → bs !! nkey nd = Some bk → inUse bk < effLimit s (nlimit nd) true)
  ∧ (ok = false → perm = true ∨ ∃ k, blk = Some k ∧ is_Some (bs !! k)).
Proof.
  induction ns as [|nd ns IH]; cbn [checkReservedLocked].
  { intros; simplify_eq. split; [|done]. by intros _ nd bk ?%not_elem_of_nil. }
  case_match; [intros; simplify_eq; split; [done|by left]|].
  destruct (bs !! nkey nd) as [bk|] eqn:Ebk.
  - destruct (Z.leb_spec (effLimit s (nlimit nd) true) (inUse bk)); [intros; simplify_eq; split; [done|by eauto]|].
    intros [Hok ?]%IH. split; [|done]. intros ? nd' bk' [->|?]%elem_of_cons ?; [naive_solver|eauto].
  - intros [Hok ?]%IH. split; [|done]. intros ? nd' bk' [->|?]%elem_of_cons ?; [naive_solver|eauto].
Qed.

Lemma check_spec s req (bs : gmap axisKey (bucket (Q := Q))) ns (w : option nat) blk ok perm :
  (if reserved s req then checkReservedLocked s bs ns else checkLocked bs ns w) = (blk, ok, perm) →
  (ok = true → ∀ nd, nd ∈ ns → has_room s req bs w nd)
  ∧ (ok = false → perm = false → ∃ k, blk = Some k ∧ is_Some (bs !! k)).
Proof.
  unfold has_room. destruct (reserved s req).
  - intros [H1 H2]%checkReservedLocked_spec. split; [by eauto|]. intros Hok Hp.
    destruct (H2 Hok); [congruence|done].
  - intros (_ & H1 & H2)%checkLocked_spec. split; eauto.
Qed.

(** The axes a waiter would be queued on. *)
Definition good_blocking b (blocking : list axisKey) : Prop :=
  NoDup blocking ∧ ∀ k, k ∈ blocking → is_Some (qview b k).

Lemma good_blocking_mono b b' l : same_queue b b' → good_blocking b l → good_blocking b' l.
Proof.
  intros [Hq _ _] [Hnd Hl]. split; [done|]. intros k Hk. destruct (Hq k) as [->|[_ ->]]; [auto|by eexists].
Qed.

Lemma good_blocking_add b l k :
  good_blocking b l → is_Some (qview b k) →
  good_blocking b (add_blocking l (Some k)) ∧ add_blocking l (Some k) ≠ [].
Proof.
  intros [Hnd Hl] Hk. unfold add_blocking. do 2 case_bool_decide; simpl.
  - split; [|by destruct l]. split.
    + apply NoDup_app. split_and!; [done| |apply NoDup_singleton]. by intros x ? ->%list_elem_of_singleton.
    + intros k' [?| ->%list_elem_of_singleton]%elem_of_app; auto.
  - split; [done|]. intros ->. by eapply not_elem_of_nil.
  - split; [done|]. intros ->. simpl in *. unfold maxBlockAxes in *. lia.
  - split; [done|]. intros ->. simpl in *. unfold maxBlockAxes in *. lia.
Qed.

(** The outcome of an attempt: either one candidate had room on every axis and
    all of them are committed at once, or nothing was acquired and, unless every
    candidate is permanently blocked, there is an axis to wait on. *)
Definition try_outcome b req (w : option nat) now b' (res : option nat) blk' (perm' : bool) : Prop :=
  match res with
  | Some r => ∃ b1 c acct, try_fail b b1
      ∧ (∀ nd, nd ∈ needs (st b) (share b) req c → has_room (st b) req (buckets b1) w nd)
      ∧ commitLocked b1 (needs (st b) (share b) req c) (match c with Some c' => ID c' | None => "" end)
          (TTL req) acct w now = (b', r)
  | None => try_fail b b' ∧ good_blocking b' blk' ∧ (perm' = false → blk' ≠ [])
  end.

Lemma try_loop_spec n : ∀ b req (w : option nat) now i blk perm b' res blk' perm',
  good_blocking b blk → (perm = false → blk ≠ []) →
  try_loop account_try n b req w now i blk perm = (b', res, blk', perm') →
  try_outcome b req w now b' res blk' perm'.
Proof.
  induction n as [|n IH]; intros b req w now i blk perm b' res blk' perm' Hg Hp; cbn [try_loop].
  { intros; simplify_eq. by split_and!. }
  case_match eqn:Hstop; [intros; simplify_eq; by split_and!|]. clear Hstop.
  set (ns := needs _ _ _ _). destruct (if reserved _ _ then _ else _) as [[blk0 ok0] perm0] eqn:Hck.
  apply check_spec in Hck as [Hroom Hblk0].
  destruct (ask_account account_try b (candidateAt req i) blk0 ok0) as [[[b1 blk1] ok1] acct] eqn:Hask.
  apply ask_account_spec in Hask as (Hf & Hok & Hno).
  pose proof (tf_cfg _ _ Hf) as [Est Esh _ _ _ _].
  destruct ok1.
  { destruct (Hok eq_refl) as [-> Eb]. destruct (commitLocked _ _ _ _ _ _ _) as [b2 r] eqn:Hcm.
    intros; simplify_eq. exists b1, (candidateAt req i), acct. split_and!; [done| |done].
    intros nd Hnd. rewrite Eb. by apply Hroom. }
  assert (∀ b' res blk' perm', try_outcome b1 req w now b' res blk' perm' →
     try_outcome b req w now b' res blk' perm') as Hlift.
  { intros b2 [r|] blk2 perm2; simpl; rewrite ?Est, ?Esh.
    - intros (b3 & c & a & ? & ? & ?). exists b3, c, a. split_and!; [by etrans|done|done].
    - intros (? & ? & ?). split_and!; [by etrans|done|done]. }
  pose proof (good_blocking_mono _ _ _ (tf_queue _ _ Hf) Hg) as Hg1.
  destruct perm0.
  - intros E. apply Hlift. by eapply IH.
  - intros E. apply Hlift. assert (∃ k, blk1 = Some k ∧ is_Some (qview b1 k)) as (k & -> & Hk).
    { destruct (Hno eq_refl) as [[-> ->]|?]; [|done]. destruct (Hblk0 eq_refl eq_refl) as (k & -> & Hk).
      exists k. split; [done|]. destruct (sq_q _ _ (tf_queue _ _ Hf) k) as [->|[_ ->]]; [|by eexists].
      unfold qview. destruct Hk as [? ->]. by eexists. }
    destruct (good_blocking_add b1 blk k Hg1 Hk). by eapply IH.
Qed.

Lemma tryLocked_spec b req (w : option nat) now b' res blk perm :
  tryLocked account_try b req w now = (b', res, blk, perm) → try_outcome b req w now b' res blk perm.
Proof.
  apply try_loop_spec; [|done]. split; [constructor|]. by intros k ?%not_elem_of_nil.
Qed.

(** Committing where there is room stays under the configured ceiling. *)
Lemma room_ceiling b s sh req c (w : option nat) nd :
  acct_inv None b → st b = s → nd ∈ needs s sh req c → has_room s req (buckets b) w nd →
  under_ceiling s (nkey nd) (commit_occ w (occ b (nkey nd))).1.
Proof.
  clear account_try. intros Hinv Hs Hnd Hroom Hcf He. pose proof (needs_configured _ _ _ _ _ Hnd Hcf) as Hlim.
  destruct (occ b (nkey nd)) as [[u c0]|] eqn:Ho; simpl; [|lia].
  pose proof (ai_ceiling _ _ Hinv _ _ _ Ho) as Hc. rewrite Hs in Hc. specialize (Hc Hcf He).
  unfold occ in Ho. destruct (buckets b !! nkey nd) as [bk|] eqn:Ebk; simplify_eq/=.
  specialize (Hroom bk Ebk). case_bool_decide as Hb; simpl; [done|].
  destruct (reserved (st b) req).
  - specialize (He (nlimit nd) ltac:(lia)). lia.
  - destruct Hroom as [?|(? & ? & _)]; [lia|]. by destruct Hb.
Qed.

(** No reservation that is held is taken away or altered, no waiter starts
    waiting, and no waiter's request changes. *)
Record keeps_live b b' : Prop := {
  kl_live : live b ⊆ live b';
  kl_rheap : ∀ r x, rheap b !! r = Some x → rheap b' !! r = Some x;
  kl_waiters : waiters b' ⊆ waiters b;
  kl_req : ∀ w, req_of b' w = req_of b w }.

#[global] Instance keeps_live_preorder : PreOrder keeps_live.
Proof.
  split; [by split|]. intros b1 b2 b3 [H1 H1' H1'' H1r] [H2 H2' H2'' H2r]. split.
  - by transitivity (live b2).
  - intros r x Hr. by apply H2', H1'.
  - by transitivity (waiters b2).
  - intros w. by rewrite H2r.
Qed.

Lemma keeps_live_same b b' :
  live b' = live b → rheap b' = rheap b → waiters b' = waiters b → (∀ w, req_of b' w = req_of b w) →
  keeps_live b b'.
Proof. intros El Er Ew Eq. split; try done; by rewrite ?El, ?Er, ?Ew. Qed.

Lemma keeps_live_acct b b' : same_acct b b' → keeps_live b b'.
Proof.
  intros []. apply keeps_live_same; try done. intros w. unfold req_of, req_state. congruence.
Qed.

(** Whatever its outcome, an attempt keeps the invariants and touches no waiter. *)
Lemma try_outcome_inv b req (w : option nat) now b' res blk perm :
  acct_inv None b → try_outcome b req w now b' res blk perm →
  acct_inv None b' ∧ same_cfg b b' ∧ same_queue b b' ∧ waiters b' = waiters b
  ∧ pending b' = pending b ∧ (∀ w', wview b' w' = wview b w')
  ∧ (∀ r, res = Some r → r ∈ live b') ∧ keeps_live b b'.
Proof.
  clear account_try. intros Hinv. destruct res as [r|]; simpl.
  - intros (b1 & c & a & Hf & Hroom & Hcm). pose proof (needs_keys_nodup (st b) (share b) req c) as Hnd.
    pose proof (acct_inv_fail _ _ Hf Hinv) as Hinv1. pose proof (sc_st _ _ (tf_cfg _ _ Hf)) as Est.
    assert (acct_inv None b') as Hinv'.
    { eapply acct_inv_commit; [done|done| |done]. intros nd Hin. rewrite Est.
      eapply room_ceiling; [done|done|done|by apply Hroom]. }
    destruct (commitLocked_spec _ _ _ _ _ _ _ _ _ Hnd Hcm) as (-> & C & Q' & _ & W & Wt & P & L & _ & x & R & _).
    destruct Hf as [C1 Q1 _ W1 R1 L1 N1 Wt1 P1].
    split_and!; [done|by etrans|by etrans|congruence|congruence| | |].
    + intros w'. rewrite W. unfold wview. by rewrite W1.
    + intros r ?; simplify_eq. rewrite L. set_solver.
    + split; [rewrite L, L1; set_solver| |by rewrite Wt, Wt1|].
      * intros r y Hr. rewrite R, R1, N1.
        rewrite lookup_insert_ne; [done|]. pose proof (ai_fresh _ _ Hinv r (mk_is_Some _ _ Hr)). lia.
      * intros w'. unfold req_of, req_state. rewrite W. unfold wview. by rewrite W1.
  - intros (Hf & _ & _). pose proof (acct_inv_fail _ _ Hf Hinv). destruct Hf.
    assert (∀ w', wview b' w' = wview b w') as Ew by (intros w'; unfold wview; congruence).
    split_and!; try done. apply keeps_live_same; try done. intros w'. unfold req_of, req_state. by rewrite Ew.
Qed.

(** ** Serving one axis *)

Definition inv k (park : list nat) b : Prop := acct_inv None b ∧ queue_inv None k park b.

(** Setting fields neither invariant looks at. *)
Lemma inv_waiter_frame k park b w f :
  (∀ x, wreq (f x) = wreq x ∧ wstate (f x) = wstate x ∧ claimed (f x) = claimed x
        ∧ claimIdx (f x) = claimIdx x ∧ at_ (f x) = at_ x) →
  inv k park b → inv k park (upd_waiter b w f).
Proof.
  intros Hf [Ha Hq]. split.
  - eapply acct_inv_ext; [|exact Ha]. apply same_acct_waiter. intros x. by destruct (Hf x) as (?&?&?&?&?).
  - eapply queue_inv_ext; [|exact Hq]. apply same_queue_waiter. intros x. by destruct (Hf x) as (?&?&?&?&?).
Qed.

(** The views of two states that share their data. *)
Lemma inv_same k park b b' :
  st b' = st b → buckets b' = buckets b → wheap b' = wheap b → waiters b' = waiters b →
  rheap b' = rheap b → live b' = live b → nres b' = nres b → seq b' = seq b →
  inv k park b → inv k park b'.
Proof.
  intros Est Eb Ew Ewt Er El En Es [Ha Hq]. split.
  - eapply acct_inv_ext; [|exact Ha]. unfold occ, wview. split; intros; unfold occ, wview; congruence.
  - eapply queue_inv_ext; [|exact Hq]. split; intros; unfold grow_queue, qview, aview; [left|..]; congruence.
Qed.

(** A waiter at the head of a queue is waiting, sits there and is not parked. *)
Lemma head_waiting k park b w :
  inv k park b → qhead (match buckets b !! k with Some bk => q bk | None => qempty end) = Some w →
  ∃ x, wheap b !! w = Some x ∧ wstate x = stateWaiting ∧ k ∈ at_ x ∧ w ∉ park.
Proof.
  clear account_try.
  intros [Ha [Hv Hm Hat _ _]] Hh. destruct (buckets b !! k) as [bk|] eqn:Ebk.
  2:{ apply qhead_some in Hh; [|apply qempty_valid]. rewrite qempty_contents in Hh. set_solver. }
  assert (qview b k = Some (q bk)) as Eq by (unfold qview; by rewrite Ebk).
  apply qhead_some in Hh as [Hin _]; [|by eapply Hv].
  apply (Hm _ _ _ Eq) in Hin as [(l & s & Hl & Hk) Hp].
  destruct (Hat _ _ _ Hl) as (_ & _ & Hs & _). unfold aview in Hl.
  destruct (wheap b !! w) as [x|]; simplify_eq/=. exists x. split_and!; [done| |done|naive_solver].
  apply Hs. intros E. rewrite E in Hk. by eapply not_elem_of_nil.
Qed.

Lemma good_blocking_unqueue b w l s blk :
  aview b w = Some (l, s) → NoDup l → good_blocking b blk → good_blocking (unqueueLocked b w) blk.
Proof.
  intros Hw Hnd [Hb1 Hb2]. split; [done|]. intros k Hk. destruct (unqueueLocked_views b w l s Hw Hnd) as [Eq _].
  rewrite Eq. destruct (Hb2 k Hk) as [? ->]. case_decide; by eexists.
Qed.

Lemma extend_loop_pending w on ns : ∀ b con pl,
  pending (extend_loop b w on ns con pl).1.1 = pending b.
Proof.
  induction ns as [|nd ns IH]; intros b con pl; simpl; [done|].
  destruct (match buckets b !! nkey nd with Some bk => is_claimant bk (Some w) | None => false end); [apply IH|].
  destruct (negb _); [done|]. by rewrite IH.
Qed.

Lemma extendClaims_pending b w on x :
  wheap b !! w = Some x → soft (st b) = false ∨ (candidateCount (wreq x) <= 1)%nat →
  pending (extendClaimsLocked b w on).1 = pending b.
Proof.
  intros Ex Hn. unfold extendClaimsLocked. rewrite Ex.
  destruct (negb (soft (st b)) || _ || _) eqn:Hg; [done|].
  assert (soft (st b) = true) as Hs by (destruct (soft (st b)); done).
  rewrite (bool_decide_eq_false_2 (1 < candidateCount (wreq x))%nat), andb_false_r
    by (destruct Hn; [congruence|lia]). rewrite Ex.
  destruct (claimCandidate x) as [c|]; [|done].
  pose proof (extend_loop_pending w on (needs (st b) (share b) (wreq x) c) b false 0) as H.
  destruct (extend_loop _ _ _ _ _ _) as [[b2 con] pl]. done.
Qed.

Lemma fold_pending {A} (g : Broker (Q := Q) → A → Broker) l b :
  (∀ b a, pending (g b a) = pending b) → pending (foldl g b l) = pending b.
Proof. intros Hg. revert b. induction l as [|a l IH]; intros b; simpl; [done|]. by rewrite IH. Qed.

Lemma unqueueLocked_pending b w : pending (unqueueLocked b w) = pending b.
Proof. unfold unqueueLocked. by apply (fold_pending (λ b k, unqueue_one b w k)). Qed.
Lemma enqueueLocked_pending b w l : pending (enqueueLocked b w l) = pending b.
Proof. unfold enqueueLocked. by apply fold_pending. Qed.

(** The first half of a probe: mark the waiter, attempt for it, take it out of
    every queue. *)
Lemma probe_inv k park b w x pn n now b' res blk perm :
  inv k park b → wheap b !! w = Some x → wstate x = stateWaiting → w ∉ park →
  tryLocked account_try (set_wakeups (upd_waiter b w (λ x, set_wpass x pn)) n) (wreq x) (Some w) now
    = (b', res, blk, perm) →
  let b4 := unqueueLocked b' w in
  same_cfg (set_wakeups (upd_waiter b w (λ x, set_wpass x pn)) n) b4 ∧ keeps_live b b4
  ∧ pending b4 = pending b ∧ acct_inv None b4 ∧ queue_inv (Some w) k park b4 ∧ aview b4 w = Some ([], stateWaiting)
  ∧ req_state b4 w = Some (wreq x, stateWaiting)
  ∧ (res = None → good_blocking b4 blk ∧ (perm = false → blk ≠ [])).
Proof.
  intros Hinv Ex Hx Hp Htry b4.
  set (b2 := set_wakeups _ _) in Htry.
  assert (inv k park b2) as [Ha2 Hq2].
  { apply (inv_same k park (upd_waiter b w (λ x, set_wpass x pn)) b2); [done..|]. by apply inv_waiter_frame. }
  apply tryLocked_spec in Htry as Hout.
  destruct (try_outcome_inv _ _ _ _ _ _ _ _ Ha2 Hout) as (Ha3 & C3 & Q3 & _ & P3 & W3 & _ & K3).
  pose proof (queue_inv_ext _ _ _ _ _ Q3 Hq2) as Hq3.
  assert (aview b2 w = Some (at_ x, stateWaiting)) as Hv2.
  { unfold b2. change (aview (set_wakeups ?b _)) with (aview b).
    rewrite aview_upd_waiter, decide_True, Ex by done. simpl. by rewrite Hx. }
  assert (aview b' w = Some (at_ x, stateWaiting)) as Hv3 by by rewrite (sq_a _ _ Q3).
  destruct (qi_at _ _ _ _ Hq3 _ _ _ Hv3) as (Hnd & _ & _ & _).
  destruct (unqueueLocked_views b' w _ _ Hv3 Hnd) as [Eq Ea].
  pose proof (unqueueLocked_acct b' w) as HA.
  split_and!.
  - transitivity b'; [done|apply unqueueLocked_cfg].
  - transitivity b'; [|by apply keeps_live_acct]. transitivity b2; [|done]. apply keeps_live_same; try done.
    apply (wstep_req w b (upd_waiter b w (λ x, set_wpass x pn))). by apply wstep_waiter.
  - subst b4. by rewrite unqueueLocked_pending, P3.
  - by eapply acct_inv_ext.
  - by eapply queue_inv_unqueue; [..|left].
  - subst b4. by rewrite Ea, decide_True.
  - unfold req_state. subst b4. rewrite (sa_w _ _ HA), W3. unfold b2.
    change (wview (set_wakeups ?b _)) with (wview b). rewrite wview_upd_waiter, decide_True, Ex by done.
    simpl. by rewrite Hx.
  - intros ->. simpl in Hout. destruct Hout as (_ & Hg & Hne). split; [|done].
    by eapply good_blocking_unqueue.
Qed.

(** The second half when the waiter stays: bounce, try to set capacity aside,
    and queue again on what blocks it now. *)
Lemma requeue_inv k park b w rq blk b' on :
  acct_inv None b → queue_inv (Some w) k park b → aview b w = Some ([], stateWaiting) →
  req_state b w = Some (rq, stateWaiting) → w ∉ park → good_blocking b blk → blk ≠ [] →
  extendClaimsLocked (upd_waiter b w (λ x, set_bounces x (i32 (bounces x + 1)))) w k = (b', on) →
  inv k park (enqueueLocked b' w blk) ∧ same_cfg b (enqueueLocked b' w blk)
  ∧ keeps_live b (enqueueLocked b' w blk) ∧ aview (enqueueLocked b' w blk) w = Some (blk, stateWaiting)
  ∧ (soft (st b) = false ∨ (candidateCount rq <= 1)%nat → pending (enqueueLocked b' w blk) = pending b).
Proof.
  intros Ha Hq Hav Hrs Hp [Hnd Hks] Hne Hext.
  set (b1 := upd_waiter _ _ _) in Hext.
  assert (wstep w b b1) as S1 by by apply wstep_waiter.
  assert (acct_inv None b1) as Ha1 by (eapply acct_inv_ext; [|exact Ha]; by apply same_acct_waiter).
  edestruct (extendClaimsLocked_inv b1 w k b' on) as [Ha2 S2]; [done| |done|].
  { rewrite (ws_self _ _ _ S1). exact Hrs. }
  assert (wstep w b b') as S by by etrans.
  assert (aview b' w = Some ([], stateWaiting)) as Hav' by by rewrite (sq_a _ _ (ws_queue _ _ _ S)).
  destruct (enqueueLocked_views b' w [] stateWaiting blk Hav' Hnd) as [_ Ea].
  split_and!; [split|..].
  - eapply acct_inv_ext; [apply enqueueLocked_acct|done].
  - apply queue_inv_enqueue; try done.
    + eapply queue_inv_ext; [apply (ws_queue _ _ _ S)|done].
    + apply (good_blocking_mono b b' blk (ws_queue _ _ _ S)). by split.
  - transitivity b'; [apply (ws_cfg _ _ _ S)|apply enqueueLocked_cfg].
  - transitivity b'; [|apply keeps_live_acct, enqueueLocked_acct].
    apply keeps_live_same; try apply S. by eapply wstep_req.
  - by rewrite Ea, decide_True.
  - intros Hn. rewrite enqueueLocked_pending.
    pose proof (ws_self _ _ _ S1) as Hrs1. rewrite Hrs in Hrs1. unfold req_state, wview in Hrs1.
    destruct (wheap b1 !! w) as [x1|] eqn:Ex1; simplify_eq/=.
    pose proof (extendClaims_pending b1 w k x1 Ex1 Hn) as Hpe. by rewrite Hext in Hpe.
Qed.

(** *** Progress *)

(** No waiter moves its claims from one candidate to another: soft reservations
    are off, or every waiter has a single candidate. *)
Definition no_rotate b : Prop :=
  soft (st b) = false ∨ ∀ w rq, w ∈ waiters b → req_of b w = Some rq → (candidateCount rq <= 1)%nat.

(** The work list grows only when a waiter leaves. *)
Definition progress b b' : Prop :=
  no_rotate b → pending b' = pending b ∨ waiters b' ≠ waiters b.

Lemma no_rotate_mono b b' : st b' = st b → keeps_live b b' → no_rotate b → no_rotate b'.
Proof.
  clear account_try. intros Est K [H|H]; [left; by rewrite Est|right]. intros w rq Hw Hr.
  rewrite (kl_req _ _ K) in Hr. eapply H; [|exact Hr]. by apply (kl_waiters _ _ K).
Qed.

Lemma progress_trans b1 b2 b3 :
  st b2 = st b1 → keeps_live b1 b2 → keeps_live b2 b3 → progress b1 b2 → progress b2 b3 → progress b1 b3.
Proof.
  clear account_try. intros Est K1 K2 P1 P2 Hn.
  destruct (P1 Hn) as [E1|E1], (P2 (no_rotate_mono _ _ Est K1 Hn)) as [E2|E2].
  - left. congruence.
  - right. intros E. apply E2. pose proof (kl_waiters _ _ K1). pose proof (kl_waiters _ _ K2). set_solver.
  - right. intros E. apply E1. pose proof (kl_waiters _ _ K1). pose proof (kl_waiters _ _ K2). set_solver.
  - right. intros E. apply E1. pose proof (kl_waiters _ _ K1). pose proof (kl_waiters _ _ K2). set_solver.
Qed.

(** What a serving pass may change besides the invariants' data. *)
Record served b b' : Prop := {
  sv_st : st b' = st b; sv_share : share b' = share b; sv_closed : closed b' = closed b;
  sv_seq : seq b' = seq b; sv_pass : pass b' = pass b; sv_live : keeps_live b b';
  sv_progress : progress b b' }.

#[global] Instance served_preorder : PreOrder served.
Proof.
  split; [split; try done; by left|]. intros x y z [] []. split; try congruence; [by etrans|].
  by eapply progress_trans.
Qed.

Lemma served_cfg b b' : same_cfg b b' → keeps_live b b' → progress b b' → served b b'.
Proof. intros [] ? ?. by split. Qed.
Lemma served_same b b' : same_cfg b b' → keeps_live b b' → pending b' = pending b → served b b'.
Proof. intros. apply served_cfg; try done. by left. Qed.

(** Enough rounds always end the loop: each one spends a probe or parks a waiter. *)
Lemma serve_loop_total fuel : ∀ b k freed pn now budget granted park,
  (Z.to_nat budget + (16 - length park) < fuel)%nat → (length park <= 16)%nat →
  is_Some (serve_loop account_try fuel b k freed pn now budget granted park).
Proof.
  induction fuel as [|f IH]; intros b k freed pn now budget granted park Hf Hp; [lia|]. cbn [serve_loop].
  destruct ((granted <? freed) && (0 <? budget)) eqn:Hgo; [|by eexists].
  apply andb_true_iff in Hgo as [_ Hb%Z.ltb_lt].
  destruct (qhead _) as [w|]; [|by eexists]. destruct (wheap b !! w) as [x|]; [|by eexists].
  case_decide.
  - case_match eqn:Hpk; [by eexists|]. apply orb_false_iff in Hpk as [_ Hpk%Z.leb_gt].
    unfold maxProbePerRelease in Hpk. apply IH; rewrite length_app; simpl; lia.
  - destruct (tryLocked _ _ _ _ _) as [[[b' res] blk] perm].
    destruct res as [r|]; [destruct (finishLocked _ _ _ _); apply IH; lia|].
    destruct perm; [destruct (finishLocked _ _ _ _); apply IH; lia|].
    destruct (extendClaimsLocked _ _ _) as [b5 con]. case_match eqn:Hpk; [|apply IH; lia].
    apply andb_true_iff in Hpk as [_ Hpk%Z.ltb_lt]. unfold maxProbePerRelease in Hpk.
    apply IH; rewrite length_app; simpl; lia.
Qed.

Lemma inv_park k park b w l s :
  inv k park b → aview b w = Some (l, s) → k ∈ l → w ∉ park →
  inv k (park ++ [w]) (unqueue_one b w k).
Proof.
  intros [Ha Hq] Hv Hk Hp. split; [|by eapply queue_inv_park].
  eapply acct_inv_ext; [|exact Ha]. unfold unqueue_one. by apply same_acct_bucket.
Qed.

Lemma at_of_aview b w l s : aview b w = Some (l, s) → at_of b w = l.
Proof. unfold aview, at_of. destruct (wheap b !! w); simpl; intros; by simplify_eq. Qed.

(** A probed waiter that leaves the wait state, granted or failed. *)
Lemma serve_leave_inv k park b w s0 rq g s b5 fin b6 :
  acct_inv None b → queue_inv (Some w) k park b → aview b w = Some ([], s0) →
  req_state b w = Some (rq, stateWaiting) → w ∈ waiters b → s ≠ stateWaiting →
  finishLocked b w g s = (b5, fin) → (b6 = b5 ∨ ∃ n, b6 = set_grants b5 n) →
  inv k park b6 ∧ served b b6 ∧ wakeups b6 = wakeups b.
Proof.
  clear account_try. intros Ha Hq Hv Hrs Hw Hs Hfin Hb6.
  destruct (finishLocked_inv _ _ _ _ _ _ _ _ Ha Hq (ex_intro _ _ Hv) (ex_intro _ _ Hrs) Hs Hfin)
    as (_ & Ha5 & Hq5 & C5 & L5 & R5 & W5 & Q5 & _).
  assert (served b b5) as S5.
  { apply served_cfg; [done|split; [by rewrite L5|by rewrite R5|rewrite W5; set_solver|done]|].
    intros _. right. rewrite W5. set_solver. }
  assert (inv k park b5) as Hi5 by (by split). pose proof (sc_wakeups _ _ C5) as W.
  destruct Hb6 as [->|[n ->]]; split_and!; try done; [by apply (inv_same k park b5)|].
  etrans; [exact S5|]. by apply served_same.
Qed.

Lemma serve_loop_inv fuel : ∀ b k freed pn now budget granted park b' park',
  inv k park b →
  serve_loop account_try fuel b k freed pn now budget granted park = Some (b', park') →
  inv k park' b' ∧ served b b'
  ∧ wakeups b <= wakeups b' <= wakeups b + Z.max 0 budget.
Proof.
  induction fuel as [|f IH]; intros b k freed pn now budget granted park b' park' Hinv; [done|].
  cbn [serve_loop]. destruct ((granted <? freed) && (0 <? budget)) eqn:Hgo;
    [|by intros; simplify_eq; split_and!; [| |lia|lia]].
  apply andb_true_iff in Hgo as [_ Hb%Z.ltb_lt].
  destruct (qhead _) as [w|] eqn:Hh; [|by intros; simplify_eq; split_and!; [| |lia|lia]].
  destruct (head_waiting _ _ _ _ Hinv Hh) as (x & Ex & Hx & Hat & Hp). rewrite Ex. case_decide as Hpn.
  { destruct (bool_decide (k ∉ at_ x) || (maxProbePerRelease <=? Z.of_nat (length park))).
    { intros [= <- <-]. split_and!; [done|done|lia|lia]. }
    intros E. destruct (IH _ _ _ _ _ _ _ _ _ _
      (inv_park k park b w (at_ x) (wstate x) Hinv ltac:(unfold aview; by rewrite Ex) Hat Hp) E) as (? & S & ?).
    change (wakeups (unqueue_one b w k)) with (wakeups b) in *.
    split_and!; [done|etrans; [|exact S]|lia|lia].
    by apply served_same. }
  destruct (tryLocked _ _ _ _ _) as [[[b1 res] blk] perm] eqn:Htry.
  destruct (probe_inv _ _ _ _ _ _ _ _ _ _ _ _ Hinv Ex Hx Hp Htry) as (C1 & K1 & P1 & Ha & Hq & Hv & Hrs & Hg).
  set (b4 := unqueueLocked b1 w) in *.
  assert (served b b4) as S4 by (destruct C1; split; try done; by left).
  assert (req_of b4 w = Some (wreq x)) as Hreq by (unfold req_of; by rewrite Hrs).
  assert (w ∈ waiters b4) as Hw4.
  { apply (ai_waiters _ _ Ha). destruct (wview_of_state _ _ _ Hrs) as (? & ? & ?). eauto. }
  assert (wakeups b4 = wakeups b + 1) as Hwk by apply (sc_wakeups _ _ C1).
  (* both ways a waiter leaves *)
  assert (∀ g s b5 fin b6 granted', s ≠ stateWaiting → finishLocked b4 w g s = (b5, fin) →
    (b6 = b5 ∨ ∃ n, b6 = set_grants b5 n) →
    serve_loop account_try f b6 k freed pn now (budget - 1) granted' park = Some (b', park') →
    inv k park' b' ∧ served b b' ∧ wakeups b <= wakeups b' <= wakeups b + Z.max 0 budget) as Hleave.
  { intros g s b5 fin b6 granted' Hs Hfin Hb6 E.
    destruct (serve_leave_inv _ _ _ _ _ _ _ _ _ _ _ Ha Hq Hv Hrs Hw4 Hs Hfin Hb6) as (Hi6 & S6 & W6).
    destruct (IH _ _ _ _ _ _ _ _ _ _ Hi6 E) as (? & S & ?).
    split_and!; [done| |lia|lia]. etrans; [exact S4|]. by etrans. }
  destruct res as [r|].
  { destruct (finishLocked b4 w _ _) as [b5 fin] eqn:Hfin. apply (Hleave (grant_res r) stateGranted b5 fin); [done|done|by eauto]. }
  destruct (Hg eq_refl) as [Hgb Hne]. destruct perm.
  { destruct (finishLocked b4 w _ _) as [b5 fin] eqn:Hfin. apply (Hleave (grant_err ErrUnsatisfiable) stateFailed b5 fin); [done|done|by eauto]. }
  destruct (extendClaimsLocked _ _ _) as [b5 con] eqn:Hext.
  destruct (requeue_inv _ _ _ _ _ _ _ _ Ha Hq Hv Hrs Hp Hgb (Hne eq_refl) Hext) as (Hi6 & C6 & K6 & Hv6 & P6).
  assert (served b4 (enqueueLocked b5 w blk)) as S6.
  { apply served_cfg; [done|done|]. intros [Hn|Hn]; left; apply P6; [by left|right; by eapply Hn]. }
  set (b6 := enqueueLocked b5 w blk) in *. pose proof (sc_wakeups _ _ C6) as W6. rewrite (at_of_aview _ _ _ _ Hv6).
  destruct (bool_decide (k ∈ blk) && (Z.of_nat (length park) <? maxProbePerRelease)) eqn:Hpk; intros E.
  - apply andb_true_iff in Hpk as [Hk%bool_decide_eq_true _].
    destruct (IH _ _ _ _ _ _ _ _ _ _ (inv_park _ _ _ _ _ _ Hi6 Hv6 Hk Hp) E) as (? & S & ?).
    change (wakeups (unqueue_one b6 w k)) with (wakeups b6) in *.
    split_and!; [done| |lia|lia]. etrans; [exact S4|]. etrans; [exact S6|]. etrans; [|exact S].
    by apply served_same.
  - destruct (IH _ _ _ _ _ _ _ _ _ _ Hi6 E) as (? & S & ?).
    split_and!; [done| |lia|lia]. etrans; [exact S4|]. etrans; [exact S6|exact S].
Qed.
End Steps.
