(* ===== verification/BrokerReach.v ===== *)
(** * Reachable states of the capacity broker

    The entry points of [Broker.v] as a step relation, and the proof that every
    state reachable from a new broker satisfies the invariants. Each step is one
    critical section; goroutines interleave between them in any order. *)
From stdpp Require Import base gmap strings list relations.
From Stdlib Require Import ZArith Lia.
From S2P Require Import Prelude Axis WaitQueue Broker BrokerInv BrokerSteps.
Open Scope Z_scope.
#[local] Set Default Proof Using "Type*".

Section Reach.
Context {Q : Type} `{!WaitQueue Q}.
Variable account_try : nat → string → Z → bool.
Implicit Types (b : Broker (Q := Q)) (k : axisKey) (w r : nat).

(** ** The steps *)

(** [fuel] bounds the rounds of the drain; the step is taken when they end. *)
Inductive step b : Broker → Prop :=
| step_TryAcquire req now : step b (TryAcquire account_try b req now).1
| step_Acquire ctxDone req now : step b (Acquire account_try b ctxDone req now).1
| step_recv w b' g : recv b w = Some (b', g) → step b b'
| step_timeout fuel w now b' a : Acquire_timeout account_try fuel b w now = Some (b', a) → step b b'
| step_cancel fuel w now b' a : Acquire_cancel account_try fuel b w now = Some (b', a) → step b b'
| step_Release fuel r now b' : Release account_try fuel b r now = Some b' → step b b'
| step_Sweep fuel order now b' n :
    order ≡ₚ elements (live b) → Sweep account_try fuel b order now = Some (b', n) → step b b'
| step_sharedWake fuel order now b' : sharedWake account_try fuel b order now = Some b' → step b b'
| step_SetShare nodes : step b (set_share b (SetShare nodes))
| step_Close order : order ≡ₚ elements (waiters b) → step b (Close b order).

Definition reachable (cfg : Config) b : Prop := rtc step (New cfg) b.

(** The invariant between critical sections: nobody is parked or half-way out. *)
Definition Inv b : Prop := inv globalKey [] b.

Lemma inv_rekey k k' b : inv k [] b → inv k' [] b.
Proof.
  intros [Ha [H1 H2 H3 H4 H5]]. split; [done|]. split; try done.
  - intros k0 qq w E. rewrite (H2 k0 qq w E). split; intros [? _]; (split; [done|]);
      intros [_ Hin]; by eapply not_elem_of_nil.
  - split; [constructor|]. by intros w ?%not_elem_of_nil.
Qed.

Lemma Inv_New cfg : Inv (New (Q := Q) cfg).
Proof.
  clear account_try.
  split.
  - split; unfold occ, wview; simpl; try (intros *; rewrite ?lookup_empty; done).
    intros w. rewrite lookup_empty. set_solver.
  - split; unfold qview, aview; simpl; try (intros *; rewrite ?lookup_empty; done).
    split; [constructor|]. by intros w ?%not_elem_of_nil.
Qed.

(** ** Serving and draining *)

Lemma serveLocked_inv b k freed pn now :
  Inv b →
  ∃ b', serveLocked account_try b k freed pn now = Some b' ∧ Inv b' ∧ served b b'
    ∧ wakeups b <= wakeups b'
      <= wakeups b + Z.max 0 (Z.min (freed + wakeSlack (st b)) maxProbePerRelease).
Proof.
  intros Hinv. unfold serveLocked. case_match; [exists b; by split_and!; [| | |lia|lia]|].
  set (budget := Z.min _ _).
  destruct (serve_loop_total account_try serve_rounds b k freed pn now budget 0 []) as [[b1 park] E].
  { unfold serve_rounds, maxProbePerRelease in *. simpl. lia. }
  { simpl. lia. }
  rewrite E. destruct (serve_loop_inv account_try _ _ _ _ _ _ _ _ _ _ _ (inv_rekey _ k _ Hinv) E)
    as ([Ha Hq] & S & W).
  pose proof (unpark_cfg b1 k park) as C. pose proof (unpark_acct b1 k park) as A.
  eexists. split_and!; [done| | |rewrite (sc_wakeups _ _ C); lia|rewrite (sc_wakeups _ _ C); lia].
  - apply (inv_rekey k). split; [by eapply acct_inv_ext|]. apply queue_inv_unpark; [done|].
    intros Hne. destruct park as [|w park]; [done|].
    destruct (qi_parked _ _ _ _ Hq) as [_ Hp]. destruct (Hp w) as (l & s & Hl & Hk); [by left|].
    by apply (qi_at _ _ _ _ Hq _ _ _ Hl).
  - etrans; [exact S|]. apply served_same; [done|by apply keeps_live_acct|].
    unfold unpark. by apply fold_pending.
Qed.

Lemma serve_each_inv ks : ∀ b pn now,
  Inv b → ∃ b', serve_each account_try b ks pn now = Some b' ∧ Inv b' ∧ served b b'
    ∧ wakeups b <= wakeups b'
      <= wakeups b + Z.of_nat (length ks) * Z.max 0 (Z.min (1 + wakeSlack (st b)) maxProbePerRelease).
Proof.
  induction ks as [|k ks IH]; intros b pn now Hinv; simpl; [exists b; by split_and!; [| | |lia|lia]|].
  destruct (serveLocked_inv b k 1 pn now Hinv) as (b1 & -> & Hinv1 & S1 & W1).
  destruct (IH b1 pn now Hinv1) as (b2 & -> & Hinv2 & S2 & W2). rewrite (sv_st _ _ S1) in W2.
  exists b2. split_and!; [done|done|by etrans|lia|].
  rewrite Nat2Z.inj_succ, Z.mul_succ_l. lia.
Qed.

(** What a whole critical section keeps: configuration and held reservations. *)
Record kept b b' : Prop := {
  kp_st : st b' = st b; kp_share : share b' = share b; kp_closed : closed b' = closed b;
  kp_seq : seq b' = seq b; kp_live : keeps_live b b' }.

#[global] Instance kept_preorder : PreOrder kept.
Proof. split; [by split|]. intros x y z [] []. split; try congruence. by etrans. Qed.

Lemma served_kept b b' : served b b' → kept b b'.
Proof. by intros []. Qed.
Lemma kept_same b b' :
  st b' = st b → share b' = share b → closed b' = closed b → seq b' = seq b →
  live b' = live b → rheap b' = rheap b → waiters b' = waiters b → wheap b' = wheap b → kept b b'.
Proof.
  intros. split; try done. apply keeps_live_same; try done.
  intros w. unfold req_of, req_state, wview. congruence.
Qed.

Lemma Inv_set_pass b n : Inv b → Inv (set_pass b n).
Proof. by apply inv_same. Qed.
Lemma Inv_set_pending b l : Inv b → Inv (set_pending b l).
Proof. by apply inv_same. Qed.

Lemma drainLocked_inv fuel : ∀ b now b',
  Inv b → drainLocked account_try fuel b now = Some b' → Inv b' ∧ kept b b' ∧ pending b' = [].
Proof.
  induction fuel as [|f IH]; intros b now b' Hinv; cbn [drainLocked].
  - case_match; [|done]. intros; simplify_eq. split_and!; [by apply Inv_set_pending|by apply kept_same|done].
  - case_match; [intros; simplify_eq; split_and!; [by apply Inv_set_pending|by apply kept_same|done]|].
    set (b1 := set_pass _ _).
    destruct (serve_each_inv (pending b1) b1 (pass b1) now) as (b2 & -> & Hinv2 & S2 & _);
      [by apply Inv_set_pass|]. intros E.
    destruct (IH _ _ _ (Inv_set_pending b2 _ Hinv2) E) as (? & K & ?). split_and!; [done| |done].
    transitivity b1; [by apply kept_same|]. etrans; [by apply served_kept|]. etrans; [|exact K]. by apply kept_same.
Qed.

Lemma drainPendingLocked_inv fuel b now b' :
  Inv b → drainPendingLocked account_try fuel b now = Some b' → Inv b' ∧ kept b b' ∧ pending b' = [].
Proof.
  intros Hinv. unfold drainPendingLocked. case_decide; [by intros; simplify_eq|]. by apply drainLocked_inv.
Qed.

(** ** Releasing *)

(** One reservation goes; every other one, and every marking, stays. *)
Lemma releaseLocked_inv fuel b b1 r x now b' :
  Inv b → rheap b !! r = Some x → r ∈ live b →
  st b1 = st b → buckets b1 = buckets b → wheap b1 = wheap b → waiters b1 = waiters b →
  nres b1 = nres b → seq b1 = seq b →
  rheap b1 = <[r := set_released x true]> (rheap b) → live b1 = live b ∖ {[r]} →
  releaseLocked account_try fuel b1 (held x) now = Some b' →
  Inv b' ∧ kept b1 b' ∧ pending b' = [] ∧ r ∉ live b'.
Proof.
  intros [Ha Hq] Hx Hl Est Eb Ew Ewt En Es Er El. unfold releaseLocked.
  destruct (dec_fold_frame b1 (held x)) as (C & Q' & Fw & Fr & Fl & _ & Fwt & _).
  set (b2 := foldl _ b1 _) in *.
  assert (Inv b2) as Hinv2.
  { split.
    - apply (acct_inv_give_back b b1 r x); try done; intros; unfold occ, wview; congruence.
    - eapply queue_inv_ext; [exact Q'|]. eapply queue_inv_ext; [|exact Hq].
      split; [intros k; left; unfold qview; congruence|intros w; unfold aview; congruence|done]. }
  destruct (serve_each_inv (held x) (set_pass b2 (S (pass b2))) (pass (set_pass b2 (S (pass b2)))) now)
    as (b3 & -> & Hinv3 & S3 & _); [by apply Inv_set_pass|].
  intros E. destruct (drainPendingLocked_inv _ _ _ _ Hinv3 E) as (Hinv' & K & Hp).
  assert (kept b1 b') as Hk.
  { transitivity b2; [by destruct C; apply kept_same|].
    transitivity (set_pass b2 (S (pass b2))); [by apply kept_same|].
    transitivity b3; [by apply served_kept|done]. }
  split_and!; [done|done|done|]. intros Hin.
  destruct (ai_held _ _ (proj1 Hinv') r Hin) as (y & Hy & Hrel & _).
  pose proof (kl_rheap _ _ (kp_live _ _ Hk)) as Hkr. rewrite (Hkr r (set_released x true)) in Hy
    by (by rewrite Er, lookup_insert_eq). by simplify_eq/=.
Qed.

Lemma Release_inv fuel b r now b' :
  Inv b → Release account_try fuel b r now = Some b' →
  Inv b' ∧ r ∉ live b' ∧ st b' = st b ∧ share b' = share b
  ∧ (∀ r', r' ∈ live b → r' ≠ r → r' ∈ live b') ∧ (pending b = [] → pending b' = []).
Proof.
  intros Hinv. unfold Release. destruct (rheap b !! r) as [x|] eqn:Ex.
  - destruct (released x) eqn:Hrel.
    + intros; simplify_eq. split_and!; try done. intros Hin.
      destruct (ai_held _ _ (proj1 Hinv) r Hin) as (y & Hy & ? & _). congruence.
    + intros E. pose proof (ai_released _ _ (proj1 Hinv) r x Ex Hrel) as Hl.
      set (b1 := set_live _ _) in E.
      destruct (releaseLocked_inv fuel b b1 r x now b' Hinv Ex Hl) as (? & K & ? & ?); try done.
      split_and!; try done; [apply K|apply K|].
      intros r' Hr' Hne. apply (kl_live _ _ (kp_live _ _ K)). simpl. set_solver.
  - intros; simplify_eq. split_and!; try done. intros Hin.
    destruct (ai_held _ _ (proj1 Hinv) r Hin) as (y & Hy & _). congruence.
Qed.

Lemma sweep_each_inv fuel rs : ∀ b now b',
  Inv b → NoDup rs → (∀ r, r ∈ rs → r ∈ live b) → sweep_each account_try fuel b rs now = Some b' →
  Inv b' ∧ (∀ r, r ∈ rs → r ∉ live b') ∧ (∀ r, r ∈ live b → r ∉ rs → r ∈ live b')
  ∧ (∀ r x, rheap b !! r = Some x → r ∉ rs → rheap b' !! r = Some x) ∧ st b' = st b
  ∧ (pending b = [] → pending b' = []).
Proof.
  induction rs as [|r rs IH]; intros b now b' Hinv Hnd Hin; simpl.
  { intros; simplify_eq. split_and!; try done. by intros r ?%not_elem_of_nil. }
  apply NoDup_cons in Hnd as [Hr Hnd].
  destruct (ai_held _ _ (proj1 Hinv) r (Hin r ltac:(by left))) as (x & Ex & _). rewrite Ex.
  set (b1 := set_expired _ _). destruct (releaseLocked account_try fuel b1 (held x) now) as [b2|] eqn:E; [|done].
  destruct (releaseLocked_inv fuel b b1 r x now b2 Hinv Ex) as (Hinv2 & K & Hp2 & Hnl);
    try done; [apply Hin; by left|]. destruct (kp_live _ _ K) as [K1 K2 _ _].
  intros E'. destruct (IH b2 now b' Hinv2 Hnd) as (Hinv' & Hout & Hl & Hm & Hs & Hp'); [|exact E'|].
  { intros r' Hr'. apply K1. simpl. apply elem_of_difference.
    split; [apply Hin; by right|]. intros ->%elem_of_singleton. done. }
  split_and!; [done| | | |by rewrite Hs, (kp_st _ _ K)|by intros _; apply Hp'].
  - intros r' [->|?]%elem_of_cons; [|by apply Hout]. intros Hin'.
    destruct (ai_held _ _ (proj1 Hinv') r Hin') as (y & Hy & Hrel & _).
    rewrite (Hm r (set_released x true)) in Hy; [by simplify_eq/=| |done].
    apply K2. simpl. by rewrite lookup_insert_eq.
  - intros r' Hr' [Hne Hnin]%not_elem_of_cons. apply Hl; [|done]. apply K1. simpl. set_solver.
  - intros r' y Hy [Hne Hnin]%not_elem_of_cons. apply Hm; [|done]. apply K2. simpl.
    by rewrite lookup_insert_ne.
Qed.

Lemma Sweep_inv fuel b order now b' n :
  Inv b → order ≡ₚ elements (live b) → Sweep account_try fuel b order now = Some (b', n) →
  Inv b' ∧ (∀ r, r ∈ live b → doomed b now r = true → r ∉ live b')
  ∧ (∀ r, r ∈ live b → doomed b now r = false → r ∈ live b').
Proof.
  intros Hinv Hord. unfold Sweep. set (ds := filter _ order).
  assert (∀ r, r ∈ ds ↔ doomed b now r = true ∧ r ∈ live b) as Hds.
  { intros r. unfold ds. rewrite list_elem_of_filter, Hord, elem_of_elements. done. }
  destruct (sweep_each account_try fuel b ds now) as [b1|] eqn:E; [|done]. intros; simplify_eq.
  assert (NoDup ds) as Hnd.
  { apply NoDup_filter. rewrite Hord. apply NoDup_elements. }
  destruct (sweep_each_inv fuel ds b now b' Hinv Hnd) as (? & Hout & Hl & _); [intros r Hr; by apply Hds|done|].
  split_and!; [done| |].
  - intros r Hr Hd. apply Hout, Hds. done.
  - intros r Hr Hd. apply Hl; [done|]. rewrite Hds. intros [? _]. congruence.
Qed.

(** ** Acquiring *)

Lemma tryLocked_inv b req (w : option nat) now b' res blk perm :
  Inv b → tryLocked account_try b req w now = (b', res, blk, perm) →
  Inv b' ∧ same_cfg b b' ∧ keeps_live b b'
  ∧ (res = None → good_blocking b' blk ∧ (perm = false → blk ≠ [])).
Proof.
  intros [Ha Hq] Htry%tryLocked_spec.
  destruct (try_outcome_inv _ _ _ _ _ _ _ _ Ha Htry) as (Ha' & C & Q' & _ & _ & _ & _ & K).
  split_and!; [split; [done|by eapply queue_inv_ext]|done|done|].
  intros ->. simpl in Htry. apply Htry.
Qed.

Lemma TryAcquire_inv b req now : Inv b → Inv (TryAcquire account_try b req now).1.
Proof.
  intros Hinv. unfold TryAcquire. destruct (closed b); [done|].
  destruct (tryLocked account_try b req None now) as [[[b1 res] blk] perm] eqn:Htry.
  destruct (tryLocked_inv _ _ _ _ _ _ _ _ Hinv Htry) as (Hinv' & _).
  destruct res; [|done]. by apply (inv_same _ _ b1).
Qed.

(** A new waiter joins, in the queues of at least one axis. *)
Lemma join_inv b req now blk b1 :
  Inv b → good_blocking b blk → blk ≠ [] →
  b1 = set_waiters (set_wheap (set_seq b (S (seq b))) (<[S (seq b) := new_waiter req now]> (wheap b)))
         ({[S (seq b)]} ∪ waiters b) →
  Inv (enqueueLocked b1 (S (seq b)) blk).
Proof.
  intros [Ha Hq] [Hnd Hks] Hne ->. set (w := S (seq b)). set (b1 := set_waiters _ _).
  assert (wheap b !! w = None) as Hfresh.
  { destruct (wheap b !! w) as [x|] eqn:Ex; [|done].
    assert (aview b w = Some (at_ x, wstate x)) as Hv by (unfold aview; by rewrite Ex).
    destruct (qi_at _ _ _ _ Hq _ _ _ Hv) as (_ & _ & _ & Hs). unfold w in Hs. lia. }
  assert (∀ w', wview b1 w' = if decide (w' = w) then Some (req, stateWaiting, false, 0%nat) else wview b w') as Ew.
  { intros w'. unfold wview, b1; simpl. case_decide; subst.
    - by rewrite lookup_insert_eq.
    - by rewrite lookup_insert_ne. }
  split.
  - eapply acct_inv_ext; [apply enqueueLocked_acct|]. destruct Ha as [H1 HC H2 H3 H4 H5 H6]. split; try done.
    + intros k u w' Hk. rewrite Ew. destruct (H5 k u w' Hk) as (rq & s & i & Hwv & ?).
      case_decide; [subst; unfold wview in Hwv; by rewrite Hfresh in Hwv|]. exists rq, s, i. done.
    + intros w'. rewrite Ew. unfold b1; simpl. rewrite elem_of_union, elem_of_singleton, H6. case_decide.
      * split; [by eauto|]. by left.
      * split; [by intros [?|?]|by right].
  - apply queue_inv_enqueue; try done.
    + apply (queue_inv_join globalKey b); try done. intros w'. unfold aview, b1; simpl. case_decide; subst.
      * by rewrite lookup_insert_eq.
      * by rewrite lookup_insert_ne.
    + unfold aview, b1; simpl. by rewrite lookup_insert_eq.
    + apply not_elem_of_nil.
Qed.

Lemma queueFullLocked_inv b blk b' full :
  Inv b → queueFullLocked b blk = (b', full) →
  Inv b' ∧ seq b' = seq b ∧ same_queue b b' ∧ waiters b' = waiters b ∧ wheap b' = wheap b.
Proof.
  intros Hinv. unfold queueFullLocked. case_match; [by intros; simplify_eq|].
  case_match; [|by intros; simplify_eq]. destruct p. intros; simplify_eq.
  split_and!; try done; [by apply (inv_same _ _ b)|by split; [left| |]].
Qed.

Lemma Acquire_inv b ctxDone req now : Inv b → Inv (Acquire account_try b ctxDone req now).1.
Proof.
  intros Hinv. unfold Acquire. destruct ctxDone; [done|]. destruct (closed b); [done|].
  destruct (tryLocked account_try b req None now) as [[[b1 res] blk] perm] eqn:Htry.
  destruct (tryLocked_inv _ _ _ _ _ _ _ _ Hinv Htry) as (Hinv1 & _ & _ & Hg).
  destruct res as [r|]; [by apply (inv_same _ _ b1)|]. destruct (Hg eq_refl) as [Hgb _].
  destruct perm; [done|]. case_bool_decide as Hne; [done|]. cbn [orb].
  destruct (queueFullLocked b1 blk) as [b2 full] eqn:Hfull.
  destruct (queueFullLocked_inv _ _ _ _ Hinv1 Hfull) as (Hinv2 & Es & Q2 & _). destruct full; [done|].
  eapply join_inv; [exact Hinv2|by eapply good_blocking_mono|done|done].
Qed.

(** ** Leaving *)

Lemma unqueue_waiting_inv b w x :
  Inv b → wheap b !! w = Some x → wstate x = stateWaiting →
  acct_inv None (unqueueLocked b w) ∧ queue_inv (Some w) globalKey [] (unqueueLocked b w)
  ∧ aview (unqueueLocked b w) w = Some ([], stateWaiting)
  ∧ req_state (unqueueLocked b w) w = Some (wreq x, stateWaiting)
  ∧ same_acct b (unqueueLocked b w) ∧ same_cfg b (unqueueLocked b w).
Proof.
  intros [Ha Hq] Ex Hx. pose proof (unqueueLocked_acct b w) as HA.
  assert (aview b w = Some (at_ x, stateWaiting)) as Hv by (unfold aview; by rewrite Ex; simpl; rewrite Hx).
  destruct (qi_at _ _ _ _ Hq _ _ _ Hv) as (Hnd & _).
  destruct (unqueueLocked_views b w _ _ Hv Hnd) as [_ Ea]. split_and!; try done.
  - by eapply acct_inv_ext.
  - eapply queue_inv_unqueue; [done|done|apply not_elem_of_nil|by left].
  - by rewrite Ea, decide_True.
  - unfold req_state. rewrite (sa_w _ _ HA). unfold wview. rewrite Ex. simpl. by rewrite Hx.
  - apply unqueueLocked_cfg.
Qed.

Lemma abandon_inv fuel b w x tm now b' :
  Inv b → wheap b !! w = Some x → wstate x = stateWaiting →
  abandon account_try fuel b w tm now = Some b' →
  Inv b' ∧ st b' = st b ∧ w ∉ waiters b' ∧ live b ⊆ live b' ∧ pending b' = [].
Proof.
  intros Hinv Ex Hx. unfold abandon.
  destruct (unqueue_waiting_inv b w x Hinv Ex Hx) as (Ha & Hq & Hv & Hrs & HA & C).
  set (b1 := unqueueLocked b w) in *. set (b3 := if tm then _ else _). intros E.
  assert (∃ y, wheap b1 !! w = Some y) as [y Ey].
  { unfold aview in Hv. destruct (wheap b1 !! w); [by eexists|done]. }
  assert (∀ w', wview b3 w' = if decide (w' = w) then restate stateCancelled <$> wview b1 w else wview b1 w') as W3.
  { intros w'. transitivity (wview (upd_waiter b1 w (λ x, set_wstate x stateCancelled)) w'); [by destruct tm|].
    rewrite wview_upd_waiter. unfold wview. rewrite Ey. done. }
  assert (∀ w', aview b3 w' = if decide (w' = w) then Some ([], stateCancelled) else aview b1 w') as A3.
  { intros w'. transitivity (aview (upd_waiter b1 w (λ x, set_wstate x stateCancelled)) w'); [by destruct tm|].
    rewrite aview_upd_waiter, Ey. unfold aview in Hv. rewrite Ey in Hv. simpl in *.
    case_decide; congruence. }
  destruct (leave_inv b1 b3 w stateCancelled globalKey [] Ha Hq (ex_intro _ _ Hv)) 
    as (Ha4 & Hq4 & C4 & L4 & _ & W4 & _); try done; try (by destruct tm).
  eapply drainPendingLocked_inv in E as (? & K & ?); [|by split].
  split_and!; [done|rewrite (kp_st _ _ K), (sc_st _ _ C4); by apply C| | |done].
  - intros Hin%(kl_waiters _ _ (kp_live _ _ K)). rewrite W4 in Hin. set_solver.
  - rewrite <- (sa_live _ _ HA), <- L4. apply (kl_live _ _ (kp_live _ _ K)).
Qed.

Lemma recv_inv b w b' g : Inv b → recv b w = Some (b', g) → Inv b'.
Proof.
  intros Hinv. unfold recv. destruct (wheap b !! w) as [x|]; [|done].
  destruct (ch x); [|done]. intros; simplify_eq. by apply inv_waiter_frame.
Qed.

Lemma waiters_waiting b w : Inv b → w ∈ waiters b ↔ ∃ x, wheap b !! w = Some x ∧ wstate x = stateWaiting.
Proof.
  clear account_try.
  intros [Ha _]. rewrite (ai_waiters _ _ Ha). unfold wview.
  destruct (wheap b !! w) as [x|]; simpl; [|split; [by intros (?&?&?&?)|by intros (?&?&?)]].
  split; [intros (?&?&?&?); simplify_eq; eauto|]. intros (y & ? & Hy). simplify_eq. rewrite Hy. eauto.
Qed.

Definition close_one b w : Broker :=
  (finishLocked (unqueueLocked b w) w (grant_err ErrClosed) stateFailed).1.

Lemma close_one_inv b w :
  Inv b → w ∈ waiters b →
  Inv (close_one b w) ∧ waiters (close_one b w) = waiters b ∖ {[w]} ∧ same_cfg b (close_one b w)
  ∧ live (close_one b w) = live b ∧ rheap (close_one b w) = rheap b.
Proof.
  intros Hinv Hw. apply (waiters_waiting b w Hinv) in Hw as (x & Ex & Hx).
  destruct (unqueue_waiting_inv b w x Hinv Ex Hx) as (Ha & Hq & Hv & Hrs & HA & C).
  unfold close_one. destruct (finishLocked _ _ _ _) as [b' fin] eqn:E.
  destruct (finishLocked_inv _ _ _ stateFailed _ _ _ _ Ha Hq (ex_intro _ _ Hv) (ex_intro _ _ Hrs) ltac:(done) E)
    as (_ & ? & ? & C' & L & R & W & _). simpl.
  split_and!; [done|by rewrite W, (sa_waiters _ _ HA)|by etrans|by rewrite L, (sa_live _ _ HA)|].
  by rewrite R, (sa_rheap _ _ HA).
Qed.

Lemma close_all_inv order : ∀ b,
  Inv b → NoDup order → (∀ w, w ∈ order → w ∈ waiters b) →
  let b' := foldl close_one b order in
  Inv b' ∧ waiters b' = waiters b ∖ list_to_set order ∧ same_cfg b b' ∧ live b' = live b ∧ rheap b' = rheap b.
Proof.
  clear account_try.
  induction order as [|w order IH]; intros b Hinv Hnd Hin; simpl.
  { split_and!; try done. set_solver. }
  apply NoDup_cons in Hnd as [Hw Hnd].
  destruct (close_one_inv b w Hinv (Hin w ltac:(by left))) as (Hinv1 & W1 & C1 & L1 & R1).
  destruct (IH (close_one b w) Hinv1 Hnd) as (Hinv2 & W2 & C2 & L2 & R2).
  { intros w' Hw'. rewrite W1. apply elem_of_difference. split; [apply Hin; by right|].
    intros ->%elem_of_singleton. done. }
  split_and!; [done|rewrite W2, W1; set_solver|by etrans|congruence|congruence].
Qed.

Lemma Close_inv b order :
  Inv b → order ≡ₚ elements (waiters b) →
  Inv (Close b order) ∧ waiters (Close b order) = ∅ ∧ closed (Close b order) = true
  ∧ live (Close b order) = live b ∧ rheap (Close b order) = rheap b.
Proof.
  clear account_try.
  intros Hinv Hord. unfold Close.
  destruct (close_all_inv order (set_closed b true)) as (Hinv' & W & C & L & R).
  - by apply (inv_same _ _ b).
  - rewrite Hord. apply NoDup_elements.
  - intros w Hw. rewrite Hord, elem_of_elements in Hw. done.
  - change (foldl _ _ order) with (foldl close_one (set_closed b true) order).
    split_and!; [by apply Inv_set_pending| |by apply (sc_closed _ _ C)|done|done].
    simpl. rewrite W. apply set_eq. intros w.
    rewrite elem_of_difference, elem_of_list_to_set, Hord, elem_of_elements. simpl. set_solver.
Qed.

Lemma Acquire_timeout_inv fuel b w now b' a :
  Inv b → Acquire_timeout account_try fuel b w now = Some (b', a) → Inv b'.
Proof.
  intros Hinv. unfold Acquire_timeout. destruct (wheap b !! w) as [x|] eqn:Ex; [|done].
  case_decide as Hx.
  - destruct (abandon _ _ _ _ _ _) as [b1|] eqn:E; [|done]. intros; simplify_eq. by eapply abandon_inv in E as [? _].
  - destruct (recv b w) as [[b1 g]|] eqn:E; [|done]. intros; simplify_eq. by eapply recv_inv.
Qed.

Lemma Acquire_cancel_inv fuel b w now b' a :
  Inv b → Acquire_cancel account_try fuel b w now = Some (b', a) → Inv b'.
Proof.
  intros Hinv. unfold Acquire_cancel. destruct (wheap b !! w) as [x|] eqn:Ex; [|done].
  case_decide as Hx.
  - destruct (abandon _ _ _ _ _ _) as [b1|] eqn:E; [|done]. intros; simplify_eq. by eapply abandon_inv in E as [? _].
  - destruct (recv b w) as [[b1 g]|] eqn:E; [|done]. pose proof (recv_inv _ _ _ _ Hinv E) as Hinv1.
    destruct g as [r|e]; [|by intros; simplify_eq].
    destruct (Release _ _ _ _ _) as [b2|] eqn:E'; [|done]. intros; simplify_eq.
    by eapply Release_inv in E' as [? _].
Qed.

Lemma sharedWake_inv fuel b order now b' :
  Inv b → sharedWake account_try fuel b order now = Some b' → Inv b'.
Proof.
  intros Hinv. unfold sharedWake. destruct (closed b || _); [by intros; simplify_eq|].
  destruct (serve_each_inv order (set_pass b (S (pass b))) (pass (set_pass b (S (pass b)))) now)
    as (b1 & -> & Hinv1 & _); [by apply Inv_set_pass|]. intros E.
  by eapply drainPendingLocked_inv in E as [? _].
Qed.

(** ** Every reachable state *)

Lemma step_inv b b' : Inv b → step b b' → Inv b'.
Proof.
  intros Hinv [req now|ctx req now|w b1 g E|fuel w now b1 a E|fuel w now b1 a E|fuel r now b1 E
    |fuel order now b1 n Ho E|fuel order now b1 E|nodes|order Ho].
  - by apply TryAcquire_inv.
  - by apply Acquire_inv.
  - by eapply recv_inv.
  - by eapply Acquire_timeout_inv.
  - by eapply Acquire_cancel_inv.
  - by eapply Release_inv in E as [? _].
  - by eapply Sweep_inv in E as [? _].
  - by eapply sharedWake_inv.
  - destruct Hinv as [Ha Hq]. split; [|by eapply queue_inv_ext; [|exact Hq]; split; [left| |]].
    eapply acct_inv_ext; [|exact Ha]. by split.
  - by apply Close_inv.
Qed.

(** The configuration is never written after [New]. *)
Lemma step_st b b' : Inv b → step b b' → st b' = st b.
Proof.
  intros Hinv [req now|ctx req now|w b1 g E|fuel w now b1 a E|fuel w now b1 a E|fuel r now b1 E
    |fuel order now b1 n Ho E|fuel order now b1 E|nodes|order Ho].
  - unfold TryAcquire. destruct (closed b); [done|].
    destruct (tryLocked account_try b req None now) as [[[b1 res] blk] perm] eqn:Htry.
    destruct (tryLocked_inv _ _ _ _ _ _ _ _ Hinv Htry) as (_ & C & _). destruct res; apply C.
  - unfold Acquire. destruct ctx, (closed b); try done.
    destruct (tryLocked account_try b req None now) as [[[b1 res] blk] perm] eqn:Htry.
    destruct (tryLocked_inv _ _ _ _ _ _ _ _ Hinv Htry) as (_ & C & _). destruct res; [apply C|].
    destruct (perm || _); [apply C|]. unfold queueFullLocked.
    destruct (negb _); [|destruct (list_find _ _) as [[]|]]; simpl; try apply C;
      (etrans; [apply (sc_st _ _ (enqueueLocked_cfg _ _ _))|apply C]).
  - revert E. unfold recv. repeat (case_match; try done). by intros; simplify_eq.
  - revert E. unfold Acquire_timeout. destruct (wheap b !! w) as [x|] eqn:Ex; [|done]. case_decide.
    + destruct (abandon _ _ _ _ _ _) as [b2|] eqn:E; [|done]. intros; simplify_eq. by eapply abandon_inv in E as (_ & ? & _).
    + unfold recv. rewrite Ex. destruct (ch x); [|done]. by intros; simplify_eq.
  - revert E. unfold Acquire_cancel. destruct (wheap b !! w) as [x|] eqn:Ex; [|done]. case_decide.
    + destruct (abandon _ _ _ _ _ _) as [b2|] eqn:E; [|done]. intros; simplify_eq. by eapply abandon_inv in E as (_ & ? & _).
    + destruct (recv b w) as [[b2 g]|] eqn:Er; [|done]. pose proof (recv_inv _ _ _ _ Hinv Er) as Hinv2.
      assert (st b2 = st b) as E2 by (revert Er; unfold recv; rewrite Ex; case_match; by intros; simplify_eq).
      destruct g as [r|e]; [|by intros; simplify_eq].
      destruct (Release _ _ _ _ _) as [b3|] eqn:E'; [|done]. intros; simplify_eq. rewrite <- E2.
      by eapply Release_inv in E' as (_ & _ & ? & _).
  - by eapply Release_inv in E as (_ & _ & ? & _).
  - revert E. unfold Sweep. set (ds := filter _ order).
    destruct (sweep_each _ _ _ _ _) as [b2|] eqn:E; [|done]. intros; simplify_eq.
    eapply sweep_each_inv in E as (_ & _ & _ & _ & ? & _); [done|done| |].
    + apply NoDup_filter. rewrite Ho. apply NoDup_elements.
    + intros r [_ Hr]%list_elem_of_filter. by rewrite Ho, elem_of_elements in Hr.
  - revert E. unfold sharedWake. destruct (closed b || _); [by intros; simplify_eq|].
    destruct (serve_each_inv order (set_pass b (S (pass b))) (pass (set_pass b (S (pass b)))) now)
      as (b2 & -> & Hinv1 & S & _); [by apply Inv_set_pass|]. intros E.
    eapply drainPendingLocked_inv in E as (_ & K & _); [|done]. by rewrite (kp_st _ _ K), (sv_st _ _ S).
  - done.
  - unfold Close. destruct (close_all_inv order (set_closed b true)) as (_ & _ & C & _).
    + by apply (inv_same _ _ b).
    + rewrite Ho. apply NoDup_elements.
    + intros w Hw. by rewrite Ho, elem_of_elements in Hw.
    + apply C.
Qed.

(** Between critical sections the work list is empty. *)
Lemma step_pending b b' : Inv b → pending b = [] → step b b' → pending b' = [].
Proof.
  intros Hinv Hp Hs. assert (∀ req (w : option nat) now b1 res blk perm,
    tryLocked account_try b req w now = (b1, res, blk, perm) → pending b1 = []) as Htry.
  { intros req w now b1 res blk perm E%tryLocked_spec.
    by destruct (try_outcome_inv _ _ _ _ _ _ _ _ (proj1 Hinv) E) as (_ & _ & _ & _ & -> & _). }
  destruct Hs as [req now|ctx req now|w b1 g E|fuel w now b1 a E|fuel w now b1 a E|fuel r now b1 E
    |fuel order now b1 n Ho E|fuel order now b1 E|nodes|order Ho].
  - unfold TryAcquire. destruct (closed b); [done|].
    destruct (tryLocked account_try b req None now) as [[[b1 [r|]] blk] perm] eqn:E; apply (Htry _ _ _ _ _ _ _ E).
  - unfold Acquire. destruct ctx; [done|]. destruct (closed b); [done|].
    destruct (tryLocked account_try b req None now) as [[[b1 [r|]] blk] perm] eqn:E; [apply (Htry _ _ _ _ _ _ _ E)|].
    destruct (perm || _); [apply (Htry _ _ _ _ _ _ _ E)|]. unfold queueFullLocked.
    destruct (negb _); [|destruct (list_find _ _) as [[]|]]; simpl; rewrite ?enqueueLocked_pending; apply (Htry _ _ _ _ _ _ _ E).
  - revert E. unfold recv. repeat (case_match; try done). by intros; simplify_eq.
  - revert E. unfold Acquire_timeout. destruct (wheap b !! w) as [x|] eqn:Ex; [|done]. case_decide.
    + destruct (abandon _ _ _ _ _ _) as [b2|] eqn:E; [|done]. intros; simplify_eq.
      by eapply abandon_inv in E as (_ & _ & _ & _ & ?).
    + unfold recv. rewrite Ex. destruct (ch x); [|done]. by intros; simplify_eq.
  - revert E. unfold Acquire_cancel. destruct (wheap b !! w) as [x|] eqn:Ex; [|done]. case_decide.
    + destruct (abandon _ _ _ _ _ _) as [b2|] eqn:E; [|done]. intros; simplify_eq.
      by eapply abandon_inv in E as (_ & _ & _ & _ & ?).
    + destruct (recv b w) as [[b2 g]|] eqn:Er; [|done]. pose proof (recv_inv _ _ _ _ Hinv Er) as Hinv2.
      assert (pending b2 = []) as E2 by (revert Er; unfold recv; rewrite Ex; case_match; by intros; simplify_eq).
      destruct g as [r|e]; [|by intros; simplify_eq].
      destruct (Release _ _ _ _ _) as [b3|] eqn:E'; [|done]. intros; simplify_eq.
      by eapply Release_inv in E' as (_ & _ & _ & _ & _ & ?); auto.
  - by eapply Release_inv in E as (_ & _ & _ & _ & _ & ?); auto.
  - revert E. unfold Sweep. set (ds := filter _ order).
    destruct (sweep_each _ _ _ _ _) as [b2|] eqn:E; [|done]. intros; simplify_eq.
    eapply sweep_each_inv in E as (_ & _ & _ & _ & _ & Hp'); [by apply Hp'|done| |].
    + apply NoDup_filter. rewrite Ho. apply NoDup_elements.
    + intros r [_ Hr]%list_elem_of_filter. by rewrite Ho, elem_of_elements in Hr.
  - revert E. unfold sharedWake. destruct (closed b || _); [by intros; simplify_eq|].
    destruct (serve_each_inv order (set_pass b (S (pass b))) (pass (set_pass b (S (pass b)))) now)
      as (b2 & -> & Hinv1 & S & _); [by apply Inv_set_pass|]. intros E.
    by eapply drainPendingLocked_inv in E as (_ & _ & ?).
  - done.
  - done.
Qed.
Lemma reachable_st cfg b : reachable cfg b → Inv b ∧ st b = New_static cfg ∧ pending b = [].
Proof.
  unfold reachable. intros H. remember (New cfg) as b0 eqn:E.
  assert (Inv b0 ∧ st b0 = New_static cfg ∧ pending b0 = []) as H0 by (subst; split_and!; [apply Inv_New|done|done]).
  clear E. induction H as [|b0 b1 b2 Hs _ IH]; [done|]. apply IH. destruct H0 as (Hi & Hst & Hp).
  split_and!; [by eapply step_inv|by rewrite (step_st b0 b1)|by eapply step_pending].
Qed.

Lemma reachable_inv cfg b : reachable cfg b → Inv b.
Proof. by intros (? & _)%reachable_st. Qed.
End Reach.
