(* ===== verification/BrokerProps.v ===== *)
(** * What the capacity broker guarantees

    The broker's promises, over every reachable state, every interleaving of
    entry points and every behaviour of the shared store. The wait queue is used
    only through its interface; the witnesses run the heap of [WaitQueue.v]. *)
From stdpp Require Import base gmap strings list relations.
From Stdlib Require Import ZArith Lia SpecFloat.
From S2P Require Import Prelude Axis Reserve WaitQueue Broker BrokerInv BrokerSteps BrokerReach.
Open Scope Z_scope.
#[local] Set Default Proof Using "Type*".

(** ** Definitions of the statements *)

(** The committed count [InUse] reports, zero for a key the broker has not seen. *)
Definition usage {Q} (b : Broker (Q := Q)) (k : axisKey) : Z := default 0 (InUse b k).

(** No trace of a waiter: it is not waiting, sits in no queue and holds no claim. *)
Definition gone {Q} `{!WaitQueue Q} (b : Broker (Q := Q)) (w : nat) : Prop :=
  w ∉ waiters b
  ∧ ∀ k bk, buckets b !! k = Some bk → w ∉ qcontents (q bk) ∧ claimant bk ≠ Some w.

(** The result in a waiter's channel and its state. *)
Definition result_of {Q} (b : Broker (Q := Q)) (w : nat) : option (option grant * waiterState) :=
  (λ x, (ch x, wstate x)) <$> wheap b !! w.

Section Props.
Context {Q : Type} `{!WaitQueue Q}.
Variable account_try : nat → string → Z → bool.
Implicit Types (b : Broker (Q := Q)) (k : axisKey) (w r : nat).

(** ** Shared lemmas *)

Lemma occ_bucket b k bk : buckets b !! k = Some bk → occ b k = Some (inUse bk, claimant bk).
Proof. unfold occ. by intros ->. Qed.

Lemma InUse_occ b k : InUse b k = (λ '(u, c), u - claim_unit c) <$> occ b k.
Proof.
  unfold InUse, occ. destruct (buckets b !! k) as [bk|]; [|done]. simpl. unfold committed.
  destruct (claimant bk); simpl; f_equal; lia.
Qed.

Lemma usage_holders ex b k : acct_inv ex b → usage b k = Z.of_nat (size (holders b k)).
Proof.
  intros Hinv. unfold usage. rewrite InUse_occ. destruct (occ b k) as [[u c]|] eqn:Ho; simpl.
  - rewrite (ai_count _ _ Hinv _ _ _ Ho). lia.
  - by rewrite (holders_none ex b k).
Qed.

Lemma gone_iff b w : Inv b → w ∉ waiters b → gone b w.
Proof.
  intros [Ha Hq] Hw. split; [done|]. intros k bk Hk. split.
  - intros Hin. apply (qi_mem _ _ _ _ Hq k (q bk) w) in Hin as [(l & s & Hl & Hkl) _];
      [|unfold qview; by rewrite Hk].
    destruct (qi_at _ _ _ _ Hq _ _ _ Hl) as (_ & _ & Hs & _).
    apply Hw, (waiters_waiting b w (conj Ha Hq)). unfold aview in Hl.
    destruct (wheap b !! w) as [x|]; simplify_eq/=. exists x. split; [done|]. apply Hs.
    intros E. rewrite E in Hkl. by eapply not_elem_of_nil.
  - intros Hc. apply Hw, (ai_waiters _ _ Ha). pose proof (occ_bucket _ _ _ Hk) as Ho. rewrite Hc in Ho.
    destruct (ai_claim _ _ Ha _ _ _ Ho) as (rq & s & i & Hwv & _ & Hs). rewrite Hs in Hwv by done. eauto.
Qed.


(** ** Accounting *)

(** C1. In every reachable state the committed count of an axis is exactly the
    number of live reservations holding it, and the occupancy other requests see
    is that number plus the one unit set aside by a soft reservation, if any. No
    slot is leaked and none is counted twice. *)
Theorem occupancy_exact cfg b k :
  reachable account_try cfg b →
  usage b k = Z.of_nat (size (holders b k))
  ∧ ∀ bk, buckets b !! k = Some bk → inUse bk = usage b k + claim_unit (claimant bk).
Proof.
  intros [Ha _]%reachable_inv. pose proof (usage_holders _ _ k Ha) as Hu. split; [done|].
  intros bk Hk%occ_bucket. rewrite Hu. apply (ai_count _ _ Ha _ _ _ Hk).
Qed.

(** C2. In every reachable state, on every axis whose ceiling is configuration
    (global, route, provider group, model, credential group), the number of
    reservations plus claims never exceeds the configured ceiling, whatever the
    mix of interactive and batch requests, the reserve, the cluster share and the
    order of operations. *)
Theorem configured_ceiling cfg b k bk :
  reachable account_try cfg b → buckets b !! k = Some bk → is_configured k = true →
  configured (New_static cfg) k < 2 ^ 52 →
  0 <= usage b k <= inUse bk ∧ inUse bk <= configured (New_static cfg) k.
Proof.
  intros ([Ha _] & Hst & _)%reachable_st Hk%occ_bucket Hcf Hlim.
  pose proof (ai_count _ _ Ha _ _ _ Hk) as Hc. rewrite (usage_holders _ _ k Ha).
  pose proof (ai_ceiling _ _ Ha _ _ _ Hk Hcf) as Hce. rewrite Hst in Hce.
  assert (0 <= claim_unit (claimant bk)) by (destruct (claimant bk); simpl; lia).
  split; [lia|]. apply Hce. intros l Hl. apply effLimit_le. lia.
Qed.

(** ** Acquisition *)

Lemma try_fail_usage b b' k : try_fail b b' → usage b' k = usage b k.
Proof.
  clear account_try. intros Hf. unfold usage. rewrite !InUse_occ. destruct (tf_occ _ _ Hf k) as [->|(-> & -> & _)]; done.
Qed.

Lemma commit_usage b b1 b' k ns cred t a (w : option nat) now r :
  try_fail b b1 → NoDup (map nkey ns) → commitLocked b1 ns cred t a w now = (b', r) →
  usage b' k = usage b k + (if decide (k ∈ map nkey ns) then 1 else 0).
Proof.
  clear account_try. intros Hf Hnd Hcm.
  destruct (commitLocked_spec _ _ _ _ _ _ _ _ _ Hnd Hcm) as (_ & _ & _ & Eo & _).
  rewrite <- (try_fail_usage b b1 k Hf). unfold usage. rewrite !InUse_occ, Eo. case_decide; simpl; [|lia].
  destruct (occ b1 k) as [[u c]|]; simpl; [|done]. case_bool_decide as Hc; simpl; [|lia].
  destruct c; [simpl; lia|by destruct Hc].
Qed.


(** ** Queues *)

(** C3. No lost waiter: in every reachable state every blocked [Acquire] sits in
    the queue of at least one axis, every queue it believes it sits in really
    holds it, and conversely a queue holds only blocked acquisitions that know
    of it. So every blocked caller is reachable by some release. *)
Theorem no_lost_waiter cfg b :
  reachable account_try cfg b →
  (∀ w, w ∈ waiters b → ∃ x, wheap b !! w = Some x ∧ wstate x = stateWaiting ∧ at_ x ≠ []
     ∧ ∀ k, k ∈ at_ x → ∃ bk, buckets b !! k = Some bk ∧ w ∈ qcontents (q bk))
  ∧ (∀ k bk w, buckets b !! k = Some bk → w ∈ qcontents (q bk) → w ∈ waiters b ∧ k ∈ at_of b w).
Proof.
  intros Hinv%reachable_inv. pose proof Hinv as [Ha Hq]. split.
  - intros w (x & Ex & Hx)%(waiters_waiting b w Hinv). exists x.
    assert (aview b w = Some (at_ x, stateWaiting)) as Hv by (unfold aview; rewrite Ex; simpl; by rewrite Hx).
    destruct (qi_at _ _ _ _ Hq _ _ _ Hv) as (_ & Hks & _).
    split_and!; [done|done|by eapply (qi_queued _ _ _ _ Hq)|].
    intros k Hk. destruct (Hks k Hk) as [qq Eq]. pose proof Eq as Eq'. unfold qview in Eq'.
    destruct (buckets b !! k) as [bk|] eqn:Ebk; simplify_eq/=. exists bk. split; [done|].
    apply (qi_mem _ _ _ _ Hq k (q bk) w Eq). split; [by eauto|]. intros [_ Hin]. by eapply not_elem_of_nil.
  - intros k bk w Hk Hin. split.
    + destruct (decide (w ∈ waiters b)) as [|Hn]; [done|].
      destruct (gone_iff b w Hinv Hn) as [_ Hg]. by destruct (Hg k bk Hk).
    + apply (qi_mem _ _ _ _ Hq k (q bk) w) in Hin as [(l & s & Hl & Hkl) _]; [|unfold qview; by rewrite Hk].
      by rewrite (at_of_aview _ _ _ _ Hl).
Qed.

(** A soft reservation is always held by a caller that is still waiting, on an
    axis of the one candidate it is currently claiming for: no unit is kept idle
    for a request that was served, failed or gave up. *)
Theorem claims_are_live cfg b k bk w :
  reachable account_try cfg b → buckets b !! k = Some bk → claimant bk = Some w →
  w ∈ waiters b ∧ ∃ x c, wheap b !! w = Some x ∧ claimed x = true ∧ claimCandidate x = Some c
    ∧ k ∈ map nkey (needs (st b) (share b) (wreq x) c).
Proof.
  intros [Ha _]%reachable_inv Hk Hc. pose proof (occ_bucket _ _ _ Hk) as Ho. rewrite Hc in Ho.
  destruct (ai_claim _ _ Ha _ _ _ Ho) as (rq & s & i & Hwv & Hin & Hs). rewrite Hs in Hwv by done.
  split; [apply (ai_waiters _ _ Ha); by eauto|]. unfold wview in Hwv.
  destruct (wheap b !! w) as [x|]; simplify_eq/=. exists x.
  pose proof (claimCandidate_keys (st b) (share b) x) as Hck. destruct (claimCandidate x) as [c|].
  - exists c. by rewrite Hck.
  - rewrite Hck in Hin. by apply not_elem_of_nil in Hin.
Qed.

(** ** Release and wakeup *)

(** Serving the queue of an axis always ends, examines at most
    [min (freed + wakeSlack) 16] waiters however long the queue is, takes no
    reservation away and leaves every reservation as it was. *)
Theorem serve_is_bounded cfg b k freed pn now :
  reachable account_try cfg b →
  ∃ b', serveLocked account_try b k freed pn now = Some b'
    ∧ wakeups b' - wakeups b <= Z.max 0 (Z.min (freed + wakeSlack (st b)) 16)
    ∧ live b ⊆ live b' ∧ waiters b' ⊆ waiters b
    ∧ ∀ r x, rheap b !! r = Some x → rheap b' !! r = Some x.
Proof.
  intros Hinv%reachable_inv. destruct (serveLocked_inv account_try b k freed pn now Hinv) as (b' & E & _ & S & W).
  unfold maxProbePerRelease in W. exists b'. destruct (sv_live _ _ S). split_and!; try done. lia.
Qed.

Lemma drain_total_aux fuel : ∀ b now,
  Inv b → no_rotate b → (size (waiters b) < fuel)%nat → is_Some (drainLocked account_try fuel b now).
Proof.
  induction fuel as [|f IH]; intros b now Hinv Hn Hf; [lia|]. cbn [drainLocked].
  destruct (bool_decide (pending b = []) || closed b); [by eexists|].
  set (b1 := set_pass b (S (pass b))).
  destruct (serve_each_inv account_try (pending b1) b1 (pass b1) now) as (b2 & -> & Hinv2 & S & _);
    [by apply Inv_set_pass|].
  destruct (sv_progress _ _ S Hn) as [Hp|Hp].
  - change (pending b1) with (pending b) in Hp. rewrite Hp, drop_all. destruct f; simpl; by eexists.
  - apply IH; [by apply Inv_set_pending| |].
    + exact (no_rotate_mono b1 b2 (sv_st _ _ S) (sv_live _ _ S) Hn).
    + pose proof (kl_waiters _ _ (sv_live _ _ S)) as Hsub. change (waiters b1) with (waiters b) in *.
      assert (waiters b2 ⊂ waiters b) as Hlt%subset_size; [|simpl; lia].
      split; [done|]. intros Hsup. apply Hp. by apply set_eq; intros w; split; [apply Hsub|apply Hsup].
Qed.

(** When no waiter moves its claims between candidates (soft reservations are
    off, or every blocked request has one candidate), the knock-on work of a
    release ends after at most one round more than there are waiters. *)
Theorem drain_terminates cfg b now :
  reachable account_try cfg b → no_rotate b →
  is_Some (drainLocked account_try (S (size (waiters b))) b now).
Proof. intros Hinv%reachable_inv Hn. apply drain_total_aux; [done|done|lia]. Qed.

(** [Release] is idempotent: a second call, at any later time, changes
    nothing, and the reservation is no longer live. *)
Theorem release_idempotent cfg b r fuel now b' fuel' now' :
  reachable account_try cfg b → Release account_try fuel b r now = Some b' →
  r ∉ live b' ∧ Release account_try fuel' b' r now' = Some b'.
Proof.
  intros Hinv%reachable_inv E. destruct (Release_inv _ _ _ _ _ _ Hinv E) as (Hinv' & Hr & _). split; [done|].
  unfold Release at 1. destruct (rheap b' !! r) as [y|] eqn:Ey; [|done].
  destruct (released y) eqn:Hy; [done|]. by destruct Hr; eapply (ai_released _ _ (proj1 Hinv')).
Qed.

(** [Sweep] reclaims exactly the live reservations that are past their
    deadline and hold no shared account lease; every other one stays live. *)
Theorem sweep_reclaims_expired cfg b fuel order now b' n :
  reachable account_try cfg b → order ≡ₚ elements (live b) →
  Sweep account_try fuel b order now = Some (b', n) →
  ∀ r, r ∈ live b → r ∈ live b' ↔ doomed b now r = false.
Proof.
  intros Hinv%reachable_inv Hord E r Hr. destruct (Sweep_inv _ _ _ _ _ _ _ Hinv Hord E) as (_ & Hout & Hin).
  destruct (doomed b now r) eqn:Hd; split; try done; intros; [|by apply Hin]. by destruct (Hout r Hr Hd).
Qed.

(** ** Giving up and shutting down *)

(** A caller that times out or is cancelled while it is blocked leaves no
    trace: it is in no queue and holds no claim, and no reservation is lost. *)
Theorem abandoned_waiter_gone cfg b fuel w x now b' a :
  reachable account_try cfg b → wheap b !! w = Some x → wstate x = stateWaiting →
  Acquire_timeout account_try fuel b w now = Some (b', a)
  ∨ Acquire_cancel account_try fuel b w now = Some (b', a) →
  gone b' w ∧ live b ⊆ live b' ∧ (a = AFailed ErrQueueTimeout ∨ a = AFailed ErrContext).
Proof.
  intros Hinv%reachable_inv Ex Hx H.
  assert (∃ tm, abandon account_try fuel b w tm now = Some b'
    ∧ (a = AFailed ErrQueueTimeout ∨ a = AFailed ErrContext)) as (tm & E & Ha).
  { destruct H as [H|H]; revert H; unfold Acquire_timeout, Acquire_cancel; rewrite Ex, decide_True by done;
      (destruct (abandon _ _ _ _ _ _) eqn:E; [|done]); intros; simplify_eq/=; eauto. }
  destruct (abandon_inv _ _ _ _ _ _ _ _ Hinv Ex Hx E) as (Hinv' & _ & Hw & Hl & _).
  split_and!; [by apply gone_iff|done|done].
Qed.

Lemma release_claims_wheap w b ns : wheap (foldl (release_claim_one w) b ns) = wheap b.
Proof.
  revert b. induction ns as [|nd ns IH]; intros b; simpl; [done|]. rewrite IH.
  by destruct (release_claim_one_spec w b nd) as (_ & _ & -> & _).
Qed.

Lemma result_releaseClaims b w w' : result_of (releaseClaimsLocked b w) w' = result_of b w'.
Proof.
  unfold releaseClaimsLocked. destruct (wheap b !! w) as [x|] eqn:Ex; [|done]. destruct (claimed x); [|done].
  set (b1 := upd_waiter b w _).
  transitivity (result_of b1 w').
  - destruct (claimCandidate x); [|done]. unfold result_of. by rewrite release_claims_wheap.
  - unfold result_of, b1, upd_waiter; simpl. destruct (decide (w' = w)) as [->|].
    + by rewrite lookup_alter_eq, Ex.
    + by rewrite lookup_alter_ne.
Qed.

Lemma result_close_one b w w' :
  Inv b → w ∈ waiters b →
  result_of (close_one b w) w'
  = if decide (w' = w) then Some (Some (grant_err ErrClosed), stateFailed) else result_of b w'.
Proof.
  intros Hinv (x & Ex & Hx)%(waiters_waiting b w Hinv).
  assert (∀ v, wheap (unqueueLocked b w) !! v = if decide (v = w) then Some (set_at x []) else wheap b !! v) as Eu.
  { intros v. unfold unqueueLocked, upd_waiter, unqueue_one; simpl. rewrite foldl_upd_bucket_wheap.
    case_decide; subst; [by rewrite lookup_alter_eq, Ex|by rewrite lookup_alter_ne]. }
  unfold close_one, finishLocked. remember (unqueueLocked b w) as b1 eqn:E1. clear E1.
  rewrite Eu, decide_True by done. simpl. rewrite decide_True by done. simpl.
  rewrite result_releaseClaims. unfold result_of; simpl. case_decide; subst.
  - by rewrite !lookup_alter_eq, Eu, decide_True.
  - by rewrite !lookup_alter_ne, Eu, decide_False.
Qed.

Lemma result_close_all order : ∀ b,
  Inv b → NoDup order → (∀ w, w ∈ order → w ∈ waiters b) → ∀ w,
  result_of (foldl close_one b order) w
  = if decide (w ∈ order) then Some (Some (grant_err ErrClosed), stateFailed) else result_of b w.
Proof.
  clear account_try.
  induction order as [|v order IH]; intros b Hinv Hnd Hin w; simpl; [done|].
  apply NoDup_cons in Hnd as [Hv Hnd]. pose proof (Hin v ltac:(by left)) as Hvw.
  destruct (close_one_inv b v Hinv Hvw) as (Hinv1 & W1 & _).
  rewrite IH; [|done|done|].
  - rewrite result_close_one by done. destruct (decide (w = v)) as [->|].
    + by rewrite decide_False, decide_True by (done || by left).
    + destruct (decide (w ∈ order)).
      * by rewrite decide_True by (by right).
      * by rewrite decide_False by (rewrite elem_of_cons; tauto).
  - intros w' Hw'. rewrite W1. apply elem_of_difference. split; [apply Hin; by right|].
    intros ->%elem_of_singleton. done.
Qed.

(** [Close] fails every blocked caller with [ErrClosed], in whatever order
    the waiters are visited: nobody is left waiting, queued or holding a claim,
    while the reservations already granted stay live. *)
Theorem close_fails_every_waiter cfg b order :
  reachable account_try cfg b → order ≡ₚ elements (waiters b) →
  let b' := Close b order in
  closed b' = true ∧ waiters b' = ∅ ∧ live b' = live b
  ∧ (∀ w, w ∈ waiters b → result_of b' w = Some (Some (grant_err ErrClosed), stateFailed))
  ∧ ∀ k bk, buckets b' !! k = Some bk → qcontents (q bk) = ∅ ∧ claimant bk = None.
Proof.
  intros Hinv%reachable_inv Hord b'.
  destruct (Close_inv b order Hinv Hord) as (Hinv' & Hw & Hc & Hl & _).
  split_and!; try done.
  - intros w Hin. unfold b', Close. change (foldl _ _ order) with (foldl close_one (set_closed b true) order).
    change (result_of (set_pending ?x _) w) with (result_of x w). rewrite result_close_all.
    + rewrite decide_True; [done|]. rewrite Hord. by apply elem_of_elements.
    + by apply (inv_same _ _ b).
    + rewrite Hord. apply NoDup_elements.
    + intros v Hv. by rewrite Hord, elem_of_elements in Hv.
  - intros k bk Hk. assert (∀ w, w ∉ qcontents (q bk) ∧ claimant bk ≠ Some w) as Hg.
    { intros w. destruct (gone_iff b' w Hinv') as [_ Hg]; [fold b' in Hw; rewrite Hw; set_solver|]. by apply (Hg k). }
    split; [apply set_eq; intros w; split; [|set_solver]; intros; by destruct (Hg w)|].
    destruct (claimant bk) as [w|]; [|done]. by destruct (Hg w).
Qed.

(** ** Acquire then release *)

Lemma serve_idle b k freed pn now :
  Inv b → waiters b = ∅ → serveLocked account_try b k freed pn now = Some b.
Proof.
  intros Hinv Hw. unfold serveLocked. rewrite bool_decide_eq_true_2; [done|].
  destruct (buckets b !! k) as [bk|] eqn:Ebk; [|done].
  rewrite qLen_size by (apply (qi_valid _ _ _ _ (proj2 Hinv) k); unfold qview; by rewrite Ebk).
  assert (qcontents (q bk) = ∅) as ->; [|apply size_empty]. apply set_eq. intros w. split; [|set_solver].
  intros Hin. destruct (gone_iff b w Hinv) as [_ Hg]; [set_solver|]. by destruct (Hg k bk Ebk).
Qed.

Lemma serve_each_idle ks : ∀ b pn now,
  Inv b → waiters b = ∅ → serve_each account_try b ks pn now = Some b.
Proof.
  induction ks as [|k ks IH]; intros b pn now Hinv Hw; simpl; [done|]. rewrite serve_idle by done. by apply IH.
Qed.

(** Acquire and release are inverse: on a broker nobody is waiting on, a
    granted [TryAcquire] followed by [Release] succeeds and restores every
    count and the set of live reservations. *)
Theorem acquire_release_roundtrip cfg b req now b1 r now' :
  reachable account_try cfg b → waiters b = ∅ →
  TryAcquire account_try b req now = (b1, Some r) →
  ∃ b2, Release account_try 0 b1 r now' = Some b2 ∧ live b2 = live b ∧ ∀ k, usage b2 k = usage b k.
Proof.
  intros (Hinv & _ & Hpend)%reachable_st Hw E. pose proof (TryAcquire_inv account_try b req now Hinv) as Hinv1.
  rewrite E in Hinv1. simpl in Hinv1. revert E. unfold TryAcquire. destruct (closed b); [done|].
  destruct (tryLocked _ _ _ _ _) as [[[b0 res] blk] perm] eqn:Htry. apply tryLocked_spec in Htry.
  destruct res as [r0|]; [|done]. intros; simplify_eq.
  destruct (try_outcome_inv _ _ _ _ _ _ _ _ (proj1 Hinv) Htry) as (_ & _ & _ & Ew & Ep & _ & _ & K).
  simpl in Htry. destruct Htry as (b3 & c & a & Hf & _ & Hcm).
  destruct (commitLocked_spec _ _ _ _ _ _ _ _ _ (needs_keys_nodup _ _ _ _) Hcm)
    as (Hr & _ & _ & _ & _ & _ & _ & El & _ & x & Er & _ & Hrel).
  assert (r ∉ live b) as Hfresh.
  { rewrite Hr, (tf_nres _ _ Hf). intros Hin. destruct (ai_held _ _ (proj1 Hinv) _ Hin) as (y & Hy & _).
    pose proof (ai_fresh _ _ (proj1 Hinv) _ (mk_is_Some _ _ Hy)). lia. }
  set (b1 := set_grants b0 (grants b0 + 1)) in *.
  assert (rheap b1 !! r = Some x) as Ex by (unfold b1; simpl; by rewrite Er, lookup_insert_eq).
  unfold Release. rewrite Ex, Hrel. unfold releaseLocked.
  set (b4 := set_live _ _). destruct (dec_fold_frame b4 (held x)) as (C & Qs & _ & Fr & Fl & _ & Fwt & Fp).
  set (b5 := foldl _ b4 (held x)) in *.
  assert (acct_inv None b5) as Ha5.
  { apply (acct_inv_give_back b1 b4 r x); try done; [apply Hinv1|]. unfold b1; simpl. rewrite El. set_solver. }
  assert (Inv b5) as Hinv5.
  { split; [done|]. eapply queue_inv_ext; [exact Qs|]. eapply queue_inv_ext; [|apply Hinv1]. by split; [left| |]. }
  rewrite serve_each_idle; [|by apply Inv_set_pass|simpl; rewrite Fwt; simpl; by rewrite Ew].
  unfold drainPendingLocked. rewrite decide_True by (simpl; rewrite Fp; simpl; by rewrite Ep).
  eexists. split; [done|]. assert (live b5 = live b) as El5.
  { rewrite Fl. simpl. rewrite El, (tf_live _ _ Hf). set_solver. }
  split; [done|]. intros k. change (usage (set_pass ?y _) k) with (usage y k).
  rewrite (usage_holders _ _ k Ha5), (usage_holders _ _ k (proj1 Hinv)). do 2 f_equal.
  unfold holders. rewrite El5. apply set_eq. intros r'. rewrite !elem_of_filter.
  assert (r' ∈ live b → held_of b5 r' = held_of b r') as Hh; [|split; intros [? ?]; by rewrite Hh in *].
  intros Hin. unfold held_of. rewrite Fr. simpl. rewrite lookup_insert_ne by (intros ->; done).
  destruct (ai_held _ _ (proj1 Hinv) r' Hin) as (y & Hy & _). by rewrite Hy, (kl_rheap _ _ K _ _ Hy).
Qed.
End Props.

(** ** A concrete run *)

(** Two axes: at most two requests in flight, at most one of them on provider
    [p]. Two reservations fill the global axis, a third request for [p] blocks on
    it, and the release of the other provider's reservation makes that waiter
    bounce off the provider axis and claim the global unit. *)
Module Scenario.
Definition cfg : Config :=
  mkConfig false 2 ∅ ∅ {["p" := 1]} [] ∅ (mkQConfig 0 ∅ ∅ ∅ [] ∅ ∅) (S754_zero false) 0 0 0
    SoftReservationsDefault 1.
Definition no_store : nat → string → Z → bool := λ _ _ _, false.
Definition rq (p : string) : Request := mkReq p "" "" "" 0 [] "" Wait false 0.
Definition b0 : Broker (Q := waitQueue) := New cfg.
Definition b1 : Broker := (TryAcquire no_store b0 (rq "p") 5).1.
Definition b2 : Broker := (TryAcquire no_store b1 (rq "q") 6).1.
Definition b3 : Broker := (Acquire no_store b2 false (rq "p") 7).1.
Definition b4 : Broker := default b3 (Release no_store 3 b3 1 8).

Lemma reach1 : reachable no_store cfg b1.
Proof. apply rtc_once. exact (step_TryAcquire _ b0 _ _). Defined.
Lemma reach2 : reachable no_store cfg b2.
Proof. eapply rtc_r; [exact reach1|]. exact (step_TryAcquire _ b1 _ _). Defined.
Lemma reach3 : reachable no_store cfg b3.
Proof. eapply rtc_r; [exact reach2|]. exact (step_Acquire _ b2 _ _ _). Defined.
Lemma reach4 : reachable no_store cfg b4.
Proof. eapply rtc_r; [exact reach3|]. apply (step_Release _ b3 3 1 8). vm_compute. reflexivity. Defined.
End Scenario.
Import Scenario.

Lemma occupancy_exact_witness :
  usage b4 globalKey = 1
  ∧ usage b4 globalKey = Z.of_nat (size (holders b4 globalKey))
  ∧ ∀ bk, buckets b4 !! globalKey = Some bk → inUse bk = usage b4 globalKey + claim_unit (claimant bk).
Proof. split; [vm_compute; reflexivity|]. apply (occupancy_exact no_store cfg b4 globalKey reach4). Defined.

Lemma configured_ceiling_witness :
  ∃ bk, buckets b2 !! globalKey = Some bk ∧ inUse bk = 2
    ∧ (0 <= usage b2 globalKey <= inUse bk ∧ inUse bk <= configured (New_static cfg) globalKey).
Proof.
  eexists. split; [vm_compute; reflexivity|]. split; [reflexivity|].
  apply (configured_ceiling no_store cfg b2 globalKey _ reach2); vm_compute; reflexivity.
Defined.


Lemma no_lost_waiter_witness :
  1%nat ∈ waiters b3
  ∧ (∀ w, w ∈ waiters b3 → ∃ x, wheap b3 !! w = Some x ∧ wstate x = stateWaiting ∧ at_ x ≠ []
       ∧ ∀ k, k ∈ at_ x → ∃ bk, buckets b3 !! k = Some bk ∧ w ∈ qcontents (q bk))
  ∧ (∀ k bk w, buckets b3 !! k = Some bk → w ∈ qcontents (q bk) → w ∈ waiters b3 ∧ k ∈ at_of b3 w).
Proof.
  split; [apply (bool_decide_unpack _); vm_compute; exact I|]. apply (no_lost_waiter no_store cfg b3 reach3).
Defined.

Lemma claims_are_live_witness :
  ∃ bk, buckets b4 !! globalKey = Some bk ∧ claimant bk = Some 1%nat
  ∧ 1%nat ∈ waiters b4 ∧ ∃ x c, wheap b4 !! 1%nat = Some x ∧ claimed x = true ∧ claimCandidate x = Some c
    ∧ globalKey ∈ map nkey (needs (st b4) (share b4) (wreq x) c).
Proof.
  eexists. split; [vm_compute; reflexivity|]. split; [reflexivity|].
  eapply (claims_are_live no_store cfg b4 globalKey _ 1 reach4); vm_compute; reflexivity.
Defined.

Lemma serve_is_bounded_witness :
  ∃ b', serveLocked no_store b3 globalKey 1 1 8 = Some b'
    ∧ wakeups b' - wakeups b3 <= Z.max 0 (Z.min (1 + wakeSlack (st b3)) 16)
    ∧ live b3 ⊆ live b' ∧ waiters b' ⊆ waiters b3
    ∧ ∀ r x, rheap b3 !! r = Some x → rheap b' !! r = Some x.
Proof. apply (serve_is_bounded no_store cfg b3 globalKey 1 1 8 reach3). Defined.

Lemma drain_terminates_witness : is_Some (drainLocked no_store (S (size (waiters b4))) b4 9).
Proof.
  apply (drain_terminates no_store cfg b4 9 reach4). right. intros w rq Hw Hr.
  replace (waiters b4) with ({[1%nat]} : gset nat) in Hw by (vm_compute; reflexivity).
  apply elem_of_singleton in Hw as ->. vm_compute in Hr. injection Hr as <-. vm_compute. lia.
Defined.

Lemma release_idempotent_witness :
  (1%nat : nat) ∉ live b4 ∧ Release no_store 3 b4 1 9 = Some b4.
Proof. apply (release_idempotent no_store cfg b3 1 3 8 b4 3 9 reach3). vm_compute. reflexivity. Defined.

Lemma sweep_reclaims_expired_witness :
  ∃ b' n, Sweep no_store 3 b2 (elements (live b2)) 10000000000000 = Some (b', n) ∧ n = 2%nat
    ∧ ∀ r, r ∈ live b2 → r ∈ live b' ↔ doomed b2 10000000000000 r = false.
Proof.
  destruct (Sweep no_store 3 b2 (elements (live b2)) 10000000000000) as [[b' n]|] eqn:E;
    [|vm_compute in E; discriminate E].
  exists b', n. split; [reflexivity|]. split; [vm_compute in E; by injection E|].
  apply (sweep_reclaims_expired no_store cfg b2 3 (elements (live b2)) 10000000000000 b' n reach2); [reflexivity|exact E].
Defined.

Lemma abandoned_waiter_gone_witness :
  ∃ b' a, Acquire_timeout no_store 3 b4 1 9 = Some (b', a)
    ∧ gone b' 1 ∧ live b4 ⊆ live b' ∧ (a = AFailed ErrQueueTimeout ∨ a = AFailed ErrContext).
Proof.
  destruct (Acquire_timeout no_store 3 b4 1 9) as [[b' a]|] eqn:E; [|vm_compute in E; discriminate E].
  exists b', a. split; [reflexivity|].
  destruct (wheap b4 !! 1%nat) as [x|] eqn:Ex; [|vm_compute in Ex; discriminate Ex].
  apply (abandoned_waiter_gone no_store cfg b4 3 1 x 9 b' a reach4 Ex); [|left; exact E].
  vm_compute in Ex. by injection Ex as <-.
Defined.

Lemma close_fails_every_waiter_witness :
  let b' := Close b4 (elements (waiters b4)) in
  closed b' = true ∧ waiters b' = ∅ ∧ live b' = live b4
  ∧ (∀ w, w ∈ waiters b4 → result_of b' w = Some (Some (grant_err ErrClosed), stateFailed))
  ∧ ∀ k bk, buckets b' !! k = Some bk → qcontents (q bk) = ∅ ∧ claimant bk = None.
Proof. apply (close_fails_every_waiter no_store cfg b4 (elements (waiters b4)) reach4). reflexivity. Defined.

Lemma acquire_release_roundtrip_witness :
  ∃ b', Release no_store 0 b2 1 9 = Some b' ∧ live b' = live b1 ∧ ∀ k, usage b' k = usage b1 k.
Proof. apply (acquire_release_roundtrip no_store cfg b1 (rq "q") 6 b2 1 9 reach1); vm_compute; reflexivity. Defined.

(** ** A depth limit that a claim erases *)

(** [place_claim] creates a missing bucket without its [max_queue]. Here the
    queue of provider [p] is limited to one waiter; the bucket of [p] is first
    created by a claim (the waiter bounced off its credential group), and from
    then on callers queue on [p] without limit. *)
Module DepthLimit.
Definition cfg : Config :=
  mkConfig false 2 ∅ {["g" := 1]} {["p" := 1]} [] ∅ (mkQConfig 0 ∅ ∅ {["p" := 1]} [] ∅ ∅) (S754_zero false)
    0 0 0 SoftReservationsDefault 1.
Definition rq (p g : string) : Request := mkReq p "" "" "" 0 [mkCand "" g 0 "" "" ""] "" Wait false 0.
Definition acq (b : Broker (Q := waitQueue)) (r : Request) : Broker := (Acquire no_store b false r 5).1.
Definition rel (b : Broker (Q := waitQueue)) (r : nat) : Broker := default b (Release no_store 3 b r 6).
Definition b3 : Broker := acq (acq (acq (New cfg) (rq "q" "g")) (rq "q" "")) (rq "p" "g").
Definition b4 : Broker := rel (rel b3 1) 0.
Definition b6 : Broker := acq (acq b4 (rq "p" "")) (rq "p" "").
End DepthLimit.

(** The configured depth of [p] is one, and two callers wait in its queue. On a
    broker whose bucket of [p] was created by a commit the second is refused. *)
Theorem claim_erases_max_queue :
  map_get (qroutes (queues (st DepthLimit.b6))) "p" = 1
  ∧ (λ bk, (queueMax bk, qLen (q bk))) <$> buckets DepthLimit.b6 !! routeKey "p" = Some (0, 2%nat)
  ∧ queueRefused DepthLimit.b6 = 0
  ∧ let c := DepthLimit.acq (New DepthLimit.cfg) (DepthLimit.rq "p" "") in
    let c := DepthLimit.acq (DepthLimit.acq c (DepthLimit.rq "p" "")) (DepthLimit.rq "p" "") in
    (λ bk, (queueMax bk, qLen (q bk))) <$> buckets c !! routeKey "p" = Some (1, 1%nat)
    ∧ queueRefused c = 1.
Proof. vm_compute. repeat split. Qed.
