(* ===== verification/Chain.v ===== *)
(** * Prefix hash chains ([internal/prefix/chain.go])

    Request bytes stream through a chain of segment hashes; the digest at depth
    [i] stands for the first [i] segments. The hash is a parameter: everything
    here holds for any function in place of SHA-256, and the statement that a
    match proves the bytes exhibits a collision of that function otherwise.
    Bytes are [Z] values; a [hash.Hash] is the sequence of bytes written to it. *)
From stdpp Require Import base list.
From Stdlib Require Import ZArith Lia.
From S2P Require Import Prelude.
Open Scope Z_scope.
#[local] Set Default Proof Using "Type*".

Definition DefaultBaseSegment : Z := 4 * 1024.
Definition MaxDepth : nat := 24.
Definition digestSize : nat := 16.
Definition stateSize : nat := 32.

(** [binary.BigEndian.PutUint64]. *)
Definition PutUint64 (v : Z) : list Z :=
  map (λ i, (v / 2 ^ (8 * Z.of_nat i)) mod 256) [7; 6; 5; 4; 3; 2; 1; 0]%nat.

Section Chain.
Variable H : list Z → list Z.

Record Chain : Type := mkChain {
  state : list Z; seg : list Z; segLen : Z; cbase : Z; target : Z; depth : nat;
  digests : list (list Z); sealed : bool }.

(** The bytes the chain is seeded with. *)
Definition seed_bytes (tenant group : list Z) : list Z := tenant ++ [0] ++ group.

Definition NewChain (tenant group : list Z) (baseSegment : Z) : Chain :=
  let base := if baseSegment <=? 0 then DefaultBaseSegment else baseSegment in
  let st := H (seed_bytes tenant group) in
  mkChain st st 0 base base 0 [] false.

Definition closeSegment (c : Chain) : Chain :=
  let st := H (seg c ++ PutUint64 (segLen c)) in
  mkChain st st 0 (cbase c)
    (if target c <? 2 ^ 30 then target c * 2 else target c)
    (S (depth c)) (digests c ++ [take digestSize st]) (sealed c).

(** The loop of [Write]: each round that goes on consumes at least one byte, so
    the length of the input bounds the rounds. *)
Fixpoint write_loop (fuel : nat) (c : Chain) (p : list Z) : Chain :=
  match fuel with
  | O => c
  | S f =>
      match p with
      | [] => c
      | _ =>
          if bool_decide (MaxDepth <= depth c)%nat then c
          else
            let need := target c - segLen c in
            if Z.of_nat (length p) <? need then
              mkChain (state c) (seg c ++ p) (segLen c + Z.of_nat (length p)) (cbase c) (target c)
                (depth c) (digests c) (sealed c)
            else
              let c := mkChain (state c) (seg c ++ take (Z.to_nat need) p) (segLen c + need) (cbase c)
                         (target c) (depth c) (digests c) (sealed c) in
              write_loop f (closeSegment c) (drop (Z.to_nat need) p)
      end
  end.

Definition Write (c : Chain) (p : list Z) : Chain :=
  if sealed c then c else write_loop (length p) c p.

Definition Seal (c : Chain) : Chain * list (list Z) :=
  let c := if sealed c then c
           else
             let c := if (0 <? segLen c) && bool_decide (depth c < MaxDepth)%nat then closeSegment c else c in
             mkChain (state c) (seg c) (segLen c) (cbase c) (target c) (depth c) (digests c) true in
  (c, digests c).

Definition Depth (c : Chain) : nat := depth c.

Definition Compute (tenant group body : list Z) (baseSegment : Z) : list (list Z) :=
  (Seal (Write (NewChain tenant group baseSegment) body)).2.

(** ** The reference: cut, then fold *)

Definition next_target (t : Z) : Z := if t <? 2 ^ 30 then t * 2 else t.

(** The body cut into at most [n] segments, the first of [t] bytes and each one
    after it twice as long; the last may be shorter. *)
Fixpoint segments (n : nat) (t : Z) (body : list Z) : list (list Z) :=
  match n, body with
  | S n', _ :: _ =>
      take (Z.to_nat t) body :: segments n' (next_target t) (drop (Z.to_nat t) body)
  | _, _ => []
  end.

(** The chain states h_1, h_2, ... over a list of segments, from h_0. *)
Fixpoint chain (h : list Z) (segs : list (list Z)) : list (list Z) :=
  match segs with
  | [] => []
  | s :: segs' =>
      let h' := H (h ++ s ++ PutUint64 (Z.of_nat (length s))) in h' :: chain h' segs'
  end.

Definition base_of (baseSegment : Z) : Z :=
  if baseSegment <=? 0 then DefaultBaseSegment else baseSegment.

Definition reference (tenant group body : list Z) (baseSegment : Z) : list (list Z) :=
  map (take digestSize)
    (chain (H (seed_bytes tenant group)) (segments MaxDepth (base_of baseSegment) body)).

(** ** Streaming *)

Lemma next_target_pos t : 0 < t → 0 < next_target t.
Proof. unfold next_target. case_match; lia. Qed.

(** Feeding one byte. *)
Definition feed (c : Chain) (x : Z) : Chain :=
  if bool_decide (MaxDepth <= depth c)%nat then c
  else
    let c := mkChain (state c) (seg c ++ [x]) (segLen c + 1) (cbase c) (target c) (depth c) (digests c)
               (sealed c) in
    if segLen c <? target c then c else closeSegment c.

(** Filling the open segment without completing it. *)
Definition fill (c : Chain) (l : list Z) : Chain :=
  mkChain (state c) (seg c ++ l) (segLen c + Z.of_nat (length l)) (cbase c) (target c) (depth c)
    (digests c) (sealed c).

Lemma feed_full c l : (MaxDepth <= depth c)%nat → foldl feed c l = c.
Proof.
  intros Hd. induction l as [|x l IH]; simpl; [done|].
  unfold feed at 2. by rewrite bool_decide_eq_true_2.
Qed.

Lemma feed_short l : ∀ c,
  (depth c < MaxDepth)%nat → segLen c + Z.of_nat (length l) < target c → foldl feed c l = fill c l.
Proof.
  induction l as [|x l IH]; intros c Hd Hl; simpl.
  { unfold fill. destruct c; simpl. by rewrite app_nil_r, Z.add_0_r. }
  unfold feed at 2. rewrite bool_decide_eq_false_2 by lia. simpl in *.
  rewrite (proj2 (Z.ltb_lt _ _)) by lia. rewrite IH by (simpl; lia).
  unfold fill; simpl. rewrite <- app_assoc. f_equal. lia.
Qed.

Lemma feed_exact c l :
  (depth c < MaxDepth)%nat → segLen c < target c → segLen c + Z.of_nat (length l) = target c →
  foldl feed c l = closeSegment (fill c l).
Proof.
  intros Hd Ht Hl. destruct l as [|x l _] using rev_ind; [simpl in Hl; lia|].
  rewrite length_app in Hl. simpl in Hl. rewrite foldl_app, (feed_short l c) by (done || lia). simpl.
  unfold feed. simpl. rewrite bool_decide_eq_false_2 by lia.
  rewrite (proj2 (Z.ltb_ge _ _)) by lia. f_equal. unfold fill; simpl.
  rewrite <- app_assoc, length_app. simpl. f_equal. lia.
Qed.

(** The loop is the fold of single bytes. *)
Lemma write_fold f : ∀ c p,
  0 <= segLen c < target c → (length p <= f)%nat → write_loop f c p = foldl feed c p.
Proof.
  induction f as [|f IH]; intros c p Hc Hf; [by destruct p; simpl in *; [|lia]|]. cbn [write_loop].
  destruct p as [|x p]; [done|]. set (l := x :: p) in *.
  case_bool_decide as Hd; [by rewrite feed_full|].
  destruct (Z.ltb_spec (Z.of_nat (length l)) (target c - segLen c)) as [Hn|Hn];
    [rewrite feed_short by lia; done|].
  set (need := target c - segLen c) in *.
  rewrite IH.
  - transitivity (foldl feed c (take (Z.to_nat need) l ++ drop (Z.to_nat need) l)); [|by rewrite take_drop].
    rewrite foldl_app.
    assert (length (take (Z.to_nat need) l) = Z.to_nat need) as Hlen by (rewrite length_take; lia).
    rewrite (feed_exact c (take (Z.to_nat need) l)) by lia. f_equal. unfold fill. rewrite Hlen. repeat f_equal. lia.
  - simpl. pose proof (next_target_pos (target c)). unfold next_target in *. lia.
  - rewrite length_drop. simpl in Hf. subst l. simpl in *. lia.
Qed.

Lemma feed_inv c x :
  0 <= segLen c < target c → 0 <= segLen (feed c x) < target (feed c x) ∧ sealed (feed c x) = sealed c.
Proof.
  intros Hc. unfold feed. case_bool_decide; [done|]. simpl.
  destruct (Z.ltb_spec (segLen c + 1) (target c)); simpl; [split; [lia|done]|].
  pose proof (next_target_pos (target c)). unfold next_target in *. split; [lia|done].
Qed.

Lemma foldl_feed_inv l : ∀ c,
  0 <= segLen c < target c →
  0 <= segLen (foldl feed c l) < target (foldl feed c l) ∧ sealed (foldl feed c l) = sealed c.
Proof.
  induction l as [|x l IH]; intros c Hc; simpl; [done|].
  destruct (feed_inv c x Hc) as [H1 H2]. destruct (IH _ H1) as [H3 H4]. split; [done|congruence].
Qed.

Lemma New_open tenant group bs :
  0 <= segLen (NewChain tenant group bs) < target (NewChain tenant group bs).
Proof. simpl. unfold DefaultBaseSegment. case_match; lia. Qed.

Lemma Write_fold c p :
  0 <= segLen c < target c → sealed c = false → Write c p = foldl feed c p.
Proof. intros Hc Hs. unfold Write. rewrite Hs. by apply write_fold. Qed.

(** ** Refinement of the reference *)

Lemma seal_reference f : ∀ c p,
  seg c = state c → segLen c = 0 → 0 < target c → sealed c = false → (length p <= f)%nat →
  (Seal (write_loop f c p)).2
  = digests c ++ map (take digestSize) (chain (state c) (segments (MaxDepth - depth c) (target c) p)).
Proof.
  induction f as [|f IH]; intros c p Hseg Hlen Ht Hs Hf.
  { destruct p; simpl in *; [|lia]. unfold Seal. rewrite Hs, Hlen. simpl.
    destruct (MaxDepth - depth c)%nat; simpl; by rewrite app_nil_r. }
  cbn [write_loop]. destruct p as [|x p].
  { unfold Seal. rewrite Hs, Hlen. simpl. destruct (MaxDepth - depth c)%nat; simpl; by rewrite app_nil_r. }
  set (l := x :: p) in *. assert (0 < length l)%nat by (simpl; lia).
  case_bool_decide as Hd.
  { replace (MaxDepth - depth c)%nat with 0%nat by lia. simpl. rewrite app_nil_r.
    unfold Seal. rewrite Hs, Hlen. done. }
  rewrite Hlen, Z.sub_0_r. assert (∃ n, MaxDepth - depth c = S n)%nat as [n En]
    by (exists (MaxDepth - depth c - 1)%nat; lia).
  assert (segments (S n) (target c) l
    = take (Z.to_nat (target c)) l :: segments n (next_target (target c)) (drop (Z.to_nat (target c)) l)) as Eseg by done.
  rewrite En, Eseg. destruct (Z.ltb_spec (Z.of_nat (length l)) (target c)) as [Hn|Hn].
  - rewrite take_ge, drop_ge by lia.
    assert (segments n (next_target (target c)) [] = []) as -> by (by destruct n).
    unfold Seal. simpl sealed. rewrite Hs. cbn [segLen]. rewrite (proj2 (Z.ltb_lt _ _)) by lia.
    cbn [depth]. rewrite bool_decide_eq_true_2 by lia. cbn [andb closeSegment digests seg segLen chain map].
    rewrite Hseg, <- app_assoc. done.
  - rewrite IH; [|done|done|simpl; apply (next_target_pos (target c)); lia|done|rewrite length_drop; simpl in *; lia].
    cbn [closeSegment digests state target depth segLen seg].
    replace (MaxDepth - S (depth c))%nat with n by lia. fold (next_target (target c)).
    rewrite Hseg, Z.add_0_l, <- !app_assoc. cbn [chain map app].
    rewrite length_take, Nat.min_l, Z2Nat.id by lia. done.
Qed.

Lemma compute_reference tenant group body bs :
  Compute tenant group body bs = reference tenant group body bs.
Proof.
  unfold Compute, Write. change (sealed (NewChain tenant group bs)) with false. cbv iota.
  rewrite seal_reference; try done. simpl. unfold DefaultBaseSegment. case_match; lia.
Qed.

(** The streaming computation of prefix digests equals the reference: cut the
    body into geometrically growing segments, at most 24 of them, fold the hash
    over them and truncate each state. *)
Theorem compute_is_reference tenant group body bs :
  Compute tenant group body bs = reference tenant group body bs.
Proof. apply compute_reference. Qed.

(** How the body is cut into [Write] calls does not matter: feeding it in any
    sequence of chunks gives the digests of feeding it whole. *)
Theorem compute_chunking tenant group bs chunks :
  (Seal (foldl Write (NewChain tenant group bs) chunks)).2 = Compute tenant group (concat chunks) bs.
Proof.
  unfold Compute. do 2 f_equal. rewrite Write_fold by (done || apply New_open).
  assert (∀ c, 0 <= segLen c < target c → sealed c = false →
    foldl Write c chunks = foldl feed c (concat chunks)) as Hgen; [|by apply Hgen; [apply New_open|]].
  induction chunks as [|p chunks IH]; intros c Hc Hs; simpl; [done|].
  rewrite foldl_app, (Write_fold c p) by done. destruct (foldl_feed_inv p c Hc) as [H1 H2].
  apply IH; [done|congruence].
Qed.

(** ** What a match proves *)

(** Two inputs with the same digest. *)
Definition collision : Prop := ∃ x y, x ≠ y ∧ take digestSize (H x) = take digestSize (H y).

Lemma same_or_collision x y : take digestSize (H x) = take digestSize (H y) → x = y ∨ collision.
Proof. intros E. destruct (decide (x = y)); [by left|]. right. by exists x, y. Qed.

Lemma block_inj h s h' s' :
  length h = length h' →
  h ++ s ++ PutUint64 (Z.of_nat (length s)) = h' ++ s' ++ PutUint64 (Z.of_nat (length s')) → h = h' ∧ s = s'.
Proof.
  intros Hl [-> E]%app_inj_1; [|done]. split; [done|].
  apply (f_equal length) in E as El. rewrite !length_app in El. simpl in El.
  by apply app_inj_1 in E as [-> _]; [|lia].
Qed.

Lemma chain_inj (Hsize : ∀ x, length (H x) = stateSize) i : ∀ h segs h' segs' a b,
  length h = stateSize → length h' = stateSize →
  chain h segs !! i = Some a → chain h' segs' !! i = Some b → take digestSize a = take digestSize b →
  (h = h' ∧ take (S i) segs = take (S i) segs') ∨ collision.
Proof.
  induction i as [|i IH]; intros h [|s segs] h' [|s' segs'] a b Hh Hh' Ha Hb E; try done; simpl in *.
  - simplify_eq. apply same_or_collision in E as [E|?]; [|by right].
    apply block_inj in E as [-> ->]; [|congruence]. left. by rewrite !take_0.
  - destruct (IH _ _ _ _ _ _ (Hsize _) (Hsize _) Ha Hb E) as [[E1 E2]|?]; [|by right].
    apply (f_equal (take digestSize)) in E1. apply same_or_collision in E1 as [E1|?]; [|by right].
    apply block_inj in E1 as [-> ->]; [|congruence]. left. split; [done|]. by f_equal.
Qed.

Lemma segments_prefix n : ∀ t body j, concat (take j (segments n t body)) `prefix_of` body.
Proof.
  induction n as [|n IH]; intros t body j; simpl; [rewrite take_nil; apply prefix_nil|].
  destruct body as [|x body]; [rewrite take_nil; apply prefix_nil|].
  destruct j as [|j]; [apply prefix_nil|]. cbn [take concat].
  pose proof (prefix_app (take (Z.to_nat t) (x :: body)) _ _
    (IH (next_target t) (drop (Z.to_nat t) (x :: body)) j)) as Hp. by rewrite take_drop in Hp.
Qed.

Lemma seed_inj t g t' g' :
  0 ∉ t → 0 ∉ t' → seed_bytes t g = seed_bytes t' g' → t = t' ∧ g = g'.
Proof.
  unfold seed_bytes. revert t'. induction t as [|x t IH]; intros [|x' t'] Ht Ht' E; simpl in E.
  - by injection E as ->.
  - injection E as <- _. by destruct Ht'; left.
  - injection E as -> _. by destruct Ht; left.
  - injection E as -> E. apply not_elem_of_cons in Ht as [_ Ht]. apply not_elem_of_cons in Ht' as [_ Ht'].
    by destruct (IH t' Ht Ht' E) as [-> ->].
Qed.

(** A digest match at depth [i] proves that the two requests come from the same
    tenant and model group and that their first [i] segments are the same bytes
    in the same order, so the matched bytes are a prefix of both bodies; the only
    alternative is an explicit collision of the truncated hash. *)
Theorem match_proves_prefix tenant group body bs tenant' group' body' bs' i d :
  (∀ x, length (H x) = stateSize) → 0 ∉ tenant → 0 ∉ tenant' →
  Compute tenant group body bs !! i = Some d → Compute tenant' group' body' bs' !! i = Some d →
  (tenant = tenant' ∧ group = group'
   ∧ let matched := take (S i) (segments MaxDepth (base_of bs) body) in
     matched = take (S i) (segments MaxDepth (base_of bs') body')
     ∧ concat matched `prefix_of` body ∧ concat matched `prefix_of` body')
  ∨ collision.
Proof.
  intros Hsize Ht Ht' E E'.
  assert (∀ t g bd b, Compute t g bd b !! i = Some d →
    ∃ a, chain (H (seed_bytes t g)) (segments MaxDepth (base_of b) bd) !! i = Some a ∧ d = take digestSize a) as Hc.
  { intros t g bd b. rewrite compute_reference. unfold reference. rewrite list_lookup_fmap. intros (a & ? & ?)%fmap_Some. eauto. }
  apply Hc in E as (a & Ha & ->). apply Hc in E' as (b & Hb & Eab).
  destruct (chain_inj Hsize i _ _ _ _ _ _ (Hsize _) (Hsize _) Ha Hb Eab) as [[Eh Es]|?]; [|by right].
  apply (f_equal (take digestSize)) in Eh. apply same_or_collision in Eh as [Eh|?]; [|by right].
  apply seed_inj in Eh as [-> ->]; [|done..]. left. split; [done|]. split; [done|]. split_and!; [done| |].
  - apply segments_prefix.
  - rewrite Es. apply segments_prefix.
Qed.
End Chain.

(** A toy hash of the right size, to run the statements. *)
Definition toy_hash (x : list Z) : list Z :=
  replicate 32 (foldl (λ a b, (a * 31 + b + 1) mod 65536) 7 x).

Lemma match_proves_prefix_witness :
  let c b := Compute toy_hash [1; 2] [3] b 2 in
  c [10; 11; 12] !! 0%nat = c [10; 11; 99; 98] !! 0%nat
  ∧ (([1; 2] = [1; 2] ∧ [3] = [3]
      ∧ let matched := take 1 (segments MaxDepth (base_of 2) [10; 11; 12]) in
        matched = take 1 (segments MaxDepth (base_of 2) [10; 11; 99; 98])
        ∧ concat matched `prefix_of` [10; 11; 12] ∧ concat matched `prefix_of` [10; 11; 99; 98])
     ∨ collision toy_hash).
Proof.
  intros c. split; [reflexivity|].
  apply (match_proves_prefix toy_hash [1; 2] [3] [10; 11; 12] 2 [1; 2] [3] [10; 11; 99; 98] 2 0
    (take 16 (toy_hash (toy_hash [1; 2; 0; 3] ++ [10; 11] ++ PutUint64 2)))).
  - intros x. apply length_replicate.
  - rewrite !not_elem_of_cons. split; [lia|]. split; [lia|apply not_elem_of_nil].
  - rewrite !not_elem_of_cons. split; [lia|]. split; [lia|apply not_elem_of_nil].
  - reflexivity.
  - reflexivity.
Defined.
