(* ===== verification/PrefixTable.v ===== *)
(** * The prefix table ([internal/prefix/table.go])

    Digests to deployments, sharded by the first digest byte, bounded by bytes.
    Every operation is a function on the table; the clock is an argument. The
    order in which equally old entries are evicted follows Go's map iteration and
    an unstable sort, so the victim order is a parameter constrained only to be a
    sorted enumeration of the shard. *)
From stdpp Require Import base gmap list strings sorting.
From Stdlib Require Import ZArith Lia.
From S2P Require Import Prelude.
Open Scope Z_scope.
#[local] Set Default Proof Using "Type*".

Definition Digest : Type := list Z.

Definition entryBytes : Z := 112.
Definition shardCount : nat := 64.
Definition neverExpires : Z := -1.

Record entry : Type := mkEntry { etarget : Z; edepth : Z; lastSeen : Z; ehits : Z }.

(** [curBytes], [lookups], [hits] and [evicted] are the atomic counters;
    [perTarget] the swapped pointer, [None] for nil. *)
Record Table : Type := mkTable {
  shards : list (gmap Digest entry); maxBytes : Z; curBytes : Z; tttl : Z;
  perTarget : option (list Z); lookups : Z; hits : Z; evicted : Z }.

Definition set_shard (t : Table) (i : nat) (s : gmap Digest entry) : Table :=
  mkTable (<[i := s]> (shards t)) (maxBytes t) (curBytes t) (tttl t) (perTarget t) (lookups t) (hits t) (evicted t).
Definition add_bytes (t : Table) (n : Z) : Table :=
  mkTable (shards t) (maxBytes t) (curBytes t + n) (tttl t) (perTarget t) (lookups t) (hits t) (evicted t).
Definition add_evicted (t : Table) (n : Z) : Table :=
  mkTable (shards t) (maxBytes t) (curBytes t) (tttl t) (perTarget t) (lookups t) (hits t) (u64 (evicted t + n)).
Definition shard (t : Table) (i : nat) : gmap Digest entry := default ∅ (shards t !! i).

Definition hour : Z := 3600 * 1000000000.

Definition NewTable (max ttl : Z) : Table :=
  mkTable (replicate shardCount ∅) (if max <=? 0 then 64 * 2 ^ 20 else max) 0
    (if ttl =? 0 then hour else if ttl <? 0 then neverExpires else ttl) None 0 0 0.

(** The digest is 16 bytes long, so its first byte exists. *)
Definition shardFor (d : Digest) : nat := Z.to_nat (nth 0 d 0 mod Z.of_nat shardCount).

Definition SetTargetTTLs (t : Table) (ttls : list Z) : Table :=
  mkTable (shards t) (maxBytes t) (curBytes t) (tttl t)
    (match ttls with [] => None | _ => Some ttls end) (lookups t) (hits t) (evicted t).

Definition ttlFor (t : Table) (target : Z) : Z :=
  match perTarget t with
  | Some s => match s !! Z.to_nat target with
              | Some d => if d =? 0 then tttl t else d
              | None => tttl t
              end
  | None => tttl t
  end.

Definition liveAt (t : Table) (e : entry) (now : Z) : bool :=
  let ttl := ttlFor t (etarget e) in
  if ttl <? 0 then true else now - ttl <=? lastSeen e.

(** The search, deepest first; [ds] is the remaining digests in that order. *)
Fixpoint lookup_loop (t : Table) (ds : list Digest) (valid : Z → bool) (now now' : Z)
  : Table * option (Z * Z) :=
  match ds with
  | [] => (t, None)
  | d :: ds' =>
      match shard t (shardFor d) !! d with
      | Some e =>
          if liveAt t e now && valid (etarget e) then
            let e' := mkEntry (etarget e) (edepth e) now' (u32 (ehits e + 1)) in
            let t := set_shard t (shardFor d) (<[d := e']> (shard t (shardFor d))) in
            (mkTable (shards t) (maxBytes t) (curBytes t) (tttl t) (perTarget t) (lookups t)
               (u64 (hits t + 1)) (evicted t), Some (etarget e, edepth e))
          else lookup_loop t ds' valid now now'
      | None => lookup_loop t ds' valid now now'
      end
  end.

(** [now] and [now'] are the two readings of the clock. *)
Definition Lookup (t : Table) (digests : list Digest) (valid : Z → bool) (now now' : Z)
  : Table * option (Z * Z) :=
  let t := mkTable (shards t) (maxBytes t) (curBytes t) (tttl t) (perTarget t)
             (u64 (lookups t + 1)) (hits t) (evicted t) in
  lookup_loop t (reverse digests) valid now now'.

(** One digest of [Record], at index [i]. *)
Definition record_one (t : Table) (target now : Z) (i : nat) (d : Digest) : Table :=
  let s := shard t (shardFor d) in
  let t := match s !! d with Some _ => t | None => add_bytes t entryBytes end in
  set_shard t (shardFor d) (<[d := mkEntry target (u8 (Z.of_nat i + 1)) now 0]> s).

Fixpoint record_loop (t : Table) (target now : Z) (i : nat) (ds : list Digest) : Table :=
  match ds with
  | [] => t
  | d :: ds' => record_loop (record_one t target now i d) target now (S i) ds'
  end.

Section Evict.
(** The keys of a shard in the order they are evicted in. *)
Variable coldest : gmap Digest entry → list Digest.

(** Pass one of [evict] on one shard: expired entries go. *)
Definition expire_shard (t : Table) (now : Z) (i : nat) : Table :=
  let s := shard t i in
  let s' := filter (λ kv : Digest * entry, liveAt t kv.2 now = true) s in
  let n := Z.of_nat (size s - size s') in
  add_evicted (add_bytes (set_shard t i s') (- (n * entryBytes))) n.

(** Stops early with [true] when the table is back under [target]. *)
Fixpoint expire_loop (t : Table) (now target : Z) (ixs : list nat) : Table * bool :=
  match ixs with
  | [] => (t, false)
  | i :: ixs' =>
      let t := expire_shard t now i in
      if curBytes t <=? target then (t, true) else expire_loop t now target ixs'
  end.

Definition evictColdest (t : Table) (i : nat) (k : Z) : Table * Z :=
  if k <=? 0 then (t, 0)
  else
    let s := shard t i in
    let n := Z.of_nat (size s) in
    if n =? 0 then (t, 0)
    else if n <=? k then
      (add_evicted (add_bytes (set_shard t i ∅) (- (n * entryBytes))) n, n)
    else
      let vs := take (Z.to_nat k) (coldest s) in
      (add_evicted (add_bytes (set_shard t i (foldl (λ s d, delete d s) s vs)) (- (k * entryBytes))) k, k).

Fixpoint share_loop (t : Table) (need : Z) (ixs : list nat) : Table * Z :=
  match ixs with
  | [] => (t, need)
  | i :: ixs' =>
      if need <=? 0 then (t, need)
      else
        let share := Z.quot (need + Z.of_nat shardCount - Z.of_nat i - 1) (Z.of_nat shardCount - Z.of_nat i) in
        let '(t, n) := evictColdest t i share in share_loop t (need - n) ixs'
  end.

Fixpoint topup_loop (t : Table) (need : Z) (ixs : list nat) : Table * Z :=
  match ixs with
  | [] => (t, need)
  | i :: ixs' =>
      if need <=? 0 then (t, need)
      else let '(t, n) := evictColdest t i need in topup_loop t (need - n) ixs'
  end.

Definition evict_target (t : Table) : Z := maxBytes t - Z.quot (maxBytes t) 8.

Definition evict (t : Table) (now : Z) : Table :=
  let target := evict_target t in
  let '(t, done) := expire_loop t now target (seq 0 shardCount) in
  if done then t
  else
    let need := Z.quot (curBytes t - target + entryBytes - 1) entryBytes in
    let '(t, need) := share_loop t need (seq 0 shardCount) in
    (topup_loop t need (seq 0 shardCount)).1.

(** [now'] is the reading of the clock [evict] takes. *)
Definition Record_ (t : Table) (digests : list Digest) (target now now' : Z) : Table :=
  let t := record_loop t target now 0 digests in
  if maxBytes t <? curBytes t then evict t now' else t.
End Evict.

Definition Stats (t : Table) : Z * Z * Z * Z := (lookups t, hits t, evicted t, curBytes t).

Definition Table_Len (t : Table) : nat := sum_list_with size (shards t).

(** ** Interned deployment names *)

Record Interner : Type := mkInterner { ids : gmap string Z; back : list string }.

Definition NewInterner : Interner := mkInterner ∅ [].

Definition Interner_ID (it : Interner) (name : string) : Interner * Z :=
  match ids it !! name with
  | Some id => (it, id)
  | None =>
      let id := u32 (Z.of_nat (length (back it))) in
      (mkInterner (<[name := id]> (ids it)) (back it ++ [name]), id)
  end.

Definition Interner_Name (it : Interner) (id : Z) : option string := back it !! Z.to_nat id.

(** ** Invariant *)

(** 64 shards, every key in the shard its first byte selects, and [curBytes] the
    exact charge for the entries held. *)
Record twf (t : Table) : Prop := {
  tw_len : length (shards t) = shardCount;
  tw_bytes : curBytes t = entryBytes * Z.of_nat (Table_Len t);
  tw_place : ∀ i d, is_Some (shard t i !! d) → shardFor d = i }.

Lemma shardFor_lt d : (shardFor d < shardCount)%nat.
Proof. unfold shardFor, shardCount. pose proof (Z.mod_pos_bound (nth 0 d 0) 64 ltac:(lia)). lia. Qed.

Lemma sum_insert (l : list (gmap Digest entry)) i s :
  (i < length l)%nat →
  (sum_list_with size (<[i := s]> l) + size (default ∅ (l !! i)) = sum_list_with size l + size s)%nat.
Proof.
  revert i. induction l as [|x l IH]; intros [|i] Hi; simpl in *; try lia.
  specialize (IH i ltac:(lia)). lia.
Qed.

Lemma shard_set t i s j :
  (i < length (shards t))%nat → shard (set_shard t i s) j = if decide (j = i) then s else shard t j.
Proof.
  intros Hi. unfold shard, set_shard; simpl. case_decide; subst.
  - by rewrite list_lookup_insert_eq.
  - by rewrite list_lookup_insert_ne.
Qed.

(** Replacing a shard and charging the difference keeps the invariant. *)
Lemma twf_set t t' i s :
  twf t → (i < shardCount)%nat → shards t' = <[i := s]> (shards t) →
  curBytes t' = curBytes t + entryBytes * (Z.of_nat (size s) - Z.of_nat (size (shard t i))) →
  (∀ d, is_Some (s !! d) → shardFor d = i) → twf t'.
Proof.
  intros [Hl Hb Hp] Hi Es Eb Hs. split.
  - by rewrite Es, length_insert.
  - rewrite Eb, Hb. unfold Table_Len. rewrite Es.
    pose proof (sum_insert (shards t) i s ltac:(lia)) as E. unfold shard. lia.
  - intros j d. assert (shard t' j = if decide (j = i) then s else shard t j) as ->.
    { unfold shard at 1. rewrite Es. apply (shard_set t i s j). lia. }
    case_decide; [subst; apply Hs|apply Hp].
Qed.

Lemma twf_same t t' :
  shards t' = shards t → curBytes t' = curBytes t → twf t → twf t'.
Proof.
  intros Es Eb [Hl Hb Hp]. split; [by rewrite Es|unfold Table_Len; by rewrite Eb, Es|].
  unfold shard. by rewrite Es.
Qed.

Lemma twf_New max ttl : twf (NewTable max ttl).
Proof.
  split.
  - done.
  - vm_compute. done.
  - intros i d [e He]. unfold shard, NewTable in He. cbn [shards] in He.
    destruct (replicate shardCount (∅ : gmap Digest entry) !! i) as [s|] eqn:E; rewrite ?E in He;
      simpl in He.
    + apply lookup_replicate in E as [-> _]. by rewrite lookup_empty in He.
    + by rewrite lookup_empty in He.
Qed.

Lemma twf_record_one t target now i d :
  twf t → twf (record_one t target now i d) ∧ maxBytes (record_one t target now i d) = maxBytes t.
Proof.
  intros Ht. pose proof (shardFor_lt d) as Hi. split; [|unfold record_one; by case_match].
  unfold record_one. eapply (twf_set t _ (shardFor d)); [done|done| | |].
  - by case_match.
  - destruct (shard t (shardFor d) !! d) as [e|] eqn:E; simpl.
    + rewrite map_size_insert_Some by eauto. lia.
    + rewrite map_size_insert_None by done. lia.
  - intros d' [e' He']. destruct (decide (d' = d)) as [->|]; [done|].
    rewrite lookup_insert_ne in He' by done. by apply (tw_place t Ht); eexists.
Qed.

Lemma twf_record_loop ds : ∀ t target now i,
  twf t → twf (record_loop t target now i ds) ∧ maxBytes (record_loop t target now i ds) = maxBytes t.
Proof.
  induction ds as [|d ds IH]; intros t target now i Ht; simpl; [done|].
  destruct (twf_record_one t target now i d Ht) as [H1 H2]. destruct (IH _ target now (S i) H1) as [H3 H4].
  split; [done|congruence].
Qed.

(** ** Eviction *)

(** Charges are linear in the number of entries. *)
Ltac charge := cbn [curBytes add_evicted add_bytes set_shard]; unfold entryBytes; lia.

Lemma expire_shard_spec t now i :
  twf t → (i < shardCount)%nat →
  twf (expire_shard t now i) ∧ maxBytes (expire_shard t now i) = maxBytes t.
Proof.
  intros Ht Hi. split; [|done]. unfold expire_shard. set (s' := filter _ _).
  assert (size s' <= size (shard t i))%nat as Hs by (apply map_size_filter).
  eapply (twf_set t _ i s'); [done|done|done|charge|].
  intros d [e He]. apply map_lookup_filter_Some in He as [He _]. by apply (tw_place t Ht); eexists.
Qed.

Lemma expire_loop_spec ixs : ∀ t now target t' stop,
  twf t → (∀ i, i ∈ ixs → (i < shardCount)%nat) → expire_loop t now target ixs = (t', stop) →
  twf t' ∧ maxBytes t' = maxBytes t ∧ (stop = true → curBytes t' <= target)
  ∧ (stop = false → ixs ≠ [] → target < curBytes t').
Proof.
  induction ixs as [|i ixs IH]; intros t now target t' stop Ht Hi E; cbn [expire_loop] in E;
    [simplify_eq; by split_and!|].
  destruct (expire_shard_spec t now i Ht) as [H1 H2]; [apply Hi; by left|].
  destruct (Z.leb_spec (curBytes (expire_shard t now i)) target); [simplify_eq; by split_and!|].
  destruct (IH _ _ _ _ _ H1 ltac:(intros ??; apply Hi; by right) E) as (? & ? & ? & Hgt).
  split_and!; [done|congruence|done|]. intros Hs _. destruct ixs; [|by apply Hgt].
  simpl in E. by simplify_eq.
Qed.

Section EvictProps.
Variable coldest : gmap Digest entry → list Digest.
(** The victim order lists every key of the shard once. *)
Hypothesis coldest_keys : ∀ s, coldest s ≡ₚ (map_to_list s).*1.

Lemma delete_all (vs : list Digest) : ∀ s : gmap Digest entry,
  NoDup vs → (∀ d, d ∈ vs → is_Some (s !! d)) →
  size (foldl (λ s d, delete d s) s vs) = (size s - length vs)%nat
  ∧ ∀ d, foldl (λ s d, delete d s) s vs !! d = if decide (d ∈ vs) then None else s !! d.
Proof.
  clear coldest coldest_keys.
  induction vs as [|v vs IH]; intros s Hnd Hin; simpl; [split; [lia|done]|].
  apply NoDup_cons in Hnd as [Hv Hnd]. destruct (Hin v ltac:(by left)) as [e He].
  destruct (IH (delete v s) Hnd) as [H1 H2].
  { intros d Hd. rewrite lookup_delete_ne by (intros ->; done). apply Hin. by right. }
  split.
  - rewrite H1. rewrite map_size_delete_Some by eauto. lia.
  - intros d. rewrite H2. destruct (decide (d = v)) as [->|Hne].
    + rewrite decide_False, decide_True, lookup_delete_eq by (done || by left). done.
    + rewrite lookup_delete_ne by done. destruct (decide (d ∈ vs)).
      * by rewrite decide_True by (by right).
      * by rewrite decide_False by (rewrite elem_of_cons; tauto).
Qed.

Lemma coldest_size s : length (coldest s) = size s.
Proof. rewrite coldest_keys, length_fmap. apply length_map_to_list. Qed.

(** [evictColdest] drops exactly [min k n] entries, the oldest ones, and charges
    for what it drops. *)
Lemma evictColdest_spec t i k t' n :
  twf t → (i < shardCount)%nat → evictColdest coldest t i k = (t', n) →
  twf t' ∧ maxBytes t' = maxBytes t
  ∧ n = Z.max 0 (Z.min k (Z.of_nat (size (shard t i))))
  ∧ curBytes t' = curBytes t - n * entryBytes
  ∧ (∀ j, j ≠ i → shard t' j = shard t j) ∧ Z.of_nat (size (shard t' i)) = Z.of_nat (size (shard t i)) - n.
Proof.
  intros Ht Hi. pose proof (tw_len t Ht) as Hlen. unfold evictColdest.
  destruct (Z.leb_spec k 0); [intros; simplify_eq; split_and!; (done || lia)|].
  destruct (Z.eqb_spec (Z.of_nat (size (shard t i))) 0); [intros; simplify_eq; split_and!; (done || lia)|].
  assert (∀ s z, shards (add_evicted (add_bytes (set_shard t i s) z) n) = <[i := s]> (shards t)) as Esh by done.
  assert (∀ s z z' j, shard (add_evicted (add_bytes (set_shard t i s) z) z') j = if decide (j = i) then s else shard t j) as Es.
  { intros s z z' j. apply (shard_set t i s j). lia. }
  destruct (Z.leb_spec (Z.of_nat (size (shard t i))) k); intros; simplify_eq.
  - split_and!; [|done|lia|charge| |].
    + eapply (twf_set t _ i ∅); [done|done|done|rewrite map_size_empty; charge|].
      intros d [e He]. by rewrite lookup_empty in He.
    + intros j Hj. by rewrite Es, decide_False.
    + rewrite Es, decide_True by done. rewrite map_size_empty. lia.
  - set (vs := take (Z.to_nat n) (coldest (shard t i))).
    assert (NoDup (coldest (shard t i))) as Hnd by (rewrite coldest_keys; apply NoDup_fst_map_to_list).
    destruct (delete_all vs (shard t i)) as [Hsz Hlk].
    { rewrite <- (take_drop (Z.to_nat n) (coldest (shard t i))) in Hnd. by apply NoDup_app in Hnd as [? _]. }
    { intros d Hd%elem_of_take. destruct Hd as (j & Hj & _). apply list_elem_of_lookup_2 in Hj.
      rewrite coldest_keys in Hj. apply list_elem_of_fmap in Hj as ([d' e] & -> & Hj).
      apply elem_of_map_to_list in Hj. by eexists. }
    assert (length vs = Z.to_nat n) as Hvl by (unfold vs; rewrite length_take, coldest_size; lia).
    split_and!; [|done|lia|charge| |].
    + eapply (twf_set t _ i); [done|done|done|rewrite Hsz, Hvl; charge|].
      intros d [e He]. rewrite Hlk in He. case_decide; [done|]. by apply (tw_place t Ht); eexists.
    + intros j Hj. by rewrite Es, decide_False.
    + rewrite Es, decide_True by done. rewrite Hsz, Hvl. lia.
Qed.

Lemma share_loop_spec ixs : ∀ t need t' need',
  twf t → (∀ i, i ∈ ixs → (i < shardCount)%nat) → share_loop coldest t need ixs = (t', need') →
  twf t' ∧ maxBytes t' = maxBytes t ∧ curBytes t' = curBytes t - (need - need') * entryBytes.
Proof using coldest coldest_keys.
  induction ixs as [|i ixs IH]; intros t need t' need' Ht Hi E; cbn [share_loop] in E.
  { simplify_eq. split_and!; try done. lia. }
  destruct (Z.leb_spec need 0); [simplify_eq; split_and!; try done; lia|].
  destruct (evictColdest _ _ _ _) as [t1 n] eqn:Ev.
  destruct (evictColdest_spec _ _ _ _ _ Ht (Hi i ltac:(by left)) Ev) as (H1 & H2 & _ & H4 & _).
  destruct (IH _ _ _ _ H1 ltac:(intros ??; apply Hi; by right) E) as (? & ? & ?).
  split_and!; [done|congruence|lia].
Qed.

Lemma topup_loop_spec ixs : ∀ t need t' need',
  twf t → NoDup ixs → (∀ i, i ∈ ixs → (i < shardCount)%nat) → topup_loop coldest t need ixs = (t', need') →
  twf t' ∧ maxBytes t' = maxBytes t ∧ curBytes t' = curBytes t - (need - need') * entryBytes
  ∧ need' <= need ∧ (∀ i, i ∉ ixs → shard t' i = shard t i)
  ∧ (0 < need' → ∀ i, i ∈ ixs → size (shard t' i) = 0%nat).
Proof using coldest coldest_keys.
  induction ixs as [|i ixs IH]; intros t need t' need' Ht Hnd Hi E; cbn [topup_loop] in E.
  { simplify_eq. split_and!; try done; [lia|]. by intros _ i ?%not_elem_of_nil. }
  destruct (Z.leb_spec need 0); [simplify_eq; split_and!; try done; lia|].
  apply NoDup_cons in Hnd as [Hni Hnd]. destruct (evictColdest _ _ _ _) as [t1 n] eqn:Ev.
  destruct (evictColdest_spec _ _ _ _ _ Ht (Hi i ltac:(by left)) Ev) as (H1 & H2 & H3 & H4 & H5 & H6).
  destruct (IH _ _ _ _ H1 Hnd ltac:(intros ??; apply Hi; by right) E) as (? & ? & ? & ? & Ho & Hz).
  split_and!; [done|congruence|lia|lia| |].
  - intros j [Hj Hj']%not_elem_of_cons. rewrite Ho by done. by apply H5.
  - intros Hpos j [->|Hj]%elem_of_cons; [|by apply Hz]. rewrite Ho by done. lia.
Qed.

Lemma empty_shards t :
  twf t → (∀ i, (i < shardCount)%nat → size (shard t i) = 0%nat) → curBytes t = 0.
Proof.
  clear coldest coldest_keys. intros [Hl Hb _] Hz. rewrite Hb. replace (Table_Len t) with 0%nat; [done|].
  unfold Table_Len, shard in *. rewrite <- Hl in Hz. clear Hl Hb.
  induction (shards t) as [|s l IH]; simpl; [done|]. pose proof (Hz 0%nat ltac:(simpl; lia)) as H0. simpl in H0.
  rewrite <- IH; [lia|]. intros i Hi. apply (Hz (S i)). simpl. lia.
Qed.

Lemma evict_spec t now :
  twf t → 0 <= maxBytes t →
  twf (evict coldest t now) ∧ maxBytes (evict coldest t now) = maxBytes t
  ∧ curBytes (evict coldest t now) <= evict_target t.
Proof using coldest coldest_keys.
  intros Ht Hm. unfold evict.
  assert (∀ i, i ∈ seq 0 shardCount → (i < shardCount)%nat) as Hi by (intros i Hi%elem_of_seq; lia).
  destruct (expire_loop _ _ _ _) as [t1 stop] eqn:E1.
  destruct (expire_loop_spec _ _ _ _ _ _ Ht Hi E1) as (H1 & M1 & Hstop & Hgt). destruct stop; [by split_and!; auto|].
  specialize (Hgt eq_refl ltac:(done)).
  set (need := Z.quot _ _). destruct (share_loop _ _ _ _) as [t2 need2] eqn:E2.
  destruct (share_loop_spec _ _ _ _ _ H1 Hi E2) as (H2 & M2 & B2).
  destruct (topup_loop _ _ _ _) as [t3 need3] eqn:E3.
  destruct (topup_loop_spec _ _ _ _ _ H2 (NoDup_seq _ _) Hi E3) as (H3 & M3 & B3 & _ & _ & Hz).
  simpl. split_and!; [done|congruence|].
  assert (0 <= evict_target t) as Htg.
  { unfold evict_target. rewrite Z.quot_div_nonneg by lia.
    pose proof (Z.div_le_upper_bound (maxBytes t) 8 (maxBytes t) ltac:(lia) ltac:(lia)). lia. }
  destruct (Z.leb_spec need3 0) as [Hn|Hn].
  - assert (curBytes t1 - evict_target t <= need * entryBytes);
      [|clearbody need; unfold entryBytes in *; lia].
    unfold need. set (x := curBytes t1 - evict_target t). unfold entryBytes.
    rewrite Z.quot_div_nonneg by lia. pose proof (Z.mul_succ_div_gt (x + 112 - 1) 112 ltac:(lia)). lia.
  - rewrite (empty_shards t3 H3); [lia|]. intros i Hlt. apply Hz; [done|]. apply elem_of_seq. lia.
Qed.

(** The byte budget: after [Record], whatever was in the table, whatever the
    clock and whatever the victim order, the table is at or below its budget and
    its byte counter is exactly the charge of the entries it holds; one sweep of
    the eviction is enough. *)
Theorem record_within_budget t ds target now now' :
  twf t → 0 <= maxBytes t →
  let t' := Record_ coldest t ds target now now' in
  curBytes t' <= maxBytes t' ∧ curBytes t' = entryBytes * Z.of_nat (Table_Len t') ∧ maxBytes t' = maxBytes t.
Proof using coldest coldest_keys.
  intros Ht Hm. unfold Record_. destruct (twf_record_loop ds t target now 0 Ht) as [H1 M1].
  set (t1 := record_loop _ _ _ _ _) in *. destruct (Z.ltb_spec (maxBytes t1) (curBytes t1)).
  - destruct (evict_spec t1 now' H1 ltac:(lia)) as (H2 & M2 & B2). split_and!; [|apply H2|congruence].
    rewrite M2. unfold evict_target in B2. rewrite Z.quot_div_nonneg in B2 by lia.
    pose proof (Z.div_pos (maxBytes t1) 8). lia.
  - split_and!; [done|apply H1|done].
Qed.
End EvictProps.

(** ** Lookup and record *)

(** The entry of a digest, and whether [Lookup] accepts it. *)
Definition get (t : Table) (d : Digest) : option entry := shard t (shardFor d) !! d.
Definition hit (t : Table) (valid : Z → bool) (now : Z) (d : Digest) : bool :=
  match get t d with Some e => liveAt t e now && valid (etarget e) | None => false end.

Lemma lookup_loop_spec l : ∀ t valid now now' t' r,
  twf t → lookup_loop t l valid now now' = (t', r) →
  twf t' ∧ match r with
  | Some (tg, dp) => ∃ pre d post e, l = pre ++ d :: post ∧ get t d = Some e ∧ hit t valid now d = true
      ∧ tg = etarget e ∧ dp = edepth e ∧ ∀ d', d' ∈ pre → hit t valid now d' = false
  | None => ∀ d, d ∈ l → hit t valid now d = false
  end.
Proof.
  induction l as [|d l IH]; intros t valid now now' t' r Ht E; simpl in E.
  { simplify_eq. split; [done|]. by intros d ?%not_elem_of_nil. }
  assert (hit t valid now d = false → lookup_loop t l valid now now' = (t', r) →
    twf t' ∧ match r with
    | Some (tg, dp) => ∃ pre d0 post e, d :: l = pre ++ d0 :: post ∧ get t d0 = Some e
        ∧ hit t valid now d0 = true ∧ tg = etarget e ∧ dp = edepth e ∧ ∀ d', d' ∈ pre → hit t valid now d' = false
    | None => ∀ d0, d0 ∈ d :: l → hit t valid now d0 = false
    end) as Hskip.
  { intros Hd E'. destruct (IH _ _ _ _ _ _ Ht E') as [H1 H2]. split; [done|]. destruct r as [[tg dp]|].
    - destruct H2 as (pre & d0 & post & e & -> & ? & ? & ? & ? & Hpre).
      exists (d :: pre), d0, post, e. split_and!; try done. intros d' [->|?]%elem_of_cons; auto.
    - intros d' [->|?]%elem_of_cons; auto. }
  destruct (shard t (shardFor d) !! d) as [e|] eqn:Ee; [|apply Hskip; [unfold hit, get; by rewrite Ee|done]].
  destruct (liveAt t e now && valid (etarget e)) eqn:Hh; [|apply Hskip; [unfold hit, get; by rewrite Ee|done]]. clear Hskip. simplify_eq. split.
  - eapply (twf_set t _ (shardFor d)); [done|apply shardFor_lt|done| |].
    + rewrite map_size_insert_Some by eauto. simpl. lia.
    + intros d' [e' He']. destruct (decide (d' = d)) as [->|]; [done|].
      rewrite lookup_insert_ne in He' by done. by apply (tw_place t Ht); eexists.
  - exists [], d, l, e. unfold hit, get. rewrite Ee. split_and!; try done. by intros d' ?%not_elem_of_nil.
Qed.

(** The longest common prefix wins: [Lookup] answers with the deepest digest
    that has a live entry with an acceptable target, and misses only when no
    digest has one; the table stays well formed. *)
Theorem lookup_deepest t ds valid now now' t' r :
  twf t → Lookup t ds valid now now' = (t', r) →
  twf t' ∧ match r with
  | Some (tg, dp) => ∃ shallower d deeper e, ds = shallower ++ d :: deeper
      ∧ get t d = Some e ∧ hit t valid now d = true ∧ tg = etarget e ∧ dp = edepth e
      ∧ ∀ d', d' ∈ deeper → hit t valid now d' = false
  | None => ∀ d, d ∈ ds → hit t valid now d = false
  end.
Proof.
  intros Ht E. unfold Lookup in E. apply lookup_loop_spec in E as [H1 H2]; [|by apply (twf_same t)].
  split; [done|]. destruct r as [[tg dp]|].
  - destruct H2 as (pre & d & post & e & El & ? & ? & ? & ? & Hpre).
    exists (reverse post), d, (reverse pre), e. split_and!; try done.
    + rewrite <- (reverse_involutive ds), El, reverse_app, reverse_cons. by rewrite <- app_assoc.
    + intros d' Hd'. apply Hpre. by rewrite elem_of_reverse in Hd'.
  - intros d Hd. apply H2. by rewrite elem_of_reverse.
Qed.

Lemma get_record_one t target now i d d' :
  twf t → get (record_one t target now i d) d'
  = if decide (d' = d) then Some (mkEntry target (u8 (Z.of_nat i + 1)) now 0) else get t d'.
Proof.
  intros Ht. unfold get, record_one. set (t1 := match _ with Some _ => t | None => _ end).
  assert (shards t1 = shards t) as E1 by (unfold t1; by case_match).
  rewrite shard_set by (rewrite E1, (tw_len t Ht); apply shardFor_lt).
  assert (∀ j, shard t1 j = shard t j) as Es by (intros j; unfold shard; by rewrite E1).
  destruct (decide (d' = d)) as [->|Hne]; [by rewrite decide_True, lookup_insert_eq|].
  destruct (decide (shardFor d' = shardFor d)) as [->|]; [by rewrite lookup_insert_ne|by rewrite Es].
Qed.

Lemma get_record_loop ds : ∀ t target now i d,
  twf t → NoDup ds →
  get (record_loop t target now i ds) d
  = match list_find (λ x, x = d) ds with
    | Some (j, _) => Some (mkEntry target (u8 (Z.of_nat (i + j) + 1)) now 0)
    | None => get t d
    end.
Proof.
  induction ds as [|x ds IH]; intros t target now i d Ht Hnd; simpl; [done|].
  apply NoDup_cons in Hnd as [Hx Hnd].
  rewrite IH by (done || apply twf_record_one; done). rewrite get_record_one by done.
  case_decide as Hd; subst.
  - rewrite decide_True by done. destruct (list_find _ ds) as [[j y]|] eqn:E.
    + apply list_find_Some in E as (Hj & -> & _). by apply list_elem_of_lookup_2 in Hj.
    + by rewrite Nat.add_0_r.
  - rewrite decide_False by done. destruct (list_find _ ds) as [[j y]|]; simpl; [|done].
    by rewrite Nat.add_succ_r.
Qed.

Lemma record_loop_params ds : ∀ t target now i,
  tttl (record_loop t target now i ds) = tttl t ∧ perTarget (record_loop t target now i ds) = perTarget t.
Proof.
  induction ds as [|d ds IH]; intros t target now i; simpl; [done|].
  destruct (IH (record_one t target now i d) target now (S i)) as [-> ->].
  unfold record_one. by case_match.
Qed.

(** Affinity: after a request was recorded on a deployment (with no eviction
    needed), a later request whose digests start with the first [k] of it and
    otherwise match nothing is routed to that deployment with depth [k], as long
    as the deployment is acceptable and its lifetime has not run out. *)
Theorem recorded_prefix_found coldest t ds target now now' shared rest valid now1 now2 :
  twf t → NoDup ds → (length ds < 256)%nat → shared ≠ [] → shared `prefix_of` ds →
  let t' := record_loop t target now 0 ds in
  curBytes t' <= maxBytes t' →
  valid target = true → (ttlFor t target < 0 ∨ now1 - ttlFor t target <= now) →
  (∀ d, d ∈ rest → hit t' valid now1 d = false) →
  Record_ coldest t ds target now now' = t'
  ∧ (Lookup t' (shared ++ rest) valid now1 now2).2 = Some (target, Z.of_nat (length shared)).
Proof.
  intros Ht Hnd Hlen Hne [tl ->] t' Hb Hv Hlive Hrest. split.
  { unfold Record_. fold t'. by rewrite (proj2 (Z.ltb_ge _ _)) by lia. }
  destruct shared as [|d0 sh _] using rev_ind; [done|]. clear Hne.
  unfold Lookup. set (t1 := mkTable _ _ _ _ _ _ _ _).
  assert (∀ d, hit t1 valid now1 d = hit t' valid now1 d) as Hh by done.
  rewrite reverse_app, reverse_snoc.
  assert (∀ d, d ∈ reverse rest → hit t' valid now1 d = false) as Hr
    by (intros d Hd; apply Hrest; by rewrite elem_of_reverse in Hd).
  clear Hrest. revert Hr. generalize (reverse rest). clear rest.
  induction l as [|x l IH]; intros Hrest; cbn [app].
  - cbn [lookup_loop]. change (shard t1 (shardFor d0) !! d0) with (get t' d0).
    unfold t'. rewrite get_record_loop by done.
    destruct (list_find (λ x, x = d0) ((sh ++ [d0]) ++ tl)) as [[j y]|] eqn:Ef.
    + apply list_find_Some in Ef as (Hj & -> & _).
      assert (j = length sh) as ->.
      { eapply NoDup_lookup; [exact Hnd|exact Hj|]. rewrite <- app_assoc, lookup_app_r by lia.
        by rewrite Nat.sub_diag. }
      assert (liveAt t1 (mkEntry target (u8 (Z.of_nat (0 + length sh) + 1)) now 0) now1 = true) as ->.
      { unfold liveAt, ttlFor, t1; simpl. destruct (record_loop_params ((sh ++ [d0]) ++ tl) t target now 0) as [E1 E2].
        fold t' in E1, E2. rewrite E1, E2. fold (ttlFor t target).
        destruct (Z.ltb_spec (ttlFor t target) 0); [done|]. apply Z.leb_le. lia. }
      simpl. rewrite Hv. simpl. do 2 f_equal. rewrite !length_app in *. simpl in *. unfold u8.
      rewrite Z.mod_small by lia. lia.
    + apply list_find_None in Ef. rewrite Forall_forall in Ef.
      destruct (Ef d0); [|done]. rewrite !elem_of_app. left. right. by left.
  - cbn [lookup_loop]. change (shard t1 (shardFor x) !! x) with (get t' x).
    pose proof (Hrest x ltac:(by left)) as Hx. unfold hit in Hx.
    destruct (get t' x) as [e|] eqn:Ee.
    + change (liveAt t1 e now1) with (liveAt t' e now1). rewrite Hx. apply IH. intros d Hd. apply Hrest. by right.
    + apply IH. intros d Hd. apply Hrest. by right.
Qed.

(** ** Which entries go *)

(** [d] was used no later than [d']. *)
Definition older (s : gmap Digest entry) (d d' : Digest) : Prop :=
  ∀ e e', s !! d = Some e → s !! d' = Some e' → lastSeen e <= lastSeen e'.

(** A sorted enumeration of the keys of a shard: the contract of [slices.SortFunc]
    on the slice built from the map. *)
Definition lru_enumeration (coldest : gmap Digest entry → list Digest) : Prop :=
  ∀ s, coldest s ≡ₚ (map_to_list s).*1 ∧ StronglySorted (older s) (coldest s).

Lemma sorted_split {A} (R : A → A → Prop) (l : list A) k x y :
  StronglySorted R l → x ∈ take k l → y ∈ drop k l → R x y.
Proof.
  revert k. induction l as [|a l IH]; intros [|k] Hs Hx Hy; simpl in *;
    try (by apply not_elem_of_nil in Hx); try (by apply not_elem_of_nil in Hy).
  apply StronglySorted_inv in Hs as [Hs Ha]. apply elem_of_cons in Hx as [->|Hx]; [|by eapply IH].
  rewrite Forall_forall in Ha. apply Ha. by eapply subseteq_drop.
Qed.

(** Eviction takes the least recently used: every entry a shard loses to
    [evictColdest] was last used no later than every entry it keeps, and the
    number dropped is the smaller of what was asked and what was there. *)
Theorem evicts_least_recent coldest t i k t' n :
  lru_enumeration coldest → twf t → (i < shardCount)%nat → evictColdest coldest t i k = (t', n) →
  n = Z.max 0 (Z.min k (Z.of_nat (size (shard t i))))
  ∧ ∀ d e d' e', shard t i !! d = Some e → shard t' i !! d = None → shard t' i !! d' = Some e' →
      lastSeen e <= lastSeen e'.
Proof.
  intros Hc Ht Hi E. pose proof (tw_len t Ht) as Hlen.
  destruct (evictColdest_spec coldest (λ s, proj1 (Hc s)) t i k t' n Ht Hi E) as (_ & _ & Hn & _).
  split; [done|]. revert E. unfold evictColdest.
  destruct (Z.leb_spec k 0); [intros; simplify_eq|].
  destruct (Z.eqb_spec (Z.of_nat (size (shard t i))) 0); [intros; simplify_eq|].
  assert (∀ s z z', shard (add_evicted (add_bytes (set_shard t i s) z) z') i = s) as Es.
  { intros s z z'. etrans; [apply (shard_set t i s i); lia|]. by rewrite decide_True. }
  destruct (Z.leb_spec (Z.of_nat (size (shard t i))) k); intros E; injection E as <- <-; rewrite Es.
  { intros d e d' e' _ _. by rewrite lookup_empty. }
  destruct (Hc (shard t i)) as [Hperm Hsort]. set (s := shard t i) in *.
  assert (∀ d, is_Some (s !! d) → d ∈ coldest s) as Hall.
  { intros d [e He]. rewrite Hperm. apply list_elem_of_fmap. exists (d, e). split; [done|]. by apply elem_of_map_to_list. }
  assert (NoDup (coldest s)) as Hnd by (rewrite Hperm; apply NoDup_fst_map_to_list).
  rewrite <- (take_drop (Z.to_nat k) (coldest s)) in Hnd. apply NoDup_app in Hnd as (Hnd & _).
  edestruct (delete_all (take (Z.to_nat k) (coldest s)) s Hnd) as [_ Hlk].
  { intros d Hd. assert (d ∈ coldest s) as Hd' by by eapply subseteq_take.
    rewrite Hperm in Hd'. apply list_elem_of_fmap in Hd' as ([d1 e1] & -> & H1). apply elem_of_map_to_list in H1. by eexists. }
  intros d e d' e' He Hgone Hkept. rewrite Hlk in Hgone. rewrite Hlk in Hkept.
  destruct (decide (d ∈ take (Z.to_nat k) (coldest s))) as [Hd|]; [|congruence].
  destruct (decide (d' ∈ take (Z.to_nat k) (coldest s))) as [|Hd']; [done|].
  eapply (sorted_split (older s) (coldest s) (Z.to_nat k) d d'); try done.
  pose proof (Hall d' ltac:(by eexists)) as Hin. rewrite <- (take_drop (Z.to_nat k) (coldest s)) in Hin.
  by apply elem_of_app in Hin as [|].
Qed.

(** ** Interned names *)

Record iwf (it : Interner) : Prop := {
  iw_ids : ∀ name id, ids it !! name = Some id ↔ 0 <= id ∧ back it !! Z.to_nat id = Some name;
  iw_len : Z.of_nat (length (back it)) < two32 }.

Lemma iwf_New : iwf NewInterner.
Proof.
  split; [|by vm_compute]. intros name id. simpl. rewrite lookup_empty, lookup_nil. naive_solver.
Qed.

(** Interning round-trips: the id handed out for a name resolves back to it,
    the same name always gets the same id, no two names share one, and every id
    handed out earlier keeps its meaning. *)
Theorem intern_roundtrip it name it' id :
  iwf it → Z.of_nat (S (length (back it))) < two32 → Interner_ID it name = (it', id) →
  iwf it' ∧ Interner_Name it' id = Some name ∧ Interner_ID it' name = (it', id)
  ∧ (∀ i n, Interner_Name it i = Some n → Interner_Name it' i = Some n)
  ∧ ∀ name2, Interner_ID it' name2 = (it', id) → name2 = name.
Proof.
  intros [Hids Hlen] Hroom. unfold Interner_ID at 1. destruct (ids it !! name) as [id0|] eqn:E.
  - intros; simplify_eq. apply Hids in E as [H0 Hb]. split_and!; try done.
    + unfold Interner_ID. by rewrite (proj2 (Hids _ _)) by done.
    + intros name2. unfold Interner_ID. destruct (ids it' !! name2) as [id2|] eqn:E2.
      * intros ?; simplify_eq. apply Hids in E2 as [_ E2]. congruence.
      * intros H. injection H as H _. apply (f_equal back) in H. simpl in H.
        apply (f_equal length) in H. rewrite length_app in H. simpl in H. lia.
  - intros H; injection H as <- <-. set (n := length (back it)) in *.
    assert (u32 (Z.of_nat n) = Z.of_nat n) as Eid by (unfold u32; apply Z.mod_small; lia). rewrite Eid.
    assert (iwf (mkInterner (<[name := Z.of_nat n]> (ids it)) (back it ++ [name]))) as Hwf.
    { split; simpl; [|rewrite length_app; simpl; lia]. intros m id. destruct (decide (m = name)) as [->|Hne].
      - rewrite lookup_insert_eq. split.
        + intros; simplify_eq. split; [lia|]. rewrite Nat2Z.id, lookup_app_r by lia.
          by replace (n - length (back it))%nat with 0%nat by lia.
        + intros [Hp Hl]. apply lookup_snoc_Some in Hl as [[Hl Hb]|[Hl _]]; [|f_equal; lia].
          assert (ids it !! name = Some id) as Hc by by apply Hids. congruence.
      - rewrite lookup_insert_ne by done. rewrite Hids. split; intros [Hp Hl]; (split; [done|]).
        + by apply lookup_app_l_Some.
        + apply lookup_snoc_Some in Hl as [[Hl Hb]|[_ ->]]; done. }
    pose proof (iw_ids _ Hwf) as Hids'. simpl in Hids'.
    split_and!; [done| | | |].
    + apply Hids'. by rewrite lookup_insert_eq.
    + unfold Interner_ID; simpl. by rewrite lookup_insert_eq.
    + intros i m Hm. unfold Interner_Name in *; simpl. by apply lookup_app_l_Some.
    + intros name2. unfold Interner_ID; simpl. destruct (decide (name2 = name)) as [|Hne]; [done|].
      rewrite lookup_insert_ne by done. destruct (ids it !! name2) as [id2|] eqn:E2; intros H.
      * apply (f_equal snd) in H. simpl in H. subst. apply Hids in E2 as [_ E2].
        apply lookup_lt_Some in E2. lia.
      * apply (f_equal (λ p, length (back p.1))) in H. simpl in H.
        rewrite !length_app in H. simpl in H. lia.
Qed.

(** ** Witnesses *)

(** A victim order that satisfies the contract: sort the enumeration by last use. *)
Definition not_after (a b : Digest * entry) : Prop := lastSeen a.2 <= lastSeen b.2.

#[export] Instance not_after_dec : RelDecision not_after.
Proof. intros a b. unfold not_after. apply _. Defined.

#[export] Instance not_after_trans : Transitive not_after.
Proof. intros a b c. unfold not_after. lia. Qed.

#[export] Instance not_after_total : Total not_after.
Proof. intros a b. unfold not_after. lia. Qed.

Definition by_age (s : gmap Digest entry) : list Digest := (merge_sort not_after (map_to_list s)).*1.

Lemma sorted_keys (s : gmap Digest entry) (l : list (Digest * entry)) :
  (∀ x, x ∈ l → s !! x.1 = Some x.2) → StronglySorted not_after l → StronglySorted (older s) l.*1.
Proof.
  intros Hin Hs. induction Hs as [|a l Hs IH Ha]; simpl; constructor.
  - apply IH. intros x Hx. apply Hin. by right.
  - rewrite Forall_fmap. rewrite Forall_forall in Ha |- *. intros b Hb e e' He He'. simpl in *.
    rewrite (Hin a) in He by by left. rewrite (Hin b) in He' by by right. simplify_eq. by apply Ha.
Qed.

Lemma by_age_lru : lru_enumeration by_age.
Proof.
  intros s. unfold by_age. split.
  - by rewrite merge_sort_Permutation.
  - apply sorted_keys; [|apply StronglySorted_merge_sort; apply _].
    intros [d e] Hx. rewrite merge_sort_Permutation in Hx. by apply elem_of_map_to_list in Hx.
Qed.

(** A budget of two entries, one prompt of three segments. *)
Definition demo : Table := record_loop (NewTable 300 0) 7 100 0 [[1]; [2]; [65]].

Lemma demo_twf : twf demo.
Proof. apply twf_record_loop, twf_New. Qed.

Lemma record_within_budget_witness :
  curBytes demo = 336 ∧ Record_ by_age demo [[3]] 8 200 201 ≠ demo
  ∧ curBytes (Record_ by_age demo [[3]] 8 200 201) <= maxBytes demo.
Proof.
  split_and!; [by vm_compute| |].
  - intros E. apply (f_equal curBytes) in E. vm_compute in E. discriminate.
  - destruct (record_within_budget by_age (λ s, proj1 (by_age_lru s)) demo [[3]] 8 200 201 demo_twf
      ltac:(by vm_compute)) as (H & _ & E).
    rewrite E in H. exact H.
Defined.

Lemma lookup_deepest_witness :
  (Lookup demo [[1]; [2]; [9]] (λ _, true) 200 201).2 = Some (7, 2)
  ∧ twf (Lookup demo [[1]; [2]; [9]] (λ _, true) 200 201).1.
Proof.
  split; [by vm_compute|].
  destruct (lookup_deepest demo [[1]; [2]; [9]] (λ _, true) 200 201 _ _ demo_twf (surjective_pairing _))
    as [H _]. exact H.
Defined.

Lemma recorded_prefix_found_witness :
  (Lookup (record_loop (NewTable 400 0) 7 100 0 [[1]; [2]; [65]]) [[1]; [2]; [9]] (λ _, true) 200 201).2
  = Some (7, 2).
Proof.
  refine (proj2 (recorded_prefix_found by_age (NewTable 400 0) [[1]; [2]; [65]] 7 100 101 [[1]; [2]] [[9]]
    (λ _, true) 200 201 _ _ _ _ _ _ _ _ _)).
  - apply twf_New.
  - by apply (bool_decide_unpack _); vm_compute.
  - simpl. lia.
  - done.
  - by exists [[65]].
  - by vm_compute.
  - done.
  - right. by vm_compute.
  - intros d Hd. apply list_elem_of_singleton in Hd as ->. by vm_compute.
Defined.

Lemma evicts_least_recent_witness :
  (evictColdest by_age demo 1 1).2 = Z.max 0 (Z.min 1 (Z.of_nat (size (shard demo 1)))).
Proof.
  refine (proj1 (evicts_least_recent by_age demo 1 1 _ _ by_age_lru demo_twf _ (surjective_pairing _))).
  unfold shardCount. lia.
Defined.

Lemma intern_roundtrip_witness :
  Interner_Name (Interner_ID NewInterner "a").1 (Interner_ID NewInterner "a").2 = Some "a"%string.
Proof.
  refine (proj1 (proj2 (intern_roundtrip NewInterner "a" _ _ iwf_New _ (surjective_pairing _)))).
  by vm_compute.
Defined.
