(* ===== verification/GoTime.v ===== *)
(** * Instants, durations and the UTC calendar (package [time] as the code uses it)

    A [time.Time] is the [Z] number of nanoseconds since 1970-01-01T00:00:00Z; the
    location is always UTC where the code reads calendar fields. A [time.Duration]
    is its [int64] number of nanoseconds. The zero [time.Time] is the first instant
    of year 1. The calendar is the proleptic Gregorian one. *)
From Stdlib Require Import ZArith Lia List.
From S2P Require Import Prelude.
Import ListNotations.
Open Scope Z_scope.

Module Time.

Definition Nanosecond : Z := 1.
Definition Second : Z := 1000000000.
Definition Minute : Z := 60 * Second.
Definition Hour : Z := 60 * Minute.
Definition Day : Z := 24 * Hour.

Definition maxDuration : Z := two63 - 1.
Definition minDuration : Z := - two63.

(** ** Arithmetic on instants *)

Definition Add (t d : Z) : Z := t + d.

(** [t.Sub(u)] saturates at the ends of the [Duration] range. *)
Definition Sub (t u : Z) : Z := Z.max minDuration (Z.min maxDuration (t - u)).

Definition Before (t u : Z) : bool := t <? u.
Definition After (t u : Z) : bool := u <? t.

(** [t.Unix()] counts whole seconds, rounding down. *)
Definition Unix (t : Z) : Z := t / Second.
(** [time.Unix(sec, 0)]. *)
Definition fromUnix (sec : Z) : Z := sec * Second.
(** [t.UnixNano()]: the low 64 bits. *)
Definition UnixNano (t : Z) : Z := i64 t.

(** ** The calendar *)

(** Days before January 1st of year [y], counted from January 1st of year 1. *)
Definition days_before (y : Z) : Z :=
  let p := y - 1 in 365 * p + p / 4 - p / 100 + p / 400.

(** Days from 0001-01-01 to 1970-01-01. *)
Definition epoch_days : Z := 719162.

Definition isLeap (y : Z) : bool :=
  (y mod 4 =? 0) && (negb (y mod 100 =? 0) || (y mod 400 =? 0)).

(** Days of the year before month [m], counted from zero. *)
Definition month_start (leap : bool) (m : Z) : Z :=
  let feb := if leap then 29 else 28 in
  fold_left Z.add (firstn (Z.to_nat m) [31; feb; 31; 30; 31; 30; 31; 31; 30; 31; 30; 31]) 0.

(** The day number (since 1970-01-01) of a date; months out of range carry into the
    year and days out of range into the month, as [time.Date] documents. *)
Definition day_number (y m d : Z) : Z :=
  let y := y + (m - 1) / 12 in
  let m := (m - 1) mod 12 in
  days_before y + month_start (isLeap y) m + (d - 1) - epoch_days.

(** [time.Date(y, m, d, 0, 0, 0, 0, time.UTC)]. *)
Definition Date (y m d : Z) : Z := day_number y m d * Day.

(** The calendar fields of an instant. *)
Definition dayOf (t : Z) : Z := t / Day.

Definition Year (t : Z) : Z :=
  let n := dayOf t + epoch_days in
  let g := (400 * n) / 146097 + 1 in
  if n <? days_before g then g - 1
  else if days_before (g + 1) <=? n then g + 1 else g.

Definition yday (t : Z) : Z := dayOf t + epoch_days - days_before (Year t).

(** The first month (from zero) that ends after day [d] of the year. *)
Fixpoint month_search (leap : bool) (d : Z) (n : nat) (m : Z) : Z :=
  match n with
  | O => m
  | S n' => if d <? month_start leap (m + 1) then m else month_search leap d n' (m + 1)
  end.
Definition month_index (leap : bool) (d : Z) : Z := month_search leap d 11 0.

Definition Month (t : Z) : Z := month_index (isLeap (Year t)) (yday t) + 1.
Definition MDay (t : Z) : Z := yday t - month_start (isLeap (Year t)) (Month t - 1) + 1.

(** Sunday is 0; 1970-01-01 was a Thursday. *)
Definition Weekday (t : Z) : Z := (dayOf t + 4) mod 7.

(** [t.AddDate(0, months, days)]: the clock of the day is kept. *)
Definition AddDate (t months days : Z) : Z :=
  Date (Year t) (Month t + months) (MDay t + days) + t mod Day.

(** [t.Truncate(d)] rounds down to a multiple of [d] since the zero time. *)
Definition zeroTime : Z := - epoch_days * Day.
Definition IsZero (t : Z) : bool := t =? zeroTime.
Definition Truncate (t d : Z) : Z := if d <=? 0 then t else t - (t - zeroTime) mod d.

(** ** Facts about the calendar *)

(** A year has 365 days, 366 when it is a leap year by the Gregorian rule. *)
Lemma year_length y : days_before (y + 1) - days_before y = if isLeap y then 366 else 365.
Proof.
  unfold days_before, isLeap. replace (y + 1 - 1) with y by lia.
  destruct (Z.eqb_spec (y mod 4) 0), (Z.eqb_spec (y mod 100) 0), (Z.eqb_spec (y mod 400) 0);
    cbn [negb orb andb]; Z.div_mod_to_equations; lia.
Qed.

(** The year of an instant is the one whose days contain it. *)
Lemma Year_spec t :
  days_before (Year t) <= dayOf t + epoch_days < days_before (Year t + 1).
Proof.
  unfold Year. generalize (dayOf t + epoch_days). intros n.
  set (g := 400 * n / 146097 + 1).
  assert (146097 * (g - 1) <= 400 * n < 146097 * g) as Hg.
  { unfold g. Z.div_mod_to_equations. lia. }
  clearbody g.
  destruct (Z.ltb_spec n (days_before g)); [|destruct (Z.leb_spec (days_before (g + 1)) n)];
    unfold days_before in *; Z.div_mod_to_equations; lia.
Qed.

Lemma days_before_mono y y' : y <= y' -> days_before y <= days_before y'.
Proof. unfold days_before. intros. Z.div_mod_to_equations. lia. Qed.

(** Only one year contains a given day. *)
Lemma Year_unique t y :
  days_before y <= dayOf t + epoch_days < days_before (y + 1) -> Year t = y.
Proof.
  intros H. pose proof (Year_spec t) as H'.
  destruct (Z.lt_trichotomy (Year t) y) as [L|[E|L]]; [|exact E|].
  - pose proof (days_before_mono (Year t + 1) y ltac:(lia)). lia.
  - pose proof (days_before_mono (y + 1) (Year t) ltac:(lia)). lia.
Qed.

Lemma yday_range t : 0 <= yday t < if isLeap (Year t) then 366 else 365.
Proof. unfold yday. pose proof (Year_spec t). pose proof (year_length (Year t)). lia. Qed.

Lemma month_search_spec leap d n : forall m,
  month_start leap m <= d < month_start leap (m + Z.of_nat n + 1) ->
  m <= month_search leap d n m <= m + Z.of_nat n /\
  month_start leap (month_search leap d n m) <= d < month_start leap (month_search leap d n m + 1).
Proof.
  induction n as [|n IH]; intros m H; cbn [month_search].
  - rewrite Z.add_0_r in *. lia.
  - destruct (Z.ltb_spec d (month_start leap (m + 1))); [lia|].
    destruct (IH (m + 1)); [|lia]. replace (m + 1 + Z.of_nat n + 1) with (m + Z.of_nat (S n) + 1) by lia. lia.
Qed.

(** The month of a day of the year contains that day. *)
Lemma month_index_spec (leap : bool) d :
  0 <= d < (if leap then 366 else 365) ->
  0 <= month_index leap d < 12 /\
  month_start leap (month_index leap d) <= d < month_start leap (month_index leap d + 1).
Proof.
  intros H. destruct (month_search_spec leap d 11 0) as [H1 H2]; [destruct leap; exact H|].
  unfold month_index. split; [lia|exact H2].
Qed.

Lemma Month_range t : 1 <= Month t <= 12.
Proof. unfold Month. pose proof (month_index_spec _ _ (yday_range t)). lia. Qed.

(** The date of an instant is the instant's day: the calendar round-trips. *)
Lemma Date_fields t d :
  Date (Year t) (Month t) (MDay t + d) = (dayOf t + d) * Day.
Proof.
  unfold Date, day_number. pose proof (Month_range t).
  rewrite (Z.div_small (Month t - 1)), (Z.mod_small (Month t - 1)) by lia. rewrite Z.add_0_r.
  f_equal. unfold MDay, yday. lia.
Qed.

Lemma day_bounds t : dayOf t * Day <= t < (dayOf t + 1) * Day.
Proof. unfold dayOf, Day, Hour, Minute, Second. Z.div_mod_to_equations. lia. Qed.

Lemma AddDate_days t d : AddDate t 0 d = t + d * Day.
Proof.
  unfold AddDate. rewrite Z.add_0_r, Date_fields. unfold dayOf.
  pose proof (Z.div_mod t Day ltac:(discriminate)). lia.
Qed.

(** The first day of the next month is one month's length after the first of this. *)
Definition month_length (y m : Z) : Z :=
  month_start (isLeap y) m - month_start (isLeap y) (m - 1).

Lemma month_start_next leap m :
  1 <= m <= 12 -> 28 <= month_start leap m - month_start leap (m - 1) <= 31.
Proof.
  intros H. assert (In m [1;2;3;4;5;6;7;8;9;10;11;12]) as Hin by (simpl; lia).
  destruct leap; simpl in Hin;
    repeat (destruct Hin as [<-|Hin]; [vm_compute; split; discriminate|]); destruct Hin.
Qed.

Lemma Date_next_month y m :
  1 <= m <= 12 -> Date y (m + 1) 1 = Date y m 1 + month_length y m * Day.
Proof.
  intros H. unfold Date, day_number, month_length.
  rewrite (Z.div_small (m - 1)), (Z.mod_small (m - 1)) by lia. rewrite !(Z.add_0_r y).
  destruct (Z.eq_dec m 12) as [->|N].
  - replace ((12 + 1 - 1) / 12) with 1 by reflexivity. replace ((12 + 1 - 1) mod 12) with 0 by reflexivity.
    pose proof (year_length y) as E.
    replace (month_start (isLeap (y + 1)) 0) with 0 by (now destruct (isLeap (y + 1))).
    replace (month_start (isLeap y) 12) with (if isLeap y then 366 else 365) by (now destruct (isLeap y)).
    rewrite <- E. ring.
  - rewrite (Z.div_small (m + 1 - 1)), (Z.mod_small (m + 1 - 1)) by lia.
    rewrite !(Z.add_0_r y). replace (m + 1 - 1) with m by lia. ring.
Qed.

(** The instants of a month are those between its first day and the next one's. *)
Lemma month_bounds t :
  Date (Year t) (Month t) 1 <= t < Date (Year t) (Month t + 1) 1.
Proof.
  rewrite Date_next_month by apply Month_range.
  pose proof (Date_fields t 0) as E. pose proof (day_bounds t) as B.
  pose proof (month_index_spec _ _ (yday_range t)) as [_ Hm].
  assert (Date (Year t) (Month t) (MDay t + 0) = Date (Year t) (Month t) 1 + (MDay t - 1) * Day) as E2.
  { unfold Date, day_number. ring. }
  assert (0 <= MDay t - 1 < month_length (Year t) (Month t)) as Hd.
  { unfold MDay, month_length, Month in *. replace (month_index (isLeap (Year t)) (yday t) + 1 - 1)
      with (month_index (isLeap (Year t)) (yday t)) in * by lia. lia. }
  unfold Day, Hour, Minute, Second in *. lia.
Qed.

(** The calendar fields of the first instant of a month. *)
Lemma fields_of_first y m :
  1 <= m <= 12 -> Year (Date y m 1) = y /\ Month (Date y m 1) = m /\ MDay (Date y m 1) = 1.
Proof.
  intros H. unfold Date, day_number.
  rewrite (Z.div_small (m - 1)), (Z.mod_small (m - 1)) by lia. rewrite !(Z.add_0_r y).
  set (n := days_before y + month_start (isLeap y) (m - 1) + (1 - 1) - epoch_days).
  assert (dayOf (n * Day) = n) as En by (unfold dayOf; apply Z.div_mul; discriminate).
  assert (0 <= month_start (isLeap y) (m - 1) < if isLeap y then 366 else 365) as Hs.
  { assert (In m [1;2;3;4;5;6;7;8;9;10;11;12]) as Hin by (simpl; lia).
    destruct (isLeap y); simpl in Hin;
      repeat (destruct Hin as [<-|Hin]; [vm_compute; split; [discriminate|reflexivity]|]); destruct Hin. }
  assert (Year (n * Day) = y) as Ey.
  { apply Year_unique. rewrite En. pose proof (year_length y). unfold n. lia. }
  assert (yday (n * Day) = month_start (isLeap y) (m - 1)) as Ed.
  { unfold yday. rewrite Ey, En. unfold n. lia. }
  unfold MDay, Month. rewrite Ed, Ey.
  assert (month_index (isLeap y) (month_start (isLeap y) (m - 1)) = m - 1) as ->.
  { assert (In m [1;2;3;4;5;6;7;8;9;10;11;12]) as Hin by (simpl; lia).
    destruct (isLeap y); simpl in Hin;
      repeat (destruct Hin as [<-|Hin]; [reflexivity|]); destruct Hin. }
  rewrite Z.sub_add. repeat split; lia.
Qed.

Lemma month_start_mono leap a b :
  0 <= a <= b -> b <= 12 -> month_start leap a <= month_start leap b.
Proof.
  intros H Hb. replace b with (a + Z.of_nat (Z.to_nat (b - a))) in * by lia.
  induction (Z.to_nat (b - a)) as [|n IH]; [rewrite Z.add_0_r; lia|].
  pose proof (month_start_next leap (a + Z.of_nat (S n)) ltac:(lia)) as E.
  replace (a + Z.of_nat (S n) - 1) with (a + Z.of_nat n) in E by lia. lia.
Qed.

(** Only one month contains a given instant. *)
Lemma month_unique y m t :
  1 <= m <= 12 -> Date y m 1 <= t < Date y (m + 1) 1 -> Year t = y /\ Month t = m.
Proof.
  intros H. rewrite Date_next_month by exact H. unfold Date, day_number.
  rewrite (Z.div_small (m - 1)), (Z.mod_small (m - 1)) by lia. rewrite !(Z.add_0_r y). intros Ht.
  pose proof (day_bounds t) as B. unfold month_length in Ht.
  assert (month_start (isLeap y) (m - 1) <= dayOf t + epoch_days - days_before y < month_start (isLeap y) m) as Hd
    by (unfold Day, Hour, Minute, Second in *; lia).
  pose proof (month_start_mono (isLeap y) 0 (m - 1) ltac:(lia) ltac:(lia)) as L.
  pose proof (month_start_mono (isLeap y) m 12 ltac:(lia) ltac:(lia)) as U.
  pose proof (year_length y) as Y.
  replace (month_start (isLeap y) 0) with 0 in L by (now destruct (isLeap y)).
  replace (month_start (isLeap y) 12) with (if isLeap y then 366 else 365) in U by (now destruct (isLeap y)).
  assert (Year t = y) as Ey by (apply Year_unique; lia). split; [exact Ey|].
  pose proof (month_index_spec _ _ (yday_range t)) as [R Hm]. unfold Month, yday in *. rewrite Ey in *.
  set (k := month_index (isLeap y) (dayOf t + epoch_days - days_before y)) in *.
  destruct (Z.lt_trichotomy (k + 1) m) as [N|[E|N]]; [|exact E|].
  - pose proof (month_start_mono (isLeap y) (k + 1) (m - 1) ltac:(lia) ltac:(lia)). lia.
  - pose proof (month_start_mono (isLeap y) m k ltac:(lia) ltac:(lia)). lia.
Qed.

(** The first of the month after [m] is the first of its own month. *)
Lemma first_of_next y m :
  1 <= m <= 12 ->
  Date (Year (Date y (m + 1) 1)) (Month (Date y (m + 1) 1)) 1 = Date y (m + 1) 1.
Proof.
  intros H. destruct (Z.eq_dec m 12) as [->|N].
  - change (12 + 1) with 13. assert (Date y 13 1 = Date (y + 1) 1 1) as ->.
    { unfold Date, day_number. change ((13 - 1) / 12) with 1. change ((13 - 1) mod 12) with 0.
      change ((1 - 1) / 12) with 0. change ((1 - 1) mod 12) with 0. rewrite !(Z.add_0_r (y + 1)). reflexivity. }
    destruct (fields_of_first (y + 1) 1) as (-> & -> & _); [lia|reflexivity].
  - destruct (fields_of_first y (m + 1)) as (-> & -> & _); [lia|reflexivity].
Qed.

Lemma AddDate_month y m :
  1 <= m <= 12 -> AddDate (Date y m 1) 1 0 = Date y (m + 1) 1.
Proof.
  intros H. destruct (fields_of_first y m H) as (Ey & Em & Ed). unfold AddDate. rewrite Ey, Em, Ed.
  rewrite Z.add_0_r. unfold Date at 2. rewrite Z.mod_mul by discriminate. lia.
Qed.

Lemma Truncate_bounds t d : 0 < d -> Truncate t d <= t < Truncate t d + d.
Proof.
  intros H. unfold Truncate. rewrite (proj2 (Z.leb_gt d 0)) by lia.
  pose proof (Z.mod_pos_bound (t - zeroTime) d H). lia.
Qed.

(** Truncation is constant on each cell of its grid. *)
Lemma Truncate_cell t d k : 0 < d -> Truncate t d <= k < Truncate t d + d -> Truncate k d = Truncate t d.
Proof.
  intros H. unfold Truncate. rewrite (proj2 (Z.leb_gt d 0)) by lia. intros Hk.
  pose proof (Z.div_mod (t - zeroTime) d ltac:(lia)) as E.
  assert ((k - zeroTime) mod d = k - zeroTime - d * ((t - zeroTime) / d)) as ->; [|lia].
  symmetry. apply Z.mod_unique with ((t - zeroTime) / d); lia.
Qed.

Lemma Truncate_next t d : 0 < d -> Truncate (Truncate t d + d) d = Truncate t d + d.
Proof.
  intros H. unfold Truncate. rewrite (proj2 (Z.leb_gt d 0)) by lia.
  pose proof (Z.div_mod (t - zeroTime) d ltac:(lia)) as E.
  replace (t - (t - zeroTime) mod d + d - zeroTime) with (d * ((t - zeroTime) / d + 1)) by lia.
  rewrite Z.mul_comm, Z.mod_mul by lia. lia.
Qed.

Lemma Unix_fromUnix s : Unix (fromUnix s) = s.
Proof. unfold Unix, fromUnix. apply Z.div_mul. discriminate. Qed.

Lemma Sub_exact t u : - two63 <= t - u < two63 -> Sub t u = t - u.
Proof. unfold Sub, minDuration, maxDuration. lia. Qed.

(** Known dates. *)
Example epoch_is_1970 : Date 1970 1 1 = 0.
Proof. reflexivity. Qed.
Example leap_day : Date 2024 3 1 - Date 2024 2 28 = 2 * Day.
Proof. reflexivity. Qed.
Example century : Date 1900 3 1 - Date 1900 2 28 = Day.
Proof. reflexivity. Qed.
Example monday : Weekday (Date 2024 1 1) = 1.
Proof. reflexivity. Qed.
Example year_one : Date 1 1 1 = zeroTime.
Proof. reflexivity. Qed.

End Time.
