(* ===== verification/F64.v ===== *)
(** * [float64]: IEEE 754 binary64 with round-to-nearest-even

    Go's [float64] arithmetic as the Standard Library's executable binary64. *)
From Stdlib Require Import ZArith Bool Lia SpecFloat.
From S2P Require Import Prelude.
Open Scope Z_scope.

Module F64.

Definition t : Type := spec_float.
Definition fprec : Z := 53.
Definition femax : Z := 1024.

Definition zero : t := S754_zero false.
Definition of_Z (z : Z) : t := binary_normalize fprec femax z 0 false.
Definition add : t -> t -> t := SFadd fprec femax.
Definition sub : t -> t -> t := SFsub fprec femax.
Definition mul : t -> t -> t := SFmul fprec femax.
Definition div : t -> t -> t := SFdiv fprec femax.
Definition lt : t -> t -> bool := SFltb.
Definition le : t -> t -> bool := SFleb.
Definition eq : t -> t -> bool := SFeqb.
Definition gt (x y : t) : bool := lt y x.
Definition ge (x y : t) : bool := le y x.
Definition isNaN (x : t) : bool := match x with S754_nan => true | _ => false end.
Definition infinity : t := S754_infinity false.
Definition one : t := of_Z 1.

(** The integer part, toward zero; [None] for infinities and NaN. *)
Definition trunc (x : t) : option Z :=
  match x with
  | S754_zero _ => Some 0
  | S754_finite s m e =>
      let a := if 0 <=? e then Z.pos m * 2 ^ e else Z.pos m / 2 ^ (- e) in
      Some (if s then - a else a)
  | _ => None
  end.

(** [int64(x)]: the conversion of a value that does not fit is left to the
    implementation by the language, so it is an argument. *)
Definition to_i64 (unspecified : t -> Z) (x : t) : Z :=
  match trunc x with
  | Some z => if (- two63 <=? z) && (z <? two63) then z else unspecified x
  | None => unspecified x
  end.

(** [math.Round]: to the nearest integer, halves away from zero. *)
Definition round_mag (m : positive) (e : Z) : Z :=
  if 0 <=? e then Z.pos m * 2 ^ e
  else (Z.pos m + 2 ^ (- e - 1)) / 2 ^ (- e).
Definition Round (x : t) : t :=
  match x with
  | S754_finite s m e =>
      match of_Z (round_mag m e) with
      | S754_zero _ => S754_zero s
      | S754_finite _ m' e' => S754_finite s m' e'
      | y => y
      end
  | _ => x
  end.

(** The constant [0.1], [0.2], ... nearest to [n / d]. *)
Definition of_ratio (n d : Z) : t := div (of_Z n) (of_Z d).

End F64.
