(* ===== verification/Window.v ===== *)
(** * Quota windows and usage ([internal/quota/window.go])

    What a quota counts, over which span of time, and the calendar periods the
    spans fall into. Instants and durations are those of [GoTime]; every boundary
    is UTC. A [Metric] is the [uint8] the code declares. *)
From Stdlib Require Import ZArith Lia.
From S2P Require Import Prelude GoTime.
Import Time.
Open Scope Z_scope.

(** ** Metrics and usage *)

Definition Metric : Type := Z.
Definition MetricCostUSD : Metric := 0.
Definition MetricTokensTotal : Metric := 1.
Definition MetricTokensInput : Metric := 2.
Definition MetricTokensOutput : Metric := 3.
Definition MetricRequests : Metric := 4.
Definition numMetrics : Z := MetricRequests + 1.

Definition Metric_Valid (m : Metric) : bool := m <? numMetrics.

Record Usage : Type := mkUsage {
  CostNanoUSD : Z; TokensInput : Z; TokensOutput : Z; Requests : Z }.

Definition Value (u : Usage) (m : Metric) : Z :=
  match m with
  | 0 => CostNanoUSD u
  | 1 => i64 (TokensInput u + TokensOutput u)
  | 2 => TokensInput u
  | 3 => TokensOutput u
  | 4 => Requests u
  | _ => 0
  end.

Definition Usage_Add (u o : Usage) : Usage :=
  mkUsage (i64 (CostNanoUSD u + CostNanoUSD o)) (i64 (TokensInput u + TokensInput o))
    (i64 (TokensOutput u + TokensOutput o)) (i64 (Requests u + Requests o)).

(** ** Windows *)

Inductive WindowKind : Type := KindRolling | KindDaily | KindWeekly | KindMonthly.

Record Window : Type := mkWindow { kind : WindowKind; dur : Z }.

Definition Daily : Window := mkWindow KindDaily 0.
Definition Weekly : Window := mkWindow KindWeekly 0.
Definition Monthly : Window := mkWindow KindMonthly 0.
Definition Rolling (d : Z) : Window := mkWindow KindRolling d.

Definition Kind_eqb (a b : WindowKind) : bool :=
  match a, b with
  | KindRolling, KindRolling | KindDaily, KindDaily
  | KindWeekly, KindWeekly | KindMonthly, KindMonthly => true
  | _, _ => false
  end.
(** [==] on windows compares both fields. *)
Definition Window_eqb (a b : Window) : bool := Kind_eqb (kind a) (kind b) && (dur a =? dur b).

Definition isRolling (w : Window) : bool := Kind_eqb (kind w) KindRolling.

Definition Duration (w : Window) : Z := if isRolling w then dur w else 0.

Definition Valid (w : Window) : bool :=
  match kind w with KindRolling => Minute <=? dur w | _ => true end.

Definition PeriodStart (w : Window) (now : Z) : Z :=
  match kind w with
  | KindDaily => Date (Year now) (Month now) (MDay now)
  | KindWeekly =>
      let off := Z.rem (Weekday now + 6) 7 in
      let d := Date (Year now) (Month now) (MDay now) in
      AddDate d 0 (- off)
  | KindMonthly => Date (Year now) (Month now) 1
  | KindRolling => Truncate now (dur w)
  end.

Definition PeriodEnd (w : Window) (now : Z) : Z :=
  let start := PeriodStart w now in
  match kind w with
  | KindDaily => AddDate start 0 1
  | KindWeekly => AddDate start 0 7
  | KindMonthly => AddDate start 1 0
  | KindRolling => Add start (dur w)
  end.

Definition periodBounds (w : Window) (now : Z) : Z * Z :=
  let start := PeriodStart w now in
  match kind w with
  | KindDaily => (start, Add start (24 * Hour))
  | KindWeekly => (start, Add start (7 * 24 * Hour))
  | KindMonthly => (start, AddDate start 1 0)
  | KindRolling => (start, Add start (dur w))
  end.

(** The sum can leave [int64] for durations within a minute of its top. *)
Definition buckets (w : Window) : Z :=
  if isRolling w then
    let n := Z.quot (i64 (dur w + Minute - 1)) Minute in
    if n <? 1 then 1 else n
  else 0.

Definition maxBuckets : Z := 31 * 24 * 60.

(** ** Properties *)

Lemma start_daily w now : kind w = KindDaily -> PeriodStart w now = dayOf now * Day.
Proof. unfold PeriodStart. intros ->. rewrite <- (Z.add_0_r (MDay now)), Date_fields. lia. Qed.

(** Weeks are cut at Mondays: day -3 was Monday 1969-12-29. *)
Lemma start_weekly w now :
  kind w = KindWeekly -> PeriodStart w now = (7 * ((dayOf now + 3) / 7) - 3) * Day.
Proof.
  unfold PeriodStart. intros ->. rewrite AddDate_days.
  rewrite <- (Z.add_0_r (MDay now)), Date_fields. unfold Weekday.
  assert (Z.rem ((dayOf now + 4) mod 7 + 6) 7 = (dayOf now + 3) mod 7) as ->.
  { rewrite Z.rem_mod_nonneg; [|pose proof (Z.mod_pos_bound (dayOf now + 4) 7 ltac:(lia)); lia|lia].
    Z.div_mod_to_equations. lia. }
  pose proof (Z.div_mod (dayOf now + 3) 7 ltac:(lia)). nia.
Qed.

Lemma dayOf_bounds t n : n * Day <= t < (n + 1) * Day -> dayOf t = n.
Proof. intros H. unfold dayOf. symmetry. apply Z.div_unique with (t - n * Day); unfold Day, Hour, Minute, Second in *; lia. Qed.

Lemma dayOf_between t a b : a * Day <= t < b * Day -> a <= dayOf t < b.
Proof.
  intros H. pose proof (day_bounds t). unfold Day, Hour, Minute, Second in *. lia.
Qed.

(** The first instant of a period lies in it, and the end is past its start. *)
Lemma period_contains w now : Valid w = true -> PeriodStart w now <= now < PeriodEnd w now.
Proof.
  intros Hv. pose proof (day_bounds now) as B. unfold PeriodEnd.
  destruct (kind w) eqn:K.
  - unfold Valid in Hv. rewrite K in Hv. apply Z.leb_le in Hv. unfold PeriodStart, Add. rewrite K.
    apply Truncate_bounds. unfold Minute, Second in Hv. lia.
  - rewrite start_daily, AddDate_days by exact K. lia.
  - rewrite start_weekly, AddDate_days by exact K.
    pose proof (Z.div_mod (dayOf now + 3) 7 ltac:(lia)).
    pose proof (Z.mod_pos_bound (dayOf now + 3) 7 ltac:(lia)).
    unfold Day, Hour, Minute, Second in *. lia.
  - unfold PeriodStart. rewrite K, AddDate_month by apply Month_range. apply month_bounds.
Qed.

(** Every instant of a period has the same period. *)
Lemma period_same w now t :
  Valid w = true -> PeriodStart w now <= t < PeriodEnd w now -> PeriodStart w t = PeriodStart w now.
Proof.
  intros Hv. unfold PeriodEnd. destruct (kind w) eqn:K.
  - unfold Valid in Hv. rewrite K in Hv. apply Z.leb_le in Hv. unfold PeriodStart, Add. rewrite K.
    intros Ht. apply Truncate_cell; [unfold Minute, Second in Hv; lia|exact Ht].
  - rewrite AddDate_days, !start_daily by exact K. intros Ht.
    rewrite (dayOf_bounds t (dayOf now)); [reflexivity|lia].
  - rewrite AddDate_days, !start_weekly by exact K. intros Ht.
    assert (7 * ((dayOf now + 3) / 7) - 3 <= dayOf t < 7 * ((dayOf now + 3) / 7) + 4) as Hd
      by (apply dayOf_between; lia).
    replace ((dayOf t + 3) / 7) with ((dayOf now + 3) / 7); [reflexivity|].
    apply Z.div_unique with (dayOf t + 3 - 7 * ((dayOf now + 3) / 7)); lia.
  - unfold PeriodStart. rewrite K, AddDate_month by apply Month_range. intros Ht.
    destruct (month_unique (Year now) (Month now) t (Month_range now) Ht) as [-> ->]. reflexivity.
Qed.

(** The end of a period starts the next one. *)
Lemma period_next w now : Valid w = true -> PeriodStart w (PeriodEnd w now) = PeriodEnd w now.
Proof.
  intros Hv. unfold PeriodEnd. destruct (kind w) eqn:K.
  - unfold Valid in Hv. rewrite K in Hv. apply Z.leb_le in Hv. unfold PeriodStart, Add. rewrite K.
    apply Truncate_next. unfold Minute, Second in Hv. lia.
  - rewrite AddDate_days, !start_daily by exact K. rewrite (dayOf_bounds _ (dayOf now + 1)) by (unfold Day, Hour, Minute, Second; lia). lia.
  - rewrite AddDate_days, !start_weekly by exact K. set (q := (dayOf now + 3) / 7).
    rewrite (dayOf_bounds _ (7 * q + 4)) by (unfold Day, Hour, Minute, Second; lia).
    replace ((7 * q + 4 + 3) / 7) with (q + 1) by (apply Z.div_unique with 0; lia). lia.
  - unfold PeriodStart. rewrite K, AddDate_month by apply Month_range.
    apply first_of_next. apply Month_range.
Qed.

(** Periods tile the time line: for every valid window, the period of an
    instant contains it, every instant of the period has that same start and end,
    and the end is the start of the next period, so that no instant is in two
    periods or in none; weekly periods start on a Monday. *)
Theorem periods_tile w now :
  Valid w = true ->
  PeriodStart w now <= now < PeriodEnd w now /\
  (forall t, PeriodStart w now <= t < PeriodEnd w now ->
     PeriodStart w t = PeriodStart w now /\ PeriodEnd w t = PeriodEnd w now) /\
  PeriodStart w (PeriodEnd w now) = PeriodEnd w now /\
  (kind w = KindWeekly -> Weekday (PeriodStart w now) = 1).
Proof.
  intros Hv. split; [exact (period_contains w now Hv)|]. split; [|split].
  - intros t Ht. pose proof (period_same w now t Hv Ht) as E. split; [exact E|].
    unfold PeriodEnd. rewrite E. reflexivity.
  - exact (period_next w now Hv).
  - intros K. rewrite start_weekly by exact K. unfold Weekday, dayOf.
    rewrite Z.div_mul by discriminate. Z.div_mod_to_equations. lia.
Qed.

Lemma periods_tile_witness :
  Valid Monthly = true /\ PeriodStart Monthly (Date 2024 2 29 + Hour) = Date 2024 2 1
  /\ PeriodStart Monthly (PeriodEnd Monthly (Date 2024 2 29 + Hour)) = Date 2024 3 1.
Proof.
  split; [reflexivity|]. split; [vm_compute; reflexivity|].
  destruct (periods_tile Monthly (Date 2024 2 29 + Hour) eq_refl) as (_ & _ & E & _).
  rewrite E. vm_compute. reflexivity.
Defined.

(** The optimised pair is the pair: [periodBounds], which the ranking path
    uses with fixed day lengths, equals [PeriodStart] and [PeriodEnd], which go
    through the calendar. *)
Theorem periodBounds_correct w now : periodBounds w now = (PeriodStart w now, PeriodEnd w now).
Proof.
  unfold periodBounds, PeriodEnd. destruct (kind w); rewrite ?AddDate_days; unfold Add, Day; try reflexivity;
    f_equal; lia.
Qed.

(** A ring of [buckets] minutes covers its window with less than a minute to
    spare, for every duration at least a minute below the [int64] maximum; in the
    last minute before the maximum the rounding sum wraps and the ring has a single
    bucket, so a window of 292 years would be metered over one minute. *)
Theorem buckets_cover d :
  Minute <= d < two63 ->
  if d <=? two63 - Minute
  then (buckets (Rolling d) - 1) * Minute < d <= buckets (Rolling d) * Minute
  else buckets (Rolling d) = 1.
Proof.
  intros H. unfold buckets, Rolling, isRolling. cbn [kind dur Kind_eqb].
  unfold Minute, Second in *. destruct (Z.leb_spec d (two63 - 60 * 1000000000)).
  - rewrite i64_id by (widths; lia). rewrite Z.quot_div_nonneg by lia.
    destruct (Z.ltb_spec ((d + 60 * 1000000000 - 1) / (60 * 1000000000)) 1); Z.div_mod_to_equations; lia.
  - assert (i64 (d + 60 * 1000000000 - 1) < 0) as Hw.
    { unfold i64. rewrite <- (Z.mod_unique _ two64 1 (d + 60 * 1000000000 - 1 + two63 - two64));
        widths; lia. }
    pose proof (Z.quot_pos (- i64 (d + 60 * 1000000000 - 1)) (60 * 1000000000) ltac:(lia) ltac:(lia)) as Hq.
    rewrite Z.quot_opp_l in Hq by lia. rewrite (proj2 (Z.ltb_lt _ 1)); [reflexivity|lia].
Qed.

Lemma buckets_cover_witness :
  buckets (Rolling (5 * Hour)) = 300 /\ (300 - 1) * Minute < 5 * Hour <= 300 * Minute
  /\ buckets (Rolling maxDuration) = 1.
Proof.
  split; [reflexivity|]. split.
  - apply (buckets_cover (5 * Hour)). vm_compute. split; [discriminate|reflexivity].
  - apply (buckets_cover maxDuration). vm_compute. split; [discriminate|reflexivity].
Defined.
