(* ===== verification/Counter.v ===== *)
(** * Window counters ([internal/quota/counter.go])

    A rolling window is a ring of one-minute buckets with a running total, a
    calendar window one accumulator that restarts at each boundary. Amounts are
    [int64] and wrap. The specification is a log of the recorded amounts; the ring
    is shown to answer, in constant time, the sum over the log entries that are
    still inside the window. *)
From stdpp Require Import base list.
From Stdlib Require Import ZArith Lia.
From S2P Require Import Prelude GoTime Window.
Import Time.
Open Scope Z_scope.

Inductive counter_error : Type := ErrInvalidWindow | ErrTooManyBuckets.

Record counter : Type := mkCounter {
  cw : Window; ring : list Z; chead : nat; headMin : Z; total : Z;
  periodStart : Z; value : Z }.

Definition minuteOf (t : Z) : Z := Z.quot (Unix t) 60.

Definition newCounter (w : Window) (now : Z) : result counter_error counter :=
  if negb (Valid w) then Err ErrInvalidWindow
  else if isRolling w then
    let n := buckets w in
    if maxBuckets <? n then Err ErrTooManyBuckets
    else Ok (mkCounter w (replicate (Z.to_nat n) 0) 0 (minuteOf now) 0 zeroTime 0)
  else Ok (mkCounter w [] 0 0 0 (PeriodStart w now) 0).

(** [k] rounds of the loop of [advance]. *)
Fixpoint advance_loop (k : nat) (r : list Z) (h : nat) (tot : Z) : list Z * nat * Z :=
  match k with
  | O => (r, h, tot)
  | S k' =>
      let h := ((h + 1) mod length r)%nat in
      advance_loop k' (<[h := 0]> r) h (i64 (tot - nth h r 0))
  end.

Definition advance (c : counter) (now : Z) : counter :=
  if negb (isRolling (cw c)) then
    let start := PeriodStart (cw c) now in
    if After start (periodStart c)
    then mkCounter (cw c) (ring c) (chead c) (headMin c) (total c) start 0
    else c
  else
    let m := minuteOf now in
    if m <=? headMin c then c
    else
      let n := Z.of_nat (length (ring c)) in
      if n <=? m - headMin c then
        mkCounter (cw c) (replicate (length (ring c)) 0) 0 m 0 (periodStart c) (value c)
      else
        let '(r, h, tot) := advance_loop (Z.to_nat (m - headMin c)) (ring c) (chead c) (total c) in
        mkCounter (cw c) r h m tot (periodStart c) (value c).

Definition add (c : counter) (now v : Z) : counter :=
  let c := advance c now in
  if negb (isRolling (cw c)) then
    mkCounter (cw c) (ring c) (chead c) (headMin c) (total c) (periodStart c) (i64 (value c + v))
  else
    mkCounter (cw c) (<[chead c := i64 (nth (chead c) (ring c) 0 + v)]> (ring c)) (chead c) (headMin c)
      (i64 (total c + v)) (periodStart c) (value c).

Definition sum (c : counter) (now : Z) : counter * Z :=
  let c := advance c now in
  (c, if negb (isRolling (cw c)) then value c else total c).

(** The loop of [resetAt] from round [i]; [fuel] is the number of rounds left. *)
Fixpoint reset_loop (fuel : nat) (c : counter) (need shed : Z) (i : nat) : option Z :=
  match fuel with
  | O => None
  | S f =>
      let n := length (ring c) in
      let shed := i64 (shed + nth ((chead c + i) mod n)%nat (ring c) 0) in
      if need <=? shed then
        let bucketMin := headMin c - Z.of_nat (n - i) in
        Some (fromUnix ((bucketMin + Z.of_nat n) * 60))
      else reset_loop f c need shed (S i)
  end.

Definition resetAt (c : counter) (now limit : Z) : counter * Z :=
  let c := advance c now in
  (c, if negb (isRolling (cw c)) then PeriodEnd (cw c) now
      else
        let need := i64 (total c - limit + 1) in
        if need <=? 0 then now
        else match reset_loop (length (ring c)) c need 0 1 with
             | Some t => t
             | None => Add now (Duration (cw c))
             end).

Definition reset (c : counter) (now : Z) : counter :=
  if isRolling (cw c) then
    mkCounter (cw c) (replicate (length (ring c)) 0) 0 (minuteOf now) 0 (periodStart c) (value c)
  else mkCounter (cw c) (ring c) (chead c) (headMin c) (total c) (PeriodStart (cw c) now) 0.

(** ** The log a counter stands for *)

(** The sum of the logged amounts whose slot satisfies [P]. *)
Fixpoint logsum (P : Z → bool) (log : list (Z * Z)) : Z :=
  match log with
  | [] => 0
  | (s, v) :: log' => (if P s then v else 0) + logsum P log'
  end.

(** The slot of an instant: its minute, or the start of its calendar period. *)
Definition slot (w : Window) (t : Z) : Z := if isRolling w then minuteOf t else PeriodStart w t.

(** Which slots are inside the window when the current slot is [cur]. *)
Definition in_window (w : Window) (cur s : Z) : bool :=
  if isRolling w then cur - buckets w <? s else s =? cur.

(** Where each recorded amount lands, from current slot [cur]: in the slot of its
    instant, or in the current one when it arrives late. *)
Fixpoint landed (w : Window) (cur : Z) (ops : list (Z * Z)) {struct ops} : list (Z * Z) :=
  match ops with
  | [] => []
  | (t, v) :: ops' => let cur := Z.max cur (slot w t) in (cur, v) :: landed w cur ops'
  end.

Definition last_slot (w : Window) (cur : Z) (ops : list (Z * Z)) : Z :=
  foldl (λ cur op, Z.max cur (slot w op.1)) cur ops.

Definition run (c : counter) (ops : list (Z * Z)) : counter := foldl (λ c op, add c op.1 op.2) c ops.

(** ** Lemmas on log sums *)

Lemma logsum_app P l l' : logsum P (l ++ l') = logsum P l + logsum P l'.
Proof. induction l as [|[s v] l IH]; simpl; [done|]. rewrite IH. lia. Qed.

Lemma logsum_ext P Q l : (∀ x, x ∈ l → P x.1 = Q x.1) → logsum P l = logsum Q l.
Proof.
  induction l as [|[s v] l IH]; intros H; simpl; [done|].
  pose proof (H (s, v) ltac:(by left)) as E. simpl in E. rewrite E, IH; [done|].
  intros x Hx. apply H. by right.
Qed.

Lemma logsum_split P Q l :
  logsum P l = logsum (λ s, P s && Q s) l + logsum (λ s, P s && negb (Q s)) l.
Proof.
  induction l as [|[s v] l IH]; simpl; [done|]. rewrite IH. destruct (P s), (Q s); simpl; lia.
Qed.

Lemma logsum_none P l : (∀ x, x ∈ l → P x.1 = false) → logsum P l = 0.
Proof.
  intros H. rewrite (logsum_ext P (λ _, false)) by done. clear H. induction l as [|[s v] l IH]; simpl; lia.
Qed.

Lemma logsum_nonneg P l : Forall (λ x, 0 <= x.2) l → 0 <= logsum P l.
Proof. induction 1 as [|[s v] l Hv _ IH]; simpl in *; [lia|]. destruct (P s); lia. Qed.

Lemma logsum_mono P Q l :
  Forall (λ x, 0 <= x.2) l → (∀ s, P s = true → Q s = true) → logsum P l <= logsum Q l.
Proof.
  intros Hl HPQ. induction Hl as [|[s v] l Hv _ IH]; simpl in *; [lia|].
  pose proof (HPQ s). destruct (P s), (Q s); naive_solver lia.
Qed.

(** ** Wrapped sums *)

Lemma i64_sub a b : i64 (i64 a - i64 b) = i64 (a - b).
Proof.
  rewrite <- Z.add_opp_r, i64_add_l. unfold i64 at 1 3. f_equal. unfold i64.
  replace (a + - ((b + two63) mod two64 - two63) + two63) with (a + two63 + two63 - (b + two63) mod two64) by lia.
  rewrite Zminus_mod_idemp_r. f_equal. lia.
Qed.

Lemma i64_0 : i64 0 = 0.
Proof. done. Qed.

(** ** The ring *)

(** The ring index of the bucket [k] minutes old. *)
Definition idx (n h k : nat) : nat := if decide (k <= h)%nat then (h - k)%nat else (h + n - k)%nat.

Lemma mod_idx n h i : (h < n)%nat → (1 <= i <= n)%nat → ((h + i) mod n)%nat = idx n h (n - i).
Proof.
  intros Hh Hi. unfold idx. destruct (decide (h + i < n)%nat).
  - rewrite Nat.mod_small by lia. case_decide; lia.
  - rewrite <- (Nat.mod_unique (h + i) n 1 (h + i - n)) by lia. case_decide; lia.
Qed.

(** The ring holds, per minute of the window ending at [hm], the wrapped sum of the
    amounts logged in that minute, and [tot] the wrapped sum of them all. *)
Record ring_of (n : nat) (r : list Z) (h : nat) (hm tot : Z) (log : list (Z * Z)) : Prop := {
  ro_len : length r = n;
  ro_head : (h < n)%nat;
  ro_bucket : ∀ k, (k < n)%nat → nth (idx n h k) r 0 = i64 (logsum (λ s, s =? hm - Z.of_nat k) log);
  ro_total : tot = i64 (logsum (λ s, hm - Z.of_nat n <? s) log);
  ro_past : ∀ x, x ∈ log → x.1 <= hm }.

Lemma nth_insert (r : list Z) i j v :
  (i < length r)%nat → nth j (<[i := v]> r) 0 = if decide (j = i) then v else nth j r 0.
Proof.
  intros Hi. rewrite !nth_lookup. case_decide; subst.
  - by rewrite list_lookup_insert_eq.
  - by rewrite list_lookup_insert_ne by done.
Qed.

Lemma ring_tick n r h hm tot log :
  ring_of n r h hm tot log →
  ring_of n (<[((h + 1) mod n)%nat := 0]> r) ((h + 1) mod n)%nat (hm + 1)
    (i64 (tot - nth ((h + 1) mod n)%nat r 0)) log.
Proof.
  intros [Hl Hh Hb Ht Hp]. rewrite mod_idx by lia. set (h' := idx n h (n - 1)).
  assert (h' < n)%nat as Hh' by (unfold h', idx; case_decide; lia).
  split; [by rewrite length_insert|done| | |].
  - intros k Hk. rewrite nth_insert by lia. destruct (decide (idx n h' k = h')) as [E|E].
    + assert (k = 0)%nat as -> by (unfold idx in E; case_decide; lia).
      rewrite logsum_none; [done|]. intros x Hx. apply Hp in Hx. apply Z.eqb_neq. lia.
    + assert (k ≠ 0)%nat by (intros ->; unfold idx in E; case_decide; lia).
      replace (idx n h' k) with (idx n h (k - 1)).
      * rewrite Hb by lia. f_equal. apply logsum_ext. intros x _. f_equal. lia.
      * unfold h', idx. repeat case_decide; lia.
  - rewrite Ht. unfold h'. rewrite Hb by lia. rewrite i64_sub. f_equal.
    rewrite (logsum_split (λ s, hm - Z.of_nat n <? s) (λ s, s =? hm + 1 - Z.of_nat n)).
    rewrite (logsum_ext (λ s, (hm - Z.of_nat n <? s) && (s =? hm + 1 - Z.of_nat n)) (λ s, s =? hm - Z.of_nat (n - 1))).
    2: { intros x _. destruct (Z.ltb_spec (hm - Z.of_nat n) x.1), (Z.eqb_spec x.1 (hm + 1 - Z.of_nat n)),
           (Z.eqb_spec x.1 (hm - Z.of_nat (n - 1))); simpl; try done; lia. }
    rewrite (logsum_ext (λ s, (hm - Z.of_nat n <? s) && negb _) (λ s, hm + 1 - Z.of_nat n <? s)); [lia|].
    intros x _. destruct (Z.ltb_spec (hm - Z.of_nat n) x.1), (Z.eqb_spec x.1 (hm + 1 - Z.of_nat n)),
      (Z.ltb_spec (hm + 1 - Z.of_nat n) x.1); simpl; try done; lia.
  - intros x Hx. apply Hp in Hx. lia.
Qed.

Lemma ring_ticks k : ∀ n r h hm tot log r' h' tot',
  ring_of n r h hm tot log → advance_loop k r h tot = (r', h', tot') →
  ring_of n r' h' (hm + Z.of_nat k) tot' log.
Proof.
  induction k as [|k IH]; intros n r h hm tot log r' h' tot' H E; cbn [advance_loop] in E.
  - simplify_eq. by rewrite Z.add_0_r.
  - apply ring_tick in H as H'. rewrite (ro_len _ _ _ _ _ _ H) in E.
    replace (hm + Z.of_nat (S k)) with (hm + 1 + Z.of_nat k) by lia. eapply IH; done.
Qed.

Lemma ring_clear n hm log :
  (0 < n)%nat → (∀ x, x ∈ log → x.1 <= hm - Z.of_nat n) → ring_of n (replicate n 0) 0 hm 0 log.
Proof.
  intros Hn Hp. split; [by rewrite length_replicate|done| | |].
  - intros k Hk. rewrite logsum_none.
    + rewrite nth_lookup. destruct (replicate n 0 !! idx n 0 k) eqn:E; [|done].
      by apply lookup_replicate in E as [-> _].
    + intros x Hx. apply Hp in Hx. apply Z.eqb_neq. lia.
  - rewrite logsum_none; [done|]. intros x Hx. apply Hp in Hx. apply Z.ltb_ge. lia.
  - intros x Hx. apply Hp in Hx. lia.
Qed.

Lemma ring_add n r h hm tot log v :
  ring_of n r h hm tot log →
  ring_of n (<[h := i64 (nth h r 0 + v)]> r) h hm (i64 (tot + v)) (log ++ [(hm, v)]).
Proof.
  intros [Hl Hh Hb Ht Hp]. split; [by rewrite length_insert|done| | |].
  - intros k Hk. rewrite nth_insert by lia. rewrite logsum_app. simpl. rewrite Z.add_0_r.
    case_decide as E.
    + assert (k = 0)%nat as -> by (unfold idx in E; case_decide; lia).
      specialize (Hb 0%nat Hk). rewrite E in Hb. rewrite Hb, i64_add_l. rewrite (proj2 (Z.eqb_eq _ _)) by lia. done.
    + assert (k ≠ 0)%nat by (intros ->; unfold idx in E; case_decide; lia).
      rewrite Hb by done. rewrite (proj2 (Z.eqb_neq _ _)) by lia. by rewrite Z.add_0_r.
  - rewrite Ht, i64_add_l, logsum_app. simpl. rewrite (proj2 (Z.ltb_lt _ _)) by lia. f_equal. lia.
  - intros x [Hx|Hx]%elem_of_app; [by apply Hp|]. apply list_elem_of_singleton in Hx as ->. simpl. lia.
Qed.

(** ** A counter and its log *)

Definition cur (c : counter) : Z := if isRolling (cw c) then headMin c else periodStart c.

(** [c] counts window [w] with [log] recorded. *)
Record counts (w : Window) (c : counter) (log : list (Z * Z)) : Prop := {
  co_w : cw c = w;
  co_valid : Valid w = true;
  co_ring : isRolling w = true →
    ring_of (Z.to_nat (buckets w)) (ring c) (chead c) (headMin c) (total c) log;
  co_cal : isRolling w = false →
    value c = i64 (logsum (λ s, s =? periodStart c) log) ∧ ∀ x, x ∈ log → x.1 <= periodStart c }.

Lemma buckets_pos w : isRolling w = true → 1 <= buckets w.
Proof. intros H. unfold buckets. rewrite H. case_match; lia. Qed.

Lemma counts_new w now c : newCounter w now = Ok c → counts w c [] ∧ cur c = slot w now.
Proof.
  unfold newCounter, cur, slot. destruct (Valid w) eqn:Hv; simpl; [|done].
  destruct (isRolling w) eqn:Hr; simpl.
  - case_match; intros; simplify_eq. simpl. rewrite Hr. split; [|done]. split; simpl; try done; [|congruence].
    intros _. apply ring_clear; [pose proof (buckets_pos w Hr); lia|]. intros x Hx. by apply not_elem_of_nil in Hx.
  - intros; simplify_eq. simpl. rewrite Hr. split; [|done]. split; simpl; try done; [congruence|].
    intros _. split; [done|]. intros x Hx. by apply not_elem_of_nil in Hx.
Qed.

Lemma counts_advance w c log now :
  counts w c log → counts w (advance c now) log ∧ cur (advance c now) = Z.max (cur c) (slot w now).
Proof.
  intros H0. pose proof H0 as [Hw Hv Hr Hc]. unfold advance, slot, cur. rewrite Hw.
  destruct (isRolling w) eqn:R; cbn [negb].
  - specialize (Hr eq_refl) as HR.
    destruct (Z.leb_spec (minuteOf now) (headMin c)); [rewrite Hw, R; split; [done|lia]|].
    pose proof (ro_len _ _ _ _ _ _ HR) as Hl. pose proof (buckets_pos w R) as Hn. rewrite Hl.
    destruct (Z.leb_spec (Z.of_nat (Z.to_nat (buckets w))) (minuteOf now - headMin c)).
    + simpl. rewrite R. split; [|lia]. split; simpl; try done; [|congruence]. intros _. apply ring_clear; [lia|].
      intros x Hx. apply (ro_past _ _ _ _ _ _ HR) in Hx. lia.
    + destruct (advance_loop _ _ _ _) as [[r h] tot] eqn:E. simpl. rewrite R. split; [|lia].
      split; simpl; try done; [|congruence].
      intros _. eapply ring_ticks in E; [|done]. by replace (minuteOf now)
        with (headMin c + Z.of_nat (Z.to_nat (minuteOf now - headMin c))) by lia.
  - destruct (Hc eq_refl) as [HV HP]. unfold After. destruct (Z.ltb_spec (periodStart c) (PeriodStart w now)); simpl.
    + rewrite R. split; [|lia]. split; simpl; try done; [congruence|]. intros _.
      rewrite logsum_none; [split; [done|]|]; intros x Hx; apply HP in Hx; [|apply Z.eqb_neq]; lia.
    + rewrite Hw, R. split; [done|lia].
Qed.

Lemma counts_add w c log now v :
  counts w c log → counts w (add c now v) (log ++ [(Z.max (cur c) (slot w now), v)])
  ∧ cur (add c now v) = Z.max (cur c) (slot w now).
Proof.
  intros H. destruct (counts_advance w c log now H) as [[Hw Hv Hr Hc] E].
  unfold add. set (c' := advance c now) in *. rewrite <- E. rewrite Hw. unfold cur. rewrite Hw.
  destruct (isRolling w) eqn:R; cbn [negb]; simpl; rewrite ?Hw, R; (split; [|done]).
  - split; simpl; try done; [|congruence]. intros _. by apply ring_add, Hr.
  - split; simpl; try done; [congruence|]. intros _. destruct (Hc eq_refl) as [HV HP]. split.
    + rewrite HV, i64_add_l, logsum_app. simpl. rewrite Z.eqb_refl. f_equal. lia.
    + intros x [Hx|Hx]%elem_of_app; [by apply HP|]. apply list_elem_of_singleton in Hx as ->. simpl. lia.
Qed.

Lemma counts_sum w c log now :
  counts w c log → (sum c now).2 = i64 (logsum (in_window w (Z.max (cur c) (slot w now))) log).
Proof.
  intros H. destruct (counts_advance w c log now H) as [[Hw Hv Hr Hc] E]. unfold sum; simpl.
  rewrite Hw. rewrite <- E. unfold cur, in_window. rewrite Hw. destruct (isRolling w) eqn:R; cbn [negb].
  - rewrite (ro_total _ _ _ _ _ _ (Hr eq_refl)). pose proof (buckets_pos w R). by rewrite Z2Nat.id by lia.
  - by apply Hc.
Qed.

Lemma counts_run w ops : ∀ c log,
  counts w c log → counts w (run c ops) (log ++ landed w (cur c) ops)
  ∧ cur (run c ops) = last_slot w (cur c) ops.
Proof.
  induction ops as [|[t v] ops IH]; intros c log H; cbn [run foldl landed last_slot].
  - by rewrite app_nil_r.
  - destruct (counts_add w c log t v H) as [H1 E1]. destruct (IH _ _ H1) as [H2 E2].
    rewrite E1 in H2, E2. rewrite <- app_assoc in H2. by split.
Qed.

(** A window counter is exact: after recording any amounts at any instants (late ones
    included) it answers, modulo 2^64, the sum of the amounts whose slot is inside
    the window: for a rolling window the last [buckets] minutes, for a calendar
    window the current period. *)
Lemma counter_sum_exact w t0 c ops now :
  newCounter w t0 = Ok c →
  (sum (run c ops) now).2
  = i64 (logsum (in_window w (Z.max (last_slot w (slot w t0) ops) (slot w now))) (landed w (slot w t0) ops)).
Proof.
  intros H. destruct (counts_new w t0 c H) as [H1 E1]. destruct (counts_run w ops c [] H1) as [H2 E2].
  rewrite (counts_sum w _ _ now H2), E2, E1. done.
Qed.

(** Advancing twice to the same instant is advancing once. *)
Lemma advance_idem c now : advance (advance c now) now = advance c now.
Proof.
  unfold advance at 2 3. destruct (isRolling (cw c)) eqn:R; cbn [negb].
  - destruct (Z.leb_spec (minuteOf now) (headMin c)).
    + unfold advance. rewrite R. cbn [negb]. by rewrite (proj2 (Z.leb_le _ _)).
    + destruct (_ <=? _).
      * unfold advance. cbn [cw]. rewrite R. cbn [negb headMin]. by rewrite Z.leb_refl.
      * destruct (advance_loop _ _ _ _) as [[r h] tot]. unfold advance. cbn [cw]. rewrite R. cbn [negb headMin].
        by rewrite Z.leb_refl.
  - unfold After. destruct (Z.ltb_spec (periodStart c) (PeriodStart (cw c) now)).
    + unfold advance. cbn [cw]. rewrite R. cbn [negb periodStart]. unfold After. by rewrite Z.ltb_irrefl.
    + unfold advance. rewrite R. cbn [negb]. unfold After. by rewrite (proj2 (Z.ltb_ge _ _)).
Qed.

(** ** When an exhausted counter recovers *)

Lemma minuteOf_mono a b : a <= b → minuteOf a <= minuteOf b.
Proof.
  intros H. unfold minuteOf, Unix. apply Z.quot_le_mono; [lia|].
  apply Z.div_le_mono; [unfold Second; lia|done].
Qed.

Lemma minuteOf_at m T : 0 <= m → fromUnix (m * 60) <= T → m <= minuteOf T.
Proof.
  intros Hm H. unfold minuteOf, Unix, fromUnix, Second in *.
  assert (m * 60 <= T / 1000000000) by (apply Z.div_le_lower_bound; lia).
  rewrite Z.quot_div_nonneg by lia. apply Z.div_le_lower_bound; lia.
Qed.

Lemma minuteOf_before m T : 0 <= T → T < fromUnix (m * 60) → minuteOf T < m.
Proof.
  intros HT H. unfold minuteOf, Unix, fromUnix, Second in *.
  pose proof (Z.div_pos T 1000000000 HT ltac:(lia)).
  assert (T / 1000000000 < m * 60) by (apply Z.div_lt_upper_bound; lia).
  rewrite Z.quot_div_nonneg by lia. apply Z.div_lt_upper_bound; lia.
Qed.

(** Later instants are in later periods. *)
Lemma PeriodStart_mono w a b : Valid w = true → a <= b → PeriodStart w a <= PeriodStart w b.
Proof.
  intros Hv Hab. destruct (Z.le_gt_cases (PeriodStart w a) (PeriodStart w b)) as [|N]; [done|].
  pose proof (period_contains w a Hv). pose proof (period_contains w b Hv).
  pose proof (period_same w a (PeriodStart w a) Hv ltac:(lia)) as E1.
  pose proof (period_same w b (PeriodStart w a) Hv ltac:(lia)) as E2. lia.
Qed.

Lemma slot_mono w a b : Valid w = true → a <= b → slot w a <= slot w b.
Proof.
  intros Hv Hab. unfold slot. destruct (isRolling w); [by apply minuteOf_mono|by apply PeriodStart_mono].
Qed.

(** Reading a counter early does not change what it reads later. *)
Lemma sum_after_advance w c log now T :
  counts w c log → now <= T → (sum (advance c now) T).2 = (sum c T).2.
Proof.
  intros H HT. destruct (counts_advance w c log now H) as [H' E].
  rewrite (counts_sum w _ _ T H'), (counts_sum w _ _ T H), E. do 3 f_equal.
  pose proof (slot_mono w now T (co_valid _ _ _ H) HT). lia.
Qed.

Lemma last_slot_le w ops : ∀ k M,
  k <= M → (∀ op, op ∈ ops → slot w op.1 <= M) → last_slot w k ops <= M.
Proof.
  induction ops as [|op ops IH]; intros k M Hk Hops; cbn [last_slot foldl]; [done|].
  apply IH; [|intros; apply Hops; by right]. pose proof (Hops op ltac:(by left)). lia.
Qed.

Lemma landed_values w ops : ∀ k,
  Forall (λ x, 0 <= x.2) ops →
  Forall (λ x, 0 <= x.2) (landed w k ops) ∧ logsum (λ _, true) (landed w k ops) = logsum (λ _, true) ops.
Proof.
  induction ops as [|[t v] ops IH]; intros k H; cbn [landed logsum]; [done|].
  apply Forall_cons in H as [Hv H]. destruct (IH (Z.max k (slot w t)) H) as [H1 ->]. split; [by constructor|done].
Qed.

Section Recovery.
Context (w : Window) (log : list (Z * Z)).
Hypothesis nonneg : Forall (λ x, 0 <= x.2) log.
Hypothesis bounded : logsum (λ _, true) log < two63.

Lemma logsum_i64 P : i64 (logsum P log) = logsum P log.
Proof using nonneg bounded.
  pose proof (logsum_nonneg P log nonneg).
  pose proof (logsum_mono P (λ _, true) log nonneg ltac:(done)). apply i64_id. unfold is_i64. lia.
Qed.

(** What the [i] oldest minutes of the window ending at [M] hold. *)
Definition oldest (M n i : Z) : Z := logsum (λ s, (M - n <? s) && (s <=? M - n + i)) log.

Lemma oldest_split M n i :
  0 <= i → logsum (λ s, M - n <? s) log = oldest M n i + logsum (λ s, M + i - n <? s) log.
Proof using.
  intros Hi. rewrite (logsum_split (λ s, M - n <? s) (λ s, s <=? M - n + i)). unfold oldest. f_equal.
  apply logsum_ext. intros x _. destruct (Z.ltb_spec (M - n) x.1), (Z.leb_spec x.1 (M - n + i)),
    (Z.ltb_spec (M + i - n) x.1); simpl; try done; lia.
Qed.

Lemma oldest_step M n i :
  0 <= i → oldest M n (i + 1) = oldest M n i + logsum (λ s, s =? M - n + (i + 1)) log.
Proof using.
  intros Hi. unfold oldest. rewrite (logsum_split _ (λ s, s <=? M - n + i)). f_equal; apply logsum_ext; intros x _;
    destruct (Z.ltb_spec (M - n) x.1), (Z.leb_spec x.1 (M - n + i)), (Z.leb_spec x.1 (M - n + (i + 1)));
    simpl; try done; try lia; symmetry; first [apply Z.eqb_eq; lia|apply Z.eqb_neq; lia].
Qed.

Lemma reset_loop_spec n M tot need c fuel : ∀ i shed,
  ring_of n (ring c) (chead c) (headMin c) tot log → headMin c = M →
  (i + fuel = n + 1)%nat → (1 <= i)%nat → shed = oldest M (Z.of_nat n) (Z.of_nat (i - 1)) →
  shed < need → need <= oldest M (Z.of_nat n) (Z.of_nat n) →
  ∃ j, reset_loop fuel c need shed i = Some (fromUnix ((M + Z.of_nat j) * 60))
    ∧ (i <= j <= n)%nat ∧ need <= oldest M (Z.of_nat n) (Z.of_nat j)
    ∧ ∀ j', (i - 1 <= j' < j)%nat → oldest M (Z.of_nat n) (Z.of_nat j') < need.
Proof using nonneg bounded.
  induction fuel as [|f IH]; intros i shed HR HM Hf Hi Hs Hlt Hge; cbn [reset_loop].
  { exfalso. replace (i - 1)%nat with n in Hs by lia. lia. }
  rewrite (ro_len _ _ _ _ _ _ HR), mod_idx by (pose proof (ro_head _ _ _ _ _ _ HR); lia).
  rewrite (ro_bucket _ _ _ _ _ _ HR), logsum_i64 by lia.
  assert (shed + logsum (λ s, s =? headMin c - Z.of_nat (n - i)) log = oldest M (Z.of_nat n) (Z.of_nat i)) as E.
  { replace (Z.of_nat i) with (Z.of_nat (i - 1) + 1) by lia. rewrite oldest_step by lia. rewrite Hs. f_equal.
    apply logsum_ext. intros x _. f_equal. lia. }
  rewrite E. unfold oldest at 1 2. rewrite logsum_i64. fold (oldest M (Z.of_nat n) (Z.of_nat i)).
  destruct (Z.leb_spec need (oldest M (Z.of_nat n) (Z.of_nat i))).
  - exists i. split_and!; try lia; [do 3 f_equal; lia|]. intros j' Hj. by replace j' with (i - 1)%nat by lia; subst.
  - destruct (IH (S i) (oldest M (Z.of_nat n) (Z.of_nat i)) HR HM) as (j & Ej & Hj & Hneed & Hbefore); try lia.
    { do 2 f_equal. lia. }
    exists j. split_and!; try done; try lia. intros j' Hj'. destruct (decide (j' = i - 1)%nat) as [->|]; [by subst|].
    apply Hbefore. lia.
Qed.

(** The recovery instant of a rolling window. *)
Lemma reset_rolling c now limit :
  counts w c log → isRolling w = true → 0 <= now → cur c <= slot w now →
  0 < limit < two63 → limit <= (sum c now).2 →
  let r := (resetAt c now limit).2 in
  now < r ∧ (∀ T, now <= T < r → limit <= (sum c T).2) ∧ (∀ T, r <= T → (sum c T).2 < limit).
Proof using nonneg bounded.
  intros Hc R H0 Hcur Hlim Hused.
  assert (∀ T, now <= T → (sum c T).2 = logsum (λ s, minuteOf T - buckets w <? s) log) as Hsum.
  { intros T HT. rewrite (counts_sum w c log T Hc), logsum_i64. unfold in_window. rewrite R. apply logsum_ext.
    intros x _. f_equal. pose proof (slot_mono w now T (co_valid _ _ _ Hc) HT). unfold slot in *. rewrite R in *. lia. }
  destruct (counts_advance w c log now Hc) as [Hc' E]. set (c' := advance c now) in *.
  pose proof (co_ring _ _ _ Hc' R) as HR. pose proof (buckets_pos w R) as Hn.
  set (n := Z.to_nat (buckets w)) in *. assert (buckets w = Z.of_nat n) as En by lia. set (M := minuteOf now).
  assert (headMin c' = M) as HM.
  { unfold cur in E, Hcur. rewrite (co_w _ _ _ Hc'), (co_w _ _ _ Hc), R in E. rewrite (co_w _ _ _ Hc), R in Hcur.
    unfold slot in *. rewrite R in *. unfold M. lia. }
  rewrite Hsum in Hused by lia. fold M in Hused. rewrite En in Hused, Hsum.
  assert (total c' = logsum (λ s, M - Z.of_nat n <? s) log) as Ht
    by (rewrite (ro_total _ _ _ _ _ _ HR), HM; apply logsum_i64).
  unfold resetAt; cbn [snd]; fold c'. rewrite (co_w _ _ _ Hc'), R; cbn [negb].
  pose proof (logsum_mono (λ s, M - Z.of_nat n <? s) (λ _, true) log nonneg ltac:(done)) as Hle.
  rewrite Ht. rewrite i64_id by (unfold is_i64; lia). set (S0 := logsum (λ s, M - Z.of_nat n <? s) log) in *.
  rewrite (proj2 (Z.leb_gt _ 0)) by lia. rewrite (ro_len _ _ _ _ _ _ HR).
  assert (oldest M (Z.of_nat n) (Z.of_nat n) = S0) as EA.
  { unfold S0. rewrite (oldest_split M (Z.of_nat n) (Z.of_nat n)) by lia. rewrite (logsum_none (λ s, M + _ - _ <? s)); [lia|].
    intros x Hx. apply (ro_past _ _ _ _ _ _ HR) in Hx. apply Z.ltb_ge. lia. }
  assert (oldest M (Z.of_nat n) 0 = 0) as EA0.
  { apply logsum_none. intros x _. destruct (Z.ltb_spec (M - Z.of_nat n) x.1), (Z.leb_spec x.1 (M - Z.of_nat n + 0)); simpl; try done; lia. }
  destruct (reset_loop_spec n M (total c') (S0 - limit + 1) c' n 1 0 HR HM) as (j & -> & Hj & Hneed & Hbefore); try lia.
  { done. }
  assert (0 <= M) as HM0 by (unfold M; change 0 with (minuteOf 0); by apply minuteOf_mono).
  assert (now < fromUnix ((M + Z.of_nat j) * 60)) as Hr.
  { destruct (Z.lt_ge_cases now (fromUnix ((M + Z.of_nat j) * 60))) as [|N]; [done|].
    apply minuteOf_at in N; [|lia]. fold M in N. lia. }
  split_and!; [done| |].
  - intros T [HT1 HT2]. rewrite Hsum by done. pose proof (minuteOf_before _ T ltac:(lia) HT2).
    pose proof (minuteOf_mono now T HT1) as HmT. fold M in HmT.
    set (i := Z.to_nat (minuteOf T - M)). pose proof (Hbefore i ltac:(lia)) as Hi.
    pose proof (oldest_split M (Z.of_nat n) (Z.of_nat i) ltac:(lia)) as Es. fold S0 in Es.
    replace (M + Z.of_nat i) with (minuteOf T) in Es by lia. lia.
  - intros T HT. rewrite Hsum by lia. apply minuteOf_at in HT; [|lia].
    pose proof (oldest_split M (Z.of_nat n) (Z.of_nat j) ltac:(lia)) as Es. fold S0 in Es.
    assert (logsum (λ s, minuteOf T - Z.of_nat n <? s) log <= logsum (λ s, M + Z.of_nat j - Z.of_nat n <? s) log); [|lia].
    apply logsum_mono; [done|]. intros s. rewrite !Z.ltb_lt. lia.
Qed.

(** The recovery instant of a calendar window. *)
Lemma reset_calendar c now limit :
  counts w c log → isRolling w = false → cur c <= slot w now → 0 < limit → limit <= (sum c now).2 →
  let r := (resetAt c now limit).2 in
  now < r ∧ (∀ T, now <= T < r → limit <= (sum c T).2) ∧ (∀ T, r <= T → (sum c T).2 < limit).
Proof using nonneg bounded.
  intros Hc R Hcur Hlim Hused. pose proof (co_valid _ _ _ Hc) as Hv.
  destruct (counts_advance w c log now Hc) as [Hc' _].
  unfold resetAt; cbn [snd]. rewrite (co_w _ _ _ Hc'), R; cbn [negb].
  pose proof (period_contains w now Hv) as HP.
  assert (∀ T, now <= T → (sum c T).2 = logsum (λ s, s =? PeriodStart w T) log) as Hsum.
  { intros T HT. rewrite (counts_sum w c log T Hc), logsum_i64. unfold in_window. rewrite R. apply logsum_ext.
    intros x _. f_equal. pose proof (slot_mono w now T Hv HT). unfold slot in *. rewrite R in *. lia. }
  split_and!; [lia| |].
  - intros T HT. rewrite Hsum in * by lia. by rewrite (period_same w now T Hv) by lia.
  - intros T HT. rewrite Hsum by lia.
    assert (PeriodEnd w now <= PeriodStart w T) as HE.
    { rewrite <- (period_next w now Hv). by apply PeriodStart_mono. }
    rewrite logsum_none; [lia|]. intros x Hx. apply Z.eqb_neq.
    destruct (co_cal _ _ _ Hc R) as [_ Hpast]. apply Hpast in Hx.
    unfold cur, slot in Hcur. rewrite (co_w _ _ _ Hc), R in Hcur. lia.
Qed.
End Recovery.

Lemma resetAt_recovery w t0 c ops now limit r :
  newCounter w t0 = Ok c → 0 <= now → t0 <= now →
  Forall (λ op, op.1 <= now ∧ 0 <= op.2) ops → logsum (λ _, true) ops < two63 →
  0 < limit < two63 → limit <= (sum (run c ops) now).2 →
  (resetAt (run c ops) now limit).2 = r →
  now < r ∧ (∀ T, now <= T < r → limit <= (sum (run c ops) T).2)
  ∧ (∀ T, r <= T → (sum (run c ops) T).2 < limit).
Proof.
  intros Hnew H0 Ht0 Hops Hb Hlim Hused <-. destruct (counts_new w t0 c Hnew) as [H1 E1].
  destruct (counts_run w ops c [] H1) as [H2 E2]. rewrite app_nil_l in H2. pose proof (co_valid _ _ _ H2) as Hv.
  rewrite Forall_forall in Hops.
  destruct (landed_values w ops (cur c)) as [Hn Es]; [apply Forall_forall; intros x Hx; by apply Hops|].
  assert (cur (run c ops) <= slot w now) as Hcur.
  { rewrite E2, E1. apply last_slot_le; [by apply slot_mono|]. intros op Hop. apply slot_mono; [done|]. by apply Hops. }
  destruct (isRolling w) eqn:R.
  - eapply reset_rolling; try done. lia.
  - eapply reset_calendar; try done; lia.
Qed.

(** [resetAt] is the earliest recovery: for a counter at or over its limit, fed
    non-negative amounts at instants up to [now] that do not overflow, every instant
    before the one it returns still reads at or over the limit, and every instant
    from it on reads below the limit (nothing else being recorded). *)
Theorem resetAt_earliest w t0 c ops now limit r :
  newCounter w t0 = Ok c → 0 <= now → t0 <= now →
  Forall (λ op, op.1 <= now ∧ 0 <= op.2) ops → logsum (λ _, true) ops < two63 →
  0 < limit < two63 → limit <= (sum (run c ops) now).2 →
  (resetAt (run c ops) now limit).2 = r →
  now < r ∧ (∀ T, now <= T < r → limit <= (sum (run c ops) T).2)
  ∧ (∀ T, r <= T → (sum (run c ops) T).2 < limit).
Proof. exact (resetAt_recovery w t0 c ops now limit r). Qed.

(** Three minutes of ring, five units in the first minute and seven in the second. *)
Definition demo_counter : counter := mkCounter (Rolling (3 * Minute)) [0; 0; 0] 0 0 0 zeroTime 0.
Definition demo_ops : list (Z * Z) := [(0, 5); (61 * Second, 7)].

Lemma resetAt_earliest_witness :
  newCounter (Rolling (3 * Minute)) 0 = Ok demo_counter
  ∧ (resetAt (run demo_counter demo_ops) (2 * Minute) 8).2 = 3 * Minute
  ∧ (sum (run demo_counter demo_ops) (3 * Minute)).2 < 8.
Proof.
  assert (0 <= 2 * Minute) as H6 by by vm_compute. assert (0 < 8 < two63) as H7 by by vm_compute.
  assert (newCounter (Rolling (3 * Minute)) 0 = Ok demo_counter) as H1 by by vm_compute.
  assert (Forall (λ op, op.1 <= 2 * Minute ∧ 0 <= op.2) demo_ops) as H2
    by (repeat constructor; by vm_compute).
  assert (logsum (λ _, true) demo_ops < two63) as H3 by by vm_compute.
  assert (8 <= (sum (run demo_counter demo_ops) (2 * Minute)).2) as H4 by by vm_compute.
  assert ((resetAt (run demo_counter demo_ops) (2 * Minute) 8).2 = 3 * Minute) as H5 by by vm_compute.
  split; [done|]. split; [done|].
  pose proof (resetAt_earliest (Rolling (3 * Minute)) 0 demo_counter demo_ops (2 * Minute) 8 (3 * Minute)
    H1 H6 H6 H2 H3 H7 H4 H5) as (_ & _ & H).
  apply H. done.
Defined.
