(* ===== verification/Tracker.v ===== *)
(** * Provider-reported usage ([internal/quota/provider.go])

    A tracker keeps the provider's own figures for one credential and combines
    them with what was metered locally since. The local side is an interface: a
    process-lifetime total per metric, which the meter implements. Polling itself
    is I/O and not modelled; its two effects on the tracker, [Adopt] and [Fail],
    are. *)
From stdpp Require Import base gmap list strings.
From Stdlib Require Import ZArith Lia.
From S2P Require Import Prelude GoTime F64 Window.
Import Time.
Open Scope Z_scope.
#[local] Set Default Proof Using "Type*".

#[export] Instance WindowKind_eq_dec : EqDecision WindowKind.
Proof. solve_decision. Defined.
#[export] Instance Window_eq_dec : EqDecision Window.
Proof. solve_decision. Defined.

Definition kind_code (k : WindowKind) : Z :=
  match k with KindRolling => 0 | KindDaily => 1 | KindWeekly => 2 | KindMonthly => 3 end.
Definition kind_decode (z : Z) : WindowKind :=
  match z with 0 => KindRolling | 1 => KindDaily | 2 => KindWeekly | _ => KindMonthly end.

#[export] Program Instance Window_countable : Countable Window :=
  inj_countable' (λ w, (kind_code (kind w), dur w)) (λ p, mkWindow (kind_decode p.1) p.2) _.
Next Obligation. intros [[] d]; done. Qed.

(** [LocalCounter]: a monotone total per metric. *)
Class LocalCounter (L : Type) : Type := Cumulative : L → Metric → Z.

Record ProviderWindow : Type := mkPW {
  PWindow : Window; PMetric : Metric; PUsed : Z; PLimit : Z; UsedPct : F64.t; PResetAt : Z }.

Definition hundred : F64.t := F64.of_Z 100.

Record baseline : Type := mkBaseline {
  bused : Z; blimit : Z; bat : Z; localAt : Z; bresetAt : Z; pct : F64.t; babs : bool }.

Definition wmKey : Type := Window * Metric.

(** [tlocal] says whether the tracker was given a local counter. *)
Record Tracker : Type := mkTracker {
  tlocal : bool; tbase : gmap wmKey baseline; lastOK : Z; lastTry : Z;
  lastErr : option string; tfailures : Z; tpolls : Z }.

Record ProbeResult : Type := mkProbe { FetchedAt : Z; PWindows : list ProviderWindow }.

Definition NewTracker (local : bool) : Tracker := mkTracker local ∅ zeroTime zeroTime None 0 0.

Section Tracker.
Context `{LocalCounter L}.
(** What [int64(x)] gives for a float that does not fit. *)
Variable unspecified : F64.t → Z.

Definition normalize (w : ProviderWindow) : ProviderWindow :=
  let w := if (PUsed w =? 0) && (0 <? PLimit w) && F64.gt (UsedPct w) F64.zero
           then mkPW (PWindow w) (PMetric w)
                  (F64.to_i64 unspecified (F64.div (F64.mul (F64.of_Z (PLimit w)) (UsedPct w)) hundred))
                  (PLimit w) (UsedPct w) (PResetAt w)
           else w in
  if (0 <? PUsed w) && (0 <? PLimit w) && F64.eq (UsedPct w) F64.zero
  then mkPW (PWindow w) (PMetric w) (PUsed w) (PLimit w)
         (F64.div (F64.mul hundred (F64.of_Z (PUsed w))) (F64.of_Z (PLimit w))) (PResetAt w)
  else w.

Definition cumulative (t : Tracker) (l : L) (m : Metric) : Z := if tlocal t then Cumulative l m else 0.

Definition adopt_one (l : L) (fetched : Z) (t : Tracker) (w : ProviderWindow) : Tracker :=
  let w := normalize w in
  let k := (PWindow w, PMetric w) in
  let cum := cumulative t l (PMetric w) in
  let abs := (0 <? PUsed w) || (0 <? PLimit w) in
  let used :=
    match tbase t !! k with
    | Some prev =>
        if abs && babs prev then
          let d := i64 (cum - localAt prev) in
          if 0 <? d then
            let est := i64 (bused prev + d) in
            if PUsed w <? est then est else PUsed w
          else PUsed w
        else PUsed w
    | None => PUsed w
    end in
  let used := if abs then used else 0 in
  mkTracker (tlocal t)
    (<[k := mkBaseline used (PLimit w) fetched cum (PResetAt w) (UsedPct w) abs]> (tbase t))
    (lastOK t) (lastTry t) (lastErr t) (tfailures t) (tpolls t).

Definition Adopt (t : Tracker) (l : L) (r : ProbeResult) : Tracker :=
  let t := mkTracker (tlocal t) (tbase t) (FetchedAt r) (FetchedAt r) None 0 (tpolls t + 1) in
  foldl (adopt_one l (FetchedAt r)) t (PWindows r).

Definition Fail (t : Tracker) (err : string) (now : Z) : Tracker :=
  mkTracker (tlocal t) (tbase t) (lastOK t) now (Some err) (tfailures t + 1) (tpolls t).

Definition Effective (t : Tracker) (l : L) (w : Window) (m : Metric) : option (Z * Z) :=
  match tbase t !! (w, m) with
  | Some b =>
      if babs b then
        let reported := bused b in
        let d := i64 (cumulative t l m - localAt b) in
        let withLocal := if 0 <? d then i64 (bused b + d) else bused b in
        if reported <? withLocal then Some (withLocal, blimit b) else Some (reported, blimit b)
      else None
  | None => None
  end.

Definition UsedPercent (t : Tracker) (w : Window) (m : Metric) : option F64.t :=
  match tbase t !! (w, m) with
  | Some b => if F64.le (pct b) F64.zero then None else Some (pct b)
  | None => None
  end.

Definition Tracker_ResetAt (t : Tracker) (w : Window) (m : Metric) : option Z :=
  match tbase t !! (w, m) with
  | Some b => if IsZero (bresetAt b) then None else Some (bresetAt b)
  | None => None
  end.

Definition Staleness (t : Tracker) (now : Z) : option Z :=
  if IsZero (lastOK t) then None else Some (Sub now (lastOK t)).

(** ** Properties *)

(** The baseline of a window, if any, was taken at a local total no greater than
    the current one, and nothing overflows. *)
Definition sane (t : Tracker) (l : L) (w : Window) (m : Metric) : Prop :=
  ∀ b, tbase t !! (w, m) = Some b →
    0 <= bused b ∧ 0 <= localAt b ∧ localAt b <= cumulative t l m
    ∧ bused b + (cumulative t l m - localAt b) < two63.

(** The combination in closed form. *)
Lemma Effective_sane t l w m :
  sane t l w m →
  Effective t l w m
  = match tbase t !! (w, m) with
    | Some b => if babs b then Some (bused b + (cumulative t l m - localAt b), blimit b) else None
    | None => None
    end.
Proof.
  intros Hs. unfold Effective. destruct (tbase t !! (w, m)) as [b|] eqn:E; [|done].
  destruct (babs b); [|done]. destruct (Hs b E) as (H1 & H2 & H3 & H4).
  rewrite (i64_id (_ - _)) by (unfold is_i64; widths; lia).
  destruct (Z.ltb_spec 0 (cumulative t l m - localAt b)).
  - rewrite i64_id by (unfold is_i64; widths; lia). by rewrite (proj2 (Z.ltb_lt _ _)) by lia.
  - rewrite Z.ltb_irrefl. do 2 f_equal. lia.
Qed.

(** What was metered locally on top of the last baseline of a window; [None] when
    there is no baseline in the metric's units or nothing was metered since. *)
Definition burst (t : Tracker) (l : L) (w : Window) (m : Metric) : option Z :=
  match tbase t !! (w, m) with
  | Some b => if babs b && (localAt b <? cumulative t l m)
              then Some (bused b + (cumulative t l m - localAt b)) else None
  | None => None
  end.

(** One window of a poll. *)
Lemma adopt_one_spec l fetched t w0 :
  let w := normalize w0 in
  sane t l (PWindow w) (PMetric w) → 0 <= PUsed w →
  Effective (adopt_one l fetched t w0) l (PWindow w) (PMetric w)
  = (if (0 <? PUsed w) || (0 <? PLimit w)
     then Some (Z.max (PUsed w) (default 0 (burst t l (PWindow w) (PMetric w))), PLimit w) else None).
Proof.
  intros w Hs Hu. unfold Effective, adopt_one, burst. fold w. simpl. rewrite lookup_insert_eq. simpl.
  destruct ((0 <? PUsed w) || (0 <? PLimit w)); [|done].
  unfold cumulative at 1 2. simpl. fold (cumulative t l (PMetric w)).
  rewrite Z.sub_diag, i64_id by (widths; lia). simpl. rewrite Z.ltb_irrefl. do 2 f_equal.
  destruct (tbase t !! (PWindow w, PMetric w)) as [b|] eqn:E; simpl; [|lia].
  destruct (babs b); simpl; [|lia]. destruct (Hs b E) as (H1 & H2 & H3 & H4).
  rewrite (i64_id (_ - _)) by (widths; lia).
  destruct (Z.ltb_spec 0 (cumulative t l (PMetric w) - localAt b)), (Z.ltb_spec (localAt b) (cumulative t l (PMetric w)));
    simpl; try lia.
  rewrite i64_id by (widths; lia).
  destruct (Z.ltb_spec (PUsed w) (bused b + (cumulative t l (PMetric w) - localAt b))); lia.
Qed.

(** A poll leaves the windows it does not mention alone. *)
Lemma adopt_other l fetched ws : ∀ t k,
  (∀ w, w ∈ ws → (PWindow (normalize w), PMetric (normalize w)) ≠ k) →
  tbase (foldl (adopt_one l fetched) t ws) !! k = tbase t !! k ∧ tlocal (foldl (adopt_one l fetched) t ws) = tlocal t.
Proof.
  induction ws as [|w ws IH]; intros t k Hk; simpl; [done|].
  destruct (IH (adopt_one l fetched t w) k) as [-> ->]; [intros; apply Hk; by right|].
  simpl. rewrite lookup_insert_ne; [done|]. apply Hk. by left.
Qed.

Lemma normalize_key w : PWindow (normalize w) = PWindow w ∧ PMetric (normalize w) = PMetric w.
Proof. unfold normalize. repeat case_match; done. Qed.

(** A poll cannot erase a burst: for every window a probe reports in absolute
    terms, the combined figure becomes the larger of the report and the previous
    figure plus what was metered locally since the previous poll; with nothing
    metered locally in between, it becomes the report. *)
Theorem adopt_keeps_burst t l r w :
  sane t l (PWindow w) (PMetric w) → w ∈ PWindows r → NoDup (map (λ w, (PWindow w, PMetric w)) (PWindows r)) →
  0 <= PUsed (normalize w) → 0 < PUsed (normalize w) ∨ 0 < PLimit w →
  Effective (Adopt t l r) l (PWindow w) (PMetric w)
  = Some (Z.max (PUsed (normalize w)) (default 0 (burst t l (PWindow w) (PMetric w))), PLimit w).
Proof.
  intros Hs Hin Hnd Hu Habs. apply list_elem_of_split in Hin as (ws1 & ws2 & Ews). unfold Adopt. rewrite Ews in *.
  rewrite map_app in Hnd. apply NoDup_app in Hnd as (_ & Hd & Hnd2). simpl in Hnd2. apply NoDup_cons in Hnd2 as [Hn2 _].
  set (t0 := mkTracker _ _ _ _ _ _ _). rewrite foldl_app. simpl.
  set (t1 := foldl (adopt_one l (FetchedAt r)) t0 ws1).
  destruct (normalize_key w) as [Ew Em].
  assert (tbase t1 !! (PWindow w, PMetric w) = tbase t !! (PWindow w, PMetric w) ∧ tlocal t1 = tlocal t) as [E1 L1].
  { apply (adopt_other l (FetchedAt r) ws1 t0 (PWindow w, PMetric w)).
    intros w' Hw'. destruct (normalize_key w') as [-> ->]. intros Ek.
    apply (Hd (PWindow w', PMetric w')); [by apply (list_elem_of_fmap_2 (λ w, (PWindow w, PMetric w)))|]. rewrite Ek. by left. }
  assert (cumulative t1 l (PMetric w) = cumulative t l (PMetric w)) as Ec by (unfold cumulative; by rewrite L1).
  pose proof (adopt_one_spec l (FetchedAt r) t1 w) as Hone. cbv zeta in Hone. rewrite Ew, Em in Hone.
  assert (PLimit (normalize w) = PLimit w) as El by (unfold normalize; repeat case_match; done).
  rewrite El in Hone. unfold Effective.
  destruct (adopt_other l (FetchedAt r) ws2 (adopt_one l (FetchedAt r) t1 w) (PWindow w, PMetric w)) as [A B].
  { intros w' Hw'. destruct (normalize_key w') as [-> ->]. intros Ek. apply Hn2. rewrite <- Ek.
    by apply (list_elem_of_fmap_2 (λ w, (PWindow w, PMetric w))). }
  rewrite A. unfold cumulative. rewrite B. fold (cumulative (adopt_one l (FetchedAt r) t1 w) l (PMetric w)).
  fold (Effective (adopt_one l (FetchedAt r) t1 w) l (PWindow w) (PMetric w)). rewrite Hone.
  - unfold burst. rewrite E1, Ec. destruct Habs as [Habs|Habs].
    + by rewrite (proj2 (Z.ltb_lt 0 (PUsed _))) by done.
    + by rewrite (proj2 (Z.ltb_lt 0 (PLimit _))), orb_true_r by done.
  - intros b Hb. rewrite E1 in Hb. rewrite Ec. by apply Hs.
  - done.
Qed.

(** A failed poll changes no figure and no reset instant. *)
Lemma fail_is_harmless t l err now w m :
  Effective (Fail t err now) l w m = Effective t l w m
  ∧ Tracker_ResetAt (Fail t err now) w m = Tracker_ResetAt t w m
  ∧ Staleness (Fail t err now) now = Staleness t now.
Proof. done. Qed.
End Tracker.

(** A counter that has metered 12 units of everything, a baseline taken at 10. *)
#[export] Instance const_counter : LocalCounter Z := λ l _, l.
Definition demo_tracker : Tracker :=
  mkTracker true {[ (Daily, 1) := mkBaseline 50 100 0 10 0 F64.zero true ]} 0 0 None 0 1.
Definition demo_probe : ProbeResult := mkProbe 60 [mkPW Daily 1 40 100 F64.zero 0].

Lemma adopt_keeps_burst_witness :
  Effective (Adopt (λ _, 0) demo_tracker (12 : Z) demo_probe) (12 : Z) Daily 1 = Some (52, 100).
Proof.
  rewrite (adopt_keeps_burst (λ _, 0) demo_tracker (12 : Z) demo_probe (mkPW Daily 1 40 100 F64.zero 0)).
  - by vm_compute.
  - intros b Hb. vm_compute in Hb. injection Hb as <-. by vm_compute.
  - by left.
  - apply NoDup_singleton.
  - by vm_compute.
  - right. by vm_compute.
Defined.
