(* ===== verification/Meter.v ===== *)
(** * Quota meters ([internal/quota/meter.go])

    A meter counts one credential's usage against a set of rules and decides
    whether it may serve. The state machine (ok, cooldown, disabled) is the one of
    the code; the provider's figures enter through the attached [Tracker], whose
    local counter is the meter itself. Every method runs under the meter's lock, so
    each is one atomic function on the state. *)
From stdpp Require Import base gmap list strings.
From Stdlib Require Import ZArith Lia.
From S2P Require Import Prelude GoTime F64 Window Counter Tracker.
Import Time.
Open Scope Z_scope.

Inductive OnExhaust : Type := Cooldown | Disable | Passthrough.

Record Rule : Type := mkRule {
  RWindow : Window; RMetric : Metric; RLimit : Z; ROnExhaust : OnExhaust; RResets : bool }.

Definition zeroRule : Rule := mkRule (mkWindow KindRolling 0) 0 0 Cooldown false.

Inductive meter_error : Type :=
| ErrRuleWindow | ErrRuleMetric | ErrRuleLimit | ErrCounter (e : counter_error).

Definition Validate (r : Rule) : option meter_error :=
  if negb (Valid (RWindow r)) then Some ErrRuleWindow
  else if negb (Metric_Valid (RMetric r)) then Some ErrRuleMetric
  else if RLimit r <=? 0 then Some ErrRuleLimit
  else None.

Inductive State : Type := StateOK | StateCooldown | StateDisabled | StateOverPassthrough.

Record Decision : Type := mkDecision {
  Allow : bool; DState : State; DRule : Rule; DUsed : Z; DLimit : Z; DResetAt : Z;
  ProviderStale : Z; FromProvider : bool }.

(** [cum] is the array of process-lifetime totals, one per metric. *)
Record Meter : Type := mkMeter {
  rules : list Rule; counters : list counter; mstate : State; until : Z; tripped : Rule;
  tracker : option Tracker; cum : list Z }.

Definition set_counters (m : Meter) (cs : list counter) : Meter :=
  mkMeter (rules m) cs (mstate m) (until m) (tripped m) (tracker m) (cum m).
Definition set_status (m : Meter) (s : State) (u : Z) (r : Rule) : Meter :=
  mkMeter (rules m) (counters m) s u r (tracker m) (cum m).

Fixpoint new_counters (rs : list Rule) (t : Z) : result meter_error (list counter) :=
  match rs with
  | [] => Ok []
  | r :: rs' =>
      match Validate r with
      | Some e => Err e
      | None =>
          match newCounter (RWindow r) t with
          | Err e => Err (ErrCounter e)
          | Ok c => match new_counters rs' t with
                    | Err e => Err e
                    | Ok cs => Ok (c :: cs)
                    end
          end
      end
  end.

Definition NewMeter (rs : list Rule) (now : Z) : result meter_error Meter :=
  match new_counters rs now with
  | Err e => Err e
  | Ok cs => Ok (mkMeter rs cs StateOK zeroTime zeroRule None (replicate (Z.to_nat numMetrics) 0))
  end.

Definition AttachTracker (m : Meter) (t : option Tracker) : Meter :=
  mkMeter (rules m) (counters m) (mstate m) (until m) (tripped m) t (cum m).

#[export] Instance Meter_LocalCounter : LocalCounter Meter :=
  λ m metric, if negb (Metric_Valid metric) then 0 else nth (Z.to_nat metric) (cum m) 0.

Definition record_cum (u : Usage) (cs : list Z) : list Z :=
  imap (λ i c, let v := Value u (Z.of_nat i) in if 0 <? v then i64 (c + v) else c) cs.

Definition record_rule (now : Z) (u : Usage) (r : Rule) (c : counter) : counter :=
  let v := Value u (RMetric r) in if 0 <? v then add c now v else c.

Definition Record_usage (m : Meter) (now : Z) (u : Usage) : Meter :=
  mkMeter (rules m) (zip_with (record_rule now u) (rules m) (counters m)) (mstate m) (until m) (tripped m)
    (tracker m) (record_cum u (cum m)).

(** The counter of rule [i]; the code keeps one per rule. *)
Definition counter_at (m : Meter) (i : nat) : counter :=
  nth i (counters m) (mkCounter (mkWindow KindRolling 0) [] 0 0 0 0 0).

Definition effectiveUsed (m : Meter) (r : Rule) (i : nat) (now : Z) : Meter * (Z * Z * bool) :=
  let '(c, local) := sum (counter_at m i) now in
  let m := set_counters m (<[i := c]> (counters m)) in
  match tracker m with
  | None => (m, (local, 0, false))
  | Some t =>
      match Effective t m (RWindow r) (RMetric r) with
      | None => (m, (local, 0, false))
      | Some (pu, _) =>
          let st := default 0 (Staleness t now) in
          if local <? pu then (m, (pu, st, true)) else (m, (local, st, false))
      end
  end.

Definition resetFor (m : Meter) (r : Rule) (i : nat) (now : Z) (fromProvider : bool) : Meter * Z :=
  let '(c, local) := resetAt (counter_at m i) now (RLimit r) in
  let m := set_counters m (<[i := c]> (counters m)) in
  (m, match tracker m with
      | Some t =>
          if fromProvider then
            match Tracker_ResetAt t (RWindow r) (RMetric r) with
            | Some pr => if After pr now && After pr local then pr else local
            | None => local
            end
          else local
      | None => local
      end).

(** The rules from index [i] on, with the decision built so far. *)
Fixpoint check_loop (m : Meter) (rs : list Rule) (i : nat) (now : Z) (d : Decision) : Meter * Decision :=
  match rs with
  | [] => (m, d)
  | r :: rs' =>
      let '(m, (used, stale, fromProvider)) := effectiveUsed m r i now in
      if used <? RLimit r then check_loop m rs' (S i) now d
      else
        match ROnExhaust r with
        | Passthrough =>
            check_loop m rs' (S i) now
              (match DState d with
               | StateOK => mkDecision (Allow d) StateOverPassthrough r used (RLimit r) (DResetAt d) stale fromProvider
               | _ => d
               end)
        | Disable =>
            (set_status m StateDisabled zeroTime r,
             mkDecision false StateDisabled r used (RLimit r) zeroTime stale fromProvider)
        | Cooldown =>
            let '(m, reset) := resetFor m r i now fromProvider in
            (set_status m StateCooldown reset r,
             mkDecision false StateCooldown r used (RLimit r) reset stale fromProvider)
        end
  end.

Definition clear_status (m : Meter) : Meter := set_status m StateOK zeroTime zeroRule.

(** The rules are evaluated from the start, in a meter that is neither disabled nor
    standing aside. *)
Definition evaluate (m : Meter) (now : Z) : Meter * Decision :=
  check_loop m (rules m) 0 now (mkDecision true StateOK zeroRule 0 0 zeroTime 0 false).

Definition Check (m : Meter) (now : Z) : Meter * Decision :=
  match mstate m with
  | StateDisabled => (m, mkDecision false StateDisabled (tripped m) 0 (RLimit (tripped m)) zeroTime 0 false)
  | StateCooldown =>
      if Before now (until m)
      then (m, mkDecision false StateCooldown (tripped m) 0 (RLimit (tripped m)) (until m) 0 false)
      else evaluate (clear_status m) now
  | _ => evaluate m now
  end.

Fixpoint find_rule (rs : list Rule) (r : Rule) (i : nat) : option (nat * Rule) :=
  match rs with
  | [] => None
  | rr :: rs' => if Window_eqb (RWindow rr) (RWindow r) && (RMetric rr =? RMetric r) then Some (i, rr)
                 else find_rule rs' r (S i)
  end.

Definition Meter_Used (m : Meter) (now : Z) (r : Rule) : Meter * Z :=
  match find_rule (rules m) r 0 with
  | Some (i, rr) => let '(m, (u, _, _)) := effectiveUsed m rr i now in (m, u)
  | None => (m, 0)
  end.

Definition Local (m : Meter) (now : Z) (r : Rule) : Meter * Z :=
  match find_rule (rules m) r 0 with
  | Some (i, _) => let '(c, v) := sum (counter_at m i) now in (set_counters m (<[i := c]> (counters m)), v)
  | None => (m, 0)
  end.

Definition Meter_State (m : Meter) (now : Z) : Meter * State :=
  let m := match mstate m with
           | StateCooldown => if Before now (until m) then m else clear_status m
           | _ => m
           end in
  (m, mstate m).

Definition Enable (m : Meter) : Meter := clear_status m.

Definition Meter_Reset (m : Meter) (now : Z) : Meter :=
  clear_status (set_counters m (map (λ c, reset c now) (counters m))).

(** ** Reports *)

Definition MaxViewRules : nat := 12.

Record RuleUsage : Type := mkRuleUsage {
  UWindow : Window; UMetric : Metric; UUsed : Z; ULimit : Z; UResetAt : Z; UFromProvider : bool }.

(** The filled part of the array, and the flag. *)
Record View : Type := mkView { vrules : list RuleUsage; truncated : bool }.

Fixpoint fill_loop (m : Meter) (rs : list Rule) (i : nat) (now : Z) (out : list RuleUsage) : Meter * View :=
  match rs with
  | [] => (m, mkView out false)
  | r :: rs' =>
      if bool_decide (MaxViewRules <= length out)%nat then (m, mkView out true)
      else
        let '(m, (used, _, fromProvider)) := effectiveUsed m r i now in
        fill_loop m rs' (S i) now
          (out ++ [mkRuleUsage (RWindow r) (RMetric r) used (RLimit r) (PeriodEnd (RWindow r) now) fromProvider])
  end.

Definition Fill (m : Meter) (now : Z) : Meter * View := fill_loop m (rules m) 0 now [].

(** ** Evaluation order does not matter for the figures *)

(** The figure rule [r] at index [i] is judged by. *)
Definition used_at (m : Meter) (r : Rule) (i : nat) (now : Z) : Z :=
  let local := (sum (counter_at m i) now).2 in
  match tracker m with
  | None => local
  | Some t => match Effective t m (RWindow r) (RMetric r) with
              | None => local
              | Some (pu, _) => Z.max local pu
              end
  end.

(** [m'] still has the counters of [m] from index [i] on, and its provider side. *)
Record same_from (i : nat) (m m' : Meter) : Prop := {
  sf_counters : ∀ k, (i <= k)%nat → counter_at m' k = counter_at m k;
  sf_tracker : tracker m' = tracker m;
  sf_cum : cum m' = cum m }.

Lemma Effective_cum t (m m' : Meter) w k : cum m' = cum m → Effective t m' w k = Effective t m w k.
Proof.
  intros E. unfold Effective, cumulative, Cumulative, Meter_LocalCounter. by rewrite E.
Qed.

Lemma used_at_same i m m' r k now : same_from i m m' → (i <= k)%nat → used_at m' r k now = used_at m r k now.
Proof.
  intros [Hc Ht Hm] Hk. unfold used_at. rewrite Hc, Ht by done. destruct (tracker m); [|done].
  by rewrite (Effective_cum _ m m').
Qed.

Lemma counter_at_set m i c k :
  k ≠ i → counter_at (set_counters m (<[i := c]> (counters m))) k = counter_at m k.
Proof.
  intros Hk. unfold counter_at; simpl. by rewrite !nth_lookup, list_lookup_insert_ne.
Qed.

Lemma effectiveUsed_spec m r i now :
  (effectiveUsed m r i now).2.1.1 = used_at m r i now
  ∧ (effectiveUsed m r i now).1 = set_counters m (<[i := (sum (counter_at m i) now).1]> (counters m))
  ∧ ∀ i0, (i0 <= i)%nat → ∀ m0, same_from i0 m0 m → same_from (S i) m0 (effectiveUsed m r i now).1.
Proof.
  unfold effectiveUsed, used_at. destruct (sum (counter_at m i) now) as [c local]. simpl.
  set (m' := set_counters m _).
  assert (∀ i0, (i0 <= i)%nat → ∀ m0, same_from i0 m0 m → same_from (S i) m0 m') as Hsame.
  { intros i0 Hi m0 [H1 H2 H3]. split; [|done|done]. intros k Hk. unfold m'. rewrite counter_at_set by lia. apply H1. lia. }
  destruct (tracker m) as [t|]; simpl; [|by split_and!].
  rewrite <- (Effective_cum t m m') by done.
  destruct (Effective t m' (RWindow r) (RMetric r)) as [[pu lim]|]; simpl; [|by split_and!].
  destruct (Z.ltb_spec local pu); simpl; split_and!; try done; lia.
Qed.

(** ** The decision *)

(** Rule [i] refuses at [now]. *)
Definition refuses (m : Meter) (now : Z) (i : nat) (r : Rule) : Prop :=
  rules m !! i = Some r ∧ ROnExhaust r ≠ Passthrough ∧ RLimit r <= used_at m r i now.

Definition refused_state (o : OnExhaust) : State :=
  match o with Disable => StateDisabled | _ => StateCooldown end.

(** What [check_loop] decides about the rules it is given. *)
Definition loop_spec (m : Meter) (rs : list Rule) (i : nat) (now : Z) (d0 : Decision) (m' : Meter) (d : Decision) : Prop :=
  (Allow d = Allow d0 ∧ mstate m' = mstate m ∧ until m' = until m ∧ tripped m' = tripped m
   ∧ ∀ k r, rs !! k = Some r → ROnExhaust r ≠ Passthrough → used_at m r (i + k) now < RLimit r)
  ∨ (∃ k r, rs !! k = Some r ∧ ROnExhaust r ≠ Passthrough ∧ RLimit r <= used_at m r (i + k) now
      ∧ (∀ k' r', (k' < k)%nat → rs !! k' = Some r' → ROnExhaust r' ≠ Passthrough → used_at m r' (i + k') now < RLimit r')
      ∧ Allow d = false ∧ DRule d = r ∧ DUsed d = used_at m r (i + k) now ∧ DState d = refused_state (ROnExhaust r)
      ∧ mstate m' = DState d ∧ until m' = DResetAt d ∧ tripped m' = r).

Lemma check_loop_spec rs : ∀ m i now d0 m' d,
  check_loop m rs i now d0 = (m', d) → loop_spec m rs i now d0 m' d.
Proof.
  induction rs as [|r rs IH]; intros m i now d0 m' d E; cbn [check_loop] in E.
  { simplify_eq. left. split_and!; try done. }
  destruct (effectiveUsed_spec m r i now) as (Eu & Em & Hsame).
  destruct (effectiveUsed m r i now) as [m1 [[used stale] fp]] eqn:E1. simpl in Eu, Em, Hsame.
  assert (same_from (S i) m m1) as H1 by (apply (Hsame i); [lia|]; by split).
  assert (∀ d1, ROnExhaust r = Passthrough ∨ used < RLimit r → Allow d1 = Allow d0 →
    check_loop m1 rs (S i) now d1 = (m', d) → loop_spec m (r :: rs) i now d0 m' d) as Hgo.
  { intros d1 Hr Ha E'. destruct (IH _ _ _ _ _ _ E') as [(A1 & A2 & A3 & A4 & A5)|(k & r' & B1 & B2 & B3 & B4 & B5 & B6 & B7 & B8 & B9 & B10 & B11)].
    - left. split_and!; try (subst m1; done); [congruence|]. intros [|k] r' Hk Hp; simpl in Hk.
      + injection Hk as <-. rewrite Nat.add_0_r, <- Eu. by destruct Hr.
      + pose proof (A5 k r' Hk Hp) as H. rewrite (used_at_same (S i) m m1) in H by (done || lia).
        by rewrite Nat.add_succ_r.
    - right. exists (S k), r'. rewrite Nat.add_succ_r.
      rewrite (used_at_same (S i) m m1) in B3, B7 by (done || lia). split_and!; try done.
      intros [|k'] r'' Hk' Hlk Hp; simpl in Hlk.
      + injection Hlk as <-. rewrite Nat.add_0_r, <- Eu. by destruct Hr.
      + pose proof (B4 k' r'' ltac:(lia) Hlk Hp) as H. rewrite (used_at_same (S i) m m1) in H by (done || lia).
        by rewrite Nat.add_succ_r. }
  destruct (Z.ltb_spec used (RLimit r)); [by apply (Hgo d0); auto|].
  destruct (ROnExhaust r) eqn:Eo.
  - destruct (resetFor m1 r i now fp) as [m2 reset] eqn:E2. simplify_eq. right. exists 0%nat, r.
    rewrite Nat.add_0_r, Eo. split_and!; try done; try lia.
  - simplify_eq. right. exists 0%nat, r. rewrite Nat.add_0_r, Eo. split_and!; try done; try lia.
  - apply (Hgo _ ltac:(by left)) in E; [done|]. by case_match.
Qed.

(** C33. Admission is exact: a meter that is neither disabled nor standing aside
    admits at [now] exactly when every enforced rule is below its limit; when it
    refuses, the decision names the first enforced rule at or over its limit, with
    its figure, and the meter enters that rule's exhaust state. *)
Theorem check_decides m now m' d :
  mstate m ≠ StateDisabled → (mstate m = StateCooldown → until m <= now) →
  Check m now = (m', d) →
  (Allow d = true ∧ ∀ i r, ¬ refuses m now i r)
  ∨ (Allow d = false ∧ ∃ i, refuses m now i (DRule d) ∧ (∀ j r, (j < i)%nat → ¬ refuses m now j r)
     ∧ DUsed d = used_at m (DRule d) i now ∧ DState d = refused_state (ROnExhaust (DRule d))
     ∧ mstate m' = DState d ∧ until m' = DResetAt d).
Proof.
  intros Hd Hc E.
  assert (∃ m0, same_from 0 m m0 ∧ rules m0 = rules m ∧ evaluate m0 now = (m', d)) as (m0 & Hs & Hr & E0).
  { unfold Check in E. destruct (mstate m) eqn:Es; try done; try (by exists m; split_and!; [by split| |]).
    unfold Before in E. rewrite (proj2 (Z.ltb_ge _ _)) in E by auto. exists (clear_status m). by split_and!; [by split| |]. }
  apply check_loop_spec in E0. rewrite Hr in E0.
  destruct E0 as [(A1 & _ & _ & _ & A5)|(k & r & B1 & B2 & B3 & B4 & B5 & B6 & B7 & B8 & B9 & B10 & _)].
  - left. split; [done|]. intros i r (H1 & H2 & H3). pose proof (A5 i r H1 H2) as H.
    rewrite (used_at_same 0 m m0) in H by (done || lia). simpl in H. lia.
  - right. split; [done|]. exists k. simpl in *. rewrite (used_at_same 0 m m0) in B3, B7 by (done || lia). subst r.
    split_and!; try done. intros j r Hj (H1 & H2 & H3). pose proof (B4 j r Hj H1 H2) as H.
    rewrite (used_at_same 0 m m0) in H by (done || lia). lia.
Qed.

(** ** The disabled state *)

(** Every operation of the meter but the two administrative ones. *)
Inductive mstep : Meter → Meter → Prop :=
| step_record m now u : mstep m (Record_usage m now u)
| step_check m now : mstep m (Check m now).1
| step_used m now r : mstep m (Meter_Used m now r).1
| step_local m now r : mstep m (Local m now r).1
| step_state m now : mstep m (Meter_State m now).1
| step_fill m now : mstep m (Fill m now).1
| step_attach m t : mstep m (AttachTracker m t).

Lemma effectiveUsed_status m r i now :
  mstate (effectiveUsed m r i now).1 = mstate m ∧ tripped (effectiveUsed m r i now).1 = tripped m.
Proof. destruct (effectiveUsed_spec m r i now) as (_ & -> & _). done. Qed.

Lemma fill_loop_status rs : ∀ m i now out,
  mstate (fill_loop m rs i now out).1 = mstate m ∧ tripped (fill_loop m rs i now out).1 = tripped m.
Proof.
  induction rs as [|r rs IH]; intros m i now out; cbn [fill_loop]; [done|]. case_match; [done|].
  destruct (effectiveUsed_status m r i now) as [E1 E2].
  destruct (effectiveUsed m r i now) as [m1 [[u st] fp]]. simpl in E1, E2. destruct (IH m1 (S i) now
    (out ++ [mkRuleUsage (RWindow r) (RMetric r) u (RLimit r) (PeriodEnd (RWindow r) now) fp])) as [-> ->]. done.
Qed.

Lemma mstep_disabled m m' :
  mstep m m' → mstate m = StateDisabled → mstate m' = StateDisabled ∧ tripped m' = tripped m.
Proof.
  intros [m0 now u|m0 now|m0 now r|m0 now r|m0 now|m0 now|m0 t] Hd; try done.
  - unfold Check. by rewrite Hd.
  - unfold Meter_Used. destruct (find_rule _ _ _) as [[i rr]|]; [|done].
    pose proof (effectiveUsed_status m0 rr i now) as [E1 E2].
    destruct (effectiveUsed m0 rr i now) as [m1 [[u st] fp]]. simpl in *. by rewrite E1, E2.
  - unfold Local. destruct (find_rule _ _ _) as [[i rr]|]; [|done].
    destruct (sum (counter_at m0 i) now). done.
  - unfold Meter_State. rewrite Hd. done.
  - unfold Fill. destruct (fill_loop_status (rules m0) m0 0 now []) as [-> ->]. done.
Qed.

(** Disable does not recover on its own: whatever is recorded, checked, read or
    attached, for however long, a disabled meter stays disabled, refuses every
    request and keeps naming the rule that tripped; [Enable] is what brings it back. *)
Theorem disabled_is_sticky m m' now :
  rtc mstep m m' → mstate m = StateDisabled →
  mstate m' = StateDisabled ∧ (Check m' now).2 = mkDecision false StateDisabled (tripped m) 0 (RLimit (tripped m)) zeroTime 0 false
  ∧ mstate (Enable m') = StateOK.
Proof.
  intros Hs Hd.
  assert (mstate m' = StateDisabled ∧ tripped m' = tripped m) as [E1 E2].
  { induction Hs as [m|m m1 m2 H1 _ IH]; [done|]. destruct (mstep_disabled _ _ H1 Hd) as [A <-]. by apply IH. }
  split_and!; [done| |done]. unfold Check. by rewrite E1, E2.
Qed.

Definition demo_rule : Rule := mkRule (Rolling (3 * Minute)) MetricRequests 2 Disable false.
Definition one_request : Usage := mkUsage 0 0 0 1.
Definition demo_disabled : Meter :=
  (Check (Record_usage (Record_usage
     (mkMeter [demo_rule] [demo_counter] StateOK zeroTime zeroRule None (replicate 5 0)) 0 one_request) Second one_request)
     (2 * Second)).1.

Lemma disabled_is_sticky_witness :
  mstate demo_disabled = StateDisabled
  ∧ Allow (Check (Record_usage demo_disabled (9 * Minute) one_request) (10 * Minute)).2 = false.
Proof.
  assert (mstate demo_disabled = StateDisabled) as H by by vm_compute. split; [done|].
  destruct (disabled_is_sticky demo_disabled (Record_usage demo_disabled (9 * Minute) one_request) (10 * Minute)) as (_ & E & _).
  - eapply rtc_l; [constructor|apply rtc_refl].
  - done.
  - by rewrite E.
Defined.

Lemma check_decides_witness :
  ∃ m d, Check (Record_usage
     (mkMeter [demo_rule] [demo_counter] StateOK zeroTime zeroRule None (replicate 5 0)) 0 one_request) Second = (m, d)
  ∧ Allow d = true.
Proof.
  do 2 eexists. split; [apply surjective_pairing|].
  destruct (check_decides (Record_usage
     (mkMeter [demo_rule] [demo_counter] StateOK zeroTime zeroRule None (replicate 5 0)) 0 one_request) Second _ _
     ltac:(done) ltac:(done) (surjective_pairing _)) as [[E _]|[E _]]; [exact E|].
  exfalso. vm_compute in E. discriminate.
Defined.

(** ** Exact metering *)

(** The positive amounts of a rule's metric among recorded usages. *)
Definition amounts (r : Rule) (us : list (Z * Usage)) : list (Z * Z) :=
  filter (λ op, 0 < op.2) (map (λ x, (x.1, Value x.2 (RMetric r))) us).

Definition records (m : Meter) (us : list (Z * Usage)) : Meter :=
  foldl (λ m x, Record_usage m x.1 x.2) m us.

Lemma new_counters_lookup rs : ∀ t cs,
  new_counters rs t = Ok cs →
  length cs = length rs
  ∧ ∀ i r, rs !! i = Some r → ∃ c, cs !! i = Some c ∧ newCounter (RWindow r) t = Ok c ∧ Validate r = None.
Proof.
  induction rs as [|r rs IH]; intros t cs E; cbn [new_counters] in E; [simplify_eq; done|].
  destruct (Validate r) eqn:Ev; [done|]. destruct (newCounter (RWindow r) t) as [c|] eqn:Ec; [|done].
  destruct (new_counters rs t) as [cs'|] eqn:E'; [|done]. simplify_eq. destruct (IH _ _ E') as [Hl Hi].
  split; [simpl; lia|]. intros [|i] r' Hr; simpl in *; [simplify_eq; by eexists|by apply Hi].
Qed.

(** Recording runs each rule's counter over the rule's amounts. *)
Lemma records_counters us : ∀ m,
  length (counters m) = length (rules m) →
  rules (records m us) = rules m ∧ tracker (records m us) = tracker m ∧ mstate (records m us) = mstate m
  ∧ length (counters (records m us)) = length (rules m)
  ∧ ∀ i r, rules m !! i = Some r → counter_at (records m us) i = run (counter_at m i) (amounts r us).
Proof.
  induction us as [|[t u] us IH]; intros m Hl; [by split_and!|].
  change (records m ((t, u) :: us)) with (records (Record_usage m t u) us).
  destruct (IH (Record_usage m t u)) as (E1 & E2 & E3 & E4 & E5).
  { simpl. rewrite length_zip_with. lia. }
  split_and!; try done. intros i r Hr. rewrite (E5 i r Hr). unfold amounts. cbn [map].
  rewrite filter_cons. simpl.
  assert (counter_at (Record_usage m t u) i = record_rule t u r (counter_at m i)) as ->.
  { assert (is_Some (counters m !! i)) as [c Hc] by (apply lookup_lt_is_Some; apply lookup_lt_Some in Hr; lia).
    unfold counter_at; simpl. rewrite !nth_lookup, lookup_zip_with, Hr, Hc. done. }
  unfold record_rule. destruct (Z.ltb_spec 0 (Value u (RMetric r))).
  - by rewrite decide_True.
  - by rewrite decide_False by lia.
Qed.

(** C34. The metered figure is the usage: after any recorded usages, the local figure
    of a configured rule is, modulo 2^64, the sum of the positive amounts of its
    metric that are inside its window; amounts that are not positive count nothing. *)
Theorem metering_exact rs t0 m us now r i rr :
  NewMeter rs t0 = Ok m → find_rule rs r 0 = Some (i, rr) →
  let ops := amounts rr us in
  (Local (records m us) now r).2
  = i64 (logsum (in_window (RWindow rr) (Z.max (last_slot (RWindow rr) (slot (RWindow rr) t0) ops) (slot (RWindow rr) now)))
           (landed (RWindow rr) (slot (RWindow rr) t0) ops)).
Proof.
  unfold NewMeter. destruct (new_counters rs t0) as [cs|] eqn:En; [|done]. intros [= <-] Hf.
  destruct (new_counters_lookup rs t0 cs En) as [Hl Hcs].
  set (m := mkMeter _ _ _ _ _ _ _).
  destruct (records_counters us m Hl) as (E1 & _ & _ & _ & E5).
  assert (rs !! i = Some rr) as Hi.
  { assert (∀ l j, find_rule l r j = Some (i, rr) → (j <= i)%nat ∧ l !! (i - j)%nat = Some rr) as Hgen.
    { induction l as [|x l IH]; intros j Hj; cbn [find_rule] in Hj; [done|]. case_match; simplify_eq.
      - split; [lia|]. by rewrite Nat.sub_diag.
      - apply IH in Hj as [H1 H2]. split; [lia|]. by replace (i - j)%nat with (S (i - S j))%nat by lia. }
    apply Hgen in Hf as [_ Hf]. by rewrite Nat.sub_0_r in Hf. }
  destruct (Hcs i rr Hi) as (c & Hc & Hnew & _).
  unfold Local. rewrite E1. change (rules m) with rs. rewrite Hf.
  rewrite (E5 i rr Hi). assert (counter_at m i = c) as -> by (unfold counter_at; simpl; by rewrite nth_lookup, Hc).
  pose proof (counter_sum_exact (RWindow rr) t0 c (amounts rr us) now Hnew) as E.
  destruct (sum (run c (amounts rr us)) now) as [c' v]. exact E.
Qed.

Lemma metering_exact_witness :
  ∃ m, NewMeter [demo_rule] 0 = Ok m
  ∧ (Local (records m [(0, one_request); (Minute, one_request); (Minute, mkUsage 0 0 0 (-9))]) (2 * Minute) demo_rule).2 = 2.
Proof.
  eexists. split; [reflexivity|].
  rewrite (metering_exact [demo_rule] 0 _ [(0, one_request); (Minute, one_request); (Minute, mkUsage 0 0 0 (-9))]
    (2 * Minute) demo_rule 0 demo_rule eq_refl eq_refl). by vm_compute.
Defined.

(** ** Recovery *)

Lemma amounts_facts r us now :
  Forall (λ x, x.1 <= now) us → Forall (λ op, op.1 <= now ∧ 0 <= op.2) (amounts r us).
Proof.
  intros H. apply Forall_forall. intros op Hop. unfold amounts in Hop. apply list_elem_of_filter in Hop as [Hv Hop].
  apply list_elem_of_fmap in Hop as (x & -> & Hx). rewrite Forall_forall in H. simpl in *. split; [by apply H|lia].
Qed.

(** One evaluation of a meter with one cooldown rule and no provider. *)
Lemma evaluate_one m r c now :
  rules m = [r] → counters m = [c] → tracker m = None → ROnExhaust r = Cooldown →
  evaluate m now
  = if (sum c now).2 <? RLimit r
    then (set_counters m [advance c now], mkDecision true StateOK zeroRule 0 0 zeroTime 0 false)
    else let reset := (resetAt c now (RLimit r)).2 in
         (set_status (set_counters m [advance c now]) StateCooldown reset r,
          mkDecision false StateCooldown r (sum c now).2 (RLimit r) reset 0 false).
Proof.
  intros Er Ec Et Eo. unfold evaluate. rewrite Er. cbn [check_loop]. unfold effectiveUsed, counter_at. rewrite Ec. simpl.
  rewrite Et. simpl. case_match; [done|]. rewrite Eo. unfold resetFor, counter_at. simpl.
  rewrite Et, advance_idem. done.
Qed.


Definition cool_rule : Rule := mkRule (Rolling (3 * Minute)) MetricRequests 2 Cooldown false.
Definition cool_meter : Meter := mkMeter [cool_rule] [demo_counter] StateOK zeroTime zeroRule None [0; 0; 0; 0; 0].
Definition cool_usage : list (Z * Usage) := [(0, one_request); (Second, one_request)].
Definition cool_check : Meter * Decision := Check (records cool_meter cool_usage) (2 * Second).

