(* ===== verification/Health.v ===== *)
(** * Deployment health ([internal/health/health.go])

    A circuit breaker per deployment with exponential rate-limit backoff and
    smoothed latencies. The fields are atomics; the operations are modelled as
    functions of one record, and the one place where interleaving matters, the
    half-open transition in [Allow], also as a small-step system. The clock is an
    argument, in Unix nanoseconds. *)
From stdpp Require Import base gmap list strings.
From Stdlib Require Import ZArith Lia.
From S2P Require Import Prelude GoTime F64.
Import Time.
Open Scope Z_scope.

Inductive State : Type := Closed | Open | HalfOpen.

#[export] Instance State_eq_dec : EqDecision State.
Proof. solve_decision. Defined.

Record Options : Type := mkOptions {
  FailureThreshold : Z; Cooldown : Z; HalfOpenProbes : Z; EWMAAlpha : F64.t }.

Definition f64_two_tenths : F64.t := F64.of_ratio 2 10.

Definition setDefaults (o : Options) : Options :=
  mkOptions
    (if FailureThreshold o <=? 0 then 3 else FailureThreshold o)
    (if Cooldown o <=? 0 then 5 * Second else Cooldown o)
    (if HalfOpenProbes o <=? 0 then 1 else HalfOpenProbes o)
    (if F64.le (EWMAAlpha o) F64.zero || F64.gt (EWMAAlpha o) F64.one then f64_two_tenths else EWMAAlpha o).

(** [OutErr] is whether [Err] is set. *)
Record Outcome : Type := mkOutcome {
  OutErr : bool; Failure : bool; TTFT : Z; Total : Z; OutputTokens : Z }.

Record record : Type := mkRecord {
  rstate : State; consecFails : Z; openedAtNano : Z; probesLeft : Z; rlStrikes : Z; lastOKNano : Z;
  ttft : F64.t; rtotal : F64.t; tps : F64.t; requests : Z; failures : Z; opens : Z }.

Definition zeroRecord : record :=
  mkRecord Closed 0 0 0 0 0 F64.zero F64.zero F64.zero 0 0 0.

(** ** One deployment *)

(** Replace the circuit part of a record. *)
Definition set_circuit (r : record) (s : State) (fails openedAt probes strikes : Z) (opens' : Z) : record :=
  mkRecord s fails openedAt probes strikes (lastOKNano r) (ttft r) (rtotal r) (tps r)
    (requests r) (failures r) opens'.

Section Record.
Variable opts : Options.

Definition take_probe (r : record) : record * bool :=
  let p := i64 (probesLeft r - 1) in
  (set_circuit r (rstate r) (consecFails r) (openedAtNano r) p (rlStrikes r) (opens r), 0 <=? p).

Definition allow (r : record) (now : Z) : record * bool :=
  match rstate r with
  | Closed => (r, true)
  | HalfOpen => take_probe r
  | Open =>
      if i64 (now - openedAtNano r) <? Cooldown opts then (r, false)
      else take_probe (set_circuit r HalfOpen (consecFails r) (openedAtNano r) (HalfOpenProbes opts)
                         (rlStrikes r) (opens r))
  end.

Definition open (r : record) (now : Z) : record :=
  set_circuit r Open (consecFails r) now 0 (rlStrikes r) (i64 (opens r + 1)).

Definition ewmaUpdate (cur sample : F64.t) : F64.t :=
  let alpha := EWMAAlpha opts in
  if F64.eq cur F64.zero then sample
  else F64.add (F64.mul alpha sample) (F64.mul (F64.sub F64.one alpha) cur).

(** [Duration.Seconds]. *)
Definition Seconds (d : Z) : F64.t :=
  F64.add (F64.of_Z (Z.quot d Second)) (F64.div (F64.of_Z (Z.rem d Second)) (F64.of_Z Second)).

(** The latency part of a success. *)
Definition observe (r : record) (o : Outcome) : record :=
  let ttft' := if 0 <? TTFT o then ewmaUpdate (ttft r) (F64.of_Z (TTFT o)) else ttft r in
  let total' := if 0 <? Total o then ewmaUpdate (rtotal r) (F64.of_Z (Total o)) else rtotal r in
  let gen := i64 (Total o - TTFT o) in
  let tps' := if (0 <? Total o) && (0 <? OutputTokens o) && (0 <? gen)
              then ewmaUpdate (tps r) (F64.div (F64.of_Z (OutputTokens o)) (Seconds gen)) else tps r in
  mkRecord (rstate r) (consecFails r) (openedAtNano r) (probesLeft r) (rlStrikes r) (lastOKNano r)
    ttft' total' tps' (requests r) (failures r) (opens r).

Definition report (r : record) (o : Outcome) (now : Z) : record :=
  let r := mkRecord (rstate r) (consecFails r) (openedAtNano r) (probesLeft r) (rlStrikes r) (lastOKNano r)
             (ttft r) (rtotal r) (tps r) (i64 (requests r + 1)) (failures r) (opens r) in
  if Failure o then
    let n := i64 (consecFails r + 1) in
    let r := mkRecord (rstate r) n (openedAtNano r) (probesLeft r) (rlStrikes r) (lastOKNano r)
               (ttft r) (rtotal r) (tps r) (requests r) (i64 (failures r + 1)) (opens r) in
    match rstate r with
    | HalfOpen => open r now
    | Closed => if FailureThreshold opts <=? n then open r now else r
    | Open => r
    end
  else if OutErr o then r
  else
    let r := mkRecord (match rstate r with HalfOpen => Closed | s => s end) 0 (openedAtNano r)
               (probesLeft r) 0 now (ttft r) (rtotal r) (tps r) (requests r) (failures r) (opens r) in
    observe r o.

(** The opening instant that makes [allow] refuse for [d]: pushed into the future by
    what exceeds the cooldown. *)
Definition opened_for (d now : Z) : Z :=
  let excess := i64 (d - Cooldown opts) in
  if 0 <? excess then i64 (now + excess) else now.

Definition markUnavailable (r : record) (d now : Z) : record :=
  set_circuit r Open (consecFails r) (opened_for d now) 0 (rlStrikes r) (i64 (opens r + 1)).

(** [n - 1] doublings; [fuel] is the number of rounds left. *)
Fixpoint backoff_loop (fuel : nat) (max d : Z) : Z :=
  match fuel with
  | O => if (0 <? max) && (max <? d) then max else d
  | S f =>
      let d := i64 (d * 2) in
      if d <=? 0 then max
      else if (0 <? max) && (max <=? d) then max
      else backoff_loop f max d
  end.

Definition backoffDuration (base max n : Z) : Z :=
  let n := if n <? 1 then 1 else n in backoff_loop (Z.to_nat (n - 1)) max base.

Definition markRateLimited (r : record) (base max now : Z) : record * Z :=
  let base := if base <=? 0 then Cooldown opts else base in
  let max := if (0 <? max) && (max <? base) then base else max in
  match rstate r with
  | Open => (r, 0)
  | _ =>
      let n := i64 (rlStrikes r + 1) in
      let n := if 32 <? n then 32 else n in
      let d := backoffDuration base max n in
      (set_circuit r Open (consecFails r) (opened_for d now) 0 n (i64 (opens r + 1)), d)
  end.

Definition markHealthy (r : record) : record :=
  set_circuit r Closed 0 (openedAtNano r) 0 0 (opens r).
End Record.

(** ** All deployments *)

Record Tracker : Type := mkTracker { topts : Options; trecords : gmap string record }.

Definition New (o : Options) : Tracker := mkTracker (setDefaults o) ∅.

(** [rec] creates the record on first sight. *)
Definition rec (t : Tracker) (id : string) : record := default zeroRecord (trecords t !! id).
Definition put (t : Tracker) (id : string) (r : record) : Tracker :=
  mkTracker (topts t) (<[id := r]> (trecords t)).

Definition Allow (t : Tracker) (id : string) (now : Z) : Tracker * bool :=
  let '(r, ok) := allow (topts t) (rec t id) now in (put t id r, ok).
Definition Report (t : Tracker) (id : string) (o : Outcome) (now : Z) : Tracker :=
  put t id (report (topts t) (rec t id) o now).
Definition MarkUnavailable (t : Tracker) (id : string) (d now : Z) : Tracker :=
  put t id (markUnavailable (topts t) (rec t id) d now).
Definition MarkRateLimited (t : Tracker) (id : string) (base max now : Z) : Tracker * Z :=
  let '(r, d) := markRateLimited (topts t) (rec t id) base max now in (put t id r, d).
Definition MarkHealthy (t : Tracker) (id : string) : Tracker := put t id (markHealthy (rec t id)).
Definition LastSuccess (t : Tracker) (id : string) : Tracker * Z := (put t id (rec t id), lastOKNano (rec t id)).
Definition TokensPerSec (t : Tracker) (id : string) : Tracker * F64.t := (put t id (rec t id), tps (rec t id)).
Definition IDs (t : Tracker) : gset string := dom (trecords t).

Record Stats : Type := mkStats {
  SState : State; SRequests : Z; SFailures : Z; SOpens : Z; SConsecFails : Z; SRateLimitStrikes : Z;
  STTFT : Z; STotal : Z; STokensPerSec : F64.t }.

(** [unspecified] is what converting a float that does not fit gives. *)
Definition Tracker_Stats (unspecified : F64.t → Z) (t : Tracker) (id : string) : Tracker * Stats :=
  let r := rec t id in
  (put t id r,
   mkStats (rstate r) (requests r) (failures r) (opens r) (consecFails r) (rlStrikes r)
     (F64.to_i64 unspecified (ttft r)) (F64.to_i64 unspecified (rtotal r)) (tps r)).

Definition Tracker_TTFT (unspecified : F64.t → Z) (t : Tracker) (id : string) : Tracker * Z :=
  (put t id (rec t id), F64.to_i64 unspecified (ttft (rec t id))).

(** ** Rate-limit backoff *)

Lemma backoff_loop_spec f : ∀ max d,
  0 < d <= max → max < two63 → backoff_loop f max d = Z.min max (d * 2 ^ Z.of_nat f).
Proof.
  induction f as [|f IH]; intros max d Hd Hm; cbn [backoff_loop].
  - rewrite (proj2 (Z.ltb_lt 0 max)), (proj2 (Z.ltb_ge max d)) by lia. simpl. lia.
  - rewrite Nat2Z.inj_succ, Z.pow_succ_r by lia.
    assert (1 <= 2 ^ Z.of_nat f) by (pose proof (Z.pow_pos_nonneg 2 (Z.of_nat f)); lia).
    destruct (Z.le_gt_cases two63 (d * 2)) as [Hov|Hfit].
    + assert (i64 (d * 2) <= 0) as Hneg.
      { unfold i64. rewrite <- (Z.mod_unique _ two64 1 (d * 2 + two63 - two64)); widths; lia. }
      rewrite (proj2 (Z.leb_le _ _)) by done. nia.
    + rewrite i64_id by (widths; lia). rewrite (proj2 (Z.leb_gt _ _)) by lia. rewrite (proj2 (Z.ltb_lt 0 max)) by lia. simpl.
      destruct (Z.leb_spec max (d * 2)); [nia|]. rewrite IH by lia. f_equal. nia.
Qed.

(** The backoff is capped doubling, overflow included: for a positive base and
    a cap at least as large, the stand-down after [n] strikes is
    [min max (base * 2^(n-1))], however large the product. *)
Theorem backoff_closed_form base max n :
  0 < base <= max → max < two63 →
  backoffDuration base max n = Z.min max (base * 2 ^ (Z.max 1 n - 1)).
Proof.
  intros Hb Hm. unfold backoffDuration. rewrite backoff_loop_spec by done. do 2 f_equal.
  destruct (Z.ltb_spec n 1); rewrite Z2Nat.id by lia; f_equal; lia.
Qed.

(** ** The circuit *)

Section Circuit.
Variable opts : Options.
Hypothesis threshold_pos : 0 < FailureThreshold opts < two63.
Hypothesis cooldown_pos : 0 < Cooldown opts < two63.
Hypothesis probes_pos : 0 < HalfOpenProbes opts < two63.

Inductive hstep : record → record → Prop :=
| hs_allow r now : hstep r (allow opts r now).1
| hs_report r o now : hstep r (report opts r o now)
| hs_unavailable r d now : hstep r (markUnavailable opts r d now)
| hs_limited r base max now : hstep r (markRateLimited opts r base max now).1
| hs_healthy r : hstep r (markHealthy r).

(** What every reachable record satisfies. *)
Record hinv (r : record) : Prop := {
  hi_closed : rstate r = Closed → 0 <= consecFails r < FailureThreshold opts;
  hi_strikes : 0 <= rlStrikes r <= 32 }.

Lemma hstep_inv r r' : hstep r r' → hinv r → hinv r'.
Proof using threshold_pos.
  intros [r0 now|r0 o now|r0 d now|r0 base max now|r0] Hr; pose proof Hr as [H1 H2];
    try (split; simpl; (done || lia)).
  - unfold allow, take_probe. destruct (rstate r0) eqn:Es; [done| |]; repeat case_match; simplify_eq; simpl;
      try done; split; simpl; congruence || done.
  - unfold report, observe. destruct (Failure o); simpl.
    + destruct (rstate r0) eqn:Es; simpl; [|split; simpl; (congruence || done)..].
      specialize (H1 eq_refl). rewrite i64_id by (widths; lia).
      destruct (Z.leb_spec (FailureThreshold opts) (consecFails r0 + 1)); split; simpl; (congruence || lia).
    + destruct (OutErr o); split; simpl; (done || lia).
  - unfold markRateLimited.
    assert (0 <= (if 32 <? i64 (rlStrikes r0 + 1) then 32 else i64 (rlStrikes r0 + 1)) <= 32) as Hn.
    { rewrite i64_id by (widths; lia). destruct (Z.ltb_spec 32 (rlStrikes r0 + 1)); lia. }
    destruct (rstate r0) eqn:Es; simpl; [|done|]; (split; simpl; [congruence|exact Hn]).
Qed.

(** The breaker opens at the threshold, in every history: whatever mix of
    probes, reports and marks a deployment has seen, while its circuit is closed it
    has fewer than [FailureThreshold] consecutive failures, and the rate-limit
    strike counter stays between 0 and 32. *)
Theorem closed_below_threshold r :
  rtc hstep zeroRecord r →
  (rstate r = Closed → 0 <= consecFails r < FailureThreshold opts) ∧ 0 <= rlStrikes r <= 32.
Proof using threshold_pos.
  intros Hs.
  assert (∀ r0, rtc hstep r0 r → hinv r0 → hinv r) as Hind.
  { clear Hs. intros r0 Hs. induction Hs as [r0|r0 r1 r2 H _ IH]; intros H0; [done|]. apply IH. by eapply hstep_inv. }
  apply Hind in Hs as [A B]; [done|]. split; simpl; lia.
Qed.

(** A failed outcome at each of the given instants. *)
Definition failed : Outcome := mkOutcome true true 0 0 0.
Definition fail_run (r : record) (times : list Z) : record := foldl (λ r now, report opts r failed now) r times.

(** Consecutive failures open the circuit at the threshold and not before: from
    a closed circuit without recent failures, fewer failures than the threshold leave
    it closed with that many counted; the failure that reaches the threshold opens it
    at its own instant. *)
Theorem opens_at_threshold r times now :
  rstate r = Closed → consecFails r = 0 →
  (Z.of_nat (length times) < FailureThreshold opts →
     rstate (fail_run r times) = Closed ∧ consecFails (fail_run r times) = Z.of_nat (length times))
  ∧ (Z.of_nat (length times) + 1 = FailureThreshold opts →
     rstate (fail_run r (times ++ [now])) = Open ∧ openedAtNano (fail_run r (times ++ [now])) = now).
Proof using threshold_pos.
  intros Hs Hc.
  assert (Z.of_nat (length times) < FailureThreshold opts →
     rstate (fail_run r times) = Closed ∧ consecFails (fail_run r times) = Z.of_nat (length times)) as Hrun.
  { induction times as [|t times IH] using rev_ind; [done|]. intros Hl. rewrite length_app in *. simpl in *.
    destruct IH as [E1 E2]; [lia|]. unfold fail_run in *. rewrite foldl_app. set (r1 := foldl _ r times) in *. cbn [foldl].
    unfold report. simpl. rewrite E1, E2. rewrite i64_id by (widths; lia).
    rewrite (proj2 (Z.leb_gt _ _)) by lia. simpl. split; [done|lia]. }
  split; [done|]. intros Hl. destruct Hrun as [E1 E2]; [lia|]. unfold fail_run in *. rewrite foldl_app. set (r1 := foldl _ r times) in *. cbn [foldl].
  unfold report. simpl. rewrite E1, E2. rewrite i64_id by (widths; lia). by rewrite (proj2 (Z.leb_le _ _)) by lia.
Qed.

(** ** Standing down *)

Lemma allow_open_at r at_ T :
  rstate r = Open → openedAtNano r = at_ → - two63 <= T - at_ < two63 →
  (T < at_ + Cooldown opts → allow opts r T = (r, false))
  ∧ (at_ + Cooldown opts <= T → (allow opts r T).2 = true ∧ rstate (allow opts r T).1 = HalfOpen).
Proof using probes_pos.
  intros Hs Ha HT. unfold allow. rewrite Hs, Ha, i64_id by (widths; lia). split; intros Hc.
  - by rewrite (proj2 (Z.ltb_lt _ _)) by lia.
  - rewrite (proj2 (Z.ltb_ge _ _)) by lia. unfold take_probe; simpl. rewrite i64_id by (widths; lia).
    split; [apply Z.leb_le; lia|done].
Qed.

Lemma opened_for_spec d now :
  0 <= d < two63 → 0 <= now → now + d < two63 →
  opened_for opts d now + Cooldown opts = now + Z.max d (Cooldown opts)
  ∧ now <= opened_for opts d now <= now + d.
Proof using cooldown_pos.
  intros Hd H0 Hn. unfold opened_for. rewrite (i64_id (d - _)) by (widths; lia).
  destruct (Z.ltb_spec 0 (d - Cooldown opts)); [rewrite i64_id by (widths; lia)|]; lia.
Qed.

(** A stand-down lasts as long as asked and no less than the cooldown: after
    [MarkUnavailable] for [d] at [now], every [Allow] before [now + max d cooldown]
    refuses and changes nothing, and the first one from then on admits a probe and
    makes the circuit half-open. *)
Theorem unavailable_exactly r d now T :
  0 <= d < two63 → 0 <= now → now + d < two63 → now <= T < two63 →
  let r' := markUnavailable opts r d now in
  (T < now + Z.max d (Cooldown opts) → allow opts r' T = (r', false))
  ∧ (now + Z.max d (Cooldown opts) <= T →
     (allow opts r' T).2 = true ∧ rstate (allow opts r' T).1 = HalfOpen).
Proof using cooldown_pos probes_pos.
  intros Hd H0 Hn HT r'. destruct (opened_for_spec d now Hd H0 Hn) as [E B]. rewrite <- E.
  apply allow_open_at; [done|done|]. widths; lia.
Qed.

(** Rate limits escalate per down-period: a 429 on a circuit that is already
    open changes nothing and reports 0; otherwise it opens the circuit, counts one
    more strike (at most 32), reports the capped doubling for that many strikes, and
    refuses exactly until that long (and at least a cooldown) has passed. *)
Theorem rate_limit_escalates r base max now T :
  0 < base <= max → 0 <= rlStrikes r <= 32 → 0 <= now → now + max < two63 → now <= T < two63 →
  match rstate r with
  | Open => markRateLimited opts r base max now = (r, 0)
  | _ =>
      let n := Z.min 32 (rlStrikes r + 1) in
      let d := Z.min max (base * 2 ^ (n - 1)) in
      let r' := (markRateLimited opts r base max now).1 in
      (markRateLimited opts r base max now).2 = d ∧ rstate r' = Open ∧ rlStrikes r' = n
      ∧ (T < now + Z.max d (Cooldown opts) → allow opts r' T = (r', false))
      ∧ (now + Z.max d (Cooldown opts) <= T → (allow opts r' T).2 = true)
  end.
Proof using cooldown_pos probes_pos.
  intros Hb Hs H0 Hn HT. unfold markRateLimited.
  rewrite (proj2 (Z.leb_gt base 0)) by lia. rewrite (proj2 (Z.ltb_ge max base)), andb_false_r by lia.
  rewrite (i64_id (rlStrikes r + 1)) by (widths; lia).
  set (n := if 32 <? rlStrikes r + 1 then 32 else rlStrikes r + 1).
  assert (n = Z.min 32 (rlStrikes r + 1)) as -> by (unfold n; destruct (Z.ltb_spec 32 (rlStrikes r + 1)); lia).
  set (n' := Z.min 32 (rlStrikes r + 1)).
  assert (backoffDuration base max n' = Z.min max (base * 2 ^ (n' - 1))) as Ed.
  { unfold backoffDuration. rewrite (proj2 (Z.ltb_ge n' 1)) by lia. rewrite backoff_loop_spec by lia.
    by rewrite Z2Nat.id by lia. }
  assert (1 <= 2 ^ (n' - 1)) by (pose proof (Z.pow_pos_nonneg 2 (n' - 1)); lia).
  set (d := Z.min max (base * 2 ^ (n' - 1))) in *. assert (0 < d <= max) as Hd by (unfold d; nia).
  destruct (opened_for_spec d now ltac:(lia) H0 ltac:(lia)) as [E B].
  destruct (rstate r); [|done|]; rewrite Ed; cbv zeta; cbn [fst snd]; rewrite <- E;
    (split; [done|]; split; [done|]; split; [done|]; split);
    intros HTT; (eapply (allow_open_at _ (opened_for opts d now) T); [done|done|widths; lia|done]).
Qed.
End Circuit.

(** ** Racing probes

    [Allow] called by several goroutines on one record whose circuit is open and
    whose cooldown may have elapsed: every atomic access is one step. *)
Module Race.

Inductive pc : Type := PStart | PCheck | PCas | PStore | PDec | PDone (b : bool).

Record shared : Type := mkShared { sst : State; sprobes : Z }.

Section Race.
Variable n : Z. (* [HalfOpenProbes] *)

(** One access by one goroutine. [elapsed] is what its reading of the clock and of
    the opening instant says. *)
Definition access (s : shared) (p : pc) (elapsed : bool) : shared * pc :=
  match p with
  | PStart => match sst s with
              | Closed => (s, PDone true)
              | HalfOpen => (s, PDec)
              | Open => (s, PCheck)
              end
  | PCheck => (s, if elapsed then PCas else PDone false)
  | PCas => match sst s with
            | Open => (mkShared HalfOpen (sprobes s), PStore)
            | _ => (s, PDec)
            end
  | PStore => (mkShared (sst s) n, PDec)
  | PDec => let p := sprobes s - 1 in (mkShared (sst s) p, PDone (0 <=? p))
  | PDone b => (s, PDone b)
  end.

Inductive step : shared * list pc → shared * list pc → Prop :=
| step_access s ps i p elapsed s' p' :
    ps !! i = Some p → access s p elapsed = (s', p') → step (s, ps) (s', <[i := p']> ps).

Definition is_store (p : pc) : bool := match p with PStore => true | _ => false end.
Definition is_admitted (p : pc) : bool := match p with PDone true => true | _ => false end.

Fixpoint count (f : pc → bool) (ps : list pc) : Z :=
  match ps with [] => 0 | p :: ps' => (if f p then 1 else 0) + count f ps' end.

Lemma count_insert f ps : ∀ i p p', ps !! i = Some p →
  count f (<[i := p']> ps) = count f ps - (if f p then 1 else 0) + (if f p' then 1 else 0).
Proof using Type.
  induction ps as [|q ps IH]; intros [|i] p p' H; simpl in *; try done; [simplify_eq; lia|].
  rewrite (IH i p p' H). lia.
Qed.

Lemma count_start f k : f PStart = false → count f (replicate k PStart) = 0.
Proof using Type. intros H. induction k as [|k IH]; simpl; [done|]. rewrite H, IH. done. Qed.

(** Before the transition, between the transition and the store, and after it. *)
Definition phase (c : shared * list pc) : Prop :=
  let '(s, ps) := c in
  (sst s = Open ∧ sprobes s <= 0 ∧ count is_store ps = 0 ∧ count is_admitted ps = 0)
  ∨ (sst s = HalfOpen ∧ sprobes s <= 0 ∧ count is_store ps = 1 ∧ count is_admitted ps = 0)
  ∨ (sst s = HalfOpen ∧ count is_store ps = 0 ∧ count is_admitted ps + Z.max 0 (sprobes s) <= n).

Lemma count_nonneg f ps : 0 <= count f ps.
Proof using Type. induction ps as [|p ps IH]; simpl; [done|]. destruct (f p); lia. Qed.

Lemma count_pos f ps : ∀ i p, ps !! i = Some p → f p = true → 1 <= count f ps.
Proof using Type.
  induction ps as [|q ps IH]; intros [|i] p H Hf; simpl in *; try done.
  - simplify_eq. rewrite Hf. pose proof (count_nonneg f ps). lia.
  - specialize (IH i p H Hf). destruct (f q); lia.
Qed.

Lemma phase_step c c' : 0 <= n → step c c' → phase c → phase c'.
Proof using Type.
  intros Hn [s ps i p elapsed s' p' Hi Ha] Hp. unfold phase in *. rewrite !(count_insert _ ps i p p' Hi).
  pose proof (count_pos is_store ps i p Hi) as Hst.
  destruct Hp as [(E1 & E2 & E3 & E4)|[(E1 & E2 & E3 & E4)|(E1 & E3 & E4)]]; rewrite E3;
    destruct p as [| | | | |b]; simpl in Ha; rewrite ?E1 in Ha; simpl in *; try (specialize (Hst eq_refl); lia).
  - injection Ha as <- <-. left. simpl. split_and!; (done || lia).
  - injection Ha as <- <-. left. destruct elapsed; simpl; split_and!; (done || lia).
  - injection Ha as <- <-. right; left. simpl. split_and!; (done || lia).
  - injection Ha as <- <-. left. simpl. rewrite (proj2 (Z.leb_gt 0 _)) by lia. split_and!; (done || lia).
  - injection Ha as <- <-. left. destruct b; simpl; split_and!; (done || lia).
  - injection Ha as <- <-. right; left. simpl. split_and!; (done || lia).
  - injection Ha as <- <-. right; left. destruct elapsed; simpl; split_and!; (done || lia).
  - injection Ha as <- <-. right; left. simpl. split_and!; (done || lia).
  - injection Ha as <- <-. right; right. simpl. split_and!; (done || lia).
  - injection Ha as <- <-. right; left. simpl. rewrite (proj2 (Z.leb_gt 0 _)) by lia. split_and!; (done || lia).
  - injection Ha as <- <-. right; left. destruct b; simpl; split_and!; (done || lia).
  - injection Ha as <- <-. right; right. simpl. split_and!; (done || lia).
  - injection Ha as <- <-. right; right. destruct elapsed; simpl; split_and!; (done || lia).
  - injection Ha as <- <-. right; right. simpl. split_and!; (done || lia).
  - injection Ha as <- <-. right; right. simpl. destruct (Z.leb_spec 0 (sprobes s - 1)); simpl; split_and!; (done || lia).
  - injection Ha as <- <-. right; right. destruct b; simpl; split_and!; (done || lia).
Qed.

(** C39. Racing probes are bounded: however many goroutines call [Allow] on an open
    circuit and however their accesses interleave, at most [HalfOpenProbes] of them
    are admitted before some outcome is reported. *)
Theorem racing_probes_bounded k p0 c :
  0 <= n → p0 <= 0 → rtc step (mkShared Open p0, replicate k PStart) c → count is_admitted c.2 <= n.
Proof using Type.
  intros Hn Hp Hs.
  assert (∀ c0, rtc step c0 c → phase c0 → phase c) as Hind.
  { clear Hs. intros c0 Hs. induction Hs as [c0|c0 c1 c2 H _ IH]; intros H0; [done|]. apply IH. by eapply phase_step. }
  apply Hind in Hs.
  - destruct c as [s ps]. simpl. destruct Hs as [(_ & _ & _ & E)|[(_ & _ & _ & E)|(_ & _ & E)]]; lia.
  - left. simpl. rewrite !count_start by done. done.
Qed.
End Race.
End Race.

(** ** Witnesses *)

Definition demo_opts : Options := setDefaults (mkOptions 0 0 0 F64.zero).

Lemma demo_opts_ok :
  0 < FailureThreshold demo_opts < two63 ∧ 0 < Cooldown demo_opts < two63 ∧ 0 < HalfOpenProbes demo_opts < two63.
Proof. by vm_compute. Qed.

Lemma closed_below_threshold_witness :
  let r := report demo_opts (report demo_opts zeroRecord failed 1) failed 2 in
  rstate r = Closed ∧ 0 <= consecFails r < FailureThreshold demo_opts.
Proof.
  set (r := report demo_opts (report demo_opts zeroRecord failed 1) failed 2). split; [reflexivity|].
  apply (closed_below_threshold demo_opts (proj1 demo_opts_ok) r); [|reflexivity].
  eapply rtc_l; [apply (hs_report _ _ failed 1)|]. eapply rtc_l; [apply (hs_report _ _ failed 2)|]. apply rtc_refl.
Defined.

Lemma opens_at_threshold_witness :
  rstate (fail_run demo_opts zeroRecord [1; 2; 3]) = Open ∧ openedAtNano (fail_run demo_opts zeroRecord [1; 2; 3]) = 3.
Proof.
  apply (proj2 (opens_at_threshold demo_opts (proj1 demo_opts_ok) zeroRecord [1; 2] 3 eq_refl eq_refl)). reflexivity.
Defined.

Lemma unavailable_exactly_witness :
  (allow demo_opts (markUnavailable demo_opts zeroRecord (60 * Second) 0) (59 * Second)).2 = false
  ∧ (allow demo_opts (markUnavailable demo_opts zeroRecord (60 * Second) 0) (60 * Second)).2 = true.
Proof.
  destruct demo_opts_ok as (H1 & H2 & H3). split.
  - rewrite (proj1 (unavailable_exactly demo_opts H2 H3 zeroRecord (60 * Second) 0 (59 * Second)
      ltac:(by vm_compute) ltac:(done) ltac:(by vm_compute) ltac:(by vm_compute))); [done|]. by vm_compute.
  - apply (proj2 (unavailable_exactly demo_opts H2 H3 zeroRecord (60 * Second) 0 (60 * Second)
      ltac:(by vm_compute) ltac:(done) ltac:(by vm_compute) ltac:(by vm_compute))). by vm_compute.
Defined.

Lemma backoff_closed_form_witness : backoffDuration (5 * Second) (60 * Second) 4 = 40 * Second.
Proof. rewrite (backoff_closed_form (5 * Second) (60 * Second) 4); by vm_compute. Defined.

Lemma rate_limit_escalates_witness :
  (markRateLimited demo_opts (mkRecord HalfOpen 0 0 0 3 0 F64.zero F64.zero F64.zero 0 0 0) (5 * Second) (60 * Second) 0).2
  = 40 * Second.
Proof.
  destruct demo_opts_ok as (H1 & H2 & H3).
  apply (rate_limit_escalates demo_opts H2 H3 (mkRecord HalfOpen 0 0 0 3 0 F64.zero F64.zero F64.zero 0 0 0)
    (5 * Second) (60 * Second) 0 0); by vm_compute.
Defined.

Lemma racing_probes_bounded_witness :
  ∃ c, rtc (Race.step 1) (Race.mkShared Open 0, replicate 2 Race.PStart) c ∧ Race.count Race.is_admitted c.2 <= 1.
Proof.
  exists (Race.mkShared Open 0, [Race.PCheck; Race.PStart]).
  assert (rtc (Race.step 1) (Race.mkShared Open 0, replicate 2 Race.PStart) (Race.mkShared Open 0, [Race.PCheck; Race.PStart])) as H.
  { eapply rtc_l; [|apply rtc_refl]. by apply (Race.step_access 1 _ [Race.PStart; Race.PStart] 0 Race.PStart true). }
  split; [exact H|]. by apply (Race.racing_probes_bounded 1 2 0 _ ltac:(done) ltac:(done) H).
Defined.
