(* ===== verification/Coord.v ===== *)
(** * Quota coordination across nodes ([internal/quota/mode.go])

    A charge against a shared limit goes through one of three coordinators: a local
    counter, a shared counter, or a lease taken from a shared counter in blocks.
    The shared counter is an interface with a contract; the in-memory store
    implements it, and the coordinators are verified against the contract. A [Key]
    stands for its rendering; the clock is an argument. *)
From stdpp Require Import base gmap list strings.
From Stdlib Require Import ZArith Lia.
From S2P Require Import Prelude GoTime Window Counter Tracker.
Import Time.
Open Scope Z_scope.

Inductive Mode : Type := ModeLocal | ModeSharedRedis | ModeSharedPG | ModeLeased.

Record Key : Type := mkKey {
  Scope : string; ScopeKey : string; KWindow : Window; KMetric : Metric; KPeriodStart : Z }.

#[export] Instance Key_eq_dec : EqDecision Key.
Proof. solve_decision. Defined.
#[export] Program Instance Key_countable : Countable Key :=
  inj_countable' (λ k, (Scope k, ScopeKey k, KWindow k, KMetric k, KPeriodStart k))
    (λ '(a, b, c, d, e), mkKey a b c d e) _.
Next Obligation. by intros []. Qed.

Definition NewKey (scope scopeKey : string) (w : Window) (m : Metric) (now : Z) : Key :=
  mkKey scope scopeKey w m (PeriodStart w now).

Record Grant : Type := mkGrant { GOK : bool; Remaining : Z }.

Inductive coord_error : Type :=
| ErrLocalInCluster | ErrSharedStoreRequired | ErrLimitTooSmall | ErrClosed
| ErrNewCounter (e : counter_error) | ErrStore (msg : string).

(** ** The shared counter *)

Class SharedStore (St : Type) : Type := {
  Reserve : St → Z → Key → Z → Z → Z → St * result string Z; (* now key want limit ttl *)
  StoreRelease : St → Z → Key → Z → St * result string unit;
  StoreValue : St → Z → Key → St * result string Z }.

(** The in-memory store. *)
Record memEntry : Type := mkEntry { evalue : Z; expires : Z }.
Notation MemShared := (gmap Key memEntry).

Definition expired (e : memEntry) (now : Z) : bool :=
  negb (IsZero (expires e)) && negb (Before now (expires e)).

(** [entry] returns the counter, created afresh when missing or expired. *)
Definition entry (m : MemShared) (k : Key) (now : Z) : memEntry :=
  match m !! k with
  | Some e => if expired e now then mkEntry 0 zeroTime else e
  | None => mkEntry 0 zeroTime
  end.

Definition mem_Reserve (m : MemShared) (now : Z) (k : Key) (want limit ttl : Z) : MemShared * result string Z :=
  if want <=? 0 then (m, Ok 0)
  else
    let e := entry m k now in
    let room := i64 (limit - evalue e) in
    if room <=? 0 then (<[k := e]> m, Ok 0)
    else
      let grant := if room <? want then room else want in
      (<[k := mkEntry (i64 (evalue e + grant)) (Add now ttl)]> m, Ok grant).

Definition max64 (a b : Z) : Z := if b <? a then a else b.

Definition mem_Release (m : MemShared) (now : Z) (k : Key) (n : Z) : MemShared * result string unit :=
  if n <=? 0 then (m, Ok tt)
  else let e := entry m k now in
       (<[k := mkEntry (max64 (i64 (evalue e - n)) 0) (expires e)]> m, Ok tt).

Definition mem_Value (m : MemShared) (now : Z) (k : Key) : MemShared * result string Z :=
  let e := entry m k now in (<[k := e]> m, Ok (evalue e)).

Definition SweepExpired (m : MemShared) (now : Z) : MemShared * nat :=
  let m' := filter (λ kv : Key * memEntry, expired kv.2 now = false) m in (m', (size m - size m')%nat).

#[export] Instance MemShared_store : SharedStore MemShared := {
  Reserve := mem_Reserve; StoreRelease := mem_Release; StoreValue := mem_Value }.

(** ** The coordinators *)

Definition DefaultMinLeasable : Z := 16.
Definition DefaultBlockSize : Z := 16.
Definition DefaultLeaseTTL : Z := 30 * Second.

Definition orDur (v def : Z) : Z := if v <=? 0 then def else v.
Definition orInt (v def : Z) : Z := if v <=? 0 then def else v.

Record localCoordinator : Type := mkLocal { lcounters : gmap Key counter; lnodes : Z }.
Record sharedCoordinator : Type := mkSharedC { smode : Mode; sttl : Z }.
Record lease : Type := mkLease { remaining : Z; lexpires : Z }.
Record leasedCoordinator : Type := mkLeased {
  leases : gmap Key lease; lnodes' : Z; block : Z; minLeasable : Z; lttl : Z; lclosed : bool }.

Inductive Coordinator : Type :=
| CLocal (c : localCoordinator) | CShared (c : sharedCoordinator) | CLeased (c : leasedCoordinator).

Record CoordinatorConfig : Type := mkCC {
  CMode : Mode; Clustered : bool; Nodes : Z; hasShared : bool; BlockSize : Z; MinLeasable : Z; LeaseTTL : Z }.

Definition NewCoordinator (cfg : CoordinatorConfig) : result coord_error Coordinator :=
  let nodes := if Nodes cfg <? 1 then 1 else Nodes cfg in
  match CMode cfg with
  | ModeLocal => if Clustered cfg then Err ErrLocalInCluster else Ok (CLocal (mkLocal ∅ nodes))
  | ModeSharedRedis | ModeSharedPG =>
      if negb (hasShared cfg) then Err ErrSharedStoreRequired
      else Ok (CShared (mkSharedC (CMode cfg) (orDur (LeaseTTL cfg) DefaultLeaseTTL)))
  | ModeLeased =>
      if negb (hasShared cfg) then Err ErrSharedStoreRequired
      else Ok (CLeased (mkLeased ∅ nodes (orInt (BlockSize cfg) DefaultBlockSize)
                          (orInt (MinLeasable cfg) DefaultMinLeasable) (orDur (LeaseTTL cfg) DefaultLeaseTTL) false))
  end.

(** *** Local *)

Definition local_MaxOvershoot (c : localCoordinator) (limit nodes : Z) : Z :=
  let nodes := if nodes <? 1 then lnodes c else nodes in
  if nodes <=? 1 then 0 else i64 (limit * (nodes - 1)).

Definition counterFor (c : localCoordinator) (k : Key) (now : Z) : result coord_error (localCoordinator * counter) :=
  match lcounters c !! k with
  | Some ct => Ok (c, ct)
  | None => match newCounter (KWindow k) now with
            | Err e => Err (ErrNewCounter e)
            | Ok ct => Ok (mkLocal (<[k := ct]> (lcounters c)) (lnodes c), ct)
            end
  end.

Definition set_counter (c : localCoordinator) (k : Key) (ct : counter) : localCoordinator :=
  mkLocal (<[k := ct]> (lcounters c)) (lnodes c).

Definition local_Charge (c : localCoordinator) (k : Key) (limit n now : Z) : localCoordinator * result coord_error Grant :=
  match counterFor c k now with
  | Err e => (c, Err e)
  | Ok (c, ct) =>
      let '(ct, used) := sum ct now in
      if limit <? i64 (used + n) then (set_counter c k ct, Ok (mkGrant false (max64 (i64 (limit - used)) 0)))
      else (set_counter c k (add ct now n), Ok (mkGrant true (i64 (i64 (limit - used) - n))))
  end.

Definition local_Refund (c : localCoordinator) (k : Key) (n now : Z) : localCoordinator * result coord_error unit :=
  match counterFor c k now with
  | Err e => (c, Err e)
  | Ok (c, ct) => (set_counter c k (add ct now (i64 (- n))), Ok tt)
  end.

Definition local_Used (c : localCoordinator) (k : Key) (now : Z) : localCoordinator * result coord_error Z :=
  match counterFor c k now with
  | Err e => (c, Err e)
  | Ok (c, ct) => let '(ct, used) := sum ct now in (set_counter c k ct, Ok used)
  end.

Section Remote.
Context `{SharedStore St}.

(** *** Shared *)

Definition shared_MaxOvershoot (limit nodes : Z) : Z := 0.

Definition shared_Charge (c : sharedCoordinator) (s : St) (k : Key) (limit n now : Z) : St * result coord_error Grant :=
  let '(s, got) := Reserve s now k n limit (sttl c) in
  match got with
  | Err e => (s, Err (ErrStore e))
  | Ok got =>
      if got <? n then
        let s := if 0 <? got then (StoreRelease s now k got).1 else s in (s, Ok (mkGrant false 0))
      else
        let '(s, v) := StoreValue s now k in
        match v with
        | Err _ => (s, Ok (mkGrant true 0))
        | Ok v => (s, Ok (mkGrant true (max64 (i64 (limit - v)) 0)))
        end
  end.

Definition shared_Refund (s : St) (k : Key) (n now : Z) : St * result string unit := StoreRelease s now k n.
Definition shared_Used (s : St) (k : Key) (now : Z) : St * result string Z := StoreValue s now k.

(** *** Leased *)

Definition leased_MaxOvershoot (c : leasedCoordinator) (limit nodes : Z) : result coord_error Z :=
  if limit <? minLeasable c then Err ErrLimitTooSmall
  else
    let nodes := if nodes <? 1 then lnodes' c else nodes in
    if nodes <=? 1 then Ok 0 else Ok (i64 (block c * (nodes - 1))).

Definition set_leases (c : leasedCoordinator) (ls : gmap Key lease) : leasedCoordinator :=
  mkLeased ls (lnodes' c) (block c) (minLeasable c) (lttl c) (lclosed c).

(** The lease a charge at [now] may spend from: an expired one is dropped. *)
Definition live_lease (c : leasedCoordinator) (k : Key) (now : Z) : lease :=
  match leases c !! k with
  | Some l => if Before now (lexpires l) then l else mkLease 0 zeroTime
  | None => mkLease 0 zeroTime
  end.

Definition leased_Charge (c : leasedCoordinator) (s : St) (k : Key) (limit n now : Z)
  : leasedCoordinator * St * result coord_error Grant :=
  if limit <? minLeasable c then (c, s, Err ErrLimitTooSmall)
  else if n <=? 0 then (c, s, Ok (mkGrant true 0))
  else if lclosed c then (c, s, Err ErrClosed)
  else
    let l := live_lease c k now in
    let c := set_leases c (<[k := l]> (leases c)) in
    let spend (c : leasedCoordinator) (s : St) (l : lease) :=
      if remaining l <? n then (set_leases c (<[k := l]> (leases c)), s, Ok (mkGrant false (remaining l)))
      else
        let l := mkLease (i64 (remaining l - n)) (lexpires l) in
        (set_leases c (<[k := l]> (leases c)), s, Ok (mkGrant true (remaining l))) in
    if remaining l <? n then
      let want := if block c <? n then n else block c in
      let '(s, got) := Reserve s now k want limit (lttl c) in
      match got with
      | Err e => (c, s, Err (ErrStore e))
      | Ok got =>
          spend c s (mkLease (i64 (remaining l + got)) (if 0 <? got then Add now (lttl c) else lexpires l))
      end
    else spend c s l.

Definition leased_Refund (c : leasedCoordinator) (k : Key) (n now : Z) : leasedCoordinator :=
  match leases c !! k with
  | Some l => if Before now (lexpires l)
              then set_leases c (<[k := mkLease (i64 (remaining l + n)) (lexpires l)]> (leases c))
              else c
  | None => c
  end.

Definition leased_Used (c : leasedCoordinator) (s : St) (k : Key) (now : Z) : St * result string Z :=
  let '(s, v) := StoreValue s now k in
  (s, match v with
      | Err e => Err e
      | Ok v => Ok (max64 (match leases c !! k with Some l => i64 (v - remaining l) | None => v end) 0)
      end).

Definition LeaseRemaining (c : leasedCoordinator) (k : Key) : Z :=
  match leases c !! k with Some l => remaining l | None => 0 end.

(** [Close] returns every live unspent lease; [order] is the order in which Go visits
    the map. *)
Definition leased_Close (c : leasedCoordinator) (s : St) (order : list Key) (now : Z) : leasedCoordinator * St :=
  if lclosed c then (c, s)
  else
    let s := foldl (λ s k,
      match leases c !! k with
      | Some l => if (0 <? remaining l) && Before now (lexpires l) then (StoreRelease s now k (remaining l)).1 else s
      | None => s
      end) s order in
    (mkLeased ∅ (lnodes' c) (block c) (minLeasable c) (lttl c) true, s).
End Remote.

(** ** The contract of a shared counter *)

(** [holds s k v t1]: the counter of [k] reads [v] until [t1] if nobody touches it.
    Within the lifetime it was given, a counter only moves by what is reserved and
    released, and a reservation never lifts it above the limit; a failed call may
    have taken effect or not. *)
Class SharedContract (St : Type) `{SharedStore St} : Type := {
  holds : St → Key → Z → Z → Prop;
  holds_nonneg s k v t1 : holds s k v t1 → 0 <= v;
  reserve_law s now k want limit ttl v t1 s' r :
    holds s k v t1 → now < t1 <= now + ttl → 0 < want → v <= limit < two63 →
    Reserve s now k want limit ttl = (s', r) →
    ∃ v', holds s' k v' t1 ∧ v <= v' <= limit ∧ (∀ g, r = Ok g → 0 <= g <= want ∧ v' = v + g);
  release_law s now k n v t1 s' r :
    holds s k v t1 → now < t1 → 0 <= n < two63 → v < two63 → StoreRelease s now k n = (s', r) →
    ∃ v', holds s' k v' t1 ∧ v - n <= v' <= v;
  release_other s now k k' n v t1 s' r :
    holds s k v t1 → k' ≠ k → StoreRelease s now k' n = (s', r) → holds s' k v t1;
  value_law s now k v t1 s' r :
    holds s k v t1 → now < t1 → StoreValue s now k = (s', r) → holds s' k v t1 }.

(** The in-memory store keeps the contract. *)
Definition mem_holds (m : MemShared) (k : Key) (v t1 : Z) : Prop :=
  0 <= v ∧ ∀ now, now < t1 → evalue (entry m k now) = v.

Lemma entry_insert m k e now : entry (<[k := e]> m) k now = if expired e now then mkEntry 0 zeroTime else e.
Proof. unfold entry. by rewrite lookup_insert_eq. Qed.

Lemma expired_zero v now : expired (mkEntry v zeroTime) now = false.
Proof. done. Qed.

(** Writing back what [entry] returned, with a value [f v], where [f 0 = 0]. *)
Lemma mem_holds_touch m k v t1 now v' :
  mem_holds m k v t1 → now < t1 → 0 <= v' → (v = 0 → v' = 0) →
  mem_holds (<[k := mkEntry v' (expires (entry m k now))]> m) k v' t1.
Proof.
  intros [Hv Hh] Hn Hv' H0. split; [done|]. intros now' Hn'. rewrite entry_insert.
  pose proof (Hh now' Hn') as E'. unfold entry in *. destruct (m !! k) as [e|]; [|by rewrite expired_zero].
  destruct (expired e now) eqn:En; [by rewrite expired_zero|].
  assert (expired (mkEntry v' (expires e)) now' = expired e now') as -> by done.
  destruct (expired e now'); simpl in *; auto with lia.
Qed.

Lemma entry_eta e : mkEntry (evalue e) (expires e) = e.
Proof. by destruct e. Qed.

#[export] Program Instance MemShared_contract : SharedContract MemShared := { holds := mem_holds }.
Next Obligation. by intros s k v t1 []. Qed.
Next Obligation.
  intros s now k want limit ttl v t1 s' r Hh Hn Hw Hl. cbn. unfold mem_Reserve.
  rewrite (proj2 (Z.leb_gt want 0)) by lia. pose proof Hh as [Hv He]. rewrite (He now) by lia.
  rewrite (i64_id (limit - v)) by (widths; lia).
  destruct (Z.leb_spec (limit - v) 0); intros; simplify_eq.
  - exists v. split_and!; try lia; [|by intros ? [= <-]; lia].
    pose proof (mem_holds_touch s k v t1 now v Hh ltac:(lia) Hv ltac:(done)) as Ht.
    by rewrite <- (He now) in Ht at 1 by lia; rewrite entry_eta in Ht.
  - set (g := if limit - v <? want then limit - v else want).
    assert (0 < g <= want ∧ g <= limit - v) as [Hg1 Hg2] by (unfold g; destruct (Z.ltb_spec (limit - v) want); lia).
    rewrite i64_id by (widths; lia). exists (v + g). split_and!; try lia; [|by intros ? [= <-]; lia].
    split; [lia|]. intros now' Hn'. rewrite entry_insert.
    assert (expired (mkEntry (v + g) (Add now ttl)) now' = false) as ->; [|done].
    unfold expired, Before, Add. simpl. rewrite (proj2 (Z.ltb_lt now' (now + ttl))) by lia. by rewrite andb_false_r.
Qed.
Next Obligation.
  intros s now k n v t1 s' r Hh Hn Hr Hvv. cbn. unfold mem_Release. pose proof Hh as [Hv He].
  destruct (Z.leb_spec n 0); intros; simplify_eq; [exists v; split_and!; try done; lia|].
  rewrite (He now) by lia. rewrite i64_id by (widths; lia).
  assert (max64 (v - n) 0 = Z.max 0 (v - n)) as -> by (unfold max64; destruct (Z.ltb_spec 0 (v - n)); lia).
  exists (Z.max 0 (v - n)). split; [|lia]. apply (mem_holds_touch s k v t1 now); (done || lia).
Qed.
Next Obligation.
  intros s now k k' n v t1 s' r [Hv He] Hk. cbn. unfold mem_Release. destruct (Z.leb_spec n 0); intros; simplify_eq; [done|].
  split; [done|]. intros now' Hn'. rewrite <- (He now' Hn'). unfold entry. by rewrite lookup_insert_ne.
Qed.
Next Obligation.
  intros s now k v t1 s' r Hh Hn. cbn. unfold mem_Value. intros; simplify_eq. pose proof Hh as [Hv He].
  pose proof (mem_holds_touch s k v t1 now v Hh Hn Hv ltac:(done)) as Ht.
  by rewrite <- (He now) in Ht at 1 by done; rewrite entry_eta in Ht.
Qed.

(** ** No overshoot within the lifetime of the counter *)

Section Safety.
Context {St : Type} {SS : SharedStore St} {SC : SharedContract St}.
Variables (k : Key) (limit t1 ttl : Z).
Hypothesis limit_range : 0 <= limit < two63.

(** The instants considered: before [t1], and no more than [ttl] before it. *)
Definition in_life (now : Z) : Prop := now < t1 <= now + ttl.

(** Nodes charging the shared counter directly. The second component is what was
    granted and not refunded; only granted units are refunded. *)
Inductive shared_step : St * Z → St * Z → Prop :=
| sh_charge s spent c n now s' r :
    in_life now → 0 < n → sttl c = ttl → shared_Charge c s k limit n now = (s', r) →
    shared_step (s, spent) (s', match r with Ok g => if GOK g then spent + n else spent | Err _ => spent end)
| sh_refund s spent n now s' r :
    in_life now → 0 <= n <= spent → shared_Refund s k n now = (s', r) → shared_step (s, spent) (s', spent - n)
| sh_used s spent now s' r :
    in_life now → shared_Used s k now = (s', r) → shared_step (s, spent) (s', spent).

Definition shared_ok (c : St * Z) : Prop :=
  ∃ v, holds c.1 k v t1 ∧ 0 <= c.2 <= v ∧ v <= limit.

Lemma shared_step_ok c c' : shared_step c c' → shared_ok c → shared_ok c'.
Proof using limit_range.
  intros [s spent co n now s' r Hn H0 Ht E|s spent n now s' r Hn H0 E|s spent now s' r Hn E] (v & Hv & Hs & Hl);
    simpl in Hv, Hs; unfold in_life in Hn.
  - unfold shared_Charge in E. rewrite Ht in E. destruct (Reserve s now k n limit ttl) as [s1 got] eqn:E1.
    destruct (reserve_law s now k n limit ttl v t1 s1 got Hv Hn H0 ltac:(lia) E1) as (v1 & Hv1 & Hr1 & Hgot).
    destruct got as [g|e]; [|simplify_eq; exists v1; simpl; split_and!; (done || lia)].
    destruct (Hgot g eq_refl) as [Hg Eg]. destruct (Z.ltb_spec g n).
    + simplify_eq. destruct (Z.ltb_spec 0 g); [|exists (v + g); simpl; split_and!; (done || lia)].
      destruct (StoreRelease s1 now k g) as [s2 u] eqn:E2.
      destruct (release_law s1 now k g (v + g) t1 s2 u Hv1 ltac:(lia) ltac:(lia) ltac:(lia) E2) as (v2 & Hv2 & Hr2).
      exists v2. simpl. split_and!; (done || lia).
    + destruct (StoreValue s1 now k) as [s2 u] eqn:E2. pose proof (value_law s1 now k v1 t1 s2 u Hv1 ltac:(lia) E2) as Hv2.
      destruct u; simplify_eq; exists (v + g); simpl; split_and!; (done || lia).
  - unfold shared_Refund in E.
    destruct (release_law s now k n v t1 s' r Hv ltac:(lia) ltac:(lia) ltac:(lia) E) as (v' & Hv' & Hr).
    exists v'. simpl. split_and!; (done || lia).
  - exists v. simpl. split_and!; try lia. exact (value_law s now k v t1 s' r Hv ltac:(lia) E).
Qed.

(** Shared modes do not overshoot while the counter lives: however many nodes
    charge and refund one key, in any order, at instants within the counter's
    lifetime, what is granted and not refunded never exceeds the limit. *)
Theorem shared_never_overshoots s0 s spent :
  holds s0 k 0 t1 → rtc shared_step (s0, 0) (s, spent) → 0 <= spent <= limit.
Proof using limit_range.
  intros H0 Hs.
  assert (∀ c c', rtc shared_step c c' → shared_ok c → shared_ok c') as Hind.
  { intros c c' Hc. induction Hc as [c|c c1 c2 H1 _ IH]; intros Hok; [done|]. apply IH. by eapply shared_step_ok. }
  destruct (Hind _ _ Hs) as (v & _ & Hsp & Hl); [by exists 0; simpl; split_and!; (done || lia)|]. simpl in Hsp. lia.
Qed.

(** ** Leases *)

(** What the nodes hold unspent for [k]. *)
Definition held (cs : list leasedCoordinator) : Z := foldr (λ c a, LeaseRemaining c k + a) 0 cs.

Lemma held_insert cs i c c' :
  cs !! i = Some c → held (<[i := c']> cs) = held cs - LeaseRemaining c k + LeaseRemaining c' k.
Proof using Type.
  clear limit_range. revert i. induction cs as [|x cs IH]; intros [|i] E; simpl in *; try done; [simplify_eq; lia|].
  rewrite (IH i E). lia.
Qed.

Lemma held_le cs i c :
  (∀ c, c ∈ cs → 0 <= LeaseRemaining c k) → cs !! i = Some c → 0 <= LeaseRemaining c k <= held cs.
Proof using Type.
  clear limit_range. revert i. induction cs as [|x cs IH]; intros [|i] Hpos E; simpl in *; try done.
  - simplify_eq. assert (0 <= held cs); [|pose proof (Hpos c ltac:(by left)); lia].
    clear IH. induction cs as [|y cs IHc]; simpl; [lia|].
    pose proof (Hpos y ltac:(right; by left)). assert (0 <= held cs); [|lia].
    apply IHc. intros z [->|Hz]%elem_of_cons; apply Hpos; [by left|right; by right].
  - destruct (IH i ltac:(intros; apply Hpos; by right) E) as [A B]. pose proof (Hpos x ltac:(by left)). lia.
Qed.

(** Nodes with leases; the last component is what was granted and not refunded. *)
Inductive lease_step : list leasedCoordinator * St * Z → list leasedCoordinator * St * Z → Prop :=
| le_charge cs s spent i c n now c' s' r :
    cs !! i = Some c → in_life now → lttl c = ttl → 0 < block c < two63 → n < two63 →
    leased_Charge c s k limit n now = (c', s', r) →
    lease_step (cs, s, spent)
      (<[i := c']> cs, s', match r with Ok g => if GOK g then spent + Z.max 0 n else spent | Err _ => spent end)
| le_refund cs s spent i c n now :
    cs !! i = Some c → 0 <= n <= spent → lease_step (cs, s, spent) (<[i := leased_Refund c k n now]> cs, s, spent - n)
| le_close cs s spent i c order now c' s' :
    cs !! i = Some c → in_life now → NoDup order → leased_Close c s order now = (c', s') →
    lease_step (cs, s, spent) (<[i := c']> cs, s', spent).

Definition lease_ok (w : list leasedCoordinator * St * Z) : Prop :=
  let '(cs, s, spent) := w in
  0 <= spent ∧ (∀ c, c ∈ cs → 0 <= LeaseRemaining c k)
  ∧ ∃ v, holds s k v t1 ∧ held cs + spent <= v ∧ v <= limit.

Lemma pos_insert (cs : list leasedCoordinator) i c' :
  (∀ c, c ∈ cs → 0 <= LeaseRemaining c k) → 0 <= LeaseRemaining c' k →
  ∀ c, c ∈ <[i := c']> cs → 0 <= LeaseRemaining c k.
Proof using Type.
  clear limit_range. intros Hp Hc c Hin. apply list_elem_of_lookup in Hin as [j Hj].
  apply list_lookup_insert_Some in Hj as [(-> & <- & _)|[_ Hj]]; [done|]. apply Hp. by eapply list_elem_of_lookup_2.
Qed.

Lemma live_le c now : 0 <= LeaseRemaining c k → 0 <= remaining (live_lease c k now) <= LeaseRemaining c k.
Proof using Type.
  clear limit_range. unfold LeaseRemaining, live_lease. destruct (leases c !! k); [case_match|]; simpl; lia.
Qed.

(** A charge moves units from the counter to the lease to the caller. *)
Lemma leased_charge_spec c s n now v a c' s' r :
  in_life now → lttl c = ttl → 0 < block c < two63 → n < two63 → 0 <= LeaseRemaining c k →
  holds s k v t1 → LeaseRemaining c k <= a → a <= v <= limit →
  leased_Charge c s k limit n now = (c', s', r) →
  0 <= LeaseRemaining c' k
  ∧ ∃ v', holds s' k v' t1 ∧ v' <= limit
    ∧ a - LeaseRemaining c k + LeaseRemaining c' k
      + (match r with Ok g => if GOK g then Z.max 0 n else 0 | Err _ => 0 end) <= v'.
Proof using limit_range.
  intros Hn Ht Hb Hnn Hr Hv Ha Hl E. unfold in_life in Hn. unfold leased_Charge in E.
  destruct (limit <? minLeasable c); [simplify_eq; split; [done|exists v; split_and!; (done || lia)]|].
  destruct (Z.leb_spec n 0); [simplify_eq; simpl; split; [done|exists v; split_and!; (done || lia)]|].
  destruct (lclosed c); [simplify_eq; split; [done|exists v; split_and!; (done || lia)]|].
  destruct (live_le c now Hr) as [L1 L2]. set (l := live_lease c k now) in *.
  cbn [lttl block set_leases] in E. rewrite Ht in E.
  assert (∀ c l, LeaseRemaining (set_leases c (<[k := l]> (leases c))) k = remaining l) as EL
    by (intros; unfold LeaseRemaining; simpl; by rewrite lookup_insert_eq).
  destruct (Z.ltb_spec (remaining l) n).
  - set (want := if block c <? n then n else block c) in E.
    assert (0 < want) as Hw by (unfold want; destruct (block c <? n); lia).
    destruct (Reserve s now k want limit ttl) as [s1 got] eqn:E1.
    destruct (reserve_law s now k want limit ttl v t1 s1 got Hv Hn Hw ltac:(lia) E1) as (v1 & Hv1 & Hr1 & Hgot).
    destruct got as [g|e]; [|simplify_eq; rewrite EL; split; [lia|exists v1; split_and!; (done || lia)]].
    destruct (Hgot g eq_refl) as [Hg Eg]. simpl in E. rewrite (i64_id (remaining l + g)) in E by (widths; lia).
    destruct (Z.ltb_spec (remaining l + g) n); simplify_eq; rewrite EL; simpl.
    + split; [lia|]. exists (v + g). split_and!; (done || lia).
    + rewrite i64_id by (widths; lia). split; [lia|]. exists (v + g). split_and!; (done || lia).
  - simplify_eq. rewrite EL. simpl.
    rewrite i64_id by (widths; lia). split; [lia|]. exists v. split_and!; (done || lia).
Qed.

(** Closing gives back at most what the node held. *)
Lemma leased_close_spec c s order now v c' s' :
  in_life now → NoDup order → 0 <= LeaseRemaining c k < two63 → holds s k v t1 → v < two63 →
  leased_Close c s order now = (c', s') →
  LeaseRemaining c' k = LeaseRemaining c k ∧ holds s' k v t1
  ∨ LeaseRemaining c' k = 0 ∧ ∃ v', holds s' k v' t1 ∧ v - LeaseRemaining c k <= v' <= v.
Proof using Type.
  clear limit_range. intros Hn Hnd Hr Hv Hvv. unfold leased_Close. destruct (lclosed c); intros E; [simplify_eq; by left|].
  apply pair_equal_spec in E as [<- <-]. right. split; [done|].
  set (f := λ (s : St) (k : Key), _).
  assert (∀ l s v, NoDup l → holds s k v t1 → v < two63 →
    ∃ v', holds (foldl f s l) k v' t1 ∧ v - (if decide (k ∈ l) then LeaseRemaining c k else 0) <= v' <= v) as Hgen.
  { induction l as [|x l IH]; intros s0 v0 Hl Hh Hv0; cbn [foldl].
    { exists v0. split; [done|]. case_decide; lia. }
    apply NoDup_cons in Hl as [Hx Hl].
    assert (∃ v1, holds (f s0 x) k v1 t1 ∧ v0 - (if decide (x = k) then LeaseRemaining c k else 0) <= v1 <= v0) as (v1 & Hh1 & Hr1).
    { unfold f. unfold LeaseRemaining in *. destruct (leases c !! x) as [lx|] eqn:El;
        [|exists v0; split; [done|]; destruct (decide (x = k)) as [->|]; rewrite ?El; lia].
      destruct ((0 <? remaining lx) && Before now (lexpires lx)) eqn:Eb;
        [|exists v0; split; [done|]; destruct (decide (x = k)) as [->|]; rewrite ?El in *; lia].
      apply andb_true_iff in Eb as [Eb _]. apply Z.ltb_lt in Eb.
      destruct (StoreRelease s0 now x (remaining lx)) as [s1 u] eqn:E1. simpl. destruct (decide (x = k)) as [->|Hne].
      - rewrite El in *. unfold in_life in Hn.
        destruct (release_law s0 now k (remaining lx) v0 t1 s1 u Hh ltac:(lia) ltac:(lia) Hv0 E1) as (v1 & Hv1 & Hr1).
        exists v1. split; [done|lia].
      - exists v0. split; [by eapply release_other|lia]. }
    destruct (IH (f s0 x) v1 Hl Hh1 ltac:(lia)) as (v2 & Hh2 & Hr2). exists v2. split; [done|].
    clear IH. destruct (decide (k ∈ x :: l)) as [Hin|Hin]; rewrite elem_of_cons in Hin;
      destruct (decide (x = k)), (decide (k ∈ l)); subst; try tauto; try lia. }
  destruct (Hgen order s v Hnd Hv Hvv) as (v' & Hv' & Hr'). exists v'. split; [done|]. case_decide; lia.
Qed.
Lemma lease_step_ok w w' : lease_step w w' → lease_ok w → lease_ok w'.
Proof using limit_range.
  intros [cs s spent i c n now c' s' r Hi Hn Ht Hb Hnn E|cs s spent i c n now Hi Hn|cs s spent i c order now c' s' Hi Hn Hnd E]
    (Hsp & Hpos & v & Hv & Hle & Hl); destruct (held_le cs i c Hpos Hi) as [Hc1 Hc2]; unfold lease_ok.
  - destruct (leased_charge_spec c s n now v (held cs + spent) c' s' r) as (P & v' & Hv' & Hl' & Hle'); try done; try lia.
    rewrite (held_insert cs i c c' Hi).
    split_and!; [destruct r as [[[] g]|]; simpl; lia|by apply pos_insert|].
    exists v'. split_and!; try done. destruct r as [[[] g]|]; simpl in *; lia.
  - assert (0 <= LeaseRemaining (leased_Refund c k n now) k <= LeaseRemaining c k + n) as [P Q].
    { unfold leased_Refund, LeaseRemaining in *. destruct (leases c !! k) as [l|] eqn:El; [|rewrite El; lia].
      destruct (Before now (lexpires l)); simpl; [|rewrite El; lia].
      rewrite lookup_insert_eq. simpl. rewrite i64_id by (widths; lia). lia. }
    rewrite (held_insert cs i c _ Hi). split_and!; [lia|by apply pos_insert|]. exists v. split_and!; (done || lia).
  - rewrite (held_insert cs i c c' Hi).
    destruct (leased_close_spec c s order now v c' s' Hn Hnd ltac:(lia) Hv ltac:(lia) E) as [[P Hv']|(P & v' & Hv' & Hr)].
    + split_and!; [lia|apply pos_insert; [done|lia]|]. exists v. split_and!; (done || lia).
    + split_and!; [lia|apply pos_insert; [done|lia]|]. exists v'. split_and!; (done || lia).
Qed.

(** C32. Leasing does not overshoot while the counter lives: however many nodes
    lease, charge, refund and close, in any order and with any block sizes, at
    instants within the counter's lifetime, what they grant and do not get refunded,
    together with what they still hold, never exceeds the limit. *)
Theorem leases_never_overshoot cs0 s0 cs s spent :
  holds s0 k 0 t1 → (∀ c, c ∈ cs0 → LeaseRemaining c k = 0) →
  rtc lease_step (cs0, s0, 0) (cs, s, spent) → 0 <= spent ∧ 0 <= held cs ∧ spent + held cs <= limit.
Proof using limit_range.
  intros H0 Hz Hs.
  assert (∀ w w', rtc lease_step w w' → lease_ok w → lease_ok w') as Hind.
  { intros w w' Hw. induction Hw as [w|w w1 w2 H1 _ IH]; intros Hok; [done|]. apply IH. by eapply lease_step_ok. }
  assert (held cs0 = 0) as E0.
  { clear Hs Hind. induction cs0 as [|c cs0 IH]; simpl; [done|]. rewrite (Hz c) by by left. rewrite IH; [done|].
    intros c' Hc'. apply Hz. by right. }
  destruct (Hind _ _ Hs) as (Hsp & Hpos & v & _ & Hle & Hl).
  { split_and!; [done|intros c Hc; rewrite Hz by done; done|]. exists 0. split_and!; (done || lia). }
  assert (0 <= held cs); [|lia]. clear -Hpos. induction cs as [|c cs IH]; simpl; [done|].
  pose proof (Hpos c ltac:(by left)). assert (0 <= held cs); [|lia]. apply IH. intros c' Hc'. apply Hpos. by right.
Qed.
End Safety.

(** ** An idle counter is forgotten *)

Module Forgotten.
Definition key : Key := NewKey "key" "k" Daily MetricRequests 0.
Definition coordinator : sharedCoordinator := mkSharedC ModeSharedPG DefaultLeaseTTL.
Definition node : leasedCoordinator := mkLeased ∅ 1 DefaultBlockSize DefaultMinLeasable DefaultLeaseTTL false.

(** The whole limit at midnight, and the whole limit again half a minute later. *)
Definition charge1 : MemShared * result coord_error Grant := shared_Charge coordinator ∅ key 16 16 0.
Definition charge2 : MemShared * result coord_error Grant := shared_Charge coordinator charge1.1 key 16 16 (30 * Second).
Definition lease_first : leasedCoordinator * MemShared * result coord_error Grant := leased_Charge node ∅ key 16 16 0.
Definition lease_second : leasedCoordinator * MemShared * result coord_error Grant :=
  leased_Charge lease_first.1.1 lease_first.1.2 key 16 16 (30 * Second).

(** The published overshoot does not survive an idle counter: the coordinators
    give the shared counter the lease lifetime (30 seconds by default) instead of the
    period's, so with the in-memory store a key whose whole daily limit was granted
    is granted the whole limit again 30 seconds later, in the same period, by a
    single node whose published overshoot is 0. *)
Theorem idle_counter_forgotten :
  KPeriodStart key = PeriodStart Daily (30 * Second)
  ∧ charge1.2 = Ok (mkGrant true 0) ∧ charge2.2 = Ok (mkGrant true 0)
  ∧ shared_MaxOvershoot 16 1 = 0
  ∧ lease_first.2 = Ok (mkGrant true 0) ∧ lease_second.2 = Ok (mkGrant true 0)
  ∧ leased_MaxOvershoot node 16 1 = Ok 0.
Proof. by vm_compute. Qed.
End Forgotten.

(** ** Witnesses *)

Import Forgotten.

Lemma empty_holds k t1 : holds (∅ : MemShared) k 0 t1.
Proof. split; [done|]. intros now _. unfold entry. by rewrite lookup_empty. Qed.

Lemma demo_life : in_life (10 * Second) (30 * Second) 0.
Proof. unfold in_life, Second. lia. Qed.

Lemma charge1_granted : charge1.2 = Ok (mkGrant true 0).
Proof. vm_compute. reflexivity. Qed.

Lemma lease_first_granted : lease_first.2 = Ok (mkGrant true 0).
Proof. vm_compute. reflexivity. Qed.

Lemma shared_never_overshoots_witness :
  ∃ s, rtc (shared_step key 16 (10 * Second) (30 * Second)) ((∅ : MemShared), 0) (s, 16) ∧ 0 <= 16 <= 16.
Proof.
  pose proof (sh_charge key 16 (10 * Second) (30 * Second) (∅ : MemShared) 0 coordinator 16 0 charge1.1 charge1.2
    demo_life ltac:(lia) eq_refl (surjective_pairing _)) as Hst.
  rewrite charge1_granted in Hst. exists charge1.1.
  assert (rtc (shared_step key 16 (10 * Second) (30 * Second)) ((∅ : MemShared), 0) (charge1.1, 16)) as Hs
    by (eapply rtc_l; [exact Hst|apply rtc_refl]).
  split; [exact Hs|].
  exact (shared_never_overshoots key 16 (10 * Second) (30 * Second) ltac:(unfold two63; lia) ∅ _ 16 (empty_holds _ _) Hs).
Defined.

Lemma leases_never_overshoot_witness :
  ∃ cs s, rtc (lease_step key 16 (10 * Second) (30 * Second)) ([node], (∅ : MemShared), 0) (cs, s, 16)
  ∧ 16 + held key cs <= 16.
Proof.
  assert (leased_Charge node (∅ : MemShared) key 16 16 0 = (lease_first.1.1, lease_first.1.2, lease_first.2)) as E.
  { rewrite <- !surjective_pairing. reflexivity. }
  pose proof (le_charge key 16 (10 * Second) (30 * Second) [node] (∅ : MemShared) 0 0 node 16 0
    lease_first.1.1 lease_first.1.2 lease_first.2 eq_refl demo_life eq_refl ltac:(simpl; unfold DefaultBlockSize, two63; lia)
    ltac:(unfold two63; lia) E) as Hst.
  rewrite lease_first_granted in Hst. exists [lease_first.1.1], lease_first.1.2.
  assert (rtc (lease_step key 16 (10 * Second) (30 * Second)) ([node], (∅ : MemShared), 0)
    ([lease_first.1.1], lease_first.1.2, 16)) as Hs by (eapply rtc_l; [exact Hst|apply rtc_refl]).
  split; [exact Hs|].
  apply (leases_never_overshoot key 16 (10 * Second) (30 * Second) ltac:(unfold two63; lia) [node] ∅
    [lease_first.1.1] lease_first.1.2 16 (empty_holds _ _)); [|exact Hs].
  intros c Hc. apply list_elem_of_singleton in Hc as ->. reflexivity.
Defined.
