(* ===== verification/History.v ===== *)
(** * Usage history of keys ([internal/keyguard/history.go])

    The interface the guard reads a key's past through, and the bounded, bucketed
    in-memory implementation. The order in which Go visits the table of keys when
    it looks for one to evict is an argument. *)
From stdpp Require Import base gmap list strings.
From Stdlib Require Import ZArith Lia.
From S2P Require Import Prelude GoTime Counter.
Import Time.
Open Scope Z_scope.

(** [History]; the in-memory one never fails, a store-backed one may. *)
Class History (H : Type) : Type := {
  hist_Window : H → string → Z → Z → result string Z;
  hist_Since : H → string → result string Z;
  hist_Keys : H → result string (list string) }.

Record keyHistory : Type := mkKeyHistory { hbuckets : gmap Z Z; hfirst : Z; hlast : Z }.

Record MemHistory : Type := mkMemHistory {
  hbucket : Z; retention : Z; maxKeys : Z; hkeys : gmap string keyHistory }.

Definition DefaultBucket : Z := 5 * Minute.
Definition DefaultRetention : Z := 7 * 24 * Hour.
Definition DefaultMaxKeys : Z := 100000.

Definition NewMemHistory (bucket retention maxKeys : Z) : MemHistory :=
  mkMemHistory (if bucket <=? 0 then DefaultBucket else bucket)
    (if retention <=? 0 then DefaultRetention else retention)
    (if maxKeys <=? 0 then DefaultMaxKeys else maxKeys) ∅.

Definition bucketOf (h : MemHistory) (t : Z) : Z :=
  let n := UnixNano t in let b := hbucket h in i64 (n - Z.rem (i64 (Z.rem n b + b)) b).

Definition set_keys (h : MemHistory) (ks : gmap string keyHistory) : MemHistory :=
  mkMemHistory (hbucket h) (retention h) (maxKeys h) ks.

(** The scan for the least recently used key, over the keys in visiting order. *)
Definition pick_victim (h : MemHistory) (order : list string) : string * Z :=
  foldl (λ '(victim, oldest) id,
    match hkeys h !! id with
    | Some k => if String.eqb victim "" || Before (hlast k) oldest then (id, hlast k) else (victim, oldest)
    | None => (victim, oldest)
    end) (""%string, zeroTime) order.

Definition evictLocked (h : MemHistory) (order : list string) : MemHistory :=
  if Z.of_nat (size (hkeys h)) <? maxKeys h then h
  else set_keys h (delete (pick_victim h order).1 (hkeys h)).

(** One sample into one key's record. *)
Definition add_sample (h : MemHistory) (k : keyHistory) (n t : Z) : keyHistory :=
  let first := if Before t (hfirst k) then t else hfirst k in
  let last := if After t (hlast k) then t else hlast k in
  let b := bucketOf h t in
  let bs := <[b := i64 (default 0 (hbuckets k !! b) + n)]> (hbuckets k) in
  let cutoff := UnixNano (Add t (- retention h)) in
  let bs := filter (λ bv : Z * Z, cutoff <= bv.1) bs in
  mkKeyHistory bs (if UnixNano first <? cutoff then cutoff else first) last.

Definition hist_Add (h : MemHistory) (keyID : string) (n t : Z) (order : list string) : MemHistory :=
  if String.eqb keyID "" || (n <=? 0) then h
  else
    let '(h, k) := match hkeys h !! keyID with
                   | Some k => (h, k)
                   | None => (evictLocked h order, mkKeyHistory ∅ t zeroTime)
                   end in
    set_keys h (<[keyID := add_sample h k n t]> (hkeys h)).

Definition window_total (lo hi : Z) (bs : gmap Z Z) : Z :=
  map_fold (λ b v total, if (lo <=? b) && (b <? hi) then i64 (total + v) else total) 0 bs.

Definition mem_Window (h : MemHistory) (keyID : string) (from to : Z) : Z :=
  match hkeys h !! keyID with
  | None => 0
  | Some k => window_total (UnixNano from) (UnixNano to) (hbuckets k)
  end.

Definition mem_Since (h : MemHistory) (keyID : string) : Z :=
  match hkeys h !! keyID with None => zeroTime | Some k => hfirst k end.

Definition mem_Len (h : MemHistory) : nat := size (hkeys h).

#[export] Instance MemHistory_History : History MemHistory := {
  hist_Window h id from to := Ok (mem_Window h id from to);
  hist_Since h id := Ok (mem_Since h id);
  hist_Keys h := Ok (elements (dom (hkeys h))) }.

(** ** A window is the sum of its samples *)

Lemma window_step_comm lo hi : ∀ b1 b2 v1 v2 (y : Z),
  (λ b v total, if (lo <=? b) && (b <? hi) then i64 (total + v) else total) b1 v1
    ((λ b v total, if (lo <=? b) && (b <? hi) then i64 (total + v) else total) b2 v2 y)
  = (λ b v total, if (lo <=? b) && (b <? hi) then i64 (total + v) else total) b2 v2
    ((λ b v total, if (lo <=? b) && (b <? hi) then i64 (total + v) else total) b1 v1 y).
Proof.
  intros b1 b2 v1 v2 y; simpl. destruct ((lo <=? b1) && (b1 <? hi)), ((lo <=? b2) && (b2 <? hi)); try done.
  rewrite !i64_add_l. f_equal. lia.
Qed.

Lemma window_insert_fresh lo hi b v bs :
  bs !! b = None →
  window_total lo hi (<[b := v]> bs)
  = if (lo <=? b) && (b <? hi) then i64 (window_total lo hi bs + v) else window_total lo hi bs.
Proof.
  intros H. unfold window_total. rewrite map_fold_insert_L; [done| |done]. intros. apply window_step_comm.
Qed.

Lemma window_add lo hi b n bs :
  i64 (window_total lo hi (<[b := i64 (default 0 (bs !! b) + n)]> bs))
  = if (lo <=? b) && (b <? hi) then i64 (window_total lo hi bs + n) else i64 (window_total lo hi bs).
Proof.
  destruct (bs !! b) as [v|] eqn:E; simpl.
  - pose proof (window_insert_fresh lo hi b v (delete b bs) (lookup_delete_eq bs b)) as Ew.
    rewrite insert_delete_id in Ew by done.
    pose proof (window_insert_fresh lo hi b (i64 (v + n)) (delete b bs) (lookup_delete_eq bs b)) as En.
    rewrite insert_delete_eq in En. rewrite En, Ew.
    destruct ((lo <=? b) && (b <? hi)); [|done]. rewrite i64_idem, (i64_add_l (window_total _ _ _ + v)).
    rewrite (Z.add_comm _ (i64 (v + n))), i64_add_l. f_equal. lia.
  - rewrite window_insert_fresh by done.
    destruct ((lo <=? b) && (b <? hi)); [|done]. rewrite i64_idem.
    rewrite (Z.add_comm _ (i64 n)), i64_add_l. f_equal. lia.
Qed.

(** Dropping buckets below the window changes nothing. *)
Lemma window_filter lo hi cutoff bs :
  cutoff <= lo → window_total lo hi (filter (λ bv : Z * Z, cutoff <= bv.1) bs) = window_total lo hi bs.
Proof.
  intros Hc. induction bs as [|b v bs Hb IH] using map_ind; [by rewrite map_filter_empty|].
  destruct (decide (cutoff <= b)).
  - rewrite map_filter_insert_True by done. rewrite !window_insert_fresh; [by rewrite IH|done|].
    apply map_lookup_filter_None. by left.
  - rewrite map_filter_insert_False by done. rewrite window_insert_fresh by done.
    rewrite (proj2 (Z.leb_gt lo b)) by lia. simpl. rewrite delete_id by done. done.
Qed.

(** A recorded sample: key, instant, tokens, and the visiting order of an eviction. *)
Record sample : Type := mkSample { skey : string; sat : Z; stokens : Z; sorder : list string }.

Definition adds (h : MemHistory) (ss : list sample) : MemHistory :=
  foldl (λ h s, hist_Add h (skey s) (stokens s) (sat s) (sorder s)) h ss.

(** The sample counts for [id] in the bucket starts [lo, hi). *)
Definition counted (h : MemHistory) (id : string) (lo hi : Z) (s : sample) : bool :=
  String.eqb (skey s) id && (0 <? stokens s) && (lo <=? bucketOf h (sat s)) && (bucketOf h (sat s) <? hi).

Fixpoint sampled (h : MemHistory) (id : string) (lo hi : Z) (ss : list sample) : Z :=
  match ss with
  | [] => 0
  | s :: ss' => (if counted h id lo hi s then stokens s else 0) + sampled h id lo hi ss'
  end.

Definition held (h : MemHistory) (id : string) (lo hi : Z) : Z :=
  match hkeys h !! id with None => 0 | Some k => window_total lo hi (hbuckets k) end.

Definition same_params (h h' : MemHistory) : Prop :=
  hbucket h' = hbucket h ∧ retention h' = retention h ∧ maxKeys h' = maxKeys h.

(** The cutoff a sample enforces does not reach into the span. *)
Definition spares (h : MemHistory) (id : string) (lo : Z) (s : sample) : Prop :=
  skey s = id → UnixNano (Add (sat s) (- retention h)) <= lo.

Lemma evict_room h order : Z.of_nat (size (hkeys h)) < maxKeys h → evictLocked h order = h.
Proof. intros H. unfold evictLocked. by rewrite (proj2 (Z.ltb_lt _ _)). Qed.

Lemma held_sample h k n t lo hi :
  UnixNano (Add t (- retention h)) <= lo →
  i64 (window_total lo hi (hbuckets (add_sample h k n t)))
  = if (lo <=? bucketOf h t) && (bucketOf h t <? hi) then i64 (window_total lo hi (hbuckets k) + n)
    else i64 (window_total lo hi (hbuckets k)).
Proof. intros H. unfold add_sample. simpl. rewrite window_filter by done. apply window_add. Qed.

Lemma add_spec h s id lo hi :
  id ≠ ""%string → Z.of_nat (size (hkeys h)) < maxKeys h → spares h id lo s →
  let h' := hist_Add h (skey s) (stokens s) (sat s) (sorder s) in
  same_params h h' ∧ (size (hkeys h') <= S (size (hkeys h)))%nat
  ∧ i64 (held h' id lo hi) = i64 (held h id lo hi + (if counted h id lo hi s then stokens s else 0)).
Proof.
  intros Hid Hroom Hsp. unfold hist_Add. unfold counted.
  destruct (Z.leb_spec (stokens s) 0) as [Hn|Hn].
  { rewrite orb_true_r. rewrite (proj2 (Z.ltb_ge 0 (stokens s))), andb_false_r by lia. simpl.
    rewrite Z.add_0_r. by split_and!; [|lia|]. }
  rewrite orb_false_r, (proj2 (Z.ltb_lt 0 (stokens s))), andb_true_r by lia.
  destruct (String.eqb_spec (skey s) "") as [E|E].
  { destruct (String.eqb_spec (skey s) id); [congruence|]. simpl. rewrite Z.add_0_r. by split_and!; [|lia|]. }
  rewrite (evict_room h) by done.
  assert (∀ k, same_params h (set_keys h (<[skey s := k]> (hkeys h)))
    ∧ (size (hkeys (set_keys h (<[skey s := k]> (hkeys h)))) <= S (size (hkeys h)))%nat) as Hput.
  { intros k. split; [done|]. simpl. rewrite map_size_insert. case_match; unfold Datatypes.id; lia. }
  assert (∀ k, held (set_keys h (<[skey s := k]> (hkeys h))) id lo hi
    = if String.eqb (skey s) id then window_total lo hi (hbuckets k) else held h id lo hi) as Hheld.
  { intros k. unfold held. simpl. destruct (String.eqb_spec (skey s) id) as [->|Hne]; [by rewrite lookup_insert_eq|].
    by rewrite lookup_insert_ne. }
  unfold spares in Hsp. destruct (hkeys h !! skey s) as [k|] eqn:Ek; cbv zeta;
    (split; [apply Hput|]; split; [apply Hput|]); rewrite Hheld;
    (destruct (String.eqb_spec (skey s) id) as [Es|Es]; [|by rewrite Z.add_0_r]); cbn [andb];
    rewrite held_sample by auto; unfold held; rewrite <- Es, Ek; cbn [hbuckets];
    destruct ((lo <=? bucketOf h (sat s)) && (bucketOf h (sat s) <? hi)); rewrite ?Z.add_0_r; done.
Qed.

Lemma counted_params h h' id lo hi s : same_params h h' → counted h' id lo hi s = counted h id lo hi s.
Proof. intros (E & _ & _). unfold counted, bucketOf. by rewrite E. Qed.

Lemma adds_spec ss : ∀ h id lo hi,
  id ≠ ""%string → Z.of_nat (size (hkeys h) + length ss) <= maxKeys h → Forall (spares h id lo) ss →
  i64 (held (adds h ss) id lo hi) = i64 (held h id lo hi + sampled h id lo hi ss).
Proof.
  induction ss as [|s ss IH]; intros h id lo hi Hid Hroom Hsp; [simpl; by rewrite Z.add_0_r|].
  apply Forall_cons in Hsp as [Hs Hsp]. cbn [length] in Hroom.
  destruct (add_spec h s id lo hi Hid ltac:(lia) Hs) as (Hp & Hsz & E).
  change (adds h (s :: ss)) with (adds (hist_Add h (skey s) (stokens s) (sat s) (sorder s)) ss).
  set (h' := hist_Add _ _ _ _ _) in *. pose proof Hp as (P1 & P2 & P3).
  rewrite (IH h' id lo hi Hid); [|lia|].
  - assert (sampled h' id lo hi ss = sampled h id lo hi ss) as ->.
    { clear -Hp. induction ss as [|x ss IHs]; simpl; [done|]. by rewrite IHs, (counted_params h h'). }
    cbn [sampled]. rewrite <- (i64_add_l (held h' id lo hi)), E, i64_add_l. f_equal. lia.
  - eapply Forall_impl; [exact Hsp|]. intros x Hx. unfold spares in *. by rewrite P2.
Qed.

(** The history is exact where it is read: as long as the table has room, the
    tokens reported for a key and a span of time are, modulo 2^64, the sum of the
    recorded samples of that key whose bucket starts in the span, whatever other keys
    were recorded in between and whatever aged out, provided the span does not reach
    back beyond the retention of the samples. *)
Theorem window_exact bucket ret mk ss id from to :
  let h := NewMemHistory bucket ret mk in
  id ≠ ""%string → Z.of_nat (length ss) <= maxKeys h → Forall (spares h id (UnixNano from)) ss →
  i64 (mem_Window (adds h ss) id from to) = i64 (sampled h id (UnixNano from) (UnixNano to) ss).
Proof.
  intros h Hid Hroom Hsp.
  exact (adds_spec ss h id (UnixNano from) (UnixNano to) Hid Hroom Hsp).
Qed.

Definition demo_samples : list sample :=
  [mkSample "a" 0 10 []; mkSample "b" Minute 7 []; mkSample "a" (6 * Minute) 5 []].

Lemma window_exact_witness :
  i64 (mem_Window (adds (NewMemHistory 0 0 0) demo_samples) "a" 0 (5 * Minute)) = 10.
Proof.
  rewrite (window_exact 0 0 0 demo_samples "a" 0 (5 * Minute)); [by vm_compute|done|by vm_compute|].
  repeat constructor; by vm_compute.
Defined.
