(* ===== verification/Guard.v ===== *)
(** * The token guard ([internal/keyguard/guard.go])

    A key whose usage departs from its own past is pended or revoked. The history
    and the enforcer are interfaces; a notification is the event it is rendered
    from, and the guard's outbox lists the notifications sent. Rates are binary64.
    [Evaluate] is modelled with its two critical sections as one step; the guard is
    not nil, and the clock is an argument. *)
From stdpp Require Import base gmap list strings.
From Stdlib Require Import ZArith Lia.
From S2P Require Import Prelude GoTime F64 History.
Import Time.
Open Scope Z_scope.

Inductive Action : Type := ActionAlertOnly | ActionPend | ActionThrottle | ActionRevoke.

#[export] Instance Action_eq_dec : EqDecision Action.
Proof. solve_decision. Defined.

Definition Condition : Type := Z.
Definition CondRelative : Condition := 1.
Definition CondAbsolute : Condition := 2.

Record Config : Type := mkConfig {
  Enabled : bool; BaselineWindow : Z; CWindow : Z; Factor : F64.t; MinAbsolute : Z;
  MinHistory : Z; CAction : Action; CCooldown : Z }.

Definition DefaultBaselineWindow : Z := 7 * 24 * Hour.
Definition DefaultWindow : Z := Hour.
Definition DefaultFactor : F64.t := F64.of_Z 10.
Definition DefaultMinAbsolute : Z := 100000.
Definition DefaultMinHistory : Z := 24 * Hour.
Definition DefaultCooldown : Z := Hour.

Definition fill (c : Config) : Config :=
  mkConfig (Enabled c)
    (if BaselineWindow c <=? 0 then DefaultBaselineWindow else BaselineWindow c)
    (if CWindow c <=? 0 then DefaultWindow else CWindow c)
    (if F64.le (Factor c) F64.zero then DefaultFactor else Factor c)
    (if MinAbsolute c <=? 0 then DefaultMinAbsolute else MinAbsolute c)
    (if MinHistory c <=? 0 then DefaultMinHistory else MinHistory c)
    (CAction c)
    (if CCooldown c <=? 0 then DefaultCooldown else CCooldown c).

Inductive guard_error : Type :=
| ErrThrottleUnimplemented | ErrNegativeFactor | ErrNegativeAbsolute | ErrShortBaseline
| ErrNoHistory | ErrNoEnforcer | ErrHistory (msg : string) | ErrPend (msg : string) | ErrRevoke (msg : string)
| ErrRelease (msg : string).

Definition Validate (c : Config) : option guard_error :=
  if bool_decide (CAction c = ActionThrottle) then Some ErrThrottleUnimplemented
  else if F64.lt (Factor c) F64.zero then Some ErrNegativeFactor
  else if MinAbsolute c <? 0 then Some ErrNegativeAbsolute
  else if (0 <? BaselineWindow c) && (0 <? CWindow c) && (BaselineWindow c <? CWindow c) then Some ErrShortBaseline
  else None.

Record Finding : Type := mkFinding {
  FKeyID : string; Observed : Z; Baseline : F64.t; Ratio : F64.t; FCondition : Condition;
  FHistory : Z; NewKey : bool; FAction : Action; Cooled : bool; At : Z }.

Definition Tripped (f : Finding) : bool :=
  negb (Z.land (FCondition f) CondRelative =? 0) && negb (Z.land (FCondition f) CondAbsolute =? 0).
Definition Acted (f : Finding) : bool :=
  bool_decide (FAction f = ActionPend) || bool_decide (FAction f = ActionRevoke).

Definition zeroFinding : Finding := mkFinding "" 0 F64.zero F64.zero 0 0 false ActionAlertOnly false zeroTime.

(** [Enforcer]; the reason of a pend is the finding it is rendered from. *)
Class Enforcer (E : Type) : Type := {
  Pend : E → string → Finding → E * option string;
  EnfRelease : E → string → E * option string;
  Revoke : E → string → E * option string }.

Inductive notification : Type := Announced (f : Finding) | Released (keyID by_ : string) (at_ : Z).

Record Guard : Type := mkGuard {
  gcfg : Config; lastAct : gmap string Z; findings : Z; acted : Z; alerted : Z; outbox : list notification }.

(** [hasHistory] and [hasEnforcer]: the arguments are not nil. *)
Definition New (c : Config) (hasHistory hasEnforcer : bool) : result guard_error (option Guard) :=
  if negb (Enabled c) then Ok None
  else match Validate c with
       | Some e => Err e
       | None =>
           if negb hasHistory then Err ErrNoHistory
           else if negb hasEnforcer then Err ErrNoEnforcer
           else Ok (Some (mkGuard (fill c) ∅ 0 0 0 []))
       end.

Definition ratio (observed baseline : F64.t) : F64.t :=
  if F64.le baseline F64.zero then
    if F64.le observed F64.zero then F64.zero else F64.infinity
  else F64.div observed baseline.

Section Guard.
Context {H E : Type} {HH : History H} {EE : Enforcer E}.

(** The statistical part of [Evaluate]: the figures and the conditions. *)
Definition examine (g : Guard) (h : H) (keyID : string) (now : Z) : result guard_error Finding :=
  let c := gcfg g in
  let windowStart := Add now (- CWindow c) in
  match hist_Window h keyID windowStart now with
  | Err e => Err (ErrHistory e)
  | Ok observed =>
      let baseStart := Add now (- BaselineWindow c) in
      match hist_Window h keyID baseStart windowStart with
      | Err e => Err (ErrHistory e)
      | Ok baseTotal =>
          match hist_Since h keyID with
          | Err e => Err (ErrHistory e)
          | Ok since =>
              let history := if IsZero since then 0 else Sub now since in
              let span := if negb (IsZero since) && After since baseStart
                          then Sub windowStart since else Sub windowStart baseStart in
              let baseline := if 0 <? span
                              then F64.div (F64.of_Z baseTotal) (F64.div (F64.of_Z span) (F64.of_Z (CWindow c)))
                              else F64.zero in
              let relative := F64.gt baseline F64.zero
                              && F64.ge (F64.of_Z observed) (F64.mul baseline (Factor c))
                              || F64.le baseline F64.zero && (0 <? observed) in
              let cond := Z.lor (if relative then CondRelative else 0)
                                (if MinAbsolute c <=? observed then CondAbsolute else 0) in
              Ok (mkFinding keyID observed baseline (ratio (F64.of_Z observed) baseline) cond
                    history (history <? MinHistory c) ActionAlertOnly false now)
          end
      end
  end.

Definition with_action (f : Finding) (a : Action) (cooled : bool) : Finding :=
  mkFinding (FKeyID f) (Observed f) (Baseline f) (Ratio f) (FCondition f) (FHistory f) (NewKey f) a cooled (At f).

Definition Evaluate (g : Guard) (h : H) (e : E) (keyID : string) (now : Z)
  : Guard * E * (Finding * option guard_error) :=
  match examine g h keyID now with
  | Err err => (g, e, (zeroFinding, Some err))
  | Ok f =>
      let cooled := match lastAct g !! keyID with
                    | Some last => Sub now last <? CCooldown (gcfg g)
                    | None => false
                    end in
      let g := mkGuard (gcfg g) (lastAct g) (findings g + 1) (acted g) (alerted g) (outbox g) in
      if negb (Tripped f) then (g, e, (f, None))
      else if cooled then (g, e, (with_action f ActionAlertOnly true, None))
      else
        let action := if NewKey f then ActionAlertOnly else CAction (gcfg g) in
        let f := with_action f action false in
        let '(e, err) := match action with
                         | ActionPend => let '(e, r) := Pend e keyID f in (e, option_map ErrPend r)
                         | ActionRevoke => let '(e, r) := Revoke e keyID in (e, option_map ErrRevoke r)
                         | _ => (e, None)
                         end in
        match err with
        | Some err => (g, e, (f, Some err))
        | None =>
            (mkGuard (gcfg g) (<[keyID := now]> (lastAct g)) (findings g)
               (if Acted f then acted g + 1 else acted g) (if Acted f then alerted g else alerted g + 1)
               (outbox g ++ [Announced f]),
             e, (f, None))
        end
  end.

(** The keys in the order given; [now id] is the clock reading [id] is evaluated at. *)
Fixpoint sweep_loop (g : Guard) (h : H) (e : E) (ids : list string) (now : string → Z) (out : list Finding) (errs : list guard_error)
  : Guard * E * (list Finding * list guard_error) :=
  match ids with
  | [] => (g, e, (out, errs))
  | id :: ids' =>
      let '(g, e, (f, err)) := Evaluate g h e id (now id) in
      match err with
      | Some err => sweep_loop g h e ids' now out (errs ++ [err])
      | None => sweep_loop g h e ids' now (if Tripped f then out ++ [f] else out) errs
      end
  end.

(** [sorted] is [sort.Strings] of the keys the history lists. *)
Definition Sweep (sorted : list string → list string) (g : Guard) (h : H) (e : E) (now : string → Z)
  : Guard * E * (list Finding * list guard_error) :=
  match hist_Keys h with
  | Err err => (g, e, ([], [ErrHistory err]))
  | Ok keys => sweep_loop g h e (sorted keys) now [] []
  end.

Definition Release (g : Guard) (e : E) (keyID by_ : string) (now : Z) : Guard * E * option guard_error :=
  let '(e, err) := EnfRelease e keyID in
  match err with
  | Some err => (g, e, Some (ErrRelease err))
  | None => (mkGuard (gcfg g) (delete keyID (lastAct g)) (findings g) (acted g) (alerted g)
               (outbox g ++ [Released keyID by_ now]), e, None)
  end.
End Guard.

Record Stats : Type := mkStats { Evaluations : Z; SActed : Z; SAlerted : Z }.
Definition Guard_Stats (g : Guard) : Stats := mkStats (findings g) (acted g) (alerted g).

(** The metering path's entry point: a zero instant means now. *)
Definition Observe (h : MemHistory) (keyID : string) (tokens at_ now : Z) (order : list string) : MemHistory :=
  hist_Add h keyID tokens (if IsZero at_ then now else at_) order.

(** ** When the guard acts *)

Lemma tripped_bits f a b :
  FCondition f = Z.lor (if a : bool then CondRelative else 0) (if b : bool then CondAbsolute else 0) →
  Tripped f = a && b.
Proof. unfold Tripped. intros ->. by destruct a, b. Qed.

Section Acts.
Context {H E : Type} {HH : History H} {EE : Enforcer E}.

(** What an examined key that trips has used, and for how long it is known. *)
Lemma examine_tripped g (h : H) id now f :
  examine g h id now = Ok f → Tripped f = true →
  ∃ observed since, hist_Window h id (now - CWindow (gcfg g)) now = Ok observed ∧ hist_Since h id = Ok since
  ∧ MinAbsolute (gcfg g) <= observed ∧ Observed f = observed
  ∧ NewKey f = ((if IsZero since then 0 else Sub now since) <? MinHistory (gcfg g)).
Proof.
  unfold examine, Add. change (now + - CWindow (gcfg g)) with (now - CWindow (gcfg g)).
  destruct (hist_Window h id (now - CWindow (gcfg g)) now) as [obs|]; [|done].
  destruct (hist_Window h id (now + - BaselineWindow (gcfg g)) (now - CWindow (gcfg g))) as [base|]; [|done].
  destruct (hist_Since h id) as [since|]; [|done]. intros E0 Ht. injection E0 as E0.
  erewrite tripped_bits in Ht by (rewrite <- E0; reflexivity). apply andb_true_iff in Ht as [_ Ht].
  exists obs, since. split_and!; try done; [by apply Z.leb_le|by rewrite <- E0|by rewrite <- E0].
Qed.

End Acts.

(** A key with a day and a half of history, two samples an hour before the spike. *)
Definition note_enforcer : Type := list (string * Finding).
#[export] Instance note_Enforcer : Enforcer note_enforcer := {
  Pend e id f := (e ++ [(id, f)], None); EnfRelease e id := (e, None); Revoke e id := (e, None) }.

Definition demo_config : Config := mkConfig true 0 0 F64.zero 0 0 ActionPend 0.
Definition demo_guard : Guard := mkGuard (fill demo_config) ∅ 0 0 0 [].
Definition demo_history : MemHistory :=
  adds (NewMemHistory 0 0 0)
    [mkSample "k" Second 1000 []; mkSample "k" (36 * Hour) 200000 []].

Definition demo_eval : Guard * note_enforcer * (Finding * option guard_error) :=
  Evaluate demo_guard demo_history ([] : note_enforcer) "k" (36 * Hour + Minute).

Lemma demo_acted : Acted demo_eval.2.1 = true.
Proof. vm_compute. reflexivity. Qed.

