(* ===== verification/PolicyLex.v ===== *)
(** * The policy language's lexer ([internal/luaext/lex.go])

    One statement per line, so a newline is a token. The lexer state is the
    bytes not yet read and the line counter ([l.src[l.pos:]] and [l.line]); an
    error keeps the line it was raised at and what was wrong. *)
From Stdlib Require Import String.
From stdpp Require Import base list.
From Stdlib Require Import ZArith Lia.
From S2P Require Import Prelude.
Open Scope Z_scope.

(** A Go string literal, as the bytes it denotes. *)
Notation bs s := (bytes_of_string s%string) (only parsing).

Inductive tokKind : Type :=
| tokEOF | tokNewline | tokIdent | tokNumber | tokString | tokLParen | tokRParen
| tokLBracket | tokRBracket | tokComma | tokAssign
| tokEq | tokNe | tokLt | tokLe | tokGt | tokGe.

#[export] Instance tokKind_eq_dec : EqDecision tokKind.
Proof. solve_decision. Defined.

Record token : Type := mkToken { kind_of : tokKind; text : bytes; num : Z; line : Z }.

Definition maxSourceBytes : Z := 256 * 1024.

(** What the lexer refuses, with the offending text. *)
Inductive lexError : Type :=
| NotAnInteger (t : bytes)
| UnexpectedByte (c : Z)
| UnterminatedString
| UnterminatedEscape
| UnknownEscape (c : Z).

Record lexer : Type := mkLexer { rest : bytes; lline : Z }.

Definition newLexer (src : bytes) : lexer := mkLexer src 1.

Definition isIdentStart (c : Z) : bool :=
  (c =? 95) || ((97 <=? c) && (c <=? 122)) || ((65 <=? c) && (c <=? 90)).

Definition isIdentPart (c : Z) : bool := isIdentStart c || is_digit c.

(** [for l.pos < len(l.src) && p(l.src[l.pos]) { l.pos++ }]: the bytes passed
    and the bytes left. *)
Fixpoint span_while (p : Z -> bool) (s : bytes) : bytes * bytes :=
  match s with
  | c :: s' => if p c then let '(a, b) := span_while p s' in (c :: a, b) else ([], s)
  | [] => ([], [])
  end.

Definition skipLine (s : bytes) : bytes := snd (span_while (fun c => negb (c =? 10)) s).

(** [strconv.ParseInt(text, 10, 64)] on the texts the lexer passes it: an
    optional minus sign and digits. *)
Definition digits_value (s : bytes) : Z := fold_left (fun a c => 10 * a + (c - 48)) s 0.

Definition ParseInt (s : bytes) : option Z :=
  let '(neg, ds) := match s with 45 :: r => (true, r) | _ => (false, s) end in
  match ds with
  | [] => None
  | _ =>
      let n := digits_value ds in
      if neg then if n <=? two63 then Some (- n) else None
      else if n <? two63 then Some n else None
  end.

(** The body of a string literal, after the opening quote: the text so far is
    accumulated the way [strings.Builder] does. *)
Fixpoint lexString (s : bytes) (sb : bytes) : result lexError (bytes * bytes) :=
  match s with
  | [] => Err UnterminatedString
  | c :: s' =>
      if c =? 34 then Ok (sb, s')
      else if c =? 10 then Err UnterminatedString
      else if c =? 92 then
        match s' with
        | [] => Err UnterminatedEscape
        | e :: s'' =>
            if e =? 110 then lexString s'' (sb ++ [10])
            else if e =? 116 then lexString s'' (sb ++ [9])
            else if e =? 92 then lexString s'' (sb ++ [92])
            else if e =? 34 then lexString s'' (sb ++ [34])
            else Err (UnknownEscape e)
        end
      else lexString s' (sb ++ [c])
  end.

(** Blanks and comments in front of a token. A newline stops it: it is a token
    of its own. Each round removes at least one byte. *)
Fixpoint skip_blank (fuel : nat) (s : bytes) : bytes :=
  match fuel, s with
  | S f, c :: s' =>
      if (c =? 32) || (c =? 9) || (c =? 13) then skip_blank f s'
      else if c =? 10 then s
      else if c =? 35 then skip_blank f (skipLine s)
      else if c =? 45 then
        match s' with
        | d :: _ => if d =? 45 then skip_blank f (skipLine s) else s
        | [] => s
        end
      else s
  | _, _ => s
  end.

Definition lex_error : Type := Z * lexError.

(** Two-byte operators: [c] alone or followed by ['=']. *)
Definition follow_eq (s : bytes) : option bytes :=
  match s with d :: s' => if d =? 61 then Some s' else None | [] => None end.

(** [next]: one token, the lexer after it, or the refusal. *)
Definition next (l : lexer) : result lex_error (token * lexer) :=
  let s := skip_blank (length (rest l)) (rest l) in
  let ln := lline l in
  let simple k r := Ok (mkToken k [] 0 ln, mkLexer r ln) in
  match s with
  | [] => Ok (mkToken tokEOF [] 0 ln, mkLexer [] ln)
  | c :: r =>
      if c =? 10 then Ok (mkToken tokNewline [] 0 ln, mkLexer r (ln + 1))
      else if isIdentStart c then
        let '(a, r') := span_while isIdentPart s in
        Ok (mkToken tokIdent a 0 ln, mkLexer r' ln)
      else if is_digit c || (c =? 45) then
        let '(a, r') := span_while is_digit r in
        match ParseInt (c :: a) with
        | Some n => Ok (mkToken tokNumber (c :: a) n ln, mkLexer r' ln)
        | None => Err (ln, NotAnInteger (c :: a))
        end
      else if c =? 34 then
        match lexString r [] with
        | Ok (t, r') => Ok (mkToken tokString t 0 ln, mkLexer r' ln)
        | Err e => Err (ln, e)
        end
      else if c =? 40 then simple tokLParen r
      else if c =? 41 then simple tokRParen r
      else if c =? 91 then simple tokLBracket r
      else if c =? 93 then simple tokRBracket r
      else if c =? 44 then simple tokComma r
      else if c =? 61 then
        match follow_eq r with Some r' => simple tokEq r' | None => simple tokAssign r end
      else if c =? 33 then
        match follow_eq r with Some r' => simple tokNe r' | None => Err (ln, UnexpectedByte c) end
      else if c =? 126 then
        match follow_eq r with Some r' => simple tokNe r' | None => Err (ln, UnexpectedByte c) end
      else if c =? 60 then
        match follow_eq r with Some r' => simple tokLe r' | None => simple tokLt r end
      else if c =? 62 then
        match follow_eq r with Some r' => simple tokGe r' | None => simple tokGt r end
      else Err (ln, UnexpectedByte c)
  end.

(** [lex]: the whole source. Every token but the last consumes a byte, so one
    round more than the bytes is enough (see [lex_total]). *)
Fixpoint lex_loop (fuel : nat) (l : lexer) : option (result lex_error (list token)) :=
  match fuel with
  | O => None
  | S f =>
      match next l with
      | Err e => Some (Err e)
      | Ok (t, l') =>
          if decide (kind_of t = tokEOF) then Some (Ok [t])
          else match lex_loop f l' with
               | Some (Ok ts) => Some (Ok (t :: ts))
               | r => r
               end
      end
  end.

Definition lex (src : bytes) : option (result lex_error (list token)) :=
  lex_loop (S (length src)) (newLexer src).

(** ** The token stream *)

Lemma span_while_app p s : fst (span_while p s) ++ snd (span_while p s) = s.
Proof.
  induction s as [|c s IH]; [done|]. cbn. destruct (p c); [|done].
  destruct (span_while p s) as [a b]. cbn in *. by rewrite IH.
Qed.

Lemma span_while_length p s a b : span_while p s = (a, b) -> (length b <= length s)%nat.
Proof.
  intros E. pose proof (span_while_app p s) as A. rewrite E in A. cbn in A.
  rewrite <- A, length_app. lia.
Qed.

Lemma skipLine_length s : (length (skipLine s) <= length s)%nat.
Proof.
  unfold skipLine. destruct (span_while _ s) as [a b] eqn:E. eapply span_while_length, E.
Qed.

Lemma skip_blank_length f s : (length (skip_blank f s) <= length s)%nat.
Proof.
  revert s. induction f as [|f IH]; intros [|c s]; cbn; try lia.
  pose proof (skipLine_length (c :: s)) as L. cbn in L.
  pose proof (IH s). pose proof (IH (skipLine (c :: s))).
  destruct s; repeat case_goal; cbn -[skipLine] in *; lia.
Qed.

Lemma lexString_length s sb t r : lexString s sb = Ok (t, r) -> (length r < length s)%nat.
Proof.
  revert sb. induction s as [s IH] using (induction_ltof1 _ (@length Z)); unfold ltof in IH.
  intros sb. destruct s as [|c s]; [done|]. cbn [lexString].
  repeat case_goal; intros H; try discriminate; try (inversion H; subst; cbn; lia);
    apply IH in H; cbn in *; lia.
Qed.

Lemma follow_eq_length s r : follow_eq s = Some r -> (length r < length s)%nat.
Proof. destruct s as [|d s]; [done|]. cbn. case_goal; [|done]. intros [= <-]. lia. Qed.

(** A token other than the end of file consumes at least one byte. *)
Lemma next_consumes l t l' : next l = Ok (t, l') ->
  kind_of t = tokEOF \/ (length (rest l') < length (rest l))%nat.
Proof.
  unfold next. pose proof (skip_blank_length (length (rest l)) (rest l)) as L.
  destruct (skip_blank _ _) as [|c r]; intros H.
  { inversion H. by left. }
  right. cbn in L.
  repeat (case_hyp H; try discriminate); inversion H; subst; cbn;
    repeat match goal with
    | E : follow_eq _ = Some _ |- _ => apply follow_eq_length in E
    | E : lexString _ _ = Ok _ |- _ => apply lexString_length in E
    | E : span_while _ (_ :: _) = _ |- _ => cbn [span_while] in E
    | E : span_while _ r = _ |- _ => apply span_while_length in E
    end; try lia.
  unfold isIdentPart in *. destruct (isIdentStart c); [|discriminate]. cbn [orb] in *.
  destruct (span_while _ r) as [a' b'] eqn:E. match goal with E : (_, _) = (_, _) |- _ => inversion E; subst end.
  apply span_while_length in E. lia.
Qed.

(** The lexer always terminates: the loop of [lex] never needs more rounds
    than the source has bytes, plus the one that meets its end. *)
Lemma lex_total src : exists r, lex src = Some r.
Proof.
  unfold lex, newLexer. enough (forall f l, (length (rest l) < f)%nat -> exists r, lex_loop f l = Some r) as A
    by (apply A; cbn; lia).
  induction f as [|f IH]; intros l Hl; [lia|]. cbn [lex_loop].
  destruct (next l) as [[t l']|e] eqn:E; [|by eexists].
  destruct (decide (kind_of t = tokEOF)); [by eexists|].
  destruct (next_consumes _ _ _ E); [done|].
  destruct (IH l') as [r ->]; [lia|]. destruct r; by eexists.
Qed.

(** A token list that lexing can produce: it ends with its only end of file. *)
Definition eof_ended (ts : list token) : Prop :=
  exists us t, ts = us ++ [t] /\ kind_of t = tokEOF /\ Forall (fun u => kind_of u <> tokEOF) us.

Lemma lex_loop_shape f l ts : lex_loop f l = Some (Ok ts) ->
  eof_ended ts /\ (length ts <= S (length (rest l)))%nat.
Proof.
  revert l ts. induction f as [|f IH]; intros l ts H; [done|]. cbn [lex_loop] in H.
  destruct (next l) as [[t l']|e] eqn:E; [|done].
  destruct (decide (kind_of t = tokEOF)) as [K|K].
  - injection H as <-. split; [|cbn; lia]. exists [], t. by rewrite Forall_nil.
  - destruct (lex_loop f l') as [[ts'|]|] eqn:E2; try done. injection H as <-.
    destruct (IH _ _ E2) as [(us & u & -> & Hu & Hus) L].
    destruct (next_consumes _ _ _ E) as [|C]; [done|].
    split; [|cbn; lia]. exists (t :: us), u. by rewrite Forall_cons.
Qed.

Lemma lex_shape src ts : lex src = Some (Ok ts) ->
  eof_ended ts /\ (length ts <= S (length src))%nat.
Proof. apply lex_loop_shape. Qed.
