(* ===== verification/PolicyVM.v ===== *)
(** * The policy evaluator ([internal/luaext/value.go], [vm.go], [view.go],
    [hook.go])

    A stack machine over values with a static kind, charged against a shared
    budget of instructions and live bytes. The budget is a pointer in the code
    and the state of a small monad here; a Go run-time panic (an index out of
    range) is an outcome of its own, so that its absence is a theorem. *)
From Stdlib Require Import String.
From stdpp Require Import base gmap list.
From Stdlib Require Import ZArith Lia.
From S2P Require Import Prelude PolicyLex.
Open Scope Z_scope.

(** ** Values *)

Inductive kind : Type := kindNone | kindString | kindNumber | kindBool | kindList.

#[export] Instance kind_eq_dec : EqDecision kind.
Proof. solve_decision. Defined.

(** [value]. A nil [list] is the empty one: the only lists built are the
    accumulated elements of a list literal. *)
Record value : Type := mkValue { vk : kind; vnum : Z; vb : bool; vstr : bytes; vlist : list bytes }.

#[export] Instance value_eq_dec : EqDecision value.
Proof. solve_decision. Defined.

Definition zeroValue : value := mkValue kindNone 0 false [] [].
Definition strValue (s : bytes) : value := mkValue kindString 0 false s [].
Definition numValue (n : Z) : value := mkValue kindNumber n false [] [].
Definition boolValue (b : bool) : value := mkValue kindBool 0 b [] [].
Definition listValue (l : list bytes) : value := mkValue kindList 0 false [] l.

(** [strconv.FormatInt(n, 10)]. *)
Fixpoint format_digits (fuel : nat) (n : Z) : bytes :=
  match fuel with
  | O => []
  | S f => if n <? 10 then [48 + n] else format_digits f (n / 10) ++ [48 + n mod 10]
  end.
Definition FormatInt (n : Z) : bytes :=
  if n <? 0 then 45 :: format_digits 20 (- n) else format_digits 20 n.

Definition value_String (v : value) : bytes :=
  match vk v with
  | kindString => vstr v
  | kindNumber => FormatInt (vnum v)
  | kindBool => if vb v then bs "true" else bs "false"
  | _ => []
  end.

Definition valueOverhead : Z := 64.

Definition value_bytes (v : value) : Z :=
  fold_left (fun n s => n + (Z.of_nat (length s) + 16)) (vlist v)
    (valueOverhead + Z.of_nat (length (vstr v))).

(** ** The budget, and the monad it is threaded through *)

Inductive limitError : Type := ErrInstructionLimit | ErrMemoryLimit.

Record Limits : Type := mkLimits { Instructions : Z; MemoryBytes : Z; Timeout : Z }.

Definition setDefaults (l : Limits) : Limits :=
  mkLimits
    (if Instructions l =? 0 then 5000000 else Instructions l)
    (if MemoryBytes l =? 0 then 32 * 2 ^ 20 else MemoryBytes l)
    (if Timeout l =? 0 then 200 * 1000000 else Timeout l).

Record budget : Type := mkBudget {
  instrLeft : Z; memMax : Z; memLive : Z; memPeak : Z; noInstr : bool; noMem : bool }.

Definition newBudget (l : Limits) : budget :=
  mkBudget (Instructions l) (MemoryBytes l) 0 0 (Instructions l <=? 0) (MemoryBytes l <=? 0).

(** How a call ends: it returns, it fails with an error value, it panics, or
    (in the model only) it has not ended within the fuel. *)
Inductive outcome (A : Type) : Type :=
| Ret (a : A)
| Fail (e : limitError)
| Panic
| OutOfFuel.
Arguments Ret {A} a.
Arguments Fail {A} e.
Arguments Panic {A}.
Arguments OutOfFuel {A}.

Definition M (A : Type) : Type := budget -> budget * outcome A.

Definition ret {A} (a : A) : M A := fun b => (b, Ret a).
Definition panic {A} : M A := fun b => (b, Panic).
Definition fail {A} (e : limitError) : M A := fun b => (b, Fail e).
Definition bind {A B} (m : M A) (k : A -> M B) : M B := fun b =>
  match m b with
  | (b', Ret a) => k a b'
  | (b', Fail e) => (b', Fail e)
  | (b', Panic) => (b', Panic)
  | (b', OutOfFuel) => (b', OutOfFuel)
  end.

Declare Scope policy_scope.
Delimit Scope policy_scope with policy.
Notation "x ←ₘ m ;; k" := (bind m (fun x => k))
  (at level 100, m at level 90, k at level 200, right associativity) : policy_scope.
Notation "m ;;; k" := (bind m (fun _ => k))
  (at level 100, k at level 200, right associativity) : policy_scope.
Open Scope policy_scope.

Definition step (n : Z) : M unit := fun b =>
  if noInstr b then (b, Ret tt)
  else
    let left := i64 (instrLeft b - n) in
    let b' := mkBudget left (memMax b) (memLive b) (memPeak b) (noInstr b) (noMem b) in
    if left <? 0 then (b', Fail ErrInstructionLimit) else (b', Ret tt).

Definition charge (n : Z) : M unit := fun b =>
  let live := i64 (memLive b + n) in
  let peak := if memPeak b <? live then live else memPeak b in
  let b' := mkBudget (instrLeft b) (memMax b) live peak (noInstr b) (noMem b) in
  if negb (noMem b) && (memMax b <? live) then (b', Fail ErrMemoryLimit) else (b', Ret tt).

Definition refund (n : Z) : M unit := fun b =>
  (mkBudget (instrLeft b) (memMax b) (i64 (memLive b - n)) (memPeak b) (noInstr b) (noMem b), Ret tt).

(** ** The operand stack *)

Definition maxStack : nat := 16.

(** [machine]: the live part of the array, its top first; [sp] is the length. *)
Definition machine : Type := list value.

Definition push (m : machine) (v : value) : M machine :=
  if decide (maxStack <= length m)%nat then fail ErrMemoryLimit
  else charge (value_bytes v) ;;; ret (v :: m).

Definition pop (m : machine) : M (value * machine) :=
  match m with
  | [] => panic
  | v :: m' => refund (value_bytes v) ;;; ret (v, m')
  end.

Definition top (m : machine) : M value :=
  match m with [] => panic | v :: _ => ret v end.

(** ** Code *)

Inductive opcode : Type :=
| opConst | opField | opEq | opNe | opLt | opLe | opGt | opGe
| opContains | opStartsWith | opEndsWith | opIn | opNot
| opJumpIfFalse | opJumpIfTrue | opPop.

#[export] Instance opcode_eq_dec : EqDecision opcode.
Proof. solve_decision. Defined.

Record instr : Type := mkInstr { op : opcode; arg : Z }.

Definition same (l r : value) : bool :=
  match vk l with
  | kindString => beqb (vstr l) (vstr r)
  | kindNumber => vnum l =? vnum r
  | kindBool => Bool.eqb (vb l) (vb r)
  | _ => false
  end.

(** [strings.Compare]: lexicographic on bytes. *)
Fixpoint Compare (a b : bytes) : Z :=
  match a, b with
  | [], [] => 0
  | [], _ => -1
  | _, [] => 1
  | x :: a', y :: b' => if x <? y then -1 else if y <? x then 1 else Compare a' b'
  end.

Definition order (o : opcode) (l r : value) : bool :=
  let c :=
    match vk l with
    | kindString => Compare (vstr l) (vstr r)
    | _ => if vnum l <? vnum r then -1 else if vnum r <? vnum l then 1 else 0
    end in
  match o with
  | opLt => c <? 0
  | opLe => c <=? 0
  | opGt => 0 <? c
  | opGe => 0 <=? c
  | _ => false
  end.

(** [strings.HasPrefix], [strings.HasSuffix] and [strings.Contains]. *)
Definition HasPrefix (s p : bytes) : bool :=
  match strip_prefix p s with Some _ => true | None => false end.
Definition HasSuffix (s p : bytes) : bool := HasPrefix (rev s) (rev p).
Fixpoint Contains (s p : bytes) : bool :=
  HasPrefix s p || match s with [] => false | _ :: s' => Contains s' p end.

Definition binary (o : opcode) (l r : value) : M bool :=
  match o with
  | opEq => ret (same l r)
  | opNe => ret (negb (same l r))
  | opLt | opLe | opGt | opGe => ret (order o l r)
  | opContains => ret (Contains (vstr l) (vstr r))
  | opStartsWith => ret (HasPrefix (vstr l) (vstr r))
  | opEndsWith => ret (HasSuffix (vstr l) (vstr r))
  | opIn =>
      step (Z.of_nat (length (vlist r))) ;;;
      ret (existsb (fun s => beqb s (vstr l)) (vlist r))
  | _ => ret false
  end.

(** Indexing a slice: out of range panics. *)
Definition index {A} (l : list A) (i : Z) : M A :=
  if i <? 0 then panic
  else match l !! Z.to_nat i with Some x => ret x | None => panic end.

(** ** Evaluation *)

Section Eval.
(** The constant pool and the view's [field]. *)
Variable consts : list value.
Variable field : Z -> value.

(** One instruction: the machine and the program counter after it. *)
Definition dispatch (in_ : instr) (m : machine) (pc : Z) : M (machine * Z) :=
  match op in_ with
  | opConst => c ←ₘ index consts (arg in_) ;; m' ←ₘ push m c ;; ret (m', pc)
  | opField => m' ←ₘ push m (field (arg in_)) ;; ret (m', pc)
  | opPop => xm ←ₘ pop m ;; ret (snd xm, pc)
  | opNot => xm ←ₘ pop m ;; m' ←ₘ push (snd xm) (boolValue (negb (vb (fst xm)))) ;; ret (m', pc)
  | opJumpIfFalse => t ←ₘ top m ;; ret (m, if negb (vb t) then arg in_ else pc)
  | opJumpIfTrue => t ←ₘ top m ;; ret (m, if vb t then arg in_ else pc)
  | o =>
      rm ←ₘ pop m ;; lm ←ₘ pop (snd rm) ;;
      res ←ₘ binary o (fst lm) (fst rm) ;;
      m' ←ₘ push (snd lm) (boolValue res) ;; ret (m', pc)
  end.

Fixpoint eval_loop (fuel : nat) (code : list instr) (m : machine) (pc : Z) : M machine :=
  if Z.of_nat (length code) <=? pc then ret m
  else
    match fuel with
    | O => fun b => (b, OutOfFuel)
    | S f =>
        step 1 ;;;
        in_ ←ₘ index code pc ;;
        mp ←ₘ dispatch in_ m (pc + 1) ;;
        eval_loop f code (fst mp) (snd mp)
    end.

(** [eval]. Every jump the compiler emits goes forward, so a round per
    instruction is enough (see [PolicyProps]). *)
Definition eval (code : list instr) : M bool :=
  match code with
  | [] => ret true
  | _ =>
      m ←ₘ eval_loop (length code) code [] 0 ;;
      match m with
      | [v] => ret (vb v)
      | _ => fail ErrInstructionLimit
      end
  end.
End Eval.

(** ** Tags and rules *)

Record Tag : Type := mkTag { TagName : bytes; TagValue : bytes }.

Definition maxTags : nat := 4.

(** [tagset]: the first [n] slots of the array. *)
Definition tagset : Type := list Tag.

Definition Tag_get (t : tagset) (name : bytes) : option bytes :=
  option_map TagValue (List.find (fun x => beqb (TagName x) name) t).

Fixpoint tag_overwrite (t : tagset) (name val : bytes) : option tagset :=
  match t with
  | [] => None
  | x :: t' =>
      if beqb (TagName x) name then Some (mkTag (TagName x) val :: t')
      else option_map (cons x) (tag_overwrite t' name val)
  end.

Definition tagset_set (t : tagset) (name val : bytes) : tagset :=
  match tag_overwrite t name val with
  | Some t' => t'
  | None =>
      if decide (length t < maxTags)%nat then t ++ [mkTag name val]
      else take (maxTags - 1) t ++ [mkTag name val]
  end.

Inductive action : Type := actNone | actDeny | actAllow | actSet.

#[export] Instance action_eq_dec : EqDecision action.
Proof. solve_decision. Defined.

Record rule : Type := mkRule { act : action; rname : bytes; rarg : value; cond : list instr; rline : Z }.

Inductive Hook : Type := HookRequest | HookRoute | HookResponse | HookEmail | HookFilterRequest.

#[export] Instance Hook_eq_dec : EqDecision Hook.
Proof. solve_decision. Defined.

Record Program : Type := mkProgram {
  Name : bytes; PHook : Hook; rules : list rule; consts_of : list value; pdepth : Z }.

(** What one invocation accumulated. *)
Record hresult : Type := mkResult {
  tags : tagset; denied : bool; allowed : bool; reason : bytes; by_ : bytes }.

Definition emptyResult : hresult := mkResult [] false false [] [].

(** [Program.run]: fold the rules; [true] when a deny or an allow ended it. *)
Fixpoint run_rules (name : bytes) (consts : list value) (field : Z -> value) (rs : list rule)
    (out : hresult) : M (hresult * bool) :=
  match rs with
  | [] => ret (out, false)
  | r :: rs' =>
      step 1 ;;;
      ok ←ₘ eval consts field (cond r) ;;
      if negb ok then run_rules name consts field rs' out
      else
        match act r with
        | actDeny => ret (mkResult (tags out) true (allowed out) (vstr (rarg r)) name, true)
        | actAllow => ret (mkResult (tags out) (denied out) true (reason out) name, true)
        | actSet =>
            charge (Z.of_nat (length (rname r)) + Z.of_nat (length (vstr (rarg r))) + valueOverhead) ;;;
            run_rules name consts field rs'
              (mkResult (tagset_set (tags out) (rname r) (value_String (rarg r)))
                 (denied out) (allowed out) (reason out) (by_ out))
        | actNone => run_rules name consts field rs' out
        end
  end.

Definition run (p : Program) (field : Z -> value) (out : hresult) : M (hresult * bool) :=
  run_rules (Name p) (consts_of p) field (rules p) out.

(** ** Views: what a hook may read *)

Record fieldSpec : Type := mkField { fname : bytes; fkind : kind; fidx : Z }.

(** [fieldTable]: the map the compiler resolves identifiers with. *)
Notation fieldTable := (gmap bytes fieldSpec).

Definition newFieldTable (specs : list fieldSpec) : fieldTable :=
  fold_left (fun t s => <[fname s := s]> t) specs ∅.

Record RequestView : Type := mkRequestView {
  rqRequestID : bytes; rqMethod : bytes; rqPath : bytes; rqRoute : bytes; rqModel : bytes;
  rqKeyID : bytes; rqKeyName : bytes; rqUserID : bytes; rqTeamID : bytes; rqPriority : bytes;
  rqBodyBytes : Z; rqInputTokens : Z; rqMaxOutputTokens : Z; rqStream : bool }.

Definition request_specs : list fieldSpec :=
  [mkField (bs "request_id") kindString 0; mkField (bs "method") kindString 1;
   mkField (bs "path") kindString 2; mkField (bs "route") kindString 3;
   mkField (bs "model") kindString 4; mkField (bs "key_id") kindString 5;
   mkField (bs "key_name") kindString 6; mkField (bs "user_id") kindString 7;
   mkField (bs "team_id") kindString 8; mkField (bs "priority") kindString 9;
   mkField (bs "body_bytes") kindNumber 10; mkField (bs "input_tokens") kindNumber 11;
   mkField (bs "max_output_tokens") kindNumber 12; mkField (bs "stream") kindBool 13].
Definition requestFields : fieldTable := newFieldTable request_specs.

Definition request_field (v : RequestView) (i : Z) : value :=
  match i with
  | 0 => strValue (rqRequestID v) | 1 => strValue (rqMethod v) | 2 => strValue (rqPath v)
  | 3 => strValue (rqRoute v) | 4 => strValue (rqModel v) | 5 => strValue (rqKeyID v)
  | 6 => strValue (rqKeyName v) | 7 => strValue (rqUserID v) | 8 => strValue (rqTeamID v)
  | 9 => strValue (rqPriority v) | 10 => numValue (rqBodyBytes v)
  | 11 => numValue (rqInputTokens v) | 12 => numValue (rqMaxOutputTokens v)
  | 13 => boolValue (rqStream v) | _ => zeroValue
  end.

Record RouteView : Type := mkRouteView {
  rtModel : bytes; rtKeyID : bytes; rtUserID : bytes; rtTeamID : bytes; rtProvider : bytes;
  rtDeployment : bytes; rtKind : bytes; rtUpstreamModel : bytes; rtPriority : bytes;
  rtAttempt : Z; rtInputTokens : Z; rtStream : bool }.

Definition route_specs : list fieldSpec :=
  [mkField (bs "model") kindString 0; mkField (bs "key_id") kindString 1;
   mkField (bs "user_id") kindString 2; mkField (bs "team_id") kindString 3;
   mkField (bs "provider") kindString 4; mkField (bs "deployment") kindString 5;
   mkField (bs "kind") kindString 6; mkField (bs "upstream_model") kindString 7;
   mkField (bs "priority") kindString 8; mkField (bs "attempt") kindNumber 9;
   mkField (bs "input_tokens") kindNumber 10; mkField (bs "stream") kindBool 11].
Definition routeFields : fieldTable := newFieldTable route_specs.

Definition route_field (v : RouteView) (i : Z) : value :=
  match i with
  | 0 => strValue (rtModel v) | 1 => strValue (rtKeyID v) | 2 => strValue (rtUserID v)
  | 3 => strValue (rtTeamID v) | 4 => strValue (rtProvider v) | 5 => strValue (rtDeployment v)
  | 6 => strValue (rtKind v) | 7 => strValue (rtUpstreamModel v) | 8 => strValue (rtPriority v)
  | 9 => numValue (rtAttempt v) | 10 => numValue (rtInputTokens v)
  | 11 => boolValue (rtStream v) | _ => zeroValue
  end.

Record ResponseView : Type := mkResponseView {
  rsRequestID : bytes; rsModel : bytes; rsKeyID : bytes; rsUserID : bytes; rsTeamID : bytes;
  rsProvider : bytes; rsDeployment : bytes; rsUpstreamModel : bytes; rsErrorCode : bytes;
  rsStatus : Z; rsInputTokens : Z; rsOutputTokens : Z; rsCostNanoUSD : Z; rsTTFTMillis : Z;
  rsTotalMillis : Z; rsAttempts : Z; rsStream : bool }.

Definition response_specs : list fieldSpec :=
  [mkField (bs "request_id") kindString 0; mkField (bs "model") kindString 1;
   mkField (bs "key_id") kindString 2; mkField (bs "user_id") kindString 3;
   mkField (bs "team_id") kindString 4; mkField (bs "provider") kindString 5;
   mkField (bs "deployment") kindString 6; mkField (bs "upstream_model") kindString 7;
   mkField (bs "error_code") kindString 8; mkField (bs "status") kindNumber 9;
   mkField (bs "input_tokens") kindNumber 10; mkField (bs "output_tokens") kindNumber 11;
   mkField (bs "cost_nano_usd") kindNumber 12; mkField (bs "ttft_ms") kindNumber 13;
   mkField (bs "total_ms") kindNumber 14; mkField (bs "attempts") kindNumber 15;
   mkField (bs "stream") kindBool 16].
Definition responseFields : fieldTable := newFieldTable response_specs.

Definition response_field (v : ResponseView) (i : Z) : value :=
  match i with
  | 0 => strValue (rsRequestID v) | 1 => strValue (rsModel v) | 2 => strValue (rsKeyID v)
  | 3 => strValue (rsUserID v) | 4 => strValue (rsTeamID v) | 5 => strValue (rsProvider v)
  | 6 => strValue (rsDeployment v) | 7 => strValue (rsUpstreamModel v) | 8 => strValue (rsErrorCode v)
  | 9 => numValue (rsStatus v) | 10 => numValue (rsInputTokens v) | 11 => numValue (rsOutputTokens v)
  | 12 => numValue (rsCostNanoUSD v) | 13 => numValue (rsTTFTMillis v) | 14 => numValue (rsTotalMillis v)
  | 15 => numValue (rsAttempts v) | 16 => boolValue (rsStream v) | _ => zeroValue
  end.

Record EmailView : Type := mkEmailView {
  emEvent : bytes; emSubjectKind : bytes; emSubjectID : bytes; emRecipient : bytes;
  emSubject : bytes; emBody : bytes; emDriver : bytes }.

Definition email_specs : list fieldSpec :=
  [mkField (bs "event") kindString 0; mkField (bs "subject_kind") kindString 1;
   mkField (bs "subject_id") kindString 2; mkField (bs "recipient") kindString 3;
   mkField (bs "subject") kindString 4; mkField (bs "body") kindString 5;
   mkField (bs "driver") kindString 6].
Definition emailFields : fieldTable := newFieldTable email_specs.

Definition email_field (v : EmailView) (i : Z) : value :=
  match i with
  | 0 => strValue (emEvent v) | 1 => strValue (emSubjectKind v) | 2 => strValue (emSubjectID v)
  | 3 => strValue (emRecipient v) | 4 => strValue (emSubject v) | 5 => strValue (emBody v)
  | 6 => strValue (emDriver v) | _ => zeroValue
  end.

(** [viewer]: the four views behind the one interface programs read through. *)
Inductive viewer : Type :=
| VRequest (v : RequestView) | VRoute (v : RouteView)
| VResponse (v : ResponseView) | VEmail (v : EmailView).

Definition field (v : viewer) : Z -> value :=
  match v with
  | VRequest v => request_field v | VRoute v => route_field v
  | VResponse v => response_field v | VEmail v => email_field v
  end.

(** The hook a view belongs to: [runPrograms] is only ever called with these. *)
Definition view_hook (v : viewer) : Hook :=
  match v with
  | VRequest _ => HookRequest | VRoute _ => HookRoute
  | VResponse _ => HookResponse | VEmail _ => HookEmail
  end.

Definition fieldsFor (h : Hook) : fieldTable :=
  match h with
  | HookRequest => requestFields | HookRoute => routeFields
  | HookResponse => responseFields | HookEmail => emailFields
  | HookFilterRequest => ∅
  end.
