(* ===== verification/PolicyCompile.v ===== *)
(** * The policy compiler ([internal/luaext/compile.go])

    A recursive-descent parser that emits stack code as it goes, back-patching
    the jumps of [and] and [or], interning constants, and tracking the operand
    depth and the kind of every expression. The parser object is the state of a
    monad whose failures are the load errors. *)
From Stdlib Require Import String.
From stdpp Require Import base gmap list.
From Stdlib Require Import ZArith Lia.
From S2P Require Import Prelude PolicyLex PolicyVM.
Open Scope Z_scope.

(** ** Load errors *)

Inductive complaint : Type :=
| Expected (k : tokKind) | OneRulePerLine | WantRule | NotAVerb (verb : bytes)
| VerbNotAvailable (a : action) | TagNameTooLong | WantLiteral | GuardNotCondition (k : kind)
| OrNeedsConditions (k : kind) | AndNeedsConditions (k : kind) | NotNeedsCondition (k : kind)
| InOperands (l r : kind) | StringOperands (l r : kind) | OrderOperands (l r : kind)
| NeverEqual (l r : kind) | ListsNotCompared | NoField (name : bytes) | WantValue | ListTooLong.

Inductive compileError : Type :=
| SourceTooLarge (n : Z)
| LexFailed (e : lex_error)
| AtLine (l : Z) (c : complaint)
| NoRules
| TooManySlots (d : Z).

(** ** The parser object *)

Definition maxListElements : nat := 64.
Definition maxTagNameLen : nat := 32.

Record parser : Type := mkParser {
  hook : Hook; toks : list token; pos : nat; fields : fieldTable;
  prules : list rule; pconsts : list value; progDepth : Z;
  code : list instr; depth : Z; maxDepth : Z }.

Definition set_pos (p : parser) (n : nat) : parser :=
  mkParser (hook p) (toks p) n (fields p) (prules p) (pconsts p) (progDepth p) (code p) (depth p) (maxDepth p).
Definition set_code (p : parser) (c : list instr) : parser :=
  mkParser (hook p) (toks p) (pos p) (fields p) (prules p) (pconsts p) (progDepth p) c (depth p) (maxDepth p).
Definition set_depth (p : parser) (d mx : Z) : parser :=
  mkParser (hook p) (toks p) (pos p) (fields p) (prules p) (pconsts p) (progDepth p) (code p) d mx.
Definition set_consts (p : parser) (c : list value) : parser :=
  mkParser (hook p) (toks p) (pos p) (fields p) (prules p) c (progDepth p) (code p) (depth p) (maxDepth p).
Definition set_prog (p : parser) (rs : list rule) (d : Z) : parser :=
  mkParser (hook p) (toks p) (pos p) (fields p) rs (pconsts p) d (code p) (depth p) (maxDepth p).

Inductive pres (A : Type) : Type :=
| POk (a : A) (p : parser)
| PErr (e : compileError)
| PFuel.
Arguments POk {A} a p.
Arguments PErr {A} e.
Arguments PFuel {A}.

Definition P (A : Type) : Type := parser -> pres A.
Definition pret {A} (a : A) : P A := fun p => POk a p.
Definition perr {A} (t : token) (c : complaint) : P A := fun _ => PErr (AtLine (line t) c).
Definition pbind {A B} (m : P A) (k : A -> P B) : P B := fun p =>
  match m p with POk a p' => k a p' | PErr e => PErr e | PFuel => PFuel end.

Notation "x ←ₚ m ;; k" := (pbind m (fun x => k))
  (at level 100, m at level 90, k at level 200, right associativity) : policy_scope.
Notation "m ;;ₚ k" := (pbind m (fun _ => k))
  (at level 100, k at level 200, right associativity) : policy_scope.
Open Scope policy_scope.

(** The token past the end is never read: [pos] stays below [len(toks)], which
    ends with the end of file. *)
Definition eofToken : token := mkToken tokEOF [] 0 0.

Definition peek : P token := fun p => POk (nth (pos p) (toks p) eofToken) p.

Definition advance : P token := fun p =>
  POk (nth (pos p) (toks p) eofToken)
    (if decide (pos p < length (toks p) - 1)%nat then set_pos p (S (pos p)) else p).

Definition expect (k : tokKind) : P token :=
  t ←ₚ peek ;;
  if decide (kind_of t = k) then advance else perr t (Expected k).

Definition is_word (t : token) (w : bytes) : bool :=
  bool_decide (kind_of t = tokIdent) && beqb (text t) w.

(** ** Emission *)

Definition emit (o : opcode) (a : Z) : P nat := fun p =>
  POk (length (code p)) (set_code p (code p ++ [mkInstr o a])).

(** [p.code[jmp].a = int32(len(p.code))] *)
Definition patch (jmp : nat) : P unit := fun p =>
  POk tt (set_code p (alter (fun i => mkInstr (op i) (i32 (Z.of_nat (length (code p))))) jmp (code p))).

(** [push(n)] *)
Definition parser_push (n : Z) : P unit := fun p =>
  let d := depth p + n in
  POk tt (set_depth p d (if maxDepth p <? d then d else maxDepth p)).

(** [p.depth--] *)
Definition depth_dec : P unit := fun p => POk tt (set_depth p (depth p - 1) (maxDepth p)).

Definition same_const (v c : value) : bool :=
  bool_decide (vk c = vk v) && (vnum c =? vnum v) && Bool.eqb (vb c) (vb v) &&
  beqb (vstr c) (vstr v) && bool_decide (vlist c = []) && bool_decide (vlist v = []).

Fixpoint find_const (v : value) (cs : list value) (i : Z) : option Z :=
  match cs with
  | [] => None
  | c :: cs' => if same_const v c then Some i else find_const v cs' (i + 1)
  end.

Definition constIndex (v : value) : P Z := fun p =>
  match find_const v (pconsts p) 0 with
  | Some i => POk (i32 i) p
  | None => POk (i32 (Z.of_nat (length (pconsts p)))) (set_consts p (pconsts p ++ [v]))
  end.

(** [wordOps] *)
Definition wordOps (w : bytes) : option opcode :=
  if beqb w (bs "contains") then Some opContains
  else if beqb w (bs "startswith") then Some opStartsWith
  else if beqb w (bs "endswith") then Some opEndsWith
  else if beqb w (bs "in") then Some opIn
  else None.

(** The operator a token spells, when it spells a comparison. *)
Definition comparison_op (t : token) : option opcode :=
  match kind_of t with
  | tokEq => Some opEq | tokNe => Some opNe | tokLt => Some opLt
  | tokLe => Some opLe | tokGt => Some opGt | tokGe => Some opGe
  | tokIdent => wordOps (text t)
  | _ => None
  end.

(** The kinds a comparison accepts; otherwise the complaint. *)
Definition check_operands (o : opcode) (lk rk : kind) : option complaint :=
  match o with
  | opIn => if decide (lk = kindString /\ rk = kindList) then None else Some (InOperands lk rk)
  | opContains | opStartsWith | opEndsWith =>
      if decide (lk = kindString /\ rk = kindString) then None else Some (StringOperands lk rk)
  | opLt | opLe | opGt | opGe =>
      if decide (lk = rk /\ (lk = kindNumber \/ lk = kindString)) then None
      else Some (OrderOperands lk rk)
  | _ =>
      if decide (lk <> rk) then Some (NeverEqual lk rk)
      else if decide (lk = kindList) then Some ListsNotCompared else None
  end.

(** ** Expressions *)

(** The loop of [compileList], after the opening bracket. *)
Fixpoint list_loop (fuel : nat) (open : token) (elems : list bytes) : P (list bytes) :=
  match fuel with
  | O => fun _ => PFuel
  | S f =>
      t0 ←ₚ peek ;;
      if decide (kind_of t0 = tokRBracket) then (advance ;;ₚ pret elems)
      else
        t ←ₚ expect tokString ;;
        if decide (maxListElements <= length elems)%nat then perr open ListTooLong
        else
          t1 ←ₚ peek ;;
          if decide (kind_of t1 = tokComma)
          then (advance ;;ₚ list_loop f open (elems ++ [text t]))
          else list_loop f open (elems ++ [text t])
  end.

Definition compileList (fuel : nat) : P kind :=
  open ←ₚ advance ;;
  elems ←ₚ list_loop fuel open [] ;;
  (fun p => POk tt (set_consts p (pconsts p ++ [listValue elems]))) ;;ₚ
  (fun p => emit opConst (i32 (Z.of_nat (length (pconsts p)) - 1)) p) ;;ₚ
  parser_push 1 ;;ₚ pret kindList.

(** A literal operand: intern, emit, count the slot. *)
Definition compile_const (v : value) : P kind :=
  advance ;;ₚ i ←ₚ constIndex v ;; emit opConst i ;;ₚ parser_push 1 ;;ₚ pret (vk v).

Fixpoint compileOr (fuel : nat) : P kind :=
  match fuel with
  | O => fun _ => PFuel
  | S f => k ←ₚ compileAnd f ;; or_loop f k
  end
with or_loop (fuel : nat) (k : kind) : P kind :=
  match fuel with
  | O => fun _ => PFuel
  | S f =>
      t ←ₚ peek ;;
      if negb (is_word t (bs "or")) then pret k
      else if decide (k <> kindBool) then perr t (OrNeedsConditions k)
      else
        advance ;;ₚ jmp ←ₚ emit opJumpIfTrue 0 ;; emit opPop 0 ;;ₚ depth_dec ;;ₚ
        rk ←ₚ compileAnd f ;;
        if decide (rk <> kindBool) then perr t (OrNeedsConditions rk)
        else (patch jmp ;;ₚ or_loop f k)
  end
with compileAnd (fuel : nat) : P kind :=
  match fuel with
  | O => fun _ => PFuel
  | S f => k ←ₚ compileNot f ;; and_loop f k
  end
with and_loop (fuel : nat) (k : kind) : P kind :=
  match fuel with
  | O => fun _ => PFuel
  | S f =>
      t ←ₚ peek ;;
      if negb (is_word t (bs "and")) then pret k
      else if decide (k <> kindBool) then perr t (AndNeedsConditions k)
      else
        advance ;;ₚ jmp ←ₚ emit opJumpIfFalse 0 ;; emit opPop 0 ;;ₚ depth_dec ;;ₚ
        rk ←ₚ compileNot f ;;
        if decide (rk <> kindBool) then perr t (AndNeedsConditions rk)
        else (patch jmp ;;ₚ and_loop f k)
  end
with compileNot (fuel : nat) : P kind :=
  match fuel with
  | O => fun _ => PFuel
  | S f =>
      t ←ₚ peek ;;
      if is_word t (bs "not") then
        advance ;;ₚ k ←ₚ compileNot f ;;
        if decide (k <> kindBool) then perr t (NotNeedsCondition k)
        else (emit opNot 0 ;;ₚ pret kindBool)
      else compileComparison f
  end
with compileComparison (fuel : nat) : P kind :=
  match fuel with
  | O => fun _ => PFuel
  | S f =>
      lk ←ₚ compilePrimary f ;; t ←ₚ peek ;;
      match comparison_op t with
      | None => pret lk
      | Some o =>
          advance ;;ₚ rk ←ₚ compilePrimary f ;;
          match check_operands o lk rk with
          | Some c => perr t c
          | None => emit o 0 ;;ₚ depth_dec ;;ₚ pret kindBool
          end
      end
  end
with compilePrimary (fuel : nat) : P kind :=
  match fuel with
  | O => fun _ => PFuel
  | S f =>
      t ←ₚ peek ;;
      match kind_of t with
      | tokLParen =>
          advance ;;ₚ k ←ₚ compileOr f ;; expect tokRParen ;;ₚ pret k
      | tokString => compile_const (strValue (text t))
      | tokNumber => compile_const (numValue (num t))
      | tokLBracket => compileList f
      | tokIdent =>
          if beqb (text t) (bs "true") || beqb (text t) (bs "false")
          then compile_const (boolValue (beqb (text t) (bs "true")))
          else fun p =>
            match fields p !! text t with
            | None => PErr (AtLine (line t) (NoField (text t)))
            | Some spec =>
                (advance ;;ₚ emit opField (i32 (fidx spec)) ;;ₚ parser_push 1 ;;ₚ pret (fkind spec)) p
            end
      | _ => perr t WantValue
      end
  end.

(** Enough fuel for an expression over [n] tokens: see [compile_total]. *)
Definition expr_fuel (n : nat) : nat := 8 * n + 8.

Definition compileCondition : P (list instr) := fun p0 =>
  (k ←ₚ compileOr (expr_fuel (length (toks p0))) ;;
   t ←ₚ peek ;;
   if decide (k <> kindBool) then perr t (GuardNotCondition k)
   else fun p =>
     let p := if progDepth p <? maxDepth p then set_prog p (prules p) (maxDepth p) else p in
     POk (code p) (set_code p []))
  (set_depth (set_code p0 []) 0 0).

(** ** Rules *)

Definition legalActions (h : Hook) : list action :=
  match h with
  | HookRequest | HookRoute | HookEmail => [actDeny; actAllow; actSet]
  | HookResponse => [actSet]
  | HookFilterRequest => []
  end.

Definition actionLegal (h : Hook) (a : action) : bool :=
  existsb (fun x => bool_decide (x = a)) (legalActions h).

Definition parseLiteral : P value :=
  t ←ₚ peek ;;
  match kind_of t with
  | tokString => advance ;;ₚ pret (strValue (text t))
  | tokNumber => advance ;;ₚ pret (numValue (num t))
  | tokIdent =>
      if beqb (text t) (bs "true") then (advance ;;ₚ pret (boolValue true))
      else if beqb (text t) (bs "false") then (advance ;;ₚ pret (boolValue false))
      else perr t WantLiteral
  | _ => perr t WantLiteral
  end.

(** The verb of a rule with its operands: action, tag name, argument. *)
Definition parse_verb (head : token) : P (action * bytes * value) :=
  if beqb (text head) (bs "deny") then
    advance ;;ₚ t ←ₚ peek ;;
    if decide (kind_of t = tokString)
    then (s ←ₚ advance ;; pret (actDeny, [], strValue (text s)))
    else pret (actDeny, [], zeroValue)
  else if beqb (text head) (bs "allow") then (advance ;;ₚ pret (actAllow, [], zeroValue))
  else if beqb (text head) (bs "set") then
    advance ;;ₚ nameTok ←ₚ expect tokIdent ;;
    if decide (maxTagNameLen < length (text nameTok))%nat then perr nameTok TagNameTooLong
    else
      expect tokAssign ;;ₚ v ←ₚ parseLiteral ;; pret (actSet, text nameTok, v)
  else perr head (NotAVerb (text head)).

Definition parseRule : P rule :=
  head ←ₚ peek ;;
  if decide (kind_of head <> tokIdent) then perr head WantRule
  else
    v ←ₚ parse_verb head ;;
    let '(a, name, arg) := v in
    fun p =>
      if negb (actionLegal (hook p) a) then PErr (AtLine (line head) (VerbNotAvailable a))
      else
        (t ←ₚ peek ;;
         if is_word t (bs "if")
         then (advance ;;ₚ c ←ₚ compileCondition ;; pret (mkRule a name arg c (line head)))
         else pret (mkRule a name arg [] (line head))) p.

Fixpoint skipNewlines (fuel : nat) : P unit :=
  match fuel with
  | O => fun _ => PFuel
  | S f =>
      t ←ₚ peek ;;
      if decide (kind_of t = tokNewline) then (advance ;;ₚ skipNewlines f) else pret tt
  end.

Fixpoint program_loop (fuel : nat) : P unit :=
  match fuel with
  | O => fun _ => PFuel
  | S f =>
      (fun p => skipNewlines (S (length (toks p))) p) ;;ₚ
      t ←ₚ peek ;;
      if decide (kind_of t = tokEOF) then pret tt
      else
        r ←ₚ parseRule ;;
        (fun p => POk tt (set_prog p (prules p ++ [r]) (progDepth p))) ;;ₚ
        t' ←ₚ peek ;;
        match kind_of t' with
        | tokNewline => advance ;;ₚ program_loop f
        | tokEOF => program_loop f
        | _ => perr t' OneRulePerLine
        end
  end.

Definition parseProgram : P unit := fun p =>
  (program_loop (S (length (toks p))) ;;ₚ
   fun p => match prules p with [] => PErr NoRules | _ => POk tt p end) p.

Definition newParser (h : Hook) (ts : list token) : parser :=
  mkParser h ts 0 (fieldsFor h) [] [] 0 [] 0 0.

(** [Compile]. A [Hook] of the model is one of the five; the check that
    refuses any other number has nothing to refuse. [None] would be a run that
    did not end; [compile_total] rules it out. *)
Definition Compile (name : bytes) (h : Hook) (src : bytes) : option (result compileError Program) :=
  if maxSourceBytes <? Z.of_nat (length src) then Some (Err (SourceTooLarge (Z.of_nat (length src))))
  else
    match lex src with
    | None => None
    | Some (Err e) => Some (Err (LexFailed e))
    | Some (Ok ts) =>
        match parseProgram (newParser h ts) with
        | PFuel => None
        | PErr e => Some (Err e)
        | POk _ p =>
            if Z.of_nat maxStack <? progDepth p then Some (Err (TooManySlots (progDepth p)))
            else Some (Ok (mkProgram name h (prules p) (pconsts p) (progDepth p)))
        end
    end.
