(* ===== verification/PolicyRef.v ===== *)
(** * What a policy means

    The abstract syntax of guards, their value, a big-step evaluator that
    charges the same budget, and the stack code a guard is translated to. The
    machine of [PolicyVM] run on that code is the big-step evaluator, budget
    and errors included ([eval_emits]). *)
From Stdlib Require Import String.
From stdpp Require Import base gmap list.
From Stdlib Require Import ZArith Lia.
From S2P Require Import Prelude PolicyLex PolicyVM PolicyCompile.
Open Scope Z_scope.
Open Scope policy_scope.

(** ** Monad laws, at a given budget *)

Lemma bind_ret_l {A B} (a : A) (k : A -> M B) b : bind (ret a) k b = k a b.
Proof. reflexivity. Qed.

Lemma bind_assoc {A B C} (m : M A) (k : A -> M B) (h : B -> M C) b :
  bind (bind m k) h b = bind m (fun a => bind (k a) h) b.
Proof. unfold bind. by destruct (m b) as [b' [a| | |]]. Qed.

Lemma bind_ext {A B} (m : M A) (k h : A -> M B) b :
  (forall a b', k a b' = h a b') -> bind m k b = bind m h b.
Proof. intros E. unfold bind. destruct (m b) as [b' [a| | |]]; auto. Qed.

Create Rewrite HintDb monad.
#[export] Hint Rewrite @bind_assoc @bind_ret_l : monad.

(** ** Guards *)

Inductive expr : Type :=
| ELit (v : value)
| EField (i : Z)
| ENot (e : expr)
| EAnd (e1 e2 : expr)
| EOr (e1 e2 : expr)
| ECmp (o : opcode) (e1 e2 : expr).

(** The comparison an operator makes, without its charge. *)
Definition compare_values (o : opcode) (l r : value) : bool :=
  match o with
  | opEq => same l r
  | opNe => negb (same l r)
  | opLt | opLe | opGt | opGe => order o l r
  | opContains => Contains (vstr l) (vstr r)
  | opStartsWith => HasPrefix (vstr l) (vstr r)
  | opEndsWith => HasSuffix (vstr l) (vstr r)
  | opIn => existsb (fun s => beqb s (vstr l)) (vlist r)
  | _ => false
  end.

Section Meaning.
Variable field : Z -> value.

Fixpoint denote (e : expr) : value :=
  match e with
  | ELit v => v
  | EField i => field i
  | ENot e => boolValue (negb (vb (denote e)))
  | EAnd e1 e2 => if vb (denote e1) then denote e2 else denote e1
  | EOr e1 e2 => if vb (denote e1) then denote e1 else denote e2
  | ECmp o e1 e2 => boolValue (compare_values o (denote e1) (denote e2))
  end.

(** The same, charging what the machine charges: a step per instruction
    executed, the bytes of every value while it is on the stack. *)
Fixpoint charged (e : expr) : M value :=
  match e with
  | ELit v => step 1 ;;; charge (value_bytes v) ;;; ret v
  | EField i => step 1 ;;; charge (value_bytes (field i)) ;;; ret (field i)
  | ENot e =>
      v ←ₘ charged e ;; step 1 ;;; refund (value_bytes v) ;;;
      charge valueOverhead ;;; ret (boolValue (negb (vb v)))
  | EAnd e1 e2 =>
      v ←ₘ charged e1 ;; step 1 ;;;
      if vb v then (step 1 ;;; refund (value_bytes v) ;;; charged e2) else ret v
  | EOr e1 e2 =>
      v ←ₘ charged e1 ;; step 1 ;;;
      if vb v then ret v else (step 1 ;;; refund (value_bytes v) ;;; charged e2)
  | ECmp o e1 e2 =>
      l ←ₘ charged e1 ;; r ←ₘ charged e2 ;; step 1 ;;;
      refund (value_bytes r) ;;; refund (value_bytes l) ;;;
      res ←ₘ binary o l r ;; charge valueOverhead ;;; ret (boolValue res)
  end.
End Meaning.

(** Operand slots an expression needs. *)
Fixpoint slots (e : expr) : nat :=
  match e with
  | ELit _ | EField _ => 1
  | ENot e => slots e
  | EAnd e1 e2 | EOr e1 e2 => Nat.max (slots e1) (slots e2)
  | ECmp _ e1 e2 => Nat.max (slots e1) (S (slots e2))
  end.

Lemma slots_pos e : (1 <= slots e)%nat.
Proof. induction e; cbn; lia. Qed.

(** ** Translation *)

Definition is_cmp (o : opcode) : Prop :=
  o ∈ [opEq; opNe; opLt; opLe; opGt; opGe; opContains; opStartsWith; opEndsWith; opIn].

(** [emits cs b e c]: [c] is the code of [e] when it starts at index [b] and
    constants are looked up in [cs]. *)
Inductive emits (cs : list value) : nat -> expr -> list instr -> Prop :=
| em_lit b v i : cs !! i = Some v -> emits cs b (ELit v) [mkInstr opConst (Z.of_nat i)]
| em_field b i : emits cs b (EField i) [mkInstr opField i]
| em_not b e c : emits cs b e c -> emits cs b (ENot e) (c ++ [mkInstr opNot 0])
| em_and b e1 e2 c1 c2 :
    emits cs b e1 c1 -> emits cs (b + length c1 + 2) e2 c2 ->
    emits cs b (EAnd e1 e2)
      (c1 ++ mkInstr opJumpIfFalse (Z.of_nat (b + length c1 + 2 + length c2)) :: mkInstr opPop 0 :: c2)
| em_or b e1 e2 c1 c2 :
    emits cs b e1 c1 -> emits cs (b + length c1 + 2) e2 c2 ->
    emits cs b (EOr e1 e2)
      (c1 ++ mkInstr opJumpIfTrue (Z.of_nat (b + length c1 + 2 + length c2)) :: mkInstr opPop 0 :: c2)
| em_cmp b o e1 e2 c1 c2 :
    is_cmp o -> emits cs b e1 c1 -> emits cs (b + length c1) e2 c2 ->
    emits cs b (ECmp o e1 e2) (c1 ++ c2 ++ [mkInstr o 0]).

Lemma emits_mono cs cs' b e c : emits cs b e c -> emits (cs ++ cs') b e c.
Proof.
  induction 1; econstructor; eauto. by apply lookup_app_l_Some.
Qed.

Lemma emits_nonempty cs b e c : emits cs b e c -> c <> [].
Proof. inversion 1; subst; intros N; apply (f_equal length) in N; rewrite ?length_app in N; cbn in N; lia. Qed.

(** ** The machine on translated code *)

Section Machine.
Context (cs : list value) (field : Z -> value) (code : list instr).

Lemma eval_loop_step f m pc i b :
  code !! pc = Some i ->
  eval_loop cs field (S f) code m (Z.of_nat pc) b =
  (step 1 ;;; mp ←ₘ dispatch cs field i m (Z.of_nat (S pc)) ;;
   eval_loop cs field f code (fst mp) (snd mp)) b.
Proof.
  intros E. cbn [eval_loop]. pose proof (lookup_lt_Some _ _ _ E) as L.
  rewrite (proj2 (Z.leb_gt _ _)) by lia.
  apply bind_ext. intros [] b'. unfold index.
  rewrite (proj2 (Z.ltb_ge _ _)) by lia. rewrite Nat2Z.id, E. rewrite bind_ret_l.
  by replace (Z.of_nat pc + 1) with (Z.of_nat (S pc)) by lia.
Qed.

Lemma stack_push_ok m v b : (length m < maxStack)%nat -> push m v b = (charge (value_bytes v) ;;; ret (v :: m)) b.
Proof. intros L. unfold push. by rewrite decide_False by lia. Qed.

Lemma bool_bytes x : value_bytes (boolValue x) = valueOverhead.
Proof. reflexivity. Qed.

(** The code of an expression behaves as [charged]: from any fuel that covers
    its length the loop goes on after it with the value on the stack, or stops
    where [charged] stops. *)
Definition runs_as (b : nat) (e : expr) (c : list instr) : Prop :=
  forall pre post m fuel bud,
    code = pre ++ c ++ post -> length pre = b ->
    (length m + slots e <= maxStack)%nat -> (length c <= fuel)%nat ->
    exists f', (fuel - length c <= f')%nat /\
      eval_loop cs field fuel code m (Z.of_nat b) bud =
      (v ←ₘ charged field e ;; eval_loop cs field f' code (v :: m) (Z.of_nat (b + length c))) bud.

Lemma lookup_at (pre post : list instr) i n :
  code = pre ++ i :: post -> n = length pre -> code !! n = Some i.
Proof. intros -> ->. by rewrite list_lookup_middle. Qed.

(** What each instruction does when the stack has what it expects. *)
Lemma dispatch_const m i v pc b : cs !! i = Some v -> (length m < maxStack)%nat ->
  dispatch cs field (mkInstr opConst (Z.of_nat i)) m pc b = (charge (value_bytes v) ;;; ret (v :: m, pc)) b.
Proof.
  intros Hi L. cbn [dispatch op arg]. unfold index.
  rewrite (proj2 (Z.ltb_ge _ _)) by lia. rewrite Nat2Z.id, Hi.
  unfold bind. cbn. rewrite stack_push_ok by done. unfold bind. by destruct (charge _ _) as [? []].
Qed.

Lemma dispatch_field m i pc b : (length m < maxStack)%nat ->
  dispatch cs field (mkInstr opField i) m pc b =
  (charge (value_bytes (field i)) ;;; ret (field i :: m, pc)) b.
Proof.
  intros L. cbn [dispatch op arg]. unfold bind. rewrite stack_push_ok by done.
  unfold bind. by destruct (charge _ _) as [? []].
Qed.

Lemma dispatch_not v m pc b : (length m < maxStack)%nat ->
  dispatch cs field (mkInstr opNot 0) (v :: m) pc b =
  (refund (value_bytes v) ;;; charge valueOverhead ;;; ret (boolValue (negb (vb v)) :: m, pc)) b.
Proof.
  intros L. cbn [dispatch op arg]. unfold bind. cbn [pop refund bind ret fst snd].
  rewrite stack_push_ok by done. rewrite bool_bytes. unfold bind. by destruct (charge _ _) as [? []].
Qed.

Lemma dispatch_binary o l r m pc b : is_cmp o -> (length m < maxStack)%nat ->
  dispatch cs field (mkInstr o 0) (r :: l :: m) pc b =
  (refund (value_bytes r) ;;; refund (value_bytes l) ;;;
   res ←ₘ binary o l r ;; charge valueOverhead ;;; ret (boolValue res :: m, pc)) b.
Proof.
  intros H L.
  transitivity ((rm ←ₘ pop (r :: l :: m) ;; lm ←ₘ pop (snd rm) ;;
    res ←ₘ binary o (fst lm) (fst rm) ;;
    m' ←ₘ push (snd lm) (boolValue res) ;; ret (m', pc)) b).
  { unfold is_cmp in H. set_unfold in H. by destruct_or! H; subst. }
  unfold bind. cbn [pop refund bind ret fst snd].
  destruct (binary _ _ _ _) as [? []]; try done. rewrite stack_push_ok by done. rewrite bool_bytes.
  unfold bind. by destruct (charge _ _) as [? []].
Qed.

(** Case analysis on how a sub-computation ends; only a return goes on. *)
Ltac ends x :=
  let b := fresh "bd" in let o := fresh "o" in
  destruct x as [b o] eqn:?; destruct o;
  [| match goal with f : nat |- _ => exists f; split; [lia|reflexivity] end ..].

Lemma step_at pre i post f m n b :
  code = pre ++ i :: post -> n = length pre ->
  eval_loop cs field (S f) code m (Z.of_nat n) b =
  (step 1 ;;; mp ←ₘ dispatch cs field i m (Z.of_nat (S n)) ;;
   eval_loop cs field f code (fst mp) (snd mp)) b.
Proof. intros Hc Hn. by eapply eval_loop_step, lookup_at. Qed.

(** Run the next instruction, [i], which the code holds after [pre]. *)
Ltac machine_step f pre i post :=
  destruct f as [|f]; [cbn in *; lia|];
  rewrite (step_at pre i post);
    [unfold bind at 1|by simplify_list_eq|rewrite ?length_app; cbn; lia].

Lemma runs_lit b v i : cs !! i = Some v -> runs_as b (ELit v) [mkInstr opConst (Z.of_nat i)].
Proof.
  intros Hi pre post m fuel bud Hc Hb Hm Hf. cbn [slots length charged] in *.
  machine_step fuel pre (mkInstr opConst (Z.of_nat i)) post. unfold bind.
  ends (step 1 bud). rewrite (dispatch_const m i v) by (done || lia). unfold bind.
  ends (charge (value_bytes v) bd). exists fuel. split; [lia|]. cbn.
  by replace (Z.of_nat (b + 1)) with (Z.of_nat (S b)) by lia.
Qed.

Lemma runs_field b i : runs_as b (EField i) [mkInstr opField i].
Proof.
  intros pre post m fuel bud Hc Hb Hm Hf. cbn [slots length charged] in *.
  machine_step fuel pre (mkInstr opField i) post. unfold bind.
  ends (step 1 bud). rewrite dispatch_field by lia. unfold bind.
  ends (charge (value_bytes (field i)) bd). exists fuel. split; [lia|]. cbn.
  by replace (Z.of_nat (b + 1)) with (Z.of_nat (S b)) by lia.
Qed.

Lemma runs_not b e c : runs_as b e c -> runs_as b (ENot e) (c ++ [mkInstr opNot 0]).
Proof.
  intros IH pre post m fuel bud Hc Hb Hm Hf. rewrite length_app in *. cbn [slots length charged] in *.
  destruct (IH pre (mkInstr opNot 0 :: post) m fuel bud) as (f1 & L1 & ->); [by simplify_list_eq|lia..|].
  pose proof (slots_pos e). unfold bind. ends (charged field e bud).
  machine_step f1 (pre ++ c) (mkInstr opNot 0) post. ends (step 1 bd).
  unfold bind. rewrite dispatch_not by lia. unfold bind. cbn [refund].
  match goal with |- context [charge valueOverhead ?x] => ends (charge valueOverhead x) end.
  exists f1. split; [lia|]. cbn. do 2 f_equal; lia.
Qed.

Lemma runs_cmp b o e1 e2 c1 c2 : is_cmp o -> runs_as b e1 c1 -> runs_as (b + length c1) e2 c2 ->
  runs_as b (ECmp o e1 e2) (c1 ++ c2 ++ [mkInstr o 0]).
Proof.
  intros Ho IH1 IH2 pre post m fuel bud Hc Hb Hm Hf. rewrite !length_app in *.
  cbn [slots length charged] in *. pose proof (slots_pos e1).
  destruct (IH1 pre (c2 ++ mkInstr o 0 :: post) m fuel bud) as (f1 & L1 & ->);
    [by simplify_list_eq|lia..|].
  unfold bind. ends (charged field e1 bud). rename a into l.
  destruct (IH2 (pre ++ c1) (mkInstr o 0 :: post) (l :: m) f1 bd) as (f2 & L2 & ->);
    [by simplify_list_eq|rewrite ?length_app; cbn; lia..|].
  unfold bind. ends (charged field e2 bd). rename a into r.
  machine_step f2 (pre ++ c1 ++ c2) (mkInstr o 0) post. ends (step 1 bd0).
  unfold bind. rewrite dispatch_binary by (done || lia). unfold bind. cbn [refund].
  match goal with |- context [binary o l r ?x] => ends (binary o l r x) end.
  ends (charge valueOverhead bd2).
  exists f2. split; [lia|]. cbn. do 2 f_equal; lia.
Qed.

(** The two short circuits have one shape: [stop v] says whether the jump is
    taken on [v]. *)
Lemma runs_circuit (jop : opcode) (stop : value -> bool) (mk : expr -> expr -> expr) b e1 e2 c1 c2 :
  (forall v m a pc bd, dispatch cs field (mkInstr jop a) (v :: m) pc bd =
     ret (v :: m, if stop v then a else pc) bd) ->
  (forall bd, charged field (mk e1 e2) bd =
     (v ←ₘ charged field e1 ;; step 1 ;;;
      if stop v then ret v else (step 1 ;;; refund (value_bytes v) ;;; charged field e2)) bd) ->
  slots (mk e1 e2) = Nat.max (slots e1) (slots e2) ->
  runs_as b e1 c1 -> runs_as (b + length c1 + 2) e2 c2 ->
  runs_as b (mk e1 e2)
    (c1 ++ mkInstr jop (Z.of_nat (b + length c1 + 2 + length c2)) :: mkInstr opPop 0 :: c2).
Proof.
  intros HD HC HS IH1 IH2 pre post m fuel bud Hc Hb Hm Hf. rewrite length_app in *. cbn [length] in *.
  set (jmp := mkInstr jop _) in *.
  destruct (IH1 pre (jmp :: mkInstr opPop 0 :: c2 ++ post) m fuel bud) as (f1 & L1 & ->);
    [by simplify_list_eq|lia..|].
  unfold bind at 2. rewrite HC. unfold bind. ends (charged field e1 bud).
  machine_step f1 (pre ++ c1) jmp (mkInstr opPop 0 :: c2 ++ post). ends (step 1 bd).
  unfold bind. unfold jmp. rewrite HD. cbn [ret fst snd]. destruct (stop a) eqn:Es.
  - exists f1. split; [lia|]. do 2 f_equal; lia.
  - machine_step f1 (pre ++ c1 ++ [jmp]) (mkInstr opPop 0) (c2 ++ post). ends (step 1 bd0).
    cbn [dispatch op pop]. unfold bind, refund. cbn [ret fst snd].
    match goal with |- context [eval_loop _ _ f1 code m ?pc ?bd'] =>
      destruct (IH2 (pre ++ c1 ++ [jmp; mkInstr opPop 0]) post m f1 bd') as (f2 & L2 & E2);
        [by simplify_list_eq|rewrite ?length_app; cbn; lia..|];
      replace pc with (Z.of_nat (b + length c1 + 2)) by lia
    end.
    rewrite E2. unfold bind.
    match goal with |- context [charged field e2 ?x] => ends (charged field e2 x) end.
    exists f2. split; [lia|]. do 2 f_equal; lia.
Qed.

(** The code of an expression runs as the expression. *)
Lemma emits_runs b e c : emits cs b e c -> runs_as b e c.
Proof.
  induction 1.
  - by apply runs_lit.
  - apply runs_field.
  - by apply runs_not.
  - apply (runs_circuit opJumpIfFalse (fun v => negb (vb v)) EAnd); auto.
    intros bd. cbn [charged]. apply bind_ext. intros v bd'. apply bind_ext. intros [] ?. by destruct (vb v).
  - apply (runs_circuit opJumpIfTrue vb EOr); auto.
  - by apply runs_cmp.
Qed.
End Machine.

(** Running the code of a guard is evaluating the guard: same answer, same
    charges, same errors, and neither the stack bound nor the final check of
    [eval] is ever what stops it. *)
Lemma eval_emits cs field e c b :
  emits cs 0 e c -> (slots e <= maxStack)%nat ->
  eval cs field c b = (v ←ₘ charged field e ;; ret (vb v)) b.
Proof.
  intros E S. pose proof (emits_nonempty _ _ _ _ E) as N.
  destruct (emits_runs cs field c 0 e c E [] [] [] (length c) b) as (f' & _ & R);
    [by rewrite app_nil_r|done|done|done|].
  unfold eval. destruct c as [|i c']; [done|]. set (c := i :: c') in *. clearbody c.
  unfold bind at 1. change 0 with (Z.of_nat 0). rewrite R. unfold bind.
  destruct (charged field e b) as [b' [v| | |]]; try done.
  destruct f'; cbn [eval_loop Nat.add]; by rewrite Z.leb_refl.
Qed.

(** ** Well-kinded guards *)

(** The values programs handle: lists are bounded, a boolean carries no text. *)
Definition wf_value (v : value) : Prop :=
  (length (vlist v) <= maxListElements)%nat /\ (vk v = kindBool -> vstr v = [] /\ vlist v = []).

Lemma wf_bool v : wf_value v -> vk v = kindBool -> value_bytes v = valueOverhead.
Proof. intros [_ H] K. unfold value_bytes. by destruct (H K) as [-> ->]. Qed.

(** [wt F e k]: under the field table [F], [e] has kind [k] and every operator
    in it gets operands of the kinds it accepts. *)
Inductive wt (F : fieldTable) : expr -> kind -> Prop :=
| wt_lit v : wf_value v -> wt F (ELit v) (vk v)
| wt_field n s : F !! n = Some s -> wt F (EField (i32 (fidx s))) (fkind s)
| wt_not e : wt F e kindBool -> wt F (ENot e) kindBool
| wt_and e1 e2 : wt F e1 kindBool -> wt F e2 kindBool -> wt F (EAnd e1 e2) kindBool
| wt_or e1 e2 : wt F e1 kindBool -> wt F e2 kindBool -> wt F (EOr e1 e2) kindBool
| wt_cmp o e1 e2 k1 k2 :
    is_cmp o -> check_operands o k1 k2 = None -> wt F e1 k1 -> wt F e2 k2 ->
    wt F (ECmp o e1 e2) kindBool.

(** ** The grammar guards are written in *)

Inductive level : Type := LOr | LAnd | LNot | LCmp | LPrim.

(** The inside of a list literal, up to its closing bracket; the comma between
    two elements is optional, as in the loop that reads it. *)
Inductive list_tokens : list token -> list bytes -> Prop :=
| lt_end r : kind_of r = tokRBracket -> list_tokens [r] []
| lt_elem t ts l : kind_of t = tokString -> list_tokens ts l -> list_tokens (t :: ts) (text t :: l)
| lt_comma t c ts l :
    kind_of t = tokString -> kind_of c = tokComma -> list_tokens ts l ->
    list_tokens (t :: c :: ts) (text t :: l).

(** [or] binds loosest, then [and], [not], comparisons; both connectives
    associate to the left and a comparison does not chain. *)
Inductive gram (F : fieldTable) : level -> list token -> expr -> Prop :=
| g_or_and ts e : gram F LAnd ts e -> gram F LOr ts e
| g_or ts1 t ts2 e1 e2 :
    gram F LOr ts1 e1 -> is_word t (bs "or") = true -> gram F LAnd ts2 e2 ->
    gram F LOr (ts1 ++ t :: ts2) (EOr e1 e2)
| g_and_not ts e : gram F LNot ts e -> gram F LAnd ts e
| g_and ts1 t ts2 e1 e2 :
    gram F LAnd ts1 e1 -> is_word t (bs "and") = true -> gram F LNot ts2 e2 ->
    gram F LAnd (ts1 ++ t :: ts2) (EAnd e1 e2)
| g_not_cmp ts e : gram F LCmp ts e -> gram F LNot ts e
| g_not t ts e : is_word t (bs "not") = true -> gram F LNot ts e -> gram F LNot (t :: ts) (ENot e)
| g_cmp_prim ts e : gram F LPrim ts e -> gram F LCmp ts e
| g_cmp ts1 t ts2 o e1 e2 :
    gram F LPrim ts1 e1 -> comparison_op t = Some o -> gram F LPrim ts2 e2 ->
    gram F LCmp (ts1 ++ t :: ts2) (ECmp o e1 e2)
| g_paren l ts r e :
    kind_of l = tokLParen -> gram F LOr ts e -> kind_of r = tokRParen -> gram F LPrim (l :: ts ++ [r]) e
| g_string t : kind_of t = tokString -> gram F LPrim [t] (ELit (strValue (text t)))
| g_number t : kind_of t = tokNumber -> gram F LPrim [t] (ELit (numValue (num t)))
| g_true t : is_word t (bs "true") = true -> gram F LPrim [t] (ELit (boolValue true))
| g_false t : is_word t (bs "false") = true -> gram F LPrim [t] (ELit (boolValue false))
| g_list t ts l : kind_of t = tokLBracket -> list_tokens ts l -> gram F LPrim (t :: ts) (ELit (listValue l))
| g_field t s :
    kind_of t = tokIdent -> F !! text t = Some s -> gram F LPrim [t] (EField (i32 (fidx s))).

(** A guard's code is shorter than twice the tokens it was written with. *)
Lemma gram_code_length F lvl ts e cs b c :
  gram F lvl ts e -> emits cs b e c -> (S (length c) <= 2 * length ts)%nat.
Proof.
  intros G. revert b c. induction G; intros b c E; cbn [length] in *; rewrite ?length_app in *; cbn [length] in *;
    try (apply IHG in E; lia);
    inversion E; subst; rewrite ?length_app; cbn [length];
    repeat match goal with
    | IH : forall b c, emits _ b ?e c -> _, H : emits _ _ ?e _ |- _ => apply IH in H
    end; lia.
Qed.

(** ** Whole programs *)

(** A rule as written: its verb, tag name, argument and guard. *)
Record srule : Type := mkSrule { s_act : action; s_name : bytes; s_arg : value; s_guard : option expr }.

Inductive literal : token -> value -> Prop :=
| lit_string t : kind_of t = tokString -> literal t (strValue (text t))
| lit_number t : kind_of t = tokNumber -> literal t (numValue (num t))
| lit_true t : is_word t (bs "true") = true -> literal t (boolValue true)
| lit_false t : is_word t (bs "false") = true -> literal t (boolValue false).

Inductive verb : list token -> action -> bytes -> value -> Prop :=
| v_deny t : is_word t (bs "deny") = true -> verb [t] actDeny [] zeroValue
| v_deny_reason t s :
    is_word t (bs "deny") = true -> kind_of s = tokString -> verb [t; s] actDeny [] (strValue (text s))
| v_allow t : is_word t (bs "allow") = true -> verb [t] actAllow [] zeroValue
| v_set t n a l v :
    is_word t (bs "set") = true -> kind_of n = tokIdent -> (length (text n) <= maxTagNameLen)%nat ->
    kind_of a = tokAssign -> literal l v -> verb [t; n; a; l] actSet (text n) v.

Inductive rule_gram (F : fieldTable) : list token -> srule -> Prop :=
| rg_plain ts a n v : verb ts a n v -> rule_gram F ts (mkSrule a n v None)
| rg_guard ts a n v i us e :
    verb ts a n v -> is_word i (bs "if") = true -> gram F LOr us e ->
    rule_gram F (ts ++ i :: us) (mkSrule a n v (Some e)).

(** One rule per line: a rule is followed by a newline or the end of file. *)
Inductive prog_gram (F : fieldTable) : list token -> list srule -> Prop :=
| pg_end t : kind_of t = tokEOF -> prog_gram F [t] []
| pg_newline t ts rs : kind_of t = tokNewline -> prog_gram F ts rs -> prog_gram F (t :: ts) rs
| pg_rule us t ts r rs :
    rule_gram F us r -> kind_of t = tokNewline \/ kind_of t = tokEOF ->
    prog_gram F (t :: ts) rs -> prog_gram F (us ++ t :: ts) (r :: rs).

(** [translated F cs d s r]: [r] is the compiled form of [s], its guard
    well-kinded and within [d] operand slots. *)
Definition translated (F : fieldTable) (cs : list value) (d : Z) (s : srule) (r : rule) : Prop :=
  act r = s_act s /\ rname r = s_name s /\ rarg r = s_arg s /\
  match s_guard s with
  | None => cond r = []
  | Some e => emits cs 0 e (cond r) /\ wt F e kindBool /\ Z.of_nat (slots e) <= d
  end.

Lemma translated_mono F cs cs' d d' s r :
  d <= d' -> translated F cs d s r -> translated F (cs ++ cs') d' s r.
Proof.
  unfold translated. intros L (? & ? & ? & G). split_and!; auto.
  destruct (s_guard s); [|done]. destruct G as (? & ? & ?). split_and!; [by apply emits_mono|done|lia].
Qed.
