(* ===== verification/PolicyCheck.v ===== *)
(** * The compiler is sound

    Every guard [Compile] accepts is a sentence of the grammar, well-kinded,
    and compiled to the code of exactly that sentence, with the operand depth
    it really needs; and compilation always ends. *)
From Stdlib Require Import String.
From stdpp Require Import base gmap list.
From Stdlib Require Import ZArith Lia.
From S2P Require Import Prelude PolicyLex PolicyVM PolicyCompile PolicyRef.
Open Scope Z_scope.
Open Scope policy_scope.

Definition cur (p : parser) : token := nth (pos p) (toks p) eofToken.

(** ** The parser object *)

(** The token list ends with its only end of file, the position is on a token,
    and the code and the constants are few enough for 32-bit operands. *)
Record wfp (p : parser) : Prop := {
  w_eof : eof_ended (toks p);
  w_pos : (pos p < length (toks p))%nat;
  w_code : (length (code p) <= 2 * pos p)%nat;
  w_consts : (length (pconsts p) <= pos p)%nat;
  w_small : Z.of_nat (length (toks p)) < 2 ^ 29 }.

(** Everything an expression leaves alone. *)
Definition same_frame (p p' : parser) : Prop :=
  hook p' = hook p /\ toks p' = toks p /\ fields p' = fields p /\
  prules p' = prules p /\ progDepth p' = progDepth p.

(** [consumed p p' ts]: the position moved over exactly the tokens [ts]. *)
Definition consumed (p p' : parser) (ts : list token) : Prop :=
  toks p' = toks p /\ (pos p' = pos p + length ts)%nat /\ (pos p' < length (toks p))%nat /\
  drop (pos p) (toks p) = ts ++ drop (pos p') (toks p).

(** What compiling an expression does to the parser. *)
Record compiled (lvl : level) (p p' : parser) (e : expr) (k : kind) : Prop := {
  c_code : exists c, code p' = code p ++ c /\ emits (pconsts p') (length (code p)) e c;
  c_consts : exists cs, pconsts p' = pconsts p ++ cs /\ (length cs <= pos p' - pos p)%nat;
  c_wt : wt (fields p) e k;
  c_depth : depth p' = depth p + 1;
  c_max : maxDepth p' = Z.max (maxDepth p) (depth p + Z.of_nat (slots e));
  c_frame : same_frame p p';
  c_gram : exists ts, consumed p p' ts /\ gram (fields p) lvl ts e }.

Lemma consumed_trans p q r ts us : consumed p q ts -> consumed q r us -> consumed p r (ts ++ us).
Proof.
  intros (T1 & P1 & L1 & D1) (T2 & P2 & L2 & D2). rewrite T1 in *.
  repeat split; [by rewrite T2|rewrite length_app; lia|done|].
  by rewrite D1, D2, app_assoc.
Qed.

Lemma same_frame_trans p q r : same_frame p q -> same_frame q r -> same_frame p r.
Proof. unfold same_frame. intuition congruence. Qed.

Lemma same_frame_refl p : same_frame p p.
Proof. done. Qed.

Lemma compiled_wfp lvl p p' e k : wfp p -> compiled lvl p p' e k -> wfp p'.
Proof.
  intros [W1 W2 W3 W4 W5] [(c & C1 & C2) (cs & K1 & K2) _ _ _ F (ts & (T & P & L & _) & G)].
  pose proof (gram_code_length _ _ _ _ _ _ _ G C2).
  split; rewrite ?T, ?C1, ?K1, ?length_app; auto; lia.
Qed.

(** The current token, when it is not the end of file, is followed by others. *)
Lemma not_last p : wfp p -> kind_of (cur p) <> tokEOF -> (S (pos p) < length (toks p))%nat.
Proof.
  intros [(us & t & E & Ht & _) L _ _ _] N. unfold cur in N. rewrite E in *.
  rewrite length_app in *. cbn in *. destruct (decide (pos p = length us)) as [Eq|]; [|lia].
  rewrite Eq, nth_middle in N. done.
Qed.

Lemma advance_ok p : wfp p -> kind_of (cur p) <> tokEOF ->
  advance p = POk (cur p) (set_pos p (S (pos p))) /\ consumed p (set_pos p (S (pos p))) [cur p] /\
  wfp (set_pos p (S (pos p))).
Proof.
  intros W N. pose proof (not_last p W N). unfold advance. rewrite decide_True by lia.
  destruct W. split_and!; [done| |split; cbn; auto; lia].
  split_and!; cbn; try done; [lia|].
  unfold cur. rewrite (drop_S _ (nth (pos p) (toks p) eofToken)); [done|].
  destruct (nth_lookup_or_length (toks p) (pos p) eofToken); [done|lia].
Qed.

(** Reading a monadic run backwards. *)
Lemma pbind_ok {A B} (m : P A) (k : A -> P B) p b p' :
  pbind m k p = POk b p' -> exists a q, m p = POk a q /\ k a q = POk b p'.
Proof. unfold pbind. destruct (m p) as [a q| |]; try done. eauto. Qed.

Lemma peek_bind {B} (k : token -> P B) p : pbind peek k p = k (cur p) p.
Proof. reflexivity. Qed.

Ltac pinv H :=
  match type of H with
  | pbind ?m ?k ?p = POk _ _ =>
      let a := fresh "a" in let q := fresh "q" in let E := fresh "E" in
      apply pbind_ok in H; destruct H as (a & q & E & H)
  end.

(** ** Primaries *)

(** An operand of one instruction: advance, emit, count a slot. *)
Lemma find_const_spec v cs i j : find_const v cs i = Some j ->
  exists n c, j = i + Z.of_nat n /\ cs !! n = Some c /\ same_const v c = true.
Proof.
  revert i. induction cs as [|c cs IH]; intros i H; [done|]. cbn in H.
  destruct (same_const v c) eqn:E.
  - injection H as <-. exists 0%nat, c. split_and!; [lia|done|done].
  - destruct (IH _ H) as (n & d & -> & ? & ?). exists (S n), d. split_and!; [lia|done|done].
Qed.

Lemma same_const_eq v c : same_const v c = true -> c = v.
Proof.
  unfold same_const. intros H. repeat (apply andb_prop in H; destruct H as [H ?]).
  repeat match goal with
  | E : bool_decide _ = true |- _ => apply bool_decide_eq_true in E
  | E : (_ =? _) = true |- _ => apply Z.eqb_eq in E
  | E : Bool.eqb _ _ = true |- _ => apply Bool.eqb_prop in E
  | E : beqb _ _ = true |- _ => apply beqb_eq in E
  end. destruct v, c; cbn in *; congruence.
Qed.

Lemma i32_id z : - two31 <= z < two31 -> i32 z = z.
Proof. intros H. unfold i32. rewrite Z.mod_small; [lia|]. widths. lia. Qed.

Lemma constIndex_spec v p i p' : constIndex v p = POk i p' ->
  Z.of_nat (length (pconsts p)) < 2 ^ 31 ->
  exists n cs, i = Z.of_nat n /\ p' = set_consts p (pconsts p ++ cs) /\ (length cs <= 1)%nat /\
    (pconsts p ++ cs) !! n = Some v.
Proof.
  unfold constIndex. intros H L. destruct (find_const v (pconsts p) 0) as [j|] eqn:E.
  - injection H as <- <-. apply find_const_spec in E as (n & c & -> & Hn & Hc).
    apply same_const_eq in Hc as ->. pose proof (lookup_lt_Some _ _ _ Hn).
    exists n, []. rewrite app_nil_r. split_and!; [rewrite i32_id; widths; lia|by destruct p|cbn; lia|done].
  - injection H as <- <-. exists (length (pconsts p)), [v].
    split_and!; [rewrite i32_id; widths; lia|done|cbn; lia|].
    by rewrite list_lookup_middle.
Qed.

(** The state after an operand was emitted. *)
Lemma operand_compiled lvl p q e k o a cs ts :
  wfp p -> consumed p q ts ->
  q = set_pos (set_consts p (pconsts p ++ cs)) (pos q) ->
  (length cs <= length ts)%nat ->
  emits (pconsts p ++ cs) (length (code p)) e [mkInstr o a] -> slots e = 1%nat ->
  wt (fields p) e k -> gram (fields p) lvl ts e ->
  forall p', (emit o a ;;ₚ parser_push 1 ;;ₚ pret k) q = POk k p' -> compiled lvl p p' e k.
Proof.
  intros W C Q LC E S T G p' H. injection H as <-. rewrite Q. destruct C as (C1 & C2 & C3 & C4).
  split; cbn; auto; try done.
  - eexists; eauto.
  - exists cs. split; [done|lia].
  - rewrite S. destruct (Z.ltb_spec (maxDepth p) (depth p + 1)); lia.
  - exists ts. split; [|done]. split_and!; auto.
Qed.

Lemma expect_ok k p t p' : wfp p -> k <> tokEOF -> expect k p = POk t p' ->
  t = cur p /\ kind_of t = k /\ p' = set_pos p (S (pos p)) /\ consumed p p' [t] /\ wfp p'.
Proof.
  intros W N H. unfold expect in H. rewrite peek_bind in H. destruct (decide (kind_of (cur p) = k)) as [K|]; [|done].
  destruct (advance_ok p W) as (E & C & W'); [congruence|]. rewrite E in H. by injection H as <- <-.
Qed.

Lemma compile_const_ok v p k p' :
  wfp p -> kind_of (cur p) <> tokEOF -> wf_value v -> gram (fields p) LPrim [cur p] (ELit v) ->
  compile_const v p = POk k p' -> compiled LPrim p p' (ELit v) k.
Proof.
  intros W N V G H. destruct (advance_ok p W N) as (E & C & W').
  unfold compile_const in H. unfold pbind at 1 in H. rewrite E in H. pinv H.
  apply constIndex_spec in E0 as (n & cs & -> & -> & L & Hn);
    [|destruct W'; cbn in *; lia].
  assert (k = vk v) as -> by (by injection H).
  refine (operand_compiled LPrim p _ (ELit v) _ _ _ cs [cur p] W _ eq_refl L _ eq_refl _ G _ H).
  - destruct C as (C1 & C2 & C3 & C4). by split_and!.
  - by apply em_lit.
  - by apply wt_lit.
Qed.

Lemma list_loop_ok f open elems p l p' :
  wfp p -> (length elems <= maxListElements)%nat -> list_loop f open elems p = POk l p' ->
  exists ts l', l = elems ++ l' /\ consumed p p' ts /\ list_tokens ts l' /\
    p' = set_pos p (pos p') /\ (length l <= maxListElements)%nat /\ wfp p'.
Proof.
  revert elems p. induction f as [|f IH]; intros elems p W L H; [done|]. cbn [list_loop] in H.
  rewrite peek_bind in H.
  destruct (decide (kind_of (cur p) = tokRBracket)) as [K|K].
  - destruct (advance_ok p W) as (E & C & W'); [congruence|]. unfold pbind in H. rewrite E in H.
    injection H as <- <-. exists [cur p], []. rewrite app_nil_r. split_and!; auto. by apply lt_end.
  - pinv H. apply expect_ok in E as (-> & K2 & -> & C & W'); [|done|done].
    destruct (decide (maxListElements <= length elems)%nat); [done|].
    rewrite peek_bind in H.
    set (q := set_pos p (S (pos p))) in *.
    destruct (decide (kind_of (cur q) = tokComma)) as [K3|K3].
    + destruct (advance_ok q W') as (E & C' & W2); [congruence|]. unfold pbind in H. rewrite E in H.
      apply IH in H as (ts & l' & -> & C2 & T & Q & L2 & W3); [|done|rewrite length_app; cbn; lia].
      exists (cur p :: cur q :: ts), (text (cur p) :: l').
      split_and!; [by rewrite <- app_assoc| |by apply lt_comma|done|done|done].
      exact (consumed_trans _ _ _ _ _ C (consumed_trans _ _ _ _ _ C' C2)).
    + apply IH in H as (ts & l' & -> & C2 & T & Q & L2 & W3); [|done|rewrite length_app; cbn; lia].
      exists (cur p :: ts), (text (cur p) :: l').
      split_and!; [by rewrite <- app_assoc| |by apply lt_elem|done|done|done].
      exact (consumed_trans _ _ _ _ _ C C2).
Qed.

Lemma compileList_ok f p k p' :
  wfp p -> kind_of (cur p) = tokLBracket -> compileList f p = POk k p' ->
  exists l, compiled LPrim p p' (ELit (listValue l)) k.
Proof.
  intros W K H. destruct (advance_ok p W) as (E & C & W'); [congruence|].
  unfold compileList in H. unfold pbind at 1 in H. rewrite E in H. pinv H.
  apply list_loop_ok in E0 as (ts & l & -> & C2 & T & Q & L & W2); [|done|cbn; lia].
  exists l. pinv H. injection E0 as <- <-. cbn [app] in *.
  assert (k = kindList) as -> by (by injection H).
  pose proof (consumed_trans _ _ _ _ _ C C2) as CC.
  set (q' := set_consts q _) in H.
  assert (Z.of_nat (length (pconsts q')) - 1 = Z.of_nat (length (pconsts p))) as EL.
  { unfold q'. cbn. rewrite length_app, Q. cbn. lia. }
  unfold pbind at 1 in H. cbn beta in H. rewrite EL, i32_id in H
    by (destruct W; widths; lia).
  refine (operand_compiled LPrim p q' (ELit (listValue l)) _ _ _ [listValue l] _ W _ _ _ _ eq_refl _ _ _ H).
  - destruct CC as (C1' & C2' & C3' & C4'). by split_and!.
  - unfold q'. rewrite Q. by destruct p.
  - destruct CC as (_ & CC & _). cbn. lia.
  - apply em_lit. by rewrite list_lookup_middle.
  - by apply (wt_lit (fields p) (listValue l)).
  - by apply g_list.
Qed.

(** ** Expressions *)

Definition spec (lvl : level) (m : P kind) : Prop :=
  forall p k p', wfp p -> m p = POk k p' -> exists e, compiled lvl p p' e k.

(** A loop goes on from an expression already compiled. *)
Definition loop_spec (lvl : level) (m : kind -> P kind) : Prop :=
  forall p0 p e k k' p', wfp p0 -> compiled lvl p0 p e k -> m k p = POk k' p' ->
  exists e', compiled lvl p0 p' e' k'.

Lemma compiled_level lvl lvl' p p' e k :
  (forall ts, gram (fields p) lvl ts e -> gram (fields p) lvl' ts e) ->
  compiled lvl p p' e k -> compiled lvl' p p' e k.
Proof. intros L [? ? ? ? ? ? (ts & ? & ?)]. split; eauto. Qed.

Lemma is_word_kind t w : is_word t w = true -> kind_of t = tokIdent /\ text t = w.
Proof.
  unfold is_word. intros H. apply andb_prop in H as [H1 H2].
  apply bool_decide_eq_true in H1. by apply beqb_eq in H2.
Qed.

(** The state in which the right operand of a connective is compiled. *)
Definition circuit_start (jop : opcode) (p : parser) : parser :=
  set_depth (set_code (set_pos p (S (pos p))) ((code p ++ [mkInstr jop 0]) ++ [mkInstr opPop 0]))
    (depth p - 1) (maxDepth p).

(** The state after the jump over it was patched. *)
Definition circuit_end (jmp : nat) (p : parser) : parser :=
  set_code p (alter (fun i => mkInstr (op i) (i32 (Z.of_nat (length (code p))))) jmp (code p)).

Lemma circuit_start_wfp jop p : wfp p -> kind_of (cur p) <> tokEOF ->
  wfp (circuit_start jop p) /\ consumed p (circuit_start jop p) [cur p].
Proof.
  intros W N. destruct (advance_ok p W N) as (_ & C & [W1 W2 W3 W4 W5]). cbn in *.
  pose proof (w_code _ W). split; [split; cbn; rewrite ?length_app; cbn; auto; lia|].
  destruct C as (C1 & C2 & C3 & C4). by split_and!.
Qed.

Lemma circuit_ok lvl sub jop (mk : expr -> expr -> expr) p0 p p2 e1 e2 :
  wfp p0 -> compiled lvl p0 p e1 kindBool -> kind_of (cur p) <> tokEOF ->
  compiled sub (circuit_start jop p) p2 e2 kindBool ->
  (forall cs b c1 c2, emits cs b e1 c1 -> emits cs (b + length c1 + 2) e2 c2 ->
     emits cs b (mk e1 e2)
       (c1 ++ mkInstr jop (Z.of_nat (b + length c1 + 2 + length c2)) :: mkInstr opPop 0 :: c2)) ->
  wt (fields p0) (mk e1 e2) kindBool ->
  slots (mk e1 e2) = Nat.max (slots e1) (slots e2) ->
  (forall ts1 ts2, gram (fields p0) lvl ts1 e1 -> gram (fields p0) sub ts2 e2 ->
     gram (fields p0) lvl (ts1 ++ cur p :: ts2) (mk e1 e2)) ->
  compiled lvl p0 (circuit_end (length (code p)) p2) (mk e1 e2) kindBool.
Proof.
  intros W0 C1 N C2 HE HT HS HG. pose proof (compiled_wfp _ _ _ _ _ W0 C1) as W.
  destruct (circuit_start_wfp jop p W N) as [W1 C]. pose proof (compiled_wfp _ _ _ _ _ W1 C2) as W2.
  destruct C1 as [(c1 & A1 & A2) (cs1 & B1 & B2) _ D1 M1 F1 (ts1 & G1 & G1')].
  destruct C2 as [(c2 & A3 & A4) (cs2 & B3 & B4) _ D2 M2 F2 (ts2 & G2 & G2')]. cbn in *.
  assert (fields p = fields p0) as EF by apply F1. rewrite EF in *.
  pose proof (consumed_trans _ _ _ _ _ G1 (consumed_trans _ _ _ _ _ C G2)) as CC. cbn in CC.
  set (base := length (code p0)) in *.
  assert (length (code p2) = base + length c1 + 2 + length c2)%nat as LC.
  { rewrite A3, A1, !length_app. cbn. lia. }
  split; cbn.
  - exists (c1 ++ mkInstr jop (Z.of_nat (base + length c1 + 2 + length c2)) :: mkInstr opPop 0 :: c2). split.
    + rewrite LC, i32_id by (destruct W2; widths; lia).
      rewrite A3, A1. rewrite <- !app_assoc. rewrite (app_assoc (code p0) c1), length_app.
      rewrite alter_app_r_alt by (rewrite length_app; lia).
      rewrite length_app, Nat.sub_diag. cbn. by rewrite <- app_assoc.
    + apply HE.
      * rewrite B3, B1. rewrite <- app_assoc, app_assoc. apply emits_mono. by rewrite <- B1.
      * rewrite !length_app in A4. cbn in A4. rewrite A1, length_app in A4.
        by replace (base + length c1 + 2)%nat with (base + length c1 + 1 + 1)%nat by lia.
  - exists (cs1 ++ cs2). split; [by rewrite B3, B1, app_assoc|]. rewrite length_app.
    destruct G1 as (_ & ? & _), G2 as (_ & ? & _). cbn in *. lia.
  - done.
  - lia.
  - rewrite M2, M1, HS. lia.
  - refine (same_frame_trans _ _ _ F1 (same_frame_trans _ p2 _ F2 _)). done.
  - exists (ts1 ++ cur p :: ts2). split; [|by apply HG].
    destruct CC as (CC1 & CC2 & CC3 & CC4). by split_and!.
Qed.

Lemma advance_bind {B} (k : token -> P B) p : wfp p -> kind_of (cur p) <> tokEOF ->
  pbind advance k p = k (cur p) (set_pos p (S (pos p))).
Proof. intros W N. destruct (advance_ok p W N) as (E & _). unfold pbind. by rewrite E. Qed.

Lemma or_loop_ok f : spec LAnd (compileAnd f) -> loop_spec LOr (or_loop f) -> loop_spec LOr (or_loop (S f)).
Proof.
  intros IHa IHl p0 p e k k' p' W0 C H. pose proof (compiled_wfp _ _ _ _ _ W0 C) as W.
  cbn [or_loop] in H. rewrite peek_bind in H.
  destruct (is_word (cur p) _) eqn:Ew; cbn [negb] in H; [|injection H as <- <-; eauto].
  destruct (decide (k <> kindBool)) as [|K]; [done|]. apply dec_stable in K as ->.
  assert (kind_of (cur p) <> tokEOF) as N by (apply is_word_kind in Ew as [Ew _]; congruence).
  rewrite advance_bind in H by done.
  change (pbind (compileAnd f) (fun rk => if decide (rk <> kindBool) then perr (cur p) (OrNeedsConditions rk)
    else (patch (length (code p)) ;;ₚ or_loop f kindBool)) (circuit_start opJumpIfTrue p) = POk k' p') in H.
  pinv H. destruct (decide (a <> kindBool)) as [|K]; [done|]. apply dec_stable in K as ->.
  change (or_loop f kindBool (circuit_end (length (code p)) q) = POk k' p') in H.
  destruct (circuit_start_wfp opJumpIfTrue p W N) as [W1 _].
  destruct (IHa _ _ _ W1 E) as [e2 C2].
  eapply IHl; [exact W0| |exact H].
  apply (circuit_ok LOr LAnd opJumpIfTrue EOr p0 p q e e2); auto.
  - intros. by apply em_or.
  - apply wt_or; [apply (c_wt _ _ _ _ _ C)|].
    pose proof (c_wt _ _ _ _ _ C2) as T. cbn in T.
    by replace (fields p0) with (fields p) by apply (c_frame _ _ _ _ _ C).
  - intros. by apply g_or.
Qed.

Lemma and_loop_ok f : spec LNot (compileNot f) -> loop_spec LAnd (and_loop f) -> loop_spec LAnd (and_loop (S f)).
Proof.
  intros IHa IHl p0 p e k k' p' W0 C H. pose proof (compiled_wfp _ _ _ _ _ W0 C) as W.
  cbn [and_loop] in H. rewrite peek_bind in H.
  destruct (is_word (cur p) _) eqn:Ew; cbn [negb] in H; [|injection H as <- <-; eauto].
  destruct (decide (k <> kindBool)) as [|K]; [done|]. apply dec_stable in K as ->.
  assert (kind_of (cur p) <> tokEOF) as N by (apply is_word_kind in Ew as [Ew _]; congruence).
  rewrite advance_bind in H by done.
  change (pbind (compileNot f) (fun rk => if decide (rk <> kindBool) then perr (cur p) (AndNeedsConditions rk)
    else (patch (length (code p)) ;;ₚ and_loop f kindBool)) (circuit_start opJumpIfFalse p) = POk k' p') in H.
  pinv H. destruct (decide (a <> kindBool)) as [|K]; [done|]. apply dec_stable in K as ->.
  change (and_loop f kindBool (circuit_end (length (code p)) q) = POk k' p') in H.
  destruct (circuit_start_wfp opJumpIfFalse p W N) as [W1 _].
  destruct (IHa _ _ _ W1 E) as [e2 C2].
  eapply IHl; [exact W0| |exact H].
  apply (circuit_ok LAnd LNot opJumpIfFalse EAnd p0 p q e e2); auto.
  - intros. by apply em_and.
  - apply wt_and; [apply (c_wt _ _ _ _ _ C)|].
    pose proof (c_wt _ _ _ _ _ C2) as T. cbn in T.
    by replace (fields p0) with (fields p) by apply (c_frame _ _ _ _ _ C).
  - intros. by apply g_and.
Qed.

(** An expression compiled after one token was passed over. *)
Lemma compiled_after lvl p p' e k : wfp p -> kind_of (cur p) <> tokEOF ->
  compiled lvl (set_pos p (S (pos p))) p' e k ->
  (exists ts, consumed p p' (cur p :: ts) /\ gram (fields p) lvl ts e).
Proof.
  intros W N [_ _ _ _ _ _ (ts & C & G)]. destruct (advance_ok p W N) as (_ & C0 & _).
  exists ts. split; [exact (consumed_trans _ _ _ _ _ C0 C)|exact G].
Qed.

Lemma compileNot_ok f : spec LNot (compileNot f) -> spec LCmp (compileComparison f) -> spec LNot (compileNot (S f)).
Proof.
  intros IHn IHc p k p' W H. cbn [compileNot] in H. rewrite peek_bind in H.
  destruct (is_word (cur p) _) eqn:Ew.
  - assert (kind_of (cur p) <> tokEOF) as N by (apply is_word_kind in Ew as [Ew' _]; congruence).
    rewrite advance_bind in H by done. pinv H.
    destruct (decide (a <> kindBool)) as [|K]; [done|]. apply dec_stable in K as ->.
    injection H as <- <-. destruct (advance_ok p W N) as (_ & _ & W').
    destruct (IHn _ _ _ W' E) as [e C]. exists (ENot e).
    destruct (compiled_after _ _ _ _ _ W N C) as (ts & CT & G).
    destruct C as [(c & A1 & A2) (cs & B1 & B2) T D Mx Fr _]. cbn in *.
    split; cbn; auto.
    + exists (c ++ [mkInstr opNot 0]). split; [by rewrite A1, app_assoc|by apply em_not].
    + exists cs. split; [done|lia].
    + by apply wt_not.
    + exists (cur p :: ts). split; [|by apply g_not].
      destruct CT as (? & ? & ? & ?). by split_and!.
  - destruct (IHc _ _ _ W H) as [e C]. exists e. eapply compiled_level, C. intros. by apply g_not_cmp.
Qed.

Lemma comparison_op_cmp t o : comparison_op t = Some o -> is_cmp o /\ kind_of t <> tokEOF.
Proof.
  unfold comparison_op, wordOps, is_cmp. intros H.
  destruct (kind_of t); try discriminate H; repeat case_match; try discriminate H;
    injection H as <-; split; try discriminate; set_solver.
Qed.

Lemma compileComparison_ok f : spec LPrim (compilePrimary f) -> spec LCmp (compileComparison (S f)).
Proof.
  intros IH p k p' W H. cbn [compileComparison] in H. pinv H. rename a into lk.
  destruct (IH _ _ _ W E) as [e1 C1]. rewrite peek_bind in H.
  pose proof (compiled_wfp _ _ _ _ _ W C1) as Wq.
  destruct (comparison_op (cur q)) as [o|] eqn:Eo.
  2: { injection H as <- <-. exists e1. eapply compiled_level, C1. intros. by apply g_cmp_prim. }
  apply comparison_op_cmp in Eo as Eo'. destruct Eo' as [Ho N].
  rewrite advance_bind in H by done. pinv H. rename a into rk.
  destruct (check_operands o lk rk) eqn:Ek; [done|]. injection H as <- <-.
  destruct (advance_ok q Wq N) as (_ & _ & W').
  destruct (IH _ _ _ W' E0) as [e2 C2]. exists (ECmp o e1 e2).
  destruct (compiled_after _ _ _ _ _ Wq N C2) as (ts2 & CT & G2).
  destruct C1 as [(c1 & A1 & A2) (cs1 & B1 & B2) T1 D1 M1 F1 (ts1 & G1 & G1')].
  destruct C2 as [(c2 & A3 & A4) (cs2 & B3 & B4) T2 D2 M2 F2 _]. cbn in *.
  assert (fields q = fields p) as EF by apply F1. rewrite EF in *.
  pose proof (consumed_trans _ _ _ _ _ G1 CT) as CC.
  split; cbn.
  - exists (c1 ++ c2 ++ [mkInstr o 0]). split; [by rewrite A3, A1, <- !app_assoc|].
    apply em_cmp; [done| |].
    + rewrite B3, B1, <- app_assoc, app_assoc. apply emits_mono. by rewrite <- B1.
    + by rewrite A1, length_app in A4.
  - exists (cs1 ++ cs2). split; [by rewrite B3, B1, app_assoc|]. rewrite length_app.
    destruct G1 as (_ & ? & _), CC as (_ & CP & _). rewrite length_app in CP. cbn in CP. lia.
  - by eapply wt_cmp.
  - lia.
  - rewrite M2, M1. lia.
  - exact (same_frame_trans _ _ _ F1 F2).
  - exists (ts1 ++ cur q :: ts2). split; [|by apply g_cmp].
    destruct CC as (CC1 & CC2 & CC3 & CC4). by split_and!.
Qed.

Lemma compilePrimary_ok f : spec LOr (compileOr f) -> spec LPrim (compilePrimary (S f)).
Proof.
  intros IH p k p' W H. cbn [compilePrimary] in H. rewrite peek_bind in H.
  destruct (kind_of (cur p)) eqn:K; try done.
  - (* identifier *)
    destruct (beqb (text (cur p)) _) eqn:Bt; [|destruct (beqb (text (cur p)) (bs "false")) eqn:Bf]; cbn [orb] in H.
    + exists (ELit (boolValue true)). eapply compile_const_ok; eauto; [congruence|by split; [apply Nat.le_0_l|]|].
      apply g_true. unfold is_word. by rewrite bool_decide_true, Bt by done.
    + exists (ELit (boolValue false)). eapply compile_const_ok; eauto; [congruence|by split; [apply Nat.le_0_l|]|].
      apply g_false. unfold is_word. by rewrite bool_decide_true, Bf by done.
    + destruct (fields p !! text (cur p)) as [s|] eqn:Es; [|done].
      destruct (advance_ok p W) as (_ & C & _); [congruence|].
      rewrite advance_bind in H by (done || congruence).
      assert (k = fkind s) as -> by (by injection H).
      exists (EField (i32 (fidx s))).
      refine (operand_compiled LPrim p _ (EField (i32 (fidx s))) _ _ _ [] [cur p] W _ _ _ _ eq_refl _ _ _ H).
      * done.
      * rewrite app_nil_r. by destruct p.
      * cbn. lia.
      * apply em_field.
      * by eapply wt_field.
      * by apply g_field.
  - exists (ELit (numValue (num (cur p)))). eapply compile_const_ok; eauto; [congruence|by split; [apply Nat.le_0_l|]|by apply g_number].
  - exists (ELit (strValue (text (cur p)))). eapply compile_const_ok; eauto; [congruence|by split; [apply Nat.le_0_l|]|by apply g_string].
  - (* parenthesis *)
    assert (kind_of (cur p) <> tokEOF) as N by congruence.
    rewrite advance_bind in H by done. pinv H. pinv H. injection H as <- <-.
    destruct (advance_ok p W N) as (_ & _ & W').
    destruct (IH _ _ _ W' E) as [e C]. exists e.
    destruct (compiled_after _ _ _ _ _ W N C) as (ts & CT & G).
    apply expect_ok in E0 as (-> & K2 & -> & C2 & _); [|by eapply compiled_wfp|done].
    pose proof (consumed_trans _ _ _ _ _ CT C2) as CC.
    destruct C as [(c & A1 & A2) (cs & B1 & B2) T D Mx Fr _]. cbn in *.
    split; cbn; auto.
    + eauto.
    + exists cs. split; [done|]. lia.
    + exists (cur p :: ts ++ [cur q]). split; [done|]. by apply g_paren.
  - destruct (compileList_ok f p k p' W K H) as [l C]. eauto.
Qed.

(** Every level, at every fuel. *)
Lemma levels_ok f :
  (spec LOr (compileOr f) /\ loop_spec LOr (or_loop f)) /\
  (spec LAnd (compileAnd f) /\ loop_spec LAnd (and_loop f)) /\
  spec LNot (compileNot f) /\ spec LCmp (compileComparison f) /\ spec LPrim (compilePrimary f).
Proof.
  induction f as [|f ((Ho & Hol) & (Ha & Hal) & Hn & Hc & Hp)].
  { split_and!; intros ? *; done. }
  split_and!.
  - intros p k p' W H. cbn [compileOr] in H. pinv H. destruct (Ha _ _ _ W E) as [e C].
    eapply Hol; [done| |done]. eapply compiled_level, C. intros. by apply g_or_and.
  - by apply or_loop_ok.
  - intros p k p' W H. cbn [compileAnd] in H. pinv H. destruct (Hn _ _ _ W E) as [e C].
    eapply Hal; [done| |done]. eapply compiled_level, C. intros. by apply g_and_not.
  - by apply and_loop_ok.
  - by apply compileNot_ok.
  - by apply compileComparison_ok.
  - by apply compilePrimary_ok.
Qed.

(** ** Rules *)

Lemma compileCondition_ok p c p' : wfp p -> compileCondition p = POk c p' ->
  exists e ts cs, consumed p p' ts /\ gram (fields p) LOr ts e /\ wt (fields p) e kindBool /\
    emits (pconsts p') 0 e c /\ pconsts p' = pconsts p ++ cs /\
    progDepth p' = Z.max (progDepth p) (Z.of_nat (slots e)) /\
    hook p' = hook p /\ fields p' = fields p /\ prules p' = prules p /\ wfp p'.
Proof.
  intros W H. unfold compileCondition in H. pinv H. rewrite peek_bind in H.
  destruct (decide (a <> kindBool)) as [|K]; [done|]. apply dec_stable in K as ->.
  set (p0 := set_depth (set_code p []) 0 0) in E.
  assert (wfp p0) as W0 by (destruct W; split; cbn; auto; lia).
  destruct (proj1 (proj1 (levels_ok _)) _ _ _ W0 E) as [e C].
  pose proof (compiled_wfp _ _ _ _ _ W0 C) as Wq.
  destruct C as [(c' & A1 & A2) (cs & B1 & _) T _ Mx (F1 & F2 & F3 & F4 & F5) (ts & CT & G)]. cbn in *.
  destruct CT as (T1 & T2 & T3 & T4). cbn in *.
  exists e, ts, cs. pose proof (slots_pos e).
  destruct (Z.ltb_spec (progDepth q) (maxDepth q)); injection H as <- <-; cbn;
    rewrite ?A1; split_and!; auto; try lia;
    try (by split_and!); destruct Wq; split; cbn; auto; lia.
Qed.

Ltac word_kind H := let K := fresh "K" in pose proof (proj1 (is_word_kind _ _ H)) as K.

Lemma word_of t w : kind_of t = tokIdent -> beqb (text t) w = true -> is_word t w = true.
Proof. intros K B. unfold is_word. by rewrite bool_decide_true, B. Qed.

Lemma parseLiteral_ok p v p' : wfp p -> parseLiteral p = POk v p' ->
  literal (cur p) v /\ p' = set_pos p (pos p') /\ consumed p p' [cur p] /\ wfp p'.
Proof.
  intros W H. unfold parseLiteral in H. rewrite peek_bind in H.
  assert (forall w, kind_of (cur p) <> tokEOF -> (advance ;;ₚ pret w) p = POk v p' ->
    w = v /\ p' = set_pos p (pos p') /\ consumed p p' [cur p] /\ wfp p') as A.
  { intros w N Hw. rewrite advance_bind in Hw by done. injection Hw as <- <-.
    destruct (advance_ok p W N) as (_ & ? & ?). by split_and!. }
  destruct (kind_of (cur p)) eqn:K; try done.
  - destruct (beqb (text (cur p)) (bs "true")) eqn:Bt; [|destruct (beqb (text (cur p)) (bs "false")) eqn:Bf; [|done]].
    all: apply A in H as (<- & ?); [|congruence].
    + split; [|done]. apply lit_true, word_of; auto.
    + split; [|done]. apply lit_false, word_of; auto.
  - apply A in H as (<- & ?); [|congruence]. split; [|done]. by apply lit_number.
  - apply A in H as (<- & ?); [|congruence]. split; [|done]. by apply lit_string.
Qed.

Lemma parse_verb_ok p a n v p' : wfp p -> kind_of (cur p) = tokIdent ->
  parse_verb (cur p) p = POk (a, n, v) p' ->
  exists ts, verb ts a n v /\ p' = set_pos p (pos p') /\ consumed p p' ts /\ wfp p'.
Proof.
  intros W K H. assert (kind_of (cur p) <> tokEOF) as N by congruence.
  destruct (advance_ok p W N) as (_ & C & W'). unfold parse_verb in H. set (q := set_pos p (S (pos p))) in *.
  destruct (beqb (text (cur p)) (bs "deny")) eqn:B1.
  { rewrite advance_bind in H by done. fold q in H. rewrite peek_bind in H.
    destruct (decide (kind_of (cur q) = tokString)) as [K2|K2].
    - rewrite advance_bind in H by (done || congruence). injection H as <- <- <- <-.
      destruct (advance_ok q W') as (_ & C2 & W2); [congruence|].
      exists [cur p; cur q]. split_and!; [apply v_deny_reason; auto using word_of|done| |done].
      exact (consumed_trans _ _ _ _ _ C C2).
    - injection H as <- <- <- <-. exists [cur p]. split_and!; [apply v_deny; auto using word_of|done..]. }
  destruct (beqb (text (cur p)) (bs "allow")) eqn:B2.
  { rewrite advance_bind in H by done. injection H as <- <- <- <-.
    exists [cur p]. split_and!; [apply v_allow; auto using word_of|done..]. }
  destruct (beqb (text (cur p)) (bs "set")) eqn:B3; [|done].
  rewrite advance_bind in H by done. fold q in H. pinv H.
  apply expect_ok in E as (-> & K2 & -> & C2 & W2); [|done|done].
  destruct (decide (maxTagNameLen < length (text (cur q)))%nat); [done|].
  pinv H. apply expect_ok in E as (-> & K3 & -> & C3 & W3); [|done|done].
  pinv H. apply parseLiteral_ok in E as (L & Q & C4 & W4); [|done]. injection H as <- <- <- <-.
  eexists. split_and!; [eapply v_set; eauto using word_of; lia|exact Q| |done].
  exact (consumed_trans _ _ _ _ _ C (consumed_trans _ _ _ _ _ C2 (consumed_trans _ _ _ _ _ C3 C4))).
Qed.

Lemma parseRule_ok p r p' : wfp p -> parseRule p = POk r p' ->
  exists s ts cs, rule_gram (fields p) ts s /\ consumed p p' ts /\
    pconsts p' = pconsts p ++ cs /\ progDepth p <= progDepth p' /\
    translated (fields p) (pconsts p') (progDepth p') s r /\ actionLegal (hook p) (act r) = true /\
    hook p' = hook p /\ fields p' = fields p /\ prules p' = prules p /\ wfp p'.
Proof.
  intros W H. unfold parseRule in H. rewrite peek_bind in H.
  destruct (decide (kind_of (cur p) <> tokIdent)) as [|K]; [done|]. apply dec_stable in K.
  pinv H. destruct a as [[a n] v]. apply parse_verb_ok in E as (ts & V & Q & C & Wq); [|done|done].
  assert (hook q = hook p /\ fields q = fields p /\ prules q = prules p /\ pconsts q = pconsts p /\
    progDepth q = progDepth p) as (Q1 & Q2 & Q3 & Q4 & Q5) by (by rewrite Q).
  destruct (actionLegal (hook q) a) eqn:EL; [|done]. cbn [negb] in H. rewrite peek_bind in H.
  destruct (is_word (cur q) _) eqn:Ew.
  - assert (kind_of (cur q) <> tokEOF) as N by (apply is_word_kind in Ew as [Ew' _]; congruence).
    rewrite advance_bind in H by done. pinv H. injection H as <- <-.
    destruct (advance_ok q Wq N) as (_ & C1 & W1).
    apply compileCondition_ok in E as (e & us & cs & C2 & G & T & Em & Ec & Ed & E1 & E2 & E3 & W2); [|done].
    cbn in *. rewrite Q2 in *.
    exists (mkSrule a n v (Some e)), (ts ++ cur q :: us), cs.
    split_and!; try congruence; try done.
    + by apply rg_guard.
    + exact (consumed_trans _ _ _ _ _ C (consumed_trans _ _ _ _ _ C1 C2)).
    + lia.
    + unfold translated. cbn. split_and!; try done. lia.
  - injection H as <- <-. exists (mkSrule a n v None), ts, [].
    rewrite app_nil_r. split_and!; try congruence; try done; [by apply rg_plain|lia|by rewrite <- Q1].
Qed.

Lemma skipNewlines_ok f p p' : wfp p -> skipNewlines f p = POk tt p' ->
  exists ts, Forall (fun t => kind_of t = tokNewline) ts /\ consumed p p' ts /\ p' = set_pos p (pos p') /\
    wfp p' /\ kind_of (cur p') <> tokNewline.
Proof.
  revert p. induction f as [|f IH]; intros p W H; [done|]. cbn [skipNewlines] in H. rewrite peek_bind in H.
  destruct (decide (kind_of (cur p) = tokNewline)) as [K|K].
  - rewrite advance_bind in H by (done || congruence).
    destruct (advance_ok p W) as (_ & C & W'); [congruence|].
    apply IH in H as (ts & F & C2 & Q & W2 & N); [|done].
    exists (cur p :: ts). split_and!; auto. exact (consumed_trans _ _ _ _ _ C C2).
  - injection H as <-. exists []. split; [done|]. split; [|by destruct p].
    repeat split; cbn; [lia|apply W].
Qed.

(** ** Programs *)

(** The tokens still to be read. *)
Definition ahead (p : parser) : list token := drop (pos p) (toks p).

Lemma consumed_ahead p p' ts : consumed p p' ts -> ahead p = ts ++ ahead p'.
Proof. intros (T & _ & _ & D). unfold ahead. by rewrite T, D. Qed.

Lemma ahead_cur p : wfp p -> exists ts, ahead p = cur p :: ts.
Proof.
  intros W. unfold ahead. exists (drop (S (pos p)) (toks p)). apply drop_S.
  destruct (nth_lookup_or_length (toks p) (pos p) eofToken); [done|]. pose proof (w_pos _ W). lia.
Qed.

Lemma ahead_eof p : wfp p -> kind_of (cur p) = tokEOF -> ahead p = [cur p].
Proof.
  intros W K. destruct (ahead_cur p W) as [ts E]. rewrite E. f_equal.
  destruct W as [(us & t & ET & _ & Fu) L _ _ _]. unfold cur, ahead in *. rewrite ET in *.
  rewrite length_app in L. cbn in L.
  assert (pos p = length us) as EP.
  { destruct (decide (pos p < length us)%nat) as [Lt|]; [|lia]. exfalso.
    rewrite app_nth1 in K by done.
    destruct (nth_lookup_or_length us (pos p) eofToken) as [Es|]; [|lia].
    apply (Forall_lookup_1 _ _ _ _ Fu Es). done. }
  rewrite EP, drop_app_length in E. by injection E as _ <-.
Qed.

Lemma prog_newlines F ts us rs :
  Forall (fun t => kind_of t = tokNewline) ts -> prog_gram F us rs -> prog_gram F (ts ++ us) rs.
Proof. induction 1; intros G; [done|]. apply pg_newline; auto. Qed.

(** What reading rules adds to a program. *)
Definition progress (p p' : parser) (ss : list srule) : Prop :=
  exists rs cs, prules p' = prules p ++ rs /\ pconsts p' = pconsts p ++ cs /\
    progDepth p <= progDepth p' /\ hook p' = hook p /\ fields p' = fields p /\
    Forall2 (translated (fields p) (pconsts p') (progDepth p')) ss rs /\
    Forall (fun r => actionLegal (hook p) (act r) = true) rs.

Lemma program_loop_ok f p p' : wfp p -> program_loop f p = POk tt p' ->
  exists ss, prog_gram (fields p) (ahead p) ss /\ progress p p' ss.
Proof.
  revert p. induction f as [|f IH]; intros p W H; [done|]. cbn [program_loop] in H.
  pinv H. destruct a. apply skipNewlines_ok in E as (nl & NL & C & Q & Wq & N); [|done].
  rewrite (consumed_ahead _ _ _ C). rewrite peek_bind in H.
  destruct (decide (kind_of (cur q) = tokEOF)) as [K|K].
  { injection H as <-. exists []. split.
    - apply prog_newlines; [done|]. rewrite ahead_eof by done. by apply pg_end.
    - exists [], []. rewrite !app_nil_r. rewrite Q. cbn. split_and!; auto; lia. }
  pinv H. rename a into r. apply parseRule_ok in E as (s & us & cs & G & C2 & Ec & Ed & T & L & E1 & E2 & E3 & W2); [|done].
  unfold pbind at 1 in H. set (q1 := set_prog q0 (prules q0 ++ [r]) (progDepth q0)) in H.
  assert (wfp q1) as W1 by (destruct W2; by split).
  rewrite peek_bind in H. change (cur q1) with (cur q0) in H.
  assert (exists q2, program_loop f q2 = POk tt p' /\ wfp q2 /\ (kind_of (cur q0) = tokNewline \/ kind_of (cur q0) = tokEOF) /\
    (forall ss, prog_gram (fields p) (ahead q2) ss -> prog_gram (fields p) (ahead q0) ss) /\
    q2 = set_pos q1 (pos q2)) as (q2 & H2 & W3 & K2 & GA & Q2).
  { destruct (kind_of (cur q0)) eqn:K2; try done.
    - exists q1. split_and!; auto.
    - rewrite advance_bind in H by (try done; change (cur q1) with (cur q0); congruence).
      destruct (advance_ok q1 W1) as (_ & C3 & W3); [change (cur q1) with (cur q0); congruence|].
      eexists. split_and!; [exact H|done|by left| |done].
      intros ss GG. change (ahead q0) with (ahead q1). rewrite (consumed_ahead _ _ _ C3). by apply pg_newline. }
  destruct (IH q2 W3 H2) as (ss & G2 & rs & cs2 & R1 & R2 & R3 & R4 & R5 & R6 & R7).
  assert (fields q = fields p /\ hook q = hook p /\ prules q = prules p /\ pconsts q = pconsts p /\
    progDepth q = progDepth p) as (Z1 & Z2 & Z3 & Z4 & Z5) by (by rewrite Q).
  assert (fields q2 = fields p /\ hook q2 = hook p /\ prules q2 = prules p ++ [r] /\
    pconsts q2 = pconsts p ++ cs /\ progDepth q2 = progDepth q0) as (Y1 & Y2 & Y3 & Y4 & Y5).
  { rewrite Q2. unfold q1. cbn. rewrite E1, E2, E3, Ec, Z1, Z2, Z3, Z4. done. }
  rewrite Y1, Y2, Y3, Y4, Y5, Z1, Z2, Z5 in *. exists (s :: ss). split.
  - apply prog_newlines; [done|]. rewrite (consumed_ahead _ _ _ C2).
    apply GA in G2. destruct (ahead_cur q0 W2) as [us' EA]. rewrite EA in *. by apply pg_rule.
  - exists (r :: rs), (cs ++ cs2). rewrite R1, R2, <- !app_assoc. split_and!; auto; [lia|].
    constructor; [|by rewrite app_assoc, <- R2]. rewrite app_assoc.
    rewrite Ec, Z4 in T. by eapply translated_mono.
Qed.

(** ** Compilation always ends *)

(** Tokens left; every recursive call but the descent through the levels of
    precedence leaves fewer of them. *)
Definition left_ (p : parser) : nat := length (toks p) - pos p.

Definition ends {A} (m : P A) (p : parser) : Prop := m p <> PFuel.

Lemma ends_bind {A B} (m : P A) (k : A -> P B) p :
  ends m p -> (forall a q, m p = POk a q -> ends (k a) q) -> ends (pbind m k) p.
Proof. unfold ends, pbind. intros H K. destruct (m p) eqn:E; [by eapply K|done|done]. Qed.

Lemma advance_left p : wfp p -> kind_of (cur p) <> tokEOF ->
  wfp (set_pos p (S (pos p))) /\ (left_ (set_pos p (S (pos p))) < left_ p)%nat.
Proof.
  intros W N. destruct (advance_ok p W N) as (_ & _ & W'). split; [done|].
  unfold left_. cbn. pose proof (w_pos _ W). lia.
Qed.

Lemma ends_advance {B} (k : token -> P B) p : wfp p -> kind_of (cur p) <> tokEOF ->
  (forall q, wfp q -> (left_ q < left_ p)%nat -> q = set_pos p (S (pos p)) -> ends (k (cur p)) q) ->
  ends (pbind advance k) p.
Proof.
  intros W N H. destruct (advance_left p W N). unfold ends. rewrite advance_bind by done. by apply H.
Qed.

Lemma ends_expect {B} k (h : token -> P B) p : wfp p -> k <> tokEOF ->
  (forall q, wfp q -> (left_ q < left_ p)%nat -> ends (h (cur p)) q) -> ends (pbind (expect k) h) p.
Proof.
  intros W N H. apply ends_bind.
  - unfold expect, ends. rewrite peek_bind. case_match; done.
  - intros a q E. apply expect_ok in E as (-> & K & -> & _ & W'); [|done|done].
    destruct (advance_left p W); [congruence|]. by apply H.
Qed.

Lemma compiled_left lvl p p' e k : wfp p -> compiled lvl p p' e k -> wfp p' /\ (left_ p' < left_ p)%nat.
Proof.
  intros W C. split; [by eapply compiled_wfp|]. pose proof (w_pos _ W).
  destruct C as [(c & _ & Em) _ _ _ _ _ (ts & (T & P & L & _) & G)].
  pose proof (gram_code_length _ _ _ _ _ _ _ G Em). unfold left_. rewrite T. lia.
Qed.

Lemma list_loop_ends f open elems p : wfp p -> (left_ p < f)%nat -> ends (list_loop f open elems) p.
Proof.
  revert elems p. induction f as [|f IH]; intros elems p W L; [lia|].
  unfold ends. cbn [list_loop]. rewrite peek_bind.
  case_match; [apply ends_advance; [done|congruence|done]|]. apply ends_expect; [done|done|]. intros q Wq Lq.
  unfold ends. case_match; [done|]. rewrite peek_bind. case_match.
  - apply ends_advance; [done|congruence|]. intros q' W' L' _. apply IH; [done|lia].
  - apply IH; [done|lia].
Qed.

Lemma const_ends v p : wfp p -> kind_of (cur p) <> tokEOF -> ends (compile_const v) p.
Proof.
  intros W N. apply ends_advance; [done|done|]. intros q _ _ _.
  apply ends_bind; [unfold ends, constIndex; by case_match|done].
Qed.

(** [within c m]: [m] ends when its fuel covers eight rounds per token left
    plus [c], the levels below it. *)
Definition within (c f : nat) (m : P kind) : Prop :=
  forall p, wfp p -> (8 * left_ p + c <= f)%nat -> ends m p.

Lemma circuit_left jop p : wfp p -> kind_of (cur p) <> tokEOF ->
  wfp (circuit_start jop p) /\ (left_ (circuit_start jop p) < left_ p)%nat.
Proof.
  intros W N. destruct (circuit_start_wfp jop p W N) as [W1 _]. split; [done|].
  unfold left_. cbn. pose proof (w_pos _ W). lia.
Qed.

Lemma circuit_end_wfp jmp p : wfp p -> wfp (circuit_end jmp p).
Proof. intros [? ? ? ? ?]. split; cbn; rewrite ?length_alter; auto. Qed.

Lemma levels_end f :
  (within 5 f (compileOr f) /\ forall k, within 1 f (or_loop f k)) /\
  (within 4 f (compileAnd f) /\ forall k, within 1 f (and_loop f k)) /\
  within 3 f (compileNot f) /\ within 2 f (compileComparison f) /\ within 1 f (compilePrimary f).
Proof.
  induction f as [|f ((Ho & Hol) & (Ha & Hal) & Hn & Hc & Hp)].
  { split_and!; repeat intro; lia. }
  destruct (levels_ok f) as ((So & _) & (Sa & _) & Sn & Sc & Sp).
  split_and!; [|intros k| |intros k|..]; intros p W L; unfold ends.
  - cbn [compileOr]. apply ends_bind; [apply Ha; [done|lia]|]. intros k q E.
    destruct (Sa _ _ _ W E) as [e C]. destruct (compiled_left _ _ _ _ _ W C). apply Hol; [done|lia].
  - cbn [or_loop]. rewrite peek_bind. destruct (is_word (cur p) _) eqn:Ew; cbn [negb]; [|done].
    case_match; [done|]. apply is_word_kind in Ew as [Ew _].
    rewrite advance_bind by (done || congruence).
    destruct (circuit_left opJumpIfTrue p W) as [W1 L1]; [congruence|].
    change (ends (pbind (compileAnd f) (fun rk => if decide (rk <> kindBool) then perr (cur p) (OrNeedsConditions rk)
      else (patch (length (code p)) ;;ₚ or_loop f k))) (circuit_start opJumpIfTrue p)).
    apply ends_bind; [apply Ha; [done|lia]|]. intros rk q E. destruct (Sa _ _ _ W1 E) as [e C].
    destruct (compiled_left _ _ _ _ _ W1 C). unfold ends. case_match; [done|].
    apply (Hol k (circuit_end (length (code p)) q)); [by apply circuit_end_wfp|]. unfold left_ in *. cbn in *. lia.
  - cbn [compileAnd]. apply ends_bind; [apply Hn; [done|lia]|]. intros k q E.
    destruct (Sn _ _ _ W E) as [e C]. destruct (compiled_left _ _ _ _ _ W C). apply Hal; [done|lia].
  - cbn [and_loop]. rewrite peek_bind. destruct (is_word (cur p) _) eqn:Ew; cbn [negb]; [|done].
    case_match; [done|]. apply is_word_kind in Ew as [Ew _].
    rewrite advance_bind by (done || congruence).
    destruct (circuit_left opJumpIfFalse p W) as [W1 L1]; [congruence|].
    change (ends (pbind (compileNot f) (fun rk => if decide (rk <> kindBool) then perr (cur p) (AndNeedsConditions rk)
      else (patch (length (code p)) ;;ₚ and_loop f k))) (circuit_start opJumpIfFalse p)).
    apply ends_bind; [apply Hn; [done|lia]|]. intros rk q E. destruct (Sn _ _ _ W1 E) as [e C].
    destruct (compiled_left _ _ _ _ _ W1 C). unfold ends. case_match; [done|].
    apply (Hal k (circuit_end (length (code p)) q)); [by apply circuit_end_wfp|]. unfold left_ in *. cbn in *. lia.
  - cbn [compileNot]. rewrite peek_bind. destruct (is_word (cur p) _) eqn:Ew; [|apply Hc; [done|lia]].
    apply is_word_kind in Ew as [Ew _]. apply ends_advance; [done|congruence|]. intros q Wq Lq _.
    apply ends_bind; [apply Hn; [done|lia]|]. intros k q' _. unfold ends. by case_match.
  - cbn [compileComparison]. apply ends_bind; [apply Hp; [done|lia]|]. intros lk q E.
    destruct (Sp _ _ _ W E) as [e C]. destruct (compiled_left _ _ _ _ _ W C). unfold ends.
    rewrite peek_bind. destruct (comparison_op (cur q)) eqn:Eo; [|done].
    apply comparison_op_cmp in Eo as [_ N]. apply ends_advance; [done|done|]. intros q' W' L' _.
    apply ends_bind; [apply Hp; [done|lia]|]. intros rk q'' _. unfold ends. by case_match.
  - cbn [compilePrimary]. rewrite peek_bind. destruct (kind_of (cur p)) eqn:K; try done;
      try (apply const_ends; [done|congruence]).
    + case_match; [apply const_ends; [done|congruence]|]. case_match; [|done].
      apply ends_advance; [done|congruence|done].
    + apply ends_advance; [done|congruence|]. intros q Wq Lq _.
      apply ends_bind; [apply Ho; [done|lia]|]. intros k q' E.
      destruct (So _ _ _ Wq E) as [e C]. destruct (compiled_left _ _ _ _ _ Wq C).
      by apply ends_expect.
    + unfold compileList. apply ends_advance; [done|congruence|]. intros q Wq Lq _.
      apply ends_bind; [apply list_loop_ends; [done|lia]|done].
Qed.

Lemma compileCondition_ends p : wfp p -> ends compileCondition p.
Proof.
  intros W. unfold ends, compileCondition.
  assert (wfp (set_depth (set_code p []) 0 0)) as W0 by (destruct W; split; cbn; auto; lia).
  apply ends_bind; [|intros k q _; unfold ends; rewrite peek_bind; by case_match].
  apply (proj1 (proj1 (levels_end _))); [done|]. unfold left_, expr_fuel. cbn. lia.
Qed.

Lemma parse_verb_ends p : wfp p -> kind_of (cur p) = tokIdent -> ends (parse_verb (cur p)) p.
Proof.
  intros W K. unfold ends, parse_verb. assert (kind_of (cur p) <> tokEOF) as N by congruence.
  repeat case_match; try done; (apply ends_advance; [done|done|]); intros q Wq _ _; try done.
  - unfold ends. rewrite peek_bind. case_match; [|done]. apply ends_advance; [done|congruence|done].
  - apply ends_expect; [done|done|]. intros q2 W2 _. unfold ends. case_match; [done|].
    apply ends_expect; [done|done|]. intros q3 W3 _. apply ends_bind; [|done].
    unfold ends, parseLiteral. rewrite peek_bind.
    repeat case_match; try done; apply ends_advance; (done || congruence).
Qed.

Lemma parseRule_ends p : wfp p -> ends parseRule p.
Proof.
  intros W. unfold ends, parseRule. rewrite peek_bind. case_match; [done|].
  assert (kind_of (cur p) = tokIdent) as K by (by apply dec_stable).
  apply ends_bind; [by apply parse_verb_ends|]. intros [[a nm] v] q E.
  apply parse_verb_ok in E as (ts & _ & _ & _ & Wq); [|done|done]. unfold ends. case_match; [done|].
  rewrite peek_bind. case_match eqn:Ew; [|done]. apply is_word_kind in Ew as [Ew _].
  apply ends_advance; [done|congruence|]. intros q2 W2 _ _.
  apply ends_bind; [by apply compileCondition_ends|done].
Qed.

Lemma skipNewlines_ends f p : wfp p -> (left_ p < f)%nat -> ends (skipNewlines f) p.
Proof.
  revert p. induction f as [|f IH]; intros p W L; [lia|]. unfold ends. cbn [skipNewlines].
  rewrite peek_bind. case_match; [|done]. apply ends_advance; [done|congruence|].
  intros q Wq Lq _. apply IH; [done|lia].
Qed.

Lemma rule_gram_nonempty F ts s : rule_gram F ts s -> (0 < length ts)%nat.
Proof. destruct 1 as [? ? ? ? V|? ? ? ? ? ? ? V]; destruct V; cbn; lia. Qed.

Lemma program_loop_ends f p : wfp p -> (left_ p <= f)%nat -> ends (program_loop f) p.
Proof.
  revert p. induction f as [|f IH]; intros p W L; [unfold left_ in L; pose proof (w_pos _ W); lia|].
  unfold ends. cbn [program_loop].
  apply ends_bind; [apply skipNewlines_ends; [done|unfold left_; lia]|]. intros [] q E.
  apply skipNewlines_ok in E as (nl & _ & C & _ & Wq & _); [|done]. unfold ends. rewrite peek_bind.
  case_match; [done|]. apply ends_bind; [by apply parseRule_ends|]. intros r q0 E.
  apply parseRule_ok in E as (s & us & cs & G & C2 & _ & _ & _ & _ & _ & _ & _ & W2); [|done].
  pose proof (rule_gram_nonempty _ _ _ G).
  assert (left_ q0 <= f)%nat as L0.
  { destruct C as (T1 & P1 & L1 & _), C2 as (T2 & P2 & L2 & _). unfold left_ in *. rewrite T2, T1 in *. lia. }
  unfold ends, pbind at 1. set (q1 := set_prog q0 _ _).
  assert (wfp q1) as W1 by (destruct W2; by split). change (left_ q0) with (left_ q1) in L0.
  rewrite peek_bind. destruct (kind_of (cur q1)) eqn:K; try done.
  - by apply IH.
  - apply ends_advance; [done|congruence|]. intros q' W' L' _. apply IH; [done|lia].
Qed.

Lemma newParser_wfp h src ts : lex src = Some (Ok ts) -> Z.of_nat (length src) <= maxSourceBytes ->
  wfp (newParser h ts).
Proof.
  intros E L. apply lex_shape in E as [S N]. unfold maxSourceBytes in L. split; cbn; auto; try lia.
  destruct S as (us & t & -> & _). rewrite length_app. cbn. lia.
Qed.

(** [Compile] ends on every source: it returns a program or a load error. *)
Lemma Compile_total name h src : exists r, Compile name h src = Some r.
Proof.
  unfold Compile. destruct (Z.ltb_spec maxSourceBytes (Z.of_nat (length src))); [eauto|].
  destruct (lex_total src) as [[ts|e] E]; rewrite E; [|eauto].
  pose proof (newParser_wfp h src ts E ltac:(lia)) as W.
  assert (ends parseProgram (newParser h ts)) as N.
  { apply ends_bind; [apply program_loop_ends; [done|unfold left_; cbn; lia]|].
    intros [] q _. unfold ends. by case_match. }
  unfold ends in N. destruct (parseProgram (newParser h ts)) as [[] p| |]; [|eauto|done].
  case_match; eauto.
Qed.

(** A program [Compile] accepts is its source: the tokens are a program of the
    grammar, and the rules are the translations of its rules, with legal verbs,
    well-kinded guards, and room for every operand. *)
Lemma Compile_sound name h src p : Compile name h src = Some (Ok p) ->
  exists ts ss, lex src = Some (Ok ts) /\ prog_gram (fieldsFor h) ts ss /\ ss <> [] /\
    Forall2 (translated (fieldsFor h) (consts_of p) (Z.of_nat maxStack)) ss (rules p) /\
    Forall (fun r => actionLegal h (act r) = true) (rules p) /\ PHook p = h /\ Name p = name.
Proof.
  unfold Compile. destruct (Z.ltb_spec maxSourceBytes (Z.of_nat (length src))); [done|].
  destruct (lex src) as [[ts|e]|] eqn:E; try done.
  pose proof (newParser_wfp h src ts E ltac:(lia)) as W.
  destruct (parseProgram (newParser h ts)) as [[] q| |] eqn:EP; try done.
  destruct (Z.ltb_spec (Z.of_nat maxStack) (progDepth q)) as [|D]; [done|]. intros [= <-].
  unfold parseProgram in EP. pinv EP. destruct a.
  apply program_loop_ok in E0 as (ss & G & rs & cs & R1 & R2 & R3 & R4 & R5 & R6 & R7); [|done].
  cbn in R1, R2, R6, R7. destruct (prules q0) as [|r0 rs0] eqn:ER; [done|]. injection EP as <-.
  exists ts, ss. cbn. rewrite ER. subst rs. split_and!; auto.
  - intros ->. by inversion R6.
  - eapply Forall2_impl; [exact R6|]. intros s r T. rewrite <- (app_nil_r (pconsts q0)).
    by eapply translated_mono.
Qed.
