(* ===== verification/PolicyProps.v ===== *)
(** * Properties of the policy language

    The headline theorems on [internal/luaext]'s policy files: a program that
    loads runs as the rules it was written with, cannot fault, and costs at most
    one pass over its own rules; and the accounting of live bytes. *)
From Stdlib Require Import String.
From stdpp Require Import base gmap list.
From Stdlib Require Import ZArith Lia.
From S2P Require Import Prelude PolicyLex PolicyVM PolicyCompile PolicyRef PolicyCheck.
Open Scope Z_scope.
Open Scope policy_scope.

(** ** Views deliver what the field tables declare *)

Definition view_ok (F : fieldTable) (field : Z -> value) : Prop :=
  forall n s, F !! n = Some s ->
  vk (field (i32 (fidx s))) = fkind s /\ wf_value (field (i32 (fidx s))).

Lemma newFieldTable_spec specs n s : newFieldTable specs !! n = Some s -> s ∈ specs.
Proof.
  unfold newFieldTable. enough (forall t : fieldTable, fold_left (fun t s => <[fname s := s]> t) specs t !! n = Some s ->
    s ∈ specs \/ t !! n = Some s) as A.
  { intros H. destruct (A _ H) as [|E]; [done|]. by rewrite lookup_empty in E. }
  induction specs as [|x specs IH]; intros t H; cbn in *; [by right|].
  destruct (IH _ H) as [|E]; [left; by right|].
  destruct (decide (fname x = n)) as [<-|Ne].
  - rewrite lookup_insert_eq in E. injection E as ->. left. by left.
  - rewrite lookup_insert_ne in E by done. by right.
Qed.

(** Decide a table entry by entry. *)
Lemma view_ok_specs specs field :
  Forall (fun s => vk (field (i32 (fidx s))) = fkind s /\ wf_value (field (i32 (fidx s)))) specs ->
  view_ok (newFieldTable specs) field.
Proof. intros H n s E. apply newFieldTable_spec in E. by eapply Forall_forall in H. Qed.

Lemma views_ok v : view_ok (fieldsFor (view_hook v)) (field v).
Proof.
  destruct v as [v|v|v|v]; cbn [view_hook fieldsFor field];
    apply view_ok_specs; repeat first [apply Forall_nil_2 | apply Forall_cons_2; [by split; [|split; [apply Nat.le_0_l|]]|]].
Qed.

(** ** What a computation may do

    [total n m Q]: given [n] instructions (or an unlimited budget), [m] spends
    at most those, never panics, fails only on memory and only when memory is
    limited, and returns a value satisfying [Q]. *)
Definition affords (n : Z) (b : budget) : Prop := noInstr b = true \/ n <= instrLeft b < two63.

Definition total {A} (n : Z) (m : M A) (Q : A -> Prop) : Prop :=
  forall b b' o k, m b = (b', o) -> 0 <= k -> affords (n + k) b ->
  affords k b' /\ noInstr b' = noInstr b /\ noMem b' = noMem b /\
  match o with
  | Ret a => Q a
  | Fail ErrMemoryLimit => noMem b = false
  | _ => False
  end.

(** [safe m Q]: on any budget, [m] never panics and what it returns satisfies [Q]. *)
Definition safe {A} (m : M A) (Q : A -> Prop) : Prop :=
  forall b b' o, m b = (b', o) ->
  match o with Ret a => Q a | Fail _ => True | _ => False end.

Lemma total_bind {A B} n1 n2 (m : M A) (f : A -> M B) Q R :
  0 <= n2 -> total n1 m Q -> (forall a, Q a -> total n2 (f a) R) -> total (n1 + n2) (bind m f) R.
Proof.
  intros N Hm Hf b b' o k E K Af. unfold bind in E.
  destruct (m b) as [b1 [a|e| |]] eqn:E1;
    (destruct (Hm b b1 _ (n2 + k) E1 ltac:(lia)) as (A1 & I1 & M1 & O1);
      [by replace (n1 + (n2 + k)) with (n1 + n2 + k) by lia|]).
  - destruct (Hf a O1 b1 b' o k E K A1) as (? & ? & ? & ?). rewrite I1, M1 in *. auto.
  - injection E as <- <-. split_and!; auto. unfold affords in *. destruct A1 as [|]; [by left|]. right. lia.
  - done.
  - done.
Qed.

Lemma safe_bind {A B} (m : M A) (f : A -> M B) Q R :
  safe m Q -> (forall a, Q a -> safe (f a) R) -> safe (bind m f) R.
Proof.
  intros Hm Hf b b' o E. unfold bind in E.
  destruct (m b) as [b1 [a|e| |]] eqn:E1; pose proof (Hm b b1 _ E1) as H1; cbn in H1; try done.
  - by eapply Hf.
  - by injection E as <- <-.
Qed.

Lemma total_mono {A} n n' (m : M A) Q : n <= n' -> total n m Q -> total n' m Q.
Proof.
  intros L H b b' o k E K Af. destruct (H b b' o (n' - n + k) E ltac:(lia)) as (A1 & ? & ? & ?).
  - by replace (n + (n' - n + k)) with (n' + k) by lia.
  - split_and!; auto. unfold affords in *. destruct A1; [by left|right; lia].
Qed.

Lemma total_ret {A} n (a : A) (Q : A -> Prop) : 0 <= n -> Q a -> total n (ret a) Q.
Proof.
  intros N H. apply (total_mono 0); [done|]. intros b b' o k [= <- <-] K Af. by rewrite Z.add_0_l in Af.
Qed.

(** Sequencing, with the budget of the rest left to compute. *)
Lemma total_seq {A B} n n1 (m : M A) (f : A -> M B) Q R :
  total n1 m Q -> n1 <= n -> (forall a, Q a -> total (n - n1) (f a) R) -> total n (bind m f) R.
Proof.
  intros Hm L Hf. replace n with (n1 + (n - n1)) by lia. eapply total_bind; eauto. lia.
Qed.
Lemma safe_ret {A} (a : A) (Q : A -> Prop) : Q a -> safe (ret a) Q.
Proof. by intros H b b' o [= <- <-]. Qed.

Lemma total_step n : 0 <= n -> total n (step n) (fun _ => True).
Proof.
  intros N b b' o k E K Af. unfold step in E. unfold affords in *.
  destruct (noInstr b) eqn:I; [injection E as <- <-; rewrite I; auto|].
  destruct Af as [|Af]; [done|]. rewrite i64_id in E by (widths; lia).
  rewrite (proj2 (Z.ltb_ge _ _)) in E by lia. injection E as <- <-. cbn. split_and!; auto. right. lia.
Qed.
Lemma safe_step n : safe (step n) (fun _ => True).
Proof. intros b b' o E. unfold step in E. destruct (noInstr b); [|destruct (_ <? 0)]; injection E as <- <-; done. Qed.

Lemma total_charge n : total 0 (charge n) (fun _ => True).
Proof.
  intros b b' o k E K Af. rewrite Z.add_0_l in Af. unfold charge in E.
  destruct (noMem b) eqn:Me; cbn in E; [|destruct (_ <? _)]; injection E as <- <-; cbn; auto.
Qed.
Lemma safe_charge n : safe (charge n) (fun _ => True).
Proof. intros b b' o E. unfold charge in E. destruct (_ && _); injection E as <- <-; done. Qed.
Lemma total_refund n : total 0 (refund n) (fun _ => True).
Proof. intros b b' o k E K Af. rewrite Z.add_0_l in Af. injection E as <- <-. auto. Qed.
Lemma safe_refund n : safe (refund n) (fun _ => True).
Proof. intros b b' o E. by injection E as <- <-. Qed.

#[export] Hint Resolve total_step total_charge total_refund safe_step safe_charge safe_refund
  safe_ret total_ret : policy.

(** One sequenced part at a time, its budget taken off what is left. *)
Ltac spend H :=
  eapply total_seq; [by apply H|lia|];
  let x := fresh "x" in let Hx := fresh "Hx" in cbn beta; intros x Hx; try subst x.

(** ** Evaluating a guard *)

(** An instruction per node, one more for the [opPop] of a short circuit, and
    the elements an [in] may scan. *)
Fixpoint cost (e : expr) : Z :=
  match e with
  | ELit _ | EField _ => 1
  | ENot e => cost e + 1
  | EAnd e1 e2 | EOr e1 e2 => cost e1 + cost e2 + 2
  | ECmp o e1 e2 => cost e1 + cost e2 + 1 + (if decide (o = opIn) then Z.of_nat maxListElements else 0)
  end.

Lemma cost_pos e : 1 <= cost e.
Proof. induction e; cbn; try case_match; lia. Qed.

Section Guards.
Context (F : fieldTable) (fld : Z -> value) (VF : view_ok F fld).

(** Evaluation keeps kinds. *)
Lemma wt_kind e k : wt F e k -> vk (denote fld e) = k /\ wf_value (denote fld e).
Proof.
  assert (forall x, wf_value (boolValue x)) as WB by (split; [apply Nat.le_0_l|done]).
  induction 1 as [v L|n s E|e _ IH|e1 e2 _ IH1 _ IH2|e1 e2 _ IH1 _ IH2|o e1 e2 k1 k2 _ _ _ _ _ _]; cbn;
    [done|by eapply VF|auto|by case_match|by case_match|auto].
Qed.

Lemma binary_safe o l r : safe (binary o l r) (fun x => x = compare_values o l r).
Proof.
  destruct o; cbn; try (by apply safe_ret).
  eapply safe_bind; [apply safe_step|]. intros _ _. by apply safe_ret.
Qed.

Lemma binary_total o l r : (length (vlist r) <= maxListElements)%nat ->
  total (if decide (o = opIn) then Z.of_nat maxListElements else 0) (binary o l r)
    (fun x => x = compare_values o l r).
Proof.
  intros L. destruct o; cbn; try (by apply total_ret).
  rewrite decide_True by done. eapply total_seq; [apply total_step; lia|lia|]. intros _ _. apply total_ret; [lia|done].
Qed.

(** The charged evaluator returns the guard's value on any budget it returns on. *)
Lemma charged_safe e : safe (charged fld e) (fun v => v = denote fld e).
Proof.
  induction e as [v|i|e IH|e1 IH1 e2 IH2|e1 IH1 e2 IH2|o e1 IH1 e2 IH2]; cbn [charged denote];
    repeat first [eapply safe_bind; [by eauto with policy|cbn; intros ? ?; subst] | by auto with policy].
  - case_match; repeat first [eapply safe_bind; [by eauto with policy|cbn; intros ? ?; subst] | by auto with policy].
  - case_match; repeat first [eapply safe_bind; [by eauto with policy|cbn; intros ? ?; subst] | by auto with policy].
  - eapply safe_bind; [apply binary_safe|]. cbn. intros ? ->.
    eapply safe_bind; [apply safe_charge|]. auto with policy.
Qed.

(** With the instructions it can need, a well-kinded guard returns its value
    unless the memory ceiling stops it. *)
Lemma charged_total e k : wt F e k -> total (cost e) (charged fld e) (fun v => v = denote fld e).
Proof.
  induction 1 as [v L|n s E|e _ IH|e1 e2 _ IH1 _ IH2|e1 e2 _ IH1 _ IH2|o e1 e2 k1 k2 _ _ _ IH1 W2 IH2];
    cbn [charged denote cost].
  - spend total_step. spend total_charge. apply total_ret; [lia|done].
  - spend total_step. spend total_charge. apply total_ret; [lia|done].
  - spend IH. spend total_step. spend total_refund. spend total_charge. apply total_ret; [lia|done].
  - pose proof (cost_pos e2). spend IH1. spend total_step. destruct (vb (denote fld e1)).
    + spend total_step. spend total_refund. eapply total_mono; [|exact IH2]. lia.
    + apply total_ret; [lia|done].
  - pose proof (cost_pos e2). spend IH1. spend total_step. destruct (vb (denote fld e1)).
    + apply total_ret; [lia|done].
    + spend total_step. spend total_refund. eapply total_mono; [|exact IH2]. lia.
  - set (c := if decide (o = opIn) then _ else _).
    assert (0 <= c) by (unfold c; case_match; lia). pose proof (cost_pos e2).
    spend IH1. spend IH2. spend total_step. spend total_refund. spend total_refund.
    pose proof (binary_total o (denote fld e1) (denote fld e2) (proj1 (proj2 (wt_kind _ _ W2)))) as HB.
    spend HB. spend total_charge. apply total_ret; [lia|done].
Qed.
End Guards.

(** ** Running a program *)

(** What the rules decide: the first guarded [deny] or [allow] that holds ends
    it, [set] accumulates. *)
Fixpoint decide_rules (name : bytes) (fld : Z -> value) (ss : list srule) (out : hresult) : hresult * bool :=
  match ss with
  | [] => (out, false)
  | s :: ss' =>
      if match s_guard s with None => true | Some e => vb (denote fld e) end then
        match s_act s with
        | actDeny => (mkResult (tags out) true (allowed out) (vstr (s_arg s)) name, true)
        | actAllow => (mkResult (tags out) (denied out) true (reason out) name, true)
        | actSet =>
            decide_rules name fld ss'
              (mkResult (tagset_set (tags out) (s_name s) (value_String (s_arg s)))
                 (denied out) (allowed out) (reason out) (by_ out))
        | actNone => decide_rules name fld ss' out
        end
      else decide_rules name fld ss' out
  end.

Definition rules_cost (ss : list srule) : Z :=
  foldr (fun s n => 1 + match s_guard s with None => 0 | Some e => cost e end + n) 0 ss.

Lemma rules_cost_pos ss : 0 <= rules_cost ss.
Proof.
  induction ss as [|s ss IH]; cbn; [lia|]. fold (rules_cost ss).
  destruct (s_guard s) as [e|]; [pose proof (cost_pos e)|]; lia.
Qed.

Lemma total_ext {A} n (m m' : M A) Q : (forall b, m b = m' b) -> total n m' Q -> total n m Q.
Proof. intros E H b b' o k Eb. rewrite E in Eb. by eapply H. Qed.
Lemma safe_ext {A} (m m' : M A) Q : (forall b, m b = m' b) -> safe m' Q -> safe m Q.
Proof. intros E H b b' o Eb. rewrite E in Eb. by eapply H. Qed.

Lemma eval_translated F cs fld s r b : translated F cs (Z.of_nat maxStack) s r ->
  eval cs fld (cond r) b =
  match s_guard s with None => ret true b | Some e => (v ←ₘ charged fld e ;; ret (vb v)) b end.
Proof.
  intros (_ & _ & _ & G). destruct (s_guard s) as [e|]; [|by rewrite G].
  destruct G as (E & _ & L). apply eval_emits; [done|lia].
Qed.

Definition guard_value (fld : Z -> value) (s : srule) : bool :=
  match s_guard s with None => true | Some e => vb (denote fld e) end.

Section Rules.
Context (F : fieldTable) (fld : Z -> value) (VF : view_ok F fld) (cs : list value) (name : bytes).

Lemma guard_total s r : translated F cs (Z.of_nat maxStack) s r ->
  total (match s_guard s with None => 0 | Some e => cost e end) (eval cs fld (cond r))
    (fun x => x = guard_value fld s).
Proof.
  intros T. eapply total_ext; [intros b; apply (eval_translated _ _ _ _ _ _ T)|].
  destruct T as (_ & _ & _ & G). unfold guard_value. destruct (s_guard s) as [e|].
  - destruct G as (_ & W & _). eapply total_seq; [by eapply charged_total|lia|]. cbn. intros v ->.
    apply total_ret; [lia|done].
  - by apply total_ret.
Qed.

Lemma guard_safe s r : translated F cs (Z.of_nat maxStack) s r ->
  safe (eval cs fld (cond r)) (fun x => x = guard_value fld s).
Proof.
  intros T. eapply safe_ext; [intros b; apply (eval_translated _ _ _ _ _ _ T)|].
  unfold guard_value. destruct (s_guard s) as [e|]; [|by apply safe_ret].
  eapply safe_bind; [apply charged_safe|]. cbn. intros v ->. by apply safe_ret.
Qed.

Lemma run_rules_total ss rs out : Forall2 (translated F cs (Z.of_nat maxStack)) ss rs ->
  total (rules_cost ss) (run_rules name cs fld rs out) (fun x => x = decide_rules name fld ss out).
Proof.
  intros T. revert out. induction T as [|s r ss rs T _ IH]; intros out; cbn [run_rules decide_rules rules_cost foldr].
  { by apply total_ret. }
  fold (rules_cost ss). pose proof (rules_cost_pos ss).
  set (c := match s_guard s with None => 0 | Some e => cost e end).
  assert (0 <= c) by (unfold c; destruct (s_guard s) as [e|]; [pose proof (cost_pos e)|]; lia).
  spend total_step. eapply total_seq; [by apply guard_total|fold c; lia|]. fold c. cbn beta. intros y ->.
  fold (guard_value fld s). destruct T as (Ea & En & Ev & _).
  destruct (guard_value fld s); cbn [negb]; [|eapply total_mono; [|apply IH]; lia].
  rewrite Ea, En, Ev. destruct (s_act s).
  - eapply total_mono; [|apply IH]; lia.
  - apply total_ret; [lia|done].
  - apply total_ret; [lia|done].
  - spend total_charge. eapply total_mono; [|apply IH]; lia.
Qed.

Lemma run_rules_safe ss rs out : Forall2 (translated F cs (Z.of_nat maxStack)) ss rs ->
  safe (run_rules name cs fld rs out) (fun x => x = decide_rules name fld ss out).
Proof.
  intros T. revert out. induction T as [|s r ss rs T _ IH]; intros out; cbn [run_rules decide_rules].
  { by apply safe_ret. }
  eapply safe_bind; [apply safe_step|]. intros _ _.
  eapply safe_bind; [by apply guard_safe|]. cbn. intros x ->. fold (guard_value fld s).
  destruct T as (Ea & En & Ev & _). destruct (guard_value fld s); cbn [negb]; [|apply IH].
  rewrite Ea, En, Ev. destruct (s_act s); [apply IH|by apply safe_ret..|].
  eapply safe_bind; [apply safe_charge|]. intros _ _. apply IH.
Qed.
End Rules.

(** A guard costs fewer than 66 instructions per token it is written with. *)
Lemma gram_cost F lvl ts e : gram F lvl ts e -> cost e + 1 <= 66 * Z.of_nat (length ts).
Proof.
  induction 1; cbn [cost length] in *; rewrite ?length_app in *; cbn [length] in *;
    try case_match; unfold maxListElements in *; lia.
Qed.

Lemma prog_cost F ts ss : prog_gram F ts ss -> rules_cost ss <= 66 * Z.of_nat (length ts).
Proof.
  induction 1 as [t|t ts rs _ _ IH|us t ts r rs G _ _ IH]; cbn [rules_cost foldr length] in *;
    try fold (rules_cost rs) in *; try lia.
  rewrite length_app. cbn [length].
  assert (1 + match s_guard r with None => 0 | Some e => cost e end <= 66 * Z.of_nat (length us)).
  { destruct G as [? ? ? ? V|? ? ? ? ? ? ? V _ G]; cbn.
    - destruct V; cbn; lia.
    - apply gram_cost in G. rewrite length_app. cbn. lia. }
  lia.
Qed.

(** ** Live bytes *)

Ltac live_step :=
  match goal with
  | H : context [let (_, _) := ?m in _] |- _ => destruct m as [? []] eqn:?; try discriminate H
  | H : (_, Ret _) = (_, Ret _) |- _ => injection H as ? ?; subst
  end.

Lemma step_live n b b' x : step n b = (b', Ret x) -> memLive b' = memLive b.
Proof. unfold step. destruct (noInstr b); [|destruct (_ <? 0)]; intros H; by inversion H. Qed.
Lemma charge_live n b b' x : charge n b = (b', Ret x) -> memLive b' = i64 (memLive b + n).
Proof. unfold charge. destruct (_ && _); intros H; by inversion H. Qed.
Lemma binary_live o l r b b' x : binary o l r b = (b', Ret x) -> memLive b' = memLive b.
Proof.
  destruct o; cbn; try (intros H; by inversion H). unfold bind.
  destruct (step _ b) as [b1 [[]| | |]] eqn:E; intros H; inversion H; subst. by eapply step_live.
Qed.

(** Evaluating a guard leaves its value charged. *)
Lemma charged_live fld e : forall b b' v,
  charged fld e b = (b', Ret v) -> is_i64 (memLive b) -> memLive b' = i64 (memLive b + value_bytes v).
Proof.
  assert (forall x d, is_i64 x -> i64 (i64 (x + d) - d) = x) as Cancel.
  { intros x d Hx. rewrite <- Z.add_opp_r, i64_add_l. replace (x + d + - d) with x by lia. by apply i64_id. }
  induction e as [w|i|e IH|e1 IH1 e2 IH2|e1 IH1 e2 IH2|o e1 IH1 e2 IH2]; intros b b' v H R;
    cbn [charged] in H; unfold bind in H.
  1,2: repeat live_step; unfold ret in *; repeat live_step;
    repeat match goal with
    | E : step _ _ = _ |- _ => apply step_live in E
    | E : charge _ _ = _ |- _ => apply charge_live in E end; by subst; congruence.
  - destruct (charged fld e b) as [b1 [w| | |]] eqn:E1; try discriminate. apply IH in E1; [|done].
    destruct (step 1 b1) as [b2 [[]| | |]] eqn:E2; try discriminate. apply step_live in E2.
    cbn [refund] in H. destruct (charge _ _) as [b3 [[]| | |]] eqn:E3; try discriminate. apply charge_live in E3.
    injection H as <- <-. cbn [memLive] in E3. by rewrite E3, E2, E1, Cancel.
  - destruct (charged fld e1 b) as [b1 [w| | |]] eqn:E1; try discriminate. apply IH1 in E1; [|done].
    destruct (step 1 b1) as [b2 [[]| | |]] eqn:E2; try discriminate. apply step_live in E2.
    destruct (vb w); [|injection H as <- <-; congruence].
    destruct (step 1 b2) as [b3 [[]| | |]] eqn:E3; try discriminate. apply step_live in E3.
    cbn [refund] in H. apply IH2 in H; cbn [memLive] in *; rewrite E3, E2, E1, Cancel in *; auto.
  - destruct (charged fld e1 b) as [b1 [w| | |]] eqn:E1; try discriminate. apply IH1 in E1; [|done].
    destruct (step 1 b1) as [b2 [[]| | |]] eqn:E2; try discriminate. apply step_live in E2.
    destruct (vb w); [injection H as <- <-; congruence|].
    destruct (step 1 b2) as [b3 [[]| | |]] eqn:E3; try discriminate. apply step_live in E3.
    cbn [refund] in H. apply IH2 in H; cbn [memLive] in *; rewrite E3, E2, E1, Cancel in *; auto.
  - destruct (charged fld e1 b) as [b1 [l| | |]] eqn:E1; try discriminate. apply IH1 in E1; [|done].
    destruct (charged fld e2 b1) as [b2 [r| | |]] eqn:E2; try discriminate.
    apply IH2 in E2; [|rewrite E1; apply i64_range].
    destruct (step 1 b2) as [b3 [[]| | |]] eqn:E3; try discriminate. apply step_live in E3.
    cbn [refund] in H. destruct (binary _ _ _ _) as [b4 [x| | |]] eqn:E4; try discriminate. apply binary_live in E4.
    destruct (charge _ _) as [b5 [[]| | |]] eqn:E5; try discriminate. apply charge_live in E5.
    injection H as <- <-. cbn [memLive] in E4.
    rewrite E5, E4, E3, E2, (Cancel (memLive b1)) by (rewrite E1; apply i64_range). by rewrite E1, Cancel.
Qed.

(** ** The properties *)

(** A source of two rules, read on a request. *)
Definition dq : string := String (Ascii.ascii_of_nat 34) EmptyString.
Definition nl : string := String (Ascii.ascii_of_nat 10) EmptyString.
Definition sample : bytes := bytes_of_string
  ("set tier = " ++ dq ++ "bulk" ++ dq ++ " if input_tokens > 100" ++ nl ++
   "deny " ++ dq ++ "no" ++ dq ++ " if model == " ++ dq ++ "m4" ++ dq ++ " and not (team_id in [" ++ dq ++ "eng" ++ dq ++ "])" ++ nl)%string.
Definition sample_view : RequestView :=
  mkRequestView [] [] [] [] (bs "m4") [] [] [] (bs "ops") [] 0 500 0 false.
Definition sample_program : Program :=
  match Compile (bs "p") HookRequest sample with Some (Ok p) => p | _ => mkProgram [] HookRequest [] [] 0 end.
Definition sample_budget : budget := newBudget (mkLimits 10000 100000 0).
Definition sample_result : hresult :=
  mkResult [mkTag (bs "tier") (bs "bulk")] true false (bs "no") (bs "p").

Lemma sample_compiles : Compile (bs "p") HookRequest sample = Some (Ok sample_program).
Proof. vm_compute. reflexivity. Qed.

(** C15. A policy file that loads runs as it was written: its tokens are a
    program of the grammar, and whenever a run of the compiled program on a view
    of its hook returns, the result is what those rules decide on that view. It
    never panics and never fails to end; the only other outcome is a ceiling. *)
Theorem policy_runs_its_source name h src p :
  Compile name h src = Some (Ok p) ->
  exists ts ss, lex src = Some (Ok ts) /\ prog_gram (fieldsFor h) ts ss /\
    forall v out b b' o, view_hook v = h -> run p (field v) out b = (b', o) ->
    match o with
    | Ret r => r = decide_rules name (field v) ss out
    | Fail _ => True
    | Panic | OutOfFuel => False
    end.
Proof.
  intros H. apply Compile_sound in H as (ts & ss & L & G & _ & T & _ & _ & <-). exists ts, ss.
  split_and!; [done|done|]. intros v out b b' o <- R. eapply run_rules_safe; [exact T|exact R].
Qed.

Lemma policy_runs_its_source_witness :
  exists ts ss, lex sample = Some (Ok ts) /\ prog_gram requestFields ts ss /\
    decide_rules (bs "p") (request_field sample_view) ss emptyResult = (sample_result, true).
Proof.
  destruct (policy_runs_its_source _ _ _ _ sample_compiles) as (ts & ss & L & G & R).
  exists ts, ss. split; [exact L|]. split; [exact G|].
  symmetry. refine (R (VRequest sample_view) emptyResult sample_budget _ (Ret (sample_result, true)) eq_refl _).
  vm_compute. reflexivity.
Defined.

(** Static kinds are enough: in a program that loads, every guard is
    well-kinded, its value on any view of the hook has the boolean kind, and the
    stack machine computes it as the big-step evaluator does. The evaluator has
    no stack bound, no operand to mistype and no final check, so none of the
    machine's defensive branches is ever taken. *)
Theorem policy_type_safe name h src p v r :
  Compile name h src = Some (Ok p) -> view_hook v = h -> r ∈ rules p -> cond r <> [] ->
  exists e, wt (fieldsFor h) e kindBool /\ vk (denote (field v) e) = kindBool /\
    forall b, eval (consts_of p) (field v) (cond r) b = (x ←ₘ charged (field v) e ;; ret (vb x)) b.
Proof.
  intros H <- Hr N. apply Compile_sound in H as (ts & ss & _ & _ & _ & T & _).
  apply list_elem_of_lookup in Hr as [i Hr].
  destruct (Forall2_lookup_r _ _ _ _ _ T Hr) as (s & _ & Ts).
  pose proof Ts as (_ & _ & _ & G). destruct (s_guard s) as [e|] eqn:Eg; [|done]. exists e.
  split_and!; [apply G|eapply wt_kind; [apply views_ok|apply G]|].
  intros b. rewrite (eval_translated _ _ _ _ _ _ Ts). by rewrite Eg.
Qed.

Lemma policy_type_safe_witness :
  exists r e, r ∈ rules sample_program /\ wt requestFields e kindBool /\
    vk (denote (request_field sample_view) e) = kindBool.
Proof.
  assert (exists r, r ∈ rules sample_program /\ cond r <> []) as (r & Hr & N).
  { eexists. split; [|shelve]. vm_compute. left. Unshelve. vm_compute. discriminate. }
  destruct (policy_type_safe _ _ _ _ (VRequest sample_view) r sample_compiles eq_refl Hr N) as (e & W & K & _).
  exists r, e. split_and!; assumption.
Defined.

(** C38. One pass: a program that loads decides any view of its hook within 66
    instructions per byte of its source (and 66 more), whatever the view holds.
    With memory unlimited a budget of that many instructions is always enough. *)
Theorem policy_one_pass name h src p v out b :
  Compile name h src = Some (Ok p) -> view_hook v = h -> noMem b = true ->
  affords (66 * (Z.of_nat (length src) + 1)) b ->
  exists ts ss b', lex src = Some (Ok ts) /\ prog_gram (fieldsFor h) ts ss /\
    run p (field v) out b = (b', Ret (decide_rules name (field v) ss out)) /\
    rules_cost ss <= 66 * (Z.of_nat (length src) + 1) /\
    (noInstr b = false -> instrLeft b - rules_cost ss <= instrLeft b').
Proof.
  intros H <- NM A. apply Compile_sound in H as (ts & ss & L & G & _ & T & _ & _ & <-).
  pose proof (lex_shape _ _ L) as [_ Ln]. pose proof (prog_cost _ _ _ G) as C.
  exists ts, ss. destruct (run p (field v) out b) as [b' o] eqn:R. unfold run in R.
  set (k := if noInstr b then 0 else instrLeft b - rules_cost ss).
  destruct (run_rules_total _ _ (views_ok v) _ (Name p) _ _ out T b b' o k R) as (A' & I & Me & O).
  - unfold k, affords in *. destruct (noInstr b); [lia|]. destruct A; [done|]. lia.
  - unfold k, affords in *. destruct (noInstr b) eqn:NI; [by left|]. destruct A; [done|]. right. lia.
  - rewrite NM in O. destruct o as [x|[]| |]; try done. subst x. exists b'. split_and!; [done|done|done|lia|].
    intros NI. unfold affords in A'. rewrite I, NI in A'. destruct A' as [|A']; [done|].
    unfold k in A'. rewrite NI in A'. lia.
Qed.

Lemma policy_one_pass_witness :
  exists ss b', run sample_program (request_field sample_view) emptyResult (newBudget (mkLimits 100000 0 0)) =
    (b', Ret (decide_rules (bs "p") (request_field sample_view) ss emptyResult)).
Proof.
  destruct (policy_one_pass _ _ _ _ (VRequest sample_view) emptyResult (newBudget (mkLimits 100000 0 0))
    sample_compiles eq_refl eq_refl) as (ts & ss & b' & _ & _ & R & _).
  - right. vm_compute. split; [discriminate|reflexivity].
  - exists ss, b'. exact R.
Defined.

(** Every source is answered: [Compile] returns a program or a load error,
    never loops, and what it returns has at least one rule, each with a verb its
    hook understands. *)
Theorem policy_load_answers name h src :
  exists r, Compile name h src = Some r /\
    match r with
    | Ok p => rules p <> [] /\ Forall (fun x => actionLegal h (act x) = true) (rules p)
    | Err _ => True
    end.
Proof.
  destruct (Compile_total name h src) as [r E]. exists r. split; [done|].
  destruct r as [p|]; [|done]. apply Compile_sound in E as (ts & ss & _ & _ & N & T & A & _).
  split; [|done]. intros R. rewrite R in T. by inversion T; subst.
Qed.

(** The memory a guard held is not given back: after evaluating any guard
    of a loaded program the live count is 64 bytes higher than before, although
    the operand stack the bytes were for is gone. [leak_stops_a_program] is the
    consequence: one rule fits in 150 bytes, three of the same do not. *)
Theorem policy_guard_bytes_kept name h src p v r b b' x :
  Compile name h src = Some (Ok p) -> view_hook v = h -> r ∈ rules p -> cond r <> [] ->
  is_i64 (memLive b) -> eval (consts_of p) (field v) (cond r) b = (b', Ret x) ->
  memLive b' = i64 (memLive b + 64).
Proof.
  intros H <- Hr N R E. apply Compile_sound in H as (ts & ss & _ & _ & _ & T & _).
  apply list_elem_of_lookup in Hr as [i Hr].
  destruct (Forall2_lookup_r _ _ _ _ _ T Hr) as (s & _ & Ts).
  rewrite (eval_translated _ _ _ _ _ _ Ts) in E. destruct Ts as (_ & _ & _ & G).
  destruct (s_guard s) as [e|]; [|done]. destruct G as (_ & W & _). unfold bind in E.
  destruct (charged _ _ _) as [b1 [w| | |]] eqn:E1; try done. injection E as <- _.
  rewrite (charged_live _ _ _ _ _ E1 R). f_equal. f_equal.
  pose proof (charged_safe (field v) e b b1 _ E1) as V. cbn in V. subst w.
  destruct (wt_kind _ _ (views_ok v) e kindBool W) as [K V]. by apply wf_bool.
Qed.

Lemma policy_guard_bytes_kept_witness :
  exists b', eval (consts_of sample_program) (request_field sample_view)
      (match rules sample_program with r :: _ => cond r | [] => [] end) sample_budget = (b', Ret true) /\
    memLive b' = i64 (memLive sample_budget + 64).
Proof.
  assert (exists b', eval (consts_of sample_program) (request_field sample_view)
    (match rules sample_program with r :: _ => cond r | [] => [] end) sample_budget = (b', Ret true)) as [b' E]
    by (eexists; vm_compute; reflexivity).
  exists b'. split; [exact E|].
  destruct (rules sample_program) as [|r rs] eqn:ER; [vm_compute in ER; discriminate|].
  refine (policy_guard_bytes_kept _ _ _ _ (VRequest sample_view) r _ _ true sample_compiles eq_refl _ _ _ E).
  - rewrite ER. left.
  - intros N. rewrite N in E. vm_compute in ER. injection ER as <- _. discriminate.
  - vm_compute. split; [discriminate|reflexivity].
Defined.

(** Three rules that do not hold, under a ceiling that one of them fits in twice
    over: the third is stopped, and with it the invocation. *)
Definition leaky (n : nat) : bytes :=
  concat (repeat (bytes_of_string ("deny if stream" ++ nl)%string) n).
Definition leaky_run (n : nat) : option (outcome (hresult * bool)) :=
  match Compile (bs "p") HookRequest (leaky n) with
  | Some (Ok p) => Some (snd (run p (request_field sample_view) emptyResult (newBudget (mkLimits 1000 150 0))))
  | _ => None
  end.

Example leak_stops_a_program :
  leaky_run 1 = Some (Ret (emptyResult, false)) /\ leaky_run 2 = Some (Ret (emptyResult, false)) /\
  leaky_run 3 = Some (Fail ErrMemoryLimit).
Proof. vm_compute. done. Qed.
