(* ===== verification/HookWatch.v ===== *)
(** * The hook watchdog ([internal/luaext/engine.go]: [watch], [refuse],
    [countAbandonment], [inflight], [trip])

    Invocations of one hook race: each is a watcher that waits at most the wall
    clock and a goroutine that runs the hook, and they share the hook's atomic
    counters. Every atomic operation is one step, so the interleavings of the
    model are those of the code. The counters of the other hooks are not touched
    by these functions, and [limits.Timeout] is positive (a zero or negative one
    calls the hook directly, with no watcher). *)
From stdpp Require Import base list.
From Stdlib Require Import ZArith Lia.
From S2P Require Import Prelude PolicyVM.
Open Scope Z_scope.

Definition maxConsecutiveTimeouts : Z := 32.
Definition maxAbandoned : Z := 8.
Definition maxLive : Z := 4 * maxAbandoned.

(** [Hook.failsClosed] *)
Definition failsClosed (h : Hook) : bool :=
  match h with HookFilterRequest => true | _ => false end.

(** ** State *)

(** How [watch] returns: the hook's own answer, or one of its refusals. *)
Inductive watched : Type := RDone | RTimeout | RAbandonBacklog | RLiveBacklog | RCancelled.

#[export] Instance watched_eq_dec : EqDecision watched.
Proof. solve_decision. Defined.

(** Where the watcher is. *)
Inductive wpc : Type :=
| WStart                  (* [st.invocations.Add(1)] *)
| WAdmit                  (* [abandoned.Load() >= maxAbandoned] *)
| WReserve                (* [live.Add(1) > maxLive] *)
| WUndo                   (* [live.Add(-1)] *)
| WRefuse (r : watched)   (* [refuse] *)
| WWait                   (* the first select *)
| WGrace                  (* the second select *)
| WMark                   (* [abandoned.Add(1)] *)
| WClaim                  (* [CompareAndSwap(0, 2)] *)
| WUnmark                 (* [abandoned.Add(-1)]: the claim was lost *)
| WRecv                   (* [<-done] *)
| WCheck                  (* [ctx.Err()] after the claim *)
| WCount (r : watched)    (* [countAbandonment] *)
| WTrip (r : watched)     (* [trip] *)
| WReturn (r : watched).

(** Where the goroutine is. *)
Inductive gpc : Type :=
| GNone                   (* not started *)
| GRun                    (* in the hook *)
| GRelease                (* [live.Add(-1)] *)
| GClaim                  (* [CompareAndSwap(0, 1)] *)
| GUnmark                 (* [abandoned.Add(-1)] *)
| GSend                   (* [done <- err] *)
| GDone.

(** [inflight.state]. *)
Inductive fstate : Type := Running | Finished | Abandoned.

Record inv : Type := mkInv { wat : wpc; gor : gpc; flight : fstate }.

(** The hook's counters, and the statistics these functions keep. *)
Record counters : Type := mkCounters {
  live : Z; abandoned : Z; consecTMO : Z; tripped : bool;
  invocations : Z; timeouts : Z; refused : Z; trips : Z }.

Record state : Type := mkState { cnt : counters; invs : list inv }.

Definition set_live (c : counters) (n : Z) : counters :=
  mkCounters n (abandoned c) (consecTMO c) (tripped c) (invocations c) (timeouts c) (refused c) (trips c).
Definition set_abandoned (c : counters) (n : Z) : counters :=
  mkCounters (live c) n (consecTMO c) (tripped c) (invocations c) (timeouts c) (refused c) (trips c).
Definition set_consec (c : counters) (n : Z) : counters :=
  mkCounters (live c) (abandoned c) n (tripped c) (invocations c) (timeouts c) (refused c) (trips c).
Definition set_tripped (c : counters) (t : bool) (n : Z) : counters :=
  mkCounters (live c) (abandoned c) (consecTMO c) t (invocations c) (timeouts c) (refused c) n.
Definition set_stats (c : counters) (i t r : Z) : counters :=
  mkCounters (live c) (abandoned c) (consecTMO c) (tripped c) i t r (trips c).

(** ** Steps *)

(** What happens next to an invocation: its watcher takes a step ([gone] is
    what [ctx.Err()] answers, when it is asked), the deadline or the grace timer
    fires, the answer is received, or its goroutine takes a step. *)
Inductive event : Type := EvWatcher (gone : bool) | EvDeadline | EvGrace | EvReceive | EvGoroutine.

Definition at_w (i : inv) (w : wpc) : inv := mkInv w (gor i) (flight i).

Section Watch.
Variable h : Hook.

Definition watcher (gone : bool) (c : counters) (i : inv) : option (counters * inv) :=
  match wat i with
  | WStart => Some (set_stats c (invocations c + 1) (timeouts c) (refused c), at_w i WAdmit)
  | WAdmit => Some (c, at_w i (if maxAbandoned <=? abandoned c then WRefuse RAbandonBacklog else WReserve))
  | WReserve =>
      let n := live c + 1 in
      Some (set_live c n, if maxLive <? n then at_w i WUndo else mkInv WWait GRun Running)
  | WUndo => Some (set_live c (live c - 1), at_w i (WRefuse RLiveBacklog))
  | WRefuse r =>
      Some (set_stats c (invocations c) (timeouts c) (refused c + 1),
            at_w i (if gone then WReturn RCancelled else WCount r))
  | WMark => Some (set_abandoned c (abandoned c + 1), at_w i WClaim)
  | WClaim =>
      match flight i with
      | Running => Some (c, mkInv WCheck (gor i) Abandoned)
      | _ => Some (c, at_w i WUnmark)
      end
  | WUnmark => Some (set_abandoned c (abandoned c - 1), at_w i WRecv)
  | WCheck =>
      if gone then Some (c, at_w i (WReturn RCancelled))
      else Some (set_stats c (invocations c) (timeouts c + 1) (refused c), at_w i (WCount RTimeout))
  | WCount r =>
      if failsClosed h then Some (c, at_w i (WReturn r))
      else
        let n := consecTMO c + 1 in
        Some (set_consec c n, at_w i (if maxConsecutiveTimeouts <=? n then WTrip r else WReturn r))
  | WTrip r =>
      Some (if tripped c then c else set_tripped c true (trips c + 1), at_w i (WReturn r))
  | WWait | WGrace | WRecv | WReturn _ => None
  end.

(** The goroutine: the hook returns when it likes (or never), then [finish],
    then the buffered send. *)
Definition goroutine (c : counters) (i : inv) : option (counters * inv) :=
  let to g := mkInv (wat i) g (flight i) in
  match gor i with
  | GRun => Some (c, to GRelease)
  | GRelease => Some (set_live c (live c - 1), to GClaim)
  | GClaim =>
      match flight i with
      | Running => Some (c, mkInv (wat i) GSend Finished)
      | _ => Some (c, to GUnmark)
      end
  | GUnmark => Some (set_abandoned c (abandoned c - 1), to GSend)
  | GSend => Some (c, to GDone)
  | GNone | GDone => None
  end.

Definition act_on (e : event) (c : counters) (i : inv) : option (counters * inv) :=
  match e with
  | EvWatcher gone => watcher gone c i
  | EvGoroutine => goroutine c i
  | EvDeadline => match wat i with WWait => Some (c, at_w i WGrace) | _ => None end
  | EvGrace => match wat i with WGrace => Some (c, at_w i WMark) | _ => None end
  | EvReceive =>
      match wat i, gor i with
      | (WWait | WGrace | WRecv), GDone => Some (set_consec c 0, at_w i (WReturn RDone))
      | _, _ => None
      end
  end.

(** A new request, or an event of invocation [k]. *)
Inductive move : Type := Call | Ev (k : nat) (e : event).

Definition step (m : move) (s : state) : option state :=
  match m with
  | Call => Some (mkState (cnt s) (invs s ++ [mkInv WStart GNone Running]))
  | Ev k e =>
      match invs s !! k with
      | None => None
      | Some i =>
          match act_on e (cnt s) i with
          | None => None
          | Some (c, i') => Some (mkState c (<[k := i']> (invs s)))
          end
      end
  end.

Fixpoint steps (ms : list move) (s : state) : option state :=
  match ms with
  | [] => Some s
  | m :: ms' => match step m s with Some s' => steps ms' s' | None => None end
  end.

Definition init : state := mkState (mkCounters 0 0 0 false 0 0 0 0) [].

Inductive reachable : state -> Prop :=
| reach_init : reachable init
| reach_step m s s' : reachable s -> step m s = Some s' -> reachable s'.

Lemma steps_reachable ms s s' : reachable s -> steps ms s = Some s' -> reachable s'.
Proof.
  revert s. induction ms as [|m ms IH]; intros s R H; cbn in H; [by injection H as <-|].
  destruct (step m s) eqn:E; [|done]. eapply IH; [|exact H]. by eapply reach_step.
Qed.
End Watch.

(** ** Counting *)

(** Goroutines that hold a reservation and run the hook. *)
Definition running (i : inv) : Z := match gor i with GRun | GRelease => 1 | _ => 0 end.

(** What an invocation adds to [live]: its goroutine's reservation, or one it
    is about to give back. *)
Definition holds (i : inv) : Z := running i + match wat i with WUndo => 1 | _ => 0 end.

(** What it adds to [abandoned]: a claim in progress, or a goroutine nobody
    waits for that has not said so yet. *)
Definition marks (i : inv) : Z :=
  (match wat i with WClaim | WUnmark => 1 | _ => 0 end) +
  match flight i, gor i with
  | Abandoned, (GRun | GRelease | GClaim | GUnmark) => 1
  | _, _ => 0
  end.

Fixpoint count (f : inv -> Z) (l : list inv) : Z :=
  match l with [] => 0 | i :: l' => f i + count f l' end.

Lemma count_app f l l' : count f (l ++ l') = count f l + count f l'.
Proof. induction l as [|i l IH]; cbn; [done|].  rewrite IH. lia. Qed.

Lemma tally_insert f l k i i' : l !! k = Some i -> count f (<[k := i']> l) = count f l - f i + f i'.
Proof.
  revert k. induction l as [|j l IH]; intros [|k] H; simpl in *; try done.
  - injection H as ->. lia.
  - rewrite (IH _ H). lia.
Qed.

Lemma tally_nonneg f l : (forall i, 0 <= f i) -> 0 <= count f l.
Proof. intros H. induction l as [|i l IH]; cbn; [lia|].  specialize (H i). lia. Qed.

Lemma count_le f g l : (forall i, f i <= g i) -> count f l <= count g l.
Proof. intros H. induction l as [|i l IH]; cbn; [lia|].  specialize (H i). lia. Qed.

(** Where the two halves of an invocation can be at once. *)
Definition coherent (i : inv) : Prop :=
  match wat i with
  | WStart | WAdmit | WReserve | WUndo => gor i = GNone /\ flight i = Running
  | WRefuse r => r <> RDone /\ r <> RTimeout /\ gor i = GNone /\ flight i = Running
  | WWait | WGrace | WMark | WClaim =>
      (flight i = Running /\ (gor i = GRun \/ gor i = GRelease \/ gor i = GClaim)) \/
      (flight i = Finished /\ (gor i = GSend \/ gor i = GDone))
  | WUnmark | WRecv => flight i = Finished /\ (gor i = GSend \/ gor i = GDone)
  | WCheck => flight i = Abandoned /\ gor i <> GNone
  | WCount r | WTrip r =>
      r <> RDone /\
      ((r = RTimeout /\ flight i = Abandoned /\ gor i <> GNone) \/
       (r <> RTimeout /\ gor i = GNone /\ flight i = Running))
  | WReturn RDone => flight i = Finished /\ gor i = GDone
  | WReturn RTimeout => flight i = Abandoned /\ gor i <> GNone
  | WReturn RCancelled => (flight i = Abandoned /\ gor i <> GNone) \/ (gor i = GNone /\ flight i = Running)
  | WReturn _ => gor i = GNone /\ flight i = Running
  end /\ (flight i = Abandoned \/ gor i <> GUnmark).

Record wf (s : state) : Prop := {
  wf_live : live (cnt s) = count holds (invs s);
  wf_abandoned : abandoned (cnt s) = count marks (invs s);
  wf_running : count running (invs s) <= maxLive;
  wf_coherent : Forall coherent (invs s) }.


(** What a step of one invocation does to the counters and to itself. *)
Definition accounts (c c' : counters) (i i' : inv) : Prop :=
  coherent i' /\ live c' - live c = holds i' - holds i /\
  abandoned c' - abandoned c = marks i' - marks i /\
  (running i' <= running i \/ (running i = 0 /\ running i' = 1 /\ live c + 1 <= maxLive)).

Ltac account :=
  unfold accounts, coherent, holds, running, marks; cbn;
  split_and!; auto; try lia; try (intuition congruence); try tauto.

Lemma watcher_ok h gone c i c' i' : watcher h gone c i = Some (c', i') -> coherent i -> accounts c c' i i'.
Proof.
  destruct i as [w g fl]. unfold watcher, at_w. intros H [C1 C2]. cbn in *.
  destruct w; cbn in *; try discriminate H.
  - injection H as <- <-. account.
  - injection H as <- <-. case_match; account.
  - destruct C1 as [-> ->]. destruct (Z.ltb_spec maxLive (live c + 1)); injection H as <- <-; account.
  - injection H as <- <-. account.
  - injection H as <- <-. destruct C1 as (? & ? & -> & ->). case_match; destruct r; account.
  - injection H as <- <-. account.
  - destruct fl; injection H as <- <-; [|account..].
    destruct C1 as [[_ C1]|[? _]]; [|done]. destruct C1 as [->|[->| ->]]; account.
  - injection H as <- <-. destruct C1 as (-> & [-> | ->]); account.
  - case_match; injection H as <- <-; account.
  - case_match; injection H as <- <-; [|case_match]; destruct r; account.
  - injection H as <- <-. case_match; destruct r; account.
Qed.

Lemma goroutine_ok c i c' i' : goroutine c i = Some (c', i') -> coherent i -> accounts c c' i i'.
Proof.
  destruct i as [w g fl]. unfold goroutine. intros H [C1 C2]. cbn in *.
  destruct g; cbn in *; try discriminate H; destruct fl; injection H as <- <-;
    destruct w as [| | | |r| | | | | | | |r|r|r]; try destruct r; account.
Qed.

Lemma act_on_ok h e c i c' i' : act_on h e c i = Some (c', i') -> coherent i -> accounts c c' i i'.
Proof.
  intros H C. destruct e; cbn in H.
  - by eapply watcher_ok.
  - destruct i as [w g fl], C as [C1 C2]. cbn in *. destruct w; try discriminate. injection H as <- <-. account.
  - destruct i as [w g fl], C as [C1 C2]. cbn in *. destruct w; try discriminate. injection H as <- <-. account.
  - destruct i as [w g fl], C as [C1 C2]. cbn in *. destruct w, g; try discriminate;
      injection H as <- <-; account.
  - by eapply goroutine_ok.
Qed.

Lemma running_holds i : running i <= holds i.
Proof. unfold holds. destruct (wat i); lia. Qed.

Lemma wf_step h m s s' : wf s -> step h m s = Some s' -> wf s'.
Proof.
  intros [L A R C] H. destruct m as [|k e]; cbn in H.
  { injection H as <-. split; cbn; rewrite ?count_app.
    1,2: rewrite ?L, ?A; symmetry; apply Z.add_0_r.
    1: replace (count running [_]) with 0 by done; lia.
    apply Forall_app_2; [done|]. apply Forall_singleton. split; [done|by right]. }
  destruct (invs s !! k) as [i|] eqn:E; [|done].
  destruct (act_on h e (cnt s) i) as [[c' i']|] eqn:Ea; [|done]. injection H as <-.
  apply act_on_ok in Ea as (C' & L' & A' & R'); [|by eapply Forall_lookup_1].
  split; cbn; rewrite ?(tally_insert _ _ _ _ _ E); try lia.
  - pose proof (count_le running holds (invs s) running_holds). destruct R' as [|(? & ? & ?)]; lia.
  - by apply Forall_insert.
Qed.

Lemma reachable_wf h s : reachable h s -> wf s.
Proof. induction 1; [split; cbn; unfold maxLive, maxAbandoned; auto; lia|by eapply wf_step]. Qed.

(** ** Tripping *)

(** What the trip remembers. *)
Definition trip_ok (h : Hook) (s : state) : Prop :=
  0 <= consecTMO (cnt s) /\
  (failsClosed h = true -> consecTMO (cnt s) = 0 /\ tripped (cnt s) = false) /\
  Forall (fun i => match wat i with WTrip _ => failsClosed h = false | _ => True end) (invs s).

Lemma act_on_trip h e c i c' i' : act_on h e c i = Some (c', i') -> 
  0 <= consecTMO c ->
  (failsClosed h = true -> consecTMO c = 0 /\ tripped c = false) ->
  (match wat i with WTrip _ => failsClosed h = false | _ => True end) ->
  0 <= consecTMO c' /\ (failsClosed h = true -> consecTMO c' = 0 /\ tripped c' = false) /\
  (match wat i' with WTrip _ => failsClosed h = false | _ => True end).
Proof.
  destruct i as [w g fl]. intros H P F W. destruct e; cbn in H.
  - unfold watcher, at_w in H. cbn in *. destruct w; try discriminate;
      repeat match type of H with context [if ?x then _ else _] => destruct x eqn:? end;
      repeat match type of H with context [match fl with _ => _ end] => destruct fl end;
      injection H as <- <-; cbn in *; split_and!; auto; try lia; congruence.
  - destruct w; try discriminate. injection H as <- <-. auto.
  - destruct w; try discriminate. injection H as <- <-. auto.
  - destruct w, g; try discriminate; injection H as <- <-; cbn in *; split_and!; auto; try lia;
      intros Hc; destruct (F Hc); auto.
  - unfold goroutine in H. cbn in H. destruct g, fl; try discriminate; injection H as <- <-; cbn in *; auto.
Qed.

Lemma reachable_trip h s : reachable h s -> trip_ok h s.
Proof.
  induction 1 as [|m s s' R (P & F & W) H]; [split_and!; cbn; auto; lia|].
  destruct m as [|k e]; cbn in H.
  { injection H as <-. split_and!; cbn; auto. apply Forall_app_2; [done|]. by apply Forall_singleton. }
  destruct (invs s !! k) as [i|] eqn:E; [|done].
  destruct (act_on h e (cnt s) i) as [[c' i']|] eqn:Ea; [|done]. injection H as <-.
  eapply act_on_trip in Ea as (P' & F' & W'); [|done..|]; [|by eapply Forall_lookup_1 in W].
  split_and!; cbn; auto. by apply Forall_insert.
Qed.

(** ** The properties *)

(** [n] requests at once, all of them past the deadline and the grace before
    their goroutines return. *)
Definition burst (n : nat) : list move :=
  repeat Call n ++
  flat_map (fun k => [Ev k (EvWatcher false); Ev k (EvWatcher false); Ev k (EvWatcher false)]) (seq 0 n) ++
  flat_map (fun k => [Ev k EvDeadline; Ev k EvGrace; Ev k (EvWatcher false); Ev k (EvWatcher false)]) (seq 0 n).

Definition after_burst (n : nat) : state :=
  match steps HookRequest (burst n) init with Some s => s | None => init end.

Lemma burst_reachable : reachable HookRequest (after_burst 32).
Proof.
  apply (steps_reachable _ (burst 32) init); [constructor|]. vm_compute. reflexivity.
Qed.

(** C17. At every instant, under every interleaving, at most [maxLive] goroutines
    of a hook are running it; [live] counts exactly those and the reservations
    about to be given back, and [abandoned] exactly the claims in progress and
    the goroutines nobody waits for, so neither count ever goes below zero and
    both are zero again once every invocation has returned and every goroutine
    has finished. *)
Theorem watch_bounds_goroutines h s : reachable h s ->
  count running (invs s) <= maxLive /\
  live (cnt s) = count holds (invs s) /\ 0 <= live (cnt s) /\
  abandoned (cnt s) = count marks (invs s) /\ 0 <= abandoned (cnt s) /\
  (Forall (fun i => (exists r, wat i = WReturn r) /\ (gor i = GNone \/ gor i = GDone)) (invs s) ->
   live (cnt s) = 0 /\ abandoned (cnt s) = 0).
Proof.
  intros R. destruct (reachable_wf h s R) as [L A B _]. rewrite L, A.
  assert (forall i, 0 <= holds i) by (intros i; unfold holds, running; destruct (gor i), (wat i); lia).
  assert (forall i, 0 <= marks i) by (intros i; unfold marks; destruct (gor i), (wat i), (flight i); lia).
  split_and!; auto using tally_nonneg. intros F. clear - F.
  induction F as [|i l [[r Ei] Eg] _ [IH1 IH2]]; [done|]. cbn. rewrite IH1, IH2.
  unfold holds, marks, running. rewrite Ei. destruct Eg as [-> | ->]; destruct (flight i); auto.
Qed.

Lemma watch_bounds_goroutines_witness :
  count running (invs (after_burst 32)) <= maxLive /\ length (invs (after_burst 32)) = 32%nat.
Proof.
  split; [apply (watch_bounds_goroutines HookRequest _ burst_reachable)|vm_compute; reflexivity].
Defined.

(** The watcher and the goroutine never both win: when [watch] returns the
    hook's own answer the goroutine had finished and was not abandoned; when it
    returns [ErrTimeout] the invocation was claimed while it was still running.
    So a hook that completed before it was claimed is never thrown away, and
    never counted as a leak. *)
Theorem answer_or_abandonment h s k i : reachable h s -> invs s !! k = Some i ->
  (wat i = WReturn RDone -> flight i = Finished /\ gor i = GDone /\ marks i = 0) /\
  (wat i = WReturn RTimeout -> flight i = Abandoned /\ gor i <> GNone) /\
  (flight i = Finished -> wat i <> WCheck /\ wat i <> WReturn RTimeout).
Proof.
  intros R H. destruct (reachable_wf h s R) as [_ _ _ C].
  pose proof (Forall_lookup_1 _ _ _ _ C H) as [C1 C2]. destruct i as [w g f]. cbn in *. split_and!.
  - intros ->. destruct C1 as [-> ->]. done.
  - by intros ->.
  - intros ->. split; intros ->; destruct C1; done.
Qed.

Lemma answer_or_abandonment_witness :
  exists i, invs (after_burst 32) !! 3%nat = Some i /\ flight i = Abandoned /\
    (flight i = Finished -> wat i <> WCheck /\ wat i <> WReturn RTimeout).
Proof.
  assert (invs (after_burst 32) !! 3%nat = Some (mkInv WCheck GRun Abandoned)) as E by (vm_compute; reflexivity).
  exists (mkInv WCheck GRun Abandoned). split; [exact E|]. split; [reflexivity|].
  apply (answer_or_abandonment HookRequest _ 3 _ burst_reachable E).
Defined.

(** A hook that fails closed is never switched off, whatever the timeouts
    and refusals: the trip bit stays clear and no trip is counted. *)
Theorem fail_closed_never_trips h s : failsClosed h = true -> reachable h s ->
  tripped (cnt s) = false /\ trips (cnt s) = 0.
Proof.
  intros F R. split; [by apply (reachable_trip h s R)|].
  induction R as [|m s s' R IH H]; [done|]. destruct m as [|k e]; cbn in H; [by injection H as <-|].
  destruct (invs s !! k) as [i|] eqn:E; [|done].
  destruct (act_on h e (cnt s) i) as [[c' i']|] eqn:Ea; [|done]. injection H as <-. cbn.
  destruct (reachable_trip h s R) as (_ & _ & W). pose proof (Forall_lookup_1 _ _ _ _ W E) as Wi. cbn in Wi.
  rewrite <- IH. clear IH W R E. destruct i as [w g fl]. cbn in *. destruct e; cbn in Ea.
  - unfold watcher, at_w in Ea. cbn in Ea. rewrite ?F in *. destruct w; try discriminate;
      repeat match type of Ea with context [if ?x then _ else _] => destruct x eqn:? end;
      repeat match type of Ea with context [match fl with _ => _ end] => destruct fl end;
      by injection Ea as <- <-.
  - destruct w; try discriminate. by injection Ea as <- <-.
  - destruct w; try discriminate. by injection Ea as <- <-.
  - destruct w, g; try discriminate; by injection Ea as <- <-.
  - unfold goroutine in Ea. cbn in Ea. destruct g, fl; try discriminate; by injection Ea as <- <-.
Qed.

Lemma fail_closed_never_trips_witness :
  exists s, reachable HookFilterRequest s /\ timeouts (cnt s) = 1 /\ tripped (cnt s) = false.
Proof.
  destruct (steps HookFilterRequest (burst 1 ++ [Ev 0 (EvWatcher false); Ev 0 (EvWatcher false)]) init)
    as [s|] eqn:E; [|vm_compute in E; discriminate].
  assert (reachable HookFilterRequest s) as R by (eapply steps_reachable; [constructor|exact E]).
  exists s. split; [exact R|]. split.
  - vm_compute in E. injection E as <-. reflexivity.
  - apply (fail_closed_never_trips HookFilterRequest s eq_refl R).
Defined.

(** [maxAbandoned] does not bound the abandoned invocations: a burst of
    [maxLive] requests that are all admitted before any of them is abandoned ends
    with four times [maxAbandoned] of them abandoned and still running. *)
Theorem abandoned_exceeds_its_bound :
  exists s, reachable HookRequest s /\ maxAbandoned < abandoned (cnt s) /\ abandoned (cnt s) = maxLive /\
    Forall (fun i => gor i = GRun /\ flight i = Abandoned) (invs s).
Proof.
  exists (after_burst 32). split; [apply burst_reachable|]. vm_compute. split_and!; [done|done|].
  repeat first [apply Forall_nil_2 | apply Forall_cons_2; [by split|]].
Qed.
