(* ===== verification/LuaEngine.v ===== *)
(** * The extension engine ([internal/luaext/engine.go], [invoke.go])

    Which hooks run, how the programs of a hook share one budget, and how the
    verdicts of programs, Lua plugins and native hooks become a decision. The
    Lua runtime ([luaHookRun]) and the native hooks are parameters: a native is
    the function an embedder registered, [None] when it panics. The watchdog's
    own answer is a parameter too; [HookWatch] is its model. *)
From Stdlib Require Import String.
From stdpp Require Import base gmap list.
From Stdlib Require Import ZArith Lia.
From S2P Require Import Prelude PolicyLex PolicyVM PolicyCompile PolicyRef PolicyCheck PolicyProps HookWatch.
Open Scope Z_scope.

(** ** Hooks *)

Definition hookNames : list (bytes * Hook) :=
  [(bs "on_request", HookRequest); (bs "on_route", HookRoute); (bs "on_response", HookResponse);
   (bs "on_email", HookEmail); (bs "on_filter_request", HookFilterRequest)].

Definition Hook_String (h : Hook) : bytes :=
  match h with
  | HookRequest => bs "on_request" | HookRoute => bs "on_route" | HookResponse => bs "on_response"
  | HookEmail => bs "on_email" | HookFilterRequest => bs "on_filter_request"
  end.

Definition ParseHook (s : bytes) : option Hook :=
  option_map snd (List.find (fun p => beqb (fst p) s) hookNames).

(** The bit of a hook in a mask. *)
Definition hook_bit (h : Hook) : Z :=
  match h with
  | HookRequest => 1 | HookRoute => 2 | HookResponse => 4 | HookEmail => 8 | HookFilterRequest => 16
  end.

(** [hookSet]: the mask of the configured names, all of them when none is
    given; the filter hook is always in it. An unknown name is the error. *)
Fixpoint hook_mask (names : list bytes) (m : Z) : result bytes Z :=
  match names with
  | [] => Ok m
  | n :: ns => match ParseHook n with
               | None => Err n
               | Some h => hook_mask ns (Z.lor m (hook_bit h))
               end
  end.

Definition hookSet (names : list bytes) : result bytes Z :=
  match names with
  | [] => Ok 31
  | _ => hook_mask names (hook_bit HookFilterRequest)
  end.

(** ** Invocations *)

(** What ends or skips a unit. *)
Inductive unitError : Type := UnitLimit (e : limitError) | UnitPanic | UnitOther (msg : bytes).

(** [fatal] *)
Definition fatal (e : unitError) : bool := match e with UnitLimit _ => true | _ => false end.

Record stats : Type := mkStats { st_denies : Z; st_skipped : Z; st_panics : Z; st_limitHits : Z }.

(** [skip]: the counters; the warning it logs is not modelled. *)
Definition skip (e : unitError) (s : stats) : stats :=
  mkStats (st_denies s) (st_skipped s + 1)
    (st_panics s + match e with UnitPanic => 1 | _ => 0 end)
    (st_limitHits s + match e with UnitLimit _ => 1 | _ => 0 end).

(** [runPrograms]: the programs in order over one budget. [None] is a program
    that does not end. *)
Fixpoint runPrograms (ps : list Program) (fld : Z -> value) (out : hresult) (st : stats) (b : budget)
  : option (budget * stats * result unitError (hresult * bool)) :=
  match ps with
  | [] => Some (b, st, Ok (out, false))
  | p :: ps' =>
      match run p fld (mkResult (tags out) false false [] []) b with
      | (b', Ret (res, true)) => Some (b', st, Ok (res, true))
      | (b', Ret (res, false)) => runPrograms ps' fld res st b'
      | (b', Fail e) => Some (b', skip (UnitLimit e) st, Err (UnitLimit e))
      | (b', Panic) => runPrograms ps' fld out (skip UnitPanic st) b'
      | (_, OutOfFuel) => None
      end
  end.

(** [RequestDecision] and [RouteDecision] have the same fields; an
    [EmailDecision] leaves the code empty. *)
Record decision : Type := mkDecision { dtags : tagset; dDenied : bool; dReason : bytes; dCode : bytes }.
Definition zeroDecision : decision := mkDecision [] false [] [].

Definition DefaultDenyCode : bytes := bs "extension_denied".
Definition defaultReason : bytes := bs "refused by a gateway extension".

Section Invoke.
Variable progs : list Program.
Variable limits : Limits.
Variable fld : Z -> value.
(** [luaHookRun]: the verdict (denied, reason, code) and the tags, or an error. *)
Variable lua : hresult -> result unitError (bool * bytes * bytes * hresult).
(** The natives of the hook, and [ctx.Err()] after each. *)
Variable natives : list (decision -> option decision).
Variable gone : nat -> bool.

(** The loop over the natives. *)
Fixpoint run_natives (ns : list (decision -> option decision)) (k : nat) (out : decision) (st : stats)
  : stats * result unitError decision :=
  match ns with
  | [] => (st, Ok out)
  | n :: ns' =>
      match n out with
      | None => run_natives ns' (S k) out (skip UnitPanic st)
      | Some scratch =>
          if dDenied scratch then (st, Ok scratch)
          else if gone k then (st, Err (UnitOther (bs "context canceled")))
          else run_natives ns' (S k) scratch st
      end
  end.

(** [requestJob.run] and [routeJob.run]: programs, then Lua, then natives; a
    stop ends it, denied or allowed. *)
Definition job_run (st : stats) : option (stats * result unitError decision) :=
  match runPrograms progs fld emptyResult st (newBudget limits) with
  | None => None
  | Some (_, st, Err e) => Some (st, Err e)
  | Some (_, st, Ok (res, true)) =>
      Some (st, Ok (if denied res then mkDecision (tags res) true (reason res) []
                    else mkDecision (tags res) false [] []))
  | Some (_, st, Ok (res, false)) =>
      match lua res with
      | Err e => Some (st, Err e)
      | Ok (true, why, code, res') => Some (st, Ok (mkDecision (tags res') true why code))
      | Ok (false, _, _, res') => Some (run_natives natives 0 (mkDecision (tags res') false [] []) st)
      end
  end.

(** [emailJob.run]: only a deny of the programs ends it; an allow goes on to the
    plugins and the natives, one of which is the transport. A delivery error is
    not part of the decision. *)
Definition email_run (st : stats) : option (stats * result unitError decision) :=
  match runPrograms progs fld emptyResult st (newBudget limits) with
  | None => None
  | Some (_, st, Err e) => Some (st, Err e)
  | Some (_, st, Ok (res, stop)) =>
      if stop && denied res then Some (st, Ok (mkDecision (tags res) true (reason res) []))
      else
        match lua res with
        | Err e => Some (st, Err e)
        | Ok (true, why, _, res') => Some (st, Ok (mkDecision (tags res') true why []))
        | Ok (false, _, _, res') => Some (run_natives natives 0 (mkDecision (tags res') false [] []) st)
        end
  end.

(** [OnRequest] and [OnRoute]: [enabled] is [Enabled(h)]; [w] is how [watch]
    ended, [RDone] meaning that the job's own answer is returned. *)
Definition invoke (enabled : bool) (w : watched) (st : stats) : option (stats * decision) :=
  if negb enabled then Some (st, zeroDecision)
  else
    match w with
    | RDone =>
        match job_run st with
        | None => None
        | Some (st, Err e) => Some (skip e st, zeroDecision)
        | Some (st, Ok d) =>
            if dDenied d then
              Some (mkStats (st_denies st + 1) (st_skipped st) (st_panics st) (st_limitHits st),
                    mkDecision (dtags d) true
                      (if decide (dReason d = []) then defaultReason else dReason d)
                      (if decide (dCode d = []) then DefaultDenyCode else dCode d))
            else Some (st, d)
        end
    | _ => Some (skip (UnitOther (bs "watch")) st, zeroDecision)
    end.
End Invoke.

(** ** Programs together *)

(** What a list of loaded sources decides: the first program that stops. *)
Fixpoint decide_programs (ps : list (bytes * list srule)) (fld : Z -> value) (out : hresult) : hresult * bool :=
  match ps with
  | [] => (out, false)
  | (name, ss) :: ps' =>
      match decide_rules name fld ss (mkResult (tags out) false false [] []) with
      | (res, true) => (res, true)
      | (res, false) => decide_programs ps' fld res
      end
  end.

(** [p] is the program of some source at hook [h], whose rules are [ss]. *)
Definition loaded (h : Hook) (p : Program) (q : bytes * list srule) : Prop :=
  Name p = fst q /\ PHook p = h /\
  Forall2 (translated (fieldsFor h) (consts_of p) (Z.of_nat maxStack)) (snd q) (rules p).

Lemma Compile_loaded name h src p : Compile name h src = Some (Ok p) -> exists ss, loaded h p (name, ss).
Proof.
  intros H. apply Compile_sound in H as (ts & ss & _ & _ & _ & T & _ & E1 & E2). by exists ss.
Qed.

Lemma loaded_run h p q v out b b' o : loaded h p q -> view_hook v = h ->
  run p (field v) out b = (b', o) ->
  match o with Ret r => r = decide_rules (fst q) (field v) (snd q) out | Fail _ => True | _ => False end.
Proof. intros (<- & _ & T) <- R. eapply run_rules_safe; [exact T|exact R]. Qed.

(** The programs of a hook never panic and never fail to end; without a
    ceiling they decide as their rules do. *)
Lemma runPrograms_decides h ps qs v out st b : Forall2 (loaded h) ps qs -> view_hook v = h ->
  exists b' st' r, runPrograms ps (field v) out st b = Some (b', st', r) /\
    match r with
    | Ok x => x = decide_programs qs (field v) out /\ st' = st
    | Err e => fatal e = true /\ st_limitHits st' = st_limitHits st + 1
    end.
Proof.
  intros F V. revert out b. induction F as [|p q ps qs L _ IH]; intros out b; cbn [runPrograms].
  { do 3 eexists. split; [reflexivity|]. done. }
  set (fresh_ := mkResult (tags out) false false [] []).
  destruct (run p (field v) fresh_ b) as [b' o] eqn:R.
  pose proof (loaded_run _ _ _ _ _ _ _ _ L V R) as D. unfold fresh_ in *. destruct q as [name ss].
  cbn [fst snd decide_programs] in *.
  destruct o as [[res stop]|e| |]; try done.
  - rewrite <- D. destruct stop; [|apply IH]. do 3 eexists. split; [reflexivity|]. done.
  - do 3 eexists. split; [reflexivity|]. done.
Qed.

Lemma decide_rules_goes_on name fld ss out res :
  decide_rules name fld ss out = (res, false) -> denied res = denied out.
Proof.
  revert out. induction ss as [|s ss IH]; intros out H; cbn in H; [by injection H as <-|].
  destruct (match s_guard s with None => true | Some e => vb (denote fld e) end); [|by apply IH].
  destruct (s_act s); try discriminate; apply IH in H; exact H.
Qed.

Lemma decide_programs_goes_on ps fld out res :
  denied out = false -> decide_programs ps fld out = (res, false) -> denied res = false.
Proof.
  revert out. induction ps as [|[name ss] ps IH]; intros out D H; cbn in H; [by injection H as <-|].
  destruct (decide_rules _ _ _ _) as [r []] eqn:E; [done|].
  apply decide_rules_goes_on in E. by eapply IH.
Qed.

(** A Lua runtime with no plugin. *)
Definition no_plugins (res : hresult) : result unitError (bool * bytes * bytes * hresult) :=
  Ok (false, [], [], res).

(** A refusal is the rules' refusal. For a hook whose units are loaded
    policy programs, an invocation that the watchdog lets finish denies exactly
    when the first rule that stops, over all its programs in order, is a deny;
    it then carries that rule's reason (or the default) and a code. The one
    exception is a ceiling, which is counted and permits; an invocation the
    watchdog gave up on permits as well. *)
Theorem refusal_is_the_rules h ps qs v limits w st :
  Forall2 (loaded h) ps qs -> view_hook v = h ->
  exists st' d, invoke ps limits (field v) no_plugins [] (fun _ => false) true w st = Some (st', d) /\
    let verdict := decide_programs qs (field v) emptyResult in
    (w <> RDone -> d = zeroDecision) /\
    (w = RDone -> st_limitHits st' = st_limitHits st ->
       dDenied d = denied (fst verdict) /\ dtags d = tags (fst verdict) /\
       (dDenied d = true ->
          dReason d = (if decide (reason (fst verdict) = []) then defaultReason else reason (fst verdict)) /\
          dCode d = DefaultDenyCode)) /\
    (st_limitHits st' <> st_limitHits st -> d = zeroDecision).
Proof.
  intros L V. unfold invoke. cbn [negb]. cbn zeta.
  destruct (decide (w = RDone)) as [->|Nw].
  2: { exists (skip (UnitOther (bs "watch")) st), zeroDecision.
       split; [by destruct w|]. split_and!; done. }
  unfold job_run. destruct (runPrograms_decides h ps qs v emptyResult st (newBudget limits) L V)
    as (b' & st' & r & -> & R).
  destruct r as [[res stop]|e].
  - destruct R as [Ev ->]. rewrite <- Ev. cbn [fst].
    assert (stop = false -> denied res = false) as ND.
    { intros ->. symmetry in Ev. by eapply decide_programs_goes_on in Ev. }
    destruct stop; [destruct (denied res) eqn:D|rewrite ND by done];
      cbn [dDenied dtags dReason dCode no_plugins run_natives]; do 2 eexists; (split; [reflexivity|]);
      cbn [dDenied dtags dReason dCode st_limitHits]; split_and!; try done.
  - destruct R as [R1 R2]. destruct e as [e| |]; try done.
    do 2 eexists. split; [reflexivity|]. cbn [skip st_limitHits]. split_and!; [done|lia|done].
Qed.

Lemma refusal_is_the_rules_witness :
  exists st' d, invoke [sample_program] (mkLimits 10000 100000 0) (request_field sample_view) no_plugins []
      (fun _ => false) true RDone (mkStats 0 0 0 0) = Some (st', d) /\
    dDenied d = true /\ dReason d = bs "no" /\ dCode d = DefaultDenyCode.
Proof.
  assert (exists st' d, invoke [sample_program] (mkLimits 10000 100000 0) (request_field sample_view) no_plugins []
      (fun _ => false) true RDone (mkStats 0 0 0 0) = Some (st', d) /\ st_limitHits st' = 0 /\
      dDenied d = true /\ dReason d = bs "no") as (st1 & d1 & I1 & L1 & D1 & R1).
  { do 2 eexists. split; [vm_compute; reflexivity|]. vm_compute. split_and!; reflexivity. }
  destruct (Compile_loaded _ _ _ _ sample_compiles) as [ss L].
  destruct (refusal_is_the_rules HookRequest [sample_program] [(bs "p", ss)] (VRequest sample_view)
    (mkLimits 10000 100000 0) RDone (mkStats 0 0 0 0)) as (st' & d & I & _ & H & _).
  - constructor; [exact L|constructor].
  - reflexivity.
  - cbn [field] in I. rewrite I1 in I. injection I as <- <-. exists st1, d1. split_and!; [exact I1|exact D1|exact R1|].
    apply H; [reflexivity|exact L1|exact D1].
Defined.

(** ** Hook names *)

(** The spelling of a hook is read back as that hook. *)
Lemma ParseHook_String h : ParseHook (Hook_String h) = Some h.
Proof. by destruct h. Qed.

Lemma ParseHook_spelling s h : ParseHook s = Some h -> Hook_String h = s.
Proof.
  unfold ParseHook, hookNames. cbn [List.find fst]. intros H.
  repeat (match type of H with context [beqb ?x s] => destruct (beqb x s) eqn:? end;
    [injection H as <-; by apply beqb_eq|]). done.
Qed.

Lemma hook_mask_bit names m m' h : hook_mask names m = Ok m' ->
  Z.testbit m' (Z.log2 (hook_bit h)) = true <->
  Z.testbit m (Z.log2 (hook_bit h)) = true \/ Hook_String h ∈ names.
Proof.
  revert m. induction names as [|n ns IH]; intros m H; cbn in H.
  { injection H as <-. set_solver. }
  destruct (ParseHook n) as [g|] eqn:P; [|done]. rewrite (IH _ H). rewrite Z.lor_spec, orb_true_iff.
  rewrite elem_of_cons. rewrite <- (ParseHook_spelling _ _ P).
  assert (Z.testbit (hook_bit g) (Z.log2 (hook_bit h)) = true <-> Hook_String h = Hook_String g) as E.
  { split; [destruct g, h; done|]. intros E. assert (h = g) as ->; [|by destruct g].
    apply (f_equal ParseHook) in E. rewrite !ParseHook_String in E. by injection E. }
  rewrite E. tauto.
Qed.

(** The mask of a configured list of names holds exactly the named hooks and the
    filter hook; an empty list is all of them. *)
Lemma hookSet_bit names m h : hookSet names = Ok m ->
  Z.testbit m (Z.log2 (hook_bit h)) = true <->
  names = [] \/ h = HookFilterRequest \/ Hook_String h ∈ names.
Proof.
  unfold hookSet. destruct names as [|n ns].
  - intros [= <-]. split; [by left|]. intros _. by destruct h.
  - intros H. rewrite (hook_mask_bit _ _ _ h H). split.
    + intros [B|B]; right; [left|by right]. by destruct h.
    + intros [|[->|B]]; [done|by left|by right].
Qed.
