(* ===== verification/LuaPat.v ===== *)
(** * The budgeted Lua pattern matcher ([internal/luaext/luapat/pattern.go])

    The scanner, the parser, the compiler and the backtracking machine of Lua
    patterns, with the step budget, the depth ceiling and the cancellation check
    that bound a match. A Go panic is a value: the three ceilings and a pattern
    error, which [Find] recovers, and a run-time error, which it re-raises.

    Positions in the subject are natural numbers: every caller clamps the offset
    at zero. The budget only decreases and a match stops at its first negative
    value, so its 64 bits never wrap. *)
From Stdlib Require Import String.
From stdpp Require Import base list.
From Stdlib Require Import ZArith Lia.
From S2P Require Import Prelude PolicyLex.
Open Scope Z_scope.

Definition EOS : Z := -1.
Definition MaxDepth : Z := 10000.
Definition ctxCheckSteps : Z := 1024.
Definition MatchCost : Z := 16.

(** Messages of [*Error]. *)
Inductive message : Type :=
| UnexpectedEOS | InvalidCaptureIndex | InvalidCloseParen | UnfinishedCapture.

(** [Error]: where in the pattern, and what. [_UNKNOWN] is [-2]. *)
Record Error : Type := mkError { EPos : Z; Message : message }.
Definition UNKNOWN : Z := -2.

(** Panic values. *)
Inductive panicv : Type :=
| errBudgetExhausted | errTooDeep | errCancelled
| patternError (e : Error)
| runtimeError.

(** ** What a match may spend *)

(** [Run]; [polls] counts the looks at [Done] so far. *)
Record Run : Type := mkRun { Budget : Z; next : Z; polls : nat }.

Section Spend.
(** What the [k]-th look at the cancellation channel finds. A nil channel is
    never closed. *)
Variable closed : nat -> bool.

(** [spend]: the run after it, and the panic that ended it if one did. *)
Definition spend (r : Run) : Run * option panicv :=
  let b := Budget r - 1 in
  if b <? 0 then (mkRun b (next r) (polls r), Some errBudgetExhausted)
  else
    let n := next r - 1 in
    if 0 <? n then (mkRun b n (polls r), None)
    else (mkRun b ctxCheckSteps (S (polls r)),
          if closed (polls r) then Some errCancelled else None).
End Spend.

(** ** Captures *)

(** [MatchData.captures]: a position shifted left, its low bit telling a
    position capture. *)
Notation MatchData := (list Z) (only parsing).

(** [for len(st.captures) < n { append 0 }] *)
Definition grow (n : nat) (m : list Z) : list Z := m ++ repeat 0 (n - length m).

Definition pos_word (pos : nat) : Z := u32 (Z.shiftl (u32 (Z.of_nat pos)) 1).

Definition addPosCapture (m : list Z) (s : nat) (pos : nat) : list Z :=
  let m := grow (s + 2) m in
  <[S s := Z.lor (pos_word pos) 1]> (<[s := Z.lor (pos_word pos) 1]> m).

(** [setCapture]: the captures after it and the value it replaced. *)
Definition setCapture (m : list Z) (s : nat) (pos : nat) : list Z * Z :=
  let m := grow (S s) m in
  (<[s := pos_word pos]> m, nth s m 0).

Definition restoreCapture (m : list Z) (s : nat) (v : Z) : list Z := <[s := v]> m.
Definition CaptureLength (m : list Z) : Z := Z.of_nat (length m).
Definition IsPosCapture (m : list Z) (idx : nat) : bool := Z.land (nth idx m 0) 1 =? 1.
Definition Capture (m : list Z) (idx : nat) : nat := Z.to_nat (Z.shiftr (nth idx m 0) 1).

(** ** The scanner *)

Record scannerState : Type := mkSt { Pos : Z; started : bool }.
Record scanner : Type := mkScanner { ssrc : bytes; State : scannerState; saved : scannerState }.

Definition newScanner (src : bytes) : scanner := mkScanner src (mkSt 0 false) (mkSt 0 false).
Definition Length (sc : scanner) : Z := Z.of_nat (length (ssrc sc)).
Definition set_state (sc : scanner) (s : scannerState) : scanner := mkScanner (ssrc sc) s (saved sc).

Definition NextPos (sc : scanner) : Z :=
  let p := Pos (State sc) in
  if (p =? EOS) || (Length sc - 1 <=? p) then EOS
  else if negb (started (State sc)) then 0 else p + 1.

Definition Next (sc : scanner) : Z * scanner :=
  let st :=
    if negb (started (State sc))
    then mkSt (match ssrc sc with [] => EOS | _ => Pos (State sc) end) true
    else mkSt (NextPos sc) true in
  let sc' := set_state sc st in
  if Pos st =? EOS then (EOS, sc') else (nth (Z.to_nat (Pos st)) (ssrc sc) 0, sc').

Definition CurrentPos (sc : scanner) : Z := Pos (State sc).

Definition Peek (sc : scanner) : Z * scanner :=
  let cureof := Pos (State sc) =? EOS in
  let '(ch, sc1) := Next sc in
  if cureof then (ch, sc1)
  else if Pos (State sc1) =? EOS then
    (ch, set_state sc1 (mkSt (Length sc1 - 1) (started (State sc1))))
  else
    let p := Pos (State sc1) - 1 in
    if p <? 0 then (ch, set_state sc1 (mkSt 0 false))
    else (ch, set_state sc1 (mkSt p (started (State sc1)))).

Definition Save (sc : scanner) : scanner := mkScanner (ssrc sc) (State sc) (State sc).
Definition Restore (sc : scanner) : scanner := mkScanner (ssrc sc) (saved sc) (saved sc).

(** ** Classes *)

Inductive class : Type :=
| dotClass
| charClass (Ch : Z)
| singleClass (Class : Z)
| setClass (IsNot : bool) (Classes : list class)
| rangeClass (Begin End : class).

Definition between (lo c hi : Z) : bool := (lo <=? c) && (c <=? hi).

(** [singleClass.Matches]: [%a], [%d], ... and their complements. *)
Definition single_matches (k ch : Z) : bool :=
  let upper := between 65 k 90 in
  let letter := if upper then k + 32 else k in
  let ret :=
    if letter =? 97 then Some (between 65 ch 90 || between 97 ch 122)
    else if letter =? 99 then Some (between 0 ch 31 || (ch =? 127))
    else if letter =? 100 then Some (between 48 ch 57)
    else if letter =? 108 then Some (between 97 ch 122)
    else if letter =? 112 then
      Some (between 33 ch 47 || between 58 ch 64 || between 91 ch 96 || between 123 ch 126)
    else if letter =? 115 then
      Some ((ch =? 32) || (ch =? 12) || (ch =? 10) || (ch =? 13) || (ch =? 9) || (ch =? 11))
    else if letter =? 117 then Some (between 65 ch 90)
    else if letter =? 119 then Some (between 48 ch 57 || between 65 ch 90 || between 97 ch 122)
    else if letter =? 120 then Some (between 48 ch 57 || between 97 ch 102 || between 65 ch 70)
    else if letter =? 122 then Some (ch =? 0)
    else None in
  match ret with
  | None => ch =? k
  | Some b => if upper then negb b else b
  end.

Fixpoint Matches (c : class) (ch : Z) : bool :=
  match c with
  | dotClass => true
  | charClass x => x =? ch
  | singleClass k => single_matches k ch
  | setClass isNot cs =>
      (fix go (l : list class) : bool :=
         match l with
         | [] => isNot
         | c :: l' => if Matches c ch then negb isNot else go l'
         end) cs
  | rangeClass b e =>
      match b, e with
      | charClass lo, charClass hi => (lo <=? ch) && (ch <=? hi)
      | _, _ => false
      end
  end.

(** ** Patterns *)

Inductive pattern : Type :=
| singlePattern (c : class)
| repeatPattern (Type_ : Z) (c : class)
| posCapPattern
| capPattern (ps : list pattern)
| numberPattern (N : Z)
| bracePattern (Begin End : Z).

(** [seqPattern]. Below the top level neither flag is ever set, so a capture
    holds just the list. *)
Record seqPattern : Type := mkSeq { MustHead : bool; MustTail : bool; Patterns : list pattern }.

(** ** Parsing *)

(** A parser's result: a value and the scanner, the error it panicked with, or
    fuel that ran out. *)
Inductive pres (A : Type) : Type := POk (a : A) (sc : scanner) | PErr (e : Error) | PFuel.
Arguments POk {A} a sc.
Arguments PErr {A} e.
Arguments PFuel {A}.

(** [parseClassSet] and [parseClass] call each other, but a set is only allowed
    at the outer level: inside one, [parseClass(sc, false)] reads one class. *)
Definition parseClass1 (sc : scanner) : pres class :=
  let '(ch, sc) := Next sc in
  if ch =? 37 then let '(k, sc) := Next sc in POk (singleClass k) sc
  else if ch =? EOS then PErr (mkError (CurrentPos sc) UnexpectedEOS)
  else POk (charClass ch) sc.

Definition make_range (cs : list class) : list class :=
  match rev cs with
  | e :: b :: rest => rev rest ++ [rangeClass b e]
  | _ => cs
  end.

Fixpoint set_loop (fuel : nat) (isNot : bool) (cs : list class) (isrange : bool) (sc : scanner) : pres class :=
  match fuel with
  | O => PFuel
  | S f =>
      let '(ch, sc) := Peek sc in
      if ch =? EOS then PErr (mkError (CurrentPos sc) UnexpectedEOS)
      else if (ch =? 93) && bool_decide (cs <> []) then
        let '(_, sc) := Next sc in
        POk (setClass isNot (if isrange then cs ++ [charClass 45] else cs)) sc
      else if (ch =? 45) && bool_decide (cs <> []) then
        let '(_, sc) := Next sc in set_loop f isNot cs true sc
      else
        match parseClass1 sc with
        | POk c sc =>
            let cs := cs ++ [c] in
            set_loop f isNot (if isrange then make_range cs else cs) false sc
        | PErr e => PErr e
        | PFuel => PFuel
        end
  end.

(** A round of the set consumes a byte of the pattern. *)
Definition parseClassSet (sc : scanner) : pres class :=
  let fuel := S (S (length (ssrc sc))) in
  let '(ch, sc) := Peek sc in
  if ch =? 94 then let '(_, sc) := Next sc in set_loop fuel true [] false sc
  else set_loop fuel false [] false sc.

(** [parseClass(sc, true)] *)
Definition parseClass (sc : scanner) : pres class :=
  let '(ch, sc) := Next sc in
  if ch =? 37 then let '(k, sc) := Next sc in POk (singleClass k) sc
  else if ch =? 46 then POk dotClass sc
  else if ch =? 91 then parseClassSet sc
  else if ch =? EOS then PErr (mkError (CurrentPos sc) UnexpectedEOS)
  else POk (charClass ch) sc.

(** The last pattern as a single class, when it is one. *)
Definition last_single (ps : list pattern) : option (list pattern * class) :=
  match rev ps with
  | singlePattern c :: rest => Some (rev rest, c)
  | _ => None
  end.

Definition is_rep (ch : Z) : bool := (ch =? 42) || (ch =? 43) || (ch =? 45) || (ch =? 63).

(** The loop of [parsePattern]: [ps] and [tail] are [pat]'s fields so far. *)
Fixpoint pattern_loop (fuel : nat) (toplevel : bool) (ps : list pattern) (tail : bool) (sc : scanner)
  : pres (list pattern * bool) :=
  match fuel with
  | O => PFuel
  | S f =>
      let '(ch, sc) := Peek sc in
      let class_item (sc : scanner) :=
        match parseClass sc with
        | POk c sc => pattern_loop f toplevel (ps ++ [singlePattern c]) tail sc
        | PErr e => PErr e
        | PFuel => PFuel
        end in
      let literal (sc : scanner) :=
        pattern_loop f toplevel (ps ++ [singlePattern (charClass ch)]) tail sc in
      if ch =? 37 then
        let sc := Save sc in
        let '(_, sc) := Next sc in
        let '(k, sc) := Peek sc in
        if k =? 48 then PErr (mkError (CurrentPos sc) InvalidCaptureIndex)
        else if between 49 k 57 then
          let '(d, sc) := Next sc in
          pattern_loop f toplevel (ps ++ [numberPattern (d - 48)]) tail sc
        else if k =? 98 then
          let '(_, sc) := Next sc in
          let '(b, sc) := Next sc in
          let '(e, sc) := Next sc in
          pattern_loop f toplevel (ps ++ [bracePattern b e]) tail sc
        else class_item (Restore sc)
      else if (ch =? 46) || (ch =? 91) || (ch =? 93) then class_item sc
      else if ch =? 41 then
        if toplevel then PErr (mkError (CurrentPos sc) InvalidCloseParen)
        else POk (ps, tail) sc
      else if ch =? 40 then
        let '(_, sc) := Next sc in
        let '(k, sc) := Peek sc in
        if k =? 41 then
          let '(_, sc) := Next sc in pattern_loop f toplevel (ps ++ [posCapPattern]) tail sc
        else
          match pattern_loop f false [] false sc with
          | POk (inner, _) sc =>
              let '(k2, sc) := Peek sc in
              if negb (k2 =? 41) then PErr (mkError (CurrentPos sc) UnfinishedCapture)
              else
                let '(_, sc) := Next sc in
                pattern_loop f toplevel (ps ++ [capPattern inner]) tail sc
          | PErr e => PErr e
          | PFuel => PFuel
          end
      else if is_rep ch then
        let '(_, sc) := Next sc in
        match last_single ps with
        | Some (rest, c) => pattern_loop f toplevel (rest ++ [repeatPattern ch c]) tail sc
        | None => literal sc
        end
      else if ch =? 36 then
        if toplevel && ((NextPos sc =? Length sc - 1) || (NextPos sc =? EOS)) then
          let '(_, sc) := Next sc in pattern_loop f toplevel ps true sc
        else let '(_, sc) := Next sc in literal sc
      else if ch =? EOS then let '(_, sc) := Next sc in POk (ps, tail) sc
      else let '(_, sc) := Next sc in literal sc
  end.

(** [parsePattern(sc, true)]. Every round consumes a byte of the pattern, and a
    capture's loop one more than its bytes. *)
Definition parsePattern (p : bytes) : pres seqPattern :=
  let sc := newScanner p in
  let '(ch, sc) := Peek sc in
  let '(head, sc) := if ch =? 94 then (true, snd (Next sc)) else (false, sc) in
  match pattern_loop (S (S (length p))) true [] false sc with
  | POk (ps, tail) sc => POk (mkSeq head tail ps) sc
  | PErr e => PErr e
  | PFuel => PFuel
  end.

(** ** Compilation *)

Inductive opCode : Type :=
| opChar | opMatch | opTailMatch | opJmp | opSplit | opSave | opPSave | opBrace | opNumber.

Record inst : Type := mkInst { OpCode : opCode; Class : option class; Operand1 : Z; Operand2 : Z }.

Record iptr : Type := mkIptr { insts : list inst; capture : Z }.

Definition add_insts (ptr : iptr) (l : list inst) : iptr := mkIptr (insts ptr ++ l) (capture ptr).

(** The code of a repeated class, at index [idx]. *)
Definition repeat_insts (ty : Z) (c : class) (idx : Z) : list inst :=
  if ty =? 42 then
    [mkInst opSplit None (idx + 1) (idx + 3); mkInst opChar (Some c) (-1) (-1); mkInst opJmp None idx (-1)]
  else if ty =? 43 then
    [mkInst opChar (Some c) (-1) (-1); mkInst opSplit None idx (idx + 2)]
  else if ty =? 45 then
    [mkInst opSplit None (idx + 3) (idx + 1); mkInst opChar (Some c) (-1) (-1); mkInst opJmp None idx (-1)]
  else if ty =? 63 then
    [mkInst opSplit None (idx + 1) (idx + 2); mkInst opChar (Some c) (-1) (-1)]
  else [].

Fixpoint compile (p : pattern) (ptr : iptr) : iptr :=
  match p with
  | singlePattern c => add_insts ptr [mkInst opChar (Some c) (-1) (-1)]
  | repeatPattern ty c => add_insts ptr (repeat_insts ty c (Z.of_nat (length (insts ptr))))
  | posCapPattern =>
      mkIptr (insts ptr ++ [mkInst opPSave None (capture ptr) (-1)]) (capture ptr + 2)
  | capPattern ps =>
      let c0 := capture ptr in
      let ptr1 := mkIptr (insts ptr ++ [mkInst opSave None c0 (-1)]) (capture ptr + 2) in
      let ptr2 := (fix seq (l : list pattern) (ptr : iptr) : iptr :=
                     match l with [] => ptr | p :: l' => seq l' (compile p ptr) end) ps ptr1 in
      add_insts ptr2 [mkInst opSave None (c0 + 1) (-1)]
  | bracePattern b e => add_insts ptr [mkInst opBrace None b e]
  | numberPattern n => add_insts ptr [mkInst opNumber None n (-1)]
  end.

Definition compile_seq (l : list pattern) (ptr : iptr) : iptr :=
  fold_left (fun ptr p => compile p ptr) l ptr.

Definition compilePattern (s : seqPattern) : list inst :=
  let ptr := compile_seq (Patterns s) (mkIptr [mkInst opSave None 0 (-1)] 2) in
  insts ptr ++
  (if MustTail s then [mkInst opSave None 1 (-1); mkInst opTailMatch None (-1) (-1)] else []) ++
  [mkInst opSave None 1 (-1); mkInst opMatch None (-1) (-1)].

(** ** The machine *)

Inductive vres : Type :=
| VDone (ok : bool) (sp : nat) (m : list Z) (r : Run)
| VPanic (p : panicv) (r : Run)
| VFuel.

(** The scan of [opBrace] from [sp], with [l] the subject from there: where it
    goes on, or [None] at the end of the subject. *)
Fixpoint brace_scan (b e : Z) (l : bytes) (sp : nat) (count : Z) : option nat :=
  match l with
  | [] => None
  | ch :: l' =>
      let count := if ch =? e then count - 1 else count in
      if count =? 0 then Some (S sp)
      else brace_scan b e l' (S sp) (if ch =? b then count + 1 else count)
  end.

Section VM.
Variable closed : nat -> bool.
(** The subject, and the bytes its slice could still be re-sliced over. *)
Variable src spare : bytes.
Variable code : list inst.

(** [src[lo:hi]] on a slice with capacity: [None] is the run-time error. *)
Definition reslice (lo hi : nat) : option bytes :=
  if bool_decide (lo <= hi <= length (src ++ spare))%nat
  then Some (take (hi - lo) (drop lo (src ++ spare))) else None.

Definition has_prefix_at (c : bytes) (sp : nat) : bool :=
  match strip_prefix c (drop sp src) with Some _ => true | None => false end.

(** The body of [recursiveVM] after its depth check; [redo] and the recursive
    calls spend a step each, and each uses one unit of fuel. *)
Fixpoint vm (fuel : nat) (pc sp : nat) (recLevel : Z) (r : Run) (m : list Z) : vres :=
  match fuel with
  | O => VFuel
  | S f =>
      let '(r, stop) := spend closed r in
      match stop with
      | Some p => VPanic p r
      | None =>
          let call pc sp m :=
            if MaxDepth <? recLevel + 1 then VPanic errTooDeep r
            else vm f pc sp (recLevel + 1) r m in
          match code !! pc with
          | None => VPanic runtimeError r
          | Some i =>
              let op1 := Z.to_nat (Operand1 i) in
              match OpCode i with
              | opChar =>
                  match src !! sp, Class i with
                  | Some ch, Some c =>
                      if Matches c ch then vm f (S pc) (S sp) recLevel r m else VDone false sp m r
                  | None, _ => VDone false sp m r
                  | _, None => VPanic runtimeError r
                  end
              | opMatch => VDone true sp m r
              | opTailMatch => VDone (bool_decide (length src <= sp)%nat) sp m r
              | opJmp => vm f op1 sp recLevel r m
              | opSplit =>
                  match call op1 sp m with
                  | VDone false _ m' r' => vm f (Z.to_nat (Operand2 i)) sp recLevel r' m'
                  | x => x
                  end
              | opSave =>
                  let '(m1, s) := setCapture m op1 sp in
                  match call (S pc) sp m1 with
                  | VDone false _ m' r' => VDone false sp (restoreCapture m' op1 s) r'
                  | x => x
                  end
              | opPSave => vm f (S pc) sp recLevel r (addPosCapture m op1 (S sp))
              | opBrace =>
                  match src !! sp with
                  | Some ch =>
                      if ch =? Operand1 i then
                        match brace_scan (Operand1 i) (Operand2 i) (drop (S sp) src) (S sp) 1 with
                        | Some sp' => vm f (S pc) sp' recLevel r m
                        | None => VDone false (length src) m r
                        end
                      else VDone false sp m r
                  | None => VDone false sp m r
                  end
              | opNumber =>
                  let idx := (op1 * 2)%nat in
                  if CaptureLength m - 1 <=? Z.of_nat idx
                  then VPanic (patternError (mkError UNKNOWN InvalidCaptureIndex)) r
                  else
                    match reslice (Capture m idx) (Capture m (S idx)) with
                    | None => VPanic runtimeError r
                    | Some c =>
                        if has_prefix_at c sp then vm f (S pc) (sp + length c) recLevel r m
                        else VDone false sp m r
                    end
              end
          end
      end
  end.

(** [recursiveVM(src, insts, 0, sp, 0, r)]: a fresh match. Every step spends
    from the budget, so the budget bounds the steps (see [vm_fuel]). *)
Definition recursiveVM (sp : nat) (r : Run) : vres :=
  vm (S (Z.to_nat (Budget r))) 0 sp 1 r [].
End VM.

(** ** Find *)

Inductive ferror : Type := ErrBudget | ErrDepth | Canceled | ErrPattern (e : Error).

(** How [Find] ends: it returns, it re-raises a run-time error, or (in the
    model only) it has not ended. *)
Inductive fres : Type :=
| FReturn (matches : list (list Z)) (err : option ferror) (r : Run)
| FPanic (r : Run)
| FFuel.

(** The deferred recover. A pattern error keeps the matches found before it. *)
Definition recovered (p : panicv) (matches : list (list Z)) (r : Run) : fres :=
  match p with
  | errBudgetExhausted => FReturn [] (Some ErrBudget) r
  | errTooDeep => FReturn [] (Some ErrDepth) r
  | errCancelled => FReturn [] (Some Canceled) r
  | patternError e => FReturn matches (Some (ErrPattern e)) r
  | runtimeError => FPanic r
  end.

Section Find.
Variable closed : nat -> bool.
Variable src spare : bytes.

Fixpoint find_loop (fuel : nat) (code : list inst) (mustHead : bool) (sp : nat) (limit : Z)
    (matches : list (list Z)) (r : Run) : fres :=
  if bool_decide (length src < sp)%nat then FReturn matches None r
  else
    match fuel with
    | O => FFuel
    | S f =>
        match recursiveVM closed src spare code sp r with
        | VFuel => FFuel
        | VPanic p r => recovered p matches r
        | VDone ok nsp ms r =>
            let go matches sp r :=
              if (Z.of_nat (length matches) =? limit) || mustHead then FReturn matches None r
              else find_loop f code mustHead sp limit matches r in
            if ok then
              let r := mkRun (Budget r - MatchCost) (next r) (polls r) in
              if Budget r <? 0 then FReturn [] (Some ErrBudget) r
              else go (matches ++ [ms]) (if bool_decide (S sp < nsp)%nat then nsp else S sp) r
            else go matches (S sp) r
        end
    end.

Definition Find (p : bytes) (offset : nat) (limit : Z) (r : Run) : fres :=
  let r := mkRun (Budget r) (if next r <=? 0 then ctxCheckSteps else next r) (polls r) in
  let r := mkRun (Budget r - Z.of_nat (length p)) (next r) (polls r) in
  if Budget r <? 0 then FReturn [] (Some ErrBudget) r
  else
    match parsePattern p with
    | PFuel => FFuel
    | PErr e => recovered (patternError e) [] r
    | POk pat _ =>
        find_loop (S (length src)) (compilePattern pat) (MustHead pat) offset limit [] r
    end.
End Find.
