(* ===== verification/LuaPatRef.v ===== *)
(** * What a Lua pattern matches

    Patterns flattened into items, a search over them that backtracks on run
    lengths and captures by value, and the proof that the machine of [LuaPat],
    which backtracks by recursion over one mutable capture array that it only
    partly restores, computes that search. *)
From Stdlib Require Import String.
From stdpp Require Import base list sets.
From Stdlib Require Import ZArith Lia.
From S2P Require Import Prelude PolicyLex LuaPat.
Open Scope Z_scope.

(** ** Items and the search *)

Inductive item : Type :=
| ISingle (c : class)
| IRep (ty : Z) (c : class)
| ISave (s : nat)
| IPos (s : nat)
| IBrace (b e : Z)
| INumber (n : nat).

(** How many bytes in a row a class accepts. *)
Fixpoint run_len (c : class) (l : bytes) : nat :=
  match l with
  | ch :: l' => if Matches c ch then S (run_len c l') else 0
  | [] => 0
  end.

(** The lengths a repetition tries, in order, when [n] bytes in a row match:
    longest first for [*] and [+], shortest first for [-]. *)
Fixpoint down (n : nat) : list nat := match n with O => [O] | S k => n :: down k end.
Definition tries (ty : Z) (n : nat) : list nat :=
  if ty =? 42 then down n
  else if ty =? 43 then match n with O => [] | S k => map S (down k) end
  else if ty =? 45 then seq 0 (S n)
  else match n with O => [0%nat] | S _ => [1; 0]%nat end.

Fixpoint first_some {A B} (f : A -> option B) (l : list A) : option B :=
  match l with
  | [] => None
  | x :: l' => match f x with Some y => Some y | None => first_some f l' end
  end.

Section Search.
Variable src : bytes.
(** Whether the pattern must end at the end of the subject. *)
Variable tail : bool.

Definition captured (caps : list Z) (n : nat) : bytes :=
  let lo := Capture caps (n * 2) in
  let hi := Capture caps (S (n * 2)) in
  take (hi - lo) (drop lo src).

Fixpoint search (its : list item) (sp : nat) (caps : list Z) : option (nat * list Z) :=
  match its with
  | [] => if tail && bool_decide (sp < length src)%nat then None else Some (sp, caps)
  | ISingle c :: k =>
      match src !! sp with
      | Some ch => if Matches c ch then search k (S sp) caps else None
      | None => None
      end
  | IRep ty c :: k =>
      first_some (fun j => search k (sp + j) caps) (tries ty (run_len c (drop sp src)))
  | ISave s :: k => search k sp (fst (setCapture caps s sp))
  | IPos s :: k => search k sp (addPosCapture caps s (S sp))
  | IBrace b e :: k =>
      match src !! sp with
      | Some ch =>
          if ch =? b then
            match brace_scan b e (drop (S sp) src) (S sp) 1 with
            | Some sp' => search k sp' caps
            | None => None
            end
          else None
      | None => None
      end
  | INumber n :: k =>
      let c := captured caps n in
      if has_prefix_at src c sp then search k (sp + length c) caps else None
  end.

(** ** One step of a repetition *)

Lemma run_len_drop c sp ch : src !! sp = Some ch ->
  run_len c (drop sp src) = if Matches c ch then S (run_len c (drop (S sp) src)) else O.
Proof. intros E. by rewrite (drop_S _ _ _ E). Qed.

Lemma run_len_end c sp : src !! sp = None -> run_len c (drop sp src) = O.
Proof. intros E. rewrite drop_ge; [done|]. by apply lookup_ge_None in E. Qed.

Lemma first_some_map {A B C} (f : B -> option C) (g : A -> B) l :
  first_some f (map g l) = first_some (fun x => f (g x)) l.
Proof. induction l as [|x l IH]; cbn; [done|]. by rewrite IH. Qed.

Lemma first_some_app {A B} (f : A -> option B) l l' :
  first_some f (l ++ l') = match first_some f l with Some y => Some y | None => first_some f l' end.
Proof. induction l as [|x l IH]; cbn; [done|]. by destruct (f x). Qed.

Lemma first_some_ext {A B} (f g : A -> option B) l : (forall x, f x = g x) -> first_some f l = first_some g l.
Proof. intros E. induction l as [|x l IH]; cbn; [done|]. by rewrite E, IH. Qed.

Lemma down_S n : down (S n) = map S (down n) ++ [O].
Proof. induction n as [|n IH]; [done|]. cbn [down map app] in *. by rewrite IH. Qed.

Lemma seq_S_map n : seq 0 (S n) = O :: map S (seq 0 n).
Proof. by rewrite seq_shift. Qed.

(** A run shifted by the byte in front of it. *)
Lemma search_shift k sp caps l :
  first_some (fun j => search k (sp + j) caps) (map S l) = first_some (fun j => search k (S sp + j) caps) l.
Proof.
  rewrite first_some_map. apply first_some_ext. intros j. by rewrite Nat.add_succ_r.
Qed.

Lemma star_unfold c k sp caps :
  search (IRep 42 c :: k) sp caps =
  match search (ISingle c :: IRep 42 c :: k) sp caps with
  | Some x => Some x
  | None => search k sp caps
  end.
Proof.
  cbn [search]. unfold tries. cbn [Z.eqb Pos.eqb]. destruct (src !! sp) as [ch|] eqn:E.
  - rewrite (run_len_drop c sp ch E). destruct (Matches c ch).
    + rewrite down_S, first_some_app, search_shift. case_match; [done|]. cbn.
      rewrite Nat.add_0_r. by case_match.
    + cbn. rewrite Nat.add_0_r. by case_match.
  - rewrite (run_len_end c sp E). cbn. rewrite Nat.add_0_r. by case_match.
Qed.

Lemma lazy_unfold c k sp caps :
  search (IRep 45 c :: k) sp caps =
  match search k sp caps with
  | Some x => Some x
  | None => search (ISingle c :: IRep 45 c :: k) sp caps
  end.
Proof.
  cbn [search]. unfold tries. cbn [Z.eqb Pos.eqb]. destruct (src !! sp) as [ch|] eqn:E.
  - rewrite (run_len_drop c sp ch E). destruct (Matches c ch).
    + rewrite seq_S_map. cbn [first_some]. rewrite Nat.add_0_r. case_match; [done|]. apply search_shift.
    + cbn. rewrite Nat.add_0_r. by case_match.
  - rewrite (run_len_end c sp E). cbn. rewrite Nat.add_0_r. by case_match.
Qed.

(** One or more is one, then none or more. *)
Lemma plus_unfold c k sp caps :
  search (IRep 43 c :: k) sp caps = search (ISingle c :: IRep 42 c :: k) sp caps.
Proof.
  cbn [search]. unfold tries. cbn [Z.eqb Pos.eqb]. destruct (src !! sp) as [ch|] eqn:E.
  - rewrite (run_len_drop c sp ch E). destruct (Matches c ch); [|done]. apply search_shift.
  - by rewrite (run_len_end c sp E).
Qed.

Lemma star_plus c k sp caps :
  search (IRep 42 c :: k) sp caps =
  match search (IRep 43 c :: k) sp caps with Some x => Some x | None => search k sp caps end.
Proof. by rewrite plus_unfold, star_unfold. Qed.

Lemma opt_unfold c k sp caps :
  search (IRep 63 c :: k) sp caps =
  match search (ISingle c :: k) sp caps with Some x => Some x | None => search k sp caps end.
Proof.
  cbn [search]. unfold tries. cbn [Z.eqb Pos.eqb]. destruct (src !! sp) as [ch|] eqn:E.
  - rewrite (run_len_drop c sp ch E). destruct (Matches c ch); cbn; rewrite ?Nat.add_0_r, ?Nat.add_1_r;
      repeat case_match; congruence.
  - rewrite (run_len_end c sp E). cbn. rewrite Nat.add_0_r. by case_match.
Qed.
End Search.

(** ** Captures *)

Lemma nth_grow n m t : nth t (grow n m) 0 = nth t m 0.
Proof.
  unfold grow. destruct (decide (t < length m)%nat) as [L|L]; [by rewrite app_nth1|].
  rewrite app_nth2, nth_repeat by lia. symmetry. apply nth_overflow. lia.
Qed.

Lemma length_grow n m : length (grow n m) = Nat.max n (length m).
Proof. unfold grow. rewrite length_app, repeat_length. lia. Qed.

Lemma nth_insert_eq (m : list Z) s v : (s < length m)%nat -> nth s (<[s := v]> m) 0 = v.
Proof. intros L. by rewrite nth_lookup, list_lookup_insert_eq. Qed.

Lemma nth_insert_ne (m : list Z) s t v : t <> s -> nth t (<[s := v]> m) 0 = nth t m 0.
Proof. intros N. by rewrite !nth_lookup, list_lookup_insert_ne. Qed.

Lemma setCapture_spec m s pos m' v : setCapture m s pos = (m', v) ->
  length m' = Nat.max (S s) (length m) /\ nth s m' 0 = pos_word pos /\
  (forall t, t <> s -> nth t m' 0 = nth t m 0).
Proof.
  unfold setCapture. intros [= <- _]. rewrite length_insert, length_grow. split_and!; [done| |].
  - apply nth_insert_eq. rewrite length_grow. lia.
  - intros t N. by rewrite nth_insert_ne, nth_grow.
Qed.

Lemma addPosCapture_spec m s pos :
  length (addPosCapture m s pos) = Nat.max (s + 2) (length m) /\
  nth s (addPosCapture m s pos) 0 = Z.lor (pos_word pos) 1 /\
  nth (S s) (addPosCapture m s pos) 0 = Z.lor (pos_word pos) 1 /\
  (forall t, t <> s -> t <> S s -> nth t (addPosCapture m s pos) 0 = nth t m 0).
Proof.
  unfold addPosCapture. rewrite !length_insert, length_grow. split_and!; [done| | |].
  - rewrite nth_insert_ne by lia. apply nth_insert_eq. rewrite length_grow. lia.
  - apply nth_insert_eq. rewrite length_insert, length_grow. lia.
  - intros t N1 N2. by rewrite !nth_insert_ne, nth_grow.
Qed.

(** A position below 2^31 survives its 32-bit word. *)
Lemma pos_word_shift pos : Z.of_nat pos < two31 -> Z.to_nat (Z.shiftr (pos_word pos) 1) = pos.
Proof.
  intros L. unfold pos_word, u32. rewrite (Z.mod_small (Z.of_nat pos)) by (widths; lia).
  rewrite Z.shiftl_mul_pow2, Z.mod_small by (widths; lia).
  rewrite Z.shiftr_div_pow2 by lia. change (2 ^ 1) with 2. rewrite Z.div_mul by lia. lia.
Qed.

Lemma strip_prefix_length p s r : strip_prefix p s = Some r -> length s = (length p + length r)%nat.
Proof.
  revert s. induction p as [|x p IH]; intros [|y s] H; cbn in *; try done; try (injection H as <-; done).
  case_match; [|done]. apply IH in H. lia.
Qed.

Lemma brace_scan_bounds b e l sp n sp' : brace_scan b e l sp n = Some sp' -> (sp < sp' <= sp + length l)%nat.
Proof.
  revert sp n. induction l as [|ch l IH]; intros sp n H; cbn in H; [done|].
  destruct (_ =? 0); [injection H as <-; cbn; lia|]. apply IH in H. cbn. lia.
Qed.

(** ** Slots and scoping *)

Definition slots1 (i : item) : list nat :=
  match i with ISave s => [s] | IPos s => [s; S s] | _ => [] end.
Definition slots (its : list item) : list nat := flat_map slots1 its.

(** [scoped its O C]: below the captures [O] already open and [C] already
    closed, every back reference of [its] is to a closed one, and every close
    has its open. *)
Fixpoint scoped (its : list item) (O C : list nat) : bool :=
  match its with
  | [] => true
  | ISave s :: k =>
      if Nat.even s then scoped k (Nat.div2 s :: O) C
      else bool_decide (Nat.div2 s ∈ O) && scoped k O (Nat.div2 s :: C)
  | INumber n :: k => bool_decide (n ∈ C) && scoped k O C
  | _ :: k => scoped k O C
  end.

(** ** Code *)

Section Sim.
Context (closed : nat -> bool) (src spare : bytes) (code : list inst) (tail : bool) (ncap : nat).
Hypothesis short : Z.of_nat (length src) < two31.

(** [loc pc its]: from index [pc], the code is that of [its] and then the end
    of the pattern. A jump stands for what it jumps to; the split after the
    character of a [+] stands for a [*]. *)
Inductive loc : nat -> list item -> Prop :=
| loc_end pc : code !! pc = Some (mkInst (if tail then opTailMatch else opMatch) None (-1) (-1)) -> loc pc []
| loc_single pc c k :
    code !! pc = Some (mkInst opChar (Some c) (-1) (-1)) -> loc (S pc) k -> loc pc (ISingle c :: k)
| loc_star pc c k :
    code !! pc = Some (mkInst opSplit None (Z.of_nat (S pc)) (Z.of_nat (3 + pc))) ->
    code !! S pc = Some (mkInst opChar (Some c) (-1) (-1)) ->
    code !! S (S pc) = Some (mkInst opJmp None (Z.of_nat pc) (-1)) ->
    loc (3 + pc) k -> loc pc (IRep 42 c :: k)
| loc_lazy pc c k :
    code !! pc = Some (mkInst opSplit None (Z.of_nat (3 + pc)) (Z.of_nat (S pc))) ->
    code !! S pc = Some (mkInst opChar (Some c) (-1) (-1)) ->
    code !! S (S pc) = Some (mkInst opJmp None (Z.of_nat pc) (-1)) ->
    loc (3 + pc) k -> loc pc (IRep 45 c :: k)
| loc_plus pc c k :
    code !! pc = Some (mkInst opChar (Some c) (-1) (-1)) ->
    code !! S pc = Some (mkInst opSplit None (Z.of_nat pc) (Z.of_nat (2 + pc))) ->
    loc (2 + pc) k -> loc pc (IRep 43 c :: k)
| loc_opt pc c k :
    code !! pc = Some (mkInst opSplit None (Z.of_nat (S pc)) (Z.of_nat (2 + pc))) ->
    code !! S pc = Some (mkInst opChar (Some c) (-1) (-1)) ->
    loc (2 + pc) k -> loc pc (IRep 63 c :: k)
| loc_save pc s k :
    code !! pc = Some (mkInst opSave None (Z.of_nat s) (-1)) -> loc (S pc) k -> loc pc (ISave s :: k)
| loc_pos pc s k :
    code !! pc = Some (mkInst opPSave None (Z.of_nat s) (-1)) -> loc (S pc) k -> loc pc (IPos s :: k)
| loc_brace pc b e k :
    code !! pc = Some (mkInst opBrace None b e) -> loc (S pc) k -> loc pc (IBrace b e :: k)
| loc_number pc n k :
    code !! pc = Some (mkInst opNumber None (Z.of_nat n) (-1)) -> loc (S pc) k -> loc pc (INumber n :: k)
| loc_jmp pc idx its :
    code !! pc = Some (mkInst opJmp None (Z.of_nat idx) (-1)) -> loc idx its -> loc pc its
| loc_again pc idx c k :
    code !! pc = Some (mkInst opSplit None (Z.of_nat idx) (Z.of_nat (S pc))) ->
    loc idx (IRep 43 c :: k) -> loc (S pc) k -> loc pc (IRep 42 c :: k).

(** ** The capture array and the captures *)

(** What is written on the way to a point whose items to come are [its]: the
    slots [W]; there the array [m] and the captures [caps] agree, and they are
    the positions of a match so far. *)
Record sim (its : list item) (W O C : list nat) (sp : nat) (m caps : list Z) : Prop := {
  sim_sp : (sp <= length src)%nat;
  sim_agree : forall s, s ∈ W -> nth s m 0 = nth s caps 0;
  sim_len : forall s, s ∈ W -> (s < length m)%nat /\ (s < length caps)%nat;
  sim_max : (length m <= ncap)%nat /\ (length caps <= ncap)%nat;
  sim_all : forall s, (s < ncap)%nat <-> s ∈ W \/ s ∈ slots its;
  sim_fresh : forall s, s ∈ W -> s ∈ slots its -> False;
  sim_nodup : NoDup (slots its);
  sim_open : forall n, n ∈ O -> (n * 2)%nat ∈ W /\ (Capture caps (n * 2) <= sp)%nat;
  sim_closed : forall n, n ∈ C -> (n * 2)%nat ∈ W /\ S (n * 2) ∈ W /\
    (Capture caps (n * 2) <= Capture caps (S (n * 2)) <= length src)%nat }.

(** What a failing run leaves: only the slots of the items it tried differ. *)
Definition framed (its : list item) (m m' : list Z) : Prop :=
  (length m <= length m' <= ncap)%nat /\ forall s, s ∉ slots its -> nth s m' 0 = nth s m 0.

Lemma framed_refl its m : (length m <= ncap)%nat -> framed its m m.
Proof. by split. Qed.

Lemma sim_framed its W O C sp m m' caps :
  sim its W O C sp m caps -> framed its m m' -> sim its W O C sp m' caps.
Proof.
  intros [] [[L1 L2] F]. split; auto.
  - intros s Hs. rewrite F by eauto. auto.
  - intros s Hs. destruct (sim_len0 s Hs). lia.
  - lia.
Qed.

(** At the end every slot is written: the array is the captures. *)
Lemma sim_end W O C sp m caps : sim [] W O C sp m caps -> m = caps.
Proof.
  intros [_ A L [M1 M2] Al _ _ _ _]. apply nth_ext with (d := 0) (d' := 0).
  - assert (forall n, (n <= ncap)%nat -> (n <= length m)%nat /\ (n <= length caps)%nat) as H.
    { intros [|n] Hn; [lia|]. destruct (Al n) as [H _]. destruct (H ltac:(lia)) as [Hw|Hw]; [|by apply not_elem_of_nil in Hw].
      destruct (L n Hw). lia. }
    destruct (H ncap); lia.
  - intros n Hn. apply A. destruct (Al n) as [H _]. destruct (H ltac:(lia)) as [|Hw]; [done|by apply not_elem_of_nil in Hw].
Qed.

(** Moving along items that write nothing, forward in the subject. *)
Lemma sim_move its its' W O C sp sp' m caps :
  sim its W O C sp m caps -> slots its' = slots its -> (sp <= sp' <= length src)%nat ->
  sim its' W O C sp' m caps.
Proof.
  intros [] E [L1 L2]. split; rewrite ?E; auto.
  intros n Hn. destruct (sim_open0 n Hn). split; [done|lia].
Qed.

(** A value outside the slots written now is as it was. *)
Lemma Capture_same m m' t : nth t m' 0 = nth t m 0 -> Capture m' t = Capture m t.
Proof. unfold Capture. by intros ->. Qed.

Lemma sim_save s k W O C sp m caps m1 v :
  sim (ISave s :: k) W O C sp m caps -> setCapture m s sp = (m1, v) ->
  forall O' C', 
  (forall n, n ∈ O' -> n ∈ O \/ (n * 2)%nat = s) ->
  (forall n, n ∈ C' -> n ∈ C \/ (n ∈ O /\ S (n * 2) = s)) ->
  sim k (s :: W) O' C' sp m1 (fst (setCapture caps s sp)).
Proof.
  intros [Sp A L [M1 M2] Al Fr Nd Op Cl] E O' C' HO HC. cbn [slots flat_map slots1 app] in *. fold (slots k) in *.
  apply setCapture_spec in E as (E1 & E2 & E3).
  destruct (setCapture caps s sp) as [caps1 w] eqn:Ec. apply setCapture_spec in Ec as (F1 & F2 & F3). cbn [fst].
  apply NoDup_cons in Nd as [Ns Nd].
  assert (s < ncap)%nat as Ls by (apply Al; set_solver).
  assert (forall t, t ∈ W -> t <> s) as Ws by (intros t Ht ->; apply (Fr s Ht); set_solver).
  assert (forall t, t ∈ W -> Capture caps1 t = Capture caps t) as Same
    by (intros t Ht; apply Capture_same, F3; auto).
  assert (Capture caps1 s = sp) as New by (unfold Capture; rewrite F2; apply pos_word_shift; lia).
  split; auto.
  - intros t [->|Ht]%elem_of_cons; [congruence|]. rewrite E3, F3; auto.
  - intros t [->|Ht]%elem_of_cons; [lia|]. destruct (L t Ht). lia.
  - lia.
  - intros t. rewrite Al, !elem_of_cons. tauto.
  - intros t [->|Ht]%elem_of_cons Hk; [done|]. apply (Fr t Ht). set_solver.
  - intros n Hn. rewrite elem_of_cons. destruct (HO n Hn) as [Ho|Es].
    + destruct (Op n Ho) as [Hw Hl]. split; [by right|]. by rewrite Same.
    + rewrite Es, New. split; [by left|lia].
  - intros n Hn. rewrite !elem_of_cons. destruct (HC n Hn) as [Hc|[Ho Es]].
    + destruct (Cl n Hc) as (H1 & H2 & H3). split_and!; [by right|by right|..]; rewrite !Same by done; lia.
    + destruct (Op n Ho) as [Hw Hl]. split_and!; [by right|by left|..]; rewrite Es, New, ?Same by done; lia.
Qed.

Lemma sim_pos s k W O C sp m caps :
  sim (IPos s :: k) W O C sp m caps ->
  sim k (s :: S s :: W) O C sp (addPosCapture m s (S sp)) (addPosCapture caps s (S sp)).
Proof.
  intros [Sp A L [M1 M2] Al Fr Nd Op Cl]. cbn [slots flat_map slots1 app] in *. fold (slots k) in *.
  destruct (addPosCapture_spec m s (S sp)) as (E1 & E2 & E3 & E4).
  destruct (addPosCapture_spec caps s (S sp)) as (F1 & F2 & F3 & F4).
  apply NoDup_cons in Nd as [N1 Nd]. apply NoDup_cons in Nd as [N2 Nd].
  assert (S s < ncap)%nat as Ls by (apply Al; set_solver).
  assert (forall t, t ∈ W -> t <> s /\ t <> S s) as Ws
    by (intros t Ht; split; intros ->; eapply (Fr _ Ht); set_solver).
  assert (forall t, t ∈ W -> Capture (addPosCapture caps s (S sp)) t = Capture caps t) as Same
    by (intros t Ht; apply Capture_same, F4; apply Ws; done).
  split; auto.
  - intros t [->|[->|Ht]%elem_of_cons]%elem_of_cons; [congruence|congruence|].
    destruct (Ws t Ht). rewrite E4, F4; auto.
  - intros t [->|[->|Ht]%elem_of_cons]%elem_of_cons; [lia|lia|]. destruct (L t Ht). lia.
  - lia.
  - intros t. rewrite Al, !elem_of_cons. tauto.
  - intros t [->|[->|Ht]%elem_of_cons]%elem_of_cons Hk; [set_solver|done|]. apply (Fr t Ht). set_solver.
  - intros n Hn. destruct (Op n Hn) as [Hw Hl]. split; [set_solver|]. by rewrite Same.
  - intros n Hn. destruct (Cl n Hn) as (H1 & H2 & H3). split_and!; [set_solver..| |]; rewrite !Same by done; lia.
Qed.

(** ** The machine computes the search *)

(** How a run at a point relates to the search from there. *)
Definition computes (its : list item) (sp : nat) (m caps : list Z) (x : vres) : Prop :=
  match x with
  | VDone true nsp m' _ => search src tail its sp caps = Some (nsp, m')
  | VDone false _ m' _ => search src tail its sp caps = None /\ framed its m m'
  | VPanic p _ => p = errBudgetExhausted \/ p = errTooDeep \/ p = errCancelled
  | VFuel => True
  end.

Lemma framed_trans its its' m m' m'' :
  slots its' = slots its -> framed its m m' -> framed its' m' m'' -> framed its m m''.
Proof. intros E [[] F] [[] G]. split; [lia|]. intros s N. rewrite G by (by rewrite E). auto. Qed.

Lemma computes_move its its' sp sp' m caps x :
  slots its' = slots its -> search src tail its sp caps = search src tail its' sp' caps ->
  computes its' sp' m caps x -> computes its sp m caps x.
Proof.
  intros E S. destruct x as [[] ? ? ?| |]; cbn; rewrite ?S; auto.
  intros [? [? F]]. split; [done|]. split; [done|]. intros s N. apply F. by rewrite E.
Qed.

(** A split: the first alternative, and the second when it fails. *)
Lemma computes_choice its its1 its2 sp m caps x (g : Run -> list Z -> vres) :
  slots its1 = slots its -> slots its2 = slots its ->
  search src tail its sp caps =
    match search src tail its1 sp caps with Some y => Some y | None => search src tail its2 sp caps end ->
  computes its1 sp m caps x ->
  (forall r' m', framed its m m' -> computes its2 sp m' caps (g r' m')) ->
  computes its sp m caps
    match x with
    | VDone true nsp m' r' => VDone true nsp m' r'
    | VDone false _ m' r' => g r' m'
    | VPanic p r' => VPanic p r'
    | VFuel => VFuel
    end.
Proof.
  intros E1 E2 S H1 H2. destruct x as [[] nsp m' r'| |]; cbn in *; auto; [by rewrite S, H1|].
  destruct H1 as [N F]. assert (framed its m m') as F'.
  { destruct F as [? F]. split; [done|]. intros s Hs. apply F. by rewrite E1. }
  specialize (H2 r' m' F'). rewrite N in S.
  destruct (g r' m') as [[] ? ? ?| |]; cbn in *; rewrite ?S; auto.
  destruct H2 as [? F2]. split; [done|]. by eapply framed_trans.
Qed.

Lemma spend_panics r r1 p : spend closed r = (r1, Some p) -> p = errBudgetExhausted \/ p = errCancelled.
Proof.
  unfold spend. destruct (_ <? 0); [intros [= _ <-]; auto|]. destruct (0 <? _); [done|].
  destruct (closed _); intros [= _ <-]; auto.
Qed.

(** A recursive call, or the depth ceiling. *)
Lemma computes_call its sp m caps lvl r x :
  computes its sp m caps x -> computes its sp m caps (if MaxDepth <? lvl then VPanic errTooDeep r else x).
Proof. destruct (MaxDepth <? lvl); cbn; auto. Qed.

Lemma lookup_sp sp ch : src !! sp = Some ch -> (S sp <= length src)%nat.
Proof. intros E. apply lookup_lt_Some in E. lia. Qed.

Lemma sim_lookup its W O C sp m caps : sim its W O C sp m caps -> (length m <= ncap)%nat.
Proof. intros H. apply (sim_max _ _ _ _ _ _ _ H). Qed.

Lemma even_double s : Nat.even s = true -> (Nat.div2 s * 2)%nat = s.
Proof. intros E. apply Nat.even_spec in E as [n ->]. rewrite Nat.div2_double. lia. Qed.
Lemma odd_double s : Nat.even s = false -> S (Nat.div2 s * 2) = s.
Proof.
  intros E. assert (Nat.odd s = true) as H by (by rewrite <- Nat.negb_even, E).
  apply Nat.odd_spec in H as [n ->]. rewrite Nat.add_1_r, Nat.div2_succ_double. lia.
Qed.

(** The scoping after a save. *)
Lemma scoped_save s k O C : scoped (ISave s :: k) O C = true ->
  exists O' C', scoped k O' C' = true /\ (forall n, n ∈ O' -> n ∈ O \/ (n * 2)%nat = s) /\
    (forall n, n ∈ C' -> n ∈ C \/ (n ∈ O /\ S (n * 2) = s)).
Proof.
  cbn. destruct (Nat.even s) eqn:E; intros H.
  - exists (Nat.div2 s :: O), C. split_and!; [done| |auto].
    intros n [->|]%elem_of_cons; [right; by apply even_double|auto].
  - apply andb_prop in H as [H1 H2]. apply bool_decide_eq_true in H1.
    exists O, (Nat.div2 s :: C). split_and!; [done|auto|].
    intros n [->|]%elem_of_cons; [right; split; [done|by apply odd_double]|auto].
Qed.

(** A closed capture reads the same bytes from the array as from the captures. *)
Lemma closed_captured its W O C sp m caps n : sim its W O C sp m caps -> n ∈ C ->
  (CaptureLength m - 1 <=? Z.of_nat (n * 2)) = false /\
  reslice src spare (Capture m (n * 2)) (Capture m (S (n * 2))) = Some (captured src caps n).
Proof.
  intros S Hn. destruct (sim_closed _ _ _ _ _ _ _ S n Hn) as (H1 & H2 & H3).
  destruct (sim_len _ _ _ _ _ _ _ S _ H2) as [L _]. split.
  - apply Z.leb_gt. unfold CaptureLength. lia.
  - rewrite !(Capture_same caps m) by (by eapply sim_agree). unfold reslice, captured.
    rewrite bool_decide_true by (rewrite length_app; lia). f_equal.
    rewrite drop_app_le by lia. rewrite take_app_le; [done|]. rewrite length_drop. lia.
Qed.

(** What holds of a run of less fuel. *)
Definition computing (f : nat) : Prop :=
  forall pc sp lvl r m its W O C caps,
  loc pc its -> scoped its O C = true -> sim its W O C sp m caps ->
  computes its sp m caps (vm closed src spare code f pc sp lvl r m).

Section Step.
Context (f : nat) (IH : computing f).

(** A character, and what follows it. *)
Lemma char_computes pc c k sp lvl r m W O C caps :
  loc (S pc) k -> scoped k O C = true -> sim (ISingle c :: k) W O C sp m caps ->
  computes (ISingle c :: k) sp m caps
    match src !! sp, Some c with
    | Some ch, Some c => if Matches c ch then vm closed src spare code f (S pc) (S sp) lvl r m else VDone false sp m r
    | None, _ => VDone false sp m r
    | _, None => VPanic runtimeError r
    end.
Proof.
  intros L Sc S. pose proof (sim_lookup _ _ _ _ _ _ _ S).
  destruct (src !! sp) as [ch|] eqn:E; [|split; [cbn; by rewrite E|by apply framed_refl]].
  destruct (Matches c ch) eqn:Em.
  - eapply (computes_move _ k _ (Datatypes.S sp)); [done|cbn; by rewrite E, Em|].
    eapply IH; [done|done|]. eapply sim_move; [exact S|done|]. pose proof (lookup_sp _ _ E). lia.
  - split; [cbn; by rewrite E, Em|by apply framed_refl].
Qed.

(** The two alternatives of a split, at the same place in the subject. *)
Lemma split_computes its its1 its2 pc1 pc2 sp lvl r m W O C caps :
  slots its1 = slots its -> slots its2 = slots its ->
  (forall sp caps, search src tail its sp caps =
    match search src tail its1 sp caps with Some y => Some y | None => search src tail its2 sp caps end) ->
  loc pc1 its1 -> loc pc2 its2 -> scoped its1 O C = true -> scoped its2 O C = true ->
  sim its W O C sp m caps ->
  computes its sp m caps
    match (if MaxDepth <? lvl + 1 then VPanic errTooDeep r else vm closed src spare code f pc1 sp (lvl + 1) r m) with
    | VDone false _ m' r' => vm closed src spare code f pc2 sp lvl r' m'
    | x => x
    end.
Proof.
  intros E1 E2 Eq L1 L2 S1 S2 S. pose proof (sim_sp _ _ _ _ _ _ _ S).
  eapply (computes_choice its its1 its2 sp m caps _ (fun r' m' => vm closed src spare code f pc2 sp lvl r' m'));
    [done|done|done| |].
  - apply computes_call. eapply IH; [done|done|]. by eapply sim_move.
  - intros r' m' F. eapply IH; [done|done|]. eapply sim_move; [by eapply sim_framed|done|lia].
Qed.

Lemma save_computes s k pc sp lvl r m W O C caps :
  loc (S pc) k -> scoped (ISave s :: k) O C = true -> sim (ISave s :: k) W O C sp m caps ->
  computes (ISave s :: k) sp m caps
    (let '(m1, v) := setCapture m s sp in
     match (if MaxDepth <? lvl + 1 then VPanic errTooDeep r else vm closed src spare code f (S pc) sp (lvl + 1) r m1) with
     | VDone false _ m' r' => VDone false sp (restoreCapture m' s v) r'
     | x => x
     end).
Proof.
  intros L Sc S. destruct (scoped_save _ _ _ _ Sc) as (O' & C' & Sc' & HO & HC).
  destruct (setCapture m s sp) as [m1 v] eqn:E.
  pose proof (sim_save _ _ _ _ _ _ _ _ _ _ S E O' C' HO HC) as S1.
  pose proof (computes_call k sp m1 _ (lvl + 1) r _ (IH _ _ (lvl + 1) r _ _ _ _ _ _ L Sc' S1)) as H.
  destruct (if MaxDepth <? lvl + 1 then _ else _) as [[] nsp m' r'|p r'|]; cbn in *; auto.
  destruct H as [N [[L1 L2] F]]. apply setCapture_spec in E as (E1 & E2 & E3). split; [done|].
  split; [unfold restoreCapture; rewrite length_insert; lia|]. intros t Ht. cbn in Ht.
  unfold restoreCapture. rewrite nth_insert_ne by set_solver. rewrite F by set_solver. apply E3. set_solver.
Qed.
End Step.

Lemma vm_computing f : computing f.
Proof.
  induction f as [|f IH]; intros pc sp lvl r m its W O C caps L Sc S; [done|]. cbn [vm].
  destruct (spend closed r) as [r1 [p|]] eqn:Es.
  { apply spend_panics in Es. cbn. tauto. }
  pose proof (sim_lookup _ _ _ _ _ _ _ S) as Lm. pose proof (sim_sp _ _ _ _ _ _ _ S) as Ls.
  pose proof L as L0.
  destruct L as [pc E|pc c k E L|pc c k E E1 E2 L|pc c k E E1 E2 L|pc c k E E1 L|pc c k E E1 L
    |pc s k E L|pc s k E L|pc b e k E L|pc n k E L|pc idx its E L|pc idx c k E L1 L];
    rewrite E; cbn [OpCode Class Operand1 Operand2]; rewrite ?Nat2Z.id.
  - (* the end *)
    destruct tail eqn:Et; cbn.
    + destruct (decide (length src <= sp)%nat).
      * rewrite bool_decide_true by done. cbn. rewrite bool_decide_false, andb_false_r by lia.
        by rewrite (sim_end _ _ _ _ _ _ S).
      * rewrite bool_decide_false by done. cbn. rewrite bool_decide_true, Et by lia. by split; [|apply framed_refl].
    + rewrite Et. by rewrite (sim_end _ _ _ _ _ _ S).
  - by eapply char_computes.
  - eapply (split_computes f IH _ (ISingle c :: IRep 42 c :: k) k); try done; [apply star_unfold|].
    apply loc_single; [done|]. by eapply loc_jmp.
  - eapply (split_computes f IH _ k (ISingle c :: IRep 45 c :: k)); try done; [apply lazy_unfold|].
    apply loc_single; [done|]. by eapply loc_jmp.
  - eapply computes_move; [|apply plus_unfold|]; [done|].
    eapply char_computes; try done; [by eapply loc_again|by eapply sim_move].
  - eapply (split_computes f IH _ (ISingle c :: k) k); try done; [apply opt_unfold|]. by apply loc_single.
  - by eapply save_computes.
  - (* position capture *)
    destruct (addPosCapture_spec m s (Datatypes.S sp)) as (P1 & _ & _ & P4).
    pose proof (IH _ _ lvl r1 _ _ _ _ _ _ L Sc (sim_pos _ _ _ _ _ _ _ _ S)) as H.
    destruct (vm closed src spare code f _ _ _ _ _) as [[] nsp m' r'|p r'|]; cbn in *; auto.
    destruct H as [N [[L1 L2] F]]. split; [done|]. split; [lia|]. intros t Ht. cbn in Ht.
    rewrite F by set_solver. apply P4; set_solver.
  - (* balanced pair *)
    destruct (src !! sp) as [ch|] eqn:Ech; [|split; [cbn; by rewrite Ech|by apply framed_refl]].
    destruct (ch =? b) eqn:Eb; [|split; [cbn; by rewrite Ech, Eb|by apply framed_refl]].
    destruct (brace_scan b e _ _ 1) as [sp'|] eqn:Esc; [|split; [cbn; by rewrite Ech, Eb, Esc|by apply framed_refl]].
    eapply (computes_move _ k _ sp'); [done|cbn; by rewrite Ech, Eb, Esc|].
    eapply IH; [done|done|]. eapply sim_move; [exact S|done|].
    apply brace_scan_bounds in Esc. rewrite length_drop in Esc. pose proof (lookup_sp _ _ Ech). lia.
  - (* back reference *)
    cbn [scoped] in Sc. apply andb_prop in Sc as [Hn Sc]. apply bool_decide_eq_true in Hn.
    destruct (closed_captured _ _ _ _ _ _ _ _ S Hn) as [-> ->].
    destruct (has_prefix_at src _ sp) eqn:Ep; [|split; [cbn; by rewrite Ep|by apply framed_refl]].
    eapply (computes_move _ k); [done|cbn; by rewrite Ep|]. eapply IH; [done|done|].
    eapply sim_move; [exact S|done|]. unfold has_prefix_at in Ep.
    destruct (strip_prefix _ _) eqn:Esp; [|done]. apply strip_prefix_length in Esp. rewrite length_drop in Esp. lia.
  - by eapply IH.
  - eapply (split_computes f IH _ (IRep 43 c :: k) k); try done. apply star_plus.
Qed.
End Sim.
