(* ===== verification/LuaPatCode.v ===== *)
(** * From pattern text to code

    The scanner is a cursor, the parser reads every pattern and yields
    well-formed ones, and the compiler lays out their items, each capture in
    slots of its own. *)
From Stdlib Require Import String.
From stdpp Require Import base list sets.
From Stdlib Require Import ZArith Lia.
From S2P Require Import Prelude PolicyLex LuaPat LuaPatRef.
Open Scope Z_scope.

(** ** The scanner is a cursor *)

(** [cursor sc i]: the next byte to be read is the [i]-th. *)
Definition cursor (sc : scanner) (i : nat) : Prop :=
  (i = 0%nat /\ State sc = mkSt 0 false) \/
  ((0 < i <= length (ssrc sc))%nat /\ State sc = mkSt (Z.of_nat i - 1) true) \/
  (i = length (ssrc sc) /\ State sc = mkSt EOS true).

(** The byte at an index, [EOS] past the end. *)
Definition byte_at (s : bytes) (i : nat) : Z := nth i s EOS.

Lemma byte_at_end s i : (length s <= i)%nat -> byte_at s i = EOS.
Proof. intros L. by apply nth_overflow. Qed.

(** A scanner over bytes, none of which is [EOS]. *)
Definition byte_ok (s : bytes) : Prop := Forall (fun b => 0 <= b < 256) s.

Lemma byte_at_lt s i : byte_ok s -> byte_at s i <> EOS -> (i < length s)%nat.
Proof. intros _ N. destruct (decide (i < length s)%nat); [done|]. by rewrite byte_at_end in N by lia. Qed.

Lemma byte_at_range s i : byte_ok s -> (i < length s)%nat -> 0 <= byte_at s i < 256.
Proof.
  intros B L. unfold byte_at. destruct (nth_lookup_or_length s i EOS) as [E|]; [|lia].
  by eapply Forall_lookup_1 in B.
Qed.

Lemma cursor_bound sc i : cursor sc i -> (i <= length (ssrc sc))%nat.
Proof. intros [[-> _]|[[? _]|[-> _]]]; lia. Qed.

Lemma nth_byte_at s i d : (i < length s)%nat -> nth i s d = byte_at s i.
Proof. intros L. by apply nth_indep. Qed.

Lemma Next_in sc i : cursor sc i -> (i < length (ssrc sc))%nat ->
  Next sc = (byte_at (ssrc sc) i, set_state sc (mkSt (Z.of_nat i) true)).
Proof.
  destruct sc as [s st sv]. intros H L. unfold Next, NextPos, Length, set_state, cursor in *. cbn in *.
  destruct H as [[-> ->]|[[Li ->]|[E _]]]; [| |exfalso; subst i; lia]; cbn.
  - destruct s as [|b s]; cbn in *; [lia|done].
  - rewrite (proj2 (Z.eqb_neq (Z.of_nat i - 1) EOS)) by (unfold EOS; lia). cbn [orb].
    rewrite (proj2 (Z.leb_gt (Z.of_nat (length s) - 1) (Z.of_nat i - 1))) by lia.
    replace (Z.of_nat i - 1 + 1) with (Z.of_nat i) by lia.
    rewrite (proj2 (Z.eqb_neq (Z.of_nat i) EOS)) by (unfold EOS; lia).
    rewrite Nat2Z.id. by rewrite nth_byte_at.
Qed.

Lemma Next_out sc : cursor sc (length (ssrc sc)) -> Next sc = (EOS, set_state sc (mkSt EOS true)).
Proof.
  destruct sc as [s st sv]. intros H. unfold Next, NextPos, Length, set_state, cursor in *. cbn in *.
  destruct H as [[E ->]|[[Li ->]|[_ ->]]]; cbn.
  - by destruct s.
  - rewrite (proj2 (Z.eqb_neq (Z.of_nat (length s) - 1) EOS)) by (unfold EOS; lia). cbn [orb].
    by rewrite (proj2 (Z.leb_le (Z.of_nat (length s) - 1) (Z.of_nat (length s) - 1))) by lia.
  - done.
Qed.

Lemma cursor_in sc i : (i < length (ssrc sc))%nat -> cursor (set_state sc (mkSt (Z.of_nat i) true)) (S i).
Proof. intros L. right. left. cbn. split; [lia|]. f_equal. lia. Qed.

Lemma cursor_out sc : cursor (set_state sc (mkSt EOS true)) (length (ssrc sc)).
Proof. by right; right. Qed.

Lemma Peek_spec sc i : cursor sc i ->
  exists sc', Peek sc = (byte_at (ssrc sc) i, sc') /\ ssrc sc' = ssrc sc /\ saved sc' = saved sc /\ cursor sc' i.
Proof.
  intros H. pose proof (cursor_bound _ _ H) as B. unfold Peek.
  destruct (decide (i < length (ssrc sc))%nat) as [L|L].
  - rewrite (Next_in _ _ H L). cbn. rewrite (proj2 (Z.eqb_neq (Z.of_nat i) _)) by (unfold EOS; lia).
    assert (Pos (State sc) <> EOS) as N.
    { destruct H as [[_ ->]|[[? ->]|[E _]]]; cbn; unfold EOS; lia. }
    rewrite (proj2 (Z.eqb_neq (Pos (State sc)) _)) by done.
    destruct (Z.ltb_spec (Z.of_nat i - 1) 0); eexists; split_and!; try done.
    + left. split; [lia|done].
    + right. left. cbn. split; [lia|done].
  - assert (i = length (ssrc sc)) as -> by lia. rewrite (Next_out _ H). cbn.
    rewrite byte_at_end by lia. unfold Length. cbn.
    destruct H as [[E Es]|[[Li Es]|[_ Es]]]; rewrite Es; cbn.
    + eexists. split_and!; try done. right. right. cbn. split; [done|]. f_equal. unfold EOS. lia.
    + rewrite (proj2 (Z.eqb_neq (Z.of_nat (length (ssrc sc)) - 1) EOS)) by (unfold EOS; lia).
      eexists. split_and!; try done. right. left. by split.
    + eexists. split_and!; try done. by right; right.
Qed.

(** Next at a cursor, whatever the byte. *)
Lemma Next_spec sc i : cursor sc i ->
  exists sc' j, Next sc = (byte_at (ssrc sc) i, sc') /\ ssrc sc' = ssrc sc /\ saved sc' = saved sc /\
    cursor sc' j /\ (i <= j)%nat /\ (byte_at (ssrc sc) i <> EOS -> i < j)%nat.
Proof.
  intros H. pose proof (cursor_bound _ _ H) as B.
  destruct (decide (i < length (ssrc sc))%nat) as [L|L].
  - rewrite (Next_in _ _ H L). eexists _, (S i). split_and!; [done..|by apply cursor_in|lia|lia].
  - assert (i = length (ssrc sc)) as -> by lia. rewrite (Next_out _ H), byte_at_end by lia.
    eexists _, _. split_and!; [done..|apply cursor_out|lia|done].
Qed.

(** ** Parsing ends, and yields well-formed patterns *)

(** What the parser can produce: one of the four repetitions, a back reference
    to one of nine captures. *)
Fixpoint wf_pat (p : pattern) : bool :=
  match p with
  | repeatPattern ty _ => is_rep ty
  | numberPattern n => between 1 n 9
  | capPattern ps => forallb wf_pat ps
  | _ => true
  end.

(** [reads p i x]: a parser started at cursor [i] of [p] ended with [x]: a
    result further on, or an error; never for want of fuel. *)
Definition reads {A} (p : bytes) (i : nat) (Q : A -> Prop) (x : pres A) : Prop :=
  match x with
  | POk a sc => Q a /\ ssrc sc = p /\ exists j, cursor sc j /\ (i <= j)%nat
  | PErr _ => True
  | PFuel => False
  end.

Ltac peeking C :=
  let sc := fresh "sc" in let E := fresh "E" in let Es := fresh "Es" in let Ev := fresh "Ev" in
  let C' := fresh "C" in
  destruct (Peek_spec _ _ C) as (sc & E & Es & Ev & C'); rewrite E; clear E.
Ltac nexting C :=
  let sc := fresh "sc" in let j := fresh "j" in let E := fresh "E" in let Es := fresh "Es" in
  let Ev := fresh "Ev" in let C' := fresh "C" in
  destruct (Next_spec _ _ C) as (sc & j & E & Es & Ev & C' & ? & ?); rewrite E; clear E.

Lemma parseClass1_reads sc i : cursor sc i ->
  reads (ssrc sc) i (fun _ => True) (parseClass1 sc) /\
  forall c sc', parseClass1 sc = POk c sc' -> exists j, cursor sc' j /\ (i < j)%nat.
Proof.
  intros C. unfold parseClass1. nexting C.
  destruct (Z.eqb_spec (byte_at (ssrc sc) i) 37) as [E|N].
  - nexting C0. split.
    + cbn. split_and!; [done|congruence|]. exists j0. split; [done|lia].
    + intros ? ? [= <- <-]. exists j0. split; [done|]. rewrite E in *. unfold EOS in *. lia.
  - destruct (Z.eqb_spec (byte_at (ssrc sc) i) EOS) as [|N2]; [by split|]. split.
    + cbn. split_and!; [done|done|]. exists j. split; [done|lia].
    + intros ? ? [= <- <-]. exists j. split; [done|]. auto.
Qed.

Lemma set_loop_reads f isNot cs isrange sc i : cursor sc i -> (length (ssrc sc) - i < f)%nat ->
  reads (ssrc sc) i (fun _ => True) (set_loop f isNot cs isrange sc).
Proof.
  revert cs isrange sc i. induction f as [|f IH]; intros cs isrange sc i C L; [lia|]. cbn [set_loop].
  pose proof (cursor_bound _ _ C). peeking C.
  destruct (Z.eqb_spec (byte_at (ssrc sc) i) EOS) as [|N]; [done|].
  assert (forall sc' j g cs r, ssrc sc' = ssrc sc -> cursor sc' j -> (i < j)%nat -> g = f ->
    reads (ssrc sc) i (fun _ => True) (set_loop g isNot cs r sc')) as Go.
  { intros sc' j g cs' r E C' Lj ->. specialize (IH cs' r sc' j C').
    rewrite E in IH. pose proof (cursor_bound _ _ C'). rewrite E in *. specialize (IH ltac:(lia)).
    destruct (set_loop f isNot cs' r sc'); cbn in *; auto.
    destruct IH as (? & ? & k & ? & ?). split_and!; auto. exists k. split; [done|lia]. }
  destruct ((_ =? 93) && _).
  { nexting C0. cbn. split_and!; [done|congruence|]. exists j. split; [done|lia]. }
  destruct ((_ =? 45) && _).
  { nexting C0. rewrite Es in *. eapply Go; [congruence|done|auto|done]. }
  destruct (parseClass1_reads _ _ C0) as [R P]. destruct (parseClass1 sc0) as [c sc2|e|]; cbn in R; auto.
  destruct (P _ _ eq_refl) as (j & Cj & Lj). eapply Go; [|done..]. destruct R as (_ & ? & _). congruence.
Qed.

Lemma parseClassSet_reads sc i : cursor sc i -> reads (ssrc sc) i (fun _ => True) (parseClassSet sc).
Proof.
  intros C. unfold parseClassSet. peeking C.
  destruct (_ =? 94).
  - nexting C0. pose proof (set_loop_reads (S (S (length (ssrc sc)))) true [] false sc1 j C1) as R.
    rewrite Es0, Es in R. specialize (R ltac:(lia)).
    destruct (set_loop _ _ _ _ _); cbn in *; auto. destruct R as (? & ? & k & ? & ?).
    split_and!; auto. exists k. split; [done|lia].
  - pose proof (set_loop_reads (S (S (length (ssrc sc)))) false [] false sc0 i C0) as R.
    rewrite Es in R. apply R. lia.
Qed.

Lemma parseClass_reads sc i : cursor sc i -> byte_at (ssrc sc) i <> EOS ->
  match parseClass sc with
  | POk _ sc' => ssrc sc' = ssrc sc /\ exists j, cursor sc' j /\ (i < j)%nat
  | PErr _ => True
  | PFuel => False
  end.
Proof.
  intros C N. unfold parseClass. nexting C. specialize (H0 N).
  destruct (_ =? 37).
  { nexting C0. split; [congruence|]. exists j0. split; [done|lia]. }
  destruct (_ =? 46); [split; [done|]; exists j; auto|].
  destruct (_ =? 91).
  { pose proof (parseClassSet_reads _ _ C0) as R. destruct (parseClassSet sc0); cbn in R; auto.
    destruct R as (_ & E & k & ? & ?). split; [congruence|]. exists k. split; [done|lia]. }
  destruct (_ =? EOS); [done|]. split; [done|]. exists j. auto.
Qed.

Lemma last_single_wf ps rest c : last_single ps = Some (rest, c) -> forallb wf_pat ps = true ->
  forallb wf_pat rest = true.
Proof.
  unfold last_single. destruct (rev ps) as [|[] l] eqn:E; try done. intros [= <- <-] W.
  apply (f_equal (@rev pattern)) in E. rewrite rev_involutive in E. cbn in E. subst ps.
  rewrite forallb_app in W. by apply andb_prop in W as [W _].
Qed.

Lemma forallb_snoc ps p : forallb wf_pat ps = true -> wf_pat p = true -> forallb wf_pat (ps ++ [p]) = true.
Proof. intros W P. rewrite forallb_app, W. cbn. by rewrite P. Qed.

(** Later rounds of the loop, from a place further on. *)
Definition rounds (f : nat) : Prop :=
  forall top ps tail sc i, cursor sc i -> (length (ssrc sc) - i < f)%nat -> forallb wf_pat ps = true ->
  reads (ssrc sc) i (fun x => forallb wf_pat (fst x) = true) (pattern_loop f top ps tail sc).

Lemma rounds_go f p i top ps tail sc j : rounds f -> cursor sc j -> ssrc sc = p -> (i < j)%nat ->
  (length p - i < S f)%nat -> forallb wf_pat ps = true ->
  reads p i (fun x => forallb wf_pat (fst x) = true) (pattern_loop f top ps tail sc).
Proof.
  intros R C <- L F W. pose proof (cursor_bound _ _ C).
  specialize (R top ps tail sc j C ltac:(lia) W).
  destruct (pattern_loop f top ps tail sc); cbn in *; auto.
  destruct R as (? & ? & k & ? & ?). split_and!; auto. exists k. split; [done|lia].
Qed.

(** An item that is one class. *)
Lemma class_item_reads f p i top ps tail sc : rounds f -> cursor sc i -> ssrc sc = p -> byte_at p i <> EOS ->
  (length p - i < S f)%nat -> forallb wf_pat ps = true ->
  reads p i (fun x => forallb wf_pat (fst x) = true)
    match parseClass sc with
    | POk c sc => pattern_loop f top (ps ++ [singlePattern c]) tail sc
    | PErr e => PErr e
    | PFuel => PFuel
    end.
Proof.
  intros R C <- N F W. pose proof (parseClass_reads _ _ C N) as P.
  destruct (parseClass sc) as [c sc'|e|]; [|done|done]. destruct P as (E & j & Cj & L).
  eapply rounds_go; eauto using forallb_snoc.
Qed.

(** A capture: its inside, then its closing parenthesis. *)
Lemma capture_reads f p i j top ps tail sc : rounds f -> cursor sc j -> ssrc sc = p -> (i < j)%nat ->
  (length p - i < S f)%nat -> forallb wf_pat ps = true ->
  reads p i (fun x => forallb wf_pat (fst x) = true)
    match pattern_loop f false [] false sc with
    | POk (inner, _) sc =>
        let '(k2, sc) := Peek sc in
        if negb (k2 =? 41) then PErr (mkError (CurrentPos sc) UnfinishedCapture)
        else let '(_, sc) := Next sc in pattern_loop f top (ps ++ [capPattern inner]) tail sc
    | PErr e => PErr e
    | PFuel => PFuel
    end.
Proof.
  intros R C E L F W. pose proof (rounds_go f p i false [] false sc j R C E L F eq_refl) as I.
  destruct (pattern_loop f false [] false sc) as [[inner t] sc'|e|] eqn:EP; [|done|done].
  assert (exists k, cursor sc' k /\ (j <= k)%nat) as (k & Ck & Lk).
  { specialize (R false [] false sc j C). pose proof (cursor_bound _ _ C). rewrite E in *.
    specialize (R ltac:(lia) eq_refl). rewrite EP in R. destruct R as (_ & _ & k & ? & ?). eauto. }
  destruct I as (Wi & Es & _). cbn [fst] in Wi. peeking Ck.
  destruct (byte_at (ssrc sc') k =? 41); cbn [negb]; [|done]. nexting C0.
  eapply rounds_go; [done|exact C1|congruence|lia|done|]. apply forallb_snoc; [done|]. cbn. done.
Qed.

Lemma pattern_loop_rounds f : rounds f.
Proof.
  induction f as [|f IH]; intros top ps tail sc i C F W; [lia|]. cbn [pattern_loop].
  pose proof (cursor_bound _ _ C) as B. set (p := ssrc sc) in *. peeking C. fold p in Es |- *.
  assert (forall sc' ps', cursor sc' i -> ssrc sc' = p -> byte_at p i <> EOS -> forallb wf_pat ps' = true ->
    forall t, reads p i (fun x => forallb wf_pat (fst x) = true)
      (let '(_, s) := Next sc' in pattern_loop f top ps' t s)) as Lit.
  { intros sc' ps' C' E' N W' t. nexting C'. rewrite E' in *. eapply rounds_go; eauto. }
  destruct (Z.eqb_spec (byte_at p i) 37) as [E|_].
  { assert (byte_at p i <> EOS) as N by (rewrite E; done).
    assert (cursor (Save sc0) i) as CS by done. nexting CS. cbn [Save ssrc saved] in *. rewrite Es in *.
    specialize (H0 N). peeking C1. rewrite Es0 in *. set (k := byte_at p j) in *.
    destruct (k =? 48); [done|]. destruct (between 49 k 57) eqn:Ek.
    - nexting C2. rewrite Es1 in *. fold k. unfold between in Ek. breflect.
      eapply rounds_go; [done|exact C3|congruence|lia|done|]. apply forallb_snoc; [done|]. cbn. unfold between.
      rewrite !(proj2 (Z.leb_le _ _)) by lia. done.
    - destruct (k =? 98).
      + nexting C2. nexting C3. nexting C4. eapply rounds_go; [done|exact C5|congruence|lia|done|].
        by apply forallb_snoc.
      + apply class_item_reads; [done| |cbn; congruence|done..]. unfold cursor, Restore in *. cbn.
        rewrite Ev1, Ev0, Es1. cbn. rewrite <- Es. exact C0. }
  destruct ((_ =? 46) || (_ =? 91) || (_ =? 93)) eqn:Ed.
  { apply class_item_reads; auto. unfold EOS. intros N. rewrite N in Ed. discriminate. }
  destruct (Z.eqb_spec (byte_at p i) 41) as [E|_].
  { destruct top; [done|]. cbn. split_and!; [done|done|]. exists i. split; [done|lia]. }
  destruct (Z.eqb_spec (byte_at p i) 40) as [E|_].
  { assert (byte_at p i <> EOS) as N by (rewrite E; done). nexting C0. rewrite Es in *. specialize (H0 N).
    peeking C1. destruct (_ =? 41).
    - nexting C2. eapply rounds_go; [done|exact C3|congruence|lia|done|]. by apply forallb_snoc.
    - eapply capture_reads; eauto. congruence. }
  destruct (is_rep (byte_at p i)) eqn:Er.
  { assert (byte_at p i <> EOS) as N by (intros N; rewrite N in Er; discriminate).
    nexting C0. rewrite Es in *. specialize (H0 N). destruct (last_single ps) as [[rest c]|] eqn:El.
    - eapply rounds_go; eauto. apply forallb_snoc; [by eapply last_single_wf|done].
    - eapply rounds_go; eauto using forallb_snoc. }
  destruct (Z.eqb_spec (byte_at p i) 36) as [E|_].
  { assert (byte_at p i <> EOS) as N by (rewrite E; done). destruct (_ && _); apply Lit; auto using forallb_snoc. }
  destruct (Z.eqb_spec (byte_at p i) EOS) as [E|N].
  { nexting C0. cbn. rewrite Es in *. split_and!; [done|congruence|]. exists j. split; [done|lia]. }
  apply Lit; auto using forallb_snoc.
Qed.

(** Every pattern is read: a well-formed pattern or an error. *)
Lemma parsePattern_reads p :
  match parsePattern p with
  | POk s _ => forallb wf_pat (Patterns s) = true
  | PErr _ => True
  | PFuel => False
  end.
Proof.
  unfold parsePattern. assert (cursor (newScanner p) 0) as C by (by left). peeking C.
  destruct (_ =? 94); [nexting C0|]; cbn [snd fst] in *.
  - pose proof (pattern_loop_rounds (S (S (length p))) true [] false sc0 j C1) as R. rewrite Es0, Es in R.
    change (ssrc (newScanner p)) with p in R. specialize (R ltac:(lia) eq_refl). destruct (pattern_loop _ _ _ _ _) as [[ps t] s|e|]; [|done|done].
    apply R.
  - pose proof (pattern_loop_rounds (S (S (length p))) true [] false sc 0%nat C0) as R. rewrite Es in R.
    change (ssrc (newScanner p)) with p in R. specialize (R ltac:(lia) eq_refl). destruct (pattern_loop _ _ _ _ _) as [[ps t] s|e|]; [|done|done].
    apply R.
Qed.

(** ** Compilation lays out the items *)

(** The items of a pattern whose first free slot is [n], and the next one. *)
Fixpoint items1 (p : pattern) (n : nat) : list item * nat :=
  match p with
  | singlePattern c => ([ISingle c], n)
  | repeatPattern ty c => ([IRep ty c], n)
  | posCapPattern => ([IPos n], S (S n))
  | capPattern ps =>
      let '(l, n') := (fix seq (ps : list pattern) (n : nat) : list item * nat :=
        match ps with
        | [] => ([], n)
        | p :: ps' => let '(a, n1) := items1 p n in let '(b, n2) := seq ps' n1 in (a ++ b, n2)
        end) ps (S (S n)) in
      (ISave n :: l ++ [ISave (S n)], n')
  | bracePattern b e => ([IBrace b e], n)
  | numberPattern k => ([INumber (Z.to_nat k)], n)
  end.

Fixpoint items (ps : list pattern) (n : nat) : list item * nat :=
  match ps with
  | [] => ([], n)
  | p :: ps' => let '(a, n1) := items1 p n in let '(b, n2) := items ps' n1 in (a ++ b, n2)
  end.

(** A whole pattern: the match itself is the capture in slots 0 and 1. *)
Definition pattern_items (s : seqPattern) : list item :=
  ISave 0 :: fst (items (Patterns s) 2) ++ [ISave 1].

Lemma items1_cap ps n : items1 (capPattern ps) n =
  (ISave n :: fst (items ps (S (S n))) ++ [ISave (S n)], snd (items ps (S (S n)))).
Proof.
  cbn [items1]. fold items. by destruct (items ps (S (S n))).
Qed.

(** The instructions of an item at index [idx]. *)
Definition asm1 (i : item) (idx : nat) : list inst :=
  match i with
  | ISingle c => [mkInst opChar (Some c) (-1) (-1)]
  | IRep ty c => repeat_insts ty c (Z.of_nat idx)
  | ISave s => [mkInst opSave None (Z.of_nat s) (-1)]
  | IPos s => [mkInst opPSave None (Z.of_nat s) (-1)]
  | IBrace b e => [mkInst opBrace None b e]
  | INumber n => [mkInst opNumber None (Z.of_nat n) (-1)]
  end.

Fixpoint asm (its : list item) (idx : nat) : list inst :=
  match its with
  | [] => []
  | i :: k => asm1 i idx ++ asm k (idx + length (asm1 i idx))
  end.

Lemma asm_app a b idx : asm (a ++ b) idx = asm a idx ++ asm b (idx + length (asm a idx)).
Proof.
  revert idx. induction a as [|i a IH]; intros idx; cbn; [by rewrite Nat.add_0_r|].
  rewrite IH, <- app_assoc, length_app. by rewrite Nat.add_assoc.
Qed.

(** Induction over patterns, through captures. *)
Lemma pattern_ind' (Q : pattern -> Prop) :
  (forall c, Q (singlePattern c)) -> (forall ty c, Q (repeatPattern ty c)) -> Q posCapPattern ->
  (forall ps, Forall Q ps -> Q (capPattern ps)) -> (forall n, Q (numberPattern n)) ->
  (forall b e, Q (bracePattern b e)) -> forall p, Q p.
Proof.
  intros H1 H2 H3 H4 H5 H6. fix go 1. intros [c|ty c| |ps|n|b e];
    [apply H1|apply H2|apply H3| |apply H5|apply H6].
  apply H4. induction ps as [|p ps IH]; constructor; [apply go|exact IH].
Qed.

Definition laid_out (ptr ptr' : iptr) (its : list item) (n n' : nat) : Prop :=
  insts ptr' = insts ptr ++ asm its (length (insts ptr)) /\
  (capture ptr = Z.of_nat n -> capture ptr' = Z.of_nat n').

Lemma laid_out_trans p1 p2 p3 a b n1 n2 n3 :
  laid_out p1 p2 a n1 n2 -> laid_out p2 p3 b n2 n3 -> laid_out p1 p3 (a ++ b) n1 n3.
Proof.
  intros [E1 C1] [E2 C2]. split; [|auto]. rewrite E2, asm_app, E1, length_app, app_assoc. done.
Qed.

(** Each pattern adds the code of its items. *)
Definition compiles (p : pattern) : Prop :=
  wf_pat p = true -> forall ptr n, capture ptr = Z.of_nat n ->
  laid_out ptr (compile p ptr) (fst (items1 p n)) n (snd (items1 p n)).

Lemma compile_seq_items ps : Forall compiles ps -> forallb wf_pat ps = true ->
  forall ptr n, capture ptr = Z.of_nat n ->
  laid_out ptr (compile_seq ps ptr) (fst (items ps n)) n (snd (items ps n)).
Proof.
  induction 1 as [|p ps Hp _ IH]; intros W ptr n C; cbn [compile_seq fold_left items].
  { split; [cbn; by rewrite app_nil_r|done]. }
  cbn in W. apply andb_prop in W as [W1 W2]. specialize (Hp W1 ptr n C).
  destruct (items1 p n) as [a n1]. specialize (IH W2 (compile p ptr) n1 (proj2 Hp C)).
  destruct (items ps n1) as [b n2]. by eapply laid_out_trans.
Qed.

Lemma compile_cap ps ptr :
  compile (capPattern ps) ptr =
  add_insts (compile_seq ps (mkIptr (insts ptr ++ [mkInst opSave None (capture ptr) (-1)]) (capture ptr + 2)))
    [mkInst opSave None (capture ptr + 1) (-1)].
Proof.
  reflexivity.
Qed.

Lemma compile_items p : compiles p.
Proof.
  induction p as [c|ty c| |ps IH|n|b e] using pattern_ind'; intros W ptr m C.
  - split; [done|auto].
  - split; [cbn; by rewrite app_nil_r|auto].
  - split; [cbn; by rewrite C|]. cbn. lia.
  - rewrite compile_cap, items1_cap. cbn [fst snd]. cbn in W.
    set (q := mkIptr _ _). assert (capture q = Z.of_nat (S (S m))) as Cq by (cbn; lia).
    destruct (compile_seq_items ps IH W q (S (S m)) Cq) as [E1 E2]. split; [|by intros _; apply E2].
    cbn [add_insts insts]. rewrite E1. cbn [q insts asm asm1]. rewrite C, length_app, asm_app. cbn.
    rewrite <- !app_assoc. cbn. replace (Z.of_nat m + 1) with (Z.of_nat (S m)) by lia. done.
  - split; [|auto]. cbn in *. unfold between in W. breflect. by rewrite Z2Nat.id by lia.
  - split; [done|auto].
Qed.

(** ** The code of a pattern is at its place *)

Definition rep_ok (i : item) : Prop := match i with IRep ty _ => is_rep ty = true | _ => True end.

Lemma lookup_code (code pre : list inst) x post n : code = pre ++ x :: post -> n = length pre ->
  code !! n = Some x.
Proof. intros -> ->. by rewrite list_lookup_middle. Qed.

Lemma loc_asm code tail its rest pre post : Forall rep_ok its ->
  code = pre ++ asm its (length pre) ++ post ->
  loc code tail (length pre + length (asm its (length pre))) rest -> loc code tail (length pre) (its ++ rest).
Proof.
  intros R. revert pre. induction R as [|i its Ri _ IH]; intros pre E L.
  { by rewrite Nat.add_0_r in L. }
  cbn [asm] in *. rewrite length_app, Nat.add_assoc in L.
  assert (loc code tail (length (pre ++ asm1 i (length pre))) (its ++ rest)) as K.
  { apply IH; rewrite length_app; [|exact L]. by rewrite E, <- !app_assoc. }
  rewrite length_app in K. rewrite <- app_assoc in E. cbn [app].
  destruct i as [c|ty c|s|s|b e|n]; cbn [asm1 length] in *; rewrite ?Nat.add_1_r in K.
  - apply loc_single; [by eapply lookup_code|done].
  - unfold rep_ok, is_rep in Ri. unfold repeat_insts in *.
    destruct (Z.eqb_spec ty 42) as [->|]; [|destruct (Z.eqb_spec ty 43) as [->|]; [|destruct (Z.eqb_spec ty 45) as [->|];
      [|destruct (Z.eqb_spec ty 63) as [->|]; [|done]]]]; cbn [length app] in *.
    + apply loc_star; [| | |by rewrite Nat.add_comm].
      * eapply (lookup_code _ pre); [|done]. rewrite E. do 3 f_equal; lia.
      * eapply (lookup_code _ (pre ++ [_])); [by rewrite E, <- app_assoc|rewrite length_app; cbn; lia].
      * eapply (lookup_code _ (pre ++ [_; _])); [by rewrite E, <- app_assoc|rewrite length_app; cbn; lia].
    + apply loc_plus; [| |by rewrite Nat.add_comm].
      * by eapply (lookup_code _ pre).
      * eapply (lookup_code _ (pre ++ [_])); [|rewrite length_app; cbn; lia]. rewrite E, <- app_assoc. cbn.
        do 4 f_equal; lia.
    + apply loc_lazy; [| | |by rewrite Nat.add_comm].
      * eapply (lookup_code _ pre); [|done]. rewrite E. do 3 f_equal; lia.
      * eapply (lookup_code _ (pre ++ [_])); [by rewrite E, <- app_assoc|rewrite length_app; cbn; lia].
      * eapply (lookup_code _ (pre ++ [_; _])); [by rewrite E, <- app_assoc|rewrite length_app; cbn; lia].
    + apply loc_opt; [| |by rewrite Nat.add_comm].
      * eapply (lookup_code _ pre); [|done]. rewrite E. do 3 f_equal; lia.
      * eapply (lookup_code _ (pre ++ [_])); [by rewrite E, <- app_assoc|rewrite length_app; cbn; lia].
  - apply loc_save; [by eapply lookup_code|done].
  - apply loc_pos; [by eapply lookup_code|done].
  - apply loc_brace; [by eapply lookup_code|done].
  - apply loc_number; [by eapply lookup_code|done].
Qed.

Lemma items_seq (Q : pattern -> nat -> list item -> nat -> Prop) (R : nat -> list item -> nat -> Prop) :
  (forall n, R n [] n) ->
  (forall p n a n1 b n2, Q p n a n1 -> R n1 b n2 -> R n (a ++ b) n2) ->
  forall ps n, (Forall (fun p => forall n, Q p n (fst (items1 p n)) (snd (items1 p n))) ps) ->
  R n (fst (items ps n)) (snd (items ps n)).
Proof.
  intros R0 R1 ps n F. revert n. induction F as [|p ps Hp _ IH]; intros n; cbn; [apply R0|].
  specialize (Hp n). destruct (items1 p n) as [a n1]. specialize (IH n1). destruct (items ps n1) as [b n2].
  by eapply R1.
Qed.

(** Fresh slots: a pattern's slots are an interval, each used once. *)
Definition interval (n : nat) (its : list item) (n' : nat) : Prop :=
  (n <= n')%nat /\ NoDup (slots its) /\ forall s, s ∈ slots its <-> (n <= s < n')%nat.

Lemma slots_app a b : slots (a ++ b) = slots a ++ slots b.
Proof. apply flat_map_app. Qed.

Lemma interval_nil n : interval n [] n.
Proof. split_and!; [done|constructor|]. intros s. cbn. split; [by intros ?%elem_of_nil|lia]. Qed.

Lemma interval_app n a n1 b n2 : interval n a n1 -> interval n1 b n2 -> interval n (a ++ b) n2.
Proof.
  intros (L1 & N1 & E1) (L2 & N2 & E2). split_and!; [lia| |].
  - rewrite slots_app. apply NoDup_app. split_and!; [done| |done]. intros s H1 H2.
    apply E1 in H1. apply E2 in H2. lia.
  - intros s. rewrite slots_app, elem_of_app, E1, E2. lia.
Qed.

Lemma interval_cap n its n' : interval (S (S n)) its n' -> interval n (ISave n :: its ++ [ISave (S n)]) n'.
Proof.
  intros (L & N & E). split_and!; [lia| |].
  - cbn. rewrite slots_app. cbn. apply NoDup_cons. split.
    + rewrite elem_of_app, E, list_elem_of_singleton. lia.
    + apply NoDup_app. split_and!; [done| |apply NoDup_singleton].
      intros s H1 H2. apply E in H1. apply list_elem_of_singleton in H2. lia.
  - intros s. cbn. rewrite slots_app, elem_of_cons, elem_of_app, E. cbn. rewrite list_elem_of_singleton. lia.
Qed.

Lemma items1_interval p n : interval n (fst (items1 p n)) (snd (items1 p n)).
Proof.
  revert n. induction p as [c|ty c| |ps IH|k|b e] using pattern_ind'; intros n; try apply interval_nil.
  - cbn. split_and!; [lia| |].
    + cbn. apply NoDup_cons. split; [rewrite list_elem_of_singleton; lia|apply NoDup_singleton].
    + intros s. cbn. rewrite elem_of_cons, list_elem_of_singleton. lia.
  - rewrite items1_cap. cbn [fst snd]. apply interval_cap.
    apply (items_seq (fun _ => interval) interval); auto using interval_nil. intros. by eapply interval_app.
Qed.

Lemma items_interval ps n : interval n (fst (items ps n)) (snd (items ps n)).
Proof.
  apply (items_seq (fun _ => interval) interval); auto using interval_nil; [intros; by eapply interval_app|].
  apply Forall_true. intros p n'. apply items1_interval.
Qed.

Lemma items1_rep_ok p n : wf_pat p = true -> Forall rep_ok (fst (items1 p n)).
Proof.
  revert n. induction p as [c|ty c| |ps IH|k|b e] using pattern_ind'; intros n W;
    try (by repeat constructor).
  rewrite items1_cap. cbn [fst]. constructor; [done|]. apply Forall_app_2; [|by repeat constructor].
  cbn in W. generalize (S (S n)). induction IH as [|p ps Hp _ IHs]; intros m; cbn; [constructor|].
  cbn in W. apply andb_prop in W as [W1 W2]. specialize (Hp m W1). destruct (items1 p m) as [a n1].
  specialize (IHs W2 n1). destruct (items ps n1). by apply Forall_app_2.
Qed.

Lemma items_rep_ok ps n : forallb wf_pat ps = true -> Forall rep_ok (fst (items ps n)).
Proof.
  revert n. induction ps as [|p ps IH]; intros m W; cbn; [constructor|].
  cbn in W. apply andb_prop in W as [W1 W2]. pose proof (items1_rep_ok p m W1) as Hp.
  destruct (items1 p m) as [a n1]. specialize (IH n1 W2). destruct (items ps n1). by apply Forall_app_2.
Qed.

(** The code [compilePattern] emits, from its first instruction. *)
Lemma compilePattern_loc s : forallb wf_pat (Patterns s) = true ->
  loc (compilePattern s) (MustTail s) 0 (pattern_items s).
Proof.
  intros W. set (its := ISave 0 :: fst (items (Patterns s) 2)).
  assert (Forall compiles (Patterns s)) as Fc by (apply Forall_true; intros p; apply compile_items).
  destruct (compile_seq_items _ Fc W (mkIptr [mkInst opSave None 0 (-1)] 2) 2%nat eq_refl) as [E _].
  assert (exists post, compilePattern s =
    asm (its ++ [ISave 1]) 0 ++ mkInst (if MustTail s then opTailMatch else opMatch) None (-1) (-1) :: post) as [post EC].
  { unfold compilePattern. rewrite E, asm_app. cbn [insts length its asm asm1 app].
    destruct (MustTail s); cbn; eexists; rewrite <- ?app_assoc; reflexivity. }
  unfold pattern_items. change (ISave 0 :: ?a ++ ?b) with ((ISave 0 :: a) ++ b). fold its.
  rewrite <- (app_nil_r (its ++ [ISave 1])).
  apply (loc_asm _ _ (its ++ [ISave 1]) [] [] (mkInst (if MustTail s then opTailMatch else opMatch) None (-1) (-1) :: post)).
  - apply Forall_app_2; [|by repeat constructor]. constructor; [done|by apply items_rep_ok].
  - by rewrite EC.
  - apply loc_end. eapply lookup_code; [exact EC|done].
Qed.
