(* ===== verification/LuaPatProps.v ===== *)
(** * Properties of the pattern matcher

    The machine is bounded by its budget, a budget exists that covers every
    match, and [Find] returns what the search returns. *)
From Stdlib Require Import String.
From stdpp Require Import base list sets.
From Stdlib Require Import ZArith Lia.
From S2P Require Import Prelude PolicyLex LuaPat LuaPatRef LuaPatCode.
Open Scope Z_scope.

(** ** The machine is bounded by its budget *)

(** A pattern whose back references are all to captures closed before them. *)
Definition references_closed (s : seqPattern) : bool := scoped (pattern_items s) [] [].

(** A fresh match: nothing written, every slot of the pattern to come. *)
Lemma fresh_sim src s sp : (sp <= length src)%nat ->
  sim src (snd (items (Patterns s) 2)) (pattern_items s) [] [] [] sp [] [].
Proof.
  intros L. destruct (interval_cap 0 _ _ (items_interval (Patterns s) 2)) as (Ln & Nd & El).
  split; cbn [length]; try done; try (intros n Hn; by apply elem_of_nil in Hn); try lia.
  intros t. unfold pattern_items. rewrite El, elem_of_nil. lia.
Qed.

(** What a match left of its budget, from [b] before it. *)
Definition paid (b : Z) (x : vres) : Prop :=
  match x with
  | VDone _ _ _ r => 0 <= Budget r < b
  | VPanic errBudgetExhausted r => Budget r = -1
  | VPanic _ r => 0 <= Budget r < b
  | VFuel => False
  end.

Lemma spend_paid closed r r1 stop : spend closed r = (r1, stop) -> 0 <= Budget r ->
  Budget r1 = Budget r - 1 /\
  match stop with
  | Some errBudgetExhausted => Budget r1 = -1
  | Some p => 0 <= Budget r1
  | None => 0 <= Budget r1
  end.
Proof.
  unfold spend. intros E L. destruct (Z.ltb_spec (Budget r - 1) 0).
  - injection E as <- <-. cbn. lia.
  - destruct (0 <? _); injection E as <- <-; cbn; [lia|]. destruct (closed _); lia.
Qed.

Lemma paid_weaken b b' x : paid b x -> b <= b' -> paid b' x.
Proof. destruct x as [? ? ? r|[] r|]; cbn; try done; lia. Qed.

(** A call that may fail into more work: both are paid for. *)
Lemma paid_then b x (g : Run -> list Z -> vres) :
  paid b x -> (forall r m, 0 <= Budget r < b -> paid b (g r m)) ->
  paid b match x with VDone false _ m r => g r m | VDone true sp m r => VDone true sp m r
         | VPanic p r => VPanic p r | VFuel => VFuel end.
Proof. intros H G. destruct x as [[] sp m r|p r|]; cbn in *; auto. Qed.

Lemma vm_paid closed src spare code f pc sp lvl r m : 0 <= Budget r < Z.of_nat f ->
  paid (Budget r) (vm closed src spare code f pc sp lvl r m).
Proof.
  revert pc sp lvl r m. induction f as [|f IH]; intros pc sp lvl r m [L1 L2]; [lia|]. cbn [vm].
  destruct (spend closed r) as [r1 stop] eqn:Es. apply spend_paid in Es as [E P]; [|done].
  destruct stop as [p|]; [destruct p; cbn; lia|].
  assert (forall pc sp lvl r' m', 0 <= Budget r' < Budget r ->
    paid (Budget r) (vm closed src spare code f pc sp lvl r' m')) as Go.
  { intros pc' sp' lvl' r' m' B. eapply paid_weaken; [apply IH; lia|lia]. }
  assert (paid (Budget r) (VDone false sp m r1)) as Stop by (cbn; lia).
  assert (forall pc sp m', paid (Budget r)
    (if MaxDepth <? lvl + 1 then VPanic errTooDeep r1 else vm closed src spare code f pc sp (lvl + 1) r1 m')) as Call.
  { intros. destruct (MaxDepth <? lvl + 1); [cbn; lia|apply Go; lia]. }
  destruct (code !! pc) as [[op c o1 o2]|]; [|cbn; lia]. cbn [OpCode Class Operand1 Operand2].
  assert (0 <= Budget r1 < Budget r) as B1 by lia.
  destruct op; cbn -[vm paid setCapture]; try (cbn; lia).
  - destruct (src !! sp) as [ch|], c as [c|]; try done; [destruct (Matches c ch); auto|..].
  - by apply Go.
  - apply (paid_then _ _ (fun r' m' => vm closed src spare code f (Z.to_nat o2) sp lvl r' m')); auto.
  - destruct (setCapture m (Z.to_nat o1) sp) as [m1 v].
    apply (paid_then _ _ (fun r' m' => VDone false sp (restoreCapture m' (Z.to_nat o1) v) r')); auto.
  - by apply Go.
  - destruct (src !! sp); [|done]. destruct (z =? o1); [|done]. destruct (brace_scan _ _ _ _ _); auto.
  - destruct (_ <=? _); [cbn; lia|]. destruct (reslice _ _ _ _); [|cbn; lia]. destruct (has_prefix_at _ _ _); auto.
Qed.

Lemma recursiveVM_paid closed src spare code sp r : 0 <= Budget r ->
  paid (Budget r) (recursiveVM closed src spare code sp r).
Proof. intros L. apply vm_paid. lia. Qed.

(** ** A match that nothing interrupts is affordable *)

Section Afford.
Context (closed : nat -> bool) (src spare : bytes) (code : list inst) (tail : bool).
Hypothesis never : forall k, closed k = false.

(** The result of a run from budget [b] that needs at most [n] steps: no
    ceiling stopped it. *)
Definition afforded (n b : Z) (x : vres) : Prop :=
  match x with
  | VDone _ _ _ r => b - n <= Budget r <= b
  | VPanic (patternError _) _ | VPanic runtimeError _ => True
  | _ => False
  end.

Definition runs (n : Z) (pc sp : nat) (lvl : Z) (m : list Z) : Prop :=
  0 <= n /\ forall f r, n <= Budget r < Z.of_nat f ->
    afforded n (Budget r) (vm closed src spare code f pc sp lvl r m).

Lemma afforded_weaken n b n' b' x : afforded n b x -> b' - n' <= b - n -> b <= b' -> afforded n' b' x.
Proof. destruct x as [? ? ? r|[] r|]; cbn; try done; lia. Qed.

Lemma runs_weaken n n' pc sp lvl m : runs n pc sp lvl m -> n <= n' -> runs n' pc sp lvl m.
Proof.
  intros [H0 H] L. split; [lia|]. intros f r B. eapply afforded_weaken; [apply H; lia|lia|lia].
Qed.

Lemma spend_goes r : 0 < Budget r -> exists r1, spend closed r = (r1, None) /\ Budget r1 = Budget r - 1.
Proof.
  intros L. unfold spend. rewrite (proj2 (Z.ltb_ge _ _)) by lia. rewrite never. destruct (0 <? _); eauto.
Qed.

(** One step of the instruction [E] names, [n] steps left for what follows. *)
Ltac stepping n E :=
  split; [lia|]; intros [|f] r B; [lia|]; cbn [vm];
  let r1 := fresh "r1" in let Eb := fresh "Eb" in
  destruct (spend_goes r) as (r1 & -> & Eb); [lia|]; rewrite E;
  apply (afforded_weaken n (Budget r1)); [|lia|lia];
  cbn -[vm setCapture Z.to_nat]; rewrite ?Nat2Z.id.

Lemma runs_end pc sp lvl m :
  code !! pc = Some (mkInst (if tail then opTailMatch else opMatch) None (-1) (-1)) -> runs 1 pc sp lvl m.
Proof. intros E. stepping 0 E. destruct tail; cbn; lia. Qed.

Lemma runs_char n pc sp lvl m c : code !! pc = Some (mkInst opChar (Some c) (-1) (-1)) -> 0 <= n ->
  ((S sp <= length src)%nat -> runs n (S pc) (S sp) lvl m) -> runs (1 + n) pc sp lvl m.
Proof.
  intros E L H. stepping n E. destruct (src !! sp) eqn:Es; [|cbn; lia].
  destruct (Matches c z); [|cbn; lia]. apply H; [by eapply lookup_sp|lia].
Qed.

Lemma runs_jmp n pc sp lvl m idx : code !! pc = Some (mkInst opJmp None (Z.of_nat idx) (-1)) ->
  runs n idx sp lvl m -> runs (1 + n) pc sp lvl m.
Proof. intros E [L H]. stepping n E. apply H. lia. Qed.

Lemma runs_split n1 n2 pc sp lvl m i1 i2 :
  code !! pc = Some (mkInst opSplit None (Z.of_nat i1) (Z.of_nat i2)) -> lvl + 1 <= MaxDepth ->
  runs n1 i1 sp (lvl + 1) m -> (forall m', runs n2 i2 sp lvl m') -> runs (1 + (n1 + n2)) pc sp lvl m.
Proof.
  intros E D [L1 H1] H2. destruct (H2 m) as [L2 _]. stepping (n1 + n2) E.
  rewrite (proj2 (Z.ltb_ge _ _)) by lia. specialize (H1 f r1 ltac:(lia)).
  destruct (vm closed src spare code f i1 _ _ _ _) as [[] nsp m' r'|[] r'|]; cbn in *; try done; [lia|].
  eapply afforded_weaken; [apply (H2 m'); lia|lia|lia].
Qed.

Lemma runs_save n pc sp lvl m s : code !! pc = Some (mkInst opSave None (Z.of_nat s) (-1)) ->
  lvl + 1 <= MaxDepth -> (forall m', runs n (S pc) sp (lvl + 1) m') -> runs (1 + n) pc sp lvl m.
Proof.
  intros E D H. destruct (H m) as [L _]. stepping n E. destruct (setCapture m s sp) as [m1 v].
  rewrite (proj2 (Z.ltb_ge _ _)) by lia. destruct (H m1) as [_ H1]. specialize (H1 f r1 ltac:(lia)).
  destruct (vm closed src spare code f _ _ _ _ _) as [[] nsp m' r'|[] r'|]; cbn in *; done.
Qed.

Lemma runs_pos n pc sp lvl m s : code !! pc = Some (mkInst opPSave None (Z.of_nat s) (-1)) ->
  (forall m', runs n (S pc) sp lvl m') -> runs (1 + n) pc sp lvl m.
Proof. intros E H. destruct (H m) as [L _]. stepping n E. apply H. lia. Qed.

(** A balanced pair and a back reference move forward within the subject. *)
Lemma runs_brace n pc sp lvl m b e : code !! pc = Some (mkInst opBrace None b e) -> 0 <= n ->
  (forall sp', (sp <= sp' <= length src)%nat -> runs n (S pc) sp' lvl m) -> runs (1 + n) pc sp lvl m.
Proof.
  intros E L H. stepping n E. destruct (src !! sp) as [ch|] eqn:Es; [|cbn; lia].
  destruct (ch =? b); [|cbn; lia]. destruct (brace_scan _ _ _ _ _) as [sp'|] eqn:Esc; [|cbn; lia].
  apply H; [|lia]. apply brace_scan_bounds in Esc. rewrite length_drop in Esc. apply lookup_sp in Es. lia.
Qed.

Lemma runs_number n pc sp lvl m k : code !! pc = Some (mkInst opNumber None (Z.of_nat k) (-1)) -> 0 <= n ->
  (sp <= length src)%nat ->
  (forall sp', (sp <= sp' <= length src)%nat -> runs n (S pc) sp' lvl m) -> runs (1 + n) pc sp lvl m.
Proof.
  intros E L Ls H. stepping n E. destruct (_ <=? _); [done|]. destruct (reslice _ _ _ _) as [c|]; [|done].
  destruct (has_prefix_at src c sp) eqn:Ep; [|cbn; lia]. apply H; [|lia].
  unfold has_prefix_at in Ep. destruct (strip_prefix _ _) eqn:Esp; [|done].
  apply strip_prefix_length in Esp. rewrite length_drop in Esp. lia.
Qed.

(** Depth a pattern's items may still take: a call each, two for a star. *)
Fixpoint weight (its : list item) : Z :=
  match its with
  | [] => 0
  | IRep ty _ :: k => (if ty =? 42 then 2 else 1) + weight k
  | _ :: k => 1 + weight k
  end.

Lemma weight_nonneg its : 0 <= weight its.
Proof. induction its as [|[] its IH]; cbn; try destruct (_ =? 42); lia. Qed.

Definition roomy (its : list item) (sp : nat) (lvl : Z) : Prop :=
  (sp <= length src)%nat /\ lvl + weight its + Z.of_nat (length src - sp) <= MaxDepth.

Definition affords (n : Z) (pc : nat) (its : list item) : Prop :=
  forall sp lvl m, roomy its sp lvl -> runs n pc sp lvl m.

Lemma affords_nonneg n pc its : affords n pc its -> 0 <= n.
Proof.
  intros H. destruct (H (length src) (- weight its) []) as [L _]; [|done]. split; [lia|].
  unfold MaxDepth. lia.
Qed.

(** A loop that consumes a byte each time round: the exit costs [n], a round
    three steps more. *)
Definition rounds_cost (n : Z) (sp : nat) : Z := Z.of_nat (S (length src - sp)) * (3 + n).

Lemma rounds_cost_pos n sp : 0 <= n -> 3 + n <= rounds_cost n sp.
Proof. unfold rounds_cost. nia. Qed.

Lemma rounds_cost_S n sp : (S sp <= length src)%nat -> rounds_cost n (S sp) + (3 + n) = rounds_cost n sp.
Proof. unfold rounds_cost. intros L. replace (length src - sp)%nat with (S (length src - S sp)) by lia. lia. Qed.

(** Induction on the bytes left. *)
Lemma bytes_left (Q : nat -> Prop) :
  (forall sp, (sp <= length src)%nat -> ((S sp <= length src)%nat -> Q (S sp)) -> Q sp) ->
  forall sp, (sp <= length src)%nat -> Q sp.
Proof.
  intros H sp L. remember (length src - sp)%nat as n eqn:E. revert sp L E.
  induction n as [|n IH]; intros sp L E; apply H; try done; intros L'; [lia|]. apply IH; lia.
Qed.

Lemma rounds_cost_le n sp : 0 <= n -> rounds_cost n sp <= rounds_cost n 0.
Proof. unfold rounds_cost. intros L. nia. Qed.

(** A round's character and what the loop costs after it, when a byte is left. *)
Lemma runs_round n pc sp lvl m c x : code !! pc = Some (mkInst opChar (Some c) (-1) (-1)) -> 0 <= n -> 0 <= x ->
  (sp <= length src)%nat ->
  ((S sp <= length src)%nat -> runs (x + rounds_cost n (S sp)) (S pc) (S sp) lvl m) ->
  runs (1 + x + rounds_cost n sp - (3 + n)) pc sp lvl m.
Proof.
  intros E L Lx Ls H. destruct (decide (S sp <= length src)%nat) as [G|G].
  - eapply runs_weaken; [apply (runs_char (x + rounds_cost n (S sp)) _ _ _ _ _ E)|].
    + pose proof (rounds_cost_pos n (S sp)). lia.
    + exact H.
    + pose proof (rounds_cost_S n sp G). lia.
  - eapply runs_weaken; [by apply (runs_char 0 _ _ _ _ _ E)|]. pose proof (rounds_cost_pos n sp L). lia.
Qed.

Lemma affords_loop n pc its : 0 <= n ->
  (forall sp, (sp <= length src)%nat -> forall lvl m, roomy its sp lvl -> runs (rounds_cost n sp) pc sp lvl m) ->
  affords (rounds_cost n 0) pc its.
Proof.
  intros L H sp lvl m R. eapply runs_weaken; [apply H; [apply R|exact R]|by apply rounds_cost_le].
Qed.

Lemma affords_star n pc c k :
  code !! pc = Some (mkInst opSplit None (Z.of_nat (S pc)) (Z.of_nat (3 + pc))) ->
  code !! S pc = Some (mkInst opChar (Some c) (-1) (-1)) ->
  code !! S (S pc) = Some (mkInst opJmp None (Z.of_nat pc) (-1)) ->
  affords n (3 + pc) k -> affords (rounds_cost n 0) pc (IRep 42 c :: k).
Proof.
  intros E E1 E2 K. pose proof (affords_nonneg _ _ _ K) as L. apply affords_loop; [done|].
  refine (bytes_left _ _). intros sp Ls IH lvl m [_ R]. cbn in R. pose proof (weight_nonneg k).
  eapply runs_weaken; [eapply (runs_split _ n _ _ _ _ _ _ E)|].
  - lia.
  - eapply (runs_round n _ _ _ _ _ 1 E1); [done|lia|done|]. intros G. eapply (runs_jmp _ _ _ _ _ _ E2).
    apply IH; [done|]. split; [done|]. cbn. lia.
  - intros m'. apply K. split; [done|]. lia.
  - lia.
Qed.

Lemma affords_lazy n pc c k :
  code !! pc = Some (mkInst opSplit None (Z.of_nat (3 + pc)) (Z.of_nat (S pc))) ->
  code !! S pc = Some (mkInst opChar (Some c) (-1) (-1)) ->
  code !! S (S pc) = Some (mkInst opJmp None (Z.of_nat pc) (-1)) ->
  affords n (3 + pc) k -> affords (rounds_cost n 0) pc (IRep 45 c :: k).
Proof.
  intros E E1 E2 K. pose proof (affords_nonneg _ _ _ K) as L. apply affords_loop; [done|].
  refine (bytes_left _ _). intros sp Ls IH lvl m [_ R]. cbn in R. pose proof (weight_nonneg k).
  eapply runs_weaken; [eapply (runs_split n _ _ _ _ _ _ _ E)|].
  - lia.
  - apply K. split; [done|]. lia.
  - intros m'. eapply (runs_round n _ _ _ _ _ 1 E1); [done|lia|done|]. intros G.
    eapply (runs_jmp _ _ _ _ _ _ E2). apply IH; [done|]. split; [done|]. cbn. lia.
  - lia.
Qed.

Lemma affords_plus n pc c k :
  code !! pc = Some (mkInst opChar (Some c) (-1) (-1)) ->
  code !! S pc = Some (mkInst opSplit None (Z.of_nat pc) (Z.of_nat (2 + pc))) ->
  affords n (2 + pc) k -> affords (rounds_cost n 0) pc (IRep 43 c :: k).
Proof.
  intros E E1 K. pose proof (affords_nonneg _ _ _ K) as L. apply affords_loop; [done|].
  refine (bytes_left _ _). intros sp Ls IH lvl m [_ R]. cbn in R. pose proof (weight_nonneg k).
  eapply runs_weaken; [eapply (runs_round n _ _ _ _ _ (1 + n) E); [done|lia|done|]|lia]. intros G.
  eapply runs_weaken; [eapply (runs_split _ n _ _ _ _ _ _ E1)|].
  - lia.
  - apply IH; [done|]. split; [done|]. cbn. lia.
  - intros m'. apply K. split; [done|]. lia.
  - lia.
Qed.

(** Every place in the code is affordable. *)
Lemma loc_affords pc its : loc code tail pc its -> exists n, affords n pc its.
Proof.
  induction 1 as [pc E|pc c k E _ [n K]|pc c k E E1 E2 _ [n K]|pc c k E E1 E2 _ [n K]|pc c k E E1 _ [n K]
    |pc c k E E1 _ [n K]|pc s k E _ [n K]|pc s k E _ [n K]|pc b e k E _ [n K]|pc j k E _ [n K]
    |pc idx its E _ [n K]|pc idx c k E _ [n1 K1] _ [n K]]; try pose proof (affords_nonneg _ _ _ K) as L;
    try pose proof (weight_nonneg k).
  - exists 1. intros sp lvl m _. by apply runs_end.
  - exists (1 + n). intros sp lvl m [Ls R]. cbn in R. eapply (runs_char n _ _ _ _ _ E); [done|].
    intros G. apply K. split; [done|]. lia.
  - eexists. by eapply affords_star.
  - eexists. by eapply affords_lazy.
  - eexists. by eapply affords_plus.
  - exists (1 + ((1 + n) + n)). intros sp lvl m [Ls R]. cbn in R. eapply (runs_split _ _ _ _ _ _ _ _ E); [lia| |].
    + eapply (runs_char n _ _ _ _ _ E1); [done|]. intros G. apply K. split; [done|]. lia.
    + intros m'. apply K. split; [done|]. lia.
  - exists (1 + n). intros sp lvl m [Ls R]. cbn in R. eapply (runs_save _ _ _ _ _ _ E); [lia|].
    intros m'. apply K. split; [done|]. lia.
  - exists (1 + n). intros sp lvl m [Ls R]. cbn in R. eapply (runs_pos _ _ _ _ _ _ E).
    intros m'. apply K. split; [done|]. lia.
  - exists (1 + n). intros sp lvl m [Ls R]. cbn in R. eapply (runs_brace _ _ _ _ _ _ _ E); [done|].
    intros sp' G. apply K. split; [lia|]. lia.
  - exists (1 + n). intros sp lvl m [Ls R]. cbn in R. eapply (runs_number _ _ _ _ _ _ E); [done|done|].
    intros sp' G. apply K. split; [lia|]. lia.
  - exists (1 + n). intros sp lvl m R. eapply (runs_jmp _ _ _ _ _ _ E). by apply K.
  - exists (1 + (n1 + n)). intros sp lvl m [Ls R]. cbn in R. eapply (runs_split _ _ _ _ _ _ _ _ E); [lia| |].
    + apply K1. split; [done|]. cbn. lia.
    + intros m'. apply K. split; [done|]. lia.
Qed.
End Afford.

(** ** Find *)

Section Occurrences.
Context (src : bytes) (s : seqPattern).

(** The first way the pattern matches at [sp]. *)
Definition attempt (sp : nat) : option (nat * list Z) := search src (MustTail s) (pattern_items s) sp [].

(** The matches from [sp] on, left to right and not overlapping; no more than
    [left] when that is positive; only at [sp] for an anchored pattern. [n]
    bounds the positions tried. *)
Fixpoint occurrences (n : nat) (sp : nat) (left : Z) : list (list Z) :=
  if bool_decide (length src < sp)%nat then []
  else
    match n with
    | O => []
    | S n' =>
        match attempt sp with
        | Some (nsp, caps) =>
            caps :: (if (left - 1 =? 0) || MustHead s then [] else occurrences n' (Nat.max (S sp) nsp) (left - 1))
        | None => if (left =? 0) || MustHead s then [] else occurrences n' (S sp) left
        end
    end.
End Occurrences.

Lemma Z_eqb_iff a b c d : (a = b <-> c = d) -> (a =? b) = (c =? d).
Proof. intros H. destruct (Z.eqb_spec a b), (Z.eqb_spec c d); tauto. Qed.

Section FindLoop.
Context (closed : nat -> bool) (src spare : bytes).

(** How the loop ends: what it left of the budget, and what it found. *)
Definition settled (ms : list (list Z)) (r : Run) (x : fres) : Prop :=
  match x with
  | FReturn ms' None r' | FReturn ms' (Some (ErrPattern _)) r' =>
      0 <= Budget r' /\
      Budget r' + MatchCost * Z.of_nat (length ms') <= Budget r + MatchCost * Z.of_nat (length ms)
  | FReturn ms' (Some ErrBudget) r' => ms' = [] /\ - MatchCost <= Budget r' < 0
  | FReturn ms' (Some _) r' => ms' = [] /\ 0 <= Budget r'
  | FPanic r' => 0 <= Budget r'
  | FFuel => False
  end.

Lemma settled_weaken ms ms1 r r1 x :
  Budget r1 + MatchCost * Z.of_nat (length ms1) <= Budget r + MatchCost * Z.of_nat (length ms) ->
  settled ms1 r1 x -> settled ms r x.
Proof. intros L. destruct x as [ms' [[]|] r'| |]; cbn; try done; lia. Qed.

Lemma find_loop_settled code head f sp limit ms r : 0 <= Budget r -> (length src < sp + f)%nat ->
  settled ms r (find_loop closed src spare f code head sp limit ms r).
Proof.
  revert sp ms r. induction f as [|f IH]; intros sp ms r L Lf; cbn [find_loop].
  { rewrite bool_decide_true by lia. cbn. lia. }
  destruct (bool_decide (length src < sp)%nat); [cbn; lia|].
  pose proof (recursiveVM_paid closed src spare code sp r L) as P.
  destruct (recursiveVM closed src spare code sp r) as [ok nsp m r1|p r1|]; [|destruct p; cbn in *; unfold MatchCost; try split; try done; lia|done].
  cbn in P. assert (forall ms1 sp1 r1, 0 <= Budget r1 -> (sp < sp1)%nat ->
    Budget r1 + MatchCost * Z.of_nat (length ms1) <= Budget r + MatchCost * Z.of_nat (length ms) ->
    settled ms r (if (Z.of_nat (length ms1) =? limit) || head then FReturn ms1 None r1
      else find_loop closed src spare f code head sp1 limit ms1 r1)) as Go.
  { intros ms1 sp1 r2 L2 Ls Le. destruct (_ || _); [by cbn|].
    eapply settled_weaken; [exact Le|apply IH; [done|lia]]. }
  destruct ok; [|apply Go; lia]. destruct (Z.ltb_spec (Budget (mkRun (Budget r1 - MatchCost) (next r1) (polls r1))) 0) as [Lt|Ge]; cbn in *; [unfold MatchCost in *; split; [done|]; lia|].
  apply Go; [done|case_bool_decide; lia|]. rewrite length_app. cbn. lia.
Qed.

Section Pattern.
Context (s : seqPattern).
Hypothesis short : Z.of_nat (length src) < two31.
Hypothesis wf : forallb wf_pat (Patterns s) = true.
Hypothesis scoping : references_closed s = true.

Lemma attempt_computes sp r : (sp <= length src)%nat ->
  computes src (MustTail s) (snd (items (Patterns s) 2)) (pattern_items s) sp [] []
    (recursiveVM closed src spare (compilePattern s) sp r).
Proof.
  intros L. apply (vm_computing closed src spare _ (MustTail s) _ short _ _ _ _ _ _ _ [] [] []);
    [by apply compilePattern_loc|exact scoping|by apply fresh_sim].
Qed.

(** Whatever stops it, the loop has found the occurrences. *)
Definition answers (n sp : nat) (limit : Z) (ms : list (list Z)) (x : fres) : Prop :=
  match x with
  | FReturn ms' None _ => ms' = ms ++ occurrences src s n sp (limit - Z.of_nat (length ms))
  | FReturn ms' (Some e) _ => ms' = [] /\ (e = ErrBudget \/ e = ErrDepth \/ e = Canceled)
  | FPanic _ => False
  | FFuel => True
  end.

Lemma find_loop_answers f sp limit ms r :
  answers f sp limit ms (find_loop closed src spare f (compilePattern s) (MustHead s) sp limit ms r).
Proof.
  revert sp ms r. induction f as [|f IH]; intros sp ms r; cbn [find_loop].
  { case_bool_decide; cbn; [|done]. rewrite bool_decide_true by lia. by rewrite app_nil_r. }
  case_bool_decide as Ls; [cbn; rewrite bool_decide_true by lia; by rewrite app_nil_r|].
  pose proof (attempt_computes sp r ltac:(lia)) as P.
  destruct (recursiveVM closed src spare _ sp r) as [ok nsp m r1|p r1|]; [|cbn in P; destruct P as [->|[->| ->]]; cbn; auto|done].
  assert (forall ms1 sp1 r1,
    (if (Z.of_nat (length ms1) =? limit) || MustHead s then ms1
     else ms1 ++ occurrences src s f sp1 (limit - Z.of_nat (length ms1))) =
      ms ++ occurrences src s (S f) sp (limit - Z.of_nat (length ms)) ->
    answers (S f) sp limit ms (if (Z.of_nat (length ms1) =? limit) || MustHead s then FReturn ms1 None r1
      else find_loop closed src spare f (compilePattern s) (MustHead s) sp1 limit ms1 r1)) as Go.
  { intros ms1 sp1 r2 E. destruct (_ || _); [exact E|]. specialize (IH sp1 ms1 r2).
    destruct (find_loop closed src spare f _ _ sp1 limit ms1 r2) as [ms' [e|] r'| |]; cbn -[occurrences] in *; try done.
    by rewrite IH. }
  destruct ok; cbn [computes] in P.
  - destruct (_ <? 0); [cbn; auto|]. apply Go. cbn [occurrences]. rewrite (bool_decide_false (length src < sp)%nat) by done.
    unfold attempt. rewrite P, length_app. cbn [length]. rewrite Nat2Z.inj_add.
    replace (limit - Z.of_nat (length ms) - 1 =? 0) with (Z.of_nat (length ms) + Z.of_nat 1 =? limit)
      by (apply Z_eqb_iff; lia).
    replace (if bool_decide (S sp < nsp)%nat then nsp else S sp) with (Nat.max (S sp) nsp) by (case_bool_decide; lia).
    destruct (_ || _); [done|]. rewrite <- app_assoc. cbn [app]. do 3 f_equal. lia.
  - destruct P as [P _]. apply Go. cbn [occurrences]. rewrite (bool_decide_false (length src < sp)%nat) by done. unfold attempt. rewrite P.
    replace (limit - Z.of_nat (length ms) =? 0) with (Z.of_nat (length ms) =? limit)
      by (apply Z_eqb_iff; lia).
    destruct (_ || _); [by rewrite app_nil_r|done].
Qed.
End Pattern.
End FindLoop.

(** ** What the matcher promises *)

(** The whole of [Find]. *)
Lemma Find_occurrences closed src spare p offset limit r s sc :
  parsePattern p = POk s sc -> references_closed s = true -> Z.of_nat (length src) < two31 ->
  match Find closed src spare p offset limit r with
  | FReturn ms None _ => ms = occurrences src s (S (length src)) offset limit
  | FReturn ms (Some e) _ => ms = [] /\ (e = ErrBudget \/ e = ErrDepth \/ e = Canceled)
  | FPanic _ | FFuel => False
  end.
Proof.
  intros E Sc Sh. pose proof (parsePattern_reads p) as W. unfold Find. rewrite E in *. cbn [Budget next polls].
  destruct (Z.ltb_spec (Budget r - Z.of_nat (length p)) 0); [auto|].
  set (r1 := mkRun _ _ _).
  pose proof (find_loop_answers closed src spare s Sh W Sc (S (length src)) offset limit [] r1) as A.
  pose proof (find_loop_settled closed src spare (compilePattern s) (MustHead s) (S (length src)) offset limit [] r1
    ltac:(cbn; lia) ltac:(lia)) as B.
  destruct (find_loop _ _ _ _ _ _ _ _ _ _) as [ms [e|] r'|r'|]; cbn -[occurrences] in *; try done.
  by rewrite Z.sub_0_r in A.
Qed.

(** C16. Find computes the search: for a subject under 2^31 bytes and a pattern
    whose back references are to captures closed before them, from any offset,
    with any limit, budget and cancellation, [Find] either returns exactly the
    leftmost, non-overlapping matches that a backtracking search over the parsed
    pattern finds, captures included, or no match at all and one of the three
    ceilings as the error. It never reports a pattern error then, and never
    panics. *)
Theorem find_is_search closed src spare p offset limit r s sc :
  parsePattern p = POk s sc -> references_closed s = true -> Z.of_nat (length src) < two31 ->
  match Find closed src spare p offset limit r with
  | FReturn ms None _ => ms = occurrences src s (S (length src)) offset limit
  | FReturn ms (Some e) _ => ms = [] /\ (e = ErrBudget \/ e = ErrDepth \/ e = Canceled)
  | FPanic _ | FFuel => False
  end.
Proof. apply Find_occurrences. Qed.

(** A run of a, a b, and the same run again; and the scanner its parser leaves. *)
Definition sample_text : bytes := bs "(a*)b%1".
Definition sample_pattern : seqPattern :=
  mkSeq false false [capPattern [repeatPattern 42 (charClass 97)]; singlePattern (charClass 98); numberPattern 1].
Definition sample_scanner : scanner := mkScanner sample_text (mkSt (-1) true) (mkSt 4 true).

Lemma sample_parses : parsePattern sample_text = POk sample_pattern sample_scanner.
Proof. vm_compute. reflexivity. Qed.

Lemma find_is_search_witness :
  Find (fun _ => false) (bs "xaabaa=aab") [] sample_text 0 (-1) (mkRun 2000 0 0) =
    FReturn [[2; 12; 2; 6]; [18; 20; 18; 18]] None (mkRun 1890 953 0) /\
  occurrences (bs "xaabaa=aab") sample_pattern 11 0 (-1) = [[2; 12; 2; 6]; [18; 20; 18; 18]].
Proof.
  pose proof (find_is_search (fun _ => false) (bs "xaabaa=aab") [] sample_text 0 (-1) (mkRun 2000 0 0) _ _
    sample_parses ltac:(vm_compute; reflexivity) ltac:(vm_compute; reflexivity)) as H.
  split; [vm_compute; reflexivity|]. vm_compute in H. vm_compute. symmetry. exact H.
Defined.

(** C37. A match ends within its budget: on every pattern and subject [Find]
    ends. When it returns matches they are paid for: what is left of the budget,
    one step for every byte of the pattern and sixteen for every match it
    returns come to no more than the budget it was given, and nothing is left
    negative. When the budget runs out no match is returned, and the budget is
    negative by at most sixteen or the length of the pattern, not by one step. *)
Theorem find_ends_within_budget closed src spare p offset limit r : 0 <= Budget r ->
  match Find closed src spare p offset limit r with
  | FReturn ms (Some ErrBudget) r' => ms = [] /\ - Z.max MatchCost (Z.of_nat (length p)) <= Budget r' < 0
  | FReturn ms (Some ErrDepth) r' | FReturn ms (Some Canceled) r' => ms = [] /\ 0 <= Budget r'
  | FReturn ms _ r' =>
      0 <= Budget r' /\ Budget r' + Z.of_nat (length p) + MatchCost * Z.of_nat (length ms) <= Budget r
  | FPanic r' => 0 <= Budget r'
  | FFuel => False
  end.
Proof.
  intros L. pose proof (parsePattern_reads p) as W. unfold Find. cbn [Budget next polls].
  destruct (Z.ltb_spec (Budget r - Z.of_nat (length p)) 0); [cbn; split; [done|lia]|].
  destruct (parsePattern p) as [s sc|e|]; [|cbn; lia|done]. set (r1 := mkRun _ _ _).
  pose proof (find_loop_settled closed src spare (compilePattern s) (MustHead s) (S (length src)) offset limit [] r1
    ltac:(cbn; lia) ltac:(lia)) as B.
  destruct (find_loop _ _ _ _ _ _ _ _ _ _) as [ms [[]|] r'|r'|]; cbn in *; try done;
    try (destruct B as [-> B]; split; [done|]); lia.
Qed.

(** The loop with a budget that every attempt can be paid from. *)
Lemma find_loop_affords closed src spare s n f sp limit ms r :
  (forall k, closed k = false) -> affords closed src spare (compilePattern s) n 0 (pattern_items s) ->
  1 + weight (pattern_items s) + Z.of_nat (length src) <= MaxDepth ->
  Z.of_nat f * (n + MatchCost) <= Budget r ->
  match find_loop closed src spare f (compilePattern s) (MustHead s) sp limit ms r with
  | FReturn _ (Some ErrBudget) _ | FReturn _ (Some ErrDepth) _ | FReturn _ (Some Canceled) _ => False
  | _ => True
  end.
Proof.
  intros Nv A D. pose proof (affords_nonneg _ _ _ _ _ _ _ A) as L. revert sp ms r.
  induction f as [|f IH]; intros sp ms r B; cbn [find_loop]; [by case_bool_decide|].
  case_bool_decide as Ls; [done|]. unfold recursiveVM.
  destruct (A sp 1 []) as [_ H]; [split; lia|]. specialize (H (S (Z.to_nat (Budget r))) r). unfold MatchCost in *.
  specialize (H ltac:(lia)).
  destruct (vm _ _ _ _ _ _ _ _ _ _) as [ok nsp m r1|[] r1|]; cbn in H; try done.
  assert (forall ms1 sp1 r1, Z.of_nat f * (n + 16) <= Budget r1 ->
    match (if (Z.of_nat (length ms1) =? limit) || MustHead s then FReturn ms1 None r1
           else find_loop closed src spare f (compilePattern s) (MustHead s) sp1 limit ms1 r1) with
    | FReturn _ (Some ErrBudget) _ | FReturn _ (Some ErrDepth) _ | FReturn _ (Some Canceled) _ => False
    | _ => True
    end) as Go.
  { intros ms1 sp1 r2 B2. destruct (_ || _); [done|]. by apply IH. }
  destruct ok; [|apply Go; lia].
  rewrite (proj2 (Z.ltb_ge _ _)) by (cbn; lia). apply Go. cbn. lia.
Qed.

(** Enough budget is enough: when nothing cancels it, and the subject is
    short enough for the depth ceiling (its bytes, a frame for every item of the
    pattern and two for every star come to less than 10000), there is a budget
    from which on [Find] always answers, and with every match of the search. *)
Theorem find_answers src spare p offset limit s sc :
  parsePattern p = POk s sc -> references_closed s = true ->
  1 + weight (pattern_items s) + Z.of_nat (length src) <= MaxDepth ->
  exists enough, forall r, enough <= Budget r ->
  exists r', Find (fun _ => false) src spare p offset limit r =
             FReturn (occurrences src s (S (length src)) offset limit) None r'.
Proof.
  intros E Sc D. pose proof (parsePattern_reads p) as W. rewrite E in W.
  pose proof (compilePattern_loc s W) as Lc.
  destruct (loc_affords (fun _ => false) src spare _ _ (fun _ => eq_refl) _ _ Lc) as [n A].
  exists (Z.of_nat (length p) + Z.of_nat (S (length src)) * (n + MatchCost)). intros r B.
  pose proof (affords_nonneg _ _ _ _ _ _ _ A) as L. pose proof (weight_nonneg (pattern_items s)).
  assert (Z.of_nat (length src) < two31) as Sh by (unfold MaxDepth in D; widths; lia).
  pose proof (Find_occurrences (fun _ => false) src spare p offset limit r s sc E Sc Sh) as F.
  unfold Find in *. rewrite E in *. cbn [Budget next polls] in *. unfold MatchCost in *.
  rewrite (proj2 (Z.ltb_ge _ _)) in * by lia.
  pose proof (find_loop_affords (fun _ => false) src spare s n (S (length src)) offset limit []
    (mkRun (Budget r - Z.of_nat (length p)) (if next r <=? 0 then ctxCheckSteps else next r) (polls r))
    (fun _ => eq_refl) A D ltac:(cbn [Budget]; unfold MatchCost; lia)) as G.
  destruct (find_loop _ _ _ _ _ _ _ _ _ _) as [ms [e|] r'|r'|]; try done.
  - destruct F as [-> [->|[->| ->]]]; done.
  - rewrite F. by exists r'.
Qed.

Lemma find_ends_within_budget_witness :
  0 <= 7 /\ Find (fun _ => false) (bs "ab") [] (bs "ab") 0 (-1) (mkRun 7 0 0) =
    FReturn [] (Some ErrBudget) (mkRun (-16) 1019 0) /\ - Z.max MatchCost 2 <= -16 < 0.
Proof.
  pose proof (find_ends_within_budget (fun _ => false) (bs "ab") [] (bs "ab") 0 (-1) (mkRun 7 0 0)
    ltac:(cbn; lia)) as H.
  split; [lia|]. split; [vm_compute; reflexivity|]. vm_compute in H |- *. apply H.
Defined.

Lemma find_answers_witness :
  1 + weight (pattern_items sample_pattern) + 10 <= MaxDepth /\
  exists enough, forall r, enough <= Budget r ->
  exists r', Find (fun _ => false) (bs "xaabaa=aab") [] sample_text 0 (-1) r =
             FReturn [[2; 12; 2; 6]; [18; 20; 18; 18]] None r'.
Proof.
  split; [vm_compute; discriminate|].
  exact (find_answers (bs "xaabaa=aab") [] sample_text 0 (-1) _ _ sample_parses
    ltac:(vm_compute; reflexivity) ltac:(vm_compute; discriminate)).
Defined.

(** A back reference to a capture that is still open panics: the pattern
    [(()%1)] is accepted, but its reference reads the open capture's end before
    it is written, so on the subject [ab] the machine slices from 1 to 0. The
    panic is not one of those [Find] recovers, and leaves it. The pattern is
    outside the scoping [find_is_search] asks for. *)
Theorem open_reference_panics :
  (exists s sc, parsePattern (bs "(()%1)") = POk s sc /\ references_closed s = false) /\
  Find (fun _ => false) (bs "ab") [] (bs "(()%1)") 0 (-1) (mkRun 2000 0 0) = FPanic (mkRun 1967 1013 0).
Proof. split; [|vm_compute; reflexivity]. eexists _, _. split; vm_compute; reflexivity. Qed.
