(* ===== verification/PriceCatalog.v ===== *)
(** * Price rules and how one is chosen ([internal/pricing/types.go],
    [catalog.go], [match.go])

    The compiled form of a price catalogue: components, rate sets, tiers, rules,
    the index of rules per class, and the choice of the most specific rule for a
    request. The index is shown equivalent to a scan of the whole catalogue.

    The counter of examined rules and the trace of the preview endpoint are
    diagnostics and are left out. A [time.Location] is what the code uses of it:
    the wall clock of an instant, and the instant of a wall clock. *)
From Stdlib Require Import String.
From stdpp Require Import base gmap list sorting.
From Stdlib Require Import ZArith Lia.
From S2P Require Import Prelude U128 Decimal GoTime F64.
Open Scope Z_scope.

(** ** Vocabulary *)

Inductive Class : Type := ClassMarginal | ClassSubscription | ClassAdjustment | ClassNotional.
#[global] Instance Class_eq_dec : EqDecision Class. Proof. solve_decision. Defined.

Inductive Level : Type :=
| LevelDefault | LevelProvider | LevelModelPrefix | LevelModel | LevelProviderModel
| LevelDeployment | LevelCredential.
#[global] Instance Level_eq_dec : EqDecision Level. Proof. solve_decision. Defined.

(** The value of the [Level] constant. *)
Definition level_rank (l : Level) : Z :=
  match l with
  | LevelDefault => 0 | LevelProvider => 1 | LevelModelPrefix => 2 | LevelModel => 3
  | LevelProviderModel => 4 | LevelDeployment => 5 | LevelCredential => 6
  end.

Inductive Unit : Type :=
| UnitPerMillionTokens | UnitPerRequest | UnitPerThousandCharacters | UnitPerComputeSecond
| UnitPerAudioSecond | UnitSubscription | UnitNone.
#[global] Instance Unit_eq_dec : EqDecision Unit. Proof. solve_decision. Defined.

Inductive BilledUnit : Type := BilledUnstated | BilledTokens | BilledDuration.
Inductive Period : Type := PeriodMonthly | PeriodDaily | PeriodWeekly | PeriodYearly.
Inductive TierMode : Type := TierThreshold | TierGraduated.
Inductive AdjOp : Type := AdjPercent | AdjMultiply | AdjAdd.
Inductive AdjBase : Type := BaseTotal | BaseMarginal | BaseSubscription.

(** Component indices, in order. *)
Inductive component : Type :=
| cInput | cOutput | cCacheRead | cCacheWrite | cReasoning | cRequest | cCharacters
| cComputeSeconds | cAudioSeconds | cWebSearches | cImageInput | cImageOutput | cReportedCost.
#[global] Instance component_eq_dec : EqDecision component. Proof. solve_decision. Defined.

Definition components : list component :=
  [cInput; cOutput; cCacheRead; cCacheWrite; cReasoning; cRequest; cCharacters;
   cComputeSeconds; cAudioSeconds; cWebSearches; cImageInput; cImageOutput; cReportedCost].

Definition microsPerSecond : Z := 1000000.
Definition nanosPerUnit : Z := 1000000000.
Definition reportedRateMaxFraction : Z := 9.

(** [componentInfo]: the name (which is also the key in the catalogue), the
    unit, how many quanta one rate covers, and the scale of the quantity. *)
Record info : Type := mkInfo { iname : bytes; iunit : Unit; divisor : Z; iscale : Z }.
Definition componentInfo (i : component) : info :=
  match i with
  | cInput => mkInfo (bytes_of_string "input") UnitPerMillionTokens 1000000 0
  | cOutput => mkInfo (bytes_of_string "output") UnitPerMillionTokens 1000000 0
  | cCacheRead => mkInfo (bytes_of_string "cache_read") UnitPerMillionTokens 1000000 0
  | cCacheWrite => mkInfo (bytes_of_string "cache_write") UnitPerMillionTokens 1000000 0
  | cReasoning => mkInfo (bytes_of_string "reasoning") UnitPerMillionTokens 1000000 0
  | cRequest => mkInfo (bytes_of_string "request") UnitPerRequest 1 0
  | cCharacters => mkInfo (bytes_of_string "characters") UnitPerThousandCharacters 1000 0
  | cWebSearches => mkInfo (bytes_of_string "web_searches") UnitPerRequest 1 0
  | cImageInput => mkInfo (bytes_of_string "image_input") UnitPerMillionTokens 1000000 0
  | cImageOutput => mkInfo (bytes_of_string "image_output") UnitPerMillionTokens 1000000 0
  | cComputeSeconds => mkInfo (bytes_of_string "compute_seconds") UnitPerComputeSecond microsPerSecond 6
  | cAudioSeconds => mkInfo (bytes_of_string "audio_seconds") UnitPerAudioSecond microsPerSecond 6
  | cReportedCost => mkInfo (bytes_of_string "reported_cost") UnitNone nanosPerUnit 9
  end.

Definition meteredComponents (i : component) : bool :=
  match i with
  | cInput | cOutput | cCacheRead | cCacheWrite | cReasoning | cCharacters
  | cComputeSeconds | cAudioSeconds => true
  | _ => false
  end.

(** [billedQuantities]: [None] when the vendor stated no unit. *)
Definition billedQuantities (b : BilledUnit) : option (component -> bool) :=
  match b with
  | BilledUnstated => None
  | BilledTokens => Some (fun i => match i with
      | cInput | cOutput | cCacheRead | cCacheWrite | cReasoning => true | _ => false end)
  | BilledDuration => Some (fun i => match i with cAudioSeconds => true | _ => false end)
  end.

(** ** Rates and rules *)

(** [rateSet]: the three arrays as one; [Some] where [set] is true. *)
Record rate : Type := mkRate { ratto : u128; rtext : bytes }.
Definition rateSet : Type := component -> option rate.
Definition is_set (r : rateSet) (i : component) : bool := match r i with Some _ => true | None => false end.

Definition inherit (r base : rateSet) : rateSet :=
  fun i => match r i with Some x => Some x | None => base i end.
Definition count (r : rateSet) : Z := Z.of_nat (length (List.filter (is_set r) components)).
Definition any (r : rateSet) : bool := existsb (is_set r) components.

(** [upTo] is [None] for the unbounded tier. *)
Record tier : Type := mkTier { upTo : option Z; trates : rateSet }.

(** The two uses of a location. *)
Record Location : Type := mkLocation { wall : Z -> Z; instant : Z -> Z }.
Definition UTC : Location := mkLocation (fun t => t) (fun t => t).

Record whenPred : Type := mkWhen {
  wloc : Location; tod : option (Z * Z); weekdays : Z; from : option Z; to : option Z }.

Record utilization : Type := mkUtilization {
  slopePPM : Z; ceilingPPM : Z; slopeText : bytes; ceilingText : bytes }.

Record rule : Type := mkRule {
  id : bytes; class : Class; level : Level; priority : Z; order : Z;
  credential : bytes; deployment : bytes; provider : bytes; model : bytes;
  modelPrefix : bytes; prefixLen : Z; when_ : option whenPred;
  unit_ : Unit; rates : rateSet; tiers : list tier; tierMode : TierMode;
  util : option utilization; maxComponents : Z;
  amountAtto : u128; amountText : bytes; period : Period; loc : Location;
  op : AdjOp; adjAmount : decimal; adjAtto : u128; appliesTo : AdjBase;
  source : bytes; asOf : Z; asOfText : bytes }.

(** [Request]. *)
Record Request : Type := mkRequest {
  Provider : bytes; Model : bytes; Credential : bytes; Deployment : bytes;
  InputTokens : Z; OutputTokens : Z; CacheReadTokens : Z; CacheWriteTokens : Z;
  ReasoningTokens : Z; WebSearches : Z; ImageInputTokens : Z; ImageOutputTokens : Z;
  Requests : Z; Characters : Z; Seconds : F64.t; AudioSeconds : F64.t;
  Billed : BilledUnit; ReportedCostNano : Z; ReportedCostStated : bool;
  UtilizationPPM : Z; UtilizationObserved : bool; At : Z; Settlement : bytes }.

(** ** Matching *)

(** [strings.HasPrefix] *)
Definition HasPrefix (s p : bytes) : bool := match strip_prefix p s with Some _ => true | None => false end.
Definition is_empty (s : bytes) : bool := match s with [] => true | _ => false end.

(** A dimension the rule leaves empty does not constrain. *)
Definition free_or (want have : bytes) : bool := is_empty want || beqb want have.

Definition staticMatches (r : rule) (req : Request) : bool :=
  free_or (credential r) (Credential req) && free_or (deployment r) (Deployment req)
  && free_or (provider r) (Provider req) && free_or (model r) (Model req)
  && (is_empty (modelPrefix r) || HasPrefix (Model req) (modelPrefix r)).

(** [eligible] *)
Definition eligible (w : option whenPred) (at_ : Z) : bool :=
  match w with
  | None => true
  | Some w =>
      let local := wall (wloc w) at_ in
      let minute := local mod Time.Day / Time.Minute in
      ((weekdays w =? 0) || negb (Z.land (weekdays w) (Z.shiftl 1 (Time.Weekday local)) =? 0))
      && match tod w with
         | None => true
         | Some (s, e) =>
             if s <? e then negb ((minute <? s) || (e <=? minute))
             else negb ((minute <? s) && (e <=? minute))
         end
      && match from w with None => true | Some f => negb (Time.Before at_ f) end
      && match to w with None => true | Some t => Time.Before at_ t end
  end.

Definition matches (r : rule) (req : Request) (at_ : Z) : bool :=
  staticMatches r req && eligible (when_ r) at_.

(** [specificity] *)
Definition specificity (r : rule) : Level :=
  if negb (is_empty (credential r)) then LevelCredential
  else if negb (is_empty (deployment r)) then LevelDeployment
  else if negb (is_empty (provider r)) && negb (is_empty (model r)) then LevelProviderModel
  else if negb (is_empty (model r)) then LevelModel
  else if negb (is_empty (modelPrefix r)) then LevelModelPrefix
  else if negb (is_empty (provider r)) then LevelProvider
  else LevelDefault.

(** Byte strings compare lexicographically, as do all the sort keys below. *)
Fixpoint lexb (a b : list Z) : bool :=
  match a, b with
  | _, [] => false
  | [], _ :: _ => true
  | x :: a', y :: b' => (x <? y) || ((x =? y) && lexb a' b')
  end.

Definition betterPrefix (a b : rule) : bool :=
  if negb (prefixLen a =? prefixLen b) then prefixLen b <? prefixLen a
  else if negb (priority a =? priority b) then priority b <? priority a
  else lexb (id a) (id b).

Definition bucketLess (a b : rule) : bool :=
  if negb (priority a =? priority b) then priority b <? priority a
  else lexb (id a) (id b).

(** [sort.Slice] by a strict order. *)
Definition not_after (less : rule -> rule -> bool) : relation rule := fun a b => less b a = false.
#[global] Instance not_after_dec less a b : Decision (not_after less a b).
Proof. unfold not_after. apply _. Defined.
Definition sort_by (less : rule -> rule -> bool) (l : list rule) : list rule := merge_sort (not_after less) l.

Definition sortBucket : list rule -> list rule := sort_by bucketLess.

(** ** The index *)

Record classIndex : Type := mkIndex {
  byCredential : gmap bytes (list rule); byDeployment : gmap bytes (list rule);
  byProvModel : gmap (bytes * bytes) (list rule); byModel : gmap bytes (list rule);
  byPrefix : gmap bytes (list rule); byProvider : gmap bytes (list rule);
  defaults : list rule; icount : Z }.

Definition emptyIndex : classIndex := mkIndex ∅ ∅ ∅ ∅ ∅ ∅ [] 0.

Definition prefixKey (s : bytes) : bytes := take 2 s.

Definition bucket `{Countable K} (m : gmap K (list rule)) (k : K) : list rule := default [] (m !! k).
Definition append_to `{Countable K} (m : gmap K (list rule)) (k : K) (r : rule) : gmap K (list rule) :=
  <[k := bucket m k ++ [r]]> m.

(** Filing one rule under its level. *)
Definition file_rule (ix : classIndex) (r : rule) : classIndex :=
  let '(mkIndex c d pm mo pr pv df n) := ix in
  let n := n + 1 in
  match level r with
  | LevelCredential => mkIndex (append_to c (credential r) r) d pm mo pr pv df n
  | LevelDeployment => mkIndex c (append_to d (deployment r) r) pm mo pr pv df n
  | LevelProviderModel => mkIndex c d (append_to pm (provider r, model r) r) mo pr pv df n
  | LevelModel => mkIndex c d pm (append_to mo (model r) r) pr pv df n
  | LevelModelPrefix => mkIndex c d pm mo (append_to pr (prefixKey (modelPrefix r)) r) pv df n
  | LevelProvider => mkIndex c d pm mo pr (append_to pv (provider r) r) df n
  | LevelDefault => mkIndex c d pm mo pr pv (df ++ [r]) n
  end.

Definition sort_index (ix : classIndex) : classIndex :=
  mkIndex (sortBucket <$> byCredential ix) (sortBucket <$> byDeployment ix) (sortBucket <$> byProvModel ix)
    (sortBucket <$> byModel ix) (sort_by betterPrefix <$> byPrefix ix) (sortBucket <$> byProvider ix)
    (sortBucket (defaults ix)) (icount ix).

(** [buildIndex], for one class. *)
Definition buildIndex (rules : list rule) (cl : Class) : classIndex :=
  sort_index (foldl file_rule emptyIndex (filter (fun r => class r = cl) rules)).

(** ** Selection *)

Definition pick (b : list rule) (req : Request) (at_ : Z) : option rule := find (fun r => matches r req at_) b.

(** The two buckets that can hold a matching prefix rule. *)
Definition prefix_keys (model : bytes) : list bytes :=
  let k0 := prefixKey model in
  let k1 := take 1 model in
  if beqb k1 k0 then [k0] else [k0; k1].

Definition better_of (best : option rule) (r : option rule) : option rule :=
  match best, r with
  | _, None => best
  | None, Some r => Some r
  | Some b, Some r => Some (if betterPrefix r b then r else b)
  end.

Definition pickPrefix (ix : classIndex) (req : Request) (at_ : Z) : option rule :=
  if bool_decide (size (byPrefix ix) = O) || is_empty (Model req) then None
  else foldl (fun best k => better_of best (pick (bucket (byPrefix ix) k) req at_)) None (prefix_keys (Model req)).

Definition or_else {A} (a b : option A) : option A := match a with Some x => Some x | None => b end.
Infix "<|>" := or_else (at level 60, right associativity).

Definition selectWinner (ix : classIndex) (req : Request) (at_ : Z) : option rule :=
  if icount ix =? 0 then None
  else
    (if is_empty (Credential req) then None else pick (bucket (byCredential ix) (Credential req)) req at_)
    <|> (if is_empty (Deployment req) then None else pick (bucket (byDeployment ix) (Deployment req)) req at_)
    <|> (if is_empty (Provider req) || is_empty (Model req) then None
         else pick (bucket (byProvModel ix) (Provider req, Model req)) req at_)
    <|> (if is_empty (Model req) then None else pick (bucket (byModel ix) (Model req)) req at_)
    <|> pickPrefix ix req at_
    <|> (if is_empty (Provider req) then None else pick (bucket (byProvider ix) (Provider req)) req at_)
    <|> pick (defaults ix) req at_.

(** [collectAll] *)
Definition collectAll (ix : classIndex) (req : Request) (at_ : Z) : list rule :=
  let add (b : list rule) := List.filter (fun r => matches r req at_) b in
  if icount ix =? 0 then []
  else
    (if is_empty (Credential req) then [] else add (bucket (byCredential ix) (Credential req)))
    ++ (if is_empty (Deployment req) then [] else add (bucket (byDeployment ix) (Deployment req)))
    ++ (if is_empty (Provider req) || is_empty (Model req) then []
        else add (bucket (byProvModel ix) (Provider req, Model req)))
    ++ (if is_empty (Model req) then [] else add (bucket (byModel ix) (Model req)))
    ++ (if bool_decide (size (byPrefix ix) = O) || is_empty (Model req) then []
        else mjoin (map (fun k => add (bucket (byPrefix ix) k)) (prefix_keys (Model req))))
    ++ (if is_empty (Provider req) then [] else add (bucket (byProvider ix) (Provider req)))
    ++ add (defaults ix).
