(* ===== verification/PriceSelect.v ===== *)
(** * The index selects the most specific rule

    Every bucket is a sorted selection of the catalogue, a matching rule is in
    the bucket its level is looked up in, and so the indexed selection agrees
    with the order of specificity over the whole catalogue. *)
From Stdlib Require Import String.
From stdpp Require Import base gmap list sorting.
From Stdlib Require Import ZArith Lia.
From S2P Require Import Prelude U128 Decimal GoTime F64 PriceCatalog.
Open Scope Z_scope.

(** ** Lexicographic keys *)

Lemma lexb_irrefl a : lexb a a = false.
Proof. induction a as [|x a IH]; cbn; [done|]. by rewrite Z.ltb_irrefl, Z.eqb_refl, IH. Qed.

Lemma lexb_cons x a y b : lexb (x :: a) (y :: b) = true <-> x < y \/ (x = y /\ lexb a b = true).
Proof. cbn. rewrite orb_true_iff, andb_true_iff, Z.ltb_lt, Z.eqb_eq. done. Qed.

Lemma lexb_trans a b c : lexb a b = true -> lexb b c = true -> lexb a c = true.
Proof.
  revert b c. induction a as [|x a IH]; intros [|y b] [|z c] H1 H2; try done.
  rewrite lexb_cons in *. destruct H1 as [?|[-> H1]], H2 as [?|[-> H2]]; try (left; lia).
  right. split; [done|]. by eapply IH.
Qed.

Lemma lexb_total a b : lexb a b = true \/ a = b \/ lexb b a = true.
Proof.
  revert b. induction a as [|x a IH]; intros [|y b]; cbn; auto.
  destruct (Z.ltb_spec x y), (Z.ltb_spec y x); cbn; auto.
  assert (x = y) as -> by lia. rewrite Z.eqb_refl. cbn.
  destruct (IH b) as [?|[->|?]]; auto.
Qed.

(** ** The order of specificity *)

(** Level first; within the prefix level the longer prefix; then the higher
    priority, then the smaller id. *)
Definition rank (r : rule) : list Z :=
  - level_rank (level r) :: - (if decide (level r = LevelModelPrefix) then prefixLen r else 0)
  :: - priority r :: id r.
Definition outranks (a b : rule) : bool := lexb (rank a) (rank b).
#[global] Arguments outranks : simpl never.

Definition strict_key (less : rule -> rule -> bool) (key : rule -> list Z) : Prop :=
  forall a b, less a b = lexb (key a) (key b).

Lemma bucketLess_key : strict_key bucketLess (fun r => - priority r :: id r).
Proof.
  intros a b. unfold bucketLess. cbn [lexb].
  destruct (Z.eqb_spec (priority a) (priority b)) as [->|N]; cbn [negb].
  - by rewrite Z.ltb_irrefl, Z.eqb_refl.
  - rewrite (proj2 (Z.eqb_neq _ _)) by lia. cbn [andb]. rewrite orb_false_r.
    destruct (Z.ltb_spec (priority b) (priority a)), (Z.ltb_spec (- priority a) (- priority b)); done || lia.
Qed.

Lemma betterPrefix_key : strict_key betterPrefix (fun r => - prefixLen r :: - priority r :: id r).
Proof.
  intros a b. unfold betterPrefix. fold (bucketLess a b). rewrite bucketLess_key. cbn [lexb].
  destruct (Z.eqb_spec (prefixLen a) (prefixLen b)) as [->|N]; cbn [negb].
  - by rewrite Z.ltb_irrefl, Z.eqb_refl.
  - rewrite (proj2 (Z.eqb_neq (- _) _)) by lia. cbn [andb]. rewrite orb_false_r.
    destruct (Z.ltb_spec (prefixLen b) (prefixLen a)), (Z.ltb_spec (- prefixLen a) (- prefixLen b)); done || lia.
Qed.

(** Within a level, specificity is the order of its buckets. *)
Lemma outranks_bucket a b : level a = level b -> level a <> LevelModelPrefix -> bucketLess a b = outranks a b.
Proof.
  intros E N. unfold outranks, rank. rewrite <- E, !decide_False by congruence. cbn [lexb].
  rewrite Z.ltb_irrefl, Z.eqb_refl. cbn. apply bucketLess_key.
Qed.

Lemma outranks_prefix a b : level a = level b -> level a = LevelModelPrefix -> betterPrefix a b = outranks a b.
Proof.
  intros E N. unfold outranks, rank. rewrite <- E, !decide_True by congruence. cbn [lexb].
  rewrite Z.ltb_irrefl, Z.eqb_refl. cbn. apply betterPrefix_key.
Qed.

Lemma outranks_level a b : level_rank (level b) < level_rank (level a) -> outranks a b = true.
Proof. intros L. apply lexb_cons. left. lia. Qed.

Lemma outranks_trans a b c : outranks a b = true -> outranks b c = true -> outranks a c = true.
Proof. apply lexb_trans. Qed.

(** ** Sorting *)

Section Sort.
Context (less : rule -> rule -> bool) (key : rule -> list Z) (K : strict_key less key).

Lemma not_after_total : Total (not_after less).
Proof.
  intros a b. unfold not_after. rewrite !K. destruct (lexb (key b) (key a)) eqn:E; [|by left].
  right. destruct (lexb (key a) (key b)) eqn:E'; [|done].
  pose proof (lexb_trans _ _ _ E E') as H. by rewrite lexb_irrefl in H.
Qed.

Lemma not_after_trans : Transitive (not_after less).
Proof.
  intros a b c. unfold not_after. rewrite !K. intros H1 H2. destruct (lexb (key c) (key a)) eqn:E; [|done].
  destruct (lexb_total (key a) (key b)) as [H|[H|H]]; [|congruence|congruence].
  by rewrite (lexb_trans _ _ _ E H) in H2.
Qed.

Lemma sort_by_sorted l : StronglySorted (not_after less) (sort_by less l).
Proof.
  pose proof not_after_total. pose proof not_after_trans. apply StronglySorted_merge_sort; typeclasses eauto.
Qed.

Lemma sort_by_elem l r : r ∈ sort_by less l <-> r ∈ l.
Proof. unfold sort_by. by rewrite merge_sort_Permutation. Qed.

Lemma sort_by_perm l : sort_by less l ≡ₚ l.
Proof. apply merge_sort_Permutation. Qed.
End Sort.

(** ** The best of a set of rules *)

Definition best_of (P : rule -> Prop) (x : option rule) : Prop :=
  match x with
  | Some r => P r /\ forall r', P r' -> r' = r \/ outranks r r' = true
  | None => forall r', ~ P r'
  end.

Lemma best_of_iff P Q x : (forall r, P r <-> Q r) -> best_of P x -> best_of Q x.
Proof. intros E. destruct x as [r|]; cbn; [|naive_solver]. intros [H1 H2]. split; naive_solver. Qed.

(** What is preferred to everything of the rest wins over it. *)
Lemma best_of_or P Q x y : best_of P x -> best_of Q y -> (forall a b, P a -> Q b -> outranks a b = true) ->
  best_of (fun r => P r \/ Q r) (or_else x y).
Proof.
  intros HP HQ PQ. destruct x as [r|]; cbn in *.
  - destruct HP as [H1 H2]. split; [by left|]. intros r' [H|H]; [auto|]. right. auto.
  - destruct y as [r|]; cbn in *; [|naive_solver]. destruct HQ as [H1 H2]. split; [by right|]. naive_solver.
Qed.

Lemma pick_best_of less key b req at_ P : strict_key less key -> StronglySorted (not_after less) b ->
  (forall r, P r <-> r ∈ b /\ matches r req at_ = true) ->
  (forall r r', P r -> P r' -> less r r' = outranks r r') ->
  (forall r r', P r -> P r' -> key r = key r' -> r = r') ->
  best_of P (pick b req at_).
Proof.
  intros K S E O I. apply best_of_iff with (P := fun r => r ∈ b /\ matches r req at_ = true); [intros r; by rewrite E|].
  assert (forall r r', r ∈ b /\ matches r req at_ = true -> r' ∈ b /\ matches r' req at_ = true ->
    less r' r = false -> r' = r \/ outranks r r' = true) as Best.
  { intros r r' H H' L. apply E in H, H'. rewrite <- O by done. rewrite K in *.
    destruct (lexb_total (key r) (key r')) as [?|[?|?]]; [by right| |congruence].
    left. symmetry. by apply I. }
  clear E O I. unfold pick. induction S as [|x b S IH F]; cbn.
  { intros r [H _]. by apply elem_of_nil in H. }
  destruct (matches x req at_) eqn:M.
  - split; [split; [left|done]|]. intros r' [[->|H]%elem_of_cons Mr]; [by left|].
    apply Best; [split; [left|done]|split; [by right|done]|]. by eapply Forall_forall in F.
  - assert (best_of (fun r => r ∈ b /\ matches r req at_ = true) (find (fun r => matches r req at_) b)) as B.
    { apply IH. intros r r' [H1 H2] [H3 H4]. apply Best; split; try done; by right. }
    revert B. apply best_of_iff. intros r. rewrite elem_of_cons. split; [intros []; auto|].
    intros [[->|H] Mr]; [congruence|auto].
Qed.

(** ** The index *)

Lemma bucket_append `{Countable K} (m : gmap K (list rule)) k r k' :
  bucket (append_to m k r) k' = bucket m k' ++ (if decide (k = k') then [r] else []).
Proof.
  unfold bucket, append_to. destruct (decide (k = k')) as [->|N].
  - by rewrite lookup_insert_eq.
  - by rewrite lookup_insert_ne, app_nil_r.
Qed.

Lemma bucket_fmap `{Countable K} (f : list rule -> list rule) (m : gmap K (list rule)) k :
  f [] = [] -> bucket (f <$> m) k = f (bucket m k).
Proof. intros E. unfold bucket. rewrite lookup_fmap. by destruct (m !! k). Qed.

Section Filed.
Context `{Countable K} (proj : classIndex -> gmap K (list rule)) (L : Level) (key : rule -> K).
Hypothesis files : forall ix r k, bucket (proj (file_rule ix r)) k =
  bucket (proj ix) k ++ (if decide (level r = L /\ key r = k) then [r] else []).

Lemma filed_bucket rs ix k : bucket (proj (foldl file_rule ix rs)) k =
  bucket (proj ix) k ++ filter (fun r => level r = L /\ key r = k) rs.
Proof.
  revert ix. induction rs as [|r rs IH]; intros ix; cbn [foldl]; [by rewrite filter_nil, app_nil_r|].
  rewrite IH, files, <- app_assoc. f_equal. rewrite filter_cons. by destruct (decide _).
Qed.
End Filed.

Ltac filing := intros [] r0 k0; unfold file_rule; cbn;
  destruct (level r0); cbn; rewrite ?bucket_append;
  repeat match goal with |- context [decide ?P] => destruct (decide P) end;
  rewrite ?app_nil_r; naive_solver.

(** What the buckets of a class hold. *)
Lemma credential_bucket rules cl k : bucket (byCredential (buildIndex rules cl)) k =
  sortBucket (filter (fun r => level r = LevelCredential /\ credential r = k) (filter (fun r => class r = cl) rules)).
Proof. cbn. rewrite bucket_fmap by done. rewrite (filed_bucket _ LevelCredential credential); [done|filing]. Qed.

Lemma deployment_bucket rules cl k : bucket (byDeployment (buildIndex rules cl)) k =
  sortBucket (filter (fun r => level r = LevelDeployment /\ deployment r = k) (filter (fun r => class r = cl) rules)).
Proof. cbn. rewrite bucket_fmap by done. rewrite (filed_bucket _ LevelDeployment deployment); [done|filing]. Qed.

Lemma provModel_bucket rules cl k : bucket (byProvModel (buildIndex rules cl)) k =
  sortBucket (filter (fun r => level r = LevelProviderModel /\ (provider r, model r) = k) (filter (fun r => class r = cl) rules)).
Proof.
  cbn. rewrite bucket_fmap by done.
  rewrite (filed_bucket _ LevelProviderModel (fun r => (provider r, model r))); [done|filing].
Qed.

Lemma model_bucket rules cl k : bucket (byModel (buildIndex rules cl)) k =
  sortBucket (filter (fun r => level r = LevelModel /\ model r = k) (filter (fun r => class r = cl) rules)).
Proof. cbn. rewrite bucket_fmap by done. rewrite (filed_bucket _ LevelModel model); [done|filing]. Qed.

Lemma prefix_bucket rules cl k : bucket (byPrefix (buildIndex rules cl)) k =
  sort_by betterPrefix (filter (fun r => level r = LevelModelPrefix /\ prefixKey (modelPrefix r) = k) (filter (fun r => class r = cl) rules)).
Proof.
  cbn. rewrite bucket_fmap by done.
  rewrite (filed_bucket _ LevelModelPrefix (fun r => prefixKey (modelPrefix r))); [done|filing].
Qed.

Lemma provider_bucket rules cl k : bucket (byProvider (buildIndex rules cl)) k =
  sortBucket (filter (fun r => level r = LevelProvider /\ provider r = k) (filter (fun r => class r = cl) rules)).
Proof. cbn. rewrite bucket_fmap by done. rewrite (filed_bucket _ LevelProvider provider); [done|filing]. Qed.

Lemma defaults_bucket rules cl : defaults (buildIndex rules cl) =
  sortBucket (filter (fun r => level r = LevelDefault) (filter (fun r => class r = cl) rules)).
Proof.
  cbn. f_equal. change (?x = ?y) with (x = [] ++ y).
  change (@nil rule) with (defaults emptyIndex) at 1. generalize emptyIndex.
  induction (filter (fun r => class r = cl) rules) as [|r rs IH]; intros ix; cbn [foldl]; [by rewrite filter_nil, app_nil_r|].
  rewrite IH, filter_cons. destruct ix. unfold file_rule. destruct (level r); cbn; try done.
  by rewrite <- app_assoc.
Qed.

Lemma icount_length rules cl : icount (buildIndex rules cl) =
  Z.of_nat (length (filter (fun r => class r = cl) rules)).
Proof.
  cbn. rewrite <- (Z.add_0_l (Z.of_nat _)). change 0 with (icount emptyIndex). generalize emptyIndex.
  induction (filter (fun r => class r = cl) rules) as [|r rs IH]; intros ix; cbn [foldl length]; [lia|].
  rewrite IH. destruct ix. unfold file_rule. destruct (level r); cbn; lia.
Qed.

(** ** A matching rule is where it is looked for *)

(** What [compileRule] makes of a rule's match block. *)
Definition filed (r : rule) : Prop :=
  level r = specificity r /\ prefixLen r = Z.of_nat (length (modelPrefix r)).

Lemma free_or_eq want have : free_or want have = true -> want = [] \/ want = have.
Proof.
  unfold free_or. intros [H|H]%orb_true_iff; [left; by destruct want|right]. by apply beqb_eq.
Qed.

Lemma is_empty_false s : is_empty s = false <-> s <> [].
Proof. by destruct s. Qed.

Lemma staticMatches_spec r req : staticMatches r req = true ->
  (credential r = [] \/ credential r = Credential req) /\
  (deployment r = [] \/ deployment r = Deployment req) /\
  (provider r = [] \/ provider r = Provider req) /\
  (model r = [] \/ model r = Model req) /\
  (modelPrefix r = [] \/ exists rest, Model req = modelPrefix r ++ rest).
Proof.
  unfold staticMatches. rewrite !andb_true_iff. intros [[[[H1 H2] H3] H4] H5].
  split_and!; auto using free_or_eq. apply orb_true_iff in H5 as [H|H]; [left; by destruct (modelPrefix r)|right].
  unfold HasPrefix in H. destruct (strip_prefix _ _) as [rest|] eqn:E; [|done]. exists rest.
  revert E. generalize (Model req). induction (modelPrefix r) as [|x p IH]; intros [|y s] E; cbn in E; try done; try by injection E as <-.
  destruct (Z.eqb_spec x y) as [->|]; [|done]. cbn. f_equal. by apply IH.
Qed.

Lemma take2_prefix (p rest : bytes) : p <> [] -> prefixKey p = prefixKey (p ++ rest) \/ prefixKey p = take 1 (p ++ rest).
Proof. destruct p as [|x [|y p]]; [done|by right|by left]. Qed.

Lemma prefix_keys_elem p m rest : p <> [] -> m = p ++ rest -> prefixKey p ∈ prefix_keys m.
Proof.
  intros N ->. unfold prefix_keys. destruct (beqb (take 1 (p ++ rest)) (prefixKey (p ++ rest))) eqn:E.
  - apply beqb_eq in E. apply list_elem_of_singleton. destruct (take2_prefix p rest N); congruence.
  - destruct (take2_prefix p rest N) as [->| ->]; set_solver.
Qed.

Lemma id_unique rules r r' : NoDup (map id rules) -> r ∈ rules -> r' ∈ rules -> id r = id r' -> r = r'.
Proof.
  intros N H H' E. apply list_elem_of_lookup in H as [i Hi], H' as [j Hj].
  assert (i = j) as ->; [|congruence].
  eapply NoDup_lookup; [exact N| |]; rewrite list_lookup_fmap; [by rewrite Hi|by rewrite Hj, E].
Qed.

Section Select.
Context (rules : list rule) (cl : Class) (req : Request) (at_ : Z).
Hypothesis compiled : Forall filed rules.
Hypothesis distinct : NoDup (map id rules).

Definition matching (r : rule) : Prop := r ∈ rules /\ class r = cl /\ matches r req at_ = true.
Definition lives (L : Level) (r : rule) : Prop := matching r /\ level r = L.

Lemma id_inj r r' : matching r -> matching r' -> id r = id r' -> r = r'.
Proof. intros [H _] [H' _]. by apply (id_unique rules). Qed.

Lemma lives_static L r : lives L r -> specificity r = L /\
  (credential r = [] \/ credential r = Credential req) /\
  (deployment r = [] \/ deployment r = Deployment req) /\
  (provider r = [] \/ provider r = Provider req) /\
  (model r = [] \/ model r = Model req) /\
  (modelPrefix r = [] \/ exists rest, Model req = modelPrefix r ++ rest).
Proof.
  intros [(H1 & H2 & H3) H4]. apply andb_prop in H3 as [H3 _].
  split; [|by apply staticMatches_spec]. eapply Forall_forall in compiled as [H _]; [|exact H1]. congruence.
Qed.

(** A bucket of one level other than the prefix level. *)
Lemma bucket_best (L : Level) (here : rule -> Prop) `{forall r, Decision (here r)} :
  L <> LevelModelPrefix -> (forall r, lives L r -> here r) ->
  best_of (lives L)
    (pick (sortBucket (filter (fun r => level r = L /\ here r) (filter (fun r => class r = cl) rules))) req at_).
Proof.
  intros N Hk. eapply (pick_best_of bucketLess); [apply bucketLess_key|eapply sort_by_sorted, bucketLess_key|..].
  - intros r. unfold sortBucket. rewrite sort_by_elem, !list_elem_of_filter. unfold lives, matching.
    split; [|tauto]. intros Hr. specialize (Hk r Hr). destruct Hr. tauto.
  - intros r r' [_ E] [_ E']. apply outranks_bucket; congruence.
  - intros r r' [M _] [M' _] [= _ E]. by apply id_inj.
Qed.

Lemma better_of_best P Q x y : best_of P x -> best_of Q y ->
  (forall r, P r \/ Q r -> lives LevelModelPrefix r) -> best_of (fun r => P r \/ Q r) (better_of x y).
Proof.
  intros HP HQ Lv.
  assert (forall a b, P a \/ Q a -> P b \/ Q b -> betterPrefix a b = outranks a b) as O.
  { intros a b Ha Hb. destruct (Lv _ Ha), (Lv _ Hb). apply outranks_prefix; congruence. }
  destruct x as [r|], y as [r'|]; cbn [best_of better_of] in *.
  - destruct HP as [H1 H2], HQ as [H3 H4]. rewrite (O r' r) by auto. destruct (outranks r' r) eqn:E.
    + split; [by right|]. intros a [Ha|Ha]; [|by apply H4]. destruct (H2 a Ha) as [->|H]; [by right|].
      right. by eapply outranks_trans.
    + split; [by left|]. intros a [Ha|Ha]; [by apply H2|].
      assert (r' = r \/ outranks r r' = true) as [->|F].
      { destruct (lexb_total (rank r) (rank r')) as [|[Er|]]; [by right| |unfold outranks in E; congruence].
        left. symmetry. apply id_inj; [apply Lv; auto|apply Lv; auto|]. unfold rank in Er. congruence. }
      * by apply H4.
      * destruct (H4 a Ha) as [->|G]; [by right|]. right. by eapply outranks_trans.
  - destruct HP as [H1 H2]. split; [by left|]. naive_solver.
  - destruct HQ as [H1 H2]. split; [by right|]. naive_solver.
  - naive_solver.
Qed.

Lemma prefix_pick_best k :
  best_of (fun r => lives LevelModelPrefix r /\ prefixKey (modelPrefix r) = k)
    (pick (bucket (byPrefix (buildIndex rules cl)) k) req at_).
Proof.
  rewrite prefix_bucket. eapply (pick_best_of betterPrefix); [apply betterPrefix_key|eapply sort_by_sorted, betterPrefix_key|..].
  - intros r. rewrite sort_by_elem, !list_elem_of_filter. unfold lives, matching. tauto.
  - intros r r' [[_ E] _] [[_ E'] _]. apply outranks_prefix; congruence.
  - intros r r' [[M _] _] [[M' _] _] [= _ _ E]. by apply id_inj.
Qed.

Lemma pickPrefix_best : best_of (lives LevelModelPrefix) (pickPrefix (buildIndex rules cl) req at_).
Proof.
  assert (forall r, lives LevelModelPrefix r ->
    Model req <> [] /\ prefixKey (modelPrefix r) ∈ prefix_keys (Model req) /\
    r ∈ bucket (byPrefix (buildIndex rules cl)) (prefixKey (modelPrefix r))) as In.
  { intros r Hr. destruct (lives_static _ _ Hr) as (Sp & _ & _ & _ & _ & Mp).
    assert (modelPrefix r <> []) as N.
    { unfold specificity in Sp. destruct (modelPrefix r); [|done]. cbn in Sp.
      repeat match type of Sp with context [if ?b then _ else _] => destruct b end; done. }
    destruct Mp as [|[rest E]]; [done|]. split_and!.
    - rewrite E. by destruct (modelPrefix r).
    - by eapply prefix_keys_elem.
    - rewrite prefix_bucket, sort_by_elem, !list_elem_of_filter. destruct Hr as [(? & ? & ?) ?]. tauto. }
  unfold pickPrefix. destruct (bool_decide (size _ = 0%nat)) eqn:Es; cbn [orb].
  { apply bool_decide_eq_true, map_size_empty_inv in Es. intros r Hr. destruct (In r Hr) as (_ & _ & Hb).
    rewrite Es in Hb. by apply elem_of_nil in Hb. }
  destruct (Model req) as [|x s] eqn:Em; cbn [is_empty]; [intros r Hr; by destruct (In r Hr)|]. rewrite <- Em in *.
  assert (forall ks best P, best_of P best -> (forall r, P r -> lives LevelModelPrefix r) ->
    best_of (fun r => P r \/ (lives LevelModelPrefix r /\ prefixKey (modelPrefix r) ∈ ks))
      (foldl (fun best k => better_of best (pick (bucket (byPrefix (buildIndex rules cl)) k) req at_)) best ks)) as Fold.
  { induction ks as [|k ks IH]; intros best P HP Lv; cbn [foldl].
    - revert HP. apply best_of_iff. set_solver.
    - pose proof (better_of_best _ _ _ _ HP (prefix_pick_best k) ltac:(naive_solver)) as B.
      apply (IH _ _) in B; [|naive_solver]. revert B. apply best_of_iff. intros r. rewrite elem_of_cons. naive_solver. }
  pose proof (Fold (prefix_keys (Model req)) None (fun _ => False)) as F.
  eapply best_of_iff; [|apply F; [by intros r []|done]]. intros r. split; [by intros [|[]]|].
  intros Hr. right. split; [done|]. by destruct (In r Hr) as (_ & ? & _).
Qed.

(** The looked-up bucket of each level, guarded as the code guards it. *)
Lemma guarded_best (b : bool) L x : (b = true -> forall r, ~ lives L r) -> (b = false -> best_of (lives L) x) ->
  best_of (lives L) (if b then None else x).
Proof. destruct b; cbn; auto. Qed.

Ltac by_level Hr :=
  let Sp := fresh "Sp" in let Sm := fresh "Sm" in
  destruct (lives_static _ _ Hr) as [Sp Sm]; unfold specificity in Sp;
  repeat match type of Sp with context [is_empty ?x] => destruct x eqn:?; cbn in Sp end;
  try discriminate Sp; destruct Sm as ([?|?] & [?|?] & [?|?] & [?|?] & _); split_and?; congruence.

Lemma credential_lives r : lives LevelCredential r -> Credential req <> [] /\ credential r = Credential req.
Proof. intros Hr. by_level Hr. Qed.
Lemma deployment_lives r : lives LevelDeployment r -> Deployment req <> [] /\ deployment r = Deployment req.
Proof. intros Hr. by_level Hr. Qed.
Lemma provModel_lives r : lives LevelProviderModel r ->
  Provider req <> [] /\ Model req <> [] /\ (provider r, model r) = (Provider req, Model req).
Proof. intros Hr. by_level Hr. Qed.
Lemma model_lives r : lives LevelModel r -> Model req <> [] /\ model r = Model req.
Proof. intros Hr. by_level Hr. Qed.
Lemma provider_lives r : lives LevelProvider r -> Provider req <> [] /\ provider r = Provider req.
Proof. intros Hr. by_level Hr. Qed.

Lemma is_empty_true s : is_empty s = true -> s = [].
Proof. by destruct s. Qed.

Lemma lives_any r : matching r <->
  lives LevelCredential r \/ lives LevelDeployment r \/ lives LevelProviderModel r \/ lives LevelModel r \/
  lives LevelModelPrefix r \/ lives LevelProvider r \/ lives LevelDefault r.
Proof. unfold lives. split; [|tauto]. intros H. destruct (level r) eqn:E; tauto. Qed.

(** The selection over all levels. *)
Lemma selectWinner_best : best_of matching (selectWinner (buildIndex rules cl) req at_).
Proof.
  unfold selectWinner. rewrite icount_length. destruct (Z.eqb_spec (Z.of_nat (length (filter (fun r => class r = cl) rules))) 0) as [E|_].
  { intros r (H1 & H2 & _). assert (r ∈ filter (fun r => class r = cl) rules) as Hr by (by apply list_elem_of_filter).
    destruct (filter _ rules); [by apply elem_of_nil in Hr|done]. }
  eapply best_of_iff; [intros r; symmetry; apply lives_any|].
  repeat apply best_of_or; try (intros a b [_ Ha] Hb; apply outranks_level; rewrite Ha;
    repeat destruct Hb as [[_ ->]|Hb]; try destruct Hb as [_ ->]; reflexivity).
  - apply guarded_best; intros G.
    + intros r Hr. apply is_empty_true in G. by destruct (credential_lives r Hr).
    + rewrite credential_bucket. apply bucket_best; [done|]. intros r Hr. by apply credential_lives.
  - apply guarded_best; intros G.
    + intros r Hr. apply is_empty_true in G. by destruct (deployment_lives r Hr).
    + rewrite deployment_bucket. apply bucket_best; [done|]. intros r Hr. by apply deployment_lives.
  - apply guarded_best; intros G.
    + intros r Hr. destruct (provModel_lives r Hr) as (? & ? & _).
      apply orb_true_iff in G as [G|G]; by apply is_empty_true in G.
    + rewrite provModel_bucket. apply bucket_best; [done|]. intros r Hr. by apply provModel_lives.
  - apply guarded_best; intros G.
    + intros r Hr. apply is_empty_true in G. by destruct (model_lives r Hr).
    + rewrite model_bucket. apply bucket_best; [done|]. intros r Hr. by apply model_lives.
  - apply pickPrefix_best.
  - apply guarded_best; intros G.
    + intros r Hr. apply is_empty_true in G. by destruct (provider_lives r Hr).
    + rewrite provider_bucket. apply bucket_best; [done|]. intros r Hr. by apply provider_lives.
  - rewrite defaults_bucket. pose proof (bucket_best LevelDefault (fun _ => True) ltac:(done) ltac:(done)) as B.
    erewrite list_filter_iff; [exact B|]. cbn. tauto.
Qed.

(** A list of exactly the rules with a property, each once. *)
Definition enumerates (P : rule -> Prop) (l : list rule) : Prop := NoDup l /\ forall r, r ∈ l <-> P r.

Lemma enumerates_iff P Q l : (forall r, P r <-> Q r) -> enumerates P l -> enumerates Q l.
Proof. intros E [N H]. split; [done|]. intros r. by rewrite H, E. Qed.

Lemma enumerates_app P Q l l' : enumerates P l -> enumerates Q l' -> (forall r, P r -> Q r -> False) ->
  enumerates (fun r => P r \/ Q r) (l ++ l').
Proof.
  intros [N1 H1] [N2 H2] D. split.
  - apply NoDup_app. split_and!; [done| |done]. intros r Hr Hr'. apply H1 in Hr. apply H2 in Hr'. eauto.
  - intros r. by rewrite elem_of_app, H1, H2.
Qed.

Lemma NoDup_rules : NoDup rules.
Proof. by apply NoDup_fmap_1 in distinct. Qed.

Lemma filter_enumerates less key (here : rule -> Prop) `{forall r, Decision (here r)} L : strict_key less key ->
  enumerates (fun r => lives L r /\ here r)
    (List.filter (fun r => matches r req at_)
       (sort_by less (filter (fun r => level r = L /\ here r) (filter (fun r => class r = cl) rules)))).
Proof.
  intros K. split.
  - apply NoDup_ListNoDup, List.NoDup_filter, NoDup_ListNoDup. rewrite sort_by_perm.
    by apply NoDup_filter, NoDup_filter, NoDup_rules.
  - intros r. rewrite list_elem_of_In, filter_In, <- list_elem_of_In, sort_by_elem, !list_elem_of_filter.
    unfold lives, matching. tauto.
Qed.

Lemma guarded_enumerates (b : bool) (P Q : rule -> Prop) l : (forall r, P r -> b = false /\ Q r) ->
  enumerates (fun r => P r /\ Q r) l -> enumerates P (if b then [] else l).
Proof.
  intros G E. destruct b.
  - split; [constructor|]. intros r. split; [by intros ?%elem_of_nil|]. intros H. by destruct (G r H).
  - revert E. apply enumerates_iff. intros r. split; [tauto|]. intros H. by destruct (G r H).
Qed.

Lemma prefix_keys_nodup m : NoDup (prefix_keys m).
Proof.
  unfold prefix_keys. destruct (beqb _ _) eqn:E; [apply NoDup_singleton|].
  apply NoDup_cons. split; [|apply NoDup_singleton]. intros H%list_elem_of_singleton.
  assert (beqb (take 1 m) (prefixKey m) = true) by (by apply beqb_eq). congruence.
Qed.

Lemma prefix_enumerates ks : NoDup ks ->
  enumerates (fun r => lives LevelModelPrefix r /\ prefixKey (modelPrefix r) ∈ ks)
    (mjoin (map (fun k => List.filter (fun r => matches r req at_) (bucket (byPrefix (buildIndex rules cl)) k)) ks)).
Proof.
  induction 1 as [|k ks Nk _ IH]; cbn [map mjoin list_join].
  { split; [constructor|]. intros r. split; [by intros ?%elem_of_nil|set_solver]. }
  rewrite prefix_bucket. eapply enumerates_iff; [|apply enumerates_app; [eapply filter_enumerates, betterPrefix_key|exact IH|]].
  - intros r. rewrite elem_of_cons. tauto.
  - intros r [_ E] [_ E']. congruence.
Qed.

Lemma prefix_guard r : lives LevelModelPrefix r ->
  bool_decide (size (byPrefix (buildIndex rules cl)) = O) || is_empty (Model req) = false /\
  prefixKey (modelPrefix r) ∈ prefix_keys (Model req).
Proof.
  intros Hr. destruct (lives_static _ _ Hr) as (Sp & _ & _ & _ & _ & Mp).
  assert (modelPrefix r <> []) as N.
  { unfold specificity in Sp. destruct (modelPrefix r); [|done]. cbn in Sp.
    repeat match type of Sp with context [if ?b then _ else _] => destruct b end; done. }
  destruct Mp as [|[rest E]]; [done|]. split; [|by eapply prefix_keys_elem].
  apply orb_false_iff. split.
  - apply bool_decide_eq_false. intros Es%map_size_empty_inv.
    assert (r ∈ bucket (byPrefix (buildIndex rules cl)) (prefixKey (modelPrefix r))) as Hb.
    { rewrite prefix_bucket, sort_by_elem, !list_elem_of_filter.
      destruct Hr as [(? & ? & ?) ?]. tauto. }
    rewrite Es in Hb. by apply elem_of_nil in Hb.
  - rewrite E. apply is_empty_false. by destruct (modelPrefix r).
Qed.

(** Every matching rule is collected, once. *)
Lemma collectAll_matching : enumerates matching (collectAll (buildIndex rules cl) req at_).
Proof.
  unfold collectAll. rewrite icount_length. destruct (Z.eqb_spec (Z.of_nat (length (filter (fun r => class r = cl) rules))) 0) as [E|_].
  { split; [constructor|]. intros r. split; [by intros ?%elem_of_nil|]. intros (H1 & H2 & _).
    assert (r ∈ filter (fun r => class r = cl) rules) as Hr by (by apply list_elem_of_filter).
    destruct (filter _ rules); [by apply elem_of_nil in Hr|done]. }
  eapply enumerates_iff; [intros r; symmetry; apply lives_any|].
  repeat apply enumerates_app; try (intros a [_ Ha] Hb; unfold lives in Hb; intuition congruence).
  - eapply guarded_enumerates; [|rewrite credential_bucket; eapply filter_enumerates, bucketLess_key].
    intros r Hr. rewrite is_empty_false. by apply credential_lives.
  - eapply guarded_enumerates; [|rewrite deployment_bucket; eapply filter_enumerates, bucketLess_key].
    intros r Hr. rewrite is_empty_false. by apply deployment_lives.
  - eapply guarded_enumerates; [|rewrite provModel_bucket; eapply filter_enumerates, bucketLess_key].
    intros r Hr. rewrite orb_false_iff, !is_empty_false. destruct (provModel_lives r Hr) as (? & ? & ?). done.
  - eapply guarded_enumerates; [|rewrite model_bucket; eapply filter_enumerates, bucketLess_key].
    intros r Hr. rewrite is_empty_false. by apply model_lives.
  - eapply guarded_enumerates; [apply prefix_guard|apply prefix_enumerates, prefix_keys_nodup].
  - eapply guarded_enumerates; [|rewrite provider_bucket; eapply filter_enumerates, bucketLess_key].
    intros r Hr. rewrite is_empty_false. by apply provider_lives.
  - rewrite defaults_bucket. pose proof (filter_enumerates bucketLess _ (fun _ => True) LevelDefault bucketLess_key) as B.
    erewrite list_filter_iff; [eapply enumerates_iff; [|exact B]|]; cbn; tauto.
Qed.
End Select.

(** C24. The most specific rule wins: whatever the catalogue, the class, the
    request and the instant, the indexed selection returns a rule of the class
    that matches, and every other matching rule of the class is less specific by
    level (credential, deployment, provider and model, model, model prefix,
    provider, default), then by prefix length, priority and id; it returns
    nothing only when no rule of the class matches. The index never hides a rule
    a scan of the whole catalogue would have found. *)
Theorem most_specific_wins rules cl req at_ :
  Forall filed rules -> NoDup (map id rules) ->
  match selectWinner (buildIndex rules cl) req at_ with
  | Some r => r ∈ rules /\ class r = cl /\ matches r req at_ = true /\
      forall r', r' ∈ rules -> class r' = cl -> matches r' req at_ = true -> r' = r \/ outranks r r' = true
  | None => forall r, r ∈ rules -> class r = cl -> matches r req at_ = false
  end.
Proof.
  intros F N. pose proof (selectWinner_best rules cl req at_ F N) as B.
  destruct (selectWinner _ _ _) as [r|]; cbn in B; unfold matching in B.
  - destruct B as [(H1 & H2 & H3) H4]. split_and!; try done. intros r' ? ? ?. by apply H4.
  - intros r H1 H2. destruct (matches r req at_) eqn:M; [|done]. by destruct (B r).
Qed.

(** A catalogue of two rules: everything, and one model. *)
Definition sample_rate : rateSet := fun i =>
  match i with cInput => Some (mkRate (mkU128 0 850000000000000000) (bytes_of_string "0.85")) | _ => None end.
Definition sample_rule (name : string) (l : Level) (m : bytes) : rule :=
  mkRule (bytes_of_string name) ClassMarginal l 0 0 [] [] [] m [] 0 None UnitPerMillionTokens sample_rate []
    TierThreshold None 1 (mkU128 0 0) [] PeriodMonthly UTC AdjPercent (mkDecimal false 0 0 []) (mkU128 0 0)
    BaseTotal [] 0 [].
Definition sample_default : rule := sample_rule "any" LevelDefault [].
Definition sample_model : rule := sample_rule "gpt" LevelModel (bytes_of_string "gpt-4").
Definition sample_request : Request :=
  mkRequest [] (bytes_of_string "gpt-4") [] [] 120 15 0 0 0 0 0 0 0 0 F64.zero F64.zero BilledUnstated 0 false 0 false
    1000 [].

Lemma most_specific_wins_witness :
  selectWinner (buildIndex [sample_default; sample_model] ClassMarginal) sample_request 1000 = Some sample_model /\
  outranks sample_model sample_default = true.
Proof.
  pose proof (most_specific_wins [sample_default; sample_model] ClassMarginal sample_request 1000) as H.
  assert (selectWinner (buildIndex [sample_default; sample_model] ClassMarginal) sample_request 1000 = Some sample_model) as E
    by (vm_compute; reflexivity).
  rewrite E in H. split; [exact E|].
  destruct H as (_ & _ & _ & H).
  - repeat (constructor; [split; vm_compute; reflexivity|]). constructor.
  - vm_compute. repeat (constructor; [set_solver|]). constructor.
  - destruct (H sample_default) as [D|O]; [left|vm_compute; reflexivity|vm_compute; reflexivity| |exact O].
    vm_compute in D. discriminate D.
Defined.
