(* ===== verification/Price.v ===== *)
(** * Pricing a request ([internal/pricing/price.go], [utilization.go],
    [seconds.go])

    What a chosen rule charges: quantities, tiers, component values, the
    utilization factor, the share of a subscription, adjustments, one rounding
    per class with its carried remainder, and [compute], which puts them
    together and moves the catalogue's accounting state when it settles.

    A catalogue's state is its subscription accumulators and its carries. The
    preview trace is not built; as in the code, the notional class then builds no
    component lines. [time.Now] and the catalogue's clock are arguments. *)
From Stdlib Require Import String.
From stdpp Require Import base gmap list sorting.
From Stdlib Require Import ZArith Lia SpecFloat.
From S2P Require Import Prelude U128 Decimal GoTime F64 PriceCatalog.
Open Scope Z_scope.

(** ** Errors *)

Inductive price_error : Type :=
| EOverflow | ENegative (i : component) | ENotFinite | ENegativeSeconds
| EDecimal (e : num_error) | EStateMissing.

(** [None] is a panic. *)
Definition res (A : Type) : Type := option (result price_error A).
Definition ret {A} (a : A) : res A := Some (Ok a).
Definition fail {A} (e : price_error) : res A := Some (Err e).

Notation "'let$' p := e 'in' k" :=
  (match e with Some (Ok p) => k | Some (Err err) => Some (Err err) | None => None end)
  (at level 10, p pattern, e at level 200, k at level 200) : go_scope.
Open Scope go_scope.

(** [v, ok := ...; if !ok { return ErrOverflow }] *)
Definition checked {A} (x : A * bool) : res A := let '(a, ok) := x in if ok then ret a else fail EOverflow.
Definition checked_opt {A} (x : option (A * bool)) : res A := match x with None => None | Some y => checked y end.

Definition of_num (e : num_error) : price_error := match e with ErrOverflow => EOverflow | e => EDecimal e end.
Definition lift {A} (x : result num_error A) : res A :=
  match x with Ok a => ret a | Err e => fail (of_num e) end.

(** [roundToNano], its error an error. *)
Definition rounded (v : amt) (carry : Z) : res (Z * Z) :=
  match roundToNano v carry with
  | None => None
  | Some (n, c, None) => ret (n, c)
  | Some (_, _, Some e) => fail (of_num e)
  end.

Definition addNano_ (a b : Z) : res Z := lift (addNano a b).

(** ** Measured quantities *)

(** Nearest integer to [n / d], ties to even. *)
Definition nearest (n d : Z) : Z :=
  let q := n / d in
  let r := n mod d in
  if (d <? 2 * r) || ((2 * r =? d) && Z.odd q) then q + 1 else q.

(** The millionths of a finite, non-negative value. *)
Definition millionths (m : positive) (e : Z) : Z :=
  if 0 <=? e then Z.pos m * 2 ^ e * 1000000 else nearest (Z.pos m * 1000000) (2 ^ (- e)).

Definition decimal_digits (n : Z) : bytes := if n =? 0 then [48] else top_digits 20 n [].

(** [strconv.AppendFloat(nil, s, 'f', 6, 64)] of a positive value. *)
Definition AppendFloat6 (m : positive) (e : Z) : bytes :=
  let n := millionths m e in
  decimal_digits (n / 1000000) ++ [46] ++ chunk_digits 6 (n mod 1000000) [].

Definition e12 : F64.t := F64.of_Z 1000000000000.

Definition secondsToMicros (s : F64.t) : res Z :=
  match s with
  | S754_nan | S754_infinity _ => fail ENotFinite
  | S754_zero _ => ret 0
  | S754_finite true _ _ => fail ENegativeSeconds
  | S754_finite false m e =>
      if F64.gt s e12 then fail EOverflow
      else
        let$ d := lift (parseDecimal (AppendFloat6 m e)) in
        match scaled d 6 with
        | None => None
        | Some None => fail EOverflow
        | Some (Some micros) => if maxInt64 <? micros then fail EOverflow else ret (i64 micros)
        end
  end.

Definition quantityOf (i : component) (req : Request) : res Z :=
  let counted q := if q <? 0 then fail (ENegative i) else ret q in
  match i with
  | cInput => counted (InputTokens req)
  | cOutput => counted (OutputTokens req)
  | cCacheRead => counted (CacheReadTokens req)
  | cCacheWrite => counted (CacheWriteTokens req)
  | cReasoning => counted (ReasoningTokens req)
  | cRequest => counted (if Requests req =? 0 then 1 else Requests req)
  | cCharacters => counted (Characters req)
  | cWebSearches => counted (WebSearches req)
  | cImageInput => counted (ImageInputTokens req)
  | cImageOutput => counted (ImageOutputTokens req)
  | cReportedCost => counted (ReportedCostNano req)
  | cComputeSeconds => secondsToMicros (Seconds req)
  | cAudioSeconds => secondsToMicros (AudioSeconds req)
  end.

Definition carvedInput (rs : rateSet) (req : Request) : Z :=
  i64 ((if is_set rs cCacheRead then CacheReadTokens req else 0)
       + (if is_set rs cCacheWrite then CacheWriteTokens req else 0)).
Definition carvedOutput (rs : rateSet) (req : Request) : Z :=
  if is_set rs cReasoning then ReasoningTokens req else 0.

Definition chargedQuantity (i : component) (req : Request) (carvedIn carvedOut : Z) : res Z :=
  let$ q := quantityOf i req in
  let q := match i with cInput => i64 (q - carvedIn) | cOutput => i64 (q - carvedOut) | _ => q end in
  ret (if q <? 0 then 0 else q).

(** ** Tiers and rates *)

Fixpoint selectTier (t : tier) (ts : list tier) (input : Z) : tier :=
  match upTo t with
  | None => t
  | Some u => if input <=? u then t else match ts with [] => t | t' :: ts' => selectTier t' ts' input end
  end.

Definition effectiveRates (r : rule) (req : Request) : rateSet :=
  match tiers r with
  | [] => rates r
  | t :: ts => trates (selectTier t ts (InputTokens req))
  end.

Inductive NoPriceReason : Type :=
| NoPriceNone | NoPriceAudioNotMeasured | NoPriceComputeNotMeasured | NoPriceVendorBilledTokens
| NoPriceVendorBilledDuration | NoPriceReportedNotStated.
#[global] Instance NoPriceReason_eq_dec : EqDecision NoPriceReason. Proof. solve_decision. Defined.

(** The first metered rate on an axis the vendor did not bill. *)
Definition off_axis (rs : rateSet) (allowed : component -> bool) : option component :=
  find (fun i => is_set rs i && meteredComponents i && negb (allowed i)) components.

Definition noPriceReason (r : rule) (req : Request) : NoPriceReason * bytes :=
  let rs := effectiveRates r req in
  let name i := iname (componentInfo i) in
  let durations :=
    if is_set rs cAudioSeconds && F64.eq (AudioSeconds req) F64.zero
    then (NoPriceAudioNotMeasured, name cAudioSeconds)
    else if is_set rs cComputeSeconds && F64.eq (Seconds req) F64.zero
    then (NoPriceComputeNotMeasured, name cComputeSeconds)
    else (NoPriceNone, []) in
  let billed :=
    match billedQuantities (Billed req) with
    | None => durations
    | Some allowed =>
        match off_axis rs allowed with
        | Some i => (match Billed req with BilledTokens => NoPriceVendorBilledTokens
                     | _ => NoPriceVendorBilledDuration end, name i)
        | None => durations
        end
    end in
  if is_set rs cReportedCost then
    if ReportedCostStated req then (NoPriceNone, [])
    else if count rs =? 1 then (NoPriceReportedNotStated, name cReportedCost)
    else billed
  else billed.

Definition notionalPriceable (r : rule) (req : Request) : bool :=
  bool_decide (fst (noPriceReason r req) = NoPriceNone).

(** ** Component lines *)

Record Component : Type := mkComponent {
  CName : bytes; CRuleID : bytes; CRate : bytes; CUnit : Unit; CQuantity : Z; CScale : Z; SubtotalNano : Z }.

Definition componentValue (rateAtto : u128) (qty div : Z) : res amt :=
  match mulDiv rateAtto (u64 qty) div with
  | None => None
  | Some (v, _, ok) => if ok then ret (attoAmt v) else fail EOverflow
  end.

(** [comps] is [None] for the nil pointer. *)
Definition appendComponent (comps : option (list Component)) (r : rule) (i : component) (text : bytes)
    (qty : Z) (v : amt) : res (option (list Component)) :=
  match comps with
  | None => ret None
  | Some cs =>
      let$ (nano, _) := rounded v 0 in
      ret (Some (cs ++ [mkComponent (iname (componentInfo i)) (id r) text (unit_ r) qty
                          (iscale (componentInfo i)) nano]))
  end.

(** The loop of [gradedInput]. *)
Fixpoint graded_loop (r : rule) (ts : list tier) (remaining skip prev : Z) (total : amt)
    (comps : option (list Component)) : res (amt * option (list Component)) :=
  match ts with
  | [] => ret (total, comps)
  | t :: ts' =>
      if remaining <=? 0 then ret (total, comps)
      else
        let '(span, prev) :=
          match upTo t with
          | None => (remaining, prev)
          | Some u => (if remaining <? i64 (u - prev) then remaining else i64 (u - prev), u)
          end in
        if span <=? 0 then graded_loop r ts' remaining skip prev total comps
        else
          let remaining := i64 (remaining - span) in
          let '(span, skip) :=
            if 0 <? skip then (i64 (span - Z.min skip span), i64 (skip - Z.min skip span)) else (span, skip) in
          match trates t cInput with
          | Some rt =>
              if span <=? 0 then graded_loop r ts' remaining skip prev total comps
              else
                let$ v := componentValue (ratto rt) span (divisor (componentInfo cInput)) in
                let$ total := checked (addAmt total v) in
                let$ comps := appendComponent comps r cInput (rtext rt) span v in
                graded_loop r ts' remaining skip prev total comps
          | None => graded_loop r ts' remaining skip prev total comps
          end
  end.

Definition zeroAmt : amt := mkAmt false (mkU128 0 0).

Definition gradedInput (r : rule) (req : Request) (comps : option (list Component)) (carved : Z)
  : res (amt * option (list Component)) :=
  if InputTokens req <? 0 then fail (ENegative cInput)
  else graded_loop r (tiers r) (InputTokens req) (Z.min carved (InputTokens req)) 0 zeroAmt comps.

Definition activeReported (rs : rateSet) (req : Request) : bool := is_set rs cReportedCost && ReportedCostStated req.

Definition evalReported (r : rule) (rs : rateSet) (req : Request) (comps : option (list Component))
  : res (amt * option (list Component)) :=
  let$ qty := quantityOf cReportedCost req in
  if qty =? 0 then ret (zeroAmt, comps)
  else
    match rs cReportedCost with
    | None => ret (zeroAmt, comps)
    | Some rt =>
        let$ v := componentValue (ratto rt) qty (divisor (componentInfo cReportedCost)) in
        let$ comps := appendComponent comps r cReportedCost (rtext rt) qty v in
        ret (v, comps)
    end.

(** The loop of [evalUsage] over the components. *)
Fixpoint usage_loop (r : rule) (rs : rateSet) (req : Request) (cin cout : Z) (todo : list component)
    (total : amt) (comps : option (list Component)) : res (amt * option (list Component)) :=
  match todo with
  | [] => ret (total, comps)
  | i :: todo' =>
      if match tierMode r with TierGraduated => true | _ => false end && bool_decide (i = cInput)
         && bool_decide (tiers r <> []) then
        let$ (sub, comps) := gradedInput r req comps cin in
        let$ total := checked (addAmt total sub) in
        usage_loop r rs req cin cout todo' total comps
      else
        match rs i with
        | None => usage_loop r rs req cin cout todo' total comps
        | Some rt =>
            if bool_decide (i = cReportedCost) then usage_loop r rs req cin cout todo' total comps
            else
              let$ qty := chargedQuantity i req cin cout in
              if qty =? 0 then usage_loop r rs req cin cout todo' total comps
              else
                let$ v := componentValue (ratto rt) qty (divisor (componentInfo i)) in
                let$ total := checked (addAmt total v) in
                let$ comps := appendComponent comps r i (rtext rt) qty v in
                usage_loop r rs req cin cout todo' total comps
        end
  end.

Definition evalUsage (r : rule) (req : Request) (comps : option (list Component))
  : res (amt * option (list Component)) :=
  let rs := effectiveRates r req in
  if activeReported rs req then evalReported r rs req comps
  else usage_loop r rs req (carvedInput rs req) (carvedOutput rs req) components zeroAmt comps.

(** ** The utilization factor *)

Definition OnePPM : Z := 1000000.
Definition MaxDeclarableMultiplierPPM : Z := 4 * OnePPM.

Inductive UtilFallback : Type := UtilFallbackNone | UtilFallbackNotObserved.

Definition declared (u : option utilization) : bool :=
  match u with None => false | Some u => 0 <? ceilingPPM u end.

Definition factor (u : utilization) (utilPPM : Z) : Z * bool :=
  let ppm := i64 (OnePPM + go_quot (i64 (slopePPM u * utilPPM)) OnePPM) in
  if ceilingPPM u <=? ppm then (ceilingPPM u, true) else (ppm, false).

Definition formatPPM (ppm : Z) : bytes :=
  let ppm := if ppm <? 0 then 0 else ppm in
  decimal_digits (ppm / OnePPM) ++ [46] ++ chunk_digits 6 (ppm mod OnePPM) [].

Record applied_factor : Type := mkFactor {
  f_amt : amt; f_ppm : Z; f_ceiling : bool; f_fallback : UtilFallback; f_comps : option (list Component) }.

Definition applyUtilization (r : rule) (req : Request) (base : amt) (comps : option (list Component))
  : res applied_factor :=
  match util r with
  | None => ret (mkFactor base 0 false UtilFallbackNone comps)
  | Some u =>
      if negb (declared (Some u)) then ret (mkFactor base 0 false UtilFallbackNone comps)
      else if negb (UtilizationObserved req) || (UtilizationPPM req <? 0)
      then ret (mkFactor base OnePPM false UtilFallbackNotObserved comps)
      else
        let '(ppm, atCeiling) := factor u (UtilizationPPM req) in
        let$ scaled := checked_opt (mulDivAmt base (u64 ppm) OnePPM) in
        match comps with
        | None => ret (mkFactor scaled ppm atCeiling UtilFallbackNone None)
        | Some cs =>
            let$ delta := checked (addAmt scaled (negate base)) in
            let$ (nano, _) := rounded delta 0 in
            ret (mkFactor scaled ppm atCeiling UtilFallbackNone
                   (Some (cs ++ [mkComponent (bytes_of_string "utilization") (id r) (formatPPM ppm) UnitNone
                                   (UtilizationPPM req) 6 nano])))
        end
  end.

(** ** Accounting state *)

Record subSnapshot : Type := mkSnapshot { periodStart : Z; attributed : u128 }.
Record carrySet : Type := mkCarry { k_marginal : Z; k_subscription : Z; k_adjustment : Z; k_notional : Z }.
Definition zeroCarry : carrySet := mkCarry 0 0 0 0.

(** [Catalog]: the rules with their index, and what settling moves. *)
Record Catalog : Type := mkCatalog {
  crules : list rule; idx : Class -> classIndex;
  subs : gmap bytes (rule * option subSnapshot); carries : gmap bytes carrySet }.

Definition set_subs (c : Catalog) (s : gmap bytes (rule * option subSnapshot)) : Catalog :=
  mkCatalog (crules c) (idx c) s (carries c).
Definition set_carries (c : Catalog) (k : gmap bytes carrySet) : Catalog :=
  mkCatalog (crules c) (idx c) (subs c) k.

(** The last part of [buildIndex] and [ParseCatalog]. *)
Definition newCatalog (rules : list rule) : Catalog :=
  mkCatalog rules (buildIndex rules)
    (foldl (fun s r => <[id r := (r, None)]> s) ∅ (filter (fun r => class r = ClassSubscription) rules)) ∅.

(** ** Subscriptions *)

(** [periodBounds]: civil dates in the rule's location. *)
Definition periodBounds (p : Period) (at_ : Z) (l : Location) : Z * Z :=
  let w := wall l at_ in
  let y := Time.Year w in
  let mo := Time.Month w in
  let d := Time.MDay w in
  match p with
  | PeriodDaily => (instant l (Time.Date y mo d), instant l (Time.Date y mo (d + 1)))
  | PeriodWeekly =>
      let back := (Time.Weekday w + 6) mod 7 in
      (instant l (Time.Date y mo (d - back)), instant l (Time.Date y mo (d - back + 7)))
  | PeriodYearly => (instant l (Time.Date y 1 1), instant l (Time.Date (y + 1) 1 1))
  | PeriodMonthly => (instant l (Time.Date y mo 1), instant l (Time.Date y (mo + 1) 1))
  end.

Definition accrue (amount : u128) (at_ start end_ : Z) : res u128 :=
  let span := Time.Sub end_ start in
  if isZero amount || (span <=? 0) then ret (mkU128 0 0)
  else
    let elapsed := Time.Sub at_ start in
    let elapsed := if elapsed <? 0 then 0 else elapsed in
    if span <=? elapsed then ret amount
    else
      match mulDiv amount (u64 elapsed) (u64 span) with
      | None => None
      | Some (v, _, ok) => if ok then ret v else fail EOverflow
      end.

(** [subscriptionShare]: the accumulators after it, and the share. [now] is the
    catalogue's clock. *)
Definition subscriptionShare (ss : gmap bytes (rule * option subSnapshot)) (r : rule) (at_ now : Z) (mutate : bool)
  : gmap bytes (rule * option subSnapshot) * res amt :=
  match ss !! id r with
  | None => (ss, fail EStateMissing)
  | Some (own, snap) =>
      let at_ := if mutate && Time.After at_ now then now else at_ in
      let '(start, end_) := periodBounds (period r) at_ (loc r) in
      let late := match snap with Some s => Time.After (periodStart s) start | None => false end in
      let attr := match snap with
                  | Some s => if periodStart s =? start then attributed s else mkU128 0 0
                  | None => mkU128 0 0 end in
      if late then (ss, ret zeroAmt)
      else
        match accrue (amountAtto r) at_ start end_ with
        | Some (Ok accrued) =>
            if cmp accrued attr <=? 0 then (ss, ret zeroAmt)
            else
              let '(share, _) := sub accrued attr in
              (if mutate then <[id r := (own, Some (mkSnapshot start accrued))]> ss else ss, ret (attoAmt share))
        | Some (Err e) => (ss, fail e)
        | None => (ss, None)
        end
  end.

(** ** Adjustments *)

Definition mul64 (a b : Z) : option (Z * bool) :=
  match mulDiv (u64To128 a) b 1 with
  | None => None
  | Some (p, _, ok) => if negb ok || negb (hi p =? 0) then Some (0, false) else Some (lo p, true)
  end.

Definition adjustmentDelta (r : rule) (base : amt) : res amt :=
  match op r with
  | AdjAdd => ret (mkAmt (dneg (adjAmount r) && negb (isZero (adjAtto r))) (adjAtto r))
  | AdjMultiply =>
      match pow10_at (scale (adjAmount r)) with
      | None => None
      | Some p =>
          let$ scaled := checked_opt (mulDivAmt base (units (adjAmount r)) p) in
          checked (addAmt scaled (negate base))
      end
  | AdjPercent =>
      match pow10_at (scale (adjAmount r)) with
      | None => None
      | Some p =>
          let$ den := checked_opt (mul64 100 p) in
          let$ delta := checked_opt (mulDivAmt base (units (adjAmount r)) den) in
          ret (if dneg (adjAmount r) then negate delta else delta)
      end
  end.

(** The comparison of [applyAdjustments]. *)
Definition adj_cmp (a b : rule) : Z :=
  if negb (order a =? order b) then i64 (order a - order b)
  else if negb (priority a =? priority b) then i64 (priority b - priority a)
  else if lexb (id a) (id b) then -1 else if lexb (id b) (id a) then 1 else 0.

Definition adj_before : relation rule := fun a b => adj_cmp a b <= 0.
#[global] Instance adj_before_dec a b : Decision (adj_before a b).
Proof. unfold adj_before. apply _. Defined.

Inductive Reason : Type := ReasonMostSpecific | ReasonAllApply.
Record Applied : Type := mkApplied {
  ARuleID : bytes; AClass : Class; ALevel : Level; APriority : Z; AOrder : Z; AReason : Reason }.

Definition adj_base (r : rule) (running marginal subscription : amt) : amt :=
  match appliesTo r with BaseMarginal => marginal | BaseSubscription => subscription | BaseTotal => running end.

Fixpoint adjust_loop (rs : list rule) (marginal subscription running netAdj : amt) (applied : list Applied)
  : res (amt * list Applied) :=
  match rs with
  | [] => ret (netAdj, applied)
  | r :: rs' =>
      let$ delta := adjustmentDelta r (adj_base r running marginal subscription) in
      let$ running := checked (addAmt running delta) in
      let$ netAdj := checked (addAmt netAdj delta) in
      adjust_loop rs' marginal subscription running netAdj
        (applied ++ [mkApplied (id r) ClassAdjustment (level r) (priority r) (order r) ReasonAllApply])
  end.

Definition applyAdjustments (c : Catalog) (req : Request) (at_ : Z) (marginal subscription : amt)
    (applied : list Applied) : res (amt * list Applied) :=
  let ix := idx c ClassAdjustment in
  if icount ix =? 0 then ret (zeroAmt, applied)
  else
    match collectAll ix req at_ with
    | [] => ret (zeroAmt, applied)
    | rs =>
        let$ running := checked (addAmt marginal subscription) in
        adjust_loop (merge_sort adj_before rs) marginal subscription running zeroAmt applied
    end.

(** ** Rounding *)

Definition settlementBucket (req : Request) : bytes :=
  if negb (is_empty (Settlement req)) then Settlement req else Credential req.

(** [roundOut]: the carries after it, and the four amounts. *)
Definition roundOut (ks : gmap bytes carrySet) (req : Request) (settle priced : bool) (m s a n : amt)
  : gmap bytes carrySet * res (Z * Z * Z * Z) :=
  let b := settlementBucket req in
  let carry := if settle then default zeroCarry (ks !! b) else zeroCarry in
  let ks := if settle then <[b := carry]> ks else ks in
  let store k := if settle then <[b := k]> ks else ks in
  if negb priced then
    match rounded n (k_notional carry) with
    | Some (Ok (nNano, nCarry)) =>
        (store (mkCarry (k_marginal carry) (k_subscription carry) (k_adjustment carry) nCarry), ret (0, 0, 0, nNano))
    | Some (Err e) => (ks, fail e)
    | None => (ks, None)
    end
  else
    match
      (let$ (mNano, mCarry) := rounded m (k_marginal carry) in
       let$ (sNano, sCarry) := rounded s (k_subscription carry) in
       let$ (aNano, aCarry) := rounded a (k_adjustment carry) in
       let$ (nNano, nCarry) := rounded n (k_notional carry) in
       ret (mNano, sNano, aNano, nNano, mkCarry mCarry sCarry aCarry nCarry))
    with
    | Some (Ok (mNano, sNano, aNano, nNano, k)) => (store k, ret (mNano, sNano, aNano, nNano))
    | Some (Err e) => (ks, fail e)
    | None => (ks, None)
    end.

(** ** The whole price *)

Record Cost : Type := mkCost {
  MarginalNano : Z; SubscriptionNano : Z; AdjustmentNano : Z; TotalNano : Z; NotionalNano : Z;
  Components : list Component; AppliedRules : list Applied; Missing : bool;
  NoPrice : NoPriceReason; NoPriceRule : bytes; NoPriceQuantity : bytes;
  ReportedPriced : bool; ReportedFallback : bool; Floored : bool;
  UtilizationPriced : bool; UtilizationMultiplierPPM : Z; CUtilizationPPM : Z;
  UtilizationCeilingPPM : Z; UtilizationCeiling : bool; UtilizationFallback : UtilFallback;
  NotionalMissing : bool }.

(** What the marginal class leaves in the cost, and its exact amount. *)
Record marginal_part : Type := mkMarginal {
  p_amt : amt; p_comps : list Component; p_applied : list Applied; p_missing : bool;
  p_noprice : NoPriceReason; p_rule : bytes; p_quantity : bytes; p_reported : bool; p_fallback : bool;
  p_util : bool; p_factor : Z; p_utilPPM : Z; p_ceilingPPM : Z; p_ceiling : bool; p_utilfb : UtilFallback }.

Definition marginalClass (c : Catalog) (req : Request) (at_ : Z) : res marginal_part :=
  match selectWinner (idx c ClassMarginal) req at_ with
  | None => ret (mkMarginal zeroAmt [] [] true NoPriceNone [] [] false false false 0 0 0 false UtilFallbackNone)
  | Some w =>
      let applied := [mkApplied (id w) ClassMarginal (level w) (priority w) 0 ReasonMostSpecific] in
      let '(why, what) := noPriceReason w req in
      if bool_decide (why <> NoPriceNone) then
        ret (mkMarginal zeroAmt [] applied false why (id w) what false false false 0 0 0 false UtilFallbackNone)
      else
        let$ (m, comps) := evalUsage w req (Some []) in
        let reported := is_set (rates w) cReportedCost && ReportedCostStated req in
        let fallback := is_set (rates w) cReportedCost && negb (ReportedCostStated req) in
        if declared (util w) && negb reported then
          let$ f := applyUtilization w req m comps in
          ret (mkMarginal (f_amt f) (default [] (f_comps f)) applied false NoPriceNone [] [] reported fallback
                 true (f_ppm f)
                 (match f_fallback f with UtilFallbackNone => UtilizationPPM req | _ => 0 end)
                 (match util w with Some u => ceilingPPM u | None => 0 end) (f_ceiling f) (f_fallback f))
        else
          ret (mkMarginal m (default [] comps) applied false NoPriceNone [] [] reported fallback
                 false 0 0 0 false UtilFallbackNone)
  end.

Definition unpriced (p : marginal_part) : bool := bool_decide (p_noprice p <> NoPriceNone).

(** The subscription part: accumulators, share, applied rules. *)
Definition subscriptionClass (c : Catalog) (req : Request) (at_ now : Z) (settle : bool) (p : marginal_part)
  : Catalog * res (amt * list Applied) :=
  match selectWinner (idx c ClassSubscription) req at_ with
  | Some sub =>
      if unpriced p then (c, ret (zeroAmt, p_applied p))
      else
        let '(ss, share) := subscriptionShare (subs c) sub at_ now settle in
        (set_subs c ss,
         let$ s := share in
         ret (s, p_applied p ++ [mkApplied (id sub) ClassSubscription (level sub) (priority sub) 0 ReasonMostSpecific]))
  | None => (c, ret (zeroAmt, p_applied p))
  end.

Definition notionalClass (c : Catalog) (req : Request) (at_ : Z) (applied : list Applied)
  : res (amt * bool * list Applied) :=
  match selectWinner (idx c ClassNotional) req at_ with
  | Some n =>
      if notionalPriceable n req then
        let$ (v, _) := evalUsage n req None in
        ret (v, false, applied ++ [mkApplied (id n) ClassNotional (level n) (priority n) 0 ReasonMostSpecific])
      else ret (zeroAmt, true, applied)
  | None => ret (zeroAmt, true, applied)
  end.

(** The end of [compute]: the sum of the three billing classes, floored. *)
Definition total_up (p : marginal_part) (applied : list Applied) (nmissing : bool) (mNano sNano aNano nNano : Z)
  : res Cost :=
  let$ t1 := addNano_ mNano sNano in
  let$ total := addNano_ t1 aNano in
  let floored := total <? 0 in
  ret (mkCost mNano sNano (if floored then i64 (aNano - total) else aNano) (if floored then 0 else total) nNano
         (p_comps p) applied (p_missing p) (p_noprice p) (p_rule p) (p_quantity p) (p_reported p) (p_fallback p)
         floored (p_util p) (p_factor p) (p_utilPPM p) (p_ceilingPPM p) (p_ceiling p) (p_utilfb p) nmissing).

(** [compute]: the catalogue after it, and the cost. [tnow] is [time.Now()],
    read when the request has no instant; [now] the catalogue's clock. *)
Definition compute (c : Catalog) (req : Request) (settle : bool) (tnow now : Z) : Catalog * res Cost :=
  let at_ := if Time.IsZero (At req) then tnow else At req in
  match marginalClass c req at_ with
  | None => (c, None)
  | Some (Err e) => (c, fail e)
  | Some (Ok p) =>
      let '(c1, sub) := subscriptionClass c req at_ now settle p in
      match sub with
      | None => (c1, None)
      | Some (Err e) => (c1, fail e)
      | Some (Ok (subscription, applied)) =>
          match
            (let$ (adjustment, applied) :=
               (if unpriced p then ret (zeroAmt, applied)
                else applyAdjustments c1 req at_ (p_amt p) subscription applied) in
             let$ (notional, nmissing, applied) := notionalClass c1 req at_ applied in
             ret (adjustment, notional, nmissing, applied))
          with
          | None => (c1, None)
          | Some (Err e) => (c1, fail e)
          | Some (Ok (adjustment, notional, nmissing, applied)) =>
              let '(ks, r) := roundOut (carries c1) req settle (negb (unpriced p)) (p_amt p) subscription adjustment notional in
              let c2 := set_carries c1 ks in
              (c2, let$ (mNano, sNano, aNano, nNano) := r in total_up p applied nmissing mNano sNano aNano nNano)
          end
      end
  end.

(** [Catalog.Price] and [Catalog.Settle]. *)
Definition Price (c : Catalog) (req : Request) (tnow : Z) : res Cost := snd (compute c req false tnow 0).
Definition Settle (c : Catalog) (req : Request) (tnow now : Z) : Catalog * res Cost := compute c req true tnow now.
