(* ===== verification/PriceUsage.v ===== *)
(** * What a rule charges, exactly

    Results that never panic, exact component values, the sum a rate table
    charges, and graduated tiers as a price per token. *)
From Stdlib Require Import String.
From stdpp Require Import base gmap list sorting.
From Stdlib Require Import ZArith Lia SpecFloat.
From S2P Require Import Prelude U128 Decimal GoTime F64 PriceCatalog PriceSelect Price.
Open Scope Z_scope.
Open Scope go_scope.

(** ** Results *)

(** [x] does not panic, what it returns has [P] and an error it reports has [E]. *)
Definition yields {A} (E : price_error -> Prop) (P : A -> Prop) (x : res A) : Prop :=
  match x with Some (Ok a) => P a | Some (Err e) => E e | None => False end.

Definition any_error (e : price_error) : Prop := True.

Lemma yields_bind {A B} E (P : A -> Prop) (Q : B -> Prop) x (k : A -> res B) :
  yields E P x -> (forall a, P a -> yields E Q (k a)) -> yields E Q (let$ a := x in k a).
Proof. destruct x as [[a|e]|]; cbn; auto. Qed.

Lemma yields_impl {A} (E E' : price_error -> Prop) (P Q : A -> Prop) x :
  yields E P x -> (forall e, E e -> E' e) -> (forall a, P a -> Q a) -> yields E' Q x.
Proof. destruct x as [[a|e]|]; cbn; auto. Qed.

Lemma yields_any {A} E (P : A -> Prop) x : yields E P x -> yields any_error P x.
Proof. intros H. eapply yields_impl; [exact H|done|done]. Qed.

Lemma yields_ret {A} E (P : A -> Prop) a : P a -> yields E P (ret a).
Proof. done. Qed.

(** The smallest amount that rounds beyond an [int64] of nano-units, and the
    only error exact arithmetic makes. *)
Definition limit : Z := two63 * attoPerNano - 500000000.
Definition too_big (z : Z) (e : price_error) : Prop := e = EOverflow /\ limit <= z.

Lemma too_big_le z z' e : too_big z e -> z <= z' -> too_big z' e.
Proof. intros [-> H] L. split; [done|lia]. Qed.

Lemma limit_two128 : limit <= two128.
Proof. unfold limit, attoPerNano. widths. unfold two128. lia. Qed.

(** ** Amounts *)

Lemma awf_zero : awf zeroAmt.
Proof. split; [apply wf_intro; widths; lia|done]. Qed.

Lemma sval_zero : sval zeroAmt = 0.
Proof. done. Qed.

Lemma addAmt_yields a b : awf a -> awf b ->
  yields (too_big (Z.abs (sval a + sval b))) (fun r => awf r /\ sval r = sval a + sval b) (checked (addAmt a b)).
Proof.
  intros Ha Hb. destruct (addAmt a b) as [r ok] eqn:E. apply addAmt_sval in E as (_ & H & Eo); [|done|done].
  destruct ok; cbn; auto. symmetry in Eo. apply Z.ltb_ge in Eo. pose proof limit_two128. split; [done|lia].
Qed.

Lemma half_even_limit t : 0 <= t -> maxInt64 < half_even t -> limit <= t.
Proof.
  intros H. pose proof (half_even_bound t H) as (_ & B & _). unfold limit, maxInt64, attoPerNano in *. widths. lia.
Qed.

Lemma rounded_yields v c : awf v -> 2 * Z.abs c <= attoPerNano ->
  yields (too_big (Z.abs (sval v + c)))
    (fun '(nano, c') => is_i64 nano /\ nano * attoPerNano + c' = sval v + c /\ 2 * Z.abs c' <= attoPerNano /\
            nano = Z.sgn (sval v + c) * half_even (Z.abs (sval v + c)))
    (rounded v c).
Proof.
  intros Hv Hc. unfold rounded.
  destruct (roundToNano_spec v c Hv) as (n & c' & err & -> & H); [unfold attoPerNano in *; lia|].
  destruct (_ && _) eqn:E; [destruct H as (-> & ? & ? & ? & ? & _)|destruct H as (-> & _)]; cbn; auto.
  split; [done|]. apply andb_false_iff in E as [E|E].
  - apply Z.ltb_ge in E. pose proof limit_two128. lia.
  - apply Z.leb_gt in E. apply half_even_limit; [lia|done].
Qed.

(** ** Rates *)

(** A rate divides by the quanta it covers: its price per quantum is exact. *)
Definition rate_ok (i : component) (rt : rate) : Prop :=
  wf (ratto rt) /\ val (ratto rt) mod divisor (componentInfo i) = 0.
Definition rates_ok (rs : rateSet) : Prop := forall i rt, rs i = Some rt -> rate_ok i rt.

(** The exact price of one quantum, in atto-units. *)
Definition unit_price (i : component) (rt : rate) : Z := val (ratto rt) / divisor (componentInfo i).

Lemma divisor_range i : 0 < divisor (componentInfo i) < two64.
Proof. destruct i; cbn; unfold microsPerSecond, nanosPerUnit; widths; lia. Qed.

Lemma unit_price_nonneg i rt : rate_ok i rt -> 0 <= unit_price i rt.
Proof. intros [W _]. pose proof (val_range _ W). pose proof (divisor_range i). apply Z.div_pos; lia. Qed.

Lemma componentValue_yields i rt qty : rate_ok i rt -> 0 <= qty < two63 ->
  yields (too_big (unit_price i rt * qty)) (fun v => awf v /\ sval v = unit_price i rt * qty)
    (componentValue (ratto rt) qty (divisor (componentInfo i))).
Proof.
  intros [W D] Hq. unfold componentValue. pose proof (divisor_range i) as Hd.
  rewrite u64_id by (widths; lia).
  destruct (mulDiv_val (ratto rt) qty (divisor (componentInfo i))) as (q & r & ok & -> & Hw & _ & V & Eo);
    [done|widths; lia|widths; lia|lia|].
  unfold unit_price. apply Z.mod_divide in D as [k D]; [|lia]. rewrite D in *.
  rewrite Z.div_mul by lia. replace (k * divisor (componentInfo i) * qty) with (k * qty * divisor (componentInfo i)) in * by lia.
  rewrite Z.div_mul in * by lia. pose proof (val_range _ W).
  assert (0 <= k * qty) by nia.
  destruct ok; cbn; symmetry in Eo; [apply Z.ltb_lt in Eo|apply Z.ltb_ge in Eo; pose proof limit_two128; split; [done|lia]].
  rewrite Z.mod_small in V by lia. unfold awf, sval. cbn. auto.
Qed.

Lemma appendComponent_yields comps r i text qty v : awf v ->
  yields (too_big (Z.abs (sval v))) (fun _ => True) (appendComponent comps r i text qty v).
Proof.
  intros W. unfold appendComponent. destruct comps as [cs|]; [|done].
  rewrite <- (Z.add_0_r (sval v)). eapply yields_bind; [apply rounded_yields; [done|unfold attoPerNano; lia]|]. by intros [].
Qed.

(** ** Quantities *)

Lemma scaled_total d : 0 <= scale d <= maxPriceScale -> scaled d 6 <> None.
Proof.
  unfold scaled, maxPriceScale. intros H. destruct (Z.ltb_spec 6 (scale d)); [done|]. unfold pow10_at.
  rewrite (proj2 (Z.ltb_ge _ _)) by lia.
  assert (In (scale d) [0; 1; 2; 3; 4; 5; 6]) as C by (cbn; lia).
  assert (nth_error pow10 (Z.to_nat (6 - scale d)) <> None) as N by (repeat destruct C as [<-|C]; done).
  destruct (nth_error _ _) as [p|]; [|done]. destruct (Mul64 (units d) p). by case_match.
Qed.

Lemma secondsToMicros_yields s : yields any_error (fun q => 0 <= q < two63) (secondsToMicros s).
Proof.
  destruct s as [| | |[] m e]; cbn [secondsToMicros]; try done; try (cbn; widths; lia).
  destruct (F64.gt _ _); [done|].
  destruct (parseDecimal (AppendFloat6 m e)) as [d|er] eqn:E; cbn [lift ret fail]; [|done].
  destruct (parseDecimal_accepts_literal _ _ E) as (ng & sgn & ip & dot & fp & L).
  rewrite (parseDecimal_of_literal _ _ _ _ _ _ L) in E. destruct L as (_ & _ & _ & Hi & Hf & _).
  destruct (literal_result_exact _ _ _ _ _ Hi Hf E) as (U & Sc & _).
  destruct (scaled d 6) as [[q|]|] eqn:Es; [|done|by apply scaled_total in Es].
  assert (0 <= q) as Hq.
  { unfold scaled in Es. destruct (6 <? scale d); [done|]. destruct (pow10_at _); [|done].
    unfold Mul64 in Es. destruct (negb _); [done|]. injection Es as <-. apply u64_range. }
  destruct (Z.ltb_spec maxInt64 q); [done|]. cbn. unfold maxInt64 in *. rewrite i64_id; widths; lia.
Qed.

(** Token counts and the like are [int64] fields. *)
Definition req_ok (req : Request) : Prop :=
  is_i64 (InputTokens req) /\ is_i64 (OutputTokens req) /\ is_i64 (CacheReadTokens req) /\
  is_i64 (CacheWriteTokens req) /\ is_i64 (ReasoningTokens req) /\ is_i64 (WebSearches req) /\
  is_i64 (ImageInputTokens req) /\ is_i64 (ImageOutputTokens req) /\ is_i64 (Requests req) /\
  is_i64 (Characters req) /\ is_i64 (ReportedCostNano req) /\
  - two31 <= UtilizationPPM req < two31.

Lemma quantityOf_yields i req : req_ok req -> yields any_error (fun q => 0 <= q < two63) (quantityOf i req).
Proof.
  intros (? & ? & ? & ? & ? & ? & ? & ? & ? & ? & ? & _).
  destruct i; cbn [quantityOf]; try apply secondsToMicros_yields;
    match goal with |- context [?q <? 0] => destruct (Z.ltb_spec q 0) end; cbn; try done;
    try (destruct (Z.eqb_spec (Requests req) 0)); widths; lia.
Qed.

Lemma chargedQuantity_yields i req cin cout : req_ok req ->
  yields any_error (fun q => 0 <= q < two63) (chargedQuantity i req cin cout).
Proof.
  intros R. eapply yields_bind; [by apply quantityOf_yields|]. intros q Hq. cbn.
  pose proof (i64_range (q - cin)). pose proof (i64_range (q - cout)).
  destruct i; (destruct (_ <? 0) eqn:E; [|apply Z.ltb_ge in E]); widths; lia.
Qed.

(** ** The sum a rate table charges *)

(** What a component is charged, zero when it has no rate or no quantity. *)
Definition line (rs : rateSet) (req : Request) (cin cout : Z) (i : component) : Z :=
  match rs i with
  | None => 0
  | Some rt =>
      if bool_decide (i = cReportedCost) then 0
      else match chargedQuantity i req cin cout with Some (Ok q) => unit_price i rt * q | _ => 0 end
  end.

Definition sum_lines (rs : rateSet) (req : Request) (cin cout : Z) (todo : list component) : Z :=
  foldr Z.add 0 (map (line rs req cin cout) todo).

(** *** Sums over token numbers *)

(** The sum of [f] over the tokens after [lo] up to [hi]. *)
Definition tok_sum (f : Z -> Z) (lo hi : Z) : Z :=
  foldr Z.add 0 (map (fun j => f (lo + 1 + Z.of_nat j)) (seq 0 (Z.to_nat (hi - lo)))).

Lemma sum_app (l l' : list Z) : foldr Z.add 0 (l ++ l') = foldr Z.add 0 l + foldr Z.add 0 l'.
Proof. induction l as [|x l IH]; cbn; lia. Qed.

Lemma tok_split f lo mid hi : lo <= mid <= hi -> tok_sum f lo hi = tok_sum f lo mid + tok_sum f mid hi.
Proof.
  intros L. unfold tok_sum. replace (Z.to_nat (hi - lo)) with (Z.to_nat (mid - lo) + Z.to_nat (hi - mid))%nat by lia.
  rewrite seq_app, map_app, sum_app. f_equal. f_equal.
  rewrite <- (Nat.add_0_r (0 + _)), <- fmap_add_seq, map_map. apply map_ext. intros j. f_equal. lia.
Qed.

Lemma tok_const f lo hi c : lo <= hi -> (forall k, lo < k <= hi -> f k = c) -> tok_sum f lo hi = c * (hi - lo).
Proof.
  intros L E. unfold tok_sum. replace (hi - lo) with (Z.of_nat (Z.to_nat (hi - lo))) at 2 by lia.
  assert (forall n, (n <= Z.to_nat (hi - lo))%nat ->
    foldr Z.add 0 (map (fun j => f (lo + 1 + Z.of_nat j)) (seq 0 n)) = c * Z.of_nat n) as H; [|by apply H].
  induction n as [|n IH]; intros Ln; [cbn; lia|].
  rewrite seq_S, map_app, sum_app, IH by lia. cbn. rewrite E by lia. lia.
Qed.

Lemma tok_ext f g lo hi : (forall k, lo < k <= hi -> f k = g k) -> tok_sum f lo hi = tok_sum g lo hi.
Proof.
  intros E. unfold tok_sum. f_equal. apply map_ext_in. intros j Hj. apply in_seq in Hj. apply E. lia.
Qed.

Lemma tok_empty f lo hi : hi <= lo -> tok_sum f lo hi = 0.
Proof. intros L. unfold tok_sum. by replace (Z.to_nat (hi - lo)) with O by lia. Qed.

(** *** Graduated tiers *)

(** What the input rate of a tier charges for one token. *)
Definition input_price (t : tier) : Z := match trates t cInput with Some rt => unit_price cInput rt | None => 0 end.

(** The price of the [k]-th input token: that of the first tier that reaches it. *)
Fixpoint token_price (ts : list tier) (k : Z) : Z :=
  match ts with
  | [] => 0
  | t :: ts' => match upTo t with
                | None => input_price t
                | Some u => if k <=? u then input_price t else token_price ts' k
                end
  end.

(** Ascending bounds, and only the last tier unbounded. *)
Fixpoint ascending (prev : Z) (ts : list tier) : Prop :=
  match ts with
  | [] => True
  | t :: ts' => match upTo t with
                | None => ts' = []
                | Some u => prev <= u < two63 /\ ascending u ts'
                end
  end.

Lemma graded_done r ts skip prev total comps : graded_loop r ts 0 skip prev total comps = ret (total, comps).
Proof. by destruct ts. Qed.

Lemma input_price_nonneg t : rates_ok (trates t) -> 0 <= input_price t.
Proof. intros R. unfold input_price. destruct (trates t cInput) eqn:E; [|lia]. by apply unit_price_nonneg, R. Qed.

Lemma token_price_nonneg ts k : Forall (fun t => rates_ok (trates t)) ts -> 0 <= token_price ts k.
Proof.
  induction 1 as [|t ts Rt _ IH]; cbn; [lia|].
  destruct (upTo t); [destruct (_ <=? _)|]; auto using input_price_nonneg.
Qed.

Lemma tok_sum_nonneg f lo hi : (forall k, 0 <= f k) -> 0 <= tok_sum f lo hi.
Proof.
  intros F. unfold tok_sum. induction (seq 0 _) as [|j l IH]; cbn; [lia|]. specialize (F (lo + 1 + Z.of_nat j)). lia.
Qed.

(** Charging [n] tokens of a tier, or none. *)
Lemma tier_charge B t n : rates_ok (trates t) -> 0 <= n < two63 -> forall r total comps (k : amt -> option (list Component) -> res (amt * option (list Component))) x,
  awf total -> 0 <= sval total -> sval total + input_price t * n <= B ->
  (forall total' comps', awf total' -> sval total' = sval total + input_price t * n -> yields (too_big B) x (k total' comps')) ->
  yields (too_big B) x
    match trates t cInput with
    | Some rt =>
        if n <=? 0 then k total comps
        else
          let$ v := componentValue (ratto rt) n (divisor (componentInfo cInput)) in
          let$ total := checked (addAmt total v) in
          let$ comps := appendComponent comps r cInput (rtext rt) n v in
          k total comps
    | None => k total comps
    end.
Proof.
  intros R Hn r total comps k x W N L K. pose proof (input_price_nonneg t R) as P. unfold input_price in *.
  destruct (trates t cInput) as [rt|] eqn:E; [|apply K; auto; lia].
  destruct (Z.leb_spec n 0); [apply K; auto; replace n with 0 by lia; lia|]. assert (0 <= unit_price cInput rt * n) by nia.
  eapply yields_bind; [eapply yields_impl; [apply componentValue_yields; [by apply R|done]|intros e H'; apply (too_big_le _ _ _ H'); lia|done]|].
  intros v [Wv Sv].
  eapply yields_bind; [eapply yields_impl; [by apply addAmt_yields|intros e H'; apply (too_big_le _ _ _ H'); lia|done]|].
  intros total' [Wt St].
  eapply yields_bind; [eapply yields_impl; [by apply appendComponent_yields|intros e H'; apply (too_big_le _ _ _ H'); lia|done]|].
  intros comps' _. apply K; [done|]. lia.
Qed.

Lemma graded_loop_yields B r input : 0 <= input < two63 -> forall ts prev skip total comps,
  Forall (fun t => rates_ok (trates t)) ts -> ascending prev ts -> 0 <= prev <= input ->
  Z.max 0 skip <= input - prev -> is_i64 skip -> awf total -> 0 <= sval total ->
  sval total + tok_sum (token_price ts) (prev + Z.max 0 skip) input <= B ->
  yields (too_big B) (fun '(a, _) => awf a /\ sval a = sval total + tok_sum (token_price ts) (prev + Z.max 0 skip) input)
    (graded_loop r ts (input - prev) skip prev total comps).
Proof.
  intros Hi. induction ts as [|t ts IH]; intros prev skip total comps R As Hp Hs Hk W N L; cbn [graded_loop].
  { cbn. split; [done|]. rewrite (tok_const _ _ _ 0); [lia|lia|done]. }
  apply Forall_cons in R as [Rt R]. pose proof (input_price_nonneg t Rt) as Pt.
  assert (forall lo, 0 <= tok_sum (token_price ts) lo input) as Pr by (intros lo; apply tok_sum_nonneg; eauto using token_price_nonneg).
  destruct (Z.leb_spec (input - prev) 0).
  { cbn. rewrite tok_empty by lia. split; [done|lia]. }
  cbn [ascending] in As. set (s := Z.max 0 skip) in *.
  assert (forall span, 0 < span < two63 ->
    (if 0 <? skip then (i64 (span - Z.min skip span), i64 (skip - Z.min skip span)) else (span, skip)) =
    (span - Z.min s span, if 0 <? skip then skip - Z.min s span else skip)) as Sk.
  { intros span Hspan. unfold s. destruct (Z.ltb_spec 0 skip).
    - rewrite Z.max_r by lia. rewrite !i64_id by (widths; lia). done.
    - rewrite Z.max_l by lia. f_equal. lia. }
  destruct (upTo t) as [u|] eqn:Eu.
  - destruct As as [Hu As].
    assert ((if input - prev <? i64 (u - prev) then input - prev else i64 (u - prev)) = Z.min (input - prev) (u - prev)) as ->.
    { rewrite i64_id by (widths; lia). destruct (Z.ltb_spec (input - prev) (u - prev)); lia. }
    destruct (Z.leb_spec (Z.min (input - prev) (u - prev)) 0).
    + assert (u = prev) as -> by lia.
      assert (tok_sum (token_price (t :: ts)) (prev + s) input = tok_sum (token_price ts) (prev + s) input) as Same.
      { apply tok_ext. intros k Hk'. cbn [token_price]. rewrite Eu. by rewrite (proj2 (Z.leb_gt k prev)) by lia. }
      rewrite Same in L |- *. by apply IH.
    + set (span := Z.min (input - prev) (u - prev)) in *. rewrite Sk by (widths; lia).
      rewrite (i64_id (input - prev - span)) by (widths; lia).
      assert (tok_sum (token_price (t :: ts)) (prev + s) input =
        input_price t * (span - Z.min s span) + tok_sum (token_price ts) (Z.max (prev + s) (prev + span)) input) as Split.
      { rewrite (tok_split _ (prev + s) (Z.max (prev + s) (prev + span)) input) by lia. f_equal.
        - rewrite (tok_const _ _ _ (input_price t)); [lia|lia|]. intros k Hk'. cbn [token_price]. rewrite Eu.
          by rewrite (proj2 (Z.leb_le k u)) by lia.
        - destruct (decide (u < input)).
          + apply tok_ext. intros k Hk'. cbn [token_price]. rewrite Eu. by rewrite (proj2 (Z.leb_gt k u)) by lia.
          + rewrite !tok_empty by lia. done. }
      rewrite Split in L |- *. pose proof (Pr (Z.max (prev + s) (prev + span))) as Pr'.
      assert (0 <= input_price t * (span - Z.min s span)) by nia.
      apply (tier_charge B t (span - Z.min s span)); [done|widths; lia|done|done|lia|]. intros total' comps' Wt St.
      destruct (decide (u < input)) as [Lu|Lu].
      * assert (u + Z.max 0 (if 0 <? skip then skip - Z.min s span else skip) = Z.max (prev + s) (prev + span)) as Em
          by (unfold s; destruct (Z.ltb_spec 0 skip); lia).
        replace (input - prev - span) with (input - u) by lia. eapply yields_impl; [apply IH; try done; try lia|done|].
        -- unfold s. destruct (Z.ltb_spec 0 skip); widths; lia.
        -- rewrite Em. lia.
        -- intros [a c] [Wa Sa]. split; [done|]. rewrite Sa, Em. lia.
      * replace (input - prev - span) with 0 by lia. rewrite graded_done. apply yields_ret. split; [done|].
        rewrite St, (tok_empty _ (Z.max _ _)) by lia. lia.
  - rewrite (proj2 (Z.leb_gt (input - prev) 0)) by lia.
    rewrite Sk by (widths; lia). replace (i64 (input - prev - (input - prev))) with 0 by (rewrite i64_id; widths; lia).
    assert (tok_sum (token_price (t :: ts)) (prev + s) input = input_price t * (input - (prev + s))) as Flat
      by (apply tok_const; [lia|]; intros k Hk'; cbn [token_price]; by rewrite Eu).
    rewrite Flat in L |- *.
    apply (tier_charge B t (input - prev - Z.min s (input - prev))); [done|widths; lia|done|done|rewrite (Z.min_l s) by lia; lia|].
    intros total' comps' Wt St. rewrite graded_done. apply yields_ret. split; [done|]. rewrite St, (Z.min_l s) by lia. lia.
Qed.

(** ** The whole rule *)

(** What loading a rule establishes of its rates and tiers. *)
Definition usage_ok (r : rule) : Prop :=
  rates_ok (rates r) /\ Forall (fun t => rates_ok (trates t)) (tiers r) /\ ascending 0 (tiers r).

Definition graduated (r : rule) : bool :=
  match tierMode r with TierGraduated => true | TierThreshold => false end && bool_decide (tiers r <> []).

(** The charge of a component: its line, or the graduated price of the tokens
    that no more specific rate charges. *)
Definition charge (r : rule) (req : Request) (i : component) : Z :=
  let rs := effectiveRates r req in
  if graduated r && bool_decide (i = cInput)
  then tok_sum (token_price (tiers r)) (Z.max 0 (Z.min (carvedInput rs req) (InputTokens req))) (InputTokens req)
  else line rs req (carvedInput rs req) (carvedOutput rs req) i.

(** The exact price of the request under the rule, in atto-units. *)
Definition usage_total (r : rule) (req : Request) : Z :=
  let rs := effectiveRates r req in
  if activeReported rs req
  then match rs cReportedCost with Some rt => unit_price cReportedCost rt * ReportedCostNano req | None => 0 end
  else foldr Z.add 0 (map (charge r req) components).

Lemma selectTier_elem t ts input : selectTier t ts input ∈ t :: ts.
Proof.
  revert t. induction ts as [|t' ts IH]; intros t; cbn; destruct (upTo t); try destruct (_ <=? _); try (left; done).
  right. apply IH.
Qed.

Lemma effectiveRates_ok r req : usage_ok r -> rates_ok (effectiveRates r req).
Proof.
  intros (H1 & H2 & _). unfold effectiveRates. destruct (tiers r) as [|t ts]; [done|].
  eapply Forall_forall in H2; [exact H2|]. apply selectTier_elem.
Qed.

Lemma charge_nonneg r req i : usage_ok r -> req_ok req -> 0 <= charge r req i.
Proof.
  intros U R. unfold charge. destruct (_ && _).
  - apply tok_sum_nonneg. intros k. apply token_price_nonneg. apply U.
  - unfold line. destruct (effectiveRates r req i) as [rt|] eqn:E; [|lia]. destruct (bool_decide _); [lia|].
    pose proof (chargedQuantity_yields i req (carvedInput (effectiveRates r req) req)
      (carvedOutput (effectiveRates r req) req) R) as Q.
    destruct (chargedQuantity _ _ _ _) as [[q|]|]; [|lia|lia]. cbn in Q.
    pose proof (unit_price_nonneg i rt (effectiveRates_ok r req U i rt E)). nia.
Qed.

Lemma charges_nonneg r req l : usage_ok r -> req_ok req -> 0 <= foldr Z.add 0 (map (charge r req) l).
Proof.
  intros U R. induction l as [|i l IH]; cbn [map foldr]; [lia|]. pose proof (charge_nonneg r req i U R). lia.
Qed.

(** Why pricing fails: a quantity the request states cannot be charged, or the
    price is beyond what nano-units hold. *)
Definition bad_quantity (req : Request) (e : price_error) : Prop := exists i, quantityOf i req = fail e.
Definition usage_error (req : Request) (B : Z) (e : price_error) : Prop := bad_quantity req e \/ too_big B e.

Lemma gradedInput_yields B r req comps : usage_ok r -> req_ok req ->
  let sum := tok_sum (token_price (tiers r))
            (Z.max 0 (Z.min (carvedInput (effectiveRates r req) req) (InputTokens req))) (InputTokens req) in
  sum <= B ->
  yields (usage_error req B) (fun '(a, _) => awf a /\ sval a = sum)
    (gradedInput r req comps (carvedInput (effectiveRates r req) req)).
Proof.
  intros (_ & H2 & H3) (Hi & _) sum L. unfold gradedInput. destruct (Z.ltb_spec (InputTokens req) 0).
  { cbn. left. exists cInput. cbn. by rewrite (proj2 (Z.ltb_lt _ _)). }
  pose proof (i64_range ((if is_set (effectiveRates r req) cCacheRead then CacheReadTokens req else 0)
       + (if is_set (effectiveRates r req) cCacheWrite then CacheWriteTokens req else 0))) as Hc.
  fold (carvedInput (effectiveRates r req) req) in Hc.
  pose proof (graded_loop_yields B r (InputTokens req) ltac:(widths; lia) (tiers r) 0
    (Z.min (carvedInput (effectiveRates r req) req) (InputTokens req)) zeroAmt comps H2 H3 ltac:(lia) ltac:(lia)
    ltac:(widths; lia) awf_zero ltac:(rewrite sval_zero; lia) ltac:(rewrite sval_zero; exact L)) as G.
  rewrite Z.sub_0_r in G. eapply yields_impl; [exact G|by right|]. intros [a c]. by rewrite sval_zero.
Qed.

Lemma charged_bad_quantity i req cin cout e : chargedQuantity i req cin cout = fail e -> bad_quantity req e.
Proof. unfold chargedQuantity. destruct (quantityOf i req) as [[q|e']|] eqn:E; cbn; try done. intros [= ->]. by exists i. Qed.

(** One line added to the total. *)
Lemma line_charge req B i rt q r total comps (k : amt -> option (list Component) -> res (amt * option (list Component))) x :
  rate_ok i rt -> 0 <= q < two63 -> awf total -> 0 <= sval total -> sval total + unit_price i rt * q <= B ->
  (forall total' comps', awf total' -> sval total' = sval total + unit_price i rt * q ->
    yields (usage_error req B) x (k total' comps')) ->
  yields (usage_error req B) x
    (let$ v := componentValue (ratto rt) q (divisor (componentInfo i)) in
     let$ total := checked (addAmt total v) in
     let$ comps := appendComponent comps r i (rtext rt) q v in
     k total comps).
Proof.
  intros R Hq W N L K. pose proof (unit_price_nonneg i rt R). assert (0 <= unit_price i rt * q) by nia.
  eapply yields_bind; [eapply yields_impl; [by apply componentValue_yields|intros e H'; right; apply (too_big_le _ _ _ H'); lia|done]|].
  intros v [Wv Sv].
  eapply yields_bind; [eapply yields_impl; [by apply addAmt_yields|intros e H'; right; apply (too_big_le _ _ _ H'); lia|done]|].
  intros total' [Wt St].
  eapply yields_bind; [eapply yields_impl; [by apply appendComponent_yields|intros e H'; right; apply (too_big_le _ _ _ H'); lia|done]|].
  intros comps' _. apply K; [done|]. lia.
Qed.

Lemma usage_loop_yields B r req todo total comps : usage_ok r -> req_ok req -> awf total -> 0 <= sval total ->
  sval total + foldr Z.add 0 (map (charge r req) todo) <= B ->
  yields (usage_error req B) (fun '(a, _) => awf a /\ sval a = sval total + foldr Z.add 0 (map (charge r req) todo))
    (usage_loop r (effectiveRates r req) req (carvedInput (effectiveRates r req) req)
       (carvedOutput (effectiveRates r req) req) todo total comps).
Proof.
  intros U R. revert total comps. induction todo as [|i todo IH]; intros total comps W N L; cbn [usage_loop map foldr] in *.
  { cbn. split; [done|lia]. }
  pose proof (charge_nonneg r req i U R) as Ci. pose proof (charges_nonneg r req todo U R) as Ct.
  assert (forall total' comps', awf total' -> sval total' = sval total + charge r req i ->
    yields (usage_error req B)
      (fun '(a, _) => awf a /\ sval a = sval total + (charge r req i + foldr Z.add 0 (map (charge r req) todo)))
      (usage_loop r (effectiveRates r req) req (carvedInput (effectiveRates r req) req)
         (carvedOutput (effectiveRates r req) req) todo total' comps')) as Go.
  { intros total' comps' W' S'. eapply yields_impl; [apply IH; [done|lia|lia]|done|]. intros [a c] [Wa Sa]. split; [done|]. lia. }
  match goal with |- yields _ _ (if ?c then _ else _) =>
    assert (c = graduated r && bool_decide (i = cInput)) as ->
      by (unfold graduated; destruct (tierMode r); cbn [andb]; [done|apply andb_comm]) end.
  destruct (graduated r && bool_decide (i = cInput)) eqn:G.
  - assert (charge r req i = tok_sum (token_price (tiers r))
      (Z.max 0 (Z.min (carvedInput (effectiveRates r req) req) (InputTokens req))) (InputTokens req)) as Ec
      by (unfold charge; by rewrite G).
    eapply yields_bind; [apply gradedInput_yields; [done|done|lia]|]. intros [sub comps'] [Ws Ss].
    eapply yields_bind; [eapply yields_impl; [by apply addAmt_yields|intros e H'; right; apply (too_big_le _ _ _ H'); lia|done]|].
    intros total' [Wt St]. apply Go; [done|lia].
  - assert (charge r req i = line (effectiveRates r req) req (carvedInput (effectiveRates r req) req)
      (carvedOutput (effectiveRates r req) req) i) as Ec by (unfold charge; by rewrite G).
    unfold line in Ec. destruct (effectiveRates r req i) as [rt|] eqn:E; [|apply Go; auto; lia].
    destruct (bool_decide (i = cReportedCost)); [apply Go; auto; lia|].
    pose proof (chargedQuantity_yields i req (carvedInput (effectiveRates r req) req)
      (carvedOutput (effectiveRates r req) req) R) as Q.
    destruct (chargedQuantity i req _ _) as [[q|e]|] eqn:Eq;
      [|left; by eapply charged_bad_quantity|done]. cbn in Q.
    destruct (Z.eqb_spec q 0) as [->|]; [apply Go; auto; lia|].
    apply line_charge; [by eapply effectiveRates_ok|done|done|done|lia|]. intros total' comps' Wt St. apply Go; [done|lia].
Qed.

Lemma evalUsage_yields r req comps : usage_ok r -> req_ok req ->
  yields (usage_error req (usage_total r req)) (fun '(a, _) => awf a /\ sval a = usage_total r req /\ 0 <= sval a)
    (evalUsage r req comps).
Proof.
  intros U R. unfold evalUsage, usage_total. destruct (activeReported (effectiveRates r req) req) eqn:A.
  - unfold evalReported. pose proof (quantityOf_yields cReportedCost req R) as Q.
    destruct (quantityOf cReportedCost req) as [[q|e]|] eqn:Eq; [|left; by exists cReportedCost|done].
    cbn in Q, Eq. assert (q = ReportedCostNano req) as -> by (by destruct (_ <? 0); [|injection Eq]).
    unfold activeReported, is_set in A. destruct (effectiveRates r req cReportedCost) as [rt|] eqn:E; [|done].
    destruct (Z.eqb_spec (ReportedCostNano req) 0) as [->|].
    + apply yields_ret. split; [apply awf_zero|]. rewrite sval_zero. lia.
    + pose proof (effectiveRates_ok r req U _ _ E) as Ok_. pose proof (unit_price_nonneg _ _ Ok_).
      assert (0 <= unit_price cReportedCost rt * ReportedCostNano req) by nia.
      eapply yields_bind; [eapply yields_impl; [by apply componentValue_yields|by right|done]|]. intros v [Wv Sv].
      eapply yields_bind; [eapply yields_impl; [by apply appendComponent_yields|
        intros e H'; right; apply (too_big_le _ _ _ H'); lia|done]|]. intros comps' _. cbn. split_and!; [done|done|lia].
  - pose proof (charges_nonneg r req components U R).
    eapply yields_impl; [apply usage_loop_yields; [done|done|apply awf_zero|rewrite sval_zero; lia|]|done|].
    + rewrite sval_zero. apply Z.le_refl.
    + intros [a c] [Wa Sa]. rewrite sval_zero in Sa. split_and!; [done|lia|lia].
Qed.
