(* ===== verification/PriceInv.v ===== *)
(** * A well-formed price catalogue, and what each class of it yields

    The invariant of a catalogue (its rules as loading leaves them, its index,
    its accumulators and carries in range), and for each step of [compute] the
    exact amount it returns. *)
From Stdlib Require Import String.
From stdpp Require Import base gmap list sorting.
From Stdlib Require Import ZArith Lia SpecFloat.
From S2P Require Import Prelude U128 Decimal GoTime F64 PriceCatalog PriceSelect Price PriceUsage.
Open Scope Z_scope.
Open Scope go_scope.

(** ** The invariant *)

Definition util_ok (r : rule) : Prop :=
  match util r with
  | None => True
  | Some u => 0 <= slopePPM u <= MaxDeclarableMultiplierPPM /\ OnePPM <= ceilingPPM u <= MaxDeclarableMultiplierPPM
  end.

Definition adj_ok (r : rule) : Prop :=
  wf (adjAtto r) /\ is_u64 (units (adjAmount r)) /\ 0 <= scale (adjAmount r) <= maxPriceScale.

Definition rule_ok (r : rule) : Prop :=
  filed r /\ usage_ok r /\ util_ok r /\ adj_ok r /\ wf (amountAtto r).

Definition small (c : Z) : Prop := 2 * Z.abs c <= attoPerNano.
Definition carry_ok (k : carrySet) : Prop :=
  small (k_marginal k) /\ small (k_subscription k) /\ small (k_adjustment k) /\ small (k_notional k).

Notation accounts := (gmap bytes (rule * option subSnapshot)).

(** Every plan has an accumulator, under its id, in range. *)
Definition subs_ok (rules : list rule) (ss : accounts) : Prop :=
  (forall r, r ∈ rules -> class r = ClassSubscription -> exists s, ss !! id r = Some (r, s)) /\
  (forall i own s, ss !! i = Some (own, Some s) -> wf (attributed s)) /\
  (forall i own s, ss !! i = Some (own, s) -> own ∈ rules /\ class own = ClassSubscription /\ i = id own).

Definition carries_ok (ks : gmap bytes carrySet) : Prop := forall b k, ks !! b = Some k -> carry_ok k.

Definition rules_ok (rules : list rule) : Prop := Forall rule_ok rules /\ NoDup (map id rules).

Definition catalog_ok (c : Catalog) : Prop :=
  rules_ok (crules c) /\ (forall cl, idx c cl = buildIndex (crules c) cl) /\
  subs_ok (crules c) (subs c) /\ carries_ok (carries c).

Lemma winner_ok c cl req at_ r : catalog_ok c -> selectWinner (idx c cl) req at_ = Some r ->
  r ∈ crules c /\ class r = cl /\ rule_ok r.
Proof.
  intros ((F & N) & I & _) E. rewrite I in E.
  assert (Forall filed (crules c)) as Ff by (eapply Forall_impl; [exact F|]; by intros ? []).
  pose proof (selectWinner_best (crules c) cl req at_ Ff N) as B. rewrite E in B.
  destruct B as [(H1 & H2 & _) _]. split_and!; try done. by eapply Forall_forall in F.
Qed.

Lemma carry_ok_zero : carry_ok zeroCarry.
Proof. unfold carry_ok, small, attoPerNano. cbn. lia. Qed.

Definition carry_at (ks : gmap bytes carrySet) (b : bytes) : carrySet := default zeroCarry (ks !! b).

Lemma carry_at_ok ks b : carries_ok ks -> carry_ok (carry_at ks b).
Proof. intros K. unfold carry_at. destruct (ks !! b) eqn:E; [by eapply K|apply carry_ok_zero]. Qed.

Lemma carries_ok_insert ks b k : carries_ok ks -> carry_ok k -> carries_ok (<[b := k]> ks).
Proof.
  intros K H b' k'. destruct (decide (b = b')) as [->|]; [rewrite lookup_insert_eq; by intros [= ->]|].
  rewrite lookup_insert_ne by done. apply K.
Qed.

(** A fresh catalogue is well formed. *)
Lemma newCatalog_subs (rules : list rule) (r : rule) (s : accounts) : NoDup (map id rules) -> r ∈ rules ->
  foldl (fun m r => <[id r := (r, None)]> m) s rules !! id r = Some (r, None).
Proof.
  revert s. induction rules as [|r' rules IH]; intros s N Hr; [by apply elem_of_nil in Hr|].
  apply NoDup_cons in N as [Nin N]. apply elem_of_cons in Hr as [->|Hr]; [|by apply IH]. clear IH. cbn [foldl].
  assert (forall m : accounts, m !! id r' = Some (r', @None subSnapshot) ->
    foldl (fun m r => <[id r := (r, None)]> m) m rules !! id r' = Some (r', None)) as G; [|apply G, lookup_insert_eq].
  clear N. induction rules as [|x rules IH]; intros m Hm; [done|]. cbn [foldl]. cbn in Nin.
  apply not_elem_of_cons in Nin as [Hne Nin]. apply IH; [done|]. by rewrite lookup_insert_ne by done.
Qed.

Lemma newCatalog_none (rules : list rule) (s : accounts) i own x : (forall own x, s !! i <> Some (own, Some x)) ->
  foldl (fun m r => <[id r := (r, None)]> m) s rules !! i <> Some (own, Some x).
Proof.
  revert s. induction rules as [|r rules IH]; intros s H; [apply H|]. cbn [foldl]. apply IH. intros o y.
  destruct (decide (id r = i)) as [->|]; [by rewrite lookup_insert_eq|]. by rewrite lookup_insert_ne by done.
Qed.

Lemma newCatalog_owner (rules : list rule) (s : accounts) i own x :
  foldl (fun m r => <[id r := (r, None)]> m) s rules !! i = Some (own, x) ->
  s !! i = Some (own, x) \/ own ∈ rules /\ i = id own.
Proof.
  revert s. induction rules as [|r rules IH]; intros s H; [by left|]. cbn [foldl] in H.
  apply IH in H as [H|[H ->]]; [|right; split; [by right|done]].
  destruct (decide (id r = i)) as [<-|]; [|left; by rewrite lookup_insert_ne in H by done].
  rewrite lookup_insert_eq in H. injection H as <- <-. right. split; [left|done].
Qed.

Lemma NoDup_map_filter {A B} (f : A -> B) (P : A -> Prop) `{forall x, Decision (P x)} l :
  NoDup (map f l) -> NoDup (map f (filter P l)).
Proof.
  induction l as [|x l IH]; intros N; [done|]. apply NoDup_cons in N as [Nin N]. rewrite filter_cons.
  case_decide; [|auto]. cbn. apply NoDup_cons. split; [|auto]. contradict Nin.
  apply list_elem_of_fmap in Nin as (y & -> & Hy). apply list_elem_of_filter in Hy as [_ Hy]. by apply list_elem_of_fmap_2.
Qed.

Lemma newCatalog_ok rules : rules_ok rules -> catalog_ok (newCatalog rules).
Proof.
  intros R. split_and!; cbn; [done|done| |].
  - split; cbn.
    + intros r Hr Hc. exists None. apply newCatalog_subs; [apply NoDup_map_filter, R|]. by apply list_elem_of_filter.
    + split.
      * intros i own s H. exfalso. by eapply newCatalog_none in H; [|intros; rewrite lookup_empty].
      * intros i own s H. apply newCatalog_owner in H as [H|[H ->]]; [by rewrite lookup_empty in H|].
        by apply list_elem_of_filter in H as [].
  - intros b k H. by rewrite lookup_empty in H.
Qed.

(** ** The utilization factor *)

Lemma factor_bounds u ppm : 0 <= slopePPM u <= MaxDeclarableMultiplierPPM ->
  OnePPM <= ceilingPPM u <= MaxDeclarableMultiplierPPM -> 0 <= ppm < two31 ->
  factor u ppm = (Z.min (ceilingPPM u) (OnePPM + slopePPM u * ppm / OnePPM), ceilingPPM u <=? OnePPM + slopePPM u * ppm / OnePPM) /\
  OnePPM <= fst (factor u ppm) <= ceilingPPM u.
Proof.
  intros Hs Hc Hp. unfold factor, go_quot. unfold MaxDeclarableMultiplierPPM, OnePPM in *.
  assert (0 <= slopePPM u * ppm <= 4000000 * two31) by (widths; nia).
  rewrite (i64_id (slopePPM u * ppm)) by (widths; lia). rewrite Z.quot_div_nonneg by lia.
  assert (0 <= slopePPM u * ppm / 1000000 <= 4 * two31).
  { split; [apply Z.div_pos; lia|]. apply Z.div_le_upper_bound; lia. }
  rewrite (i64_id (1000000 + slopePPM u * ppm / 1000000)) by (widths; lia).
  destruct (Z.leb_spec (ceilingPPM u) (1000000 + slopePPM u * ppm / 1000000)); cbn [fst];
    (split; [f_equal; lia|lia]).
Qed.

(** The multiplier the rule applies to the request, in parts per million. *)
Definition multiplier (r : rule) (req : Request) : Z :=
  match util r with
  | Some u => if UtilizationObserved req && (0 <=? UtilizationPPM req)
              then Z.min (ceilingPPM u) (OnePPM + slopePPM u * UtilizationPPM req / OnePPM)
              else OnePPM
  | None => OnePPM
  end.

Lemma multiplier_bounds r req : util_ok r -> req_ok req ->
  OnePPM <= multiplier r req <= MaxDeclarableMultiplierPPM /\
  (forall u, util r = Some u -> multiplier r req <= ceilingPPM u).
Proof.
  unfold util_ok, multiplier. intros U R. destruct (util r) as [u|].
  - destruct U as [Hs Hc]. destruct (UtilizationObserved req); cbn [andb].
    + destruct (Z.leb_spec 0 (UtilizationPPM req)).
      * destruct (factor_bounds u (UtilizationPPM req) Hs Hc) as [F B]; [unfold req_ok in R; lia|].
        rewrite F in B. cbn [fst] in B. split; [lia|]. intros ? [= <-]. lia.
      * unfold MaxDeclarableMultiplierPPM, OnePPM in *. split; [lia|]. intros ? [= <-]. lia.
    + unfold MaxDeclarableMultiplierPPM, OnePPM in *. split; [lia|]. intros ? [= <-]. lia.
  - unfold MaxDeclarableMultiplierPPM, OnePPM. split; [lia|done].
Qed.

Lemma sval_nonneg_abs a : awf a -> 0 <= sval a -> val (m a) = sval a.
Proof. intros [W Z0] N. pose proof (val_range _ W). unfold sval in *. destruct (neg a); [specialize (Z0 eq_refl); lia|done]. Qed.

Lemma negate_sval a : awf a -> awf (negate a) /\ sval (negate a) = - sval a.
Proof.
  intros [W Z0]. unfold negate, awf, sval. rewrite isZero_val by done.
  destruct (Z.eqb_spec (val (m a)) 0) as [E|E]; cbn [neg m].
  - split; [done|]. destruct (neg a); lia.
  - split; [done|]. destruct (neg a); cbn; lia.
Qed.

(** What the factor makes of a base amount: never less than the base, never
    more than the ceiling times it. *)
Lemma applyUtilization_yields r req base comps : util_ok r -> req_ok req -> awf base -> 0 <= sval base ->
  declared (util r) = true ->
  yields any_error (fun f => awf (f_amt f) /\ sval (f_amt f) = sval base * multiplier r req / OnePPM /\
            f_ppm f = multiplier r req)
    (applyUtilization r req base comps).
Proof.
  intros U R W N D. pose proof (multiplier_bounds r req U R) as [MB _]. unfold applyUtilization, multiplier in *.
  unfold util_ok in U. destruct (util r) as [u|]; [|done]. rewrite D. cbn [negb]. destruct U as [Hs Hc].
  destruct (UtilizationObserved req) eqn:Ob; cbn [negb orb andb] in *.
  2: { cbn. split_and!; [done| |done]. by rewrite Z.div_mul by done. }
  destruct (Z.ltb_spec (UtilizationPPM req) 0) as [Lt|Ge].
  { rewrite (proj2 (Z.leb_gt 0 (UtilizationPPM req))) by lia. cbn. split_and!; [done| |done]. by rewrite Z.div_mul by done. }
  rewrite (proj2 (Z.leb_le 0 (UtilizationPPM req))) in * by lia.
  destruct (factor_bounds u (UtilizationPPM req) Hs Hc) as [F _]; [unfold req_ok in R; lia|]. rewrite F. cbn [fst] in *.
  set (ppm := Z.min (ceilingPPM u) (OnePPM + slopePPM u * UtilizationPPM req / OnePPM)) in *.
  rewrite u64_id by (unfold MaxDeclarableMultiplierPPM, OnePPM in *; widths; lia).
  destruct (mulDivAmt_sval base ppm OnePPM W) as (a & ok & -> & _ & H);
    [unfold MaxDeclarableMultiplierPPM, OnePPM in *; widths; lia|unfold OnePPM; widths; lia|done|].
  destruct ok; [|done]. cbn [checked_opt checked]. destruct (H eq_refl) as [Wa Sa].
  assert (sval a = sval base * ppm / OnePPM) as Sa'.
  { rewrite Sa, Z.abs_eq by lia. destruct (Z.eq_dec (sval base) 0) as [->|]; [done|].
    replace (Z.sgn (sval base)) with 1 by lia. lia. }
  cbn [ret]. destruct comps as [cs|]; [|done].
  destruct (negate_sval base W) as [Wn _].
  eapply yields_bind; [eapply yields_any; by apply addAmt_yields|]. intros delta [Wd _].
  eapply yields_bind; [eapply yields_any; apply rounded_yields; [done|unfold attoPerNano; lia]|]. intros [nano x] _. done.
Qed.

(** ** The marginal class *)

(** The exact marginal charge of a request, in atto-units: nothing without a
    rule or when the rule cannot price it, otherwise the rule's charge, scaled
    by its utilization factor unless the upstream stated the cost. *)
Definition scales (w : rule) (req : Request) : bool :=
  declared (util w) && negb (is_set (rates w) cReportedCost && ReportedCostStated req).

Definition marginal_exact (c : Catalog) (req : Request) (at_ : Z) : Z :=
  match selectWinner (idx c ClassMarginal) req at_ with
  | None => 0
  | Some w =>
      if notionalPriceable w req then
        if scales w req then usage_total w req * multiplier w req / OnePPM else usage_total w req
      else 0
  end.

(** Whether the request has a price: a rule that matches can be applied. *)
Definition priced_of (c : Catalog) (req : Request) (at_ : Z) : bool :=
  match selectWinner (idx c ClassMarginal) req at_ with Some w => notionalPriceable w req | None => true end.

Lemma priceable_reason w req : notionalPriceable w req = negb (bool_decide (fst (noPriceReason w req) <> NoPriceNone)).
Proof.
  unfold notionalPriceable. destruct (fst (noPriceReason w req)); reflexivity.
Qed.

Lemma marginalClass_yields c req at_ : catalog_ok c -> req_ok req ->
  yields any_error (fun p => awf (p_amt p) /\ sval (p_amt p) = marginal_exact c req at_ /\ 0 <= sval (p_amt p) /\
            unpriced p = negb (priced_of c req at_) /\ (unpriced p = true -> p_amt p = zeroAmt /\ p_comps p = []))
    (marginalClass c req at_).
Proof.
  intros C R. unfold marginalClass, marginal_exact, priced_of.
  assert (forall p, p_noprice p = NoPriceNone -> unpriced p = false) as Np
    by (intros p Hp; unfold unpriced; rewrite Hp; by rewrite bool_decide_eq_false_2 by tauto).
  destruct (selectWinner (idx c ClassMarginal) req at_) as [w|] eqn:E.
  2: { apply yields_ret. rewrite Np by done. cbn [p_amt p_comps]. rewrite sval_zero. split_and!; auto using awf_zero; lia. }
  destruct (winner_ok _ _ _ _ _ C E) as (_ & _ & (_ & U & Ut & _ & _)). rewrite priceable_reason.
  destruct (noPriceReason w req) as [why what]. cbn [fst]. destruct (bool_decide (why <> NoPriceNone)) eqn:B; cbn [negb].
  { apply yields_ret. unfold unpriced. cbn [p_amt p_comps p_noprice]. rewrite sval_zero, B. split_and!; auto using awf_zero; lia. }
  eapply yields_bind; [eapply yields_any; by apply evalUsage_yields|]. intros [a comps] (Wa & Sa & Na).
  unfold scales. destruct (declared (util w) && _) eqn:D.
  - apply andb_prop in D as [D _].
    eapply yields_bind; [by apply applyUtilization_yields|]. intros f (Wf & Sf & _). apply yields_ret. rewrite Np by done.
    cbn [p_amt]. pose proof (multiplier_bounds w req Ut R) as [MB _].
    assert (0 <= sval a * multiplier w req / OnePPM) by (apply Z.div_pos; unfold OnePPM in *; nia).
    split_and!; [done|by rewrite Sf, Sa|lia|done|done].
  - apply yields_ret. rewrite Np by done. cbn [p_amt]. split_and!; [done|done|lia|done|done].
Qed.

(** ** Subscriptions *)

Lemma accrue_total amount at_ start end_ : wf amount ->
  exists v, accrue amount at_ start end_ = ret v /\ wf v /\ val v <= val amount.
Proof.
  intros W. unfold accrue. cbv zeta. pose proof (val_range _ W).
  assert (wf (mkU128 0 0) /\ val (mkU128 0 0) <= val amount) as [W0 V0]
    by (split; [apply wf_intro; widths; lia|change (val (mkU128 0 0)) with 0; lia]).
  destruct (isZero amount); cbn [orb]; [eauto|]. set (span := Time.Sub end_ start).
  destruct (Z.leb_spec span 0); [eauto|].
  set (el := if Time.Sub at_ start <? 0 then 0 else Time.Sub at_ start).
  assert (0 <= el) by (unfold el; destruct (Z.ltb_spec (Time.Sub at_ start) 0); lia).
  destruct (Z.leb_spec span el); [exists amount; split_and!; [done|done|lia]|].
  assert (span < two63) by (unfold span, Time.Sub, Time.minDuration, Time.maxDuration; widths; lia).
  rewrite !u64_id by (widths; lia).
  destruct (mulDiv_val amount el span) as (q & r & ok & -> & Wq & _ & Vq & Eo); [done|widths; lia|widths; lia|lia|].
  assert (val amount * el / span <= val amount) by (apply Z.div_le_upper_bound; nia).
  assert (0 <= val amount * el / span) by (apply Z.div_pos; nia).
  rewrite (proj2 (Z.ltb_lt _ _)) in Eo by lia. rewrite Z.mod_small in Vq by lia. subst ok. eexists. split; [done|]. split; [done|lia].
Qed.

(** The instant a share is attributed at, and the period it belongs to. *)
Definition share_instant (at_ now : Z) (mutate : bool) : Z := if mutate && Time.After at_ now then now else at_.
Definition share_period (r : rule) (at_ now : Z) (mutate : bool) : Z :=
  fst (periodBounds (period r) (share_instant at_ now mutate) (loc r)).

(** What a period has attributed, and what it still may: all of it when the
    accumulator has not reached the period, nothing once it has moved past it. *)
Definition used (snap : option subSnapshot) (p : Z) : Z :=
  match snap with Some s => if periodStart s =? p then val (attributed s) else 0 | None => 0 end.
Definition past (snap : option subSnapshot) (p : Z) : bool :=
  match snap with Some s => p <? periodStart s | None => false end.

Lemma subscriptionShare_spec ss r at_ now mutate snap : wf (amountAtto r) -> ss !! id r = Some (r, snap) ->
  (forall s, snap = Some s -> wf (attributed s)) ->
  let p := share_period r at_ now mutate in
  exists share, snd (subscriptionShare ss r at_ now mutate) = ret share /\ awf share /\
    ((sval share = 0 /\ fst (subscriptionShare ss r at_ now mutate) = ss) \/
     (past snap p = false /\ exists accrued, wf accrued /\ val accrued <= val (amountAtto r) /\
        sval share = val accrued - used snap p /\ 0 < sval share /\
        fst (subscriptionShare ss r at_ now mutate) =
          if mutate then <[id r := (r, Some (mkSnapshot p accrued))]> ss else ss)).
Proof.
  intros W L S p. unfold subscriptionShare. rewrite L. unfold p, share_period, share_instant.
  destruct (periodBounds (period r) _ (loc r)) as [start end_]. cbn [fst].
  change (match snap with Some s => Time.After (periodStart s) start | None => false end) with (past snap start).
  assert (exists a0, (match snap with Some s => if periodStart s =? start then attributed s else mkU128 0 0
     | None => mkU128 0 0 end) = a0 /\ wf a0 /\ val a0 = used snap start) as (a0 & -> & Wa & Va).
  { eexists. split; [reflexivity|]. unfold used. destruct snap as [s|]; [|split; [apply wf_intro; widths; lia|done]].
    destruct (_ =? _); [split; [by apply S|done]|split; [apply wf_intro; widths; lia|done]]. }
  destruct (past snap start) eqn:Pa.
  { exists zeroAmt. split_and!; [done|apply awf_zero|]. left. done. }
  destruct (accrue_total (amountAtto r) (if mutate && Time.After at_ now then now else at_) start end_ W) as (acc & -> & Wc & Vc).
  cbn [ret]. rewrite cmp_val by done. pose proof (val_range _ Wc). pose proof (val_range _ Wa).
  destruct (Z.ltb_spec (val acc) (val a0)) as [Lt|Ge]; [|destruct (Z.eqb_spec (val acc) (val a0)) as [Eq|Ne]].
  1,2: exists zeroAmt; split_and!; [done|apply awf_zero|by left].
  change (1 <=? 0) with false. cbv iota. destruct (sub acc a0) as [share ok] eqn:Es.
  apply sub_val in Es as (Ws & Vs & _); try done. rewrite Z.mod_small in Vs by lia.
  exists (attoAmt share). split_and!; [done|split; [done|done]|]. right. split; [done|].
  exists acc. unfold sval. cbn [neg m attoAmt]. split_and!; try done; lia.
Qed.

(** ** Adjustments *)

Lemma pow10_total s : 0 <= s <= maxPriceScale -> exists p, pow10_at s = Some p /\ p = 10 ^ s.
Proof.
  unfold maxPriceScale. intros H. assert (In s [0;1;2;3;4;5;6;7;8;9;10;11;12]) as C by (cbn; lia).
  repeat destruct C as [<-|C]; try (eexists; split; reflexivity). done.
Qed.

Lemma mul64_hundred p : 0 < p <= 10 ^ 12 -> exists x, mul64 100 p = Some (x, true) /\ x = 100 * p.
Proof.
  intros H. unfold mul64. assert (wf (u64To128 100)) as W by (apply wf_intro; cbn; widths; lia).
  destruct (mulDiv_val (u64To128 100) p 1 W) as (q & r & ok & -> & Wq & _ & Vq & Eo); [widths; lia|widths; lia|lia|].
  rewrite Z.div_1_r in *. replace (val (u64To128 100)) with 100 in * by reflexivity.
  rewrite Z.mod_small in Vq by (unfold two128; lia). rewrite (proj2 (Z.ltb_lt _ _)) in Eo by (unfold two128; lia). subst ok.
  destruct q as [h l]. destruct Wq as [Wh Wl]. unfold val in Vq. cbn [hi lo] in *.
  assert (h = 0) as -> by (widths; nia). cbn. exists l. split; [done|]. lia.
Qed.

(** What one adjustment contributes to a base, truncated to the atto-unit. *)
Definition delta_exact (r : rule) (base : Z) : Z :=
  let part d := Z.sgn base * (Z.abs base * units (adjAmount r) / d) in
  match op r with
  | AdjAdd => if dneg (adjAmount r) then - val (adjAtto r) else val (adjAtto r)
  | AdjMultiply => part (10 ^ scale (adjAmount r)) - base
  | AdjPercent => (if dneg (adjAmount r) then -1 else 1) * part (100 * 10 ^ scale (adjAmount r))
  end.

(** The net of a list of adjustments, each on the base it names. *)
Fixpoint net_exact (rs : list rule) (marginal subscription running : Z) : Z :=
  match rs with
  | [] => 0
  | r :: rs' =>
      let base := match appliesTo r with
                  | BaseMarginal => marginal | BaseSubscription => subscription | BaseTotal => running end in
      delta_exact r base + net_exact rs' marginal subscription (running + delta_exact r base)
  end.

Definition adjustment_exact (c : Catalog) (req : Request) (at_ marginal subscription : Z) : Z :=
  net_exact (merge_sort adj_before (collectAll (idx c ClassAdjustment) req at_)) marginal subscription
    (marginal + subscription).

Lemma adjustmentDelta_yields r base : adj_ok r -> awf base ->
  yields any_error (fun d => awf d /\ sval d = delta_exact r (sval base)) (adjustmentDelta r base).
Proof.
  intros (Wa & Hu & Hs) W. unfold adjustmentDelta, delta_exact.
  destruct (pow10_total _ Hs) as (p & -> & ->).
  assert (0 < 10 ^ scale (adjAmount r) <= 10 ^ 12) as P
    by (unfold maxPriceScale in Hs; split; [apply Z.pow_pos_nonneg; lia|apply Z.pow_le_mono_r; lia]).
  destruct (op r).
  - destruct (mul64_hundred _ P) as (x & -> & ->). cbn [checked_opt checked ret].
    destruct (mulDivAmt_sval base (units (adjAmount r)) (100 * 10 ^ scale (adjAmount r)) W Hu) as (a & ok & -> & _ & H);
      [widths; lia|lia|]. destruct ok; [|done]. cbn [checked_opt checked ret yields]. destruct (H eq_refl) as [Wd Sd].
    destruct (negate_sval a Wd) as [Wn Sn]. destruct (dneg _); [split; [done|lia]|split; [done|lia]].
  - destruct (mulDivAmt_sval base (units (adjAmount r)) (10 ^ scale (adjAmount r)) W Hu) as (a & ok & -> & _ & H);
      [widths; lia|lia|]. destruct ok; [|done]. cbn [checked_opt checked ret]. destruct (H eq_refl) as [Wd Sd].
    destruct (negate_sval base W) as [Wn Sn].
    eapply yields_impl; [by apply addAmt_yields|done|]. intros d [W' S']. split; [done|lia].
  - cbn [ret yields]. unfold awf, sval. cbn [neg m]. rewrite isZero_val by done. pose proof (val_range _ Wa).
    destruct (dneg _), (Z.eqb_spec (val (adjAtto r)) 0); cbn [andb negb]; split_and!; try done; lia.
Qed.

Lemma adjust_loop_yields rs marginal subscription running net applied : Forall adj_ok rs ->
  awf marginal -> awf subscription -> awf running -> awf net ->
  yields any_error (fun '(a, _) => awf a /\
      sval a = sval net + net_exact rs (sval marginal) (sval subscription) (sval running))
    (adjust_loop rs marginal subscription running net applied).
Proof.
  revert running net applied. induction rs as [|r rs IH]; intros running net applied F M S Ru N; cbn [adjust_loop net_exact].
  { cbn. split; [done|lia]. }
  apply Forall_cons in F as [Fr F].
  eapply yields_bind; [apply adjustmentDelta_yields; [done|unfold adj_base; by destruct (appliesTo r)]|]. intros d [Wd Sd].
  eapply yields_bind; [eapply yields_any; by apply addAmt_yields|]. intros ru' [Wr Sr].
  eapply yields_bind; [eapply yields_any; by apply addAmt_yields|]. intros n' [Wn Sn].
  eapply yields_impl; [by apply IH|done|]. intros [a ap] [Wa Sa]. split; [done|]. rewrite Sa, Sn, Sr, Sd.
  unfold adj_base. destruct (appliesTo r); lia.
Qed.

Lemma applyAdjustments_yields c req at_ marginal subscription applied : catalog_ok c ->
  awf marginal -> awf subscription ->
  yields any_error (fun '(a, _) => awf a /\ sval a = adjustment_exact c req at_ (sval marginal) (sval subscription))
    (applyAdjustments c req at_ marginal subscription applied).
Proof.
  intros ((F & N) & I & _) M S. unfold applyAdjustments, adjustment_exact.
  assert (awf zeroAmt /\ sval zeroAmt = 0) as Z0 by (split; [apply awf_zero|done]).
  destruct (_ =? 0) eqn:Ez.
  { unfold collectAll. rewrite Ez. done. }
  assert (Forall filed (crules c)) as Ff by (eapply Forall_impl; [exact F|]; by intros ? []).
  pose proof (collectAll_matching (crules c) ClassAdjustment req at_ Ff N) as [_ E]. rewrite <- I in E.
  destruct (collectAll _ req at_) as [|r0 rs] eqn:Ec; [done|].
  eapply yields_bind; [eapply yields_any; by apply addAmt_yields|]. intros run [Wr Sr].
  eapply yields_impl; [apply adjust_loop_yields; [|done|done|done|apply awf_zero]|done|].
  - apply Forall_forall. intros r Hr. rewrite merge_sort_Permutation in Hr. apply E in Hr as (Hin & _).
    eapply Forall_forall in F; [|exact Hin]. apply F.
  - intros [a ap] [Wa Sa]. split; [done|]. by rewrite Sa, Sr, sval_zero.
Qed.

(** ** The notional class *)

Definition notional_exact (c : Catalog) (req : Request) (at_ : Z) : Z :=
  match selectWinner (idx c ClassNotional) req at_ with
  | Some n => if notionalPriceable n req then usage_total n req else 0
  | None => 0
  end.

Lemma notionalClass_yields c req at_ applied : catalog_ok c -> req_ok req ->
  yields any_error (fun '(a, _, _) => awf a /\ sval a = notional_exact c req at_ /\ 0 <= sval a)
    (notionalClass c req at_ applied).
Proof.
  intros C R. unfold notionalClass, notional_exact.
  assert (awf zeroAmt /\ sval zeroAmt = 0 /\ 0 <= sval zeroAmt) as Z0 by (rewrite sval_zero; auto using awf_zero with lia).
  destruct (selectWinner (idx c ClassNotional) req at_) as [n|] eqn:E; [|done].
  destruct (notionalPriceable n req); [|done].
  destruct (winner_ok _ _ _ _ _ C E) as (_ & _ & (_ & U & _)).
  eapply yields_bind; [eapply yields_any; by apply evalUsage_yields|]. intros [a comps] (Wa & Sa & Na). done.
Qed.
