(* ===== verification/PriceSettle.v ===== *)
(** * Settling a request

    One rounding per class with its carried remainder, the sum of the billing
    classes, and [compute] as a whole: what it returns and how it moves the
    catalogue. *)
From Stdlib Require Import String.
From stdpp Require Import base gmap list sorting.
From Stdlib Require Import ZArith Lia SpecFloat.
From S2P Require Import Prelude U128 Decimal GoTime F64 PriceCatalog PriceSelect Price PriceUsage PriceInv.
Open Scope Z_scope.
Open Scope go_scope.

(** ** Rounding out *)

(** A class of amount [x] and carry [c] settles to [nano] and the carry [c']. *)
Definition settles_to (x c nano c' : Z) : Prop :=
  is_i64 nano /\ nano * attoPerNano + c' = x + c /\ small c' /\ (0 <= x -> 0 <= nano).

Lemma half_even_half t : 0 <= 2 * t <= attoPerNano -> half_even t = 0.
Proof.
  intros H. unfold half_even, attoPerNano in *. rewrite Z.div_small, Z.mod_small by lia.
  replace (0 mod 2 =? 1) with false by done. rewrite andb_false_r, orb_false_r.
  by rewrite (proj2 (Z.ltb_ge _ _)) by lia.
Qed.

Lemma rounded_settles v c : awf v -> small c ->
  yields any_error (fun '(nano, c') => settles_to (sval v) c nano c') (rounded v c).
Proof.
  intros W C. eapply yields_impl; [by apply rounded_yields|done|]. intros [nano c'] (I & E & S & H).
  split_and!; try done. intros N. subst nano. destruct (Z_lt_dec (sval v + c) 0) as [Lt|Ge].
  - unfold small in C. rewrite half_even_half by lia. lia.
  - assert (0 <= half_even (Z.abs (sval v + c))) by (apply half_even_bound; lia).
    destruct (Z.eq_dec (sval v + c) 0) as [->|]; [done|]. rewrite Z.sgn_pos by lia. lia.
Qed.

Definition start_carry (ks : gmap bytes carrySet) (req : Request) (settle : bool) : carrySet :=
  if settle then carry_at ks (settlementBucket req) else zeroCarry.

(** What [roundOut] makes of the four amounts. *)
Definition rounds_to (priced : bool) (m s a n : Z) (k k' : carrySet) (mN sN aN nN : Z) : Prop :=
  settles_to n (k_notional k) nN (k_notional k') /\
  if priced then
    settles_to m (k_marginal k) mN (k_marginal k') /\ settles_to s (k_subscription k) sN (k_subscription k') /\
    settles_to a (k_adjustment k) aN (k_adjustment k')
  else mN = 0 /\ sN = 0 /\ aN = 0 /\ k_marginal k' = k_marginal k /\ k_subscription k' = k_subscription k /\
       k_adjustment k' = k_adjustment k.

Lemma carry_at_insert ks b k : carry_at (<[b := k]> ks) b = k.
Proof. unfold carry_at. by rewrite lookup_insert_eq. Qed.

Lemma carry_at_insert_ne ks b b' k : b' <> b -> carry_at (<[b := k]> ks) b' = carry_at ks b'.
Proof. intros H. unfold carry_at. by rewrite lookup_insert_ne by done. Qed.

Lemma roundOut_spec ks req settle priced m s a n : carries_ok ks -> awf m -> awf s -> awf a -> awf n ->
  let b := settlementBucket req in
  let '(ks', r) := roundOut ks req settle priced m s a n in
  carries_ok ks' /\ (forall b', b' <> b -> carry_at ks' b' = carry_at ks b') /\ (settle = false -> ks' = ks) /\
  yields any_error (fun '(mN, sN, aN, nN) => exists k', (settle = true -> carry_at ks' b = k') /\
      rounds_to priced (sval m) (sval s) (sval a) (sval n) (start_carry ks req settle) k' mN sN aN nN) r /\
  ((exists x, r = ret x) \/ forall b', carry_at ks' b' = carry_at ks b').
Proof.
  intros K Wm Ws Wa Wn b. unfold roundOut. fold b.
  change (if settle then default zeroCarry (ks !! b) else zeroCarry) with (start_carry ks req settle).
  set (k := start_carry ks req settle).
  assert (carry_ok k) as (Km & Ks & Ka & Kn)
    by (unfold k, start_carry; destruct settle; [by apply carry_at_ok|apply carry_ok_zero]).
  set (ks1 := if settle then <[b := k]> ks else ks).
  assert (carries_ok ks1) as K1 by (unfold ks1; destruct settle; [apply carries_ok_insert; done|done]).
  assert (forall b', carry_at ks1 b' = carry_at ks b') as Same.
  { intros b'. unfold ks1. destruct settle; [|done]. destruct (decide (b' = b)) as [->|];
      [by rewrite carry_at_insert|by rewrite carry_at_insert_ne]. }
  assert (settle = false -> ks1 = ks) as Quiet by (unfold ks1; by intros ->).
  assert (forall k', carry_ok k' -> let ks' := if settle then <[b := k']> ks1 else ks1 in
    carries_ok ks' /\ (forall b', b' <> b -> carry_at ks' b' = carry_at ks b') /\ (settle = false -> ks' = ks) /\
    (settle = true -> carry_at ks' b = k')) as Store.
  { intros k' Hk'. cbv zeta. destruct settle; [|split_and!; done].
    split_and!; [by apply carries_ok_insert| |done|intros _; apply carry_at_insert].
    intros b' Hb. by rewrite carry_at_insert_ne, Same. }
  destruct priced; cbn [negb].
  - pose proof (rounded_settles m (k_marginal k) Wm Km) as Rm. destruct (rounded m _) as [[[mN mC]|e]|]; [|split_and!; auto..|done].
    pose proof (rounded_settles s (k_subscription k) Ws Ks) as Rs. destruct (rounded s _) as [[[sN sC]|e]|]; [|split_and!; auto..|done].
    pose proof (rounded_settles a (k_adjustment k) Wa Ka) as Ra. destruct (rounded a _) as [[[aN aC]|e]|]; [|split_and!; auto..|done].
    pose proof (rounded_settles n (k_notional k) Wn Kn) as Rn. destruct (rounded n _) as [[[nN nC]|e]|]; [|split_and!; auto..|done].
    cbn in Rm, Rs, Ra, Rn. destruct (Store (mkCarry mC sC aC nC)) as (S1 & S2 & S3 & S4);
      [unfold carry_ok, settles_to in *; cbn; tauto|].
    cbn [ret]. split_and!; [done|done|done| |left; eauto]. cbn. exists (mkCarry mC sC aC nC). split; [done|].
    unfold rounds_to. cbn. auto.
  - pose proof (rounded_settles n (k_notional k) Wn Kn) as Rn. destruct (rounded n _) as [[[nN nC]|e]|]; [|split_and!; auto..|done].
    cbn in Rn. set (k' := mkCarry _ _ _ _).
    destruct (Store k') as (S1 & S2 & S3 & S4); [unfold carry_ok, settles_to in *; cbn; tauto|].
    split_and!; [done|done|done| |left; eauto]. cbn. exists k'. split; [done|]. unfold rounds_to. cbn. split_and!; done.
Qed.

(** ** The plan share of a request *)

Definition instant_of (req : Request) (tnow : Z) : Z := if Time.IsZero (At req) then tnow else At req.

(** The plan that serves the request, and the share it takes; neither when the
    request has no price. *)
Definition plan_of (c : Catalog) (req : Request) (at_ : Z) : option rule :=
  if priced_of c req at_ then selectWinner (idx c ClassSubscription) req at_ else None.

Definition share_exact (c : Catalog) (req : Request) (at_ now : Z) (settle : bool) : Z :=
  match plan_of c req at_ with
  | Some r => match snd (subscriptionShare (subs c) r at_ now settle) with Some (Ok s) => sval s | _ => 0 end
  | None => 0
  end.

Definition subs_after (c : Catalog) (req : Request) (at_ now : Z) (settle : bool) : accounts :=
  match plan_of c req at_ with Some r => fst (subscriptionShare (subs c) r at_ now settle) | None => subs c end.

Lemma subs_ok_insert rules ss r p a : NoDup (map id rules) -> r ∈ rules -> class r = ClassSubscription ->
  subs_ok rules ss -> wf a -> subs_ok rules (<[id r := (r, Some (mkSnapshot p a))]> ss).
Proof.
  intros N Hr Cl (S1 & S2 & S3) W. split_and!.
  - intros r' Hr' C. destruct (decide (id r = id r')) as [E|].
    + assert (r' = r) as -> by (by apply (id_unique rules)).
      rewrite lookup_insert_eq. eauto.
    + rewrite lookup_insert_ne by done. by apply S1.
  - intros i own s. destruct (decide (id r = i)) as [<-|]; [rewrite lookup_insert_eq; by intros [= <- <-]|].
    rewrite lookup_insert_ne by done. apply S2.
  - intros i own s. destruct (decide (id r = i)) as [<-|]; [rewrite lookup_insert_eq; by intros [= <- <-]|].
    rewrite lookup_insert_ne by done. apply S3.
Qed.

Lemma share_facts c r at_ now settle : catalog_ok c -> r ∈ crules c -> class r = ClassSubscription ->
  exists snap share, subs c !! id r = Some (r, snap) /\
    snd (subscriptionShare (subs c) r at_ now settle) = ret share /\ awf share /\ 0 <= sval share /\
    let p := share_period r at_ now settle in
    ((sval share = 0 /\ fst (subscriptionShare (subs c) r at_ now settle) = subs c) \/
     (past snap p = false /\ exists accrued, wf accrued /\ val accrued <= val (amountAtto r) /\
        sval share = val accrued - used snap p /\ 0 < sval share /\
        fst (subscriptionShare (subs c) r at_ now settle) =
          if settle then <[id r := (r, Some (mkSnapshot p accrued))]> (subs c) else subs c)).
Proof.
  intros ((F & N) & _ & (S1 & S2 & _) & _) Hr C. destruct (S1 r Hr C) as [snap L].
  assert (wf (amountAtto r)) as W by (eapply Forall_forall in F; [|exact Hr]; apply F).
  destruct (subscriptionShare_spec (subs c) r at_ now settle snap W L) as (share & E & Ws & H).
  { intros s ->. by eapply S2. }
  exists snap, share. split_and!; try done. destruct H as [[-> _]|(_ & acc & _ & _ & _ & P & _)]; lia.
Qed.

Lemma share_subs_ok c r at_ now settle : catalog_ok c -> r ∈ crules c -> class r = ClassSubscription ->
  subs_ok (crules c) (fst (subscriptionShare (subs c) r at_ now settle)).
Proof.
  intros C Hr Cl. destruct (share_facts c r at_ now settle C Hr Cl) as (snap & share & _ & _ & _ & _ & H).
  destruct C as ((_ & N) & _ & S & _). destruct H as [[_ ->]|(_ & acc & W & _ & _ & _ & ->)]; [done|].
  destruct settle; [by apply subs_ok_insert|done].
Qed.

Lemma plan_facts c req at_ r : catalog_ok c -> plan_of c req at_ = Some r ->
  r ∈ crules c /\ class r = ClassSubscription /\ rule_ok r.
Proof. unfold plan_of. intros C. destruct (priced_of _ _ _); [by apply winner_ok|done]. Qed.

Lemma subscriptionClass_spec c req at_ now settle p : catalog_ok c -> unpriced p = negb (priced_of c req at_) ->
  exists s applied, subscriptionClass c req at_ now settle p = (set_subs c (subs_after c req at_ now settle), ret (s, applied)) /\
    awf s /\ sval s = share_exact c req at_ now settle /\ 0 <= sval s.
Proof.
  intros C U. unfold subscriptionClass, share_exact, subs_after.
  assert (set_subs c (subs c) = c) as Id by (by destruct c).
  assert (awf zeroAmt /\ sval zeroAmt = 0 /\ 0 <= sval zeroAmt) as Z0 by (split_and!; [apply awf_zero|done|done]).
  pose proof (plan_facts c req at_) as PF. unfold plan_of in *. rewrite U.
  destruct (priced_of c req at_); cbn [negb].
  - destruct (selectWinner (idx c ClassSubscription) req at_) as [r|] eqn:E; [|eexists _, _; rewrite Id; done].
    destruct (PF r C eq_refl) as (Hr & Cl & _).
    destruct (share_facts c r at_ now settle C Hr Cl) as (snap & share & _ & Es & Ws & Ns & _).
    destruct (subscriptionShare (subs c) r at_ now settle) as [ss x]. cbn [fst snd] in *. subst x. cbn [ret].
    eexists _, _. split; [reflexivity|]. done.
  - destruct (selectWinner (idx c ClassSubscription) req at_); eexists _, _; rewrite Id; done.
Qed.

(** ** The sum *)

Lemma addNano_yields a b : is_i64 a -> is_i64 b -> yields any_error (fun t => t = a + b /\ is_i64 t) (addNano_ a b).
Proof.
  intros Ha Hb. unfold addNano_. rewrite addNano_exact by done. destruct (_ && _) eqn:E; cbn; [|done].
  breflect. split; [done|]. unfold is_i64. lia.
Qed.

Lemma total_up_yields p applied nm mN sN aN nN : is_i64 mN -> is_i64 sN -> is_i64 aN -> 0 <= mN -> 0 <= sN ->
  yields any_error (fun k => MarginalNano k = mN /\ SubscriptionNano k = sN /\ NotionalNano k = nN /\
      Floored k = (mN + sN + aN <? 0) /\ AdjustmentNano k = (if mN + sN + aN <? 0 then - (mN + sN) else aN) /\
      TotalNano k = Z.max 0 (mN + sN + aN) /\ Components k = p_comps p /\ NoPrice k = p_noprice p /\ Missing k = p_missing p)
    (total_up p applied nm mN sN aN nN).
Proof.
  intros Hm Hs Ha Nm Ns. unfold total_up.
  eapply yields_bind; [by apply addNano_yields|]. intros t1 [-> H1].
  eapply yields_bind; [by apply addNano_yields|]. intros t [-> H2]. cbn. split_and!; try done.
  - destruct (Z.ltb_spec (mN + sN + aN) 0); [|done]. rewrite i64_id by (widths; lia). lia.
  - destruct (Z.ltb_spec (mN + sN + aN) 0); lia.
Qed.

(** ** The whole computation *)

(** The exact amounts of the four classes of a request. *)
Record amounts : Type := mkAmounts { x_marginal : Z; x_share : Z; x_adjustment : Z; x_notional : Z }.
Definition exact (c : Catalog) (req : Request) (tnow now : Z) (settle : bool) : amounts :=
  let at_ := instant_of req tnow in
  let m := marginal_exact c req at_ in
  let s := share_exact c req at_ now settle in
  mkAmounts m s (if priced_of c req at_ then adjustment_exact c req at_ m s else 0) (notional_exact c req at_).

(** What a returned cost says of them. *)
Definition cost_of (c : Catalog) (req : Request) (tnow : Z) (x : amounts) (k k' : carrySet) (cost : Cost) : Prop :=
  exists aN,
    rounds_to (priced_of c req (instant_of req tnow)) (x_marginal x) (x_share x) (x_adjustment x) (x_notional x) k k'
      (MarginalNano cost) (SubscriptionNano cost) aN (NotionalNano cost) /\
    0 <= MarginalNano cost /\ 0 <= SubscriptionNano cost /\
    let t := MarginalNano cost + SubscriptionNano cost + aN in
    Floored cost = (t <? 0) /\ TotalNano cost = Z.max 0 t /\
    AdjustmentNano cost = (if t <? 0 then - (MarginalNano cost + SubscriptionNano cost) else aN) /\
    (priced_of c req (instant_of req tnow) = false -> Components cost = [] /\ NoPrice cost <> NoPriceNone).

Lemma rounds_nonneg priced m s a n k k' mN sN aN nN : rounds_to priced m s a n k k' mN sN aN nN -> 0 <= m -> 0 <= s ->
  is_i64 mN /\ is_i64 sN /\ is_i64 aN /\ 0 <= mN /\ 0 <= sN.
Proof.
  intros [_ R] Hm Hs. destruct priced; unfold settles_to in R.
  - destruct R as ((? & _ & _ & Pm) & (? & _ & _ & Ps) & (? & _)). split_and!; auto.
  - destruct R as (-> & -> & -> & _). unfold is_i64. widths. lia.
Qed.

(** The adjustments of a priced request and its estimate at list rates. *)
Lemma adjust_and_estimate c req at_ p s applied : catalog_ok c -> req_ok req -> awf (p_amt p) -> awf s ->
  unpriced p = negb (priced_of c req at_) ->
  yields any_error (fun '(a, n, _, _) => awf a /\ awf n /\
      sval a = (if priced_of c req at_ then adjustment_exact c req at_ (sval (p_amt p)) (sval s) else 0) /\
      sval n = notional_exact c req at_)
    (let$ (adjustment, applied) :=
       (if unpriced p then ret (zeroAmt, applied) else applyAdjustments c req at_ (p_amt p) s applied) in
     let$ (notional, nmissing, applied) := notionalClass c req at_ applied in
     ret (adjustment, notional, nmissing, applied)).
Proof.
  intros C R Wm Ws Up.
  assert (yields any_error (fun '(a, _) => awf a /\
      sval a = (if priced_of c req at_ then adjustment_exact c req at_ (sval (p_amt p)) (sval s) else 0))
    (if unpriced p then ret (zeroAmt, applied) else applyAdjustments c req at_ (p_amt p) s applied)) as A.
  { rewrite Up. destruct (priced_of c req at_); cbn [negb]; [by apply applyAdjustments_yields|split; [apply awf_zero|done]]. }
  eapply yields_bind; [exact A|]. intros [a ap] [Wa Sa].
  eapply yields_bind; [by apply notionalClass_yields|]. intros [[n nm] ap'] (Wn & Sn & _). cbn. auto.
Qed.

(** What the subscription part leaves of the catalogue. *)
Lemma subs_after_ok c req at_ now settle : catalog_ok c ->
  catalog_ok (set_subs c (subs_after c req at_ now settle)) /\
  (settle = false -> set_subs c (subs_after c req at_ now settle) = c).
Proof.
  intros C. unfold subs_after. destruct (plan_of c req at_) as [r|] eqn:E; [|by destruct c].
  destruct (plan_facts _ _ _ _ C E) as (Hr & Cl & _). split.
  - pose proof (share_subs_ok c r at_ now settle C Hr Cl). destruct C as (? & ? & _ & ?). by split_and!.
  - intros ->. destruct (share_facts c r at_ now false C Hr Cl) as
      (snap & share & _ & _ & _ & _ & [[_ ->]|(_ & acc & _ & _ & _ & _ & ->)]); by destruct c.
Qed.

Lemma compute_spec c req settle tnow now : catalog_ok c -> req_ok req ->
  let b := settlementBucket req in
  let '(c', r) := compute c req settle tnow now in
  catalog_ok c' /\ crules c' = crules c /\ idx c' = idx c /\ (settle = false -> c' = c) /\
  (forall b', b' <> b -> carry_at (carries c') b' = carry_at (carries c) b') /\
  (subs c' = subs c \/ subs c' = subs_after c req (instant_of req tnow) now settle) /\
  yields any_error (fun cost => subs c' = subs_after c req (instant_of req tnow) now settle /\
      exists k', (settle = true -> carry_at (carries c') b = k') /\
      cost_of c req tnow (exact c req tnow now settle) (start_carry (carries c) req settle) k' cost) r.
Proof.
  intros C R b. unfold compute. change (if Time.IsZero (At req) then tnow else At req) with (instant_of req tnow).
  set (at_ := instant_of req tnow).
  pose proof (marginalClass_yields c req at_ C R) as M.
  destruct (marginalClass c req at_) as [[p|e]|]; [|split_and!; auto..|done]. cbn in M. destruct M as (Wm & Sm & Nm & Up & Uz).
  destruct (subscriptionClass_spec c req at_ now settle p C Up) as (s & applied & -> & Ws & Ss & Ns).
  cbn [ret]. set (ss := subs_after c req at_ now settle) in *. set (c1 := set_subs c ss).
  destruct (subs_after_ok c req at_ now settle C) as [C1 Q1]. fold ss c1 in C1, Q1.
  pose proof (adjust_and_estimate c1 req at_ p s applied C1 R Wm Ws ltac:(done)) as AN. rewrite Sm, Ss in AN.
  match type of AN with yields _ _ ?x => destruct x as [[[[[a n] nm] ap]|e]|]; [|split_and!; auto..|done] end.
  cbn in AN. destruct AN as (Wa & Wn & Sa & Sn).
  assert (carries_ok (carries c1)) as K1 by apply C1.
  pose proof (roundOut_spec (carries c1) req settle (negb (unpriced p)) (p_amt p) s a n K1 Wm Ws Wa Wn) as RO. cbv zeta in RO.
  destruct (roundOut _ _ _ _ _ _ _ _) as [ks r]. destruct RO as (Kk & Ko & Kq & Y & _). fold b in Ko, Y.
  split_and!; cbn; [destruct C1 as (? & ? & ? & _); by split_and!|done|done| |done|by right|].
  { intros Hs. rewrite Kq by done. unfold set_carries. rewrite Q1 by done. by destruct c. }
  eapply yields_bind; [exact Y|]. intros [[[mN sN] aN] nN] (k' & Hk & Rt).
  rewrite Up, negb_involutive, Sm, Ss, Sa, Sn in Rt.
  destruct (rounds_nonneg _ _ _ _ _ _ _ _ _ _ _ Rt) as (Im & Is & Ia & Pm & Ps); [lia|lia|].
  eapply yields_impl; [by apply (total_up_yields p ap nm mN sN aN nN)|done|].
  intros cost (Em & Es & En & Fl & Ad & To & Co & Np & _). split; [done|]. exists k'. split; [done|].
  exists aN. rewrite Em, Es, En. unfold exact. cbn [x_marginal x_share x_adjustment x_notional]. fold at_. split_and!; try done.
  intros Hp. rewrite Hp in Up. cbn in Up. rewrite Co, Np. split; [by apply Uz|].
  unfold unpriced in Up. by apply bool_decide_eq_true in Up.
Qed.
