(* ===== verification/PriceProps.v ===== *)
(** * What pricing guarantees

    The price of a request is the exact price of what it used, rounded once per
    class; a run of settlements neither gains nor loses more than a nano-unit; a
    plan never charges a period more than its price; a preview is what settling
    would charge. *)
From Stdlib Require Import String.
From stdpp Require Import base gmap list sorting.
From Stdlib Require Import ZArith Lia SpecFloat.
From S2P Require Import Prelude U128 Decimal GoTime F64 PriceCatalog PriceSelect Price PriceUsage PriceInv PriceSettle.
Open Scope Z_scope.
Open Scope go_scope.

(** ** Runs of settlements *)

(** A run in which every settlement succeeds: each request with its exact
    amounts and its cost. *)
Inductive settlements : Catalog -> list (Request * Z * Z) -> list (Request * amounts * Cost) -> Catalog -> Prop :=
| settlements_nil c : settlements c [] [] c
| settlements_cons c req tnow now c1 cost run trail c' :
    Settle c req tnow now = (c1, ret cost) -> settlements c1 run trail c' ->
    settlements c ((req, tnow, now) :: run) ((req, exact c req tnow now true, cost) :: trail) c'.

Definition of_bucket (b : bytes) (trail : list (Request * amounts * Cost)) : list (amounts * Cost) :=
  omap (fun '(req, x, cost) => if beqb (settlementBucket req) b then Some (x, cost) else None) trail.

Definition sumZ {A} (f : A -> Z) (l : list A) : Z := foldr (fun a z => f a + z) 0 l.

(** One class over a run: the sum of its nano-units and the sum of its exact
    amounts differ by the carries. *)
Definition conserved (b : bytes) (trail : list (Request * amounts * Cost)) (f : Cost -> Z) (x : amounts -> Z)
    (k k' : Z) : Prop :=
  sumZ (fun '(_, cost) => f cost) (of_bucket b trail) * attoPerNano + k' =
  sumZ (fun '(e, _) => x e) (of_bucket b trail) + k.

Lemma conserved_bound b trail f x k k' : conserved b trail f x k k' -> small k -> small k' ->
  Z.abs (sumZ (fun '(_, cost) => f cost) (of_bucket b trail) * attoPerNano -
         sumZ (fun '(e, _) => x e) (of_bucket b trail)) <= attoPerNano.
Proof. unfold conserved, small. lia. Qed.

(** What one successful settlement does to the carries of a bucket. *)
Lemma settle_step c req tnow now c1 cost b : catalog_ok c -> req_ok req -> Settle c req tnow now = (c1, ret cost) ->
  let x := exact c req tnow now true in
  let k := carry_at (carries c) b in
  let k' := carry_at (carries c1) b in
  catalog_ok c1 /\
  if beqb (settlementBucket req) b then
    MarginalNano cost * attoPerNano + k_marginal k' = x_marginal x + k_marginal k /\
    SubscriptionNano cost * attoPerNano + k_subscription k' = x_share x + k_subscription k /\
    NotionalNano cost * attoPerNano + k_notional k' = x_notional x + k_notional k
  else k' = k.
Proof.
  intros C R E x k k'. pose proof (compute_spec c req true tnow now C R) as S. cbv zeta in S.
  unfold Settle in E. rewrite E in S. destruct S as (C1 & _ & _ & _ & Ko & _ & Y). split; [done|].
  destruct (beqb (settlementBucket req) b) eqn:B.
  - apply beqb_eq in B. subst b. destruct Y as (_ & k'' & Hk & aN & (Rn & Rt) & _). specialize (Hk eq_refl).
    unfold k', k. rewrite Hk. cbn [start_carry] in Rn, Rt.
    destruct (priced_of c req (instant_of req tnow)) eqn:P.
    + destruct Rt as ((_ & M & _) & (_ & S & _) & _). destruct Rn as (_ & N & _). split_and!; assumption.
    + destruct Rt as (-> & -> & _ & -> & -> & _). destruct Rn as (_ & N & _).
      assert (x_marginal x = 0 /\ x_share x = 0) as [-> ->].
      { unfold x, exact. cbn. unfold marginal_exact, share_exact, plan_of. rewrite P. split; [|done].
        unfold priced_of in P. destruct (selectWinner _ _ _); [by rewrite P|done]. }
      split_and!; [done|done|assumption].
  - apply Ko. intros Eb. assert (beqb (settlementBucket req) b = true) by (by apply beqb_eq). congruence.
Qed.

Lemma of_bucket_cons b req x cost trail : of_bucket b ((req, x, cost) :: trail) =
  if beqb (settlementBucket req) b then (x, cost) :: of_bucket b trail else of_bucket b trail.
Proof. unfold of_bucket. cbn. by destruct (beqb _ _). Qed.


(** ** Plans *)

(** The shares the successful settlements of a run take: plan, period, amount. *)
Fixpoint shares (c : Catalog) (run : list (Request * Z * Z)) : list (bytes * Z * Z) :=
  match run with
  | [] => []
  | (req, tnow, now) :: run' =>
      let at_ := instant_of req tnow in
      let '(c1, r) := Settle c req tnow now in
      match r, plan_of c req at_ with
      | Some (Ok _), Some p => [(id p, share_period p at_ now true, share_exact c req at_ now true)]
      | _, _ => []
      end ++ shares c1 run'
  end.

Definition share_sum (i : bytes) (p : Z) (l : list (bytes * Z * Z)) : Z :=
  sumZ (fun '(j, q, s) => if beqb i j && (q =? p) then s else 0) l.

(** What a plan may still attribute to a period. *)
Definition snap_of (c : Catalog) (r : rule) : option subSnapshot :=
  match subs c !! id r with Some (_, s) => s | None => None end.
Definition remaining (r : rule) (snap : option subSnapshot) (p : Z) : Z :=
  if past snap p then 0 else Z.max 0 (val (amountAtto r) - used snap p).

Lemma used_nonneg c r p : catalog_ok c -> 0 <= used (snap_of c r) p.
Proof.
  intros (_ & _ & (_ & S2 & _) & _). unfold used, snap_of. destruct (subs c !! id r) as [[own [s|]]|] eqn:E; try lia.
  destruct (_ =? _); [|lia]. apply val_range. by eapply S2.
Qed.

Lemma sumZ_app {A} (f : A -> Z) l l' : sumZ f (l ++ l') = sumZ f l + sumZ f l'.
Proof. unfold sumZ. induction l as [|a l IH]; cbn; lia. Qed.

(** A share comes out of what its plan had left, and of nothing else's. *)
Lemma remaining_step c req at_ now r p : catalog_ok c -> r ∈ crules c ->
  let c1 := set_subs c (subs_after c req at_ now true) in
  let s := match plan_of c req at_ with
           | Some q => if beqb (id r) (id q) && (share_period q at_ now true =? p) then share_exact c req at_ now true else 0
           | None => 0 end in
  0 <= s /\ s + remaining r (snap_of c1 r) p <= remaining r (snap_of c r) p.
Proof.
  intros C Hr c1 s. unfold s, c1, snap_of, share_exact, subs_after. cbn [subs set_subs]. clear s c1.
  destruct (plan_of c req at_) as [q|] eqn:E; [|lia].
  destruct (plan_facts _ _ _ _ C E) as (Hq & Cl & _).
  destruct (share_facts c q at_ now true C Hq Cl) as (snap & share & L & Es & _ & N & H).
  rewrite Es. cbn [ret]. destruct (beqb (id r) (id q)) eqn:B.
  - apply beqb_eq in B. assert (r = q) as <- by (by apply (id_unique (crules c)); [apply C| | |]).
    assert (0 <= used snap p) as U.
    { pose proof (used_nonneg c r p C) as U. unfold snap_of in U. by rewrite L in U. }
    rewrite L. destruct H as [[-> ->]|(Pa & acc & Wa & Va & Sh & Po & ->)].
    { rewrite L. destruct (_ && _); lia. }
    rewrite lookup_insert_eq. unfold remaining. pose proof (val_range _ Wa).
    unfold past, used in *. cbn [periodStart attributed andb].
    set (q := share_period r at_ now true) in *.
    destruct (Z.eqb_spec q p) as [->|Ne].
    + rewrite Z.ltb_irrefl. rewrite Pa. destruct snap as [sn|]; [destruct (periodStart sn =? p)|]; lia.
    + destruct (Z.ltb_spec p q).
      * destruct snap as [sn|]; [destruct (p <? periodStart sn)|]; lia.
      * destruct snap as [sn|]; [|lia]. apply Z.ltb_ge in Pa.
        rewrite (proj2 (Z.ltb_ge _ _)) by lia. rewrite (proj2 (Z.eqb_neq (periodStart sn) p)) by lia. lia.
  - cbn [andb]. destruct H as [[_ ->]|(_ & acc & _ & _ & _ & _ & ->)]; [lia|].
    rewrite lookup_insert_ne; [lia|]. intros X. assert (beqb (id r) (id q) = true) by (by apply beqb_eq). congruence.
Qed.

Fixpoint after_run (c : Catalog) (run : list (Request * Z * Z)) : Catalog :=
  match run with
  | [] => c
  | (req, tnow, now) :: run' => after_run (fst (Settle c req tnow now)) run'
  end.

(** The shares of a run come out of what the plan had left. *)
Lemma shares_telescope run r p : forall c, catalog_ok c -> r ∈ crules c -> Forall (fun '(req, _, _) => req_ok req) run ->
  catalog_ok (after_run c run) /\ crules (after_run c run) = crules c /\
  0 <= share_sum (id r) p (shares c run) /\
  share_sum (id r) p (shares c run) + remaining r (snap_of (after_run c run) r) p <= remaining r (snap_of c r) p.
Proof.
  induction run as [|[[req tnow] now] run IH]; intros c C Hr R; [cbn; split_and!; done || lia|].
  apply Forall_cons in R as [Rq R]. cbn [shares after_run]. set (at_ := instant_of req tnow).
  pose proof (compute_spec c req true tnow now C Rq) as S. cbv zeta in S.
  change (compute c req true tnow now) with (Settle c req tnow now) in S.
  destruct (Settle c req tnow now) as [c1 res]. destruct S as (C1 & Ru & _ & _ & _ & Su & Y). fold at_ in Su, Y. cbn [fst].
  destruct (remaining_step c req at_ now r p C Hr) as [N St]. cbv zeta in N, St.
  assert (remaining r (snap_of c1 r) p <= remaining r (snap_of c r) p) as Le.
  { destruct Su as [E|E]; unfold snap_of at 1; rewrite E; [done|]. unfold snap_of in St at 1. cbn [subs set_subs] in St. lia. }
  rewrite <- Ru in Hr. destruct (IH c1 C1 Hr R) as (C' & Ru' & N' & T'). rewrite Ru', Ru. split; [done|]. split; [done|].
  unfold share_sum in *. rewrite sumZ_app.
  assert (sumZ (fun '(j, q, s) => if beqb (id r) j && (q =? p) then s else 0) [] = 0) as Nil by done.
  destruct res as [[cost|e]|]; [|rewrite Nil; lia..]. destruct Y as [E _].
  destruct (plan_of c req at_) as [q|]; [|rewrite Nil; lia]. cbn [sumZ foldr]. unfold sumZ in *.
  unfold snap_of in St at 1. cbn [subs set_subs] in St. rewrite <- E in St. fold (snap_of c1 r) in St. lia.
Qed.

Lemma remaining_bounds c r p : catalog_ok c -> r ∈ crules c ->
  0 <= remaining r (snap_of c r) p <= val (amountAtto r).
Proof.
  intros C Hr. unfold remaining. pose proof (used_nonneg c r p C).
  assert (wf (amountAtto r)) as W by (destruct C as ((F & _) & _); eapply Forall_forall in F; [|exact Hr]; apply F).
  pose proof (val_range _ W). destruct (past _ _); lia.
Qed.

(** A plan never charges a period more than its price: over any run of
    settlements, failing ones included, in any order, with any stamps and clocks
    and in any location, the shares a plan's successful settlements take of one
    period are never negative and add up to at most what the period had left,
    which is at most the plan's price. *)
Theorem plan_never_overcharged c run r p : catalog_ok c -> Forall (fun '(req, _, _) => req_ok req) run ->
  r ∈ crules c ->
  0 <= share_sum (id r) p (shares c run) <= remaining r (snap_of c r) p /\
  remaining r (snap_of c r) p <= val (amountAtto r).
Proof.
  intros C R Hr. destruct (shares_telescope run r p c C Hr R) as (C' & Ru & N & T). rewrite <- Ru in Hr.
  pose proof (remaining_bounds _ r p C' Hr). rewrite Ru in Hr. pose proof (remaining_bounds _ r p C Hr). lia.
Qed.

(** ** One request *)

(** C28. A rule charges exactly what the request used: for a well-formed rule the
    amount [evalUsage] returns is the sum, over the rule's rates, of the price of
    one quantum times the quantity that rate alone charges, graduated tiers
    charging each input token at the price of the first tier that reaches it;
    the sum is never negative, nothing panics, and it fails only when the request
    states a quantity that cannot be charged or when the price is beyond what
    nano-units can hold. *)
Theorem usage_charged_exactly r req comps : usage_ok r -> req_ok req ->
  match evalUsage r req comps with
  | Some (Ok (a, _)) => sval a = usage_total r req /\ 0 <= sval a
  | Some (Err e) => bad_quantity req e \/ (e = EOverflow /\ limit <= usage_total r req)
  | None => False
  end.
Proof.
  intros U R. pose proof (evalUsage_yields r req comps U R) as Y.
  destruct (evalUsage r req comps) as [[[a cs]|e]|]; cbn in Y; [|exact Y|exact Y]. tauto.
Qed.

(** Two brackets: a thousand tokens at 3, the rest at 1 per million. *)
Definition bracket (u : option Z) (atto_ : Z) : tier :=
  mkTier u (fun i => match i with cInput => Some (mkRate (mkU128 0 atto_) []) | _ => None end).
Definition tiered_rule : rule :=
  mkRule (bytes_of_string "tiered") ClassMarginal LevelDefault 0 0 [] [] [] [] [] 0 None UnitPerMillionTokens sample_rate
    [bracket (Some 100) 3000000000000000000; bracket None 1000000000000000000]
    TierGraduated None 3 (mkU128 0 0) [] PeriodMonthly UTC AdjPercent (mkDecimal false 0 0 []) (mkU128 0 0)
    BaseTotal [] 0 [].

Lemma sample_rates_ok : rates_ok sample_rate.
Proof. intros [] rt; intros [= <-]; (split; [apply wf_intro; cbn; widths; lia|reflexivity]). Qed.

Lemma bracket_ok u a : is_u64 a -> a mod 1000000 = 0 -> rates_ok (trates (bracket u a)).
Proof.
  intros H D [] rt; intros [= <-]. split; [apply wf_intro; [cbn; widths; lia|done]|].
  change (val (mkU128 0 a) mod 1000000 = 0). unfold val. cbn [hi lo]. by rewrite Z.mul_0_l.
Qed.

Lemma tiered_ok : usage_ok tiered_rule.
Proof.
  split; [apply sample_rates_ok|split].
  - apply Forall_cons; split; [|apply Forall_cons; split; [|done]]; (apply bracket_ok; [widths; lia|reflexivity]).
  - cbn. widths. split; [lia|done].
Qed.

Lemma sample_request_ok : req_ok sample_request.
Proof. unfold req_ok. cbn. unfold is_i64. widths. lia. Qed.

Lemma usage_charged_exactly_witness :
  usage_total tiered_rule sample_request = 320000000000000 /\
  match evalUsage tiered_rule sample_request None with
  | Some (Ok (a, _)) => sval a = usage_total tiered_rule sample_request /\ 0 <= sval a
  | Some (Err e) => bad_quantity sample_request e \/ (e = EOverflow /\ limit <= usage_total tiered_rule sample_request)
  | None => False
  end.
Proof.
  split; [vm_compute; reflexivity|]. apply usage_charged_exactly; [apply tiered_ok|apply sample_request_ok].
Defined.

(** Every token of a consistent request is charged by exactly one rate: the
    input rate takes what no cache rate of the rule takes, the output rate what
    no reasoning rate takes. *)
Theorem each_token_charged_once r req : let rs := effectiveRates r req in
  let cin := carvedInput rs req in let cout := carvedOutput rs req in
  0 <= CacheReadTokens req -> 0 <= CacheWriteTokens req -> CacheReadTokens req + CacheWriteTokens req <= InputTokens req ->
  InputTokens req < two63 -> 0 <= ReasoningTokens req <= OutputTokens req -> OutputTokens req < two63 ->
  exists q o, chargedQuantity cInput req cin cout = ret q /\ chargedQuantity cOutput req cin cout = ret o /\
    q + (if is_set rs cCacheRead then CacheReadTokens req else 0)
      + (if is_set rs cCacheWrite then CacheWriteTokens req else 0) = InputTokens req /\
    o + (if is_set rs cReasoning then ReasoningTokens req else 0) = OutputTokens req.
Proof.
  intros rs cin cout Hr Hw Hi Hi' Ho Ho'. unfold chargedQuantity, quantityOf.
  rewrite (proj2 (Z.ltb_ge (InputTokens req) 0)), (proj2 (Z.ltb_ge (OutputTokens req) 0)) by lia. cbn [ret].
  assert (cin = (if is_set rs cCacheRead then CacheReadTokens req else 0)
      + (if is_set rs cCacheWrite then CacheWriteTokens req else 0)) as ->
    by (unfold cin, carvedInput; apply i64_id; destruct (is_set _ _), (is_set _ _); widths; lia).
  unfold cout, carvedOutput.
  rewrite (i64_id (OutputTokens req - _)) by (destruct (is_set rs cReasoning); widths; lia).
  rewrite (i64_id (InputTokens req - _)) by (destruct (is_set rs cCacheRead), (is_set rs cCacheWrite); widths; lia).
  eexists _, _. split; [reflexivity|]. split; [reflexivity|].
  destruct (is_set rs cCacheRead), (is_set rs cCacheWrite), (is_set rs cReasoning);
    repeat match goal with |- context [?x <? 0] => rewrite (proj2 (Z.ltb_ge x 0)) by lia end; lia.
Qed.

(** C27. A cost adds up: on a well-formed catalogue pricing or settling never
    panics and leaves the catalogue well formed; a cost that is returned has a
    total that is exactly the sum of its three billing classes and never
    negative, the marginal and plan parts are never negative, each class is its
    exact amount rounded once, to the nearest nano-unit with the remainder
    carried, and a credit that would take the total below zero is absorbed by
    the adjustment and reported. The notional estimate is no part of the total. *)
Theorem cost_adds_up c req settle tnow now : catalog_ok c -> req_ok req ->
  let '(c', r) := compute c req settle tnow now in
  catalog_ok c' /\
  match r with
  | None => False
  | Some (Err _) => True
  | Some (Ok cost) =>
      TotalNano cost = MarginalNano cost + SubscriptionNano cost + AdjustmentNano cost /\
      0 <= TotalNano cost /\ (Floored cost = true -> TotalNano cost = 0) /\
      exists k', cost_of c req tnow (exact c req tnow now settle) (start_carry (carries c) req settle) k' cost
  end.
Proof.
  intros C R. pose proof (compute_spec c req settle tnow now C R) as S. cbv zeta in S.
  destruct (compute c req settle tnow now) as [c' [[cost|e]|]]; [|tauto|cbn in S; tauto].
  destruct S as (C' & _ & _ & _ & _ & _ & (_ & k' & _ & H)). split; [done|].
  assert (exists k', cost_of c req tnow (exact c req tnow now settle) (start_carry (carries c) req settle) k' cost) as X by eauto.
  destruct H as (aN & _ & Nm & Ns & Fl & To & Ad & _).
  destruct (Z.ltb_spec (MarginalNano cost + SubscriptionNano cost + aN) 0); rewrite Ad, To, Fl; split_and!; try done; lia.
Qed.

(** ** A catalogue with a plan *)

Definition plan_rule : rule :=
  mkRule (bytes_of_string "plan") ClassSubscription LevelDefault 0 0 [] [] [] [] [] 0 None UnitSubscription (fun _ => None) []
    TierThreshold None 0 (mkU128 5 7766279631452241920) (bytes_of_string "100") PeriodMonthly UTC AdjPercent
    (mkDecimal false 0 0 []) (mkU128 0 0) BaseTotal [] 0 [].

(** A tenth off the running total. *)
Definition discount_rule : rule :=
  mkRule (bytes_of_string "tenth") ClassAdjustment LevelDefault 0 0 [] [] [] [] [] 0 None UnitNone (fun _ => None) []
    TierThreshold None 0 (mkU128 0 0) [] PeriodMonthly UTC AdjPercent (mkDecimal true 10 0 []) (mkU128 0 0)
    BaseTotal [] 0 [].

Definition sample_rules : list rule := [sample_default; sample_model; plan_rule; discount_rule].

Lemma plain_rule_ok r : filed r -> rates_ok (rates r) -> tiers r = [] -> util r = None -> wf (adjAtto r) ->
  is_u64 (units (adjAmount r)) -> scale (adjAmount r) = 0 -> wf (amountAtto r) -> rule_ok r.
Proof.
  intros F R T U A Un Sc Am. unfold rule_ok, usage_ok, util_ok, adj_ok. rewrite T, U, Sc. unfold maxPriceScale.
  split_and!; try done; lia.
Qed.

Lemma no_rates_ok : rates_ok (fun _ => None).
Proof. by intros i rt. Qed.

Lemma sample_rules_ok : rules_ok sample_rules.
Proof.
  split; [|vm_compute; repeat (constructor; [set_solver|]); constructor].
  repeat apply Forall_cons_2; [..|apply Forall_nil_2];
    (apply plain_rule_ok; [split; vm_compute; reflexivity|apply sample_rates_ok || apply no_rates_ok|done|done|..|done|]);
    try (apply wf_intro; cbn; widths; lia); cbn; widths; lia.
Qed.

Definition sample_catalog : Catalog := newCatalog sample_rules.

Lemma sample_catalog_ok : catalog_ok sample_catalog.
Proof. apply newCatalog_ok, sample_rules_ok. Qed.

(** Half of the first month. *)
Definition mid_month : Z := Time.Date 1970 1 16 + 12 * Time.Hour.
Definition half_request : Request :=
  mkRequest [] (bytes_of_string "gpt-4") [] [] 120 15 0 0 0 0 0 0 0 0 F64.zero F64.zero BilledUnstated 0 false 0 false
    mid_month [].

Lemma half_request_ok : req_ok half_request.
Proof. unfold req_ok. cbn. unfold is_i64. widths. lia. Qed.

Lemma cost_adds_up_witness :
  let '(c', r) := compute sample_catalog half_request true 0 mid_month in
  catalog_ok c' /\
  match r with
  | None => False
  | Some (Err _) => True
  | Some (Ok cost) =>
      TotalNano cost = MarginalNano cost + SubscriptionNano cost + AdjustmentNano cost /\
      0 <= TotalNano cost /\ (Floored cost = true -> TotalNano cost = 0) /\
      exists k', cost_of sample_catalog half_request 0 (exact sample_catalog half_request 0 mid_month true)
        (start_carry (carries sample_catalog) half_request true) k' cost
  end.
Proof. apply (cost_adds_up sample_catalog half_request true 0 mid_month); [apply sample_catalog_ok|apply half_request_ok]. Defined.

(** Half the plan, the tokens, and a tenth off both. *)
Example sample_cost :
  match snd (Settle sample_catalog half_request 0 mid_month) with
  | Some (Ok cost) => (MarginalNano cost, SubscriptionNano cost, AdjustmentNano cost, TotalNano cost) =
      (102000, 50000000000, -5000010200, 45000091800)
  | _ => False
  end.
Proof. vm_compute. reflexivity. Qed.

(** A run of settlements, executed. *)
Fixpoint settle_run (c : Catalog) (run : list (Request * Z * Z)) : option (list (Request * amounts * Cost) * Catalog) :=
  match run with
  | [] => Some ([], c)
  | (req, tnow, now) :: run' =>
      match Settle c req tnow now with
      | (c1, Some (Ok cost)) =>
          match settle_run c1 run' with
          | Some (trail, c') => Some ((req, exact c req tnow now true, cost) :: trail, c')
          | None => None
          end
      | _ => None
      end
  end.

Lemma settle_run_settlements c run trail c' : settle_run c run = Some (trail, c') -> settlements c run trail c'.
Proof.
  revert c trail. induction run as [|[[req tnow] now] run IH]; intros c trail; cbn.
  - intros [= <- <-]. constructor.
  - destruct (Settle c req tnow now) as [c1 [[cost|e]|]] eqn:E; [|done..].
    destruct (settle_run c1 run) as [[trail' c'']|] eqn:E'; [|done]. intros [= <- <-]. by econstructor; [|apply IH].
Qed.

(** Thirty settlements of one token each, a second apart. *)
Definition tiny (j : nat) : Request * Z * Z :=
  (mkRequest [] (bytes_of_string "gpt-4") [] [] 1 0 0 0 0 0 0 0 0 0 F64.zero F64.zero BilledUnstated 0 false 0 false
     (mid_month + Z.of_nat j * Time.Second) [], 0, mid_month + Time.Hour).
Definition sample_run : list (Request * Z * Z) := map tiny (seq 0 30).

Lemma sample_run_ok : Forall (fun '(req, _, _) => req_ok req) sample_run.
Proof.
  apply Forall_forall. intros [[req t] n] H. apply list_elem_of_fmap in H as (j & E & _). injection E as -> _ _.
  unfold req_ok. cbn. unfold is_i64. widths. lia.
Qed.


Lemma plan_never_overcharged_witness :
  0 < share_sum (id plan_rule) 0 (shares sample_catalog sample_run) /\
  0 <= share_sum (id plan_rule) 0 (shares sample_catalog sample_run) <= remaining plan_rule (snap_of sample_catalog plan_rule) 0 /\
  remaining plan_rule (snap_of sample_catalog plan_rule) 0 <= val (amountAtto plan_rule).
Proof.
  split; [vm_compute; reflexivity|].
  apply plan_never_overcharged; [apply sample_catalog_ok|apply sample_run_ok|right; right; left].
Defined.

(** ** Previews *)

(** A preview is what settling would charge: pricing a request moves
    nothing of the catalogue, and for a request stamped no later than the
    catalogue's clock whose bucket carries no remainder it returns exactly the
    cost that settling it now would return, error for error. *)
Theorem price_previews_settle c req tnow now : catalog_ok c -> req_ok req ->
  instant_of req tnow <= now -> carry_at (carries c) (settlementBucket req) = zeroCarry ->
  fst (compute c req false tnow now) = c /\ Price c req tnow = snd (Settle c req tnow now).
Proof.
  intros C R L K. split.
  { pose proof (compute_spec c req false tnow now C R) as S. cbv zeta in S. destruct (compute _ _ _ _ _). by apply S. }
  unfold Price, Settle, compute. change (if Time.IsZero (At req) then tnow else At req) with (instant_of req tnow).
  set (at_ := instant_of req tnow) in *.
  pose proof (marginalClass_yields c req at_ C R) as M. destruct (marginalClass c req at_) as [[p|e]|]; [|done..].
  destruct M as (_ & _ & _ & Up & _).
  assert (snd (subscriptionClass c req at_ 0 false p) = snd (subscriptionClass c req at_ now true p) /\
    idx (fst (subscriptionClass c req at_ 0 false p)) = idx c /\ idx (fst (subscriptionClass c req at_ now true p)) = idx c /\
    carries (fst (subscriptionClass c req at_ 0 false p)) = carries c /\
    carries (fst (subscriptionClass c req at_ now true p)) = carries c) as (Es & I1 & I2 & K1 & K2).
  { unfold subscriptionClass. destruct (selectWinner (idx c ClassSubscription) req at_) as [r|]; [|done].
    destruct (unpriced p); [done|]. unfold subscriptionShare. destruct (subs c !! id r) as [[own snap]|]; [|done].
    cbn [andb]. unfold Time.After. rewrite (proj2 (Z.ltb_ge now at_)) by lia.
    destruct (periodBounds _ _ _). repeat case_match; simplify_eq; try done. }
  destruct (subscriptionClass c req at_ 0 false p) as [c1 s1], (subscriptionClass c req at_ now true p) as [c2 s2].
  cbn [fst snd] in *. subst s2. destruct s1 as [[[s applied]|e]|]; [|done..].
  unfold applyAdjustments, notionalClass. rewrite I1, I2, K1, K2.
  repeat match goal with |- snd (match ?x with _ => _ end) = snd (match ?x with _ => _ end) =>
    destruct x as [[[[[? ?] ?] ?]|]|]; [|done..] end.
  unfold roundOut. change (default zeroCarry (carries c !! settlementBucket req)) with (carry_at (carries c) (settlementBucket req)).
  rewrite K. repeat case_match; simplify_eq; done.
Qed.

Lemma price_previews_settle_witness :
  fst (compute sample_catalog half_request false 0 mid_month) = sample_catalog /\
  Price sample_catalog half_request 0 = snd (Settle sample_catalog half_request 0 mid_month).
Proof.
  apply price_previews_settle; [apply sample_catalog_ok|apply half_request_ok|vm_compute; discriminate|reflexivity].
Defined.

(** ** Requests without a price *)

(** A request a rule matches but cannot price charges nothing, in any billing
    class, and takes nothing: no plan share, no remainder of an earlier charge,
    no component line. Only the estimate at list rates still settles. *)
Theorem unpriced_charges_nothing c req tnow now c1 cost : catalog_ok c -> req_ok req ->
  priced_of c req (instant_of req tnow) = false -> Settle c req tnow now = (c1, ret cost) ->
  MarginalNano cost = 0 /\ SubscriptionNano cost = 0 /\ AdjustmentNano cost = 0 /\ TotalNano cost = 0 /\
  Components cost = [] /\ NoPrice cost <> NoPriceNone /\ subs c1 = subs c /\
  let k := carry_at (carries c) (settlementBucket req) in
  let k' := carry_at (carries c1) (settlementBucket req) in
  k_marginal k' = k_marginal k /\ k_subscription k' = k_subscription k /\ k_adjustment k' = k_adjustment k.
Proof.
  intros C R P E. pose proof (compute_spec c req true tnow now C R) as S. cbv zeta in S. unfold Settle in E. rewrite E in S.
  destruct S as (_ & _ & _ & _ & _ & _ & (Su & k' & Hk & (aN & (_ & Rt) & _ & _ & _ & To & Ad & Np))).
  rewrite P in Rt, Np. destruct Rt as (Hm & Hs & -> & K1 & K2 & K3). destruct (Np eq_refl) as [Hc Hn].
  rewrite Hm, Hs in To, Ad. cbn in To, Ad. rewrite Hk by done. cbn [start_carry] in *.
  assert (subs c1 = subs c) by (rewrite Su; unfold subs_after, plan_of; by rewrite P).
  split_and!; done.
Qed.

(** ** A settlement that fails *)

(** A flat plan, and list rates to compare it with. *)
Definition list_rule : rule :=
  mkRule (bytes_of_string "list") ClassNotional LevelDefault 0 0 [] [] [] [] [] 0 None UnitPerMillionTokens sample_rate []
    TierThreshold None 1 (mkU128 0 0) [] PeriodMonthly UTC AdjPercent (mkDecimal false 0 0 []) (mkU128 0 0)
    BaseTotal (bytes_of_string "vendor") 0 (bytes_of_string "1970-01-01").
Definition flat_catalog : Catalog := newCatalog [plan_rule; list_rule].
Definition bad_request : Request :=
  mkRequest [] (bytes_of_string "gpt-4") [] [] (-1) 0 0 0 0 0 0 0 0 0 F64.zero F64.zero BilledUnstated 0 false 0 false
    mid_month [].

Lemma flat_catalog_ok : catalog_ok flat_catalog.
Proof.
  apply newCatalog_ok. split; [|vm_compute; repeat (constructor; [set_solver|]); constructor].
  repeat apply Forall_cons_2; [..|apply Forall_nil_2];
    (apply plain_rule_ok; [split; vm_compute; reflexivity|apply sample_rates_ok || apply no_rates_ok|done|done|..|done|]);
    try (apply wf_intro; cbn; widths; lia); cbn; widths; lia.
Qed.


(** ** Utilization *)

(** The utilization factor never discounts and never exceeds its ceiling: the
    scaled charge lies between the base charge and the declared multiple of it,
    which is at most four. *)
Theorem utilization_within_ceiling r req u base comps : util_ok r -> req_ok req -> util r = Some u ->
  awf base -> 0 <= sval base -> declared (util r) = true ->
  match applyUtilization r req base comps with
  | Some (Ok f) => OnePPM <= f_ppm f <= ceilingPPM u /\ ceilingPPM u <= 4 * OnePPM /\
      sval base <= sval (f_amt f) <= sval base * ceilingPPM u / OnePPM
  | Some (Err _) => True
  | None => False
  end.
Proof.
  intros U R E W N D. pose proof (applyUtilization_yields r req base comps U R W N D) as Y.
  destruct (multiplier_bounds r req U R) as [[L _] Hc]. specialize (Hc u E).
  unfold util_ok in U. rewrite E in U. destruct U as [_ [_ Cm]]. unfold MaxDeclarableMultiplierPPM in Cm.
  destruct (applyUtilization r req base comps) as [[f|e]|]; [|done|done]. destruct Y as (_ & -> & ->).
  split_and!; try done.
  - apply Z.div_le_lower_bound; [done|]. nia.
  - apply Z.div_le_mono; [done|]. nia.
Qed.
