(* ===== verification/PriceState.v ===== *)
(** * Accounting state across reloads and restarts ([internal/pricing/catalog.go])

    [AdoptState] carries the accumulators and carries of one catalogue into the
    one a reload builds; [SnapshotState] and [RestoreState] carry the
    accumulators of one process to the next. Neither lets a plan charge a period
    twice. *)
From Stdlib Require Import String.
From stdpp Require Import base gmap list sorting.
From Stdlib Require Import ZArith Lia SpecFloat.
From S2P Require Import Prelude U128 Decimal GoTime F64 PriceCatalog PriceSelect Price PriceUsage PriceInv PriceSettle PriceProps.
Open Scope Z_scope.
Open Scope go_scope.

(** ** Reload *)

(** What an entry takes over from the previous catalogue. *)
Definition adopt_entry (prev : accounts) (i : bytes) (e : rule * option subSnapshot) : rule * option subSnapshot :=
  match prev !! i with
  | Some (_, Some snap) => (fst e, Some snap)
  | _ => e
  end.

(** [AdoptState]; [prev] is [None] for nil. Adopting from the catalogue itself
    changes nothing, as the code's early return does. *)
Definition AdoptState (c : Catalog) (prev : option Catalog) : Catalog :=
  match prev with
  | None => c
  | Some prev =>
      mkCatalog (crules c) (idx c) (map_imap (fun i e => Some (adopt_entry (subs prev) i e)) (subs c))
        (carries prev ∪ carries c)
  end.

(** ** Restart *)

Record SubscriptionState : Type := mkState { SRuleID : bytes; SPeriodStart : Z; SAttributed : bytes }.

(** The projection of one accumulator; [None] is a panic. *)
Definition snapshot_one (at_ : Z) (i : bytes) (own : rule) (snap : subSnapshot) : option SubscriptionState :=
  let? a :=
    (if negb (Time.Before at_ (periodStart snap)) then
       let '(_, end_) := periodBounds (period own) (periodStart snap) (loc own) in
       match accrue (amountAtto own) at_ (periodStart snap) end_ with
       | None => None
       | Some (Ok ahead) => Some (if 0 <? cmp ahead (attributed snap) then ahead else attributed snap)
       | Some (Err _) => Some (attributed snap)
       end
     else Some (attributed snap)) in
  let? t := text a in
  Some (mkState i (periodStart snap) t).

Fixpoint snapshot_loop (at_ : Z) (l : list (bytes * (rule * option subSnapshot))) : option (list SubscriptionState) :=
  match l with
  | [] => Some []
  | (i, (own, None)) :: l' => snapshot_loop at_ l'
  | (i, (own, Some snap)) :: l' =>
      let? s := snapshot_one at_ i own snap in
      let? rest := snapshot_loop at_ l' in
      Some (s :: rest)
  end.

(** [out[i].RuleID < out[j].RuleID] *)
Definition state_le : relation SubscriptionState := fun a b => lexb (SRuleID b) (SRuleID a) = false.
#[global] Instance state_le_dec a b : Decision (state_le a b).
Proof. unfold state_le. apply _. Defined.

Definition SnapshotState (c : Catalog) (at_ : Z) : option (list SubscriptionState) :=
  let? out := snapshot_loop at_ (map_to_list (subs c)) in
  Some (merge_sort state_le out).

(** One state against its accumulator: what is stored, if anything. *)
Definition restore_one (now : Z) (e : rule * option subSnapshot) (s : SubscriptionState)
  : option (result num_error (option subSnapshot)) :=
  let? parsed := parseU128 (SAttributed s) in
  match parsed with
  | Err er => Some (Err er)
  | Ok a =>
      if Time.IsZero (SPeriodStart s) then Some (Ok None)
      else
        let '(r, cur) := e in
        let '(openStart, _) := periodBounds (period r) now (loc r) in
        let start := if Time.After (SPeriodStart s) openStart then openStart else SPeriodStart s in
        let a := if 0 <? cmp a (amountAtto r) then amountAtto r else a in
        Some (Ok (if match cur with
                     | None => true
                     | Some k => Time.After start (periodStart k)
                                 || ((start =? periodStart k) && (0 <? cmp a (attributed k)))
                     end
                  then Some (mkSnapshot start a) else None))
  end.

(** The loop of [RestoreState]: the accumulators, and how many were adopted or
    the error with the rule's id. *)
Fixpoint restore_loop (states : list SubscriptionState) (now : Z) (ss : accounts) (adopted : Z)
  : accounts * option (Z * option (bytes * num_error)) :=
  match states with
  | [] => (ss, Some (adopted, None))
  | s :: states' =>
      match ss !! SRuleID s with
      | None => restore_loop states' now ss adopted
      | Some e =>
          match restore_one now e s with
          | None => (ss, None)
          | Some (Err er) => (ss, Some (adopted, Some (SRuleID s, er)))
          | Some (Ok None) => restore_loop states' now ss adopted
          | Some (Ok (Some k)) => restore_loop states' now (<[SRuleID s := (fst e, Some k)]> ss) (adopted + 1)
          end
      end
  end.

Definition RestoreState (c : Catalog) (states : list SubscriptionState) (now : Z)
  : Catalog * option (Z * option (bytes * num_error)) :=
  let '(ss, r) := restore_loop states now (subs c) 0 in (set_subs c ss, r).

(** ** How far an accumulator has come *)

(** [k'] leaves the plan no more to attribute than [k], whatever the period. *)
Definition ahead (r : rule) (k k' : option subSnapshot) : Prop := forall p, remaining r k' p <= remaining r k p.

#[global] Instance ahead_preorder r : PreOrder (ahead r).
Proof. split; [intros k p; lia|intros a b c H1 H2 p; specialize (H1 p); specialize (H2 p); lia]. Qed.

Lemma ahead_same r q a a' : val (attributed a) <= val (attributed a') \/ val (amountAtto r) <= val (attributed a') ->
  periodStart a = q -> periodStart a' = q -> ahead r (Some a) (Some a').
Proof.
  intros L E E' p. unfold remaining, past, used. rewrite E, E'. destruct (p <? q); [lia|]. destruct (q =? p); lia.
Qed.

Lemma ahead_later r a a' : 0 <= val (attributed a') -> 0 <= val (amountAtto r) ->
  periodStart a < periodStart a' -> ahead r (Some a) (Some a').
Proof.
  intros N W L p. unfold remaining, past, used.
  destruct (Z.ltb_spec p (periodStart a')); [destruct (p <? periodStart a); lia|].
  rewrite (proj2 (Z.ltb_ge p (periodStart a))) by lia. rewrite (proj2 (Z.eqb_neq (periodStart a) p)) by lia.
  destruct (_ =? _); lia.
Qed.

(** ** Restoring *)

Definition clock_reached (c : Catalog) (now : Z) : Prop :=
  forall i own s, subs c !! i = Some (own, Some s) ->
    periodStart s <= fst (periodBounds (period own) now (loc own)) /\ periodStart s <> Time.zeroTime.

(** A state as a snapshot of [snap] writes it. *)
Definition describes (now : Z) (r : rule) (snap : subSnapshot) (s : SubscriptionState) : Prop :=
  SRuleID s = id r /\ SPeriodStart s = periodStart snap /\
  periodStart snap <= fst (periodBounds (period r) now (loc r)) /\ periodStart snap <> Time.zeroTime /\
  exists a, parseU128 (SAttributed s) = Some (Ok a) /\ wf a /\ val (attributed snap) <= val a.

Lemma restore_one_ahead now r cur snap s : wf (amountAtto r) -> (forall k, cur = Some k -> wf (attributed k)) ->
  describes now r snap s ->
  exists o, restore_one now (r, cur) s = Some (Ok o) /\
    let new := match o with Some k => Some k | None => cur end in
    ahead r cur new /\ ahead r (Some snap) new /\ (forall k, new = Some k -> wf (attributed k)).
Proof.
  intros W Wc (_ & Es & Le & Nz & a & Ep & Wa & La). unfold restore_one. rewrite Ep.
  unfold Time.IsZero. rewrite Es, (proj2 (Z.eqb_neq _ _)) by done.
  destruct (periodBounds (period r) now (loc r)) as [openStart e]. cbn [fst] in Le.
  unfold Time.After. rewrite (proj2 (Z.ltb_ge openStart (periodStart snap))) by lia.
  set (a' := if 0 <? cmp a (amountAtto r) then amountAtto r else a).
  assert (wf a' /\ (val a <= val a' \/ val (amountAtto r) <= val a')) as [Wa' La'].
  { unfold a'. rewrite cmp_val by done. destruct (Z.ltb_spec (val a) (val (amountAtto r))); cbn; [split; [done|lia]|].
    destruct (Z.eqb_spec (val a) (val (amountAtto r))); cbn; split; try done; lia. }
  eexists. split; [reflexivity|]. cbv zeta. clearbody a'. pose proof (val_range _ W). pose proof (val_range _ Wa').
  assert (ahead r (Some snap) (Some (mkSnapshot (periodStart snap) a'))) as As
    by (eapply ahead_same; [cbn; lia|done|done]).
  destruct cur as [k|].
  - specialize (Wc k eq_refl). pose proof (val_range _ Wc). rewrite cmp_val by done.
    destruct (Z.ltb_spec (periodStart k) (periodStart snap)) as [Lt|Ge]; cbn [orb].
    { split_and!; [apply ahead_later; cbn; lia|done|]. by intros ? [= <-]. }
    destruct (Z.eqb_spec (periodStart snap) (periodStart k)) as [Eq|Ne]; cbn [andb].
    + destruct (Z.ltb_spec (val a') (val (attributed k))); [|destruct (Z.eqb_spec (val a') (val (attributed k)))]; cbn.
      1,2: split_and!; [done| |by intros ? [= <-]]; rewrite As; eapply ahead_same; [cbn; lia|done|done].
      split_and!; [|done|by intros ? [= <-]]. eapply ahead_same; [cbn; lia|done|done].
    + split_and!; [done| |by intros ? [= <-]]. rewrite As. apply ahead_later; cbn; lia.
  - split_and!; [|done|by intros ? [= <-]]. intros p. unfold remaining, past, used. cbn.
    destruct (p <? periodStart snap), (periodStart snap =? p); lia.
Qed.

Section Restart.
Variable rules : list rule.
Hypothesis loaded : rules_ok rules.

Definition amounts_wf r (H : r ∈ rules) : wf (amountAtto r).
Proof. destruct loaded as [F _]. eapply Forall_forall in F; [|exact H]. apply F. Qed.

(** The states of a list describe accumulators of plans among the rules. *)
Definition described (now : Z) (s : SubscriptionState) : Prop :=
  exists r snap, r ∈ rules /\ class r = ClassSubscription /\ describes now r snap s.

Lemma restore_loop_ahead now states : Forall (described now) states -> forall ss n, subs_ok rules ss ->
  exists ss' n', restore_loop states now ss n = (ss', Some (n', None)) /\ subs_ok rules ss' /\
    forall r cur, r ∈ rules -> class r = ClassSubscription -> ss !! id r = Some (r, cur) ->
      exists cur', ss' !! id r = Some (r, cur') /\ ahead r cur cur' /\
        forall snap s, s ∈ states -> describes now r snap s -> ahead r (Some snap) cur'.
Proof.
  induction 1 as [|s states (r & snap & Hr & Cl & D) _ IH]; intros ss n S; cbn [restore_loop].
  { eexists _, _. split; [reflexivity|]. split; [done|]. intros r cur Hr _ L. exists cur. split_and!; [done|done|].
    intros snap s Hs. by apply elem_of_nil in Hs. }
  destruct S as (S1 & S2 & S3). destruct (S1 r Hr Cl) as [cur L]. assert (SRuleID s = id r) as Ei by apply D. rewrite Ei, L.
  assert (forall k, cur = Some k -> wf (attributed k)) as Wc by (intros k ->; by eapply S2).
  destruct (restore_one_ahead now r cur snap s (amounts_wf r Hr) Wc D) as (o & Eo & A1 & _ & Wn). rewrite Eo.
  set (new := match o with Some k => Some k | None => cur end) in *.
  assert (exists ss1 n1, (match o with
      | None => restore_loop states now ss n
      | Some k => restore_loop states now (<[id r := (fst (r, cur), Some k)]> ss) (n + 1)
      end) = restore_loop states now ss1 n1 /\ subs_ok rules ss1 /\ ss1 !! id r = Some (r, new) /\
      forall i, i <> id r -> ss1 !! i = ss !! i) as (ss1 & n1 & -> & S' & L' & Lo).
  { destruct o as [k|]; [|by eexists _, _]. exists (<[id r := (r, Some k)]> ss), (n + 1). split; [done|].
    split_and!; [|by rewrite lookup_insert_eq|intros i Hi; by rewrite lookup_insert_ne by done].
    destruct k as [q a]. apply subs_ok_insert; [apply loaded|done|done|done|]. by apply (Wn (mkSnapshot q a)). }
  destruct (IH ss1 n1 S') as (ss' & n' & -> & Sf & G). eexists _, _. split; [reflexivity|]. split; [done|].
  intros r0 cur0 Hr0 Cl0 L0. destruct (decide (id r0 = id r)) as [E|Ne].
  - assert (r0 = r) as -> by (by apply (id_unique rules); [apply loaded| | |]).
    rewrite L in L0. injection L0 as <-. destruct (G r new Hr Cl L') as (cur' & Lf & B1 & B2). exists cur'.
    split_and!; [done|by rewrite A1|]. intros snap0 s0 Hs0 D0. apply elem_of_cons in Hs0 as [->|Hs0]; [|by eapply B2].
    destruct (restore_one_ahead now r cur snap0 s (amounts_wf r Hr) Wc D0) as (o' & Eo' & _ & A3 & _).
    rewrite Eo in Eo'. injection Eo' as <-. by rewrite <- B1.
  - rewrite <- (Lo (id r0) Ne) in L0. destruct (G r0 cur0 Hr0 Cl0 L0) as (cur' & Lf & B1 & B2). exists cur'.
    split_and!; [done|done|]. intros snap0 s0 Hs0 D0. apply elem_of_cons in Hs0 as [->|Hs0]; [|by eapply B2].
    destruct D0 as [E0 _]. congruence.
Qed.
End Restart.

(** ** Snapshots *)

Lemma snapshot_one_describes c now at_ r snap : catalog_ok c -> clock_reached c now -> r ∈ crules c ->
  subs c !! id r = Some (r, Some snap) ->
  exists s, snapshot_one at_ (id r) r snap = Some s /\ describes now r snap s.
Proof.
  intros C K Hr L. destruct (K _ _ _ L) as [Le Nz]. destruct C as ((F & _) & _ & (_ & S2 & _) & _).
  assert (wf (amountAtto r)) as W by (eapply Forall_forall in F; [|exact Hr]; apply F).
  assert (wf (attributed snap)) as Ws by (by eapply S2). unfold snapshot_one.
  assert (exists a, (if negb (Time.Before at_ (periodStart snap))
     then let '(_, end_) := periodBounds (period r) (periodStart snap) (loc r) in
          match accrue (amountAtto r) at_ (periodStart snap) end_ with
          | None => None
          | Some (Ok ahead) => Some (if 0 <? cmp ahead (attributed snap) then ahead else attributed snap)
          | Some (Err _) => Some (attributed snap)
          end
     else Some (attributed snap)) = Some a /\ wf a /\ val (attributed snap) <= val a) as (a & -> & Wa & La).
  { destruct (negb _); [|exists (attributed snap); split_and!; [done|done|lia]].
    destruct (periodBounds _ (periodStart snap) _) as [st en]. destruct (accrue_total (amountAtto r) at_ (periodStart snap) en W) as (v & -> & Wv & _).
    cbn [ret]. eexists. split; [reflexivity|]. rewrite cmp_val by done.
    destruct (Z.ltb_spec (val v) (val (attributed snap))); cbn; [split; [done|lia]|].
    destruct (Z.eqb_spec (val v) (val (attributed snap))); cbn; split; try done; lia. }
  destruct (text_parses a Wa) as (t & -> & _ & _ & Ep). eexists. split; [reflexivity|].
  unfold describes. cbn. split_and!; eauto.
Qed.

Lemma snapshot_loop_describes c now at_ l : catalog_ok c -> clock_reached c now ->
  (forall i own snap, (i, (own, snap)) ∈ l -> subs c !! i = Some (own, snap)) ->
  exists out, snapshot_loop at_ l = Some out /\ Forall (described (crules c) now) out /\
    forall r snap, (id r, (r, Some snap)) ∈ l -> exists s, s ∈ out /\ describes now r snap s.
Proof.
  intros C K. induction l as [|[i [own [snap|]]] l IH]; intros L; cbn [snapshot_loop].
  - eexists. split; [reflexivity|]. split; [done|]. intros r snap H. by apply elem_of_nil in H.
  - destruct IH as (out & -> & F & G); [intros; apply L; by right|].
    assert (subs c !! i = Some (own, Some snap)) as Li by (apply L; left).
    destruct C as (C1 & C2 & (S1 & S2 & S3) & C4). destruct (S3 _ _ _ Li) as (Ho & Cl & ->).
    assert (catalog_ok c) as C by (by split_and!).
    destruct (snapshot_one_describes c now at_ own snap C K Ho) as (s & -> & D); [done|].
    eexists. split; [reflexivity|]. split; [apply Forall_cons; split; [by exists own, snap|done]|].
    intros r sn H. apply elem_of_cons in H as [E|H]; [|destruct (G r sn H) as (s' & Hs & Ds); exists s'; split; [by right|done]].
    injection E as _ -> ->. exists s. split; [left|done].
  - destruct IH as (out & -> & F & G); [intros; apply L; by right|].
    eexists. split; [reflexivity|]. split; [done|]. intros r sn H. apply elem_of_cons in H as [E|H]; [done|by apply G].
Qed.

(** ** The life of an accumulator *)

(** Settlements, reloads of the same rules and restarts, in any order, with the
    shares every settlement took. A restarted process reads a clock that has
    reached the periods its predecessor had open. *)
Inductive life (c0 : Catalog) : list (bytes * Z * Z) -> Catalog -> Prop :=
| life_start : life c0 [] c0
| life_run l c run : life c0 l c -> Forall (fun '(req, _, _) => req_ok req) run ->
    life c0 (l ++ shares c run) (after_run c run)
| life_reload l c : life c0 l c -> life c0 l (AdoptState (newCatalog (crules c)) (Some c))
| life_restart l c at_ states now : life c0 l c -> SnapshotState c at_ = Some states -> clock_reached c now ->
    life c0 l (fst (RestoreState (newCatalog (crules c)) states now)).

Lemma snap_of_lookup c r : catalog_ok c -> r ∈ crules c -> class r = ClassSubscription ->
  subs c !! id r = Some (r, snap_of c r).
Proof. intros (_ & _ & (S1 & _) & _) Hr Cl. unfold snap_of. destruct (S1 r Hr Cl) as [s E]. by rewrite E. Qed.

Lemma adopt_ok c prev : catalog_ok c -> catalog_ok prev -> catalog_ok (AdoptState c (Some prev)).
Proof.
  intros (R & I & (S1 & S2 & S3) & K) (_ & _ & (_ & P2 & _) & K'). split_and!; cbn; [done|done| |].
  - assert (forall i own s, map_imap (fun i e => Some (adopt_entry (subs prev) i e)) (subs c) !! i = Some (own, s) ->
      exists s0, subs c !! i = Some (own, s0) /\ (s = s0 \/ exists o, subs prev !! i = Some (o, s))) as G.
    { intros i own s. rewrite map_lookup_imap. destruct (subs c !! i) as [[own' s']|]; [|done]. cbn. unfold adopt_entry.
      destruct (subs prev !! i) as [[o [sn|]]|] eqn:E; cbn; intros [= -> ->]; eexists; (split; [reflexivity|]); eauto. }
    split_and!.
    + intros r Hr Cl. destruct (S1 r Hr Cl) as [s L]. rewrite map_lookup_imap, L. cbn. unfold adopt_entry.
      destruct (subs prev !! id r) as [[o [sn|]]|]; cbn; eauto.
    + intros i own s H. apply G in H as (s0 & L & [<-|[o L']]); [by eapply S2|by eapply P2].
    + intros i own s H. apply G in H as (s0 & L & _). by eapply S3.
  - intros b k H. apply lookup_union_Some_raw in H as [H|[_ H]]; [by eapply K'|by eapply K].
Qed.

Lemma adopt_snap c r : catalog_ok c -> r ∈ crules c -> class r = ClassSubscription ->
  snap_of (AdoptState (newCatalog (crules c)) (Some c)) r = snap_of c r.
Proof.
  intros C Hr Cl. pose proof (snap_of_lookup c r C Hr Cl) as L. unfold snap_of at 1. cbn. rewrite map_lookup_imap.
  rewrite newCatalog_subs; [|apply NoDup_map_filter, C|by apply list_elem_of_filter]. cbn. unfold adopt_entry. rewrite L.
  by destruct (snap_of c r).
Qed.

Lemma restart_ahead c at_ states now : catalog_ok c -> SnapshotState c at_ = Some states -> clock_reached c now ->
  let c' := fst (RestoreState (newCatalog (crules c)) states now) in
  catalog_ok c' /\ crules c' = crules c /\ snd (RestoreState (newCatalog (crules c)) states now) <> None /\
  forall r, r ∈ crules c -> class r = ClassSubscription -> ahead r (snap_of c r) (snap_of c' r).
Proof.
  intros C Es K. pose proof C as (Rl & I & (S1 & S2 & S3) & _). unfold SnapshotState in Es.
  destruct (snapshot_loop_describes c now at_ (map_to_list (subs c)) C K) as (out & Eo & F & G).
  { intros i own snap H. by apply elem_of_map_to_list in H. }
  rewrite Eo in Es. injection Es as <-. pose proof (newCatalog_ok (crules c) Rl) as C0.
  destruct (restore_loop_ahead (crules c) Rl now (merge_sort state_le out)) with (ss := subs (newCatalog (crules c))) (n := 0)
    as (ss' & n' & E & Sf & H); [by rewrite merge_sort_Permutation|apply C0|].
  unfold RestoreState. rewrite E. cbn [fst snd]. split_and!; [|done|done|].
  { destruct C0 as (? & ? & _ & ?). by split_and!. }
  intros r Hr Cl. pose proof (snap_of_lookup c r C Hr Cl) as L. pose proof (snap_of_lookup _ r C0 Hr Cl) as L0.
  destruct (H r _ Hr Cl L0) as (cur' & Lf & _ & B). unfold snap_of at 2. cbn [subs set_subs]. rewrite Lf.
  destruct (snap_of c r) as [snap|].
  - destruct (G r snap) as (s & Hs & D); [by apply elem_of_map_to_list|]. eapply B; [|exact D].
    by rewrite merge_sort_Permutation.
  - intros p. assert (0 <= used cur' p) as U.
    { unfold used. destruct cur' as [k|]; [|lia]. destruct (_ =? _); [|lia]. apply val_range. destruct Sf as (_ & W & _). by eapply W. }
    pose proof (val_range _ (amounts_wf _ Rl r Hr)). unfold remaining. cbn. destruct (past cur' p); lia.
Qed.


(** ** Executions *)

(** [clock_reached], computed. *)
Definition clock_check (c : Catalog) (now : Z) : bool :=
  forallb (fun '(i, (own, s)) =>
    match s with
    | None => true
    | Some s => (periodStart s <=? fst (periodBounds (period own) now (loc own))) && negb (periodStart s =? Time.zeroTime)
    end) (map_to_list (subs c)).

Lemma clock_check_reached c now : clock_check c now = true -> clock_reached c now.
Proof.
  intros H i own s L. apply elem_of_map_to_list in L. unfold clock_check in H. rewrite forallb_forall in H.
  apply list_elem_of_In in L. specialize (H _ L). cbn in H. breflect. split; done.
Qed.

(** The first run, a reload, a restart half an hour later, the same run again. *)
Definition first_life : Catalog := after_run sample_catalog sample_run.
Definition reloaded : Catalog := AdoptState (newCatalog (crules first_life)) (Some first_life).
Definition states_of (o : option (list SubscriptionState)) : list SubscriptionState := default [] o.
Definition written : list SubscriptionState := states_of (SnapshotState reloaded (mid_month + Time.Hour)).
Definition restarted : Catalog :=
  fst (RestoreState (newCatalog (crules reloaded)) written (mid_month + Time.Hour)).
Definition late_request : Request :=
  mkRequest [] (bytes_of_string "gpt-4") [] [] 1 0 0 0 0 0 0 0 0 0 F64.zero F64.zero BilledUnstated 0 false 0 false
    (mid_month + 240 * Time.Hour) [].
Definition late_run : list (Request * Z * Z) := [(late_request, 0, mid_month + 240 * Time.Hour)].

Lemma late_run_ok : Forall (fun '(req, _, _) => req_ok req) late_run.
Proof. apply Forall_cons_2; [|done]. unfold req_ok. cbn. unfold is_i64. widths. lia. Qed.


(** *** A clock that ran ahead *)

(** The end of January, and the first days of February. *)
Definition end_of_january : Z := Time.Date 1970 2 1 - Time.Hour.
Definition in_february : Z := Time.Date 1970 2 3.
Definition stamp (t : Z) : Request * Z * Z :=
  (mkRequest [] (bytes_of_string "gpt-4") [] [] 1 0 0 0 0 0 0 0 0 0 F64.zero F64.zero BilledUnstated 0 false 0 false t [], 0, t).
Definition ahead_life : Catalog := after_run sample_catalog [stamp end_of_january; stamp in_february].
Definition corrected : Catalog :=
  fst (RestoreState (newCatalog sample_rules) (states_of (SnapshotState ahead_life in_february)) end_of_january).


(** *** A plan whose period changed *)

Definition with_period (name : Period) (amount : u128) : rule :=
  mkRule (bytes_of_string "plan") ClassSubscription LevelDefault 0 0 [] [] [] [] [] 0 None UnitSubscription (fun _ => None) []
    TierThreshold None 0 amount [] name UTC AdjPercent (mkDecimal false 0 0 []) (mkU128 0 0) BaseTotal [] 0 [].

(** A plan reloaded with a longer period attributes nothing for the rest of
    it, however dear it is: a daily plan of 1 that becomes a monthly plan of 100
    on the sixteenth charges nothing at the end of the month, where the same plan
    without the reload charges nearly all of it. *)
Theorem longer_period_silences_plan :
  let daily := newCatalog [with_period PeriodDaily (mkU128 0 1000000000000000000)] in
  let monthly := newCatalog [with_period PeriodMonthly (amountAtto plan_rule)] in
  let reloaded := AdoptState monthly (Some (after_run daily [stamp mid_month])) in
  share_sum (bytes_of_string "plan") 0 (shares reloaded [stamp end_of_january]) = 0 /\
  99 * 10 ^ 18 < share_sum (bytes_of_string "plan") 0 (shares monthly [stamp end_of_january]).
Proof. vm_compute. split; reflexivity. Qed.
