(* ===== verification/PriceLoad.v ===== *)
(** * Loading a price catalogue ([internal/pricing/types.go], [catalog.go],
    [match.go], [utilization.go]; [internal/app/build.go])

    From the decoded document to the compiled rules: the vocabulary parsers, the
    time predicate, the rate table, plans, adjustments, the utilization block,
    and the whole catalogue. The YAML decoder is not part of the repository: a
    document is what it decodes to. [time.LoadLocation] reads the system's time
    zone database and is a parameter. An error is a constructor, without its text.

    [encodeRule] renders a rule of the main configuration in the catalogue's
    vocabulary, as [buildPricing] does before it loads both. *)
From Stdlib Require Import String.
From stdpp Require Import base gmap list sorting.
From Stdlib Require Import ZArith Lia.
From S2P Require Import Prelude U128 Decimal GoTime F64 PriceCatalog Price.
Open Scope Z_scope.
Open Scope go_scope.

(** ** The decoded document *)

Record rawMatch : Type := mkRawMatch {
  mCredential : bytes; mDeployment : bytes; mProvider : bytes; mModel : bytes; mModelPrefix : bytes }.
Record rawWhen : Type := mkRawWhen { TimeOfDay : bytes; TZ : bytes; Weekday : list bytes; DateRange : bytes }.

(** The rate fields of a rule or a tier: what [rateStrings] returns. The three
    server-tool components have no field in either. *)
Record rateFields : Type := mkFields {
  fInput : bytes; fOutput : bytes; fCacheRead : bytes; fCacheWrite : bytes; fReasoning : bytes; fRequest : bytes;
  fCharacters : bytes; fComputeSeconds : bytes; fAudioSeconds : bytes; fReportedCost : bytes }.
Definition rateStrings (r : rateFields) (i : component) : bytes :=
  match i with
  | cInput => fInput r | cOutput => fOutput r | cCacheRead => fCacheRead r | cCacheWrite => fCacheWrite r
  | cReasoning => fReasoning r | cRequest => fRequest r | cCharacters => fCharacters r
  | cComputeSeconds => fComputeSeconds r | cAudioSeconds => fAudioSeconds r | cReportedCost => fReportedCost r
  | cWebSearches | cImageInput | cImageOutput => []
  end.

(** A tier's [fReportedCost] is always empty: a tier has no such key. *)
Record rawTier : Type := mkRawTier { UpToInputTokens : option Z; tFields : rateFields; tSeconds : bytes }.
Record rawUtilization : Type := mkRawUtil { Slope : bytes; MaxMultiplier : bytes }.
Record rawRule : Type := mkRawRule {
  rID : bytes; rClass : bytes; rMatch : rawMatch; rWhen : option rawWhen; rUnit : bytes; rPriority : Z;
  rFields : rateFields; rSeconds : bytes; rTiers : list rawTier; rTierMode : bytes; rUtilization : option rawUtilization;
  rAmountPerPeriod : bytes; rPeriod : bytes; rOp : bytes; rAmount : bytes; rAppliesTo : bytes; rOrder : Z;
  rSource : bytes; rAsOf : bytes }.
Record rawCatalog : Type := mkRawCatalog { rCurrency : bytes; rTZ : bytes; rRules : list rawRule }.

Inductive load_error : Type :=
| LUnknownClass | LUnknownUnit | LAmbiguousSecond | LUnknownPeriod | LUnknownTierMode | LUnknownOp | LUnknownBase
| LNoID | LDuplicateID | LForeignField | LAmbiguousRate | LTierIncrease | LLastTier | LOnlyLast | LNoRates | LTierModeAlone
| LGraduatedInput | LWrongUnit | LRate (e : num_error) | LNegative | LTooFine | LOverflow | LRequired
| LMultiplyNegative | LDiscount | LUtilClass | LUtilRange | LUtilZero | LWhenTZ | LWhenClock | LWhenDay | LWhenDate
| LWhenEmpty | LSource | LReportedNotional | LUnknownComponent | LMixedUnits.

(** [None] is a panic. *)
Definition load (A : Type) : Type := option (result load_error A).
Definition ok {A} (a : A) : load A := Some (Ok a).
Definition refuse {A} (e : load_error) : load A := Some (Err e).
Definition given (s : bytes) : bool := negb (is_empty s).

(** A literal. *)
Definition decimal_of (s : bytes) : load decimal :=
  match parseDecimal s with Ok d => ok d | Err e => refuse (LRate e) end.
Definition atto_of (d : decimal) : load u128 :=
  match atto d with None => None | Some (a, true) => ok a | Some (_, false) => refuse LOverflow end.

(** ** Vocabulary *)

Definition lit (s : string) : bytes := bytes_of_string s.
Definition is_lit (s : bytes) (names : list string) : bool := existsb (fun n => beqb s (lit n)) names.

Definition parseClass (s : bytes) : load Class :=
  if is_lit s [""; "marginal_usage"]%string then ok ClassMarginal
  else if is_lit s ["fixed_subscription"]%string then ok ClassSubscription
  else if is_lit s ["adjustment"]%string then ok ClassAdjustment
  else if is_lit s ["notional_rate"]%string then ok ClassNotional
  else refuse LUnknownClass.

Definition parseUnit (s : bytes) : load Unit :=
  if is_lit s ["per_1m_tokens"]%string then ok UnitPerMillionTokens
  else if is_lit s ["per_request"]%string then ok UnitPerRequest
  else if is_lit s ["per_1k_characters"]%string then ok UnitPerThousandCharacters
  else if is_lit s ["per_compute_second"]%string then ok UnitPerComputeSecond
  else if is_lit s ["per_audio_second"]%string then ok UnitPerAudioSecond
  else if is_lit s ["subscription"]%string then ok UnitSubscription
  else if is_lit s ["per_second"]%string then refuse LAmbiguousSecond
  else refuse LUnknownUnit.

Definition parsePeriod (s : bytes) : load Period :=
  if is_lit s [""; "monthly"]%string then ok PeriodMonthly
  else if is_lit s ["daily"]%string then ok PeriodDaily
  else if is_lit s ["weekly"]%string then ok PeriodWeekly
  else if is_lit s ["yearly"; "annual"]%string then ok PeriodYearly
  else refuse LUnknownPeriod.

Definition parseTierMode (s : bytes) : load TierMode :=
  if is_lit s [""; "threshold"]%string then ok TierThreshold
  else if is_lit s ["graduated"]%string then ok TierGraduated
  else refuse LUnknownTierMode.

Definition parseAdjOp (s : bytes) : load AdjOp :=
  if is_lit s [""; "percent"]%string then ok AdjPercent
  else if is_lit s ["multiply"]%string then ok AdjMultiply
  else if is_lit s ["add"]%string then ok AdjAdd
  else refuse LUnknownOp.

Definition parseAdjBase (s : bytes) : load AdjBase :=
  if is_lit s [""; "total"]%string then ok BaseTotal
  else if is_lit s ["marginal"]%string then ok BaseMarginal
  else if is_lit s ["subscription"]%string then ok BaseSubscription
  else refuse LUnknownBase.

(** ** Clocks and dates *)

Definition parseSmallInt (s : bytes) : option Z :=
  if is_empty s || (2 <? Z.of_nat (length s)) || negb (allDigits s) then None
  else Some (fold_left (fun v c => v * 10 + (c - 48)) s 0).

Definition parseClock (s : bytes) : load Z :=
  match IndexByte s 58 with
  | None => refuse LWhenClock
  | Some colon =>
      match parseSmallInt (firstn colon s) with
      | None => refuse LWhenClock
      | Some h =>
          if 24 <? h then refuse LWhenClock
          else
            match parseSmallInt (skipn (S colon) s) with
            | None => refuse LWhenClock
            | Some m =>
                if (59 <? m) || ((h =? 24) && negb (m =? 0)) then refuse LWhenClock else ok (h * 60 + m)
            end
      end
  end.

Definition parseWindow (s : bytes) : load (Z * Z) :=
  match IndexByte s 45 with
  | None => refuse LWhenClock
  | Some dash =>
      let$ start := parseClock (TrimSpace (firstn dash s)) in
      let$ end_ := parseClock (TrimSpace (skipn (S dash) s)) in
      if start =? end_ then refuse LWhenClock else ok (start, end_)
  end.

(** [time.ParseInLocation], for the two layouts the package uses. *)
Definition getnum (s : bytes) (fixed : bool) : option (Z * bytes) :=
  match s with
  | a :: b :: s' => if is_digit a then
                      if is_digit b then Some ((a - 48) * 10 + (b - 48), s')
                      else if fixed then None else Some (a - 48, b :: s')
                    else None
  | [a] => if is_digit a && negb fixed then Some (a - 48, []) else None
  | [] => None
  end.
Definition get_year (s : bytes) : option (Z * bytes) :=
  if (4 <=? Z.of_nat (length s)) && allDigits (firstn 4 s)
  then Some (fold_left (fun v c => v * 10 + (c - 48)) (firstn 4 s) 0, skipn 4 s) else None.
Definition expect (c : Z) (s : bytes) : option bytes :=
  match s with x :: s' => if x =? c then Some s' else None | [] => None end.

(** [2006-01-02]: year, month and day, the day checked later. *)
Definition get_date (s : bytes) : option (Z * Z * Z * bytes) :=
  let? (y, s) := get_year s in
  let? s := expect 45 s in
  let? (mo, s) := getnum s true in
  if (mo <=? 0) || (12 <? mo) then None
  else
    let? s := expect 45 s in
    let? (d, s) := getnum s true in
    Some (y, mo, d, s).
Definition day_ok (y mo d : Z) : bool := negb ((d <? 1) || (Time.month_length y mo <? d)).

Definition parse_date (s : bytes) (l : Location) : option Z :=
  match get_date s with
  | Some (y, mo, d, []) => if day_ok y mo d then Some (instant l (Time.Date y mo d)) else None
  | _ => None
  end.

(** A fraction of a second the layout does not mention: nanoseconds. *)
Fixpoint digit_run (s : bytes) : bytes := match s with c :: s' => if is_digit c then c :: digit_run s' else [] | [] => [] end.
Definition get_fraction (s : bytes) : Z * bytes :=
  match s with
  | p :: d :: s' =>
      if ((p =? 46) || (p =? 44)) && is_digit d then
        let run := digit_run (d :: s') in
        let kept := firstn 9 run in
        (fold_left (fun v c => v * 10 + (c - 48)) kept 0 * 10 ^ (9 - Z.of_nat (length kept)),
         skipn (length run) (d :: s'))
      else (0, s)
  | _ => (0, s)
  end.

(** [Z07:00]: the offset from UTC in seconds. *)
Definition get_offset (s : bytes) : option (Z * bytes) :=
  match s with
  | 90 :: s' => Some (0, s')
  | sg :: h1 :: h2 :: c :: m1 :: m2 :: s' =>
      if negb (c =? 58) then None
      else
        let? (hr, _) := getnum [h1; h2] true in
        let? (mm, _) := getnum [m1; m2] true in
        if (24 <? hr) || (60 <? mm) then None
        else if sg =? 43 then Some ((hr * 60 + mm) * 60, s')
        else if sg =? 45 then Some (- ((hr * 60 + mm) * 60), s')
        else None
  | _ => None
  end.

Definition parse_rfc3339 (s : bytes) : option Z :=
  let? (y, mo, d, s) := get_date s in
  let? s := expect 84 s in
  let? (h, s) := getnum s false in
  if 24 <=? h then None
  else
    let? s := expect 58 s in
    let? (mi, s) := getnum s true in
    if 60 <=? mi then None
    else
      let? s := expect 58 s in
      let? (se, s) := getnum s true in
      if 60 <=? se then None
      else
        let '(ns, s) := get_fraction s in
        match get_offset s with
        | Some (off, []) =>
            if day_ok y mo d
            then Some (Time.Date y mo d + h * Time.Hour + mi * Time.Minute + (se - off) * Time.Second + ns) else None
        | _ => None
        end.

(** [strings.Index(s, "..")] *)
Fixpoint index_dots (s : bytes) : option nat :=
  match s with
  | 46 :: ((46 :: _) as s') => Some O
  | _ :: s' => option_map S (index_dots s')
  | [] => None
  end.

Definition parse_end (s : bytes) (l : Location) : load (option Z) :=
  if is_empty s then ok None
  else match parse_date s l with Some t => ok (Some t) | None => refuse LWhenDate end.

(** [t.AddDate(0, 0, 1)] in the location. *)
Definition next_day (l : Location) (t : Z) : Z := instant l (Time.AddDate (wall l t) 0 1).

(** [parseDateRange]; a zero instant means no bound, as in the code. *)
Definition parseDateRange (s : bytes) (l : Location) : load (Z * Z) :=
  match index_dots s with
  | None => refuse LWhenDate
  | Some i =>
      let$ f := parse_end (TrimSpace (firstn i s)) l in
      let from := default Time.zeroTime f in
      let$ t := parse_end (TrimSpace (skipn (i + 2) s)) l in
      let to := match t with Some d => next_day l d | None => Time.zeroTime end in
      if negb (Time.IsZero from) && negb (Time.IsZero to) && negb (Time.After to from) then refuse LWhenDate
      else ok (from, to)
  end.

(** [strings.ToLower]: the letters A to Z, and the two letters outside ASCII
    whose lower case is an ASCII letter. *)
Fixpoint ToLower (s : bytes) : bytes :=
  match s with
  | 196 :: 176 :: s' => 105 :: ToLower s'
  | 226 :: 132 :: 170 :: s' => 107 :: ToLower s'
  | c :: s' => (if (65 <=? c) && (c <=? 90) then c + 32 else c) :: ToLower s'
  | [] => []
  end.

Definition weekdayNames (s : bytes) : option Z :=
  if is_lit s ["sun"; "sunday"]%string then Some 0
  else if is_lit s ["mon"; "monday"]%string then Some 1
  else if is_lit s ["tue"; "tues"; "tuesday"]%string then Some 2
  else if is_lit s ["wed"; "weds"; "wednesday"]%string then Some 3
  else if is_lit s ["thu"; "thur"; "thurs"; "thursday"]%string then Some 4
  else if is_lit s ["fri"; "friday"]%string then Some 5
  else if is_lit s ["sat"; "saturday"]%string then Some 6
  else None.

Fixpoint weekday_mask (names : list bytes) (mask : Z) : load Z :=
  match names with
  | [] => ok mask
  | n :: names' =>
      match weekdayNames (ToLower (TrimSpace n)) with
      | None => refuse LWhenDay
      | Some d => weekday_mask names' (Z.lor mask (Z.shiftl 1 d))
      end
  end.

(** ** Rates *)

Definition set_rate (rs : rateSet) (i : component) (x : rate) : rateSet :=
  fun j => if bool_decide (j = i) then Some x else rs j.

(** One iteration of [compileRates]. *)
Definition compile_rate (i : component) (text : bytes) (u : Unit) : load rate :=
  if bool_decide (i <> cReportedCost) && bool_decide (iunit (componentInfo i) <> u) then refuse LWrongUnit
  else
    let$ d := decimal_of text in
    if dneg d then refuse LNegative
    else if bool_decide (i = cReportedCost) && (reportedRateMaxFraction <? scale d) then refuse LTooFine
    else
      let$ a := atto_of d in
      ok (mkRate a (dtext d)).

Fixpoint rates_loop (todo : list component) (fields : component -> bytes) (u : Unit) (rs : rateSet) : load rateSet :=
  match todo with
  | [] => ok rs
  | i :: todo' =>
      if given (fields i) then
        let$ x := compile_rate i (fields i) u in
        rates_loop todo' fields u (set_rate rs i x)
      else rates_loop todo' fields u rs
  end.

Definition compileRates (fields : component -> bytes) (u : Unit) : load rateSet :=
  rates_loop components fields u (fun _ => None).

(** ** Setting the fields of a rule *)

Definition with_when (r : rule) (w : option whenPred) (l : Location) : rule :=
  let '(mkRule id cl lv pr od cr dp pv mo mp pl _ un ra ti tm ut mc aa at_ pe _ op am aj ap so aso ast) := r in
  mkRule id cl lv pr od cr dp pv mo mp pl w un ra ti tm ut mc aa at_ pe l op am aj ap so aso ast.
Definition with_usage (r : rule) (un : Unit) (ra : rateSet) (ti : list tier) (tm : TierMode) (mc : Z) : rule :=
  let '(mkRule id cl lv pr od cr dp pv mo mp pl w _ _ _ _ ut _ aa at_ pe l op am aj ap so aso ast) := r in
  mkRule id cl lv pr od cr dp pv mo mp pl w un ra ti tm ut mc aa at_ pe l op am aj ap so aso ast.
Definition with_util (r : rule) (ut : option utilization) (mc : Z) : rule :=
  let '(mkRule id cl lv pr od cr dp pv mo mp pl w un ra ti tm _ _ aa at_ pe l op am aj ap so aso ast) := r in
  mkRule id cl lv pr od cr dp pv mo mp pl w un ra ti tm ut mc aa at_ pe l op am aj ap so aso ast.
Definition with_plan (r : rule) (a : u128) (t : bytes) (p : Period) : rule :=
  let '(mkRule id cl lv pr od cr dp pv mo mp pl w _ ra ti tm ut mc _ _ _ l op am aj ap so aso ast) := r in
  mkRule id cl lv pr od cr dp pv mo mp pl w UnitSubscription ra ti tm ut mc a t p l op am aj ap so aso ast.
Definition with_adjustment (r : rule) (o : AdjOp) (b : AdjBase) (d : decimal) (a : u128) : rule :=
  let '(mkRule id cl lv pr od cr dp pv mo mp pl w _ ra ti tm ut mc aa at_ pe l _ _ _ _ so aso ast) := r in
  mkRule id cl lv pr od cr dp pv mo mp pl w UnitNone ra ti tm ut mc aa at_ pe l o d a b so aso ast.
Definition with_source (r : rule) (so : bytes) (t : Z) (text : bytes) : rule :=
  let '(mkRule id cl lv pr od cr dp pv mo mp pl w un ra ti tm ut mc aa at_ pe l op am aj ap _ _ _) := r in
  mkRule id cl lv pr od cr dp pv mo mp pl w un ra ti tm ut mc aa at_ pe l op am aj ap so t text.

(** ** The classes *)

(** The loop over the tiers; [n] is how many follow. *)
Fixpoint tiers_loop (ts : list rawTier) (u : Unit) (base : rateSet) (prev : Z) (done : list tier) : load (list tier) :=
  match ts with
  | [] => ok done
  | t :: ts' =>
      let$ tr := compileRates (rateStrings (tFields t)) u in
      let rs := inherit tr base in
      let last := match ts' with [] => true | _ => false end in
      match UpToInputTokens t with
      | Some up =>
          if up <=? prev then refuse LTierIncrease
          else if last then refuse LLastTier
          else if negb (any rs) then refuse LNoRates
          else tiers_loop ts' u base up (done ++ [mkTier (Some up) rs])
      | None =>
          if negb last then refuse LOnlyLast
          else if negb (any rs) then refuse LNoRates
          else tiers_loop ts' u base prev (done ++ [mkTier None rs])
      end
  end.

Fixpoint bound_loop (ts : list tier) (i best : Z) (graded : bool) : Z :=
  match ts with
  | [] => best
  | t :: ts' =>
      let n := count (trates t) + (if graded then i else 0) in
      bound_loop ts' (i + 1) (if best <? n then n else best) graded
  end.
Definition is_graduated (m : TierMode) : bool := match m with TierGraduated => true | TierThreshold => false end.

(** [tierComponentBound] *)
Definition tierComponentBound (rs : rateSet) (ts : list tier) (m : TierMode) : Z :=
  match ts with [] => count rs | _ => bound_loop ts 0 0 (is_graduated m) end.

Definition compileUsage (raw : rawRule) (r : rule) : load rule :=
  if given (rAmountPerPeriod raw) || given (rPeriod raw) then refuse LForeignField
  else if given (rOp raw) || given (rAmount raw) || given (rAppliesTo raw) then refuse LForeignField
  else
    let$ u := (if given (rUnit raw) then parseUnit (rUnit raw) else ok UnitPerMillionTokens) in
    if bool_decide (u = UnitSubscription) then refuse LForeignField
    else
      let$ rs := compileRates (rateStrings (rFields raw)) u in
      let$ mode := parseTierMode (rTierMode raw) in
      match rTiers raw with
      | [] =>
          if given (rTierMode raw) then refuse LTierModeAlone
          else if negb (any rs) then refuse LNoRates
          else ok (with_usage r u rs [] mode (count rs))
      | _ =>
          let$ ts := tiers_loop (rTiers raw) u rs (-1) [] in
          if is_graduated mode && match ts with t :: _ => negb (is_set (trates t) cInput) | [] => false end
          then refuse LGraduatedInput
          else ok (with_usage r u rs ts mode (tierComponentBound rs ts mode))
      end.

Definition no_fields (f : rateFields) : bool := forallb (fun i => is_empty (rateStrings f i)) components.

Definition compileSubscription (raw : rawRule) (r : rule) : load rule :=
  let$ _ :=
    (if given (rUnit raw) then
       let$ u := parseUnit (rUnit raw) in
       if bool_decide (u <> UnitSubscription) then refuse LForeignField else ok tt
     else ok tt) in
  if bool_decide (rTiers raw <> []) || given (rTierMode raw) then refuse LForeignField
  else if given (rOp raw) || given (rAmount raw) || given (rAppliesTo raw) then refuse LForeignField
  else if negb (no_fields (rFields raw)) then refuse LForeignField
  else if is_empty (rAmountPerPeriod raw) then refuse LRequired
  else
    let$ d := decimal_of (rAmountPerPeriod raw) in
    if dneg d then refuse LNegative
    else
      let$ a := atto_of d in
      let$ p := parsePeriod (rPeriod raw) in
      ok (with_plan r a (dtext d) p).

Definition compileAdjustment (raw : rawRule) (r : rule) : load rule :=
  if given (rUnit raw) then refuse LForeignField
  else if bool_decide (rTiers raw <> []) || given (rTierMode raw) then refuse LForeignField
  else if given (rAmountPerPeriod raw) || given (rPeriod raw) then refuse LForeignField
  else if negb (no_fields (rFields raw)) then refuse LForeignField
  else
    let$ o := parseAdjOp (rOp raw) in
    let$ b := parseAdjBase (rAppliesTo raw) in
    if is_empty (rAmount raw) then refuse LRequired
    else
      let$ d := decimal_of (rAmount raw) in
      let$ a := match o with AdjAdd => atto_of d | _ => ok (adjAtto r) end in
      if match o with AdjMultiply => dneg d | _ => false end then refuse LMultiplyNegative
      else
        let$ deep := match o with
                     | AdjPercent => if dneg d then
                                       match exceedsHundred d with None => None | Some x => ok x end
                                     else ok false
                     | _ => ok false end in
        if deep : bool then refuse LDiscount
        else ok (with_adjustment r o b d a).

Definition compileProvenance (raw : rawRule) (r : rule) : load rule :=
  let source := TrimSpace (rSource raw) in
  if is_empty source then refuse LSource
  else
    let text := TrimSpace (rAsOf raw) in
    if is_empty text then refuse LSource
    else
      match parse_date text (loc r) with
      | Some t => ok (with_source r source t text)
      | None =>
          match parse_rfc3339 text with
          | Some t => ok (with_source r source t text)
          | None => refuse LSource
          end
      end.

Definition scaled_to (d : decimal) (n : Z) : load Z :=
  match scaled d n with None => None | Some None => refuse LTooFine | Some (Some x) => ok x end.

Definition compileUtilization (raw : rawUtilization) (r : rule) : load rule :=
  if bool_decide (class r <> ClassMarginal) then refuse LUtilClass
  else if is_empty (MaxMultiplier raw) then refuse LRequired
  else
    let$ slope :=
      (if given (Slope raw) then
         let$ d := decimal_of (Slope raw) in
         if dneg d then refuse LNegative else ok d
       else ok (mkDecimal false 0 0 [])) in
    let$ ceiling := decimal_of (MaxMultiplier raw) in
    if dneg ceiling then refuse LNegative
    else
      let$ slopePPM := scaled_to slope 6 in
      let$ ceilingPPM := scaled_to ceiling 6 in
      if ceilingPPM <? OnePPM then refuse LUtilRange
      else if MaxDeclarableMultiplierPPM <? ceilingPPM then refuse LUtilRange
      else if MaxDeclarableMultiplierPPM <? slopePPM then refuse LUtilRange
      else if slopePPM =? 0 then refuse LUtilZero
      else ok (with_util r (Some (mkUtilization (i64 slopePPM) (i64 ceilingPPM) (dtext slope) (dtext ceiling)))
                 (maxComponents r)).

(** ** Rules and catalogues *)

Section Load.
(** The system's time zones. *)
Variable LoadLocation : bytes -> option Location.

(** [compileWhen]; the default location is never nil in a catalogue. *)
Definition compileWhen (raw : rawWhen) (def : Location) : load whenPred :=
  let$ l := (if given (TZ raw) then match LoadLocation (TZ raw) with Some l => ok l | None => refuse LWhenTZ end
             else ok def) in
  let$ tod := (if given (TimeOfDay raw) then let$ w := parseWindow (TimeOfDay raw) in ok (Some w) else ok None) in
  let$ mask := weekday_mask (Weekday raw) 0 in
  let$ (from, to) := (if given (DateRange raw) then parseDateRange (DateRange raw) l
                      else ok (Time.zeroTime, Time.zeroTime)) in
  let bound t := if Time.IsZero t then None else Some t in
  if match tod with None => true | Some _ => false end && (mask =? 0) && Time.IsZero from && Time.IsZero to
  then refuse LWhenEmpty
  else ok (mkWhen l tod mask (bound from) (bound to)).

(** The rule as [compileRule] first builds it. *)
Definition base_rule (raw : rawRule) (cl : Class) (def : Location) : rule :=
  let m := rMatch raw in
  let r lv := mkRule (rID raw) cl lv (rPriority raw) (rOrder raw) (mCredential m) (mDeployment m) (mProvider m)
    (mModel m) (mModelPrefix m) (Z.of_nat (length (mModelPrefix m))) None UnitPerMillionTokens (fun _ => None) []
    TierThreshold None 0 (mkU128 0 0) [] PeriodMonthly def AdjPercent (mkDecimal false 0 0 []) (mkU128 0 0)
    BaseTotal [] Time.zeroTime [] in
  r (specificity (r LevelDefault)).

(** The class switch, and the line the utilization factor adds. *)
Definition compile_class (raw : rawRule) (r : rule) : load rule :=
  match class r with
  | ClassMarginal => compileUsage raw r
  | ClassNotional =>
      let$ r := compileUsage raw r in
      let$ r := compileProvenance raw r in
      if given (fReportedCost (rFields raw)) then refuse LReportedNotional else ok r
  | ClassSubscription => compileSubscription raw r
  | ClassAdjustment => compileAdjustment raw r
  end.

Definition compileRule (raw : rawRule) (def : Location) : load rule :=
  if is_empty (TrimSpace (rID raw)) then refuse LNoID
  else
    let$ cl := parseClass (rClass raw) in
    let r := base_rule raw cl def in
    let$ r := match rWhen raw with
              | None => ok r
              | Some w => let$ w := compileWhen w def in ok (with_when r (Some w) (wloc w))
              end in
    if bool_decide (cl <> ClassNotional) && (given (rSource raw) || given (rAsOf raw)) then refuse LForeignField
    else if given (rSeconds raw) then refuse LAmbiguousRate
    else if existsb (fun t => given (tSeconds t)) (rTiers raw) then refuse LAmbiguousRate
    else
      let$ r := match rUtilization raw with None => ok r | Some u => compileUtilization u r end in
      let$ r := compile_class raw r in
      ok (if declared (util r) then with_util r (util r) (maxComponents r + 1) else r).

Fixpoint rules_loop (raws : list rawRule) (def : Location) (done : list rule) : load (list rule) :=
  match raws with
  | [] => ok done
  | raw :: raws' =>
      let$ r := compileRule raw def in
      if existsb (fun x => beqb (id x) (id r)) done then refuse LDuplicateID
      else rules_loop raws' def (done ++ [r])
  end.

(** [ParseCatalog], after decoding. *)
Definition ParseCatalog (raw : rawCatalog) : load Catalog :=
  let$ def := (if given (rTZ raw) then match LoadLocation (rTZ raw) with Some l => ok l | None => refuse LWhenTZ end
               else ok UTC) in
  let$ rules := rules_loop (rRules raw) def [] in
  ok (newCatalog rules).
End Load.

(** ** The main configuration's rules *)

Record PricingRule : Type := mkPricingRule {
  pID : bytes; pClass : bytes; pPriority : Z; pMatch : rawMatch; pRates : list (bytes * bytes);
  pPeriod : bytes; pAmount : bytes; pPercent : bytes; pSource : bytes; pAsOf : bytes }.

Definition pricingComponents : list bytes :=
  map lit ["input"; "output"; "cached_read"; "cache_read"; "cache_write"; "reasoning"; "request"; "characters";
           "compute_seconds"; "audio_seconds"; "web_searches"; "image_input"; "image_output"; "reported_cost"]%string.

Definition ReportedCostComponent : bytes := lit "reported_cost".

Definition CanonicalComponent (name : bytes) : bytes :=
  if is_lit name ["cached_read"]%string then lit "cache_read" else name.

Definition pricingComponentUnit (name : bytes) : option bytes :=
  if is_lit name ["input"; "output"; "cache_read"; "cache_write"; "reasoning"; "image_input"; "image_output"]%string
  then Some (lit "per_1m_tokens")
  else if is_lit name ["request"; "web_searches"]%string then Some (lit "per_request")
  else if is_lit name ["characters"]%string then Some (lit "per_1k_characters")
  else if is_lit name ["compute_seconds"]%string then Some (lit "per_compute_second")
  else if is_lit name ["audio_seconds"]%string then Some (lit "per_audio_second")
  else None.

Fixpoint unit_loop (names : list bytes) (u : bytes) : option bytes :=
  match names with
  | [] => Some u
  | n :: names' =>
      if beqb n ReportedCostComponent then unit_loop names' u
      else
        match pricingComponentUnit (CanonicalComponent n) with
        | None => None
        | Some v => if given u && negb (beqb u v) then None else unit_loop names' v
        end
  end.
Definition PricingUnit (names : list bytes) : option bytes := unit_loop names [].

(** What [validatePricing] asks of the components a rule prices: known names, no
    component twice, one unit. *)
Definition rates_accepted (names : list bytes) : bool :=
  forallb (fun n => existsb (beqb n) pricingComponents) names
  && bool_decide (NoDup (map CanonicalComponent names))
  && (match names with [] => true | _ => match PricingUnit (map CanonicalComponent names) with Some _ => true | None => false end end).

(** The field a component is written to. *)
Definition set_field (f : rateFields) (name v : bytes) : option rateFields :=
  let '(mkFields i o cr cw re rq ch cs au rc) := f in
  let n := CanonicalComponent name in
  if is_lit n ["input"]%string then Some (mkFields v o cr cw re rq ch cs au rc)
  else if is_lit n ["output"]%string then Some (mkFields i v cr cw re rq ch cs au rc)
  else if is_lit n ["cache_read"]%string then Some (mkFields i o v cw re rq ch cs au rc)
  else if is_lit n ["cache_write"]%string then Some (mkFields i o cr v re rq ch cs au rc)
  else if is_lit n ["reasoning"]%string then Some (mkFields i o cr cw v rq ch cs au rc)
  else if is_lit n ["request"]%string then Some (mkFields i o cr cw re v ch cs au rc)
  else if is_lit n ["characters"]%string then Some (mkFields i o cr cw re rq v cs au rc)
  else if is_lit n ["compute_seconds"]%string then Some (mkFields i o cr cw re rq ch v au rc)
  else if is_lit n ["audio_seconds"]%string then Some (mkFields i o cr cw re rq ch cs v rc)
  else if beqb n ReportedCostComponent then Some (mkFields i o cr cw re rq ch cs au v)
  else None.

Definition noFields : rateFields := mkFields [] [] [] [] [] [] [] [] [] [].

Fixpoint fields_loop (rates : list (bytes * bytes)) (f : rateFields) : load rateFields :=
  match rates with
  | [] => ok f
  | (n, v) :: rates' => match set_field f n v with Some f => fields_loop rates' f | None => refuse LUnknownComponent end
  end.

(** [encodeRule]: the rule as the catalogue decodes what it renders. *)
Definition encodeRule (r : PricingRule) : load rawRule :=
  let$ fields := fields_loop (pRates r) noFields in
  let$ u := (match pRates r with
             | [] => ok []
             | rs => match PricingUnit (map fst rs) with Some u => ok u | None => refuse LMixedUnits end
             end) in
  let plan := is_lit (pClass r) ["fixed_subscription"]%string in
  let adj := is_lit (pClass r) ["adjustment"]%string in
  let notional := is_lit (pClass r) ["notional_rate"]%string in
  ok (mkRawRule (pID r) (pClass r) (pMatch r) None u (pPriority r) fields [] [] [] None
        (if plan then pAmount r else []) (if plan then pPeriod r else [])
        (if adj then lit "percent" else []) (if adj then pPercent r else []) [] 0
        (if notional then pSource r else []) (if notional then pAsOf r else [])).
