(* ===== verification/PriceLoadProps.v ===== *)
(** * What loading establishes

    A catalogue that loads is well formed, so that every theorem on pricing
    applies to it; loading never panics; and what the vocabulary of the main
    configuration promises beyond what the catalogue can declare. *)
From Stdlib Require Import String.
From stdpp Require Import base gmap list sorting.
From Stdlib Require Import ZArith Lia.
From S2P Require Import Prelude U128 Decimal GoTime F64 PriceCatalog PriceSelect Price PriceUsage PriceInv PriceLoad.
Open Scope Z_scope.
Open Scope go_scope.

(** [x] does not panic, and what it loads has [P]. *)
Definition loads {A} (P : A -> Prop) (x : load A) : Prop :=
  match x with Some (Ok a) => P a | Some (Err _) => True | None => False end.

Lemma loads_bind {A B} (P : A -> Prop) (Q : B -> Prop) x (k : A -> load B) :
  loads P x -> (forall a, P a -> loads Q (k a)) -> loads Q (let$ a := x in k a).
Proof. destruct x as [[a|e]|]; cbn; auto. Qed.

Lemma loads_impl {A} (P Q : A -> Prop) x : loads P x -> (forall a, P a -> Q a) -> loads Q x.
Proof. destruct x as [[a|e]|]; cbn; auto. Qed.

Lemma loads_if {A} (P : A -> Prop) (b : bool) e x : (b = false -> loads P x) -> loads P (if b then refuse e else x).
Proof. destruct b; cbn; auto. Qed.

Lemma loads_choice {A} (P : A -> Prop) (b : bool) x y : loads P x -> loads P y -> loads P (if b then x else y).
Proof. by destruct b. Qed.

(** Walk over the guards that refuse. *)
Ltac guards := repeat (apply loads_if; intros ?).

(** A vocabulary parser accepts or refuses. *)
Ltac spelled := repeat (apply loads_choice; [exact I|]); exact I.

(** ** Literals *)

Definition decimal_ok (d : decimal) : Prop :=
  is_u64 (units d) /\ 0 <= scale d <= maxPriceScale /\
  exists v, atto d = Some (v, true) /\ wf v /\ val v * 10 ^ scale d = units d * 10 ^ attoScale.

Lemma decimal_of_loads s : loads decimal_ok (decimal_of s).
Proof.
  unfold decimal_of. destruct (parseDecimal s) as [d|e] eqn:E; [|done]. cbn. pose proof (atto_exact s d E) as A.
  destruct (parseDecimal_accepts_literal _ _ E) as (ng & sgn & ip & dot & fp & L).
  rewrite (parseDecimal_of_literal _ _ _ _ _ _ L) in E. destruct L as (_ & _ & _ & Hi & Hf & _).
  destruct (literal_result_exact _ _ _ _ _ Hi Hf E) as (U & Sc & _). done.
Qed.

Lemma atto_of_loads d : decimal_ok d ->
  loads (fun a => wf a /\ val a * 10 ^ scale d = units d * 10 ^ attoScale) (atto_of d).
Proof. intros (_ & _ & v & E & W & V). unfold atto_of. rewrite E. done. Qed.

(** A rate of scale [s] divides by every power of ten up to [18 - s]. *)
Lemma atto_divides a u s k : 0 <= s <= attoScale -> 0 <= k <= attoScale - s -> a * 10 ^ s = u * 10 ^ attoScale ->
  a mod 10 ^ k = 0.
Proof.
  intros Hs Hk E. assert (0 < 10 ^ s) by (apply Z.pow_pos_nonneg; lia).
  assert (a = u * 10 ^ (attoScale - s - k) * 10 ^ k) as ->.
  { apply (Z.mul_cancel_r _ _ (10 ^ s)); [lia|]. rewrite E, <- !Z.mul_assoc, <- !Z.pow_add_r by lia. do 2 f_equal. lia. }
  apply Z.mod_mul. pose proof (Z.pow_pos_nonneg 10 k). lia.
Qed.

(** ** Rates *)

Lemma compile_rate_loads i text u : loads (rate_ok i) (compile_rate i text u).
Proof.
  unfold compile_rate. guards. eapply loads_bind; [apply decimal_of_loads|]. intros d D. guards.
  eapply loads_bind; [by apply atto_of_loads|]. intros a [W V]. cbn. split; [done|]. cbn [ratto].
  destruct D as (_ & Sc & _). unfold maxPriceScale in Sc.
  assert (scale d <= 9 \/ i <> cReportedCost) as C.
  { destruct (decide (i = cReportedCost)) as [->|]; [|by right]. left. rewrite bool_decide_true in * by done. cbn [andb] in *.
    match goal with H : (_ <? _) = false |- _ => apply Z.ltb_ge in H; unfold reportedRateMaxFraction in H; lia end. }
  destruct i; cbn [divisor componentInfo]; unfold microsPerSecond, nanosPerUnit;
    try (change 1000000 with (10 ^ 6); apply (atto_divides _ (units d) (scale d)); unfold attoScale in *; lia);
    try (apply Z.mod_1_r); try (change 1000 with (10 ^ 3); apply (atto_divides _ (units d) (scale d)); unfold attoScale in *; lia).
  destruct C as [C|C]; [|done]. change 1000000000 with (10 ^ 9). apply (atto_divides _ (units d) (scale d)); unfold attoScale in *; lia.
Qed.

Lemma rates_loop_loads todo fields u rs : rates_ok rs -> loads rates_ok (rates_loop todo fields u rs).
Proof.
  revert rs. induction todo as [|i todo IH]; intros rs R; cbn [rates_loop]; [done|].
  destruct (given _); [|by apply IH]. eapply loads_bind; [apply compile_rate_loads|]. intros x X. apply IH.
  intros j y. unfold set_rate. destruct (bool_decide (j = i)) eqn:B; [|apply R].
  apply bool_decide_eq_true in B as ->. by intros [= <-].
Qed.

Lemma compileRates_loads fields u : loads rates_ok (compileRates fields u).
Proof. apply rates_loop_loads. by intros i rt. Qed.

Lemma inherit_ok rs base : rates_ok rs -> rates_ok base -> rates_ok (inherit rs base).
Proof. intros R B i rt. unfold inherit. destruct (rs i) eqn:E; [intros [= <-]; by apply R|apply B]. Qed.

(** The bounds of the document's tiers are [int64]. *)
Definition raw_ok (raw : rawRule) : Prop :=
  Forall (fun t => match UpToInputTokens t with Some u => is_i64 u | None => True end) (rTiers raw).

(** Tiers loaded so far: bounded, ascending up to [prev]. *)
Fixpoint climbs (from : Z) (ts : list tier) (prev : Z) : Prop :=
  match ts with
  | [] => from = prev
  | t :: ts' => match upTo t with Some u => from <= u < two63 /\ climbs u ts' prev | None => False end
  end.

Lemma climbs_snoc from ts prev u rs : climbs from ts prev -> prev <= u < two63 ->
  climbs from (ts ++ [mkTier (Some u) rs]) u.
Proof.
  revert from. induction ts as [|t ts IH]; intros from H L; cbn in *; [subst; auto|].
  destruct (upTo t); [|done]. destruct H. auto.
Qed.

Lemma climbs_last from ts prev rs : climbs from ts prev -> ascending from (ts ++ [mkTier None rs]).
Proof.
  revert from. induction ts as [|t ts IH]; intros from H; cbn in *; [done|]. destruct (upTo t); [|done]. destruct H. auto.
Qed.

Lemma tiers_loop_loads ts u base : rates_ok base ->
  Forall (fun t => match UpToInputTokens t with Some u => is_i64 u | None => True end) ts ->
  forall prev acc, Forall (fun t => rates_ok (trates t)) acc -> (prev = -1 /\ acc = [] \/ 0 <= prev /\ climbs 0 acc prev) ->
  ts <> [] ->
  loads (fun l => Forall (fun t => rates_ok (trates t)) l /\ ascending 0 l /\ l <> []) (tiers_loop ts u base prev acc).
Proof.
  intros B. induction 1 as [|t ts Ht Hts IH]; intros prev acc D C N; [done|]. cbn [tiers_loop].
  eapply loads_bind; [apply compileRates_loads|]. intros tr Tr.
  assert (rates_ok (inherit tr base)) as I by (by apply inherit_ok).
  assert (forall x, Forall (fun t => rates_ok (trates t)) (acc ++ [mkTier x (inherit tr base)])) as D'
    by (intros x; apply Forall_app; split; [done|by apply Forall_singleton]).
  destruct (UpToInputTokens t) as [up|].
  - guards. match goal with H : (_ <=? _) = false |- _ => apply Z.leb_gt in H end.
    destruct ts as [|t' ts]; [done|]. assert (0 <= up) by (destruct C as [[-> ->]|[? _]]; lia).
    apply IH; [by apply D'| |done]. right. split; [done|].
    destruct C as [[-> ->]|[? C]]; [cbn; unfold is_i64 in Ht; lia|]. apply climbs_snoc with prev; [done|unfold is_i64 in Ht; lia].
  - guards. destruct ts as [|t' ts]; [|done]. cbn. split; [by apply D'|]. split; [|by destruct acc].
    destruct C as [[-> ->]|[? C]]; [done|by eapply climbs_last].
Qed.

(** ** Rules *)

Lemma with_usage_ok r u rs ts tm mc : rule_ok r -> rates_ok rs -> Forall (fun t => rates_ok (trates t)) ts -> ascending 0 ts ->
  rule_ok (with_usage r u rs ts tm mc).
Proof. destruct r. intros (F & _ & Ut & A & W) R T As. split_and!; done. Qed.

Lemma compileUsage_loads raw r : raw_ok raw -> rule_ok r -> loads rule_ok (compileUsage raw r).
Proof.
  intros Ro R. unfold compileUsage. guards.
  eapply (loads_bind (fun _ => True)); [apply loads_choice; [unfold parseUnit; spelled|exact I]|]. intros u _. guards.
  eapply loads_bind; [apply compileRates_loads|]. intros rs Rs.
  eapply (loads_bind (fun _ => True)); [unfold parseTierMode; spelled|]. intros mode _.
  destruct (rTiers raw) as [|t ts] eqn:E; [guards; by apply with_usage_ok|].
  eapply loads_bind.
  { apply (tiers_loop_loads (t :: ts) u rs Rs); [unfold raw_ok in Ro; by rewrite E in Ro|done|by left|done]. }
  intros l (L1 & L2 & _). guards. by apply with_usage_ok.
Qed.

Lemma compileSubscription_loads raw r : rule_ok r -> loads rule_ok (compileSubscription raw r).
Proof.
  intros R. unfold compileSubscription.
  eapply (loads_bind (fun _ => True)).
  { apply loads_choice; [|exact I]. eapply (loads_bind (fun _ => True)); [unfold parseUnit; spelled|].
    intros u _. by guards. }
  intros _ _. guards. eapply loads_bind; [apply decimal_of_loads|]. intros d D. guards.
  eapply loads_bind; [by apply atto_of_loads|]. intros a [W _].
  eapply (loads_bind (fun _ => True)); [unfold parsePeriod; spelled|]. intros p _.
  destruct r. destruct R as (F & U & Ut & A & _). cbn. split_and!; done.
Qed.

Lemma exceedsHundred_total d : decimal_ok d -> exceedsHundred d <> None.
Proof.
  intros (_ & Sc & _). unfold exceedsHundred. destruct (pow10_total _ Sc) as (p & -> & _). by destruct (Mul64 100 p).
Qed.

Lemma compileAdjustment_loads raw r : rule_ok r -> loads rule_ok (compileAdjustment raw r).
Proof.
  intros R. unfold compileAdjustment. guards.
  eapply (loads_bind (fun _ => True)); [unfold parseAdjOp; spelled|]. intros o _.
  eapply (loads_bind (fun _ => True)); [unfold parseAdjBase; spelled|]. intros b _. guards.
  eapply loads_bind; [apply decimal_of_loads|]. intros d D.
  eapply (loads_bind wf).
  { destruct o; [apply R|apply R|]. eapply loads_impl; [by apply atto_of_loads|by intros ? []]. }
  intros a Wa. guards. eapply (loads_bind (fun _ => True)).
  { destruct o; try done. destruct (dneg d); [|done]. pose proof (exceedsHundred_total d D). by destruct (exceedsHundred d). }
  intros deep _. guards. destruct r. destruct R as (F & U & Ut & A & W). destruct D as (Du & Ds & _). cbn.
  split_and!; try done.
Qed.

Lemma compileProvenance_loads raw r : rule_ok r -> loads rule_ok (compileProvenance raw r).
Proof.
  intros R. unfold compileProvenance. guards.
  assert (forall so t text, rule_ok (with_source r so t text)) as G.
  { intros so t text. destruct r. destruct R as (F & U & Ut & A & W). split_and!; done. }
  destruct (parse_date _ _); [apply G|]. destruct (parse_rfc3339 _); [apply G|done].
Qed.

Lemma scaled_to_loads d : decimal_ok d -> loads (fun x => 0 <= x) (scaled_to d 6).
Proof.
  intros (_ & Sc & _). unfold scaled_to. pose proof (scaled_total d Sc) as T. unfold scaled in *.
  destruct (6 <? scale d); [done|]. destruct (pow10_at _); [|done]. unfold Mul64 in *. destruct (negb _); [done|]. cbn.
  apply u64_range.
Qed.

Lemma compileUtilization_loads raw r : rule_ok r -> loads rule_ok (compileUtilization raw r).
Proof.
  intros R. unfold compileUtilization. guards. eapply (loads_bind decimal_ok).
  { apply loads_choice.
    - eapply loads_bind; [apply decimal_of_loads|]. intros d D. by guards.
    - cbn. split_and!; cbn; [unfold is_u64; widths; lia|unfold maxPriceScale; lia|unfold maxPriceScale; lia|].
      exists (mkU128 0 0). split_and!; [vm_compute; reflexivity|apply wf_intro; widths; lia|reflexivity]. }
  intros slope Ds. eapply loads_bind; [apply decimal_of_loads|]. intros ceiling Dc. guards.
  eapply loads_bind; [by apply scaled_to_loads|]. intros sp Hs.
  eapply loads_bind; [by apply scaled_to_loads|]. intros cp Hc. guards. breflect.
  destruct r. destruct R as (F & U & _ & A & W). cbn. split_and!; try done. unfold util_ok. cbn.
  unfold MaxDeclarableMultiplierPPM, OnePPM in *. rewrite !i64_id by (widths; lia). lia.
Qed.

Section Load.
Variable LoadLocation : bytes -> option Location.

Lemma weekday_mask_loads names m : loads (fun _ => True) (weekday_mask names m).
Proof. revert m. induction names as [|n names IH]; intros m; cbn; [done|]. destruct (weekdayNames _); [apply IH|done]. Qed.

Lemma parseClock_loads s : loads (fun _ => True) (parseClock s).
Proof. unfold parseClock. repeat case_match; done. Qed.

Lemma parseWindow_loads s : loads (fun _ => True) (parseWindow s).
Proof.
  unfold parseWindow. destruct (IndexByte s 45); [|done].
  eapply loads_bind; [apply parseClock_loads|]. intros a _. eapply loads_bind; [apply parseClock_loads|]. intros b _. by guards.
Qed.

Lemma parseDateRange_loads s l : loads (fun _ => True) (parseDateRange s l).
Proof.
  assert (forall x, loads (fun _ => True) (parse_end x l)) as P by (intros x; unfold parse_end; repeat case_match; done).
  unfold parseDateRange. destruct (index_dots s); [|done].
  eapply loads_bind; [apply P|]. intros a _. eapply loads_bind; [apply P|]. intros b _. by guards.
Qed.

Lemma compileWhen_loads raw def : loads (fun _ => True) (compileWhen LoadLocation raw def).
Proof.
  unfold compileWhen. eapply (loads_bind (fun _ => True)); [repeat case_match; done|]. intros l _.
  eapply (loads_bind (fun _ => True)).
  { apply loads_choice; [|exact I]. eapply loads_bind; [apply parseWindow_loads|]. done. }
  intros tod _. eapply loads_bind; [apply weekday_mask_loads|]. intros m _.
  eapply (loads_bind (fun _ => True)); [apply loads_choice; [apply parseDateRange_loads|exact I]|]. intros [f t] _. by guards.
Qed.

Lemma base_rule_ok raw cl def : rule_ok (base_rule raw cl def).
Proof.
  unfold base_rule. split_and!; cbn; try done; try (apply wf_intro; widths; lia).
Qed.

Lemma compile_class_loads raw r : raw_ok raw -> rule_ok r -> loads rule_ok (compile_class raw r).
Proof.
  intros Ro R. unfold compile_class. destruct (class r).
  - by apply compileUsage_loads.
  - by apply compileSubscription_loads.
  - by apply compileAdjustment_loads.
  - eapply loads_bind; [by apply compileUsage_loads|]. intros r1 R1.
    eapply loads_bind; [by apply compileProvenance_loads|]. intros r2 R2. by guards.
Qed.

Lemma compileRule_loads raw def : raw_ok raw -> loads rule_ok (compileRule LoadLocation raw def).
Proof.
  intros Ro. unfold compileRule. guards.
  eapply (loads_bind (fun _ => True)); [unfold parseClass; spelled|]. intros cl _.
  pose proof (base_rule_ok raw cl def) as B. eapply (loads_bind rule_ok).
  { destruct (rWhen raw); [|done]. eapply loads_bind; [apply compileWhen_loads|]. intros w _. cbn.
    destruct (base_rule raw cl def). done. }
  intros r1 R1. guards. eapply (loads_bind rule_ok).
  { destruct (rUtilization raw); [by apply compileUtilization_loads|done]. }
  intros r2 R2. eapply loads_bind; [by apply compile_class_loads|]. intros r3 R3. cbn.
  destruct (declared (util r3)); [|done]. destruct r3. done.
Qed.

Lemma rules_loop_loads raws def acc : Forall raw_ok raws -> rules_ok acc ->
  loads rules_ok (rules_loop LoadLocation raws def acc).
Proof.
  intros R. revert acc. induction R as [|raw raws Ro R IH]; intros acc A; cbn [rules_loop]; [done|].
  eapply loads_bind; [by apply compileRule_loads|]. intros r Rr. guards. apply IH.
  destruct A as [F N]. split; [apply Forall_app; split; [done|by apply Forall_singleton]|].
  rewrite map_app. apply NoDup_app. split_and!; [done| |apply NoDup_singleton].
  intros x Hx Hr. apply list_elem_of_singleton in Hr. subst x.
  apply list_elem_of_fmap in Hx as (y & Ey & Hy). apply list_elem_of_In in Hy.
  assert (existsb (fun x => beqb (id x) (id r)) acc = true); [|congruence].
  apply existsb_exists. exists y. split; [done|]. by apply beqb_eq.
Qed.
End Load.

(** C29. Whatever document is decoded and whatever time zones the system knows,
    loading a price catalogue never panics, and a catalogue that loads is well
    formed: its rules are filed under their specificity with distinct ids, every
    rate divides exactly into the quanta it prices, tiers ascend to an unbounded
    last one, utilization factors lie within one and four, and its state is
    fresh. *)
Theorem loaded_catalogue_ok LoadLocation raw : Forall raw_ok (rRules raw) ->
  match ParseCatalog LoadLocation raw with
  | Some (Ok c) => catalog_ok c /\ carries c = ∅ /\ (forall i own s, subs c !! i = Some (own, s) -> s = None)
  | Some (Err _) => True
  | None => False
  end.
Proof.
  intros R. assert (loads (fun c => exists rules, c = newCatalog rules /\ rules_ok rules) (ParseCatalog LoadLocation raw)) as H.
  { unfold ParseCatalog. eapply (loads_bind (fun _ => True)); [repeat case_match; done|]. intros def _.
    eapply loads_bind; [apply rules_loop_loads; [done|split; [done|apply NoDup_nil_2]]|]. intros rules Ro. cbn. eauto. }
  destruct (ParseCatalog LoadLocation raw) as [[c|e]|]; [|done|done]. destruct H as (rules & -> & Ro).
  split_and!; [by apply newCatalog_ok|done|]. intros i own s L. destruct s as [s|]; [|done].
  exfalso. by eapply newCatalog_none in L; [|intros; rewrite lookup_empty].
Qed.

(** ** Loading, executed *)

Definition anyMatch : rawMatch := mkRawMatch [] [] [] [] [].
Definition doc_rule (name cl : string) (f : rateFields) (ts : list rawTier) (mode amount : string) : rawRule :=
  mkRawRule (lit name) (lit cl) anyMatch None [] 0 f [] ts (lit mode) None (lit amount) [] [] [] [] 0 [] [].
Definition input_at (s : string) : rateFields := mkFields (lit s) [] [] [] [] [] [] [] [] [].
Definition sample_doc : rawCatalog :=
  mkRawCatalog [] [] [doc_rule "tokens" "" (input_at "0.85") [] "" ""; doc_rule "plan" "fixed_subscription" noFields [] "" "100"].

Lemma loaded_catalogue_ok_witness :
  match ParseCatalog (fun _ => None) sample_doc with
  | Some (Ok c) => catalog_ok c /\ carries c = ∅ /\ (forall i own s, subs c !! i = Some (own, s) -> s = None)
  | Some (Err _) => True
  | None => False
  end /\
  match ParseCatalog (fun _ => None) sample_doc with Some (Ok c) => length (crules c) = 2%nat | _ => False end.
Proof.
  split; [|vm_compute; reflexivity].
  apply (loaded_catalogue_ok (fun _ => None) sample_doc). repeat constructor.
Defined.

(** *** A graduated tier without an input rate *)

Definition bracket_doc (u : option Z) (f : rateFields) : rawTier := mkRawTier u f [].
Definition graded_doc : rawCatalog :=
  mkRawCatalog [] [] [doc_rule "graded" "" noFields
    [bracket_doc (Some 1000) (input_at "3"); bracket_doc None (mkFields [] (lit "15") [] [] [] [] [] [] [] [])]
    "graduated" ""].

(** A graduated table may leave a later tier without an input rate, although
    the loader's refusal says that every tier needs one: only the first tier is
    checked. The document loads, and every input token past the first bracket is
    free. *)
Theorem graduated_tier_free :
  match ParseCatalog (fun _ => None) graded_doc with
  | Some (Ok c) =>
      match crules c with
      | [r] => tierMode r = TierGraduated /\ token_price (tiers r) 1000 = 3000000000000 /\
          forall k, 1000 < k -> token_price (tiers r) k = 0
      | _ => False
      end
  | _ => False
  end.
Proof.
  assert (match ParseCatalog (fun _ => None) graded_doc with
    | Some (Ok c) => match crules c with
      | [r] => tierMode r = TierGraduated /\ token_price (tiers r) 1000 = 3000000000000 /\
          match tiers r with [t1; t2] => upTo t1 = Some 1000 /\ upTo t2 = None /\ input_price t2 = 0 | _ => False end
      | _ => False end
    | _ => False end) as H by (vm_compute; split_and!; reflexivity).
  destruct (ParseCatalog _ _) as [[c|e]|]; [|done|done]. destruct (crules c) as [|r [|r' l]]; [done| |done].
  destruct H as (H1 & H2 & H3). split_and!; [done|done|]. intros k Hk.
  destruct (tiers r) as [|t1 [|t2 [|t3 l]]]; [done|done| |done]. destruct H3 as (E1 & E2 & E3). cbn [token_price].
  rewrite E1, E2, E3, (proj2 (Z.leb_gt k 1000)) by lia. reflexivity.
Qed.

(** *** Components the configuration accepts and the catalogue cannot declare *)

(** The main configuration accepts every component it lists, but three of
    them, the server-side tools, cannot be rendered for the price catalogue: a
    rule that prices one passes validation and its assembly fails, for every
    rate; and a rule without an id passes validation and is refused when the
    catalogue is loaded. All other components are rendered. *)
Theorem validated_rules_can_fail_to_load name v r : name ∈ pricingComponents -> pRates r = [(name, v)] ->
  rates_accepted [name] = true /\
  (encodeRule r = refuse LUnknownComponent <-> name ∈ map lit ["web_searches"; "image_input"; "image_output"]%string) /\
  (forall raw LL def, encodeRule r = ok raw -> pID r = [] -> compileRule LL raw def = refuse LNoID).
Proof.
  intros H E. split_and!.
  - apply list_elem_of_In in H. cbn in H. repeat (destruct H as [<-|H]; [vm_compute; reflexivity|]). done.
  - unfold encodeRule. rewrite E. apply list_elem_of_In in H. rewrite list_elem_of_In. cbn in H.
    repeat (destruct H as [<-|H]; [vm_compute; split; intros X; first [discriminate X|tauto|
      repeat (destruct X as [X|X]; [discriminate X|]); tauto|reflexivity]|]). done.
  - intros raw LL def Er I. unfold encodeRule in Er. destruct (fields_loop _ _) as [[f|e]|]; [|done|done].
    destruct (pRates r) as [|x l]; [|destruct (PricingUnit _); [|done]]; injection Er as <-; unfold compileRule; cbn;
      rewrite I; reflexivity.
Qed.

Lemma validated_rules_can_fail_to_load_witness :
  let r := mkPricingRule (lit "search") [] 0 anyMatch [(lit "web_searches", lit "0.01")] [] [] [] [] [] in
  encodeRule r = refuse LUnknownComponent.
Proof.
  intros r. apply (validated_rules_can_fail_to_load (lit "web_searches") (lit "0.01") r);
    [apply list_elem_of_In; vm_compute; tauto|reflexivity|apply list_elem_of_In; vm_compute; tauto].
Defined.
