(* ===== verification/Sha256.v ===== *)
(** * SHA-256, HMAC and hexadecimal ([crypto/sha256], [crypto/hmac],
    [encoding/hex])

    The parts of Go's standard library that masking derives placeholders with,
    as executable functions on byte strings. A [hash.Hash] that is written to
    several times is the function applied to the concatenation of the writes. *)
From Stdlib Require Import String.
From stdpp Require Import base list.
From Stdlib Require Import ZArith Lia.
From S2P Require Import Prelude.
Open Scope Z_scope.

Definition rotr (n x : Z) : Z := Z.lor (Z.shiftr x n) (u32 (Z.shiftl x (32 - n))).
Definition not32 (x : Z) : Z := Z.lxor x (two32 - 1).

Definition bigSigma0 (x : Z) : Z := Z.lxor (rotr 2 x) (Z.lxor (rotr 13 x) (rotr 22 x)).
Definition bigSigma1 (x : Z) : Z := Z.lxor (rotr 6 x) (Z.lxor (rotr 11 x) (rotr 25 x)).
Definition smallSigma0 (x : Z) : Z := Z.lxor (rotr 7 x) (Z.lxor (rotr 18 x) (Z.shiftr x 3)).
Definition smallSigma1 (x : Z) : Z := Z.lxor (rotr 17 x) (Z.lxor (rotr 19 x) (Z.shiftr x 10)).
Definition choose (e f g : Z) : Z := Z.lxor (Z.land e f) (Z.land (not32 e) g).
Definition majority (a b c : Z) : Z :=
  Z.lxor (Z.land a b) (Z.lxor (Z.land a c) (Z.land b c)).

(** The round constants are the first 32 bits of the fractional parts of the cube
    roots of the first 64 primes, the initial words those of the square roots of
    the first eight. *)
Definition primes : list Z :=
  Eval vm_compute in
    filter (fun p => forallb (fun d => negb (p mod (Z.of_nat d) =? 0)) (seq 2 (Z.to_nat p - 2)))
      (map Z.of_nat (seq 2 310)).

(** The largest [r + d] whose cube is at most [n], with [d] below [2 ^ bits]. *)
Fixpoint cube_root (bits : nat) (n r : Z) : Z :=
  match bits with
  | O => r
  | S b => let r' := r + 2 ^ Z.of_nat b in cube_root b n (if r' * r' * r' <=? n then r' else r)
  end.

Definition round_constants : list Z :=
  Eval vm_compute in map (fun p => u32 (cube_root 36 (p * 2 ^ 96) 0)) primes.

(** The eight chaining words. *)
Record words : Type := mkWords {
  wa : Z; wb : Z; wc : Z; wd : Z; we : Z; wf : Z; wg : Z; wh : Z }.

Definition initial_words : words :=
  Eval vm_compute in
    let w i := u32 (Z.sqrt (nth i primes 0 * 2 ^ 64)) in
    mkWords (w 0%nat) (w 1%nat) (w 2%nat) (w 3%nat) (w 4%nat) (w 5%nat) (w 6%nat) (w 7%nat).

(** The message schedule, the most recent word first. *)
Fixpoint expand (n : nat) (w : list Z) : list Z :=
  match n with
  | O => w
  | S n' => expand n'
      (u32 (smallSigma1 (nth 1 w 0) + nth 6 w 0 + smallSigma0 (nth 14 w 0) + nth 15 w 0) :: w)
  end.

Definition be32 (b : bytes) : Z :=
  nth 0 b 0 * 2 ^ 24 + nth 1 b 0 * 2 ^ 16 + nth 2 b 0 * 2 ^ 8 + nth 3 b 0.

Fixpoint block_words (n : nat) (b : bytes) : list Z :=
  match n with O => [] | S n' => be32 b :: block_words n' (drop 4 b) end.

Definition round (s : words) (kw : Z * Z) : words :=
  let t1 := wh s + bigSigma1 (we s) + choose (we s) (wf s) (wg s) + kw.1 + kw.2 in
  let t2 := bigSigma0 (wa s) + majority (wa s) (wb s) (wc s) in
  mkWords (u32 (t1 + t2)) (wa s) (wb s) (wc s) (u32 (wd s + t1)) (we s) (wf s) (wg s).

Definition compress (s : words) (block : bytes) : words :=
  let w := rev (expand 48 (rev (block_words 16 block))) in
  let r := fold_left round (combine round_constants w) s in
  mkWords (u32 (wa s + wa r)) (u32 (wb s + wb r)) (u32 (wc s + wc r)) (u32 (wd s + wd r))
          (u32 (we s + we r)) (u32 (wf s + wf r)) (u32 (wg s + wg r)) (u32 (wh s + wh r)).

Definition be_bytes (n : nat) (x : Z) : bytes :=
  map (fun i => u8 (Z.shiftr x (8 * Z.of_nat (n - 1 - i)))) (seq 0 n).

(** The padding: [0x80], zeros up to eight bytes short of a block, the length in bits. *)
Definition padded (m : bytes) : bytes :=
  let l := Z.of_nat (length m) in
  m ++ [128] ++ replicate (Z.to_nat ((55 - l) mod 64)) 0 ++ be_bytes 8 (u64 (8 * l)).

Fixpoint blocks (n : nat) (s : words) (m : bytes) : words :=
  match n with
  | O => s
  | S n' => blocks n' (compress s (take 64 m)) (drop 64 m)
  end.

(** [sha256.Sum256]. *)
Definition sha256 (m : bytes) : bytes :=
  let p := padded m in
  let s := blocks (length p / 64) initial_words p in
  concat (map (be_bytes 4) [wa s; wb s; wc s; wd s; we s; wf s; wg s; wh s]).

(** [hmac.New(sha256.New, key)] over the bytes [m]. *)
Definition hmac (key m : bytes) : bytes :=
  let k := if (64 <? length key)%nat then sha256 key else key in
  let k := k ++ replicate (64 - length k) 0 in
  sha256 (map (fun b => Z.lxor b 92) k ++ sha256 (map (fun b => Z.lxor b 54) k ++ m)).

Definition hex_digit (n : Z) : Z := if n <? 10 then 48 + n else 87 + n.
(** [hex.EncodeToString]. *)
Definition hex (b : bytes) : bytes :=
  flat_map (fun x => [hex_digit (Z.shiftr x 4); hex_digit (Z.land x 15)]) b.

Lemma sha256_shape m : length (sha256 m) = 32%nat /\ Forall (fun b => 0 <= b < 256) (sha256 m).
Proof.
  unfold sha256. cbn [map concat be_bytes seq app length]. split; [reflexivity|].
  repeat (constructor; [apply Z.mod_pos_bound; lia|]). constructor.
Qed.

Lemma hmac_shape k m : length (hmac k m) = 32%nat /\ Forall (fun b => 0 <= b < 256) (hmac k m).
Proof. apply sha256_shape. Qed.

#[local] Open Scope string_scope.
(** The published vectors: FIPS 180-4 for one and two blocks, RFC 4231 (case 2). *)
Example sha256_abc :
  hex (sha256 (bytes_of_string "abc"))
  = bytes_of_string "ba7816bf8f01cfea414140de5dae2223b00361a396177a9cb410ff61f20015ad".
Proof. vm_compute. reflexivity. Qed.
Example sha256_two_blocks :
  hex (sha256 (bytes_of_string "abcdbcdecdefdefgefghfghighijhijkijkljklmklmnlmnomnopnopq"))
  = bytes_of_string "248d6a61d20638b8e5c026930c3e6039a33ce45964ff2167f6ecedd419db06c1".
Proof. vm_compute. reflexivity. Qed.
Example hmac_rfc4231 :
  hex (hmac (bytes_of_string "Jefe") (bytes_of_string "what do ya want for nothing?"))
  = bytes_of_string "5bdcc146bf60754e6a042426089575c75a003f089d2739839dec58b964ec3843".
Proof. vm_compute. reflexivity. Qed.
