(* ===== verification/Mask.v ===== *)
(** * Reversible masking ([internal/mask])

    A filter replaces what its patterns match by placeholders derived from the
    value, and restores them in the answer, whole or streamed. A filter owns one
    retention vault; a session is one request's tables. The mutex-protected
    methods are functions on [State], the session's tables and the filter's
    vault.

    The regular expressions are behind [RegexpEngine]: compilation, the empty
    match, the number of groups, and the scan for all matches in leftmost-longest
    mode. [clock k] is what the [k]-th reading of the vault's clock gives. The
    statistics count events and stay far below the width of an [int]. *)
From Stdlib Require Import String.
From stdpp Require Import base gmap list.
From Stdlib Require Import ZArith Lia.
From S2P Require Import Prelude GoTime Sha256.
Open Scope Z_scope.

#[local] Open Scope string_scope.
Definition Sentinel : bytes := Eval cbv in bytes_of_string "[PII:".
Definition alphabet : bytes := Eval cbv in bytes_of_string "abcdefghijklmnop".
Definition scopeNames : list bytes :=
  Eval cbv in map bytes_of_string ["conversation"; "principal"; "tenant"; "request"].
Definition unknown_name : bytes := Eval cbv in bytes_of_string "unknown".
Definition krrn_name : bytes := Eval cbv in bytes_of_string "krrn".
Definition krrn_expr : bytes := Eval cbv in bytes_of_string
  "\b\d{2}(?:0[1-9]|1[0-2])(?:0[1-9]|[12]\d|3[01])[-\x{2013}\x{2014}]?[1-8]\d{6}\b".
Definition email_name : bytes := Eval cbv in bytes_of_string "email".
Definition email_expr : bytes := Eval cbv in bytes_of_string
  "\b[A-Za-z0-9._%+\-]+@[A-Za-z0-9\-]+(?:\.[A-Za-z0-9\-]+)+\b".
(** ["(" + regexp.QuoteMeta(Sentinel) + ")"], ["|("] and [")"]. *)
Definition escape_alternative : bytes := Eval cbv in bytes_of_string "(\[PII:)".
Definition open_alternative : bytes := Eval cbv in bytes_of_string "|(".
Definition close_alternative : bytes := Eval cbv in bytes_of_string ")".
#[local] Close Scope string_scope.

Definition digestBytes : nat := 8.
Definition PlaceholderLen : nat := Eval cbv in (length Sentinel + 2 * digestBytes + 1)%nat.

(** [text[lo:hi]]. *)
Definition slice (text : bytes) (lo hi : nat) : bytes := take (hi - lo) (drop lo text).

(** ** Scopes *)

(** [Scope], a [uint8]. *)
Definition ScopeConversation : Z := 0.
Definition ScopePrincipal : Z := 1.
Definition ScopeTenant : Z := 2.
Definition ScopeRequest : Z := 3.

Definition Scope_String (s : Z) : bytes :=
  if Z.of_nat (length scopeNames) <=? s then unknown_name else nth (Z.to_nat s) scopeNames [].

Fixpoint parse_scope (i : Z) (names : list bytes) (s : bytes) : option Z :=
  match names with
  | [] => None
  | n :: names' => if beqb n s then Some (u8 i) else parse_scope (i + 1) names' s
  end.
Definition ParseScope (s : bytes) : option Z := parse_scope 0 scopeNames s.

Definition Deterministic (s : Z) : bool := negb (s =? ScopeRequest).

(** ** The retention vault *)

Notation vaultKey := (bytes * bytes)%type.
Record vaultEntry : Type := mkVaultEntry { evalue : bytes; eexp : Z }.
Record VaultStats : Type := mkVaultStats {
  Stored : Z; Hits : Z; Misses : Z; Expired : Z; Evicted : Z; Replaced : Z }.

(** [reads] counts the readings of the clock so far. *)
Record Vault : Type := mkVault {
  vttl : Z; vmax : Z; vm : gmap vaultKey vaultEntry; vorder : list vaultKey;
  vstats : VaultStats; reads : nat }.

Definition DefaultMaxRetained : Z := 65536.
Definition DefaultRetain : Z := Time.Hour.

Definition newVault (ttl max : Z) : Vault :=
  mkVault (if ttl <=? 0 then DefaultRetain else ttl)
          (if max <=? 0 then DefaultMaxRetained else max)
          ∅ [] (mkVaultStats 0 0 0 0 0 0) 0.

Definition Vault_Len (v : Vault) : Z := Z.of_nat (size (vm v)).

Definition count_expired (s : VaultStats) : VaultStats :=
  mkVaultStats (Stored s) (Hits s) (Misses s) (Expired s + 1) (Evicted s) (Replaced s).
Definition count_miss (s : VaultStats) : VaultStats :=
  mkVaultStats (Stored s) (Hits s) (Misses s + 1) (Expired s) (Evicted s) (Replaced s).
Definition count_hit (s : VaultStats) : VaultStats :=
  mkVaultStats (Stored s) (Hits s + 1) (Misses s) (Expired s) (Evicted s) (Replaced s).
Definition count_evicted (s : VaultStats) : VaultStats :=
  mkVaultStats (Stored s) (Hits s) (Misses s) (Expired s) (Evicted s + 1) (Replaced s).
Definition count_stored (s : VaultStats) : VaultStats :=
  mkVaultStats (Stored s + 1) (Hits s) (Misses s) (Expired s) (Evicted s) (Replaced s).
Definition count_replaced (s : VaultStats) : VaultStats :=
  mkVaultStats (Stored s) (Hits s) (Misses s) (Expired s) (Evicted s) (Replaced s + 1).

(** [sweep]: the map, the kept order and the statistics. *)
Fixpoint sweep (now : Z) (order : list vaultKey) (m : gmap vaultKey vaultEntry) (s : VaultStats)
  : gmap vaultKey vaultEntry * list vaultKey * VaultStats :=
  match order with
  | [] => (m, [], s)
  | k :: order' =>
      match m !! k with
      | None => sweep now order' m s
      | Some e =>
          if Time.Before now (eexp e) then
            let '(m, kept, s) := sweep now order' m s in (m, k :: kept, s)
          else sweep now order' (delete k m) (count_expired s)
      end
  end.

(** [for len(v.m) >= v.max && len(v.order) > 0]. *)
Fixpoint evict (max : Z) (order : list vaultKey) (m : gmap vaultKey vaultEntry) (s : VaultStats)
  : gmap vaultKey vaultEntry * list vaultKey * VaultStats :=
  match order with
  | [] => (m, [], s)
  | oldest :: order' =>
      if max <=? Z.of_nat (size m) then
        match m !! oldest with
        | Some _ => evict max order' (delete oldest m) (count_evicted s)
        | None => evict max order' m s
        end
      else (m, order, s)
  end.

Section Vaults.
Variable clock : nat -> Z.

Definition put (v : Vault) (scope ph value : bytes) : Vault :=
  let k := (scope, ph) in
  let now := clock (reads v) in
  match vm v !! k with
  | Some e =>
      mkVault (vttl v) (vmax v) (<[k := mkVaultEntry (evalue e) (Time.Add now (vttl v))]> (vm v)) (vorder v)
        (count_replaced (vstats v)) (S (reads v))
  | None =>
      let '(m, order, s) :=
        if vmax v <=? Z.of_nat (size (vm v)) then sweep now (vorder v) (vm v) (vstats v)
        else (vm v, vorder v, vstats v) in
      let '(m, order, s) := evict (vmax v) order m s in
      mkVault (vttl v) (vmax v) (<[k := mkVaultEntry value (Time.Add now (vttl v))]> m) (order ++ [k])
        (count_stored s) (S (reads v))
  end.

Definition get (v : Vault) (scope ph : bytes) : Vault * option bytes :=
  let k := (scope, ph) in
  match vm v !! k with
  | None => (mkVault (vttl v) (vmax v) (vm v) (vorder v) (count_miss (vstats v)) (reads v), None)
  | Some e =>
      if negb (Time.Before (clock (reads v)) (eexp e)) then
        (mkVault (vttl v) (vmax v) (delete k (vm v)) (vorder v)
           (count_miss (count_expired (vstats v))) (S (reads v)), None)
      else
        (mkVault (vttl v) (vmax v) (vm v) (vorder v) (count_hit (vstats v)) (S (reads v)),
         Some (evalue e))
  end.
End Vaults.

(** ** Patterns *)

(** What [regexp] provides; [FindAll] is [FindAllStringSubmatchIndex(text, -1)]
    after [Longest]. *)
Class RegexpEngine : Type := {
  Regexp : Type;
  Compile : bytes -> result bytes Regexp;
  Source : Regexp -> bytes;
  NumSubexp : Regexp -> Z;
  MatchString : Regexp -> bytes -> bool;
  FindAll : Regexp -> bytes -> list (list Z) }.

Inductive setError : Type :=
| NoPattern
| NoName (i : nat)
| ListedTwice (i : nat) (name : bytes)
| NotBuiltin (i : nat) (name : bytes)
| BadRegexp (i : nat) (name err : bytes)
| ErrEmptyMatch (i : nat) (name : bytes)
| BadCombined (err : bytes)
| ErrNoSecret (name : bytes) (scope : Z).

Record PatternSpec : Type := mkPatternSpec { spName : bytes; spRegexp : bytes }.

Definition builtins (name : bytes) : option bytes :=
  if beqb name krrn_name then Some krrn_expr
  else if beqb name email_name then Some email_expr
  else None.

Section Patterns.
Context `{RegexpEngine}.

Record pattern : Type := mkPattern { pname : bytes; pre : Regexp; group : Z }.
Record PatternSet : Type := mkPatternSet { pats : list pattern; set_re : Regexp; escapeGroup : Z }.

(** The loop over the specifications; the groups are assigned afterwards. *)
Fixpoint compile_specs (i : nat) (specs : list PatternSpec) (seen : gset bytes)
  : result setError (list pattern) :=
  (match specs with
   | [] => Ok []
   | sp :: specs' =>
       let name := TrimSpace (spName sp) in
       if beqb name [] then Err (NoName i)
       else if decide (name ∈ seen) then Err (ListedTwice i name)
       else
         let! expr := match spRegexp sp with
                      | [] => match builtins name with
                              | Some b => Ok b
                              | None => Err (NotBuiltin i name)
                              end
                      | e => Ok e
                      end in
         let! re := match Compile expr with Ok re => Ok re | Err e => Err (BadRegexp i name e) end in
         if MatchString re [] then Err (ErrEmptyMatch i name)
         else
           let! ps := compile_specs (S i) specs' ({[name]} ∪ seen) in
           Ok (mkPattern name re 0 :: ps)
   end)%go.

(** The combined expression and the group number of each pattern. *)
Fixpoint combine_patterns (ps : list pattern) (next : Z) : bytes * list pattern :=
  match ps with
  | [] => ([], [])
  | p :: ps' =>
      let '(expr, rest) := combine_patterns ps' (next + (1 + NumSubexp (pre p))) in
      (open_alternative ++ Source (pre p) ++ close_alternative ++ expr,
       mkPattern (pname p) (pre p) next :: rest)
  end.

Definition NewPatternSet (specs : list PatternSpec) : result setError PatternSet :=
  (match specs with
   | [] => Err NoPattern
   | _ =>
       let! ps := compile_specs 0 specs ∅ in
       let '(alternatives, ps) := combine_patterns ps 2 in
       match Compile (escape_alternative ++ alternatives) with
       | Err e => Err (BadCombined e)
       | Ok re => Ok (mkPatternSet ps re 1)
       end
   end)%go.

Definition Names (s : PatternSet) : list bytes := map pname (pats s).

(** [which], on the patterns from number [i]. *)
Fixpoint which (i : nat) (ps : list pattern) (m : list Z) : option nat :=
  match ps with
  | [] => None
  | p :: ps' =>
      match m !! Z.to_nat (2 * group p) with
      | Some lo => if 0 <=? lo then Some i else which (S i) ps' m
      | None => which (S i) ps' m
      end
  end.

(** ** Filters and sessions *)

Record Config : Type := mkConfig {
  cName : bytes; cPatterns : list PatternSpec; cSecret : bytes; cScope : Z;
  cMaxEntries : Z; cRetain : Z; cMaxRetained : Z }.

Record Filter : Type := mkFilter {
  fname : bytes; fset : PatternSet; secret : bytes; fscope : Z; fmax : Z; version : bytes }.

Definition DefaultMaxEntries : Z := 1024.

(** A length-prefixed string. *)
Definition writeLP (s : bytes) : bytes :=
  let l := Z.of_nat (length s) in
  [u8 (Z.shiftr l 24); u8 (Z.shiftr l 16); u8 (Z.shiftr l 8); u8 l] ++ s.

(** [New]: the filter and its vault, which it always has. *)
Definition New (cfg : Config) : result setError (Filter * Vault) :=
  (let! set := NewPatternSet (cPatterns cfg) in
   if Deterministic (cScope cfg) && (Z.of_nat (length (cSecret cfg)) =? 0)
   then Err (ErrNoSecret (cName cfg) (cScope cfg))
   else
     let version := hex (take 8 (hmac (cSecret cfg)
       (flat_map (fun p => writeLP (pname p) ++ writeLP (Source (pre p))) (pats set)))) in
     Ok (mkFilter (cName cfg) set (cSecret cfg) (cScope cfg)
           (if cMaxEntries cfg <=? 0 then DefaultMaxEntries else cMaxEntries cfg) version,
         newVault (cRetain cfg) (cMaxRetained cfg)))%go.

(** [tables]; [scope_key] is the key of [h], the statistics are [stats]. *)
Record tables : Type := mkTables {
  scope_key : bytes; fwd : gmap bytes bytes; rvs : gmap bytes bytes; scopeTag : bytes;
  perPat : list Z; Issued : Z; Resolved : Z; Unresolved : Z; failed : bool }.

(** [Session]. For [ScopeRequest] the salt is sixteen bytes from the random
    source, which can fail. *)
Definition Session (f : Filter) (salt : bytes) (random : option bytes) : option tables :=
  match (if fscope f =? ScopeRequest then random else Some salt) with
  | None => None
  | Some salt =>
      let key := hmac (secret f) (writeLP (Scope_String (fscope f)) ++ writeLP salt) in
      Some (mkTables key ∅ ∅ (hex (take 8 key)) (replicate (length (pats (fset f))) 0) 0 0 0 false)
  end.

(** A session and the vault it shares with its filter. *)
Notation State := (tables * Vault)%type.

(** [Salt]: a digest of its parts. *)
Definition Salt (parts : list bytes) : bytes := hex (take 16 (sha256 (flat_map writeLP parts))).

(** ** Issuing placeholders *)

Definition derive (key value : bytes) : bytes :=
  Sentinel
  ++ flat_map (fun b => [nth (Z.to_nat (Z.shiftr b 4)) alphabet 0; nth (Z.to_nat (Z.land b 15)) alphabet 0])
       (take digestBytes (hmac key value))
  ++ [93].

Inductive maskError : Type :=
| ErrTableFull (limit : Z)
| ErrCollision
| AlreadyFailed.

Definition fail (t : tables) : tables :=
  mkTables (scope_key t) (fwd t) (rvs t) (scopeTag t) (perPat t) (Issued t) (Resolved t) (Unresolved t) true.
Definition count_resolved (t : tables) : tables :=
  mkTables (scope_key t) (fwd t) (rvs t) (scopeTag t) (perPat t) (Issued t) (Resolved t + 1) (Unresolved t) (failed t).
Definition count_unresolved (t : tables) : tables :=
  mkTables (scope_key t) (fwd t) (rvs t) (scopeTag t) (perPat t) (Issued t) (Resolved t) (Unresolved t + 1) (failed t).
Definition count_pattern (t : tables) (i : option nat) : tables :=
  match i with
  | Some i => mkTables (scope_key t) (fwd t) (rvs t) (scopeTag t) (alter (fun n => n + 1) i (perPat t))
                (Issued t) (Resolved t) (Unresolved t) (failed t)
  | None => t
  end.

Variable clock : nat -> Z.

Definition issue (st : State) (original : bytes) (max : Z) : State * result maskError bytes :=
  let '(t, v) := st in
  match fwd t !! original with
  | Some p => (st, Ok p)
  | None =>
      if max <=? Z.of_nat (size (fwd t)) then ((fail t, v), Err (ErrTableFull max))
      else
        let ph := derive (scope_key t) original in
        if (match rvs t !! ph with Some prev => negb (beqb prev original) | None => false end)
        then ((fail t, v), Err ErrCollision)
        else
          ((mkTables (scope_key t) (<[original := ph]> (fwd t)) (<[ph := original]> (rvs t)) (scopeTag t)
              (perPat t) (Issued t + 1) (Resolved t) (Unresolved t) (failed t),
            put clock v (scopeTag t) ph original), Ok ph)
  end.

(** The loop of [Mask] over the matches: what is written after [last], and how
    many values it replaced. *)
Fixpoint mask_loop (f : Filter) (text : bytes) (locs : list (list Z)) (last : Z) (st : State)
  : State * result maskError (bytes * Z) :=
  match locs with
  | [] => (st, Ok (drop (Z.to_nat last) text, 0))
  | m :: locs' =>
      let lo := nth 0 m 0 in
      let hi := nth 1 m 0 in
      if lo <? last then mask_loop f text locs' last st
      else
        match issue st (slice text (Z.to_nat lo) (Z.to_nat hi)) (fmax f) with
        | (st, Err e) => (st, Err e)
        | (st, Ok ph) =>
            let st := (count_pattern st.1 (which 0 (pats (fset f)) m), st.2) in
            match mask_loop f text locs' hi st with
            | (st, Ok (out, n)) =>
                (st, Ok (slice text (Z.to_nat last) (Z.to_nat lo) ++ ph ++ out, n + 1))
            | (st, Err e) => (st, Err e)
            end
        end
  end.

Definition Mask (f : Filter) (st : State) (text : bytes) : State * result maskError (bytes * Z) :=
  if beqb text [] then (st, Ok (text, 0))
  else if failed st.1 then (st, Err AlreadyFailed)
  else match FindAll (set_re (fset f)) text with
       | [] => (st, Ok (text, 0))
       | locs => mask_loop f text locs 0 st
       end.

Definition MaskValue (f : Filter) (st : State) (value : bytes) : State * result maskError bytes :=
  if beqb value [] then (st, Ok [])
  else if failed st.1 then (st, Err AlreadyFailed)
  else issue st value (fmax f).

(** ** Restoring *)

Definition has_prefix (p s : bytes) : bool :=
  match strip_prefix p s with Some _ => true | None => false end.

(** [strings.Index(s, Sentinel)]. *)
Fixpoint index_sentinel (s : bytes) : option nat :=
  if has_prefix Sentinel s then Some O
  else match s with
       | [] => None
       | _ :: s' => option_map S (index_sentinel s')
       end.

(** ['a' <= c && c <= 'p']. *)
Definition letter (c : Z) : bool := (97 <=? c) && (c <=? 112).

Definition wellFormed (s : bytes) (i : nat) : bool :=
  if (length s <? i + PlaceholderLen)%nat then false
  else if negb (beqb (slice s i (i + length Sentinel)) Sentinel) then false
  else if negb (nth (i + PlaceholderLen - 1) s 0 =? 93) then false
  else forallb letter (slice s (i + length Sentinel) (i + PlaceholderLen - 1)).

(** [lookup]: this request's table, then the vault. *)
Definition lookup (st : State) (ph : bytes) : State * option bytes :=
  match rvs st.1 !! ph with
  | Some o => (st, Some o)
  | None => let '(v, r) := get clock st.2 (scopeTag st.1) ph in ((st.1, v), r)
  end.

(** The loop of [substitute]; [text] is what is left from [i]. *)
Fixpoint substitute_loop (fuel : nat) (st : State) (text : bytes) : State * bytes :=
  match fuel with
  | O => (st, [])
  | S fuel =>
      match text with
      | [] => (st, [])
      | _ =>
          match index_sentinel text with
          | None => (st, text)
          | Some j =>
              if wellFormed text j then
                let ph := slice text j (j + PlaceholderLen) in
                let '(st, o) := lookup st ph in
                let '(st, piece) := match o with
                                    | Some orig => ((count_resolved st.1, st.2), orig)
                                    | None => ((count_unresolved st.1, st.2), ph)
                                    end in
                let '(st, out) := substitute_loop fuel st (drop (j + PlaceholderLen) text) in
                (st, take j text ++ piece ++ out)
              else
                let st := (count_unresolved st.1, st.2) in
                let '(st, out) := substitute_loop fuel st (drop (j + length Sentinel) text) in
                (st, take j text ++ Sentinel ++ out)
          end
      end
  end.

(** Every round consumes a byte, so the length is fuel enough. *)
Definition substitute (st : State) (text : bytes) : State * bytes :=
  match text, index_sentinel text with
  | [], _ => (st, text)
  | _, None => (st, text)
  | _, Some _ => substitute_loop (length text) st text
  end.

Definition partialPlaceholder (t : bytes) : bool :=
  if (PlaceholderLen <=? length t)%nat then false
  else if (length t <=? length Sentinel)%nat then beqb t (take (length t) Sentinel)
  else if negb (beqb (take (length Sentinel) t) Sentinel) then false
  else forallb letter (drop (length Sentinel) t).

(** The scan of [holdFrom]: [t] is [s[j:]]. *)
Fixpoint hold_scan (j : nat) (t : bytes) : nat :=
  match t with
  | [] => j
  | c :: t' =>
      if negb (c =? nth 0 Sentinel 0) then hold_scan (S j) t'
      else if partialPlaceholder t then j
      else hold_scan (S j) t'
  end.

Definition holdFrom (s : bytes) : nat :=
  let start := (length s - (PlaceholderLen - 1))%nat in
  hold_scan start (drop start s).

(** [Unmasker]: its carry. [Write] and [Flush] give the new carry, the state and
    what is emitted. *)
Definition Write (st : State) (carry text : bytes) : State * bytes * bytes :=
  match text with
  | [] => (st, carry, [])
  | _ =>
      let buf := carry ++ text in
      let cut := holdFrom buf in
      let '(st, out) := substitute st (take cut buf) in
      (st, drop cut buf, out)
  end.

Definition Flush (st : State) (carry : bytes) : State * bytes * bytes :=
  match carry with
  | [] => (st, carry, [])
  | _ => let '(st, out) := substitute st carry in (st, [], out)
  end.

Definition Unmask (st : State) (text : bytes) : State * bytes :=
  let '(st, carry, out) := Write st [] text in
  let '(st, _, rest) := Flush st carry in
  (st, out ++ rest).

(** A stream: the chunks written one after the other, then the flush. *)
Fixpoint stream (st : State) (carry : bytes) (chunks : list bytes) : State * bytes :=
  match chunks with
  | [] => let '(st, _, out) := Flush st carry in (st, out)
  | c :: chunks' =>
      let '(st, carry, out) := Write st carry c in
      let '(st, rest) := stream st carry chunks' in
      (st, out ++ rest)
  end.
End Patterns.
