(* ===== verification/MaskStream.v ===== *)
(** * Restoring as a scan, and why a stream can be cut

    [restore] reads the text byte by byte: it is what [substitute] computes, and
    it distributes over every clean cut. [holdFrom] finds clean cuts. *)
From stdpp Require Import base gmap list.
From Stdlib Require Import ZArith Lia.
From S2P Require Import Prelude Sha256 Mask.
Open Scope Z_scope.

Notation State := (tables * Vault)%type.

(** ** The shape of a placeholder *)

Definition body (d : bytes) : Prop := length d = 16%nat /\ Forall (fun c => 97 <= c <= 112) d.

(** [p] is a whole placeholder. *)
Definition placeholder (p : bytes) : Prop := exists d, body d /\ p = Sentinel ++ d ++ [93].

Lemma has_prefix_spec p s : has_prefix p s = true <-> exists r, s = p ++ r.
Proof.
  unfold has_prefix. revert s. induction p as [|c p IH]; intros s; cbn [strip_prefix].
  - split; [intros _; exists s; reflexivity|reflexivity].
  - destruct s as [|x s]; [split; [discriminate|intros [r E]; discriminate]|].
    destruct (Z.eqb_spec c x) as [->|N].
    + rewrite IH. cbn [app]. split; intros [r E]; exists r; congruence.
    + split; [discriminate|]. intros [r E]. cbn in E. congruence.
Qed.

Lemma letters_spec d : forallb letter d = true <-> Forall (fun c => 97 <= c <= 112) d.
Proof.
  rewrite forallb_forall, List.Forall_forall. unfold letter.
  split; intros H x Hx; specialize (H x Hx); [breflect; lia|].
  apply andb_true_intro. split; apply Z.leb_le; lia.
Qed.

Lemma placeholder_length p : placeholder p -> length p = PlaceholderLen.
Proof. intros (d & [L _] & ->). rewrite !length_app, L. reflexivity. Qed.

Lemma wellFormed_spec s : wellFormed s 0 = true <-> exists p r, placeholder p /\ s = p ++ r.
Proof.
  unfold wellFormed, slice. rewrite !Nat.add_0_l, drop_0, !Nat.sub_0_r.
  change (length Sentinel) with 5%nat. change (PlaceholderLen - 1)%nat with 21%nat.
  change (21 - 5)%nat with 16%nat. split.
  - destruct (Nat.ltb_spec (length s) PlaceholderLen) as [|L]; [discriminate|].
    change PlaceholderLen with 22%nat in L.
    destruct (beqb (take 5 s) Sentinel) eqn:E; [apply beqb_eq in E|discriminate].
    destruct (nth 21 s 0 =? 93) eqn:E2; [apply Z.eqb_eq in E2|discriminate]. cbn [negb].
    intros F%letters_spec.
    exists (take 22 s), (drop 22 s). split; [|symmetry; apply take_drop].
    exists (take 16 (drop 5 s)). split; [split; [rewrite length_take, length_drop; lia|exact F]|].
    rewrite <- (take_drop 5 s) at 1. rewrite E.
    rewrite take_app_ge by (cbn; lia). change (22 - length Sentinel)%nat with 17%nat.
    f_equal. rewrite (take_S_r _ 16 93); [reflexivity|].
    rewrite lookup_drop. change (5 + 16)%nat with 21%nat. rewrite <- E2.
    destruct (lookup_lt_is_Some_2 s 21) as [x Hx]; [lia|].
    rewrite Hx. f_equal. symmetry. apply nth_lookup_Some. exact Hx.
  - intros (p & r & (d & [L F] & ->) & ->).
    destruct (Nat.ltb_spec (length ((Sentinel ++ d ++ [93]) ++ r)) PlaceholderLen) as [Hl|_].
    { rewrite !length_app, L in Hl. change (length Sentinel) with 5%nat in Hl. change PlaceholderLen with 22%nat in Hl.
      cbn [length] in Hl. lia. }
    rewrite <- !(assoc_L (++)).
    rewrite take_app_length' by reflexivity.
    rewrite (proj2 (beqb_eq Sentinel Sentinel) eq_refl). cbn [negb].
    rewrite (app_nth2 Sentinel) by (cbn; lia). change (21 - length Sentinel)%nat with 16%nat.
    rewrite app_nth2 by lia. rewrite L. cbn [Nat.sub app nth Z.eqb Pos.eqb negb].
    rewrite drop_app_length' by reflexivity. rewrite take_app_length' by (symmetry; exact L).
    apply letters_spec, F.
Qed.

(** ** The scan *)

(** Run [k] after [x], gluing what they emit. *)
Definition glue (x : State * bytes) (k : State -> State * bytes) : State * bytes :=
  let '(st, out) := k x.1 in (st, x.2 ++ out).

Lemma glue_assoc x k1 k2 : glue (glue x k1) k2 = glue x (fun st => glue (k1 st) k2).
Proof.
  destruct x as [st o]. unfold glue. cbn. destruct (k1 st) as [s1 o1]. cbn.
  destruct (k2 s1) as [s2 o2]. cbn. rewrite (assoc_L (++)). reflexivity.
Qed.

Lemma glue_nil st k : glue (st, []) k = k st.
Proof. unfold glue. cbn. destruct (k st). reflexivity. Qed.

Lemma wellFormed_sentinel s : has_prefix Sentinel s = false -> wellFormed s 0 = false.
Proof.
  intros P. destruct (wellFormed s 0) eqn:W; [|reflexivity]. rewrite <- P. symmetry.
  apply wellFormed_spec in W as (p & r & (d & _ & ->) & ->).
  apply has_prefix_spec. rewrite <- !(assoc_L (++)). eauto.
Qed.

Section Restore.
Variable clock : nat -> Z.

(** What a whole placeholder is replaced by, counted. *)
Definition resolve (st : State) (ph : bytes) : State * bytes :=
  match lookup clock st ph with
  | (st, Some orig) => ((count_resolved st.1, st.2), orig)
  | (st, None) => ((count_unresolved st.1, st.2), ph)
  end.

Definition leave (st : State) : State * bytes := ((count_unresolved st.1, st.2), Sentinel).

(** Byte by byte; the first [skip] bytes were consumed already. *)
Fixpoint restore (skip : nat) (text : bytes) (st : State) : State * bytes :=
  match text with
  | [] => (st, [])
  | c :: t =>
      match skip with
      | S k => restore k t st
      | O =>
          if wellFormed text 0 then glue (resolve st (take PlaceholderLen text)) (restore (PlaceholderLen - 1) t)
          else if has_prefix Sentinel text then glue (leave st) (restore (length Sentinel - 1) t)
          else glue (st, [c]) (restore 0 t)
      end
  end.

Lemma restore_skip k text st : restore k text st = restore 0 (drop k text) st.
Proof.
  revert k. induction text as [|c t IH]; intros k; [destruct k; reflexivity|].
  destruct k as [|k]; [reflexivity|]. cbn [drop]. rewrite <- IH. reflexivity.
Qed.

Lemma restore_step text st : text <> [] ->
  restore 0 text st =
  if wellFormed text 0 then glue (resolve st (take PlaceholderLen text)) (restore 0 (drop PlaceholderLen text))
  else if has_prefix Sentinel text then glue (leave st) (restore 0 (drop (length Sentinel) text))
  else glue (st, take 1 text) (restore 0 (drop 1 text)).
Proof.
  intros N. destruct text as [|c t]; [done|]. cbn [restore].
  unfold glue. rewrite !(restore_skip _ t). cbn [take drop]. rewrite take_0, drop_0. reflexivity.
Qed.

(** Text in which the sentinel does not occur is left as it is. *)
Lemma restore_plain a text st j :
  index_sentinel text = Some j -> a = take j text ->
  restore 0 text st = glue (st, a) (restore 0 (drop j text)).
Proof.
  intros E ->. revert j E. induction text as [|c t IH]; intros j E.
  { cbn in E. discriminate. }
  cbn [index_sentinel] in E. destruct (has_prefix Sentinel (c :: t)) eqn:P.
  { inv E. rewrite take_0, drop_0, glue_nil. reflexivity. }
  destruct (index_sentinel t) as [j'|] eqn:E'; [|discriminate]. cbn in E. inv E.
  rewrite restore_step by done. rewrite P, (wellFormed_sentinel _ P).
  cbn [take drop]. rewrite drop_0. unfold glue. cbn [fst snd]. rewrite (IH _ eq_refl).
  unfold glue. cbn [fst snd]. destruct (restore 0 (drop j' t) st). rewrite take_0. reflexivity.
Qed.

Lemma restore_none text st : index_sentinel text = None -> restore 0 text st = (st, text).
Proof.
  induction text as [|c t IH]; intros E; [reflexivity|].
  cbn [index_sentinel] in E. destruct (has_prefix Sentinel (c :: t)) eqn:P; [discriminate|].
  destruct (index_sentinel t) as [j'|] eqn:E'; [discriminate|].
  rewrite restore_step by done. rewrite P, (wellFormed_sentinel _ P).
  cbn [take drop]. rewrite drop_0, take_0. unfold glue. cbn [fst snd]. rewrite IH by reflexivity. reflexivity.
Qed.

Lemma index_sentinel_spec text j :
  index_sentinel text = Some j -> has_prefix Sentinel (drop j text) = true /\ (j < length text)%nat.
Proof.
  revert j. induction text as [|c t IH]; intros j E; [discriminate|].
  cbn [index_sentinel] in E. destruct (has_prefix Sentinel (c :: t)) eqn:P.
  { inv E. cbn [drop length]. split; [exact P|lia]. }
  destruct (index_sentinel t) as [j'|]; [|discriminate]. inv E.
  destruct (IH _ eq_refl). cbn [drop length]. split; [assumption|lia].
Qed.

Lemma wellFormed_drop s j : (j <= length s)%nat -> wellFormed s j = wellFormed (drop j s) 0.
Proof.
  intros L. unfold wellFormed, slice. rewrite !Nat.add_0_l, drop_0, length_drop, !drop_drop.
  destruct (Nat.ltb_spec (length s) (j + PlaceholderLen)) as [H|H];
  destruct (Nat.ltb_spec (length s - j) PlaceholderLen) as [H1|H1]; first [reflexivity | exfalso; lia | idtac].
  replace (j + length Sentinel - j)%nat with (length Sentinel - 0)%nat by lia.
  replace (j + PlaceholderLen - 1 - (j + length Sentinel))%nat
    with (PlaceholderLen - 1 - length Sentinel)%nat by lia.
  replace (nth (PlaceholderLen - 1) (drop j s) 0) with (nth (j + PlaceholderLen - 1) s 0); [reflexivity|].
  change PlaceholderLen with 22%nat in *. rewrite !nth_lookup, lookup_drop.
  do 2 f_equal. lia.
Qed.

Lemma substitute_loop_restore fuel st text :
  (length text <= fuel)%nat -> substitute_loop clock fuel st text = restore 0 text st.
Proof.
  revert st text. induction fuel as [|fuel IH]; intros st text L.
  { destruct text; [reflexivity|cbn in L; lia]. }
  destruct text as [|c t]; [reflexivity|]. cbn [substitute_loop].
  set (text := c :: t) in *.
  destruct (index_sentinel text) as [j|] eqn:E; [|symmetry; apply restore_none, E].
  destruct (index_sentinel_spec _ _ E) as [P Lj].
  rewrite (restore_plain _ _ _ _ E eq_refl), wellFormed_drop by lia.
  unfold glue at 1. cbn [fst snd].
  rewrite restore_step; [|intros N; rewrite N in P; discriminate].
  rewrite P. unfold slice. rewrite !Nat.add_sub_swap, Nat.sub_diag, !drop_drop by lia.
  change PlaceholderLen with 22%nat. change (length Sentinel) with 5%nat. cbn [Nat.add].
  destruct (wellFormed (drop j text) 0).
  - unfold resolve. destruct (lookup clock st (take 22 (drop j text))) as [st1 [o|]]; unfold glue; cbn [fst snd];
      rewrite IH by (rewrite length_drop; lia);
      destruct (restore 0 (drop (j + 22) text) _); reflexivity.
  - unfold glue, leave. cbn [fst snd]. rewrite IH by (rewrite length_drop; lia).
    destruct (restore 0 (drop (j + 5) text) _); reflexivity.
Qed.

(** [substitute] is the scan. *)
Lemma substitute_restore st text : substitute clock st text = restore 0 text st.
Proof.
  unfold substitute. destruct text as [|c t]; [reflexivity|].
  destruct (index_sentinel (c :: t)) eqn:E.
  - apply substitute_loop_restore. reflexivity.
  - symmetry. apply restore_none, E.
Qed.

(** ** Clean cuts *)

(** No sentinel and no placeholder that starts in [a] reaches into [b]. *)
Definition clean (a b : bytes) : Prop :=
  forall x y, a = x ++ y -> y <> [] ->
    (forall r, y ++ b = Sentinel ++ r -> length Sentinel <= length y)%nat /\
    (forall p r, placeholder p -> y ++ b = p ++ r -> PlaceholderLen <= length y)%nat.

Lemma clean_suffix x a b : clean (x ++ a) b -> clean a b.
Proof. intros C x' y -> N. apply (C (x ++ x') y); [apply app_assoc|exact N]. Qed.

Lemma clean_drop n a b : clean a b -> clean (drop n a) b.
Proof. intros C. apply (clean_suffix (take n a)). rewrite take_drop. exact C. Qed.

Lemma clean_wellFormed a b : a <> [] -> clean a b ->
  wellFormed (a ++ b) 0 = wellFormed a 0 /\ (wellFormed a 0 = true -> PlaceholderLen <= length a)%nat.
Proof.
  intros N C. destruct (C [] a eq_refl N) as [_ Cp]. split.
  - apply eq_true_iff_eq. rewrite !wellFormed_spec. split.
    + intros (p & r & P & E). exists p. pose proof (Cp _ _ P E) as L.
      pose proof (placeholder_length _ P) as Lp. exists (drop PlaceholderLen a). split; [exact P|].
      rewrite <- (take_drop PlaceholderLen a) at 1. f_equal.
      rewrite <- (take_app_le _ b) by lia. rewrite E. apply take_app_length'. lia.
    + intros (p & r & P & ->). exists p, (r ++ b). split; [exact P|]. rewrite (assoc_L (++)). reflexivity.
  - intros (p & r & P & ->)%wellFormed_spec. rewrite length_app, (placeholder_length _ P). lia.
Qed.

Lemma clean_sentinel a b : a <> [] -> clean a b ->
  has_prefix Sentinel (a ++ b) = has_prefix Sentinel a /\ (has_prefix Sentinel a = true -> length Sentinel <= length a)%nat.
Proof.
  intros N C. destruct (C [] a eq_refl N) as [Cs _]. split.
  - apply eq_true_iff_eq. rewrite !has_prefix_spec. split.
    + intros (r & E). pose proof (Cs _ E) as L. exists (drop (length Sentinel) a).
      rewrite <- (take_drop (length Sentinel) a) at 1. f_equal.
      rewrite <- (take_app_le _ b) by lia. rewrite E. apply take_app_length'. lia.
    + intros (r & ->). exists (r ++ b). rewrite (assoc_L (++)). reflexivity.
  - intros (r & ->)%has_prefix_spec. rewrite length_app. lia.
Qed.

(** The scan distributes over a clean cut. *)
Lemma restore_app a b st : clean a b -> restore 0 (a ++ b) st = glue (restore 0 a st) (restore 0 b).
Proof.
  remember (length a) as n eqn:Hn. revert a st Hn.
  induction n as [n IH] using lt_wf_ind. intros a st -> C.
  destruct (decide (a = [])) as [->|N]; [cbn; rewrite glue_nil; reflexivity|].
  rewrite !restore_step by (destruct a; [done|discriminate]).
  destruct (clean_wellFormed _ _ N C) as [-> W]. destruct (clean_sentinel _ _ N C) as [-> S].
  assert (forall k st0 out, (0 < k <= length a)%nat ->
    glue (st0, out) (restore 0 (drop k (a ++ b))) = glue (glue (st0, out) (restore 0 (drop k a))) (restore 0 b)) as Step.
  { intros k st0 out Hk. rewrite drop_app_le, glue_assoc by lia. unfold glue at 1 2. cbn [fst snd].
    rewrite (IH (length (drop k a))); [reflexivity| |reflexivity|apply clean_drop, C].
    rewrite length_drop. lia. }
  destruct (wellFormed a 0).
  { rewrite take_app_le by auto. destruct (resolve _ _). apply Step.
    split; [apply Nat.lt_0_succ|auto]. }
  destruct (has_prefix Sentinel a).
  { apply Step. split; [apply Nat.lt_0_succ|auto]. }
  rewrite take_app_le by (destruct a; [done|cbn; lia]). apply Step. destruct a; [done|cbn; lia].
Qed.
End Restore.

(** ** Where a chunk is cut *)

Lemma partial_sentinel w z r :
  w ++ z = Sentinel ++ r -> (length w <= length Sentinel)%nat -> partialPlaceholder w = true.
Proof.
  intros E L. unfold partialPlaceholder. change (length Sentinel) with 5%nat in *. change PlaceholderLen with 22%nat.
  destruct (Nat.leb_spec 22 (length w)); [lia|].
  destruct (Nat.leb_spec (length w) 5); [|lia].
  apply beqb_eq. rewrite <- (take_app_length w z) at 1. rewrite E, take_app_le by (cbn; lia). reflexivity.
Qed.

(** A proper prefix of a placeholder is held. *)
Lemma partial_prefix p w z r :
  placeholder p -> w ++ z = p ++ r -> (length w < PlaceholderLen)%nat -> partialPlaceholder w = true.
Proof.
  intros (d & [Ld F] & ->) E L. rewrite <- !(assoc_L (++)) in E.
  destruct (decide (length w <= length Sentinel)%nat) as [S|S]; [eapply partial_sentinel; eassumption|].
  unfold partialPlaceholder. change (length Sentinel) with 5%nat in *. change PlaceholderLen with 22%nat in *.
  destruct (Nat.leb_spec 22 (length w)); [lia|].
  destruct (Nat.leb_spec (length w) 5); [lia|].
  rewrite <- (take_app_length w z), E, take_app_ge by (cbn; lia).
  change (length Sentinel) with 5%nat.
  rewrite (take_app_length' Sentinel), (drop_app_length' Sentinel) by reflexivity.
  rewrite (proj2 (beqb_eq Sentinel Sentinel) eq_refl). cbn [negb].
  apply letters_spec. rewrite take_app_le by lia. apply Forall_take, F.
Qed.

Lemma partial_head w : partialPlaceholder w = true -> w <> [] -> head w = Some 91.
Proof.
  unfold partialPlaceholder. intros P N. destruct (_ <=? _)%nat; [discriminate|].
  destruct (_ <=? _)%nat.
  - apply beqb_eq in P. destruct w; [done|]. cbn in P. inv P. reflexivity.
  - destruct (beqb (take (length Sentinel) w) Sentinel) eqn:E; [apply beqb_eq in E|discriminate].
    destruct w; [done|]. cbn in E. inv E. reflexivity.
Qed.

Lemma hold_scan_spec j t : exists i, hold_scan j t = (j + i)%nat /\ (i <= length t)%nat /\
  (forall i', (i' < i)%nat -> partialPlaceholder (drop i' t) = false) /\
  ((i < length t)%nat -> head (drop i t) = Some 91).
Proof.
  revert j. induction t as [|c t IH]; intros j; cbn [hold_scan].
  { exists 0%nat. cbn. repeat split; intros; lia. }
  assert (partialPlaceholder (c :: t) = false -> exists i, hold_scan (S j) t = (j + i)%nat /\
    (i <= length (c :: t))%nat /\ (forall i', (i' < i)%nat -> partialPlaceholder (drop i' (c :: t)) = false) /\
    ((i < length (c :: t))%nat -> head (drop i (c :: t)) = Some 91)) as Next.
  { intros P. destruct (IH (S j)) as (i & E & L & A & B). exists (S i). cbn [length drop].
    repeat split; [lia|lia| |intros; apply B; lia].
    intros [|i'] Hi; [exact P|]. cbn [drop]. apply A. lia. }
  destruct (partialPlaceholder (c :: t)) eqn:P.
  - pose proof (partial_head _ P ltac:(done)) as H. cbn in H. inv H. cbn [negb Z.eqb Pos.eqb nth Sentinel].
    exists 0%nat. cbn [drop length]. repeat split; intros; lia.
  - destruct (negb _); apply Next; reflexivity.
Qed.

Lemma holdFrom_spec s : (holdFrom s <= length s)%nat /\ (length s - holdFrom s <= PlaceholderLen - 1)%nat /\
  (forall i, (i < holdFrom s)%nat -> (length s - i < PlaceholderLen)%nat -> partialPlaceholder (drop i s) = false) /\
  ((holdFrom s < length s)%nat -> head (drop (holdFrom s) s) = Some 91).
Proof.
  unfold holdFrom. change (PlaceholderLen - 1)%nat with 21%nat. change PlaceholderLen with 22%nat.
  destruct (hold_scan_spec (length s - 21) (drop (length s - 21) s)) as (i & -> & L & A & B).
  rewrite length_drop in L, B. repeat split; [lia|lia| |].
  - intros i' H1 H2. specialize (A (i' - (length s - 21))%nat). rewrite drop_drop in A.
    replace (length s - 21 + (i' - (length s - 21)))%nat with i' in A by lia. apply A. lia.
  - rewrite drop_drop in B. intros H. apply B. lia.
Qed.

(** The opening bracket is nowhere but in front. *)
Lemma sentinel_bracket y z r : y <> [] -> (length y < length Sentinel)%nat -> head z = Some 91 ->
  y ++ z = Sentinel ++ r -> False.
Proof.
  intros N L H E. destruct z as [|c z]; [discriminate|]. inv H.
  assert (nth (length y) (Sentinel ++ r) 0 = 91) as H by (rewrite <- E, nth_middle; reflexivity).
  rewrite app_nth1 in H by exact L. change (length Sentinel) with 5%nat in L.
  destruct y as [|y1 [|y2 [|y3 [|y4 [|]]]]]; cbn in *; first [done | lia].
Qed.

Lemma placeholder_bracket p y z r : placeholder p -> y <> [] -> (length y < PlaceholderLen)%nat -> head z = Some 91 ->
  y ++ z = p ++ r -> False.
Proof.
  intros (d & [Ld F] & ->) N L H E. rewrite <- !(assoc_L (++)) in E.
  destruct (decide (length y < length Sentinel)%nat) as [S|S]; [eapply sentinel_bracket; eassumption|].
  change (length Sentinel) with 5%nat in S. change PlaceholderLen with 22%nat in L.
  destruct z as [|c z]; [discriminate|]. inv H.
  assert (nth (length y) (Sentinel ++ d ++ [93] ++ r) 0 = 91) as H by (rewrite <- E, nth_middle; reflexivity).
  rewrite app_nth2 in H by (cbn; lia). change (length Sentinel) with 5%nat in H.
  destruct (decide (length y - 5 < 16)%nat) as [T|T].
  - rewrite app_nth1 in H by lia. rewrite List.Forall_forall in F.
    specialize (F _ (nth_In d 0 (n := (length y - 5)%nat) ltac:(lia))). lia.
  - rewrite app_nth2 in H by lia. replace (length y - 5 - length d)%nat with 0%nat in H by lia. discriminate.
Qed.

(** Nothing that starts before the cut can be completed after it. *)
Lemma holdFrom_clean s more : clean (take (holdFrom s) s) (drop (holdFrom s) s ++ more).
Proof.
  destruct (holdFrom_spec s) as (Hl & _ & A & B). intros x y E N.
  assert (drop (length x) s = y ++ drop (holdFrom s) s) as D.
  { rewrite <- (take_drop (holdFrom s) s) at 1. rewrite E, <- (assoc_L (++)). apply drop_app_length. }
  assert (length x + length y = holdFrom s)%nat as Lx.
  { rewrite <- length_app, <- E, length_take. lia. }
  assert (0 < length y)%nat by (destruct y; [done|cbn; lia]).
  pose proof (A (length x)) as P. rewrite D in P.
  assert (length (drop (length x) s) = length s - length x)%nat as Ld by apply length_drop.
  rewrite D in Ld.
  split; [intros r Er | intros p r Hp Er]; destruct (decide (holdFrom s < length s)%nat) as [H1|H1].
  - destruct (decide (length Sentinel <= length y)%nat); [assumption|exfalso].
    eapply (sentinel_bracket y (drop (holdFrom s) s ++ more)); [done|lia| |exact Er].
    specialize (B H1). destruct (drop (holdFrom s) s); [discriminate|exact B].
  - rewrite drop_ge, app_nil_r in * by lia. cbn [app] in Er.
    destruct (decide (length Sentinel <= length y)%nat) as [|n]; [assumption|exfalso].
    change (length Sentinel) with 5%nat in n. change PlaceholderLen with 22%nat in P.
    rewrite (partial_sentinel _ _ _ Er) in P by (cbn; lia). discriminate P; lia.
  - destruct (decide (PlaceholderLen <= length y)%nat) as [|n]; [assumption|exfalso].
    eapply (placeholder_bracket p y (drop (holdFrom s) s ++ more)); [done|done|lia| |exact Er].
    specialize (B H1). destruct (drop (holdFrom s) s); [discriminate|exact B].
  - rewrite drop_ge, app_nil_r in * by lia. cbn [app] in Er.
    destruct (decide (PlaceholderLen <= length y)%nat) as [|n]; [assumption|exfalso].
    rewrite (partial_prefix _ _ _ _ Hp Er) in P by lia. discriminate P; lia.
Qed.
