(* ===== verification/MaskProps.v ===== *)
(** * What masking guarantees

    The invariant of a session's tables and what follows from it: a stream
    restores what the whole text restores, masking is undone exactly, the
    upstream sees no sentinel but the session's own, a failed session stays
    failed, and the vault is bounded and scoped. *)
From Stdlib Require Import String.
From stdpp Require Import base gmap list.
From Stdlib Require Import ZArith Lia.
From S2P Require Import Prelude GoTime Sha256 Mask MaskStream.
Open Scope Z_scope.

(** ** Streams *)

Section Streams.
Variable clock : nat -> Z.

Lemma Flush_restore st carry :
  (let '(st', _, out) := Flush clock st carry in (st', out)) = restore clock 0 carry st.
Proof.
  unfold Flush. destruct carry as [|c t]; [reflexivity|].
  rewrite substitute_restore. destruct (restore clock 0 (c :: t) st). reflexivity.
Qed.

Lemma Write_restore st carry text more :
  restore clock 0 (carry ++ text ++ more) st =
  let '(st1, carry1, out) := Write clock st carry text in
  glue (st1, out) (restore clock 0 (carry1 ++ more)).
Proof.
  unfold Write. destruct text as [|c t]; [rewrite glue_nil; reflexivity|].
  set (buf := carry ++ c :: t). rewrite (assoc_L (++)). fold buf.
  rewrite <- (take_drop (holdFrom buf) buf) at 1. rewrite <- (assoc_L (++)).
  rewrite restore_app by apply holdFrom_clean. rewrite substitute_restore.
  destruct (restore clock 0 (take (holdFrom buf) buf) st). reflexivity.
Qed.

Lemma Write_held st carry text : (length carry <= PlaceholderLen - 1)%nat ->
  (length (Write clock st carry text).1.2 <= PlaceholderLen - 1)%nat.
Proof.
  intros L. unfold Write. destruct text; [exact L|]. destruct (substitute _ _ _). cbn [fst snd].
  rewrite length_drop. apply holdFrom_spec.
Qed.

Lemma stream_restore chunks st carry :
  stream clock st carry chunks = restore clock 0 (carry ++ concat chunks) st.
Proof.
  revert st carry. induction chunks as [|c chunks IH]; intros st carry; cbn [stream concat].
  { rewrite app_nil_r, <- Flush_restore. destruct (Flush clock st carry) as [[? ?] ?]. reflexivity. }
  rewrite Write_restore. destruct (Write clock st carry c) as [[st1 carry1] out].
  unfold glue. cbn [fst snd]. rewrite <- IH. destruct (stream clock st1 carry1 chunks). reflexivity.
Qed.

(** What an unmasker holds after some writes. *)
Fixpoint held (st : State) (carry : bytes) (chunks : list bytes) : bytes :=
  match chunks with
  | [] => carry
  | c :: chunks' => let '(st, carry, _) := Write clock st carry c in held st carry chunks'
  end.

Lemma held_bound chunks st carry : (length carry <= PlaceholderLen - 1)%nat ->
  (length (held st carry chunks) <= PlaceholderLen - 1)%nat.
Proof.
  revert st carry. induction chunks as [|c chunks IH]; intros st carry L; [exact L|].
  cbn [held]. pose proof (Write_held st carry c L) as H.
  destruct (Write clock st carry c) as [[st1 carry1] out]. apply IH, H.
Qed.

(** C19. However an answer is cut into chunks, what the streaming unmasker emits
    in all, and the session and vault it leaves, are those of substituting in the
    whole answer at once; and it never holds back more than one byte less than a
    placeholder. *)
Theorem streaming_is_whole st chunks :
  stream clock st [] chunks = substitute clock st (concat chunks) /\
  (length (held st [] chunks) <= PlaceholderLen - 1)%nat.
Proof.
  split; [|apply held_bound; cbn; lia].
  rewrite stream_restore, substitute_restore. reflexivity.
Qed.
End Streams.

(** ** The session's tables *)

(** Every value has the placeholder derived from it and comes back from it. *)
Definition tables_ok (t : tables) : Prop :=
  forall o p, fwd t !! o = Some p -> p = derive (scope_key t) o /\ rvs t !! p = Some o.

(** What later operations keep: the key, and every placeholder issued. *)
Definition extends (t t' : tables) : Prop :=
  scope_key t' = scope_key t /\ scopeTag t' = scopeTag t /\ rvs t ⊆ rvs t'.

#[global] Instance extends_preorder : PreOrder extends.
Proof.
  split; [intros t; repeat split; reflexivity|].
  intros a b c (K1 & T1 & R1) (K2 & T2 & R2). repeat split; [congruence|congruence|].
  etransitivity; eassumption.
Qed.

Lemma derive_placeholder key o : placeholder (derive key o).
Proof.
  unfold placeholder, derive.
  exists (flat_map (fun b => [nth (Z.to_nat (Z.shiftr b 4)) alphabet 0; nth (Z.to_nat (Z.land b 15)) alphabet 0])
            (take digestBytes (hmac key o))).
  split; [|reflexivity].
  destruct (hmac_shape key o) as [L F]. remember (hmac key o) as h eqn:Hh. clear Hh.
  assert (forall b, 0 <= b < 256 -> forall n, (n = Z.shiftr b 4 \/ n = Z.land b 15) ->
            97 <= nth (Z.to_nat n) alphabet 0 <= 112) as Hn.
  { intros b Hb n Hc. assert (0 <= n < 16) as Hr.
    { destruct Hc as [->| ->]; [rewrite Z.shiftr_div_pow2 by lia|change 15 with (Z.ones 4); rewrite Z.land_ones by lia].
      - split; [apply Z.div_pos; lia|apply Z.div_lt_upper_bound; lia].
      - apply Z.mod_pos_bound. lia. }
    assert (Forall (fun c => 97 <= c <= 112) alphabet) as Fa by (repeat constructor; lia).
    rewrite List.Forall_forall in Fa. apply Fa, nth_In. cbn. lia. }
  split.
  - destruct h as [|h0 [|h1 [|h2 [|h3 [|h4 [|h5 [|h6 [|h7 h]]]]]]]]; try (cbn in L; lia). reflexivity.
  - apply List.Forall_forall. intros c Hc. apply in_flat_map in Hc as (b & Hb & Hc).
    apply (List.Forall_forall _ _) with (x := b) in F.
    2: { rewrite <- (take_drop digestBytes h). apply in_or_app. left. exact Hb. }
    destruct Hc as [<-|[<-|[]]]; apply (Hn b F); auto.
Qed.

(** ** What the scan for matches promises *)

(** The sentinel does not occur in [s]. *)
Definition sentinel_free (s : bytes) : Prop := forall x r, s <> x ++ Sentinel ++ r.

Lemma sentinel_free_index s : sentinel_free s -> index_sentinel s = None.
Proof.
  intros F. destruct (index_sentinel s) as [j|] eqn:E; [|reflexivity].
  apply index_sentinel_spec in E as [(r & E)%has_prefix_spec _].
  destruct (F (take j s) r). rewrite <- E, take_drop. reflexivity.
Qed.

(** The matches are in the text, in order and apart, and the text between them
    is free of the sentinel. *)
Fixpoint scan_ok (text : bytes) (last : Z) (locs : list (list Z)) : Prop :=
  match locs with
  | [] => sentinel_free (drop (Z.to_nat last) text)
  | m :: locs' =>
      let lo := nth 0 m 0 in
      let hi := nth 1 m 0 in
      last <= lo /\ lo <= hi <= Z.of_nat (length text) /\
      sentinel_free (slice text (Z.to_nat last) (Z.to_nat lo)) /\ scan_ok text hi locs'
  end.

(** All matches, leftmost first and disjoint, of an alternation that has the
    literal sentinel among its alternatives: none is left unmatched. *)
Class RegexpLaws `{RegexpEngine} : Prop :=
  find_scans expr re text :
    Compile (escape_alternative ++ open_alternative ++ expr) = Ok re -> scan_ok text 0 (FindAll re text).

(** ** The text sent upstream *)

(** The values a scan masks, and the masked text, from the derivation alone. *)
Fixpoint values (text : bytes) (locs : list (list Z)) (last : Z) : list bytes :=
  match locs with
  | [] => []
  | m :: locs' =>
      if nth 0 m 0 <? last then values text locs' last
      else slice text (Z.to_nat (nth 0 m 0)) (Z.to_nat (nth 1 m 0)) :: values text locs' (nth 1 m 0)
  end.

Fixpoint masked (key text : bytes) (locs : list (list Z)) (last : Z) : bytes :=
  match locs with
  | [] => drop (Z.to_nat last) text
  | m :: locs' =>
      let lo := nth 0 m 0 in
      let hi := nth 1 m 0 in
      if lo <? last then masked key text locs' last
      else slice text (Z.to_nat last) (Z.to_nat lo) ++ derive key (slice text (Z.to_nat lo) (Z.to_nat hi))
           ++ masked key text locs' hi
  end.

Lemma slice_drop text lo hi : (lo <= hi)%nat -> slice text lo hi ++ drop hi text = drop lo text.
Proof.
  intros L. unfold slice. rewrite <- (take_drop (hi - lo) (drop lo text)) at 2.
  rewrite drop_drop, Nat.add_comm, Nat.sub_add by exact L. reflexivity.
Qed.

Definition issued (t : tables) (o : bytes) : Prop := rvs t !! derive (scope_key t) o = Some o.

Lemma issued_extends t t' o : extends t t' -> issued t o -> issued t' o.
Proof. intros (K & _ & R) I. unfold issued in *. rewrite K. eapply lookup_weaken; eassumption. Qed.

Lemma gap_clean gap p rest : sentinel_free gap -> placeholder p -> clean gap (p ++ rest).
Proof.
  intros F P x y -> N.
  assert (head (p ++ rest) = Some 91) as Hh by (destruct P as (d & _ & ->); reflexivity).
  assert (forall r, y ++ p ++ rest = Sentinel ++ r -> False) as Hs.
  { intros r E. destruct (decide (length y < length Sentinel)%nat) as [L|L].
    { eapply sentinel_bracket; [exact N|exact L|exact Hh|exact E]. }
    destruct (F x (drop (length Sentinel) y)). f_equal.
    rewrite <- (take_drop (length Sentinel) y) at 1. f_equal.
    rewrite <- (take_app_le _ (p ++ rest)), E by lia. apply take_app_length. }
  split; intros; exfalso; [eapply Hs; eassumption|].
  destruct H as (d & _ & ->). rewrite <- !(assoc_L (++)) in H0. eapply Hs. exact H0.
Qed.

Definition add_resolved (t : tables) (n : Z) : tables :=
  mkTables (scope_key t) (fwd t) (rvs t) (scopeTag t) (perPat t) (Issued t) (Resolved t + n) (Unresolved t) (failed t).

Section Upstream.
Variable clock : nat -> Z.

Lemma restore_gap (gap p o rest : bytes) (t : tables) (v : Vault) : sentinel_free gap -> placeholder p -> rvs t !! p = Some o ->
  restore clock 0 (gap ++ p ++ rest) (t, v)
  = glue ((count_resolved t, v), gap ++ o) (restore clock 0 rest).
Proof.
  intros F P R. rewrite restore_app by (apply gap_clean; assumption).
  rewrite (restore_none _ gap) by (apply sentinel_free_index, F). unfold glue at 1. cbn [fst snd].
  rewrite restore_step by (destruct P as (d & _ & ->); discriminate).
  rewrite (proj2 (wellFormed_spec _)) by eauto.
  pose proof (placeholder_length _ P) as L.
  rewrite take_app_length', drop_app_length' by (symmetry; exact L).
  unfold resolve, lookup. cbn [fst snd]. rewrite R. unfold glue. cbn [fst snd].
  destruct (restore clock 0 rest _). rewrite (assoc_L (++)). reflexivity.
Qed.

(** The masked text comes back, one resolution per value. *)
Lemma restore_masked key text locs last t v :
  0 <= last -> scan_ok text last locs -> Forall (fun o => rvs t !! derive key o = Some o) (values text locs last) ->
  restore clock 0 (masked key text locs last) (t, v)
  = ((add_resolved t (Z.of_nat (length (values text locs last))), v), drop (Z.to_nat last) text).
Proof.
  revert last t. induction locs as [|m locs IH]; intros last t L0 S F; cbn [masked values scan_ok] in *.
  { rewrite restore_none by (apply sentinel_free_index, S). unfold add_resolved. cbn.
    rewrite Z.add_0_r. destruct t; reflexivity. }
  destruct S as (Ll & Lh & Fr & S). destruct (Z.ltb_spec (nth 0 m 0) last); [lia|].
  apply Forall_cons in F as [Fo F].
  rewrite (restore_gap _ _ _ _ _ _ Fr (derive_placeholder _ _) Fo). unfold glue. cbn [fst snd].
  rewrite IH; [|lia|exact S|exact F].
  f_equal.
  - unfold add_resolved, count_resolved. cbn [length scope_key fwd rvs scopeTag perPat Issued Resolved Unresolved failed].
    do 2 f_equal. lia.
  - rewrite <- (assoc_L (++)), !slice_drop by lia. reflexivity.
Qed.
End Upstream.

(** A sentinel in the masked text starts a placeholder of a masked value. *)
Lemma masked_sentinels key text locs last x r :
  0 <= last -> scan_ok text last locs -> masked key text locs last = x ++ Sentinel ++ r ->
  exists o rest, o ∈ values text locs last /\ Sentinel ++ r = derive key o ++ rest.
Proof.
  revert last x r. induction locs as [|m locs IH]; intros last x r L0 S E; cbn [masked values scan_ok] in *.
  { destruct (S _ _ E). }
  destruct S as (Ll & Lh & Fr & S). destruct (Z.ltb_spec (nth 0 m 0) last); [lia|].
  set (gap := slice text (Z.to_nat last) _) in *. set (o := slice text (Z.to_nat (nth 0 m 0)) _) in *.
  pose proof (derive_placeholder key o) as P. set (out := masked key text locs _) in *.
  apply app_eq_inv in E as [(k & Eg & Ek)|(k & Ex & Ek)].
  - destruct (decide (k = [])) as [->|N]; [exists o, out; split; [left|exact Ek]|].
    destruct (gap_clean gap _ out Fr P _ _ Eg N) as [C _]. symmetry in Ek. pose proof (C _ Ek) as Lk.
    exfalso. apply (Fr x (drop (length Sentinel) k)). rewrite Eg. f_equal.
    rewrite <- (take_drop (length Sentinel) k) at 1. f_equal.
    rewrite <- (take_app_le _ (derive key o ++ out)), Ek by lia. apply take_app_length.
  - destruct (decide (k = [])) as [->|N]; [exists o, out; split; [left|symmetry; exact Ek]|].
    apply app_eq_inv in Ek as [(k' & Ep & Ek)|(k' & -> & Ek)].
    + destruct (decide (k' = [])) as [->|N'].
      { destruct (IH (nth 1 m 0) [] r) as (o' & rest & Ho & Er); [lia|exact S|symmetry; exact Ek|].
        exists o', rest. split; [right; exact Ho|exact Er]. }
      exfalso. eapply (placeholder_bracket _ k k' []); [exact P|exact N| | |rewrite app_nil_r; symmetry; exact Ep].
      * rewrite <- (placeholder_length _ P), Ep, length_app. destruct k'; [done|cbn; lia].
      * destruct k'; [done|]. cbn in Ek. inv Ek. reflexivity.
    + destruct (IH (nth 1 m 0) k' r) as (o' & rest & Ho & Er); [lia|exact S|exact Ek|].
      exists o', rest. split; [right; exact Ho|exact Er].
Qed.

(** ** The operations on the tables *)

Section Sessions.
Context `{RegexpEngine}.
Variable clock : nat -> Z.

(** What an operation that issues placeholders does to the tables. *)
Record issues (max : Z) (t t' : tables) : Prop := {
  is_extends : extends t t';
  is_ok : tables_ok t -> tables_ok t';
  is_bound : Z.of_nat (size (fwd t)) <= max -> Z.of_nat (size (fwd t')) <= max;
  is_failed : failed t = true -> failed t' = true }.

#[export] Instance issues_preorder max : PreOrder (issues max).
Proof.
  split; [intros t; split; [reflexivity|auto|auto|auto]|].
  intros a b c [E1 O1 B1 F1] [E2 O2 B2 F2]. split; [etransitivity; eassumption|auto|auto|auto].
Qed.

Lemma issues_fail max t : issues max t (fail t).
Proof. split; cbn; auto. split; [reflexivity|split; reflexivity]. Qed.

Lemma issues_count max t i : issues max t (count_pattern t i).
Proof. destruct i; [|reflexivity]. split; cbn; auto. split; [reflexivity|split; reflexivity]. Qed.

Lemma issue_spec st o max st' r : issue clock st o max = (st', r) ->
  issues max st.1 st'.1 /\
  match r with
  | Ok p => failed st'.1 = failed st.1 /\ (tables_ok st.1 -> p = derive (scope_key st.1) o /\ issued st'.1 o)
  | Err _ => failed st'.1 = true
  end.
Proof.
  destruct st as [t v]. unfold issue. destruct (fwd t !! o) as [p|] eqn:Ef.
  { intros E. inv E. cbn [fst]. split; [reflexivity|]. split; [reflexivity|]. intros Ok.
    destruct (Ok _ _ Ef) as [-> R]. split; [reflexivity|exact R]. }
  destruct (Z.leb_spec max (Z.of_nat (size (fwd t)))) as [|Lm].
  { intros E. inv E. split; [apply issues_fail|reflexivity]. }
  remember (derive (scope_key t) o) as ph eqn:Hph.
  destruct (match rvs t !! ph with Some _ => _ | None => _ end) eqn:C.
  { intros E. inv E. split; [apply issues_fail|reflexivity]. }
  intros [= <- <-]. cbn [fst failed fwd rvs scope_key].
  assert (forall o', rvs t !! ph = Some o' -> o' = o) as Hc.
  { intros o' Ho. rewrite Ho in C. apply negb_false_iff, beqb_eq in C. exact C. }
  split; [split; cbn [fwd rvs scope_key scopeTag failed]|split; [reflexivity|]].
  - split; [reflexivity|split; [reflexivity|]]. cbn [fst rvs]. apply map_subseteq_spec. intros k x Hk.
    destruct (decide (k = ph)) as [->|N]; [|rewrite lookup_insert_ne by congruence; exact Hk].
    rewrite lookup_insert_eq. f_equal. symmetry. apply Hc, Hk.
  - intros Ok o' p'. cbn [fwd rvs scope_key]. destruct (decide (o' = o)) as [->|N].
    + rewrite lookup_insert_eq. intros [= <-]. rewrite lookup_insert_eq. auto.
    + rewrite lookup_insert_ne by congruence. intros E. destruct (Ok _ _ E) as [Ep R]. split; [exact Ep|].
      rewrite lookup_insert_ne; [exact R|]. intros ->. apply N, Hc, R.
  - intros _. rewrite map_size_insert_None by exact Ef. lia.
  - auto.
  - intros _. split; [exact Hph|]. unfold issued. cbn [rvs scope_key]. rewrite <- Hph. apply lookup_insert_eq.
Qed.

Lemma mask_loop_spec f text locs last st st' r : mask_loop clock f text locs last st = (st', r) ->
  issues (fmax f) st.1 st'.1 /\
  match r with
  | Ok (out, n) => tables_ok st.1 ->
      out = masked (scope_key st.1) text locs last /\
      n = Z.of_nat (length (values text locs last)) /\
      Forall (issued st'.1) (values text locs last)
  | Err _ => failed st'.1 = true
  end.
Proof.
  revert last st st' r. induction locs as [|m locs IH]; intros last st st' r; cbn [mask_loop masked values].
  { intros E. inv E. split; [reflexivity|]. auto. }
  destruct (nth 0 m 0 <? last); [apply IH|].
  destruct (issue clock st _ (fmax f)) as [st1 [ph|e]] eqn:Ei; apply issue_spec in Ei as [Is Io].
  2: { intros E. inv E. auto. }
  destruct Io as [_ Io].
  pose proof (issues_count (fmax f) st1.1 (which 0 (pats (fset f)) m)) as Ic.
  destruct (mask_loop clock f text locs (nth 1 m 0) _) as [st2 r2] eqn:El.
  apply IH in El as [Il Ir]. cbn [fst] in *.
  assert (issues (fmax f) st.1 st2.1) as It by (etransitivity; [exact Is|etransitivity; eassumption]).
  destruct r2 as [[out n]|e]; intros E; inv E; (split; [exact It|]); [|exact Ir].
  intros Hok. destruct (Io Hok) as [-> Iv].
  destruct (Ir (is_ok _ _ _ Ic (is_ok _ _ _ Is Hok))) as (-> & -> & Fv).
  assert (scope_key (count_pattern st1.1 (which 0 (pats (fset f)) m)) = scope_key st.1) as ->.
  { rewrite (proj1 (is_extends _ _ _ Ic)). apply (is_extends _ _ _ Is). }
  split; [reflexivity|]. split; [cbn [length]; lia|]. constructor; [|exact Fv].
  eapply issued_extends; [|eapply issued_extends; [apply (is_extends _ _ _ Ic)|exact Iv]].
  apply (is_extends _ _ _ Il).
Qed.

(** The filter's expression has the sentinel among its alternatives. *)
Definition filter_ok (f : Filter) : Prop :=
  exists expr, Compile (escape_alternative ++ open_alternative ++ expr) = Ok (set_re (fset f)).

Lemma compile_specs_cons i sp specs seen ps :
  compile_specs i (sp :: specs) seen = Ok ps -> exists p ps', ps = p :: ps'.
Proof.
  cbn [compile_specs]. intros E. repeat (case_hyp E; try discriminate E).
  all: injection E as <-; eauto.
Qed.

Lemma NewPatternSet_re specs set : NewPatternSet specs = Ok set ->
  exists expr, Compile (escape_alternative ++ open_alternative ++ expr) = Ok (set_re set).
Proof.
  unfold NewPatternSet. destruct specs as [|sp specs]; [discriminate|].
  destruct (compile_specs 0 (sp :: specs) ∅) as [ps|e] eqn:Ep; [|discriminate].
  apply compile_specs_cons in Ep as (p & ps' & ->).
  cbn [combine_patterns]. destruct (combine_patterns ps' _) as [ex rest].
  destruct (Compile _) as [re|e] eqn:Er; [|discriminate]. intros [= <-]. cbn [set_re].
  eexists. rewrite <- Er. reflexivity.
Qed.

Lemma New_ok cfg f v : New cfg = Ok (f, v) ->
  filter_ok f /\ 1 <= fmax f /\ v = newVault (cRetain cfg) (cMaxRetained cfg).
Proof.
  unfold New. destruct (NewPatternSet (cPatterns cfg)) as [set|e] eqn:Es; [|discriminate].
  destruct (_ && _); [discriminate|]. intros E. injection E as <- <-. unfold filter_ok. cbn [fset fmax].
  split; [exact (NewPatternSet_re _ _ Es)|]. split; [|reflexivity].
  unfold DefaultMaxEntries. case_match; breflect; lia.
Qed.

Lemma Mask_spec `{!RegexpLaws} f st text st' r : filter_ok f -> Mask clock f st text = (st', r) ->
  issues (fmax f) st.1 st'.1 /\
  match r with
  | Ok (out, n) => tables_ok st.1 -> exists locs,
      scan_ok text 0 locs /\ (text <> [] -> locs = FindAll (set_re (fset f)) text) /\
      out = masked (scope_key st.1) text locs 0 /\
      n = Z.of_nat (length (values text locs 0)) /\ Forall (issued st'.1) (values text locs 0)
  | Err _ => failed st'.1 = true
  end.
Proof.
  intros [expr Hf]. unfold Mask. destruct (beqb text []) eqn:Et.
  { apply beqb_eq in Et as ->. intros E. inv E. split; [reflexivity|]. intros _. exists [].
    split; [|split; [done|cbn; auto]]. intros x r E. destruct x; discriminate E. }
  assert (text <> []) as N by (intros ->; discriminate Et).
  destruct (failed st.1) eqn:Ef; [intros E; inv E; split; [reflexivity|exact Ef]|].
  pose proof (find_scans _ _ text Hf) as S.
  destruct (FindAll (set_re (fset f)) text) as [|m locs] eqn:El.
  { intros E. inv E. split; [reflexivity|]. intros _. exists []. cbn. auto. }
  intros E. apply mask_loop_spec in E as [I R]. split; [exact I|].
  destruct r as [[out n]|e]; [|exact R]. intros Hok. exists (m :: locs). destruct (R Hok) as (? & ? & ?). auto.
Qed.

Lemma MaskValue_spec f st value st' r : MaskValue clock f st value = (st', r) ->
  issues (fmax f) st.1 st'.1 /\
  match r with Ok _ => True | Err _ => failed st'.1 = true end.
Proof.
  unfold MaskValue. destruct (beqb value []); [intros E; inv E; split; [reflexivity|exact I]|].
  destruct (failed st.1) eqn:Ef; [intros E; inv E; split; [reflexivity|exact Ef]|].
  intros E. apply issue_spec in E as [Is R]. split; [exact Is|]. destruct r; [exact I|exact R].
Qed.
End Sessions.
