(* ===== verification/MaskEngine.v ===== *)
(** * An engine for literal alternations

    An executable instance of [RegexpEngine], and its laws: expressions are
    alternations of literals, where a backslash quotes and parentheses only
    group. It scans leftmost-longest, as [regexp] does, and carries the concrete
    runs of the masking theorems. *)
From Stdlib Require Import String.
From stdpp Require Import base gmap list.
From Stdlib Require Import ZArith Lia.
From S2P Require Import Prelude Mask MaskStream MaskProps.
Open Scope Z_scope.

(** The literals of an expression; [cur] is the one being read, reversed. *)
Fixpoint literals (s cur : bytes) : list bytes :=
  match s with
  | [] => [rev cur]
  | c :: s' =>
      if c =? 92 then match s' with
                      | q :: s'' => literals s'' (q :: cur)
                      | [] => [rev cur]
                      end
      else if c =? 124 then rev cur :: literals s' []
      else if (c =? 40) || (c =? 41) then literals s' cur
      else literals s' (c :: cur)
  end.

(** The number and the length of the longest literal that [s] starts with; an
    earlier one wins a tie. *)
Fixpoint longest (i : nat) (lits : list bytes) (s : bytes) : option (nat * nat) :=
  match lits with
  | [] => None
  | l :: lits' =>
      let rest := longest (S i) lits' s in
      if has_prefix l s && (0 <? length l)%nat then
        match rest with
        | Some (k, n) => if (length l <? n)%nat then rest else Some (i, length l)
        | None => Some (i, length l)
        end
      else rest
  end.

(** The match and its groups: group [i + 1] is the [i]-th literal's. *)
Definition submatches (count i : nat) (lo hi : Z) : list Z :=
  lo :: hi :: flat_map (fun k => if Nat.eqb k i then [lo; hi] else [-1; -1]) (seq 0 count).

Fixpoint scan (lits : list bytes) (pos : Z) (skip : nat) (s : bytes) : list (list Z) :=
  match s with
  | [] => []
  | _ :: s' =>
      match skip with
      | S k => scan lits (pos + 1) k s'
      | O =>
          match longest 0 lits s with
          | Some (i, n) => submatches (length lits) i pos (pos + Z.of_nat n) :: scan lits (pos + 1) (n - 1) s'
          | None => scan lits (pos + 1) 0 s'
          end
      end
  end.

#[global] Instance literal_engine : RegexpEngine := {
  Regexp := bytes * list bytes;
  Compile e := Ok (e, literals e []);
  Source := fst;
  NumSubexp re := Z.of_nat (length (filter (eq 40) re.1));
  MatchString re s := existsb (beqb []) re.2 || (0 <? length (scan re.2 0 0 s))%nat;
  FindAll re text := scan re.2 0 0 text }.

Lemma longest_length i lits s k n : longest i lits s = Some (k, n) -> (0 < n <= length s)%nat.
Proof.
  revert i k n. induction lits as [|l lits IH]; intros i k n E; cbn [longest] in E; [discriminate|].
  destruct (has_prefix l s && (0 <? length l)%nat) eqn:P; [|eapply IH, E].
  apply andb_prop in P as [(r & ->)%has_prefix_spec P]. apply Nat.ltb_lt in P.
  destruct (longest (S i) lits (l ++ r)) as [[k' n']|] eqn:El.
  - specialize (IH _ _ _ El). destruct (_ <? _)%nat; inv E; [exact IH|]. rewrite length_app. lia.
  - inv E. rewrite length_app. lia.
Qed.

Lemma longest_finds i lits s : Sentinel ∈ lits -> has_prefix Sentinel s = true -> longest i lits s <> None.
Proof.
  intros E P. revert i. induction lits as [|l lits IH]; intros i; cbn [longest]; [inversion E|].
  apply elem_of_cons in E as [<-|E].
  - rewrite P. cbn [andb]. change (0 <? length Sentinel)%nat with true. cbv iota.
    repeat case_match; congruence.
  - specialize (IH E (S i)). repeat case_match; congruence.
Qed.

(** No sentinel starts in [text] at an offset in [[a, b)]. *)
Definition none_between (text : bytes) (a b : nat) : Prop :=
  forall i, (a <= i < b)%nat -> has_prefix Sentinel (drop i text) = false.

Lemma none_slice text a b : (a <= b <= length text)%nat -> none_between text a b -> sentinel_free (slice text a b).
Proof.
  intros L N x r E.
  assert (length (slice text a b) = (b - a)%nat) as Ls.
  { unfold slice. rewrite length_take, length_drop. lia. }
  rewrite E, !length_app in Ls. change (length Sentinel) with 5%nat in Ls.
  assert (has_prefix Sentinel (drop (a + length x) text) = true) as P; [|rewrite N in P; [discriminate|lia]].
  apply has_prefix_spec. exists (r ++ drop b text). rewrite <- drop_drop, <- (slice_drop text a b) by lia.
  rewrite E, <- !(assoc_L (++)), drop_app_length. reflexivity.
Qed.

Lemma scan_scans text lits : Sentinel ∈ lits -> forall s pos skip last,
  s = drop pos text -> (pos <= length text)%nat ->
  (skip = 0%nat /\ (last <= pos)%nat /\ none_between text last pos \/
   (0 < skip)%nat /\ last = (pos + skip)%nat /\ (last <= length text)%nat) ->
  scan_ok text (Z.of_nat last) (scan lits (Z.of_nat pos) skip s).
Proof.
  intros Hl. induction s as [|c s IH]; intros pos skip last Es Lp Inv; cbn [scan].
  - cbn [scan_ok]. rewrite Nat2Z.id. assert (pos = length text) as ->.
    { apply (f_equal length) in Es. rewrite length_drop in Es. cbn in Es. lia. }
    destruct Inv as [(_ & L & N)|(Hs & -> & L)]; [|lia].
    replace (drop last text) with (slice text last (length text)).
    { apply none_slice; [lia|exact N]. }
    rewrite <- (slice_drop text last (length text)) by lia. rewrite drop_all, app_nil_r. reflexivity.
  - assert (s = drop (S pos) text) as Es' by (replace (S pos) with (pos + 1)%nat by lia; rewrite <- drop_drop, <- Es; reflexivity).
    assert (S pos <= length text)%nat as Lp'.
    { apply (f_equal length) in Es. rewrite length_drop in Es. cbn in Es. lia. }
    replace (Z.of_nat pos + 1) with (Z.of_nat (S pos)) by lia.
    destruct Inv as [(-> & L & N)|(Hs & -> & L)].
    + destruct (longest 0 lits (c :: s)) as [[i n]|] eqn:El.
      * pose proof (longest_length _ _ _ _ _ El) as Ln. rewrite Es, length_drop in Ln.
        cbn [scan_ok submatches nth]. split; [lia|]. split; [lia|]. split.
        { rewrite !Nat2Z.id. apply none_slice; [lia|exact N]. }
        rewrite <- Nat2Z.inj_add. apply IH; [exact Es'|exact Lp'|].
        destruct (decide (n = 1)%nat) as [->|]; [left|right; lia].
        split; [reflexivity|]. split; [lia|]. intros j Hj. lia.
      * apply IH; [exact Es'|exact Lp'|]. left. split; [reflexivity|]. split; [lia|]. intros j Hj.
        destruct (decide (j < pos)%nat); [apply N; lia|]. replace j with pos by lia. rewrite <- Es.
        destruct (has_prefix Sentinel (c :: s)) eqn:P; [|reflexivity].
        destruct (longest_finds 0 lits (c :: s) Hl P El).
    + destruct skip as [|skip]; [lia|]. apply IH; [exact Es'|exact Lp'|].
      destruct skip as [|skip]; [left|right; lia].
      split; [reflexivity|]. split; [lia|]. intros j Hj. lia.
Qed.

#[global] Instance literal_laws : RegexpLaws.
Proof.
  intros expr re text E. inv E. cbn [FindAll literal_engine snd].
  apply (scan_scans text _) with (last := 0%nat) (pos := 0%nat).
  - change (Sentinel ∈ Sentinel :: literals (40 :: expr) []). left.
  - reflexivity.
  - lia.
  - left. split; [reflexivity|]. split; [lia|]. intros i Hi. lia.
Qed.
