(* ===== verification/MaskSession.v ===== *)
(** * Sessions over time

    What a request and the others that share its filter can do, as a step
    relation, and the guarantees that hold in every state it reaches. *)
From Stdlib Require Import String.
From stdpp Require Import base gmap list relations.
From Stdlib Require Import ZArith Lia.
From S2P Require Import Prelude GoTime Sha256 Mask MaskStream MaskProps MaskEngine.
Open Scope Z_scope.

Section Steps.
Context `{RegexpLaws}.
Variable clock : nat -> Z.
Variable f : Filter.

(** A session masks, masks a value, or restores; between its operations the
    other sessions of the filter use the vault. *)
Inductive sstep : State -> State -> Prop :=
| ss_mask st text st' r : Mask clock f st text = (st', r) -> sstep st st'
| ss_value st value st' r : MaskValue clock f st value = (st', r) -> sstep st st'
| ss_restore st text st' out : substitute clock st text = (st', out) -> sstep st st'
| ss_others t v v' : sstep (t, v) (t, v').

(** Restoring only counts. *)
Lemma restore_counts text st max : issues max st.1 (restore clock 0 text st).1.1.
Proof.
  assert (forall k, issues max st.1 (restore clock k text st).1.1) as A; [|apply A].
  revert st. induction text as [|c t IH]; intros st k; [reflexivity|].
  destruct k as [|k]; [|apply IH]. cbn [restore].
  assert (forall x, issues max st.1 x.1.1 -> forall k0, issues max st.1 (glue x (restore clock k0 t)).1.1) as G.
  { intros [st1 o] I1 k0. unfold glue. cbn [fst] in *. specialize (IH st1 k0).
    destruct (restore clock k0 t st1). cbn [fst] in *. etransitivity; eassumption. }
  assert (forall t0, issues max t0 (count_resolved t0) /\ issues max t0 (count_unresolved t0)) as C.
  { intros t0. split; split; cbn; auto; split; [reflexivity|split; reflexivity| |]; [reflexivity|split; reflexivity]. }
  destruct (wellFormed (c :: t) 0); [|destruct (has_prefix Sentinel (c :: t))]; apply G.
  - unfold resolve, lookup. destruct (rvs st.1 !! _); [apply C|].
    destruct (get clock st.2 _ _) as [v [o|]]; apply C.
  - apply C.
  - reflexivity.
Qed.

Hypothesis f_ok : filter_ok f.

Lemma sstep_issues st st' : sstep st st' -> issues (fmax f) st.1 st'.1.
Proof.
  intros [st0 text st1 r E|st0 value st1 r E|st0 text st1 out E|t v v'].
  - apply (Mask_spec clock f _ _ _ _ f_ok) in E as [I _]. exact I.
  - apply MaskValue_spec in E as [I _]. exact I.
  - rewrite substitute_restore in E. pose proof (restore_counts text st0 (fmax f)) as I. rewrite E in I. exact I.
  - reflexivity.
Qed.

Lemma steps_issues st st' : rtc sstep st st' -> issues (fmax f) st.1 st'.1.
Proof. induction 1 as [|x y z S _ IH]; [reflexivity|]. etransitivity; [apply sstep_issues, S|exact IH]. Qed.

(** A state of a session: some steps after its start, the vault in any state. *)
Definition live (salt : bytes) (st : State) : Prop :=
  exists random t v, Session f salt random = Some t /\ rtc sstep (t, v) st.

Lemma Session_empty salt random t : Session f salt random = Some t ->
  fwd t = ∅ /\ (fscope f <> ScopeRequest ->
    scope_key t = hmac (secret f) (writeLP (Scope_String (fscope f)) ++ writeLP salt)).
Proof.
  unfold Session. destruct (fscope f =? ScopeRequest) eqn:E.
  - destruct random; [|discriminate]. intros R. injection R as <-. split; [reflexivity|].
    apply Z.eqb_eq in E. congruence.
  - intros R. injection R as <-. split; reflexivity.
Qed.

Lemma live_ok salt st : live salt st -> tables_ok st.1.
Proof.
  intros (random & t & v & E & S). apply (is_ok _ _ _ (steps_issues _ _ S)). cbn [fst].
  intros o p Ho. rewrite (proj1 (Session_empty _ _ _ E)), lookup_empty in Ho. discriminate.
Qed.

Lemma live_bound salt st : 0 <= fmax f -> live salt st -> Z.of_nat (size (fwd st.1)) <= fmax f.
Proof.
  intros L (random & t & v & E & S). apply (is_bound _ _ _ (steps_issues _ _ S)). cbn [fst].
  rewrite (proj1 (Session_empty _ _ _ E)), map_size_empty. exact L.
Qed.

(** What was masked comes back in any later state, however the answer is cut. *)
Lemma masked_restores salt st text st1 out n st2 chunks :
  live salt st -> Mask clock f st text = (st1, Ok (out, n)) -> rtc sstep st1 st2 -> concat chunks = out ->
  stream clock st2 [] chunks = ((add_resolved st2.1 n, st2.2), text).
Proof.
  intros Lv E S Ec. apply (Mask_spec clock f _ _ _ _ f_ok) in E as [I R].
  destruct (R (live_ok _ _ Lv)) as (locs & Sc & _ & -> & -> & F).
  rewrite stream_restore. cbn [app]. rewrite Ec. destruct st2 as [t2 v2].
  rewrite restore_masked; [reflexivity|lia|exact Sc|].
  eapply Forall_impl; [exact F|]. intros o Io. unfold issued in Io.
  rewrite (proj1 (is_extends _ _ _ I)) in Io.
  eapply lookup_weaken; [exact Io|]. apply (is_extends _ _ _ (steps_issues _ _ S)).
Qed.

Lemma live_key salt st : fscope f <> ScopeRequest -> live salt st ->
  scope_key st.1 = hmac (secret f) (writeLP (Scope_String (fscope f)) ++ writeLP salt).
Proof.
  intros N (random & t & v & E & S). destruct (is_extends _ _ _ (steps_issues _ _ S)) as [-> _].
  apply (Session_empty _ _ _ E), N.
Qed.

Lemma masked_has_sentinel key text locs : scan_ok text 0 locs -> values text locs 0 <> [] ->
  exists x r, masked key text locs 0 = x ++ Sentinel ++ r.
Proof.
  destruct locs as [|m locs]; [done|]. cbn [scan_ok masked values]. intros (L & _) _.
  destruct (Z.ltb_spec (nth 0 m 0) 0); [lia|].
  destruct (derive_placeholder key (slice text (Z.to_nat (nth 0 m 0)) (Z.to_nat (nth 1 m 0)))) as (d & _ & ->).
  eexists _, ((d ++ [93]) ++ masked key text locs (nth 1 m 0)). rewrite !app_assoc. reflexivity.
Qed.

Lemma Mask_counts_sentinel salt st text st1 out n x r :
  live salt st -> Mask clock f st text = (st1, Ok (out, n)) -> text = x ++ Sentinel ++ r -> 1 <= n.
Proof.
  intros Lv E Et. apply (Mask_spec clock f _ _ _ _ f_ok) in E as [_ R].
  destruct (R (live_ok _ _ Lv)) as (locs & Sc & _ & _ & -> & _).
  destruct locs as [|m locs]; [destruct (Sc _ _ Et)|]. cbn [scan_ok values] in *.
  destruct Sc as (L & _). destruct (Z.ltb_spec (nth 0 m 0) 0); [lia|]. cbn [length]. lia.
Qed.
End Steps.

Section Guarantees.
Context `{RegexpLaws}.

(** C18. What a session masked is restored exactly: in any later state of the
    session, whatever other sessions did to the vault, and however the masked
    text is cut into chunks, unmasking it gives back the original text byte for
    byte, with one resolution counted per masked value and nothing left
    unresolved. *)
Theorem mask_roundtrip clock cfg f v0 salt st text st1 out n st2 chunks :
  New cfg = Ok (f, v0) -> live clock f salt st ->
  Mask clock f st text = (st1, Ok (out, n)) -> rtc (sstep clock f) st1 st2 -> concat chunks = out ->
  stream clock st2 [] chunks = ((add_resolved st2.1 n, st2.2), text).
Proof. intros E. apply masked_restores, (New_ok _ _ _ E). Qed.

(** C20. After masking, every occurrence of the sentinel in the text sent
    upstream starts a placeholder that this session issued and would restore. *)
Theorem upstream_sentinels_are_issued clock cfg f v0 salt st text st1 out n x r :
  New cfg = Ok (f, v0) -> live clock f salt st ->
  Mask clock f st text = (st1, Ok (out, n)) -> out = x ++ Sentinel ++ r ->
  exists o rest, Sentinel ++ r = derive (scope_key st1.1) o ++ rest /\
    rvs st1.1 !! derive (scope_key st1.1) o = Some o.
Proof.
  intros Ef Lv E Eo. destruct (New_ok _ _ _ Ef) as [Hf _].
  apply (Mask_spec clock f _ _ _ _ Hf) in E as [I R].
  destruct (R (live_ok _ _ Hf _ _ Lv)) as (locs & Sc & _ & -> & _ & F).
  apply masked_sentinels in Eo as (o & rest & Ho & Er); [|lia|exact Sc].
  exists o, rest. rewrite Er, (proj1 (is_extends _ _ _ I)). split; [reflexivity|].
  rewrite Forall_forall in F. specialize (F _ Ho). unfold issued in F.
  rewrite (proj1 (is_extends _ _ _ I)) in F. exact F.
Qed.

(** C21. Masking is a stable pseudonym: under a scope other than [request], two
    sessions of the same filter and salt, on nodes with different clocks and
    after different histories, mask the same text to the same bytes and the same
    count whenever both succeed. *)
Theorem mask_is_stable clock clock' cfg f v0 salt st st' text st1 st1' a b :
  New cfg = Ok (f, v0) -> fscope f <> ScopeRequest ->
  live clock f salt st -> live clock' f salt st' ->
  Mask clock f st text = (st1, Ok a) -> Mask clock' f st' text = (st1', Ok b) -> a = b.
Proof.
  intros Ef N Lv Lv' E E'. destruct (New_ok _ _ _ Ef) as [Hf _]. destruct a as [a na], b as [b nb].
  destruct (decide (text = [])) as [->|Nt].
  { unfold Mask in E, E'. cbn in E, E'. congruence. }
  apply (Mask_spec clock f _ _ _ _ Hf) in E as [_ R]. apply (Mask_spec clock' f _ _ _ _ Hf) in E' as [_ R'].
  destruct (R (live_ok _ _ Hf _ _ Lv)) as (l & _ & El & -> & -> & _).
  destruct (R' (live_ok _ _ Hf _ _ Lv')) as (l' & _ & El' & -> & -> & _).
  rewrite (El Nt), (El' Nt), (live_key _ _ Hf _ _ N Lv), (live_key _ _ Hf _ _ N Lv'). reflexivity.
Qed.

(** C22. Masking fails closed: once a mask has failed, the session is marked
    failed for good, and every later [Mask] of a non-empty text and every later
    [MaskValue] of a non-empty value is refused and changes nothing; a session
    never holds more distinct values than the filter's limit. *)
Theorem failed_mask_fails_closed clock cfg f v0 salt st text st1 e st2 text' :
  New cfg = Ok (f, v0) -> live clock f salt st ->
  Mask clock f st text = (st1, Err e) -> rtc (sstep clock f) st1 st2 -> text' <> [] ->
  failed st2.1 = true /\
  Mask clock f st2 text' = (st2, Err AlreadyFailed) /\ MaskValue clock f st2 text' = (st2, Err AlreadyFailed) /\
  Z.of_nat (size (fwd st2.1)) <= fmax f.
Proof.
  intros Ef Lv E S N. destruct (New_ok _ _ _ Ef) as (Hf & Hm & _).
  assert (live clock f salt st2) as Lv2.
  { destruct Lv as (random & t & v & Es & Sv). exists random, t, v. split; [exact Es|].
    etransitivity; [exact Sv|]. eapply rtc_l; [eapply ss_mask, E|exact S]. }
  apply (Mask_spec clock f _ _ _ _ Hf) in E as [_ F].
  pose proof (is_failed _ _ _ (steps_issues clock f Hf _ _ S) F) as F2.
  split; [exact F2|]. unfold Mask, MaskValue.
  assert (beqb text' [] = false) as ->.
  { destruct (beqb text' []) eqn:Eb; [|reflexivity]. apply beqb_eq in Eb. done. }
  rewrite F2. split; [reflexivity|]. split; [reflexivity|].
  apply (live_bound _ _ Hf _ _) in Lv2; [exact Lv2|lia].
Qed.

(** Masking text that was masked already is never a no-op: the placeholders
    of the first pass start with the sentinel, so the second pass, by this or
    any other filter, replaces at least one value in it. *)
Theorem second_pass_masks_again clock cfg cfg' f f' v0 v0' salt salt' st text st1 out n st2 st3 out' n' :
  New cfg = Ok (f, v0) -> New cfg' = Ok (f', v0') ->
  live clock f salt st -> Mask clock f st text = (st1, Ok (out, n)) -> 1 <= n ->
  live clock f' salt' st2 -> Mask clock f' st2 out = (st3, Ok (out', n')) -> 1 <= n'.
Proof.
  intros Ef Ef' Lv E Ln Lv' E'. destruct (New_ok _ _ _ Ef) as [Hf _]. destruct (New_ok _ _ _ Ef') as [Hf' _].
  apply (Mask_spec clock f _ _ _ _ Hf) in E as [_ R].
  destruct (R (live_ok _ _ Hf _ _ Lv)) as (locs & Sc & _ & Eo & En & _).
  destruct (masked_has_sentinel (scope_key st.1) text locs Sc) as (x & r & Ex).
  { intros Ev. rewrite Ev in En. cbn in En. lia. }
  eapply (Mask_counts_sentinel clock f' Hf' _ _ _ _ _ _ x r Lv' E'). congruence.
Qed.
End Guarantees.

(** ** A concrete filter *)

#[local] Open Scope string_scope.
Definition demo_cfg (max : Z) : Config :=
  mkConfig (bytes_of_string "pii") [mkPatternSpec (bytes_of_string " name ") (bytes_of_string "hong")]
    (bytes_of_string "seed") ScopeConversation max 0 0.
Definition demo_salt : bytes := bytes_of_string "conv-1".
Definition demo_text : bytes := bytes_of_string "to hong: [PII: hong".

Definition demo_filter (max : Z) : Filter :=
  match New (demo_cfg max) with
  | Ok (f, _) => f
  | Err _ => mkFilter [] (mkPatternSet [] ([], []) 0) [] 0 0 []
  end.
Definition demo_tables : tables :=
  match Session (demo_filter 0) demo_salt None with
  | Some t => t
  | None => mkTables [] ∅ ∅ [] [] 0 0 0 false
  end.
Definition demo_clock (k : nat) : Z := Z.of_nat k.
Definition demo_state : State := (demo_tables, newVault 0 0).
Definition demo_after (max : Z) : State := (Mask demo_clock (demo_filter max) demo_state demo_text).1.
Definition demo_rest : bytes := bytes_of_string "gcgccmgofofogjal]: [PII:aifgfiknoaeijjbe] [PII:gcgccmgofofogjal]".
Definition demo_out : bytes := (bytes_of_string "to " ++ Sentinel ++ demo_rest)%list.

#[local] Close Scope string_scope.
Lemma run_pair {A B} (x : A * B) a b : x.1 = a -> x.2 = b -> x = (a, b).
Proof. destruct x; cbn; congruence. Qed.

(** How the run of the filter is cut into what the theorems ask. *)
Lemma demo_New max : (New (demo_cfg max)) = Ok (demo_filter max, newVault 0 0).
Proof.
  unfold demo_filter. destruct (New (demo_cfg max)) as [[f v]|e] eqn:E.
  - destruct (New_ok _ _ _ E) as (_ & _ & ->). reflexivity.
  - vm_compute in E. discriminate E.
Qed.

Lemma demo_Session max : Session (demo_filter max) demo_salt None = Some demo_tables.
Proof. vm_compute. reflexivity. Qed.

Lemma demo_live max : live demo_clock (demo_filter max) demo_salt demo_state.
Proof. exists None, demo_tables, (newVault 0 0). split; [apply demo_Session|apply rtc_refl]. Qed.

Lemma demo_Mask : Mask demo_clock (demo_filter 0) demo_state demo_text = (demo_after 0, Ok (demo_out, 3)).
Proof. unfold demo_after. apply run_pair; [reflexivity|]. vm_compute. reflexivity. Qed.

Lemma mask_roundtrip_witness :
  stream demo_clock (demo_after 0) [] [take 9 demo_out; drop 9 demo_out]
  = ((add_resolved (demo_after 0).1 3, (demo_after 0).2), demo_text).
Proof.
  apply (mask_roundtrip demo_clock (demo_cfg 0) (demo_filter 0) (newVault 0 0) demo_salt demo_state demo_text
           (demo_after 0) demo_out 3 (demo_after 0)).
  - apply demo_New.
  - apply demo_live.
  - apply demo_Mask.
  - apply rtc_refl.
  - vm_compute. reflexivity.
Defined.

Lemma upstream_sentinels_are_issued_witness :
  exists o rest, Sentinel ++ demo_rest = derive (scope_key (demo_after 0).1) o ++ rest /\
    rvs (demo_after 0).1 !! derive (scope_key (demo_after 0).1) o = Some o.
Proof.
  eapply (upstream_sentinels_are_issued demo_clock (demo_cfg 0) (demo_filter 0) (newVault 0 0) demo_salt demo_state
           demo_text (demo_after 0) demo_out 3).
  - apply demo_New.
  - apply demo_live.
  - apply demo_Mask.
  - unfold demo_out. reflexivity.
Defined.

Lemma mask_is_stable_witness : (demo_out, 3) = (demo_out, 3).
Proof.
  apply (mask_is_stable demo_clock (fun k => Z.of_nat k + 1000) (demo_cfg 0) (demo_filter 0) (newVault 0 0) demo_salt
           demo_state demo_state demo_text (demo_after 0)
           (Mask (fun k => Z.of_nat k + 1000) (demo_filter 0) demo_state demo_text).1).
  - apply demo_New.
  - vm_compute. discriminate.
  - apply demo_live.
  - exists None, demo_tables, (newVault 0 0). split; [apply demo_Session|apply rtc_refl].
  - apply demo_Mask.
  - apply (run_pair _ _ _ eq_refl). vm_compute. reflexivity.
Defined.

(** With room for one value the second one fails the session. *)
Lemma failed_mask_fails_closed_witness :
  failed (demo_after 1).1 = true /\
  Mask demo_clock (demo_filter 1) (demo_after 1) [104] = (demo_after 1, Err AlreadyFailed) /\
  MaskValue demo_clock (demo_filter 1) (demo_after 1) [104] = (demo_after 1, Err AlreadyFailed) /\
  Z.of_nat (size (fwd (demo_after 1).1)) <= 1.
Proof.
  apply (failed_mask_fails_closed demo_clock (demo_cfg 1) (demo_filter 1) (newVault 0 0) demo_salt demo_state
           demo_text (demo_after 1) (ErrTableFull 1) (demo_after 1)).
  - apply demo_New.
  - apply demo_live.
  - apply (run_pair _ _ _ eq_refl). vm_compute. reflexivity.
  - apply rtc_refl.
  - discriminate.
Defined.

Lemma second_pass_masks_again_witness : 1 <= 3.
Proof.
  eapply (second_pass_masks_again demo_clock (demo_cfg 0) (demo_cfg 0) (demo_filter 0) (demo_filter 0)
           (newVault 0 0) (newVault 0 0) demo_salt demo_salt demo_state demo_text (demo_after 0) demo_out 3
           (demo_after 0)).
  - apply demo_New.
  - apply demo_New.
  - apply demo_live.
  - apply demo_Mask.
  - lia.
  - exists None, demo_tables, (newVault 0 0). split; [apply demo_Session|].
    eapply rtc_l; [eapply ss_mask, demo_Mask|apply rtc_refl].
  - eapply (run_pair _ _ _ eq_refl). vm_compute. reflexivity.
Defined.
