(* ===== verification/MaskVault.v ===== *)
(** * The retention vault over time

    The vault's bound and its scoping, over every sequence of insertions and
    lookups, and what its order of insertion keeps of keys it has dropped. *)
From stdpp Require Import base gmap list.
From Stdlib Require Import ZArith Lia.
From S2P Require Import Prelude GoTime Sha256 Mask.
Open Scope Z_scope.

(** Every key held is in the order. *)
Definition ordered (m : gmap vaultKey vaultEntry) (order : list vaultKey) : Prop :=
  forall k, is_Some (m !! k) -> k ∈ order.

Lemma sweep_spec now order m s m' order' s' : sweep now order m s = (m', order', s') ->
  m' ⊆ m /\ (forall k, is_Some (m' !! k) -> k ∈ order -> k ∈ order').
Proof.
  revert m s order'. induction order as [|k order IH]; intros m s order' E; cbn [sweep] in E.
  { inv E. split; [reflexivity|auto]. }
  destruct (m !! k) as [e|] eqn:Ek.
  - destruct (Time.Before now (eexp e)).
    + destruct (sweep now order m s) as [[m1 o1] s1] eqn:Es. inv E. destruct (IH _ _ _ Es) as [A B].
      split; [exact A|]. intros k' Hk [->|H]%elem_of_cons; [left|right; auto].
    + destruct (IH _ _ _ E) as [A B]. split; [etransitivity; [exact A|apply delete_subseteq]|].
      intros k' Hk [->|H]%elem_of_cons; [|auto].
      destruct Hk as [e' Hk]. eapply lookup_weaken in Hk; [|exact A]. rewrite lookup_delete_eq in Hk. discriminate.
  - destruct (IH _ _ _ E) as [A B]. split; [exact A|]. intros k' Hk [->|H]%elem_of_cons; [|auto].
    destruct Hk as [e' Hk]. eapply lookup_weaken in Hk; [|exact A]. congruence.
Qed.

Lemma evict_bounds max order m s m' order' s' : evict max order m s = (m', order', s') -> ordered m order -> 1 <= max ->
  m' ⊆ m /\ ordered m' order' /\ Z.of_nat (size m') < max.
Proof.
  revert m s. induction order as [|k order IH]; intros m s E O L; cbn [evict] in E.
  - inv E. split; [reflexivity|]. split; [exact O|].
    replace m' with (∅ : gmap vaultKey vaultEntry); [rewrite map_size_empty; lia|].
    symmetry. apply map_empty. intros k. destruct (m' !! k) eqn:Ek; [|reflexivity].
    specialize (O k ltac:(eauto)). inversion O.
  - destruct (Z.leb_spec max (Z.of_nat (size m))).
    + assert (forall m0, m0 ⊆ m -> m0 !! k = None -> ordered m0 order) as Next.
      { intros m0 S N k' [e Hk]. assert (k' ∈ k :: order) as [->|]%elem_of_cons; [|congruence|assumption].
        apply O. exists e. eapply lookup_weaken; eassumption. }
      destruct (m !! k) eqn:Ek.
      * destruct (IH _ _ E (Next _ (delete_subseteq _ _) (lookup_delete_eq _ _)) L) as (A & B & C).
        split; [etransitivity; [exact A|apply delete_subseteq]|auto].
      * apply (IH _ _ E (Next _ (reflexivity _) Ek) L).
    + inv E. split; [reflexivity|]. split; [exact O|lia].
Qed.

Lemma logs_subset {P : vaultKey -> vaultEntry -> Prop} (m m' : gmap vaultKey vaultEntry) :
  m' ⊆ m -> map_Forall P m -> map_Forall P m'.
Proof. intros S F k e Hk. apply F. eapply lookup_weaken; eassumption. Qed.

Section Runs.
Variable clock : nat -> Z.

(** The vault after some insertions and lookups, and what was inserted when. *)
Inductive vreach (ttl max : Z) : Vault -> list (Z * vaultKey * bytes) -> Prop :=
| vr_new : vreach ttl max (newVault ttl max) []
| vr_put v log scope ph value :
    vreach ttl max v log ->
    vreach ttl max (put clock v scope ph value) ((clock (reads v), (scope, ph), value) :: log)
| vr_get v log scope ph : vreach ttl max v log -> vreach ttl max (get clock v scope ph).1 log.

(** An entry stems from an insertion under its key, and lives from an insertion
    under its key. *)
Definition logged (ttl : Z) (log : list (Z * vaultKey * bytes)) (k : vaultKey) (e : vaultEntry) : Prop :=
  (exists t, (t, k, evalue e) ∈ log) /\ (exists t x, (t, k, x) ∈ log /\ eexp e = t + ttl).

Record vault_ok (v : Vault) (log : list (Z * vaultKey * bytes)) : Prop := {
  vo_max : 1 <= vmax v;
  vo_size : Z.of_nat (size (vm v)) <= vmax v;
  vo_order : ordered (vm v) (vorder v);
  vo_log : map_Forall (logged (vttl v) log) (vm v) }.

Lemma logged_cons ttl x log k e : logged ttl log k e -> logged ttl (x :: log) k e.
Proof.
  intros [[t A] (t' & y & B & C)]. split; [exists t; right; exact A|].
  exists t', y. split; [right; exact B|exact C].
Qed.

Lemma put_ok v log scope ph value : vault_ok v log ->
  vault_ok (put clock v scope ph value) ((clock (reads v), (scope, ph), value) :: log).
Proof.
  intros [M S O L]. unfold put. set (k := (scope, ph)). set (now := clock (reads v)).
  assert (map_Forall (logged (vttl v) ((now, k, value) :: log)) (vm v)) as L'.
  { eapply map_Forall_impl; [exact L|]. intros k' e'. apply logged_cons. }
  destruct (vm v !! k) as [e|] eqn:Ek.
  - split; cbn [vmax vm vorder vttl]; [exact M| | |].
    + rewrite map_size_insert, Ek. exact S.
    + intros k' Hk. apply O. apply lookup_insert_is_Some' in Hk as [<-|Hk]; [eauto|exact Hk].
    + apply map_Forall_insert_2; [|exact L']. cbn [evalue eexp].
      split; [destruct (L' _ _ Ek) as [A _]; exact A|]. exists now, value. split; [left|reflexivity].
  - destruct (if vmax v <=? Z.of_nat (size (vm v)) then _ else _) as [[m1 o1] s1] eqn:E1.
    assert (m1 ⊆ vm v /\ ordered m1 o1) as [S1 O1].
    { destruct (vmax v <=? Z.of_nat (size (vm v))); [|inv E1; split; [reflexivity|exact O]].
      apply sweep_spec in E1 as [A B]. split; [exact A|]. intros k' Hk. apply B; [exact Hk|].
      apply O. destruct Hk as [e Hk]. exists e. eapply lookup_weaken; eassumption. }
    destruct (evict (vmax v) o1 m1 s1) as [[m2 o2] s2] eqn:E2.
    destruct (evict_bounds _ _ _ _ _ _ _ E2 O1 M) as (S2 & O2 & C2).
    assert (m2 ⊆ vm v) as S3 by (etransitivity; eassumption).
    assert (m2 !! k = None) as N2 by (destruct (m2 !! k) eqn:E; [eapply lookup_weaken in E; [|exact S3]; congruence|reflexivity]).
    split; cbn [vmax vm vorder vttl]; [exact M| | |].
    + rewrite map_size_insert_None by exact N2. lia.
    + intros k' Hk. apply elem_of_app. apply lookup_insert_is_Some' in Hk as [<-|Hk]; [right; left|left; apply O2, Hk].
    + apply map_Forall_insert_2; [|eapply logs_subset; [exact S3|exact L']]. cbn [evalue eexp].
      split; [exists now; left|]. exists now, value. split; [left|reflexivity].
Qed.

Lemma get_ok v log scope ph : vault_ok v log -> vault_ok (get clock v scope ph).1 log.
Proof.
  intros [M S O L]. unfold get. destruct (vm v !! (scope, ph)) as [e|] eqn:Ek; [|split; assumption].
  destruct (negb _); [|split; assumption]. cbn [fst]. split; cbn [vmax vm vorder vttl]; [exact M| | |].
  - rewrite map_size_delete, Ek. lia.
  - intros k [e' Hk]. apply O. exists e'. eapply lookup_weaken; [exact Hk|apply delete_subseteq].
  - eapply logs_subset; [apply delete_subseteq|exact L].
Qed.

Lemma vreach_ok ttl max v log : vreach ttl max v log -> vault_ok v log.
Proof.
  induction 1 as [|v log scope ph value _ IH|v log scope ph _ IH].
  - split; cbn [newVault vmax vm vorder vttl].
    + unfold DefaultMaxRetained. case_match; breflect; lia.
    + rewrite map_size_empty. unfold DefaultMaxRetained. case_match; breflect; lia.
    + intros k [e Hk]. rewrite lookup_empty in Hk. discriminate.
    + apply map_Forall_empty.
  - apply put_ok, IH.
  - apply get_ok, IH.
Qed.

(** C23. The vault is bounded and scoped: after any insertions and lookups by any
    sessions it holds at most its maximum of mappings, and a lookup that answers
    gives a value that was inserted under that very scope and placeholder, while
    less than the lifetime has passed since an insertion under them. *)
Theorem vault_bounded_and_scoped ttl max v log scope ph x :
  vreach ttl max v log -> (get clock v scope ph).2 = Some x ->
  Vault_Len v <= vmax v /\
  (exists t, (t, (scope, ph), x) ∈ log) /\
  (exists t y, (t, (scope, ph), y) ∈ log /\ clock (reads v) < t + vttl v).
Proof.
  intros R E. destruct (vreach_ok _ _ _ _ R) as [_ S _ L]. split; [exact S|].
  unfold get in E. destruct (vm v !! (scope, ph)) as [e|] eqn:Ek; [|discriminate].
  destruct (Time.Before (clock (reads v)) (eexp e)) eqn:Eb; [|discriminate]. cbn in E. inv E.
  destruct (L _ _ Ek) as [A (t & y & B & C)]. split; [exact A|]. exists t, y. split; [exact B|].
  unfold Time.Before in Eb. apply Z.ltb_lt in Eb. lia.
Qed.

(** ** Keys that stay in the order *)

(** A value is masked, and its placeholder looked up after it expired. *)
Definition visit (k : vaultKey) (x : bytes) (v : Vault) : Vault := (get clock (put clock v k.1 k.2 x) k.1 k.2).1.

(** The order is not bounded by the entries: when a value is masked again
    and again, each time looked up only after its entry expired, every round
    leaves one more copy of the key in the order while the vault holds nothing,
    so no pressure ever sweeps it. *)
Theorem expired_lookups_grow_order ttl max k x n :
  (forall i, clock i + vttl (newVault ttl max) <= clock (S i)) ->
  let v := Nat.iter n (visit k x) (newVault ttl max) in vm v = ∅ /\ vorder v = replicate n k.
Proof.
  intros C. cbv zeta. set (v0 := newVault ttl max) in *.
  assert (1 <= vmax v0) as M.
  { cbn. unfold DefaultMaxRetained. case_match; breflect; lia. }
  assert (let v := Nat.iter n (visit k x) v0 in
    (vm v = ∅ /\ vorder v = replicate n k) /\ vttl v = vttl v0 /\ vmax v = vmax v0) as [A _]; [|exact A].
  induction n as [|n IH]; [cbn; auto|]. cbv zeta in *. rewrite Nat.iter_succ.
  remember (Nat.iter n (visit k x) v0) as v eqn:Hv. clear Hv. destruct IH as ((E & O) & T & X).
  unfold visit, put. destruct k as [scope ph]. cbn [fst snd]. rewrite E, lookup_empty, map_size_empty, X.
  destruct (Z.leb_spec (vmax v0) (Z.of_nat 0)); [lia|].
  assert (evict (vmax v0) (vorder v) ∅ (vstats v) = (∅, vorder v, vstats v)) as ->.
  { destruct (vorder v); cbn [evict]; [reflexivity|]. rewrite map_size_empty.
    destruct (Z.leb_spec (vmax v0) (Z.of_nat 0)); [lia|reflexivity]. }
  unfold get. cbn [vm vttl vmax vorder vstats reads]. rewrite lookup_insert_eq. cbn [eexp].
  unfold Time.Before, Time.Add. specialize (C (reads v)). rewrite T.
  destruct (Z.ltb_spec (clock (S (reads v))) (clock (reads v) + vttl v0)); [lia|]. cbn [negb fst vm vttl vmax vorder].
  split; [|auto]. split; [apply delete_insert_id, lookup_empty|].
  rewrite O, <- replicate_S_end. reflexivity.
Qed.
End Runs.

Lemma expired_lookups_grow_order_witness :
  let v := Nat.iter 3 (visit (fun i => Z.of_nat i * Time.Hour) ([97], [98]) [120]) (newVault 0 0) in
  vm v = ∅ /\ vorder v = replicate 3 ([97], [98]).
Proof.
  apply (expired_lookups_grow_order (fun i => Z.of_nat i * Time.Hour) 0 0 ([97], [98]) [120] 3).
  intros i. change (vttl (newVault 0 0)) with Time.Hour. lia.
Defined.

Lemma vault_bounded_and_scoped_witness :
  let clk (i : nat) := Z.of_nat i in
  let v := put clk (newVault 0 0) [97] [98] [120] in
  Vault_Len v <= vmax v /\
  (exists t, (t, ([97], [98]), [120]) ∈ [(0, ([97], [98]), [120])]) /\
  (exists t y, (t, ([97], [98]), y) ∈ [(0, ([97], [98]), [120])] /\ clk (reads v) < t + vttl v).
Proof.
  apply (vault_bounded_and_scoped (fun i => Z.of_nat i) 0 0).
  - apply (vr_put (fun i => Z.of_nat i) 0 0 (newVault 0 0) []), vr_new.
  - vm_compute. reflexivity.
Defined.

(** A consequence: room for two; [a] expires and is dropped by a lookup, [b] and
    then [a] are inserted, and the next insertion evicts [a], the younger. *)
Example newest_evicted_first :
  let clk (i : nat) := nth i [0; 100; 200; 210; 220; 230; 230] 0 in
  let p v (k : Z) := put clk v [1] [k] [k] in
  let v := p (p (p (get clk (p (newVault 100 2) 97) [1] [97]).1 98) 97) 99 in
  (vm v !! ([1], [97]) = None) /\ is_Some (vm v !! ([1], [98])).
Proof. vm_compute. split; [reflexivity|eexists; reflexivity]. Qed.
