(* ===== verification/GoSort.v ===== *)
(** * [slices.SortStableFunc]

    The standard library's stable sort as it runs: insertion sort on blocks of
    twenty, then in-place merges by rotation. Only with a comparator that is not
    an order does the way it runs show, and the router has one. *)
From stdpp Require Import base list sorting.
From Stdlib Require Import ZArith Lia.
From S2P Require Import Prelude.
Open Scope Z_scope.

Section Sort.
Context {A : Type} (cmp : A -> A -> Z).

Definition less (x y : A) : bool := cmp x y <? 0.

(** One round of insertion: [x] sinks below the greater elements at the end of
    the prefix, which is given in reverse. *)
Fixpoint sink (x : A) (rp : list A) : list A :=
  match rp with
  | [] => [x]
  | y :: rp' => if less x y then y :: sink x rp' else x :: rp
  end.

Definition insertionSort (l : list A) : list A := rev (foldl (fun rp x => sink x rp) [] l).

(** [rotate(data, a, m, b)]: the blocks [data[a:m]] and [data[m:b]] change places. *)
Definition rotate (l : list A) (a m b : nat) : list A :=
  take a l ++ take (b - m) (drop m l) ++ take (m - a) (drop a l) ++ drop b l.

(** The least index in [[i, j)] at which [stay] fails, by bisection; [j - i] is
    fuel enough. *)
Fixpoint bisect (fuel : nat) (stay : nat -> bool) (i j : nat) : nat :=
  match fuel with
  | O => i
  | S f =>
      if (i <? j)%nat then
        let h := ((i + j) / 2)%nat in
        if stay h then bisect f stay (S h) j else bisect f stay i h
      else i
  end.

Definition less_at (l : list A) (i j : nat) : bool :=
  match l !! i, l !! j with Some x, Some y => less x y | _, _ => false end.

(** [symMerge(data, a, m, b)]; every call works on a shorter range. *)
Fixpoint symMerge (fuel : nat) (l : list A) (a m b : nat) : list A :=
  match fuel with
  | O => l
  | S f =>
      if (m - a =? 1)%nat then
        let i := bisect (b - m) (fun h => less_at l h a) m b in
        rotate l a (S a) i
      else if (b - m =? 1)%nat then
        let i := bisect (m - a) (fun h => negb (less_at l m h)) a m in
        rotate l i m (S m)
      else
        let mid := ((a + b) / 2)%nat in
        let n := (mid + m)%nat in
        let '(start, r) := if (mid <? m)%nat then ((n - b)%nat, mid) else (a, m) in
        let p := (n - 1)%nat in
        let start := bisect (r - start) (fun c => negb (less_at l (p - c) c)) start r in
        let end_ := (n - start)%nat in
        let l := if (start <? m)%nat && (m <? end_)%nat then rotate l start m end_ else l in
        let l := if (a <? start)%nat && (start <? mid)%nat then symMerge f l a start mid else l in
        if (mid <? end_)%nat && (end_ <? b)%nat then symMerge f l mid end_ b else l
  end.

(** The blocks of a list, each sorted by insertion. *)
Fixpoint sort_blocks (fuel : nat) (l : list A) : list A :=
  match fuel with
  | O => l
  | S f => match l with
           | [] => []
           | _ => insertionSort (take 20 l) ++ sort_blocks f (drop 20 l)
           end
  end.

(** One pass of merges of neighbouring blocks from [a] on. *)
Fixpoint merge_pass (fuel : nat) (size : nat) (l : list A) (a : nat) : list A :=
  match fuel with
  | O => l
  | S f =>
      let n := length l in
      if (a + 2 * size <=? n)%nat
      then merge_pass f size (symMerge n l a (a + size) (a + 2 * size)) (a + 2 * size)
      else if (a + size <? n)%nat then symMerge n l a (a + size) n else l
  end.

(** The passes, the block size doubling. *)
Fixpoint merge_passes (fuel : nat) (size : nat) (l : list A) : list A :=
  match fuel with
  | O => l
  | S f => if (size <? length l)%nat then merge_passes f (2 * size) (merge_pass (length l) size l 0) else l
  end.

Definition SortStableFunc (l : list A) : list A :=
  merge_passes (length l) 20 (sort_blocks (length l) l).

(** ** It permutes *)

Lemma sink_perm x rp : sink x rp ≡ₚ x :: rp.
Proof.
  induction rp as [|y rp IH]; cbn [sink]; [reflexivity|].
  destruct (less x y); [|reflexivity]. rewrite IH. apply Permutation_swap.
Qed.

Lemma insertionSort_perm l : insertionSort l ≡ₚ l.
Proof.
  unfold insertionSort. rewrite <- Permutation_rev.
  assert (forall acc, foldl (fun rp x => sink x rp) acc l ≡ₚ acc ++ l) as H; [|rewrite H; reflexivity].
  induction l as [|x l IH]; intros acc; cbn [foldl]; [rewrite app_nil_r; reflexivity|].
  rewrite IH, sink_perm. cbn. apply Permutation_middle.
Qed.

Lemma rotate_perm l a m b : (a <= m <= b)%nat -> rotate l a m b ≡ₚ l.
Proof.
  intros L. unfold rotate.
  transitivity (take a l ++ take (m - a) (drop a l) ++ take (b - m) (drop m l) ++ drop b l).
  { apply Permutation_app_head, Permutation_app_swap_app. }
  assert (forall i j, (i <= j)%nat -> take (j - i) (drop i l) ++ drop j l = drop i l) as E.
  { intros i j Hij. rewrite <- (take_drop (j - i) (drop i l)) at 2. rewrite drop_drop, Nat.add_comm, Nat.sub_add by exact Hij.
    reflexivity. }
  rewrite !E, take_drop by lia. reflexivity.
Qed.

Lemma bisect_range fuel stay i j : (i <= j)%nat -> (i <= bisect fuel stay i j <= j)%nat.
Proof.
  revert i j. induction fuel as [|f IH]; intros i j L; cbn [bisect]; [lia|].
  destruct (Nat.ltb_spec i j); [|lia].
  assert (i <= (i + j) / 2 < j)%nat as Hh by (split; [apply Nat.div_le_lower_bound|apply Nat.Div0.div_lt_upper_bound]; lia).
  destruct (stay _); [specialize (IH (S ((i + j) / 2)) j)|specialize (IH i ((i + j) / 2)%nat)]; lia.
Qed.

Lemma symMerge_perm fuel l a m b : (a <= m <= b)%nat -> symMerge fuel l a m b ≡ₚ l.
Proof.
  revert l a m b. induction fuel as [|f IH]; intros l a m b L; cbn [symMerge]; [reflexivity|].
  destruct (Nat.eqb_spec (m - a) 1).
  { apply rotate_perm. pose proof (bisect_range (b - m) (fun h => less_at l h a) m b). lia. }
  destruct (Nat.eqb_spec (b - m) 1).
  { apply rotate_perm. pose proof (bisect_range (m - a) (fun h => negb (less_at l m h)) a m). lia. }
  set (mid := ((a + b) / 2)%nat). assert (a <= mid <= b)%nat as Hm.
  { subst mid. split; [apply Nat.div_le_lower_bound|apply Nat.Div0.div_le_upper_bound]; lia. }
  destruct (if (mid <? m)%nat then _ else _) as [s0 r] eqn:E.
  set (start := bisect _ _ s0 r). set (l1 := if (start <? m)%nat && _ then _ else l).
  assert (l1 ≡ₚ l) as P1.
  { subst l1. destruct (Nat.ltb_spec start m), (Nat.ltb_spec m (mid + m - start)); cbn [andb]; try reflexivity.
    apply rotate_perm. lia. }
  set (l2 := if (a <? start)%nat && _ then _ else l1).
  assert (l2 ≡ₚ l) as P2.
  { subst l2. destruct (Nat.ltb_spec a start), (Nat.ltb_spec start mid); cbn [andb]; try exact P1.
    rewrite IH by lia. exact P1. }
  destruct (Nat.ltb_spec mid (mid + m - start)), (Nat.ltb_spec (mid + m - start) b); cbn [andb]; try exact P2.
  rewrite IH by lia. exact P2.
Qed.

Lemma sort_blocks_perm fuel l : sort_blocks fuel l ≡ₚ l.
Proof.
  revert l. induction fuel as [|f IH]; intros l; cbn [sort_blocks]; [reflexivity|].
  destruct l as [|x l]; [reflexivity|]. rewrite IH, insertionSort_perm, take_drop. reflexivity.
Qed.

Lemma merge_pass_perm fuel size l a : merge_pass fuel size l a ≡ₚ l.
Proof.
  revert l a. induction fuel as [|f IH]; intros l a; cbn [merge_pass]; [reflexivity|].
  destruct (Nat.leb_spec (a + 2 * size) (length l)); [rewrite IH, symMerge_perm by lia; reflexivity|].
  destruct (Nat.ltb_spec (a + size) (length l)); [apply symMerge_perm; lia|reflexivity].
Qed.

Lemma SortStableFunc_perm l : SortStableFunc l ≡ₚ l.
Proof.
  unfold SortStableFunc.
  assert (forall fuel size l0, merge_passes fuel size l0 ≡ₚ l0) as H.
  { induction fuel as [|f IH]; intros size l0; cbn [merge_passes]; [reflexivity|].
    destruct (size <? length l0)%nat; [rewrite IH; apply merge_pass_perm|reflexivity]. }
  rewrite H. apply sort_blocks_perm.
Qed.

(** Up to twenty elements it is insertion sort. *)
Lemma SortStableFunc_small l : (length l <= 20)%nat -> SortStableFunc l = insertionSort l.
Proof.
  intros L. unfold SortStableFunc. destruct l as [|x l]; [reflexivity|]. cbn [length sort_blocks].
  rewrite take_ge, drop_ge by (cbn in *; lia).
  replace (sort_blocks (length l) []) with (@nil A) by (destruct (length l); reflexivity). rewrite app_nil_r.
  cbn [merge_passes]. assert (length (insertionSort (x :: l)) = length (x :: l)) as E.
  { apply Permutation_length, insertionSort_perm. }
  destruct (Nat.ltb_spec 20 (length (insertionSort (x :: l)))); [cbn [length] in *; lia|reflexivity].
Qed.

(** ** It sorts when the comparator is an order *)

(** On the elements in question: no two are each less than the other, and what
    is not less carries over. *)
Record weak_order (P : A -> Prop) : Prop := {
  wo_asym x y : P x -> P y -> less x y = true -> less y x = false;
  wo_trans x y z : P x -> P y -> P z -> less y x = false -> less z y = false -> less z x = false }.

Definition before (x y : A) : Prop := less y x = false.

Lemma sink_sorted (P : A -> Prop) x rp : weak_order P -> P x -> Forall P rp ->
  StronglySorted (fun a b => before b a) rp -> StronglySorted (fun a b => before b a) (sink x rp).
Proof.
  intros W Px. induction rp as [|y rp IH]; intros F S; cbn [sink]; [repeat constructor|].
  apply Forall_cons in F as [Py F]. apply StronglySorted_inv in S as [S Fy].
  destruct (less x y) eqn:E.
  - constructor; [apply IH; assumption|].
    eapply Permutation_Forall; [symmetry; apply sink_perm|]. constructor; [|exact Fy].
    unfold before. apply (wo_asym _ W); assumption.
  - constructor; [constructor; assumption|]. constructor; [exact E|].
    apply Forall_forall. intros z Hz. rewrite Forall_forall in F, Fy.
    specialize (Fy _ Hz). specialize (F _ Hz). unfold before in *.
    eapply (wo_trans _ W z y x); eassumption.
Qed.

Lemma insertionSort_sorted (P : A -> Prop) l : weak_order P -> Forall P l -> StronglySorted before (insertionSort l).
Proof.
  intros W F. unfold insertionSort.
  assert (forall acc, Forall P acc -> StronglySorted (fun a b => before b a) acc ->
    StronglySorted (fun a b => before b a) (foldl (fun rp x => sink x rp) acc l)) as H.
  { induction F as [|x l Px F IH]; intros acc Fa S; cbn [foldl]; [exact S|].
    apply IH; [eapply Permutation_Forall; [symmetry; apply sink_perm|constructor; assumption]|].
    eapply sink_sorted; eassumption. }
  specialize (H [] (Forall_nil_2 _) (SSorted_nil _)).
  revert H. generalize (foldl (fun rp x => sink x rp) [] l). intros rp. clear F.
  induction rp as [|x rp IH]; intros S; cbn [rev]; [constructor|].
  apply StronglySorted_inv in S as [S Fx]. apply StronglySorted_app_2; [|apply IH, S|repeat constructor].
  intros y z Hy ->%list_elem_of_singleton. rewrite Forall_forall in Fx. apply Fx.
  apply list_elem_of_In, in_rev, list_elem_of_In, Hy.
Qed.
End Sort.
