(* ===== verification/Router.v ===== *)
(** * The router: deployments, ordering, affinity and priority
    ([internal/router]: [config.go], [errors.go], [strategy.go], [rotation.go],
    [sticky.go], [priority.go])

    What a candidate is, the strategies that compare two candidates, the order
    they induce, weighted round robin, the credential rotation, the session pins
    and the priority a backend is told. [F64.t] is [float64]; the values the code
    draws at random are arguments. *)
From Stdlib Require Import String.
From stdpp Require Import base gmap list strings.
From Stdlib Require Import ZArith Lia.
From S2P Require Import Prelude GoTime F64 Axis GoSort.
Open Scope Z_scope.

(** ** Configuration *)

Inductive Strategy : Type :=
| StrategyRoundRobin | StrategyLeastBusy | StrategyLowestCost | StrategyLowestLatency
| StrategyHighestTPS | StrategySticky | StrategyPrefixSticky | StrategyPriority
| StrategyWeightedRandom | StrategyQuotaUrgency.

#[export] Instance Strategy_eq_dec : EqDecision Strategy.
Proof. solve_decision. Defined.

Definition Strategy_name (s : Strategy) : string :=
  match s with
  | StrategyRoundRobin => "round_robin" | StrategyLeastBusy => "least_busy"
  | StrategyLowestCost => "lowest_cost" | StrategyLowestLatency => "lowest_latency"
  | StrategyHighestTPS => "highest_tps" | StrategySticky => "sticky"
  | StrategyPrefixSticky => "prefix_sticky" | StrategyPriority => "priority"
  | StrategyWeightedRandom => "weighted_random" | StrategyQuotaUrgency => "quota_urgency"
  end.

Definition allStrategies : list Strategy :=
  [StrategyRoundRobin; StrategyLeastBusy; StrategyLowestCost; StrategyLowestLatency; StrategyHighestTPS;
   StrategySticky; StrategyPrefixSticky; StrategyPriority; StrategyWeightedRandom; StrategyQuotaUrgency].

Definition ParseStrategy (s : string) : option Strategy :=
  List.find (fun k => String.eqb s (Strategy_name k)) allStrategies.

Record Credential : Type := mkCredential { credID : string; credGroup : string; credMax : Z }.

(** [Deployment], the compiled fields included. [Capabilities] and [Suppressed]
    are bit sets. *)
Record Deployment : Type := mkDeployment {
  dID : string; dProvider : string; dProviderGroup : string; dKind : string; dModel : string;
  Credentials : list Credential; Weight : Z; Priority : Z; Family : string;
  Capabilities : Z; Suppressed : Z; ContextWindow : Z; MaxOutputTokens : Z;
  PriorityVerified : bool; Timeout : Z; PrefixTTL : Z; MaxTokensField : string;
  caps : list Candidate; credIndex : gmap string nat; interned : Z; enforceOut : bool;
  modelKnown : bool; ridx : nat; gname : string; gclass : string }.

Record Group : Type := mkGroup {
  gName : string; gClass : string; gStrategy : list Strategy; gDeployments : list Deployment }.

Definition DefaultStrategy : list Strategy := [StrategyPrefixSticky; StrategyLowestCost; StrategyLeastBusy].

(** ** Causes and targets *)

Inductive Cause : Type :=
| CauseNone | CauseRateLimit | CauseQuotaExhausted | CauseContextWindow | CauseContentPolicy
| CauseUpstream5xx | CauseTimeout | CauseBudgetExceeded | CauseAuth | CauseBadRequest.

#[export] Instance Cause_eq_dec : EqDecision Cause.
Proof. solve_decision. Defined.

Definition all_causes : list Cause :=
  [CauseNone; CauseRateLimit; CauseQuotaExhausted; CauseContextWindow; CauseContentPolicy;
   CauseUpstream5xx; CauseTimeout; CauseBudgetExceeded; CauseAuth; CauseBadRequest].

Definition Cause_String (c : Cause) : string :=
  match c with
  | CauseNone => "none" | CauseRateLimit => "rate_limit" | CauseQuotaExhausted => "quota_exhausted"
  | CauseContextWindow => "context_window" | CauseContentPolicy => "content_policy"
  | CauseUpstream5xx => "upstream_5xx" | CauseTimeout => "timeout"
  | CauseBudgetExceeded => "budget_exceeded" | CauseAuth => "auth" | CauseBadRequest => "bad_request"
  end.

Definition configurable (c : Cause) : bool :=
  negb (bool_decide (c = CauseNone)) && negb (bool_decide (c = CauseBadRequest)).

Definition ParseCause (s : string) : option Cause :=
  List.find (fun c => String.eqb (Cause_String c) s && configurable c) all_causes.

Definition Chainable (c : Cause) : bool :=
  match c with
  | CauseNone | CauseBudgetExceeded | CauseAuth | CauseBadRequest => false
  | _ => true
  end.

Inductive Target : Type := TargetSameGroup | TargetSameClass | TargetSameClassLarger.

Definition DefaultChains (c : Cause) : list Target :=
  match c with
  | CauseRateLimit | CauseQuotaExhausted | CauseUpstream5xx => [TargetSameGroup; TargetSameClass]
  | CauseContextWindow => [TargetSameClassLarger]
  | CauseContentPolicy => [TargetSameClass]
  | CauseTimeout => [TargetSameGroup]
  | _ => []
  end.

(** ** Candidates and strategies *)

Record candidate : Type := mkCandidate {
  dep : Deployment; idx : Z;
  creds : list Candidate; preferred : string; pinned : bool;
  costCred : string; costNano : Z; costKnown : bool;
  busy : Z; busyKnown : bool; ttft : Z; tps : F64.t;
  urgency : F64.t; urgencyKnown : bool;
  sticky : bool; prefixHit : bool; prefixDepth : Z;
  rr : Z; wr : F64.t; lastOK : Z; setPos : Z }.

Definition boolFirst (a b : bool) : Z :=
  if Bool.eqb a b then 0 else if a then -1 else 1.
Definition cmpInt (a b : Z) : Z := if a <? b then -1 else if b <? a then 1 else 0.
Definition cmpInt64 (a b : Z) : Z := if a <? b then -1 else if b <? a then 1 else 0.
Definition cmpFloat (a b : F64.t) : Z := if F64.lt a b then -1 else if F64.gt a b then 1 else 0.

Definition compare (s : Strategy) (a b : candidate) : Z :=
  match s with
  | StrategyPrefixSticky => boolFirst (prefixHit a) (prefixHit b)
  | StrategySticky => boolFirst (sticky a) (sticky b)
  | StrategyLowestCost =>
      if negb (costKnown a) || negb (costKnown b) then 0 else cmpInt64 (costNano a) (costNano b)
  | StrategyLeastBusy =>
      if negb (busyKnown a) || negb (busyKnown b) then 0 else cmpInt (busy a) (busy b)
  | StrategyLowestLatency =>
      if (ttft a <=? 0) || (ttft b <=? 0) then 0 else cmpInt64 (ttft a) (ttft b)
  | StrategyHighestTPS =>
      if F64.le (tps a) F64.zero || F64.le (tps b) F64.zero then 0 else - cmpFloat (tps a) (tps b)
  | StrategyPriority => cmpInt (Priority (dep a)) (Priority (dep b))
  | StrategyQuotaUrgency =>
      if negb (urgencyKnown a) || negb (urgencyKnown b) then 0 else - cmpFloat (urgency a) (urgency b)
  | StrategyRoundRobin => cmpInt (rr a) (rr b)
  | StrategyWeightedRandom => cmpFloat (wr a) (wr b)
  end.

(** The first opinion of the chain, and whose it was. *)
Fixpoint chainCompare (chain : list Strategy) (a b : candidate) : Z * option Strategy :=
  match chain with
  | [] => (0, None)
  | s :: chain' => let c := compare s a b in if c =? 0 then chainCompare chain' a b else (c, Some s)
  end.

Definition sameAccountSet (a b : Deployment) : bool :=
  String.eqb (dProvider a) (dProvider b) && String.eqb (dProviderGroup a) (dProviderGroup b) &&
  String.eqb (dKind a) (dKind b) && String.eqb (dModel a) (dModel b) &&
  (Priority a =? Priority b) && (Weight a =? Weight b) && (ContextWindow a =? ContextWindow b).

Definition set_setPos (c : candidate) (n : Z) : candidate :=
  mkCandidate (dep c) (idx c) (creds c) (preferred c) (pinned c) (costCred c) (costNano c) (costKnown c)
    (busy c) (busyKnown c) (ttft c) (tps c) (urgency c) (urgencyKnown c) (sticky c) (prefixHit c)
    (prefixDepth c) (rr c) (wr c) (lastOK c) n.

(** [gatherSiblings], from position [i]; [seen] are the candidates before it, in
    order. *)
Fixpoint gather_loop (i : Z) (seen cands : list candidate) (found : bool) : list candidate * bool :=
  match cands with
  | [] => (seen, found)
  | c :: cands' =>
      match List.find (fun x => sameAccountSet (dep c) (dep x)) seen with
      | Some x => gather_loop (i + 1) (seen ++ [set_setPos c (setPos x)]) cands' true
      | None => gather_loop (i + 1) (seen ++ [set_setPos c i]) cands' found
      end
  end.
Definition gatherSiblings (cands : list candidate) : list candidate * bool := gather_loop 0 [] cands false.

(** [anySiblings]. *)
Fixpoint anySiblings (cands : list candidate) : bool :=
  match cands with
  | [] => false
  | c :: cands' => existsb (fun x => sameAccountSet (dep x) (dep c)) cands' || anySiblings cands'
  end.

Definition accountPolicy (s : Strategy) : bool :=
  match s with
  | StrategyQuotaUrgency | StrategyLowestCost | StrategySticky | StrategyPrefixSticky | StrategyPriority => true
  | _ => false
  end.

Fixpoint siblingPolicy (chain : list Strategy) (a b : candidate) : Z * option Strategy :=
  match chain with
  | [] => (0, None)
  | s :: chain' =>
      if negb (accountPolicy s) then siblingPolicy chain' a b
      else let c := compare s a b in if c =? 0 then siblingPolicy chain' a b else (c, Some s)
  end.

Definition siblingRank (chain : list Strategy) (a b : candidate) : Z :=
  let c := (siblingPolicy chain a b).1 in
  if negb (c =? 0) then c else
  let c := boolFirst (sticky a) (sticky b) in
  if negb (c =? 0) then c else
  let c := boolFirst (prefixHit a) (prefixHit b) in
  if negb (c =? 0) then c else
  let c := - cmpInt64 (lastOK a) (lastOK b) in
  if negb (c =? 0) then c else
  cmpInt (idx a) (idx b).

(** The two comparators [order] sorts with. *)
Definition by_chain (chain : list Strategy) (a b : candidate) : Z :=
  let c := (chainCompare chain a b).1 in
  if negb (c =? 0) then c else cmpInt (idx a) (idx b).
Definition by_set (chain : list Strategy) (a b : candidate) : Z :=
  let c := cmpInt (setPos a) (setPos b) in
  if negb (c =? 0) then c else siblingRank chain a b.

Definition order (chain : list Strategy) (cands : list candidate) : list candidate :=
  if (length cands <? 2)%nat then cands
  else
    let '(cands, found) := gatherSiblings (SortStableFunc (by_chain chain) cands) in
    if negb found then cands else SortStableFunc (by_set chain) cands.

Definition decidedBy (chain : list Strategy) (cands : list candidate) : option Strategy :=
  match cands with
  | a :: b :: _ => (chainCompare chain a b).2
  | _ => None
  end.

Definition chainUses (chain : list Strategy) (s : Strategy) : bool := bool_decide (s ∈ chain).

(** ** Weighted round robin *)

Definition weightOf (d : Deployment) : Z := if Weight d <=? 0 then 1 else Weight d.

Definition set_rr (c : candidate) (n : Z) : candidate :=
  mkCandidate (dep c) (idx c) (creds c) (preferred c) (pinned c) (costCred c) (costNano c) (costKnown c)
    (busy c) (busyKnown c) (ttft c) (tps c) (urgency c) (urgencyKnown c) (sticky c) (prefixHit c)
    (prefixDepth c) n (wr c) (lastOK c) (setPos c).

(** One pass over the candidates that have no rank yet, from index [i]: the
    advanced counters and the best of them, with its counter. *)
Fixpoint rr_scan (i : nat) (cands : list candidate) (cur : list Z) (best : option (nat * Z))
  : list Z * option (nat * Z) :=
  match cands, cur with
  | c :: cands', x :: cur' =>
      if 0 <=? rr c then
        let '(cur', best) := rr_scan (S i) cands' cur' best in (x :: cur', best)
      else
        let x := i64 (x + weightOf (dep c)) in
        let best := match best with
                    | Some (_, y) => if y <? x then Some (i, x) else best
                    | None => Some (i, x)
                    end in
        let '(cur', best) := rr_scan (S i) cands' cur' best in (x :: cur', best)
  | _, _ => (cur, best)
  end.

(** The step committed to the shared counters. *)
Definition rr_commit (total : Z) (cands : list candidate) (best : nat) (current : list Z) : list Z :=
  let current := foldl (fun cu c => alter (fun x => i64 (x + weightOf (dep c))) (ridx (dep c)) cu) current cands in
  match cands !! best with
  | Some c => alter (fun x => i64 (x - total)) (ridx (dep c)) current
  | None => current
  end.

Fixpoint rr_loop (ranks : list nat) (total : Z) (cands : list candidate) (cur current : list Z)
  : list candidate * list Z :=
  match ranks with
  | [] => (cands, current)
  | rank :: ranks' =>
      match rr_scan 0 cands cur None with
      | (_, None) => (cands, current)
      | (cur, Some (best, _)) =>
          let current := if (rank =? 0)%nat then rr_commit total cands best current else current in
          rr_loop ranks' total (alter (fun c => set_rr c (Z.of_nat rank)) best cands)
            (alter (fun x => i64 (x - total)) best cur) current
      end
  end.

(** [assignRR]: the ranked candidates and the shared counters. *)
Definition assignRR (current : list Z) (cands : list candidate) : list candidate * list Z :=
  let cur := map (fun c => default 0 (current !! ridx (dep c))) cands in
  let total := foldl (fun t c => i64 (t + weightOf (dep c))) 0 cands in
  rr_loop (seq 0 (length cands)) total (map (fun c => set_rr c (-1)) cands) cur current.

(** ** Credential rotation *)

Inductive Rotation : Type := RotationFailover | RotationRoundRobin | RotationLeastUsed | RotationRandom.

Definition ParseRotation (s : string) : option Rotation :=
  if String.eqb s "failover" then Some RotationFailover
  else if String.eqb s "round_robin" then Some RotationRoundRobin
  else if String.eqb s "least_used" then Some RotationLeastUsed
  else if String.eqb s "random" then Some RotationRandom
  else None.

(** [rotationState.next]: the cursors after it and the one it took. *)
Definition rotation_next (cursor : list Z) (i : nat) : list Z * Z :=
  match cursor !! i with
  | None => (cursor, 0)
  | Some n => (<[i := u64 (n + 1)]> cursor, n)
  end.

(** [rotate]: [least_used] is the broker's [LeastUsedKey], [rnd] the value
    drawn in [[0, 1)]. *)
Definition rotate (rotation : Rotation) (least_used : string -> list Candidate -> string) (rnd : F64.t)
    (cursor : list Z) (d : Deployment) (cs : list Candidate) : list Z * string :=
  if (length cs <? 2)%nat then (cursor, "")
  else
    match rotation with
    | RotationRoundRobin =>
        let '(cursor, n) := rotation_next cursor (ridx d) in
        (cursor, match cs !! Z.to_nat (n mod Z.of_nat (length cs)) with Some c => ID c | None => "" end)
    | RotationRandom =>
        let i := match F64.trunc (F64.mul rnd (F64.of_Z (Z.of_nat (length cs)))) with Some z => z | None => 0 end in
        let i := if Z.of_nat (length cs) <=? i then Z.of_nat (length cs) - 1 else i in
        (cursor, match cs !! Z.to_nat i with Some c => ID c | None => "" end)
    | RotationLeastUsed => (cursor, least_used (dProvider d) cs)
    | RotationFailover => (cursor, "")
    end.

(** ** Session pins *)

(** Tenant, group and session. *)
Notation stickyKey := (string * string * string)%type.
Definition sticky_zero (k : stickyKey) : bool := String.eqb k.2 "".

Record stickyEntry : Type := mkStickyEntry { sDeployment : string; sCredential : string; screated : Z }.
Record stickyStore : Type := mkStickyStore { sm : gmap stickyKey stickyEntry; sttl : Z }.

Definition newStickyStore (ttl : Z) : stickyStore := mkStickyStore ∅ ttl.

Definition sticky_expired (s : stickyStore) (e : stickyEntry) (now : Z) : bool :=
  (0 <? sttl s) && negb (Time.Before now (Time.Add (screated e) (sttl s))).

Definition sticky_discard (s : stickyStore) (k : stickyKey) : stickyStore :=
  if sticky_zero k then s else mkStickyStore (delete k (sm s)) (sttl s).

Definition sticky_get (s : stickyStore) (k : stickyKey) (now : Z) : stickyStore * option stickyEntry :=
  if sticky_zero k then (s, None)
  else match sm s !! k with
       | None => (s, None)
       | Some e => if sticky_expired s e now then (sticky_discard s k, None) else (s, Some e)
       end.

Definition sticky_put (s : stickyStore) (k : stickyKey) (deployment credential : string) (now : Z) : stickyStore :=
  if sticky_zero k then s
  else
    let fresh := mkStickyStore (<[k := mkStickyEntry deployment credential now]> (sm s)) (sttl s) in
    match sm s !! k with
    | Some e =>
        if negb (sticky_expired s e now) &&
           (String.eqb (sDeployment e) deployment && String.eqb (sCredential e) credential) then s
        else fresh
    | None => fresh
    end.

(** [purge]: the clock is read once per entry. *)
Definition sticky_purge (s : stickyStore) (now : stickyKey -> Z) : stickyStore * Z :=
  let live := filter (fun ke : stickyKey * stickyEntry => sticky_expired s ke.2 (now ke.1) = false) (sm s) in
  (mkStickyStore live (sttl s), Z.of_nat (size (sm s)) - Z.of_nat (size live)).

(** ** Priority *)

Inductive Direction : Type := Ascending | Descending.

Record EmitRule : Type := mkEmitRule {
  eField : string; eDirection : Direction; eBase : Z; eMap : option (gmap string string) }.
Record PriorityGrant : Type := mkGrant { gMin : Z; gMax : Z }.
Record PriorityConfig : Type := mkPriorityConfig {
  Classes : gmap string Z; pDefault : string; Emit : gmap string EmitRule; Header : string;
  pMin : Z; pMax : Z; Grants : gmap string PriorityGrant }.

Definition ParseDirection (s : string) : option Direction :=
  if String.eqb s "ascending" then Some Ascending
  else if String.eqb s "descending" then Some Descending
  else None.

Definition DefaultPriority : PriorityConfig :=
  mkPriorityConfig (<["realtime" := 0]> (<["interactive" := 2]> {["batch" := 10]})) "interactive"
    (<["vllm" := mkEmitRule "priority" Ascending 0 None]>
     (<["sglang" := mkEmitRule "priority" Descending 0 None]>
      {["openai" := mkEmitRule "" Ascending 0
          (Some (<["realtime" := "priority"]> (<["interactive" := "default"]> {["batch" := "flex"]})))]}))
    "X-Request-Priority" 0 0 ∅.

Definition grantFor (p : PriorityConfig) (principal : string) : PriorityGrant :=
  match Grants p !! principal with
  | Some g => g
  | None => match Grants p !! "default" with
            | Some g => g
            | None => mkGrant (pMin p) (pMax p)
            end
  end.

Definition GrantsHint (p : PriorityConfig) (principal : string) : bool :=
  let g := grantFor p principal in gMin g <? gMax g.

Definition CanonicalFor (p : PriorityConfig) (principal cls : string) (hint : option Z) : Z :=
  let cls := if String.eqb cls "" then pDefault p else cls in
  let v := match Classes p !! cls with Some v => v | None => default 0 (Classes p !! pDefault p) end in
  match hint with
  | None => v
  | Some h =>
      let g := grantFor p principal in
      if gMax g <=? gMin g then v
      else
        let h := if h <? gMin g then gMin g else h in
        if gMax g <? h then gMax g else h
  end.

Definition Canonical (p : PriorityConfig) (cls : string) (hint : option Z) : Z := CanonicalFor p "" cls hint.

(** [Wire]: the number and the field it goes in, if this kind takes one. *)
Definition Wire (p : PriorityConfig) (kind : string) (canonical : Z) : option (Z * string) :=
  match Emit p !! kind with
  | None => None
  | Some r =>
      if String.eqb (eField r) "" then None
      else match eDirection r with
           | Descending => Some (i64 (eBase r - canonical), eField r)
           | Ascending => Some (canonical, eField r)
           end
  end.

Definition Tier (p : PriorityConfig) (kind cls : string) : string :=
  let cls := if String.eqb cls "" then pDefault p else cls in
  match Emit p !! kind with
  | Some r => match eMap r with Some m => default "" (m !! cls) | None => "" end
  | None => ""
  end.
