(* ===== verification/RouterOrder.v ===== *)
(** * What the ordering of candidates promises

    When every strategy of the chain has its figure for every candidate, the two
    comparators are orders, and the first choice is the backend the chain prefers
    served by the account that affinity prefers. When a figure is missing the
    comparator is not an order, and a worse candidate can come first. *)
From Stdlib Require Import String.
From stdpp Require Import base gmap list strings sorting.
From Stdlib Require Import ZArith Lia SpecFloat.
From S2P Require Import Prelude F64 Axis GoSort Router.
Open Scope Z_scope.

(** ** Comparators that are orders *)

Record total_cmp {A} (P : A -> Prop) (cmp : A -> A -> Z) : Prop := {
  tc_opp x y : P x -> P y -> cmp y x = - cmp x y;
  tc_trans x y z : P x -> P y -> P z -> cmp x y <= 0 -> cmp y z <= 0 -> cmp x z <= 0 }.

(** The second comparator decides what the first leaves open. *)
Definition then_by {A} (c1 c2 : A -> A -> Z) (x y : A) : Z := if negb (c1 x y =? 0) then c1 x y else c2 x y.

Lemma total_then {A} (P : A -> Prop) c1 c2 : total_cmp P c1 -> total_cmp P c2 -> total_cmp P (then_by c1 c2).
Proof.
  intros [O1 T1] [O2 T2]. split.
  - intros x y Px Py. unfold then_by. rewrite (O1 x y), (O2 x y) by assumption.
    destruct (Z.eqb_spec (c1 x y) 0) as [->|N]; [reflexivity|].
    destruct (Z.eqb_spec (- c1 x y) 0); [lia|reflexivity].
  - intros x y z Px Py Pz. unfold then_by.
    pose proof (T1 x y z Px Py Pz) as A1. pose proof (T1 y z x Py Pz Px) as A2. pose proof (T1 z x y Pz Px Py) as A3.
    pose proof (T2 x y z Px Py Pz) as B.
    pose proof (O1 x y Px Py). pose proof (O1 y z Py Pz). pose proof (O1 x z Px Pz).
    destruct (Z.eqb_spec (c1 x y) 0), (Z.eqb_spec (c1 y z) 0), (Z.eqb_spec (c1 x z) 0); cbn [negb]; lia.
Qed.

Lemma total_neg {A} (P : A -> Prop) c : total_cmp P c -> total_cmp P (fun x y => - c x y).
Proof.
  intros [O T]. split; intros; [rewrite (O x y) by assumption; lia|].
  pose proof (T z y x). pose proof (O x y). pose proof (O y z). pose proof (O x z). intuition lia.
Qed.

Lemma total_cmp_ext {A} (P : A -> Prop) c c' :
  (forall x y, P x -> P y -> c' x y = c x y) -> total_cmp P c -> total_cmp P c'.
Proof.
  intros E [O T]. split; intros; [rewrite !E by assumption; auto|].
  rewrite !E in * by assumption. eauto.
Qed.

Lemma total_impl {A} (P Q : A -> Prop) c : (forall x, Q x -> P x) -> total_cmp P c -> total_cmp Q c.
Proof. intros I [O T]. split; intros; [apply O; auto|eapply (T x y z); auto]. Qed.

Lemma total_key {A} (f : A -> Z) (P : A -> Prop) : total_cmp P (fun x y => cmpInt (f x) (f y)).
Proof.
  split; intros; unfold cmpInt in *; repeat case_match; breflect; lia.
Qed.

Lemma total_none {A} (P : A -> Prop) : total_cmp P (fun _ _ => 0).
Proof. split; intros; lia. Qed.

Definition bool_key (b : bool) : Z := if b then 0 else 1.
Lemma boolFirst_key a b : boolFirst a b = cmpInt (bool_key a) (bool_key b).
Proof. destruct a, b; reflexivity. Qed.

Lemma total_weak_order {A} (P : A -> Prop) cmp : total_cmp P cmp -> weak_order cmp P.
Proof.
  intros [O T]. split; unfold less; intros.
  - apply Z.ltb_lt in H1. apply Z.ltb_ge. rewrite (O x y) by assumption. lia.
  - apply Z.ltb_ge in H2, H3. apply Z.ltb_ge. rewrite (O x z) by assumption.
    rewrite (O x y) in H2 by assumption. rewrite (O y z) in H3 by assumption. specialize (T x y z). intuition lia.
Qed.

(** ** Floats *)

Definition not_nan (x : F64.t) : Prop := x <> S754_nan.

(** The order of the floats, from the most to the least significant part. *)
Definition f_class (x : F64.t) : Z :=
  match x with
  | S754_infinity true => -2 | S754_finite true _ _ => -1 | S754_zero _ => 0
  | S754_finite false _ _ => 1 | S754_infinity false => 2 | S754_nan => 3
  end.
Definition f_exp (x : F64.t) : Z :=
  match x with S754_finite true _ e => - e | S754_finite false _ e => e | _ => 0 end.
Definition f_mant (x : F64.t) : Z :=
  match x with S754_finite true m _ => - Z.pos m | S754_finite false m _ => Z.pos m | _ => 0 end.

Lemma SFltb_finite s m e m' e' :
  SFltb (S754_finite s m e) (S754_finite s m' e') =
  if s then (e' <? e) || ((e' =? e) && (Z.pos m' <? Z.pos m)) else (e <? e') || ((e =? e') && (Z.pos m <? Z.pos m')).
Proof.
  unfold SFltb, SFcompare. destruct s.
  - destruct (Z.compare_spec e e') as [->|H|H].
    + rewrite Z.ltb_irrefl, Z.eqb_refl. cbn [orb andb]. rewrite Pos.compare_cont_spec.
      cbn. destruct (Pos.compare_spec m m') as [L|L|L];
        destruct (Z.ltb_spec (Z.pos m') (Z.pos m)); cbn; try reflexivity; lia.
    + destruct (Z.ltb_spec e' e), (Z.eqb_spec e' e); try lia; reflexivity.
    + destruct (Z.ltb_spec e' e); [reflexivity|lia].
  - destruct (Z.compare_spec e e') as [->|H|H].
    + rewrite Z.ltb_irrefl, Z.eqb_refl. cbn [orb andb]. rewrite Pos.compare_cont_spec.
      cbn. destruct (Pos.compare_spec m m') as [L|L|L];
        destruct (Z.ltb_spec (Z.pos m) (Z.pos m')); cbn; try reflexivity; lia.
    + destruct (Z.ltb_spec e e'); [reflexivity|lia].
    + destruct (Z.ltb_spec e e'), (Z.eqb_spec e e'); try lia; reflexivity.
Qed.

Lemma cmpFloat_keys a b : not_nan a -> not_nan b ->
  cmpFloat a b = then_by (fun x y => cmpInt (f_class x) (f_class y))
    (then_by (fun x y => cmpInt (f_exp x) (f_exp y)) (fun x y => cmpInt (f_mant x) (f_mant y))) a b.
Proof.
  intros Na Nb. unfold cmpFloat, F64.gt, F64.lt, then_by.
  destruct a as [sa|sa| |sa ma ea], b as [sb|sb| |sb mb eb]; try done;
    try (destruct sa, sb; reflexivity).
  destruct sa, sb; try reflexivity; rewrite !SFltb_finite; cbn [f_class f_exp f_mant].
  all: unfold cmpInt; cbn [Z.ltb Z.compare Z.eqb negb].
  all: repeat match goal with
    | |- context [?x <? ?y] => destruct (Z.ltb_spec x y)
    | |- context [?x =? ?y] => destruct (Z.eqb_spec x y)
    end; cbn [orb andb negb Z.eqb]; try reflexivity; lia.
Qed.

Lemma total_float {A} (f : A -> F64.t) (P : A -> Prop) :
  (forall x, P x -> not_nan (f x)) -> total_cmp P (fun x y => cmpFloat (f x) (f y)).
Proof.
  intros N. eapply total_cmp_ext; [intros x y Px Py; apply cmpFloat_keys; apply N; assumption|].
  apply (total_then P (fun x y => cmpInt (f_class (f x)) (f_class (f y)))); [apply (total_key (fun x => f_class (f x)))|].
  apply (total_then P (fun x y => cmpInt (f_exp (f x)) (f_exp (f y))));
    [apply (total_key (fun x => f_exp (f x)))|apply (total_key (fun x => f_mant (f x)))].
Qed.

(** ** The comparators of the router *)

(** The strategy has its figure for the candidate. *)
Definition informed (s : Strategy) (c : candidate) : Prop :=
  match s with
  | StrategyLowestCost => costKnown c = true
  | StrategyLeastBusy => busyKnown c = true
  | StrategyLowestLatency => 0 < ttft c
  | StrategyHighestTPS => F64.le (tps c) F64.zero = false /\ not_nan (tps c)
  | StrategyQuotaUrgency => urgencyKnown c = true /\ not_nan (urgency c)
  | StrategyWeightedRandom => not_nan (wr c)
  | _ => True
  end.

Definition well_informed (chain : list Strategy) (c : candidate) : Prop := Forall (fun s => informed s c) chain.

Lemma compare_total s : total_cmp (informed s) (compare s).
Proof.
  destruct s; cbn [informed compare].
  - apply (total_key rr).
  - eapply total_cmp_ext; [intros x y Hx Hy; cbn; rewrite Hx, Hy; reflexivity|]. apply (total_key busy).
  - eapply total_cmp_ext; [intros x y Hx Hy; cbn; rewrite Hx, Hy; reflexivity|]. apply (total_key costNano).
  - apply (total_cmp_ext _ (fun x y => cmpInt (ttft x) (ttft y))); [|apply (total_key ttft)].
    intros x y Hx Hy. cbn in *. destruct (Z.leb_spec (ttft x) 0), (Z.leb_spec (ttft y) 0); first [lia | reflexivity].
  - eapply total_cmp_ext; [intros x y [Hx _] [Hy _]; cbn; rewrite Hx, Hy; reflexivity|]. apply total_neg.
    eapply total_impl; [intros x [_ N]; exact N|]. apply total_float. auto.
  - eapply total_cmp_ext; [intros; apply boolFirst_key|]. apply (total_key (fun x => bool_key (sticky x))).
  - eapply total_cmp_ext; [intros; apply boolFirst_key|]. apply (total_key (fun x => bool_key (prefixHit x))).
  - apply (total_key (fun x => Priority (dep x))).
  - apply total_float. auto.
  - eapply total_cmp_ext; [intros x y [Hx _] [Hy _]; cbn; rewrite Hx, Hy; reflexivity|]. apply total_neg.
    eapply total_impl; [intros x [_ N]; exact N|]. apply total_float. auto.
Qed.

Lemma chain_total chain : total_cmp (well_informed chain) (fun a b => (chainCompare chain a b).1).
Proof.
  induction chain as [|s chain IH]; [apply total_none|].
  eapply total_cmp_ext; [|apply (total_then _ (compare s) (fun a b => (chainCompare chain a b).1))].
  - intros x y _ _. cbn [chainCompare]. unfold then_by. destruct (compare s x y =? 0); reflexivity.
  - eapply total_impl; [|apply compare_total]. intros x H. inv H. assumption.
  - eapply total_impl; [|exact IH]. intros x H. inv H. assumption.
Qed.

Lemma policy_total chain : total_cmp (well_informed chain) (fun a b => (siblingPolicy chain a b).1).
Proof.
  induction chain as [|s chain IH]; [apply total_none|].
  assert (total_cmp (well_informed (s :: chain)) (fun a b => (siblingPolicy chain a b).1)) as IH'.
  { eapply total_impl; [|exact IH]. intros x H. inv H. assumption. }
  cbn [siblingPolicy]. destruct (accountPolicy s); cbn [negb]; [|exact IH'].
  eapply total_cmp_ext; [|apply (total_then _ (compare s) (fun a b => (siblingPolicy chain a b).1)); [|exact IH']].
  - intros x y _ _. unfold then_by. destruct (compare s x y =? 0); reflexivity.
  - eapply total_impl; [|apply compare_total]. intros x H. inv H. assumption.
Qed.

Lemma by_chain_total chain : total_cmp (well_informed chain) (by_chain chain).
Proof. apply (total_then _ (fun a b => (chainCompare chain a b).1)); [apply chain_total|apply (total_key idx)]. Qed.

Lemma siblingRank_total chain : total_cmp (well_informed chain) (siblingRank chain).
Proof.
  apply (total_then _ (fun a b => (siblingPolicy chain a b).1)); [apply policy_total|].
  apply (total_then _ (fun a b => boolFirst (sticky a) (sticky b))).
  { eapply total_cmp_ext; [intros; apply boolFirst_key|]. apply (total_key (fun x => bool_key (sticky x))). }
  apply (total_then _ (fun a b => boolFirst (prefixHit a) (prefixHit b))).
  { eapply total_cmp_ext; [intros; apply boolFirst_key|]. apply (total_key (fun x => bool_key (prefixHit x))). }
  apply (total_then _ (fun a b => - cmpInt64 (lastOK a) (lastOK b))); [|apply (total_key idx)].
  apply total_neg, (total_key lastOK).
Qed.

Lemma by_set_total chain : total_cmp (well_informed chain) (by_set chain).
Proof. apply (total_then _ (fun a b => cmpInt (setPos a) (setPos b))); [apply (total_key setPos)|apply siblingRank_total]. Qed.

(** ** Account siblings *)

Lemma same_iff a b : sameAccountSet a b = true <->
  (dProvider a, dProviderGroup a, dKind a, dModel a, Priority a, Weight a, ContextWindow a)
  = (dProvider b, dProviderGroup b, dKind b, dModel b, Priority b, Weight b, ContextWindow b).
Proof.
  unfold sameAccountSet. rewrite !andb_true_iff, !String.eqb_eq, !Z.eqb_eq.
  split; [intros ((((((-> & ->) & ->) & ->) & ->) & ->) & ->); reflexivity|intros [= -> -> -> -> -> -> ->]; tauto].
Qed.

Definition siblings (a b : candidate) : Prop := sameAccountSet (dep a) (dep b) = true.

#[export] Instance siblings_equiv : Equivalence siblings.
Proof.
  unfold siblings. split; [intros x|intros x y|intros x y z]; rewrite !same_iff; congruence.
Qed.

(** What [gatherSiblings] writes: siblings share a position and nobody else does. *)
Record gathered (i : Z) (l : list candidate) : Prop := {
  ga_range c : c ∈ l -> 0 <= setPos c < i;
  ga_sets a b : a ∈ l -> b ∈ l -> (setPos a = setPos b <-> siblings a b) }.

Lemma gathered_snoc i l c n : gathered i l -> 0 <= n < i + 1 ->
  (forall x, x ∈ l -> (setPos x = n <-> siblings x c)) -> gathered (i + 1) (l ++ [set_setPos c n]).
Proof.
  intros [R S] Hn Hc. split.
  - intros x [H| ->%list_elem_of_singleton]%elem_of_app; [specialize (R _ H); lia|exact Hn].
  - intros a b [Ha| ->%list_elem_of_singleton]%elem_of_app [Hb| ->%list_elem_of_singleton]%elem_of_app.
    + apply S; assumption.
    + apply (Hc a Ha).
    + cbn [setPos set_setPos]. split; [intros E; symmetry in E; apply (Hc b Hb) in E|intros E; symmetry; apply (Hc b Hb)];
        unfold siblings in *; cbn [dep set_setPos] in *; rewrite !same_iff in *; congruence.
    + split; reflexivity.
Qed.

Lemma gather_loop_spec cands i seen found l f : gather_loop i seen cands found = (l, f) -> 0 <= i -> gathered i seen ->
  exists j, gathered j l /\ (exists tl, l = seen ++ tl) /\
    map (fun c => set_setPos c 0) l = map (fun c => set_setPos c 0) (seen ++ cands) /\
    (f = false -> found = false /\ (NoDup (map setPos seen) -> NoDup (map setPos l))).
Proof.
  revert i seen found. induction cands as [|c cands IH]; intros i seen found E Hi G; cbn [gather_loop] in E.
  { inv E. exists i. rewrite app_nil_r. split; [exact G|]. split; [exists []; rewrite app_nil_r; reflexivity|]. auto. }
  assert (forall n, map (fun c => set_setPos c 0) ((seen ++ [set_setPos c n]) ++ cands)
                    = map (fun c => set_setPos c 0) (seen ++ c :: cands)) as M.
  { intros n. rewrite !map_app. cbn [map]. rewrite <- app_assoc. reflexivity. }
  destruct (List.find _ seen) as [x|] eqn:F.
  - apply find_some in F as [Hx Sx]. apply list_elem_of_In in Hx.
    assert (gathered (i + 1) (seen ++ [set_setPos c (setPos x)])) as G'.
    { apply gathered_snoc; [exact G|pose proof (ga_range _ _ G x Hx); lia|]. intros y Hy.
      rewrite (ga_sets _ _ G y x Hy Hx). unfold siblings in *. rewrite !same_iff in *. split; congruence. }
    destruct (IH _ _ _ E ltac:(lia) G') as (j & Gj & (tl & ->) & Mj & Fj). exists j.
    split; [exact Gj|]. split; [exists (set_setPos c (setPos x) :: tl); rewrite <- app_assoc; reflexivity|].
    split; [rewrite Mj; apply M|]. intros Hf. destruct (Fj Hf) as [Hd _]. discriminate.
  - assert (gathered (i + 1) (seen ++ [set_setPos c i])) as G'.
    { apply gathered_snoc; [exact G|lia|]. intros y Hy. split; [intros Ey; pose proof (ga_range _ _ G y Hy); lia|].
      intros Sy. exfalso. apply list_elem_of_In in Hy. pose proof (find_none _ _ F y Hy) as N. cbn in N.
      unfold siblings in Sy. rewrite same_iff in Sy. symmetry in Sy. rewrite <- same_iff in Sy. congruence. }
    destruct (IH _ _ _ E ltac:(lia) G') as (j & Gj & (tl & ->) & Mj & Fj). exists j.
    split; [exact Gj|]. split; [exists (set_setPos c i :: tl); rewrite <- app_assoc; reflexivity|].
    split; [rewrite Mj; apply M|]. intros Hf. destruct (Fj Hf) as [Hd N]. split; [exact Hd|]. intros Ns. apply N.
    rewrite map_app. cbn [map]. apply NoDup_app. split; [exact Ns|]. split; [|apply NoDup_singleton].
    intros y Hy ->%list_elem_of_singleton. apply list_elem_of_fmap in Hy as (z & Ez & Hz).
    pose proof (ga_range _ _ G z Hz). cbn in Ez. lia.
Qed.

Lemma gather_spec cands l f : gatherSiblings cands = (l, f) ->
  exists j, gathered j l /\ map (fun c => set_setPos c 0) l = map (fun c => set_setPos c 0) cands /\
    (forall c tl, cands = c :: tl -> exists tl', l = set_setPos c 0 :: tl') /\ (f = false -> NoDup (map setPos l)).
Proof.
  unfold gatherSiblings. intros E. assert (gathered 0 []) as G by (split; intros; set_solver).
  destruct (gather_loop_spec _ _ _ _ _ _ E ltac:(lia) G) as (j & Gj & _ & M & F). exists j. split; [exact Gj|].
  split; [exact M|]. split; [|intros Hf; apply F; [exact Hf|constructor]].
  intros c tl ->. cbn [gather_loop List.find app] in E.
  assert (gathered 1 [set_setPos c 0]) as G1.
  { apply (gathered_snoc 0 []); [exact G|lia|]. set_solver. }
  destruct (gather_loop_spec _ _ _ _ _ _ E ltac:(lia) G1) as (_ & _ & (tl' & ->) & _). eauto.
Qed.

(** Positions are not part of what a candidate is. *)
Definition pure (c : candidate) : candidate := set_setPos c 0.

Lemma compare_pure s a c : compare s (pure a) c = compare s a c /\ compare s c (pure a) = compare s c a.
Proof. destruct s; split; reflexivity. Qed.

Lemma chain_pure chain a c : chainCompare chain (pure a) c = chainCompare chain a c.
Proof.
  induction chain as [|s chain IH]; [reflexivity|]. cbn [chainCompare].
  rewrite IH, (proj1 (compare_pure s a c)). reflexivity.
Qed.

Lemma policy_pure chain a c : siblingPolicy chain (pure a) c = siblingPolicy chain a c /\
  siblingPolicy chain c (pure a) = siblingPolicy chain c a.
Proof.
  induction chain as [|s chain [IH1 IH2]]; [split; reflexivity|]. cbn [siblingPolicy].
  rewrite IH1, IH2, (proj1 (compare_pure s a c)), (proj2 (compare_pure s a c)). split; reflexivity.
Qed.

Lemma pure_same a b : pure a = pure b ->
  (forall chain c, by_chain chain a c = by_chain chain b c) /\
  (forall chain c, siblingRank chain a c = siblingRank chain b c) /\
  (forall chain c, siblingRank chain c a = siblingRank chain c b) /\
  dep a = dep b /\ (forall chain, well_informed chain a -> well_informed chain b).
Proof.
  intros E.
  assert (forall x chain c, by_chain chain (pure x) c = by_chain chain x c) as Pc.
  { intros x chain c. unfold by_chain. rewrite chain_pure. reflexivity. }
  assert (forall x chain c, siblingRank chain (pure x) c = siblingRank chain x c /\
            siblingRank chain c (pure x) = siblingRank chain c x) as Ps.
  { intros x chain c. unfold siblingRank. rewrite (proj1 (policy_pure chain x c)), (proj2 (policy_pure chain x c)).
    split; reflexivity. }
  assert (forall x chain, well_informed chain (pure x) <-> well_informed chain x) as Pw.
  { intros x chain. unfold well_informed. rewrite !Forall_forall. split; intros W s Hs; specialize (W s Hs); destruct s; exact W. }
  split; [intros; rewrite <- Pc, E; apply Pc|].
  split; [intros; rewrite <- (proj1 (Ps a chain c)), E; apply Ps|].
  split; [intros; rewrite <- (proj2 (Ps a chain c)), E; apply Ps|].
  split; [apply (f_equal dep) in E; exact E|]. intros chain W. apply (proj1 (Pw b chain)). rewrite <- E. apply (proj2 (Pw a chain)), W.
Qed.

Lemma pure_elem (l l' : list candidate) c : map pure l ≡ₚ map pure l' -> c ∈ l -> exists c', c' ∈ l' /\ pure c' = pure c.
Proof.
  intros P H. assert (pure c ∈ map pure l) as Hm by (apply list_elem_of_fmap_2, H).
  rewrite P in Hm. apply list_elem_of_fmap in Hm as (c' & E & H'). eauto.
Qed.

Lemma order_perm chain cands : map pure (order chain cands) ≡ₚ map pure cands.
Proof.
  unfold order. destruct (length cands <? 2)%nat; [reflexivity|].
  destruct (gatherSiblings _) as [l f] eqn:E. destruct (gather_spec _ _ _ E) as (_ & _ & M & _).
  change (map pure l = map pure (SortStableFunc (by_chain chain) cands)) in M.
  assert (map pure l ≡ₚ map pure cands) as P by (rewrite M; apply fmap_Permutation, SortStableFunc_perm).
  destruct (negb f); [exact P|]. etransitivity; [apply fmap_Permutation, SortStableFunc_perm|exact P].
Qed.

(** The head of a sorted list precedes everything. *)
Lemma sorted_head {A} (cmp : A -> A -> Z) (P : A -> Prop) l h tl : total_cmp P cmp -> Forall P l -> (length l <= 20)%nat ->
  SortStableFunc cmp l = h :: tl -> h ∈ l /\ forall x, x ∈ l -> cmp h x <= 0.
Proof.
  intros T F L E. rewrite SortStableFunc_small in E by exact L.
  pose proof (insertionSort_sorted cmp P l (total_weak_order _ _ T) F) as S. pose proof (insertionSort_perm cmp l) as Pm.
  rewrite E in S, Pm. apply StronglySorted_inv in S as [_ S].
  assert (h ∈ l) as Hh by (rewrite <- Pm; left). split; [exact Hh|]. intros x Hx.
  rewrite Forall_forall in F. pose proof (F _ Hh) as Ph. pose proof (F _ Hx) as Px.
  rewrite <- Pm in Hx. apply elem_of_cons in Hx as [->|Hx].
  - pose proof (tc_opp _ _ T h h Ph Ph). lia.
  - rewrite Forall_forall in S. specialize (S _ Hx). unfold before, less in S. apply Z.ltb_ge in S.
    rewrite (tc_opp _ _ T h x Ph Px) in S. lia.
Qed.

Lemma informed_pure chain l l' : map pure l ≡ₚ map pure l' -> Forall (well_informed chain) l' -> Forall (well_informed chain) l.
Proof.
  intros P F. apply Forall_forall. intros c Hc. destruct (pure_elem _ _ _ P Hc) as (c' & Hc' & E).
  rewrite Forall_forall in F. apply (pure_same _ _ E), F, Hc'.
Qed.

(** Among gathered candidates whose head is [set_setPos best 0], the choice. *)
Lemma choose_sibling chain l j best tl0 f h tl : gathered j l -> l = set_setPos best 0 :: tl0 ->
  (f = false -> NoDup (map setPos l)) -> Forall (well_informed chain) l -> (length l <= 20)%nat ->
  (if negb f then l else SortStableFunc (by_set chain) l) = h :: tl ->
  siblings h best /\ (forall c, c ∈ l -> siblings c best -> siblingRank chain h c <= 0).
Proof.
  intros G El N F L E.
  assert (set_setPos best 0 ∈ l) as Hb by (rewrite El; left).
  assert (forall c, c ∈ l -> setPos c = 0 <-> siblings c best) as Z0 by (intros c Hc; apply (ga_sets _ _ G c _ Hc Hb)).
  destruct f; cbn [negb] in E.
  - destruct (sorted_head _ _ _ _ _ (by_set_total chain) F L E) as [Hh M].
    assert (setPos h = 0) as H0.
    { specialize (M _ Hb). pose proof (ga_range _ _ G h Hh) as R. unfold by_set, cmpInt in M. cbn [setPos set_setPos] in M.
      destruct (Z.ltb_spec (setPos h) 0); [lia|]. destruct (Z.ltb_spec 0 (setPos h)); [cbn in M; lia|lia]. }
    split; [apply Z0; assumption|]. intros c Hc Sc. apply (Z0 c Hc) in Sc. specialize (M _ Hc).
    unfold by_set in M. rewrite H0, Sc in M. exact M.
  - rewrite El in E. inv E. split; [apply (proj2 (same_iff _ _)); reflexivity|]. intros c Hc Sc. apply (Z0 c Hc) in Sc.
    assert (c = set_setPos best 0) as ->.
    { specialize (N eq_refl). apply elem_of_cons in Hc as [->|Hc]; [reflexivity|].
      cbn [map] in N. apply NoDup_cons in N as [N _]. destruct N. cbn [setPos set_setPos]. apply list_elem_of_fmap. exists c. split; [symmetry; exact Sc|exact Hc]. }
    rewrite Forall_forall in F. specialize (F _ Hb). pose proof (tc_opp _ _ (siblingRank_total chain) _ _ F F). lia.
Qed.

(** C8. The first choice of the ordering is right whenever every strategy of the
    chain has its figure for every candidate: it is an account of the backend
    that the chain, then configuration order, puts first; no sibling account of
    that backend is preferred to it by account policy, session, cache, recency
    and configuration order; and ordering loses or invents no candidate. *)
Theorem order_first_choice chain cands h tl :
  Forall (well_informed chain) cands -> (length cands <= 20)%nat -> order chain cands = h :: tl ->
  map pure (h :: tl) ≡ₚ map pure cands /\
  exists best, best ∈ cands /\ (forall c, c ∈ cands -> by_chain chain best c <= 0) /\
    sameAccountSet (dep h) (dep best) = true /\
    (forall c, c ∈ cands -> sameAccountSet (dep c) (dep best) = true -> siblingRank chain h c <= 0).
Proof.
  intros F L E. split; [rewrite <- E; apply order_perm|]. unfold order in E.
  destruct (Nat.ltb_spec (length cands) 2) as [L2|L2].
  { destruct cands as [|c [|]]; cbn in L2; [discriminate| |lia]. inv E. exists h.
    assert (well_informed chain h) as W by (inv F; assumption).
    pose proof (tc_opp _ _ (by_chain_total chain) h h W W). pose proof (tc_opp _ _ (siblingRank_total chain) h h W W).
    split; [left|]. split; [intros c ->%list_elem_of_singleton; lia|].
    split; [apply same_iff; reflexivity|]. intros c ->%list_elem_of_singleton _. lia. }
  destruct (SortStableFunc (by_chain chain) cands) as [|best tl1] eqn:Es.
  { pose proof (SortStableFunc_perm (by_chain chain) cands) as P. rewrite Es in P.
    apply Permutation_nil in P. rewrite P in L2. cbn in L2. lia. }
  destruct (sorted_head _ _ _ _ _ (by_chain_total chain) F L Es) as [Hb Mb].
  destruct (gatherSiblings (best :: tl1)) as [l f] eqn:Eg.
  destruct (gather_spec _ _ _ Eg) as (j & G & M & Hd & N). destruct (Hd _ _ eq_refl) as [tl0 El].
  assert (map pure l ≡ₚ map pure cands) as P.
  { change (map pure l = map pure (best :: tl1)) in M. rewrite M, <- Es. apply fmap_Permutation, SortStableFunc_perm. }
  assert (length l <= 20)%nat as Ll by (apply Permutation_length in P; rewrite !length_map in P; lia).
  destruct (choose_sibling chain l j best tl0 f h tl G El N (informed_pure _ _ _ P F) Ll E) as [Sh Mh].
  exists best. split; [exact Hb|]. split; [exact Mb|]. split; [exact Sh|]. intros c Hc Sc.
  symmetry in P. destruct (pure_elem _ _ _ P Hc) as (c' & Hc' & Ec). destruct (pure_same _ _ Ec) as (_ & _ & Er & Ed & _).
  rewrite <- Er. apply Mh; [exact Hc'|]. unfold siblings. rewrite Ed. exact Sc.
Qed.

(** C14. One candidate without a price hides a cheaper one: with the strategy
    lowest_cost, a priced candidate listed first stays the first choice over a
    cheaper priced candidate listed third, whenever the candidate listed between
    them has no price. Two of them alone are put in order of price. *)
Theorem unpriced_hides_cheaper x y z :
  costKnown x = true -> costKnown z = true -> costKnown y = false -> costNano z < costNano x ->
  idx x = 0 -> idx y = 1 -> idx z = 2 ->
  sameAccountSet (dep y) (dep x) = false -> sameAccountSet (dep z) (dep x) = false -> sameAccountSet (dep z) (dep y) = false ->
  map pure (order [StrategyLowestCost] [x; y; z]) = map pure [x; y; z] /\
  map pure (order [StrategyLowestCost] [x; z]) = map pure [z; x] /\
  compare StrategyLowestCost z x < 0.
Proof.
  intros Kx Kz Ky C Ix Iy Iz Nyx Nzx Nzy.
  assert (less (by_chain [StrategyLowestCost]) y x = false) as Lyx.
  { unfold less, by_chain. cbn [chainCompare compare fst]. rewrite Ky, Kx, Ix, Iy. reflexivity. }
  assert (less (by_chain [StrategyLowestCost]) z y = false) as Lzy.
  { unfold less, by_chain. cbn [chainCompare compare fst]. rewrite Ky, Kz, Iy, Iz. reflexivity. }
  assert (compare StrategyLowestCost z x = -1) as Czx.
  { cbn [compare]. rewrite Kz, Kx. cbn. unfold cmpInt64. destruct (Z.ltb_spec (costNano z) (costNano x)); [reflexivity|lia]. }
  assert (less (by_chain [StrategyLowestCost]) z x = true) as Lzx.
  { unfold less, by_chain. cbn [chainCompare fst]. rewrite Czx. reflexivity. }
  split; [|split; [|lia]]; unfold order; cbn [length Nat.ltb Nat.leb];
    rewrite SortStableFunc_small by (cbn; lia); unfold insertionSort; cbn [foldl sink].
  - rewrite Lyx. cbn [sink]. rewrite Lzy. cbn [rev app]. unfold gatherSiblings. cbn [gather_loop List.find app dep set_setPos].
    rewrite Nyx. cbn [gather_loop List.find app dep set_setPos]. rewrite Nzx. cbn [List.find dep set_setPos]. rewrite Nzy. reflexivity.
  - rewrite Lzx. cbn [sink rev app]. unfold gatherSiblings. cbn [gather_loop List.find app dep set_setPos].
    assert (sameAccountSet (dep x) (dep z) = false) as ->.
    { destruct (sameAccountSet (dep x) (dep z)) eqn:E; [|reflexivity]. rewrite <- Nzx. symmetry.
      apply same_iff. apply same_iff in E. congruence. }
    reflexivity.
Qed.

(** ** Concrete candidates *)

Definition demo_deployment (id provider : string) (w : Z) (i : nat) : Deployment :=
  mkDeployment id provider "" "vllm" "m" [] w 0 "f" 0 0 0 0 false 0 0 "" [] ∅ (Z.of_nat i) false false i "g" "".
Definition demo_candidate (d : Deployment) (i : Z) (known : bool) (cost : Z) : candidate :=
  mkCandidate d i [] "" false "" cost known 0 false 0 F64.zero F64.zero false false false 0 (-1) F64.zero 0 0.

Lemma unpriced_hides_cheaper_witness :
  let x := demo_candidate (demo_deployment "a" "p" 1 0) 0 true 10 in
  let y := demo_candidate (demo_deployment "b" "q" 1 1) 1 false 0 in
  let z := demo_candidate (demo_deployment "c" "r" 1 2) 2 true 5 in
  map pure (order [StrategyLowestCost] [x; y; z]) = map pure [x; y; z] /\
  map pure (order [StrategyLowestCost] [x; z]) = map pure [z; x] /\
  compare StrategyLowestCost z x < 0.
Proof.
  intros x y z. apply (unpriced_hides_cheaper x y z); try reflexivity.
Defined.

Lemma order_first_choice_witness :
  let x := demo_candidate (demo_deployment "a" "p" 1 0) 0 true 10 in
  let z := demo_candidate (demo_deployment "c" "p" 1 1) 1 true 5 in
  map pure [pure z; pure x] ≡ₚ map pure [x; z] /\
  exists best, best ∈ [x; z] /\ (forall c, c ∈ [x; z] -> by_chain [StrategyLowestCost] best c <= 0) /\
    sameAccountSet (dep (pure z)) (dep best) = true /\
    (forall c, c ∈ [x; z] -> sameAccountSet (dep c) (dep best) = true -> siblingRank [StrategyLowestCost] (pure z) c <= 0).
Proof.
  intros x z. apply (order_first_choice [StrategyLowestCost] [x; z] (pure z) [pure x]).
  - repeat constructor.
  - cbn. lia.
  - reflexivity.
Defined.
