(* ===== verification/RouterRR.v ===== *)
(** * Weighted round robin is fair

    [assignRR] over a fixed set of candidates: whom it ranks first, how the shared
    counters move, and that over whole cycles everyone is first in proportion to
    its weight. *)
From Stdlib Require Import String.
From stdpp Require Import base gmap list strings.
From Stdlib Require Import ZArith Lia.
From S2P Require Import Prelude F64 Axis GoSort Router RouterOrder.
Open Scope Z_scope.

(** The candidate ranked first. *)
Definition pick (ranked : list candidate) : nat := default 0%nat (fst <$> list_find (fun c => rr c = 0) ranked).

(** [n] selections over the same candidates: who was first, and the counters. *)
Fixpoint rr_run (n : nat) (current : list Z) (cands : list candidate) : list nat * list Z :=
  match n with
  | O => ([], current)
  | S n' =>
      let '(ranked, current) := assignRR current cands in
      let '(picks, current) := rr_run n' current cands in
      (pick ranked :: picks, current)
  end.

Fixpoint sumZ (l : list Z) : Z := match l with [] => 0 | x :: l' => x + sumZ l' end.

Definition weights (cands : list candidate) : list Z := map (fun c => weightOf (dep c)) cands.
Definition counters (current : list Z) (cands : list candidate) : list Z :=
  map (fun c => default 0 (current !! ridx (dep c))) cands.

(** ** One scan *)

(** Over unranked candidates a scan adds every weight and keeps the first greatest. *)
Lemma rr_scan_spec cands : forall cur i best cur' best',
  Forall (fun c => rr c < 0) cands -> length cur = length cands ->
  rr_scan i cands cur best = (cur', best') ->
  cur' = zip_with (fun x c => i64 (x + weightOf (dep c))) cur cands /\
  match best' with
  | None => best = None /\ cands = []
  | Some (b, y) =>
      (best = Some (b, y) \/ (i <= b)%nat /\ cur' !! (b - i)%nat = Some y) /\
      (forall k x, cur' !! k = Some x -> x <= y) /\ (forall b0 y0, best = Some (b0, y0) -> y0 <= y)
  end.
Proof.
  induction cands as [|c cands IH]; intros cur i best cur' best' F L E; cbn [rr_scan] in E.
  { destruct cur; [|discriminate]. inv E. split; [reflexivity|].
    destruct best' as [[b y]|]; [|auto]. split; [left; reflexivity|]. split; [intros k x H; rewrite lookup_nil in H; discriminate|].
    intros b0 y0 [= <- <-]. lia. }
  destruct cur as [|x cur]; [discriminate|]. apply Forall_cons in F as [Hr F]. cbn in L. injection L as L.
  destruct (Z.leb_spec 0 (rr c)); [lia|].
  set (x1 := i64 (x + weightOf (dep c))) in *.
  set (best1 := match best with Some (_, y) => if y <? x1 then Some (i, x1) else best | None => Some (i, x1) end) in *.
  assert (exists b1 y1, best1 = Some (b1, y1) /\ x1 <= y1 /\ (forall b0 y0, best = Some (b0, y0) -> y0 <= y1) /\
            (best = Some (b1, y1) \/ b1 = i /\ y1 = x1)) as (b1 & y1 & E1 & M1 & M2 & O1).
  { subst best1. destruct best as [[b0 y0]|].
    - destruct (Z.ltb_spec y0 x1); [exists i, x1|exists b0, y0]; (split; [reflexivity|]); (split; [lia|]);
        (split; [intros ? ? [= <- <-]; lia|auto]).
    - exists i, x1. split; [reflexivity|]. split; [lia|]. split; [discriminate|auto]. }
  destruct (rr_scan (S i) cands cur best1) as [cur2 best2] eqn:E2. injection E as <- <-.
  destruct (IH _ _ _ _ _ F L E2) as [-> B]. cbn [zip_with]. fold x1. split; [reflexivity|].
  destruct best2 as [[b y]|]; [|destruct B as [B _]; congruence].
  destruct B as (Bo & Bm & Bi). specialize (Bi b1 y1 E1). split; [|split].
  - destruct Bo as [Bo|[Hb Bo]].
    + rewrite E1 in Bo. injection Bo as <- <-. destruct O1 as [O1|[-> ->]]; [left; exact O1|right].
      rewrite Nat.sub_diag. split; [lia|reflexivity].
    + right. split; [lia|]. replace (b - i)%nat with (S (b - S i)) by lia. exact Bo.
  - intros [|k] z Hz; cbn in Hz; [injection Hz as <-; lia|apply (Bm k z Hz)].
  - intros b0 y0 Hb. specialize (M2 b0 y0 Hb). lia.
Qed.

(** A scan never ranks a ranked candidate. *)
Lemma rr_scan_unranked cands : forall cur i best cur' b y,
  rr_scan i cands cur best = (cur', Some (b, y)) ->
  best = Some (b, y) \/ (i <= b)%nat /\ exists c, cands !! (b - i)%nat = Some c /\ rr c < 0.
Proof.
  induction cands as [|c cands IH]; intros cur i best cur' b y E; cbn [rr_scan] in E.
  { destruct cur; inv E; auto. }
  destruct cur as [|x cur]; [inv E; auto|].
  assert (forall bs cur2, rr_scan (S i) cands cur bs = (cur2, Some (b, y)) ->
            bs = Some (b, y) \/ (i <= b)%nat /\ exists c0, (c :: cands) !! (b - i)%nat = Some c0 /\ rr c0 < 0) as Next.
  { intros bs cur2 H. destruct (IH _ _ _ _ _ _ H) as [->|[Hb (c0 & Hc & R)]]; [auto|right]. split; [lia|].
    exists c0. split; [|exact R]. replace (b - i)%nat with (S (b - S i)) by lia. exact Hc. }
  destruct (Z.leb_spec 0 (rr c)).
  { destruct (rr_scan (S i) cands cur best) as [cur2 best2] eqn:E2. injection E as <- ->. eapply Next, E2. }
  set (x1 := i64 (x + weightOf (dep c))) in *.
  destruct (rr_scan (S i) cands cur _) as [cur2 best2] eqn:E2. injection E as <- ->.
  assert (i <= i)%nat as Hi by lia.
  destruct (Next _ _ E2) as [Hb|Hb]; [|auto].
  destruct best as [[b0 y0]|]; [destruct (y0 <? x1); [|auto]|]; injection Hb as <- <-; right; (split; [exact Hi|]);
    exists c; rewrite Nat.sub_diag; auto.
Qed.

(** ** The ranks after the first change nothing shared *)

Definition first_at (b : nat) (cands : list candidate) : Prop :=
  forall i c, cands !! i = Some c -> (rr c = 0 <-> i = b).

Lemma rr_loop_later ranks : forall total cands cur current b out current',
  Forall (fun r => 0 < r)%nat ranks -> first_at b cands ->
  rr_loop ranks total cands cur current = (out, current') ->
  current' = current /\ first_at b out /\ length out = length cands.
Proof.
  induction ranks as [|r ranks IH]; intros total cands cur current b out current' F A E; cbn [rr_loop] in E.
  { inv E. auto. }
  apply Forall_cons in F as [Hr F].
  destruct (rr_scan 0 cands cur None) as [cur2 [[b2 y]|]] eqn:Es; [|inv E; auto].
  destruct (Nat.eqb_spec r 0); [lia|].
  destruct (rr_scan_unranked _ _ _ _ _ _ _ Es) as [H|[_ (c & Hc & R)]]; [discriminate|].
  rewrite Nat.sub_0_r in Hc.
  assert (first_at b (alter (fun c => set_rr c (Z.of_nat r)) b2 cands)) as A2.
  { intros i c0 H0. destruct (decide (i = b2)) as [->|Ni].
    - rewrite list_lookup_alter_eq, Hc in H0. cbn in H0. injection H0 as <-. cbn [rr set_rr].
      split; [lia|]. intros ->. pose proof (proj2 (A b c Hc) eq_refl). lia.
    - rewrite list_lookup_alter_ne in H0 by congruence. apply (A _ _ H0). }
  destruct (IH _ _ _ _ _ _ _ F A2 E) as (-> & A' & L). rewrite length_alter in L. auto.
Qed.

Lemma pick_first b ranked c : ranked !! b = Some c -> first_at b ranked -> pick ranked = b.
Proof.
  intros Hc A. unfold pick. destruct (list_find (fun c => rr c = 0) ranked) as [[i x]|] eqn:E; cbn.
  - apply list_find_Some in E as (Hi & R & _). apply (A _ _ Hi), R.
  - apply list_find_None in E. exfalso. rewrite Forall_lookup in E. apply (E _ _ Hc), (A _ _ Hc). reflexivity.
Qed.

(** ** Sums *)

Lemma sumZ_zip xs ws : length xs = length ws -> sumZ (zip_with Z.add xs ws) = sumZ xs + sumZ ws.
Proof. revert ws. induction xs as [|x xs IH]; intros [|w ws] L; try discriminate; cbn in *; [reflexivity|]. rewrite IH; lia. Qed.

Lemma sumZ_alter l b d : (b < length l)%nat -> sumZ (alter (fun x => x - d) b l) = sumZ l - d.
Proof.
  revert b. induction l as [|x l IH]; intros b L; [cbn in L; lia|]. destruct b as [|b]; cbn in *; [lia|].
  rewrite IH by lia. lia.
Qed.

Lemma sumZ_le l y : Forall (fun x => x <= y) l -> sumZ l <= Z.of_nat (length l) * y.
Proof. induction 1; cbn [sumZ length]; lia. Qed.

Lemma sumZ_ge l d : Forall (fun x => - d <= x) l -> - (Z.of_nat (length l) * d) <= sumZ l.
Proof. induction 1; cbn [sumZ length]; lia. Qed.

Lemma sumZ_bound l d x : 0 <= d -> Forall (fun x => - d <= x) l -> x ∈ l -> x <= sumZ l + Z.of_nat (length l) * d.
Proof.
  intros Hd F H. induction F as [|y l Hy F IH]; [inversion H|]. cbn [sumZ length]. rewrite Nat2Z.inj_succ, Z.mul_succ_l.
  apply elem_of_cons in H as [->|H]; [pose proof (sumZ_ge _ _ F); lia|specialize (IH H); lia].
Qed.

(** ** One selection *)

Lemma weight_pos d : 1 <= weightOf d.
Proof. unfold weightOf. destruct (Z.leb_spec (Weight d) 0); lia. Qed.


(** How often [i] was first. *)
Definition times (i : nat) (picks : list nat) : Z := Z.of_nat (length (filter (eq i) picks)).

(** Over picks in range the counts add up. *)
Lemma times_sum m picks : Forall (fun p => p < m)%nat picks ->
  sumZ (map (fun i => times i picks) (seq 0 m)) = Z.of_nat (length picks).
Proof.
  induction 1 as [|p picks Hp _ IH]; [cbn; induction (seq 0 m); cbn; [reflexivity|assumption]|].
  transitivity (sumZ (map (fun i => times i picks) (seq 0 m)) + 1); [|rewrite IH; cbn [length]; lia]. clear IH.
  assert (NoDup (seq 0 m)) as N by apply NoDup_seq. assert (p ∈ seq 0 m) as Hin by (apply elem_of_seq; lia). clear Hp.
  induction (seq 0 m) as [|i l IHl]; [inversion Hin|]. apply NoDup_cons in N as [Ni N]. cbn [map sumZ].
  assert (times i (p :: picks) = times i picks + if decide (i = p) then 1 else 0) as ->.
  { unfold times. rewrite filter_cons. destruct (decide (i = p)); cbn [length]; lia. }
  destruct (decide (i = p)) as [->|Np].
  - replace (map (fun i => times i (p :: picks)) l) with (map (fun i => times i picks) l); [lia|].
    apply map_ext_in. intros j Hj. unfold times. rewrite filter_cons. apply list_elem_of_In in Hj.
    destruct (decide (j = p)) as [->|]; [contradiction|reflexivity].
  - apply elem_of_cons in Hin as [->|Hin]; [contradiction|]. rewrite (IHl N Hin). lia.
Qed.
(** Ranking does not enter the commit. *)
Lemma commit_set total cands b current :
  rr_commit total (map (fun c => set_rr c (-1)) cands) b current = rr_commit total cands b current.
Proof.
  unfold rr_commit. rewrite list_lookup_fmap.
  assert (forall cu : list Z, foldl (fun cu c => alter (fun x => i64 (x + weightOf (dep c))) (ridx (dep c)) cu) cu
            (map (fun c => set_rr c (-1)) cands)
          = foldl (fun cu c => alter (fun x => i64 (x + weightOf (dep c))) (ridx (dep c)) cu) cu cands) as ->.
  { induction cands as [|c l IH]; intros cu; [reflexivity|]. cbn [map foldl]. apply IH. }
  destruct (cands !! b); reflexivity.
Qed.

Section Fair.
Variable cands : list candidate.
Notation n := (length cands).
Notation W := (sumZ (weights cands)).
Hypothesis some : cands <> [].
Hypothesis distinct : NoDup (map (fun c => ridx (dep c)) cands).
Hypothesis room : (Z.of_nat n + 2) * W < two63.

Lemma weights_spec : Forall (fun w => 1 <= w) (weights cands).
Proof. apply Forall_fmap, Forall_true. intros c. apply weight_pos. Qed.

Lemma W_bounds : Z.of_nat n <= W /\ (forall c, c ∈ cands -> weightOf (dep c) <= W).
Proof.
  pose proof weights_spec as F. unfold weights in *. clear some distinct room.
  induction cands as [|c l IH]; [split; [cbn; lia|intros c H; inversion H]|].
  cbn [map sumZ length] in *. apply Forall_cons in F as [Hw F]. destruct (IH F) as [A B]. split; [lia|].
  intros c0 [->|H]%elem_of_cons; [lia|specialize (B _ H); lia].
Qed.

(** The counters of the candidates sum to nothing and none is a full cycle behind. *)
Record balanced (current : list Z) : Prop := {
  ba_in c : c ∈ cands -> (ridx (dep c) < length current)%nat;
  ba_sum : sumZ (counters current cands) = 0;
  ba_low : Forall (fun x => - W < x) (counters current cands) }.

Lemma total_W : foldl (fun t c => i64 (t + weightOf (dep c))) 0 cands = W.
Proof.
  assert (W < two63) as HW by (destruct W_bounds as [A _]; nia).
  clear some distinct room. revert HW. unfold weights.
  enough (forall l t, 0 <= t -> t + sumZ (map (fun c => weightOf (dep c)) l) < two63 ->
            foldl (fun t c => i64 (t + weightOf (dep c))) t l = t + sumZ (map (fun c => weightOf (dep c)) l)) as H.
  { intros HW. rewrite H; lia. }
  induction l as [|c l IH]; intros t Ht HW; cbn [foldl map sumZ] in *; [lia|].
  pose proof (weight_pos (dep c)).
  assert (0 <= sumZ (map (fun c => weightOf (dep c)) l)) as Hs.
  { clear. induction l as [|c l IH]; cbn; [lia|]. pose proof (weight_pos (dep c)). lia. }
  rewrite i64_id by (widths; lia). rewrite IH; lia.
Qed.

Lemma counters_length current : length (counters current cands) = n.
Proof. apply length_map. Qed.

(** The advanced counters stay in width. *)
Lemma advanced current : balanced current ->
  zip_with (fun x c => i64 (x + weightOf (dep c))) (counters current cands) cands
  = zip_with Z.add (counters current cands) (weights cands).
Proof.
  intros [_ S F]. unfold weights. rewrite zip_with_fmap_r.
  assert (Forall2 (fun x c => i64 (x + weightOf (dep c)) = x + weightOf (dep c)) (counters current cands) cands) as H.
  { apply Forall2_same_length_lookup. split; [apply counters_length|]. intros i x c Hx Hc.
    apply list_elem_of_lookup_2 in Hx, Hc. pose proof (weight_pos (dep c)). destruct W_bounds as [Hn Hw].
    specialize (Hw c Hc).
    assert (x <= 0 + Z.of_nat n * W) as Hb.
    { rewrite <- S, <- (counters_length current). apply sumZ_bound; [lia| |exact Hx].
      eapply Forall_impl; [exact F|]. cbn. lia. }
    rewrite Forall_forall in F. specialize (F _ Hx). apply i64_id. widths. nia. }
  clear -H. induction H as [|x c xs cs E H IH]; [reflexivity|]. cbn. rewrite E, IH. reflexivity.
Qed.

(** What one selection commits. *)
Lemma commit_lookup total b current j :
  rr_commit total cands b current !! j =
  (fun x => if decide ((fun c => ridx (dep c)) <$> cands !! b = Some j) then i64 (x - total) else x) <$>
  (foldl (fun cu c => alter (fun x => i64 (x + weightOf (dep c))) (ridx (dep c)) cu) current cands !! j).
Proof.
  unfold rr_commit. set (cu := foldl _ current cands). clearbody cu.
  destruct (cands !! b) as [c|].
  - destruct (decide (ridx (dep c) = j)) as [<-|N].
    + rewrite list_lookup_alter_eq. cbn. destruct (decide _) as [|X]; [reflexivity|destruct X; reflexivity].
    + rewrite list_lookup_alter_ne by exact N. cbn. destruct (decide _) as [X|_]; [congruence|].
      destruct (cu !! j); reflexivity.
  - cbn. destruct (decide _) as [X|_]; [discriminate|]. destruct (cu !! j); reflexivity.
Qed.

Lemma added_lookup current : (forall c, c ∈ cands -> (ridx (dep c) < length current)%nat) ->
  forall c, c ∈ cands ->
  foldl (fun cu c => alter (fun x => i64 (x + weightOf (dep c))) (ridx (dep c)) cu) current cands !! ridx (dep c)
  = (fun x => i64 (x + weightOf (dep c))) <$> current !! ridx (dep c).
Proof.
  clear some room. revert current distinct. induction cands as [|c0 l IH]; intros current D In c Hc; [inversion Hc|].
  cbn [map] in D. apply NoDup_cons in D as [N D]. cbn [foldl].
  assert (forall (l0 : list candidate) (cu : list Z) j, j ∉ map (fun c => ridx (dep c)) l0 ->
    foldl (fun cu c => alter (fun x => i64 (x + weightOf (dep c))) (ridx (dep c)) cu) cu l0 !! j = cu !! j) as Skip.
  { induction l0 as [|c1 l0 IH0]; intros cu j Hj; [reflexivity|]. cbn [foldl map] in *.
    apply not_elem_of_cons in Hj as [N1 Hj]. rewrite IH0 by exact Hj. apply list_lookup_alter_ne. congruence. }
  apply elem_of_cons in Hc as [->|Hc].
  - rewrite Skip by exact N. apply list_lookup_alter_eq.
  - rewrite IH; [|exact D| |exact Hc].
    + f_equal. apply list_lookup_alter_ne. intros E. apply N. rewrite E. apply (list_elem_of_fmap_2 (fun c => ridx (dep c))), Hc.
    + intros c1 H1. rewrite length_alter. apply In. right. exact H1.
Qed.

Lemma commit_length total b current : length (rr_commit total cands b current) = length current.
Proof.
  unfold rr_commit.
  assert (forall (l : list candidate) (cu : list Z), length (foldl (fun cu c => alter (fun x => i64 (x + weightOf (dep c))) (ridx (dep c)) cu) cu l) = length cu) as H.
  { induction l as [|c l IH]; intros cu; [reflexivity|]. cbn [foldl]. rewrite IH, length_alter. reflexivity. }
  destruct (cands !! b); rewrite ?length_alter, H; reflexivity.
Qed.

(** The counters after the commit. *)
Lemma committed current b y : balanced current ->
  zip_with Z.add (counters current cands) (weights cands) !! b = Some y -> y <= (Z.of_nat n + 1) * W -> 0 < y ->
  counters (rr_commit W cands b current) cands
  = alter (fun x => x - W) b (zip_with Z.add (counters current cands) (weights cands)).
Proof.
  intros B Hb Hy Hp. pose proof (advanced _ B) as Adv. destruct B as [In S F]. apply list_eq. intros i.
  unfold counters at 1. rewrite list_lookup_fmap.
  destruct (cands !! i) as [c|] eqn:Hc.
  2: { symmetry. apply lookup_ge_None. rewrite length_alter, length_zip_with, counters_length. unfold weights.
       rewrite length_map. apply lookup_ge_None in Hc. lia. }
  cbn [fmap option_fmap option_map]. assert (c ∈ cands) as Hin by (eapply list_elem_of_lookup_2, Hc).
  rewrite commit_lookup, added_lookup by assumption.
  destruct (lookup_lt_is_Some_2 current (ridx (dep c)) (In c Hin)) as [x Hx]. rewrite Hx. cbn [fmap option_fmap option_map default].
  assert (counters current cands !! i = Some x) as Hi.
  { unfold counters. rewrite list_lookup_fmap, Hc. cbn. rewrite Hx. reflexivity. }
  assert (zip_with Z.add (counters current cands) (weights cands) !! i = Some (x + weightOf (dep c))) as Hz.
  { rewrite lookup_zip_with, Hi. unfold weights. rewrite list_lookup_fmap, Hc. reflexivity. }
  assert (i64 (x + weightOf (dep c)) = x + weightOf (dep c)) as Ei.
  { rewrite <- Adv in Hz. rewrite lookup_zip_with, Hi, Hc in Hz. cbn in Hz. congruence. }
  rewrite Ei. destruct (decide (i = b)) as [->|Ni].
  - destruct (decide _) as [_|X]; [|destruct X; rewrite Hc; reflexivity]. rewrite list_lookup_alter_eq, Hb. rewrite Hb in Hz.
    injection Hz as ->. cbn. f_equal. apply i64_id. destruct W_bounds as [A _]. widths. nia.
  - destruct (decide _) as [E|_].
    + exfalso. apply Ni. eapply (NoDup_lookup _ _ _ (ridx (dep c)) distinct); rewrite list_lookup_fmap; [|exact E].
      rewrite Hc. reflexivity.
    + rewrite list_lookup_alter_ne by congruence. rewrite Hz. reflexivity.
Qed.

(** A selection: someone is first, the counters of all advance by their weight
    and that one's falls by the total. *)
Lemma assignRR_step current ranked current' : balanced current -> assignRR current cands = (ranked, current') ->
  (pick ranked < n)%nat /\ balanced current' /\ length current' = length current /\
  counters current' cands
  = alter (fun x => x - W) (pick ranked) (zip_with Z.add (counters current cands) (weights cands)).
Proof.
  intros B E. pose proof (advanced _ B) as Adv. unfold assignRR in E. rewrite total_W in E.
  fold (counters current cands) in E. 
  assert (seq 0 n = 0%nat :: seq 1 (n - 1)) as Sq.
  { clear -some. destruct cands; [done|]. cbn [length]. rewrite Nat.sub_succ, Nat.sub_0_r. reflexivity. }
  rewrite Sq in E. cbn [rr_loop] in E.
  assert (Forall (fun c => rr c < 0) (map (fun c => set_rr c (-1)) cands)) as Fr by (apply Forall_fmap, Forall_true; intros c; cbn; lia).
  destruct (rr_scan 0 (map (fun c => set_rr c (-1)) cands) (counters current cands) None) as [cur1 best1] eqn:Es.
  assert (length (counters current cands) = length (map (fun c => set_rr c (-1)) cands)) as Lc.
  { rewrite length_map. apply counters_length. }
  destruct (rr_scan_spec _ _ _ _ _ _ Fr Lc Es) as [Ec Hbest].
  rewrite zip_with_fmap_r in Ec. cbn [dep set_rr] in Ec. rewrite Adv in Ec.
  destruct best1 as [[b y]|]; [|destruct Hbest as [_ Hn]; destruct cands; done].
  destruct Hbest as ([Hb|[_ Hb]] & Hmax & _); [discriminate|]. rewrite Nat.sub_0_r, Ec in Hb. rewrite Ec in Hmax.
  set (zs := zip_with Z.add (counters current cands) (weights cands)) in *.
  assert (length zs = n) as Lz.
  { subst zs. rewrite length_zip_with, counters_length. unfold weights. rewrite length_map. lia. }
  assert (b < n)%nat as Lb by (rewrite <- Lz; eapply lookup_lt_Some, Hb).
  destruct W_bounds as [HnW HwW].
  assert (sumZ zs = W) as Sz.
  { subst zs. rewrite sumZ_zip, (ba_sum _ B); [lia|]. rewrite counters_length. unfold weights. rewrite length_map. reflexivity. }
  assert (0 < y) as Hy.
  { assert (Forall (fun x => x <= y) zs) as F by (apply Forall_lookup; exact Hmax).
    apply sumZ_le in F. rewrite Sz, Lz in F. nia. }
  assert (forall x i, zs !! i = Some x -> - W < x /\ x <= (Z.of_nat n + 1) * W) as Hzs.
  { intros x i Hx. subst zs. rewrite lookup_zip_with in Hx. destruct (counters current cands !! i) as [u|] eqn:Hu; [|discriminate].
    unfold weights in Hx. rewrite list_lookup_fmap in Hx. destruct (cands !! i) as [c|] eqn:Hc; [|discriminate].
    cbn in Hx. injection Hx as <-. apply list_elem_of_lookup_2 in Hu, Hc. specialize (HwW _ Hc). pose proof (weight_pos (dep c)).
    pose proof (ba_low _ B) as F.
    assert (u <= 0 + Z.of_nat n * W) as Hub.
    { rewrite <- (ba_sum _ B), <- (counters_length current). apply sumZ_bound; [lia| |exact Hu].
      eapply Forall_impl; [exact F|]. cbn. lia. }
    rewrite Forall_forall in F. specialize (F _ Hu). nia. }
  pose proof (committed current b y B Hb (proj2 (Hzs _ _ Hb)) Hy) as Ecom. fold zs in Ecom.
  assert (first_at b (alter (fun c => set_rr c (Z.of_nat 0)) b (map (fun c => set_rr c (-1)) cands))) as A0.
  { intros i c Hc. destruct (decide (i = b)) as [->|Ni].
    - rewrite list_lookup_alter_eq, list_lookup_fmap in Hc. destruct (cands !! b); [|discriminate].
      cbn in Hc. injection Hc as <-. cbn. split; auto.
    - rewrite list_lookup_alter_ne, list_lookup_fmap in Hc by congruence. destruct (cands !! i); [|discriminate].
      cbn in Hc. injection Hc as <-. cbn. split; [lia|congruence]. }
  apply (rr_loop_later _ _ _ _ _ b) in E as (-> & A & Lr); [|apply Forall_seq; lia|exact A0].
  assert (exists c, ranked !! b = Some c) as [c Hc].
  { apply lookup_lt_is_Some_2. rewrite Lr, length_alter, length_map. exact Lb. }
  rewrite (pick_first b ranked c Hc A). cbn [Nat.eqb]. rewrite commit_set.
  split; [exact Lb|]. split; [|split; [apply commit_length|exact Ecom]]. split.
  - intros c0 H0. rewrite commit_length. apply (ba_in _ B), H0.
  - rewrite Ecom, sumZ_alter, Sz by lia. lia.
  - rewrite Ecom. apply Forall_lookup. intros i x Hx. destruct (decide (i = b)) as [->|Ni].
    + rewrite list_lookup_alter_eq, Hb in Hx. cbn in Hx. injection Hx as <-. lia.
    + rewrite list_lookup_alter_ne in Hx by congruence. apply (Hzs _ _ Hx).
Qed.

(** ** Many selections *)

Lemma rr_run_counters k : forall current picks current', balanced current -> rr_run k current cands = (picks, current') ->
  balanced current' /\ length picks = k /\ Forall (fun p => p < n)%nat picks /\
  (forall i x w, counters current cands !! i = Some x -> weights cands !! i = Some w ->
     counters current' cands !! i = Some (x + Z.of_nat k * w - W * times i picks)).
Proof.
  induction k as [|k IH]; intros current picks current' B E; cbn [rr_run] in E.
  { injection E as <- <-. split; [exact B|]. split; [reflexivity|]. split; [constructor|]. intros i x w Hx _. rewrite Hx. f_equal. change (times i []) with 0. lia. }
  destruct (assignRR current cands) as [ranked cur1] eqn:Ea. destruct (rr_run k cur1 cands) as [ps cur2] eqn:Er.
  injection E as <- <-. destruct (assignRR_step _ _ _ B Ea) as (Lp & B1 & _ & Ec).
  destruct (IH _ _ _ B1 Er) as (B2 & Lk & F2 & H2). split; [exact B2|]. split; [cbn; congruence|].
  split; [constructor; assumption|]. intros i x w Hx Hw.
  assert (counters cur1 cands !! i = Some (x + w - if decide (i = pick ranked) then W else 0)) as H1.
  { rewrite Ec. destruct (decide (i = pick ranked)) as [<-|N].
    - rewrite list_lookup_alter_eq, lookup_zip_with, Hx, Hw. reflexivity.
    - rewrite list_lookup_alter_ne, lookup_zip_with, Hx, Hw by congruence. cbn. f_equal. lia. }
  rewrite (H2 _ _ _ H1 Hw). f_equal. unfold times. rewrite filter_cons.
  destruct (decide (i = pick ranked)); cbn [length]; lia.
Qed.

End Fair.

Lemma sums_equal xs ys : Forall2 Z.le xs ys -> sumZ xs = sumZ ys -> xs = ys.
Proof.
  induction 1 as [|x y xs ys L F IH]; intros E; [reflexivity|]. cbn [sumZ] in E.
  assert (sumZ xs <= sumZ ys) as Ls.
  { clear -F. induction F; cbn; lia. }
  f_equal; [lia|apply IH; lia].
Qed.

Lemma sumZ_scale m xs : sumZ (map (fun x => m * x) xs) = m * sumZ xs.
Proof. induction xs as [|x xs IH]; cbn; lia. Qed.


