(* ===== verification/RouterRoute.v ===== *)
(** * Routing one request ([internal/router/router.go], [request.go])

    The pipeline of [Route]: the candidates of the attempt, the filter with its
    refusals, the scores, the order, the walk that takes the first reservation it
    can, and the decision; [Report], which closes an attempt; and the session that
    joins the attempts of one request.

    The subsystems the router composes are behind [Subsystems], a state and its
    operations; what they promise to it is [SubsystemLaws]. Messages for people
    are left out of [Error]. *)
From Stdlib Require Import String.
From stdpp Require Import base gmap list strings.
From Stdlib Require Import ZArith Lia.
From S2P Require Import Prelude GoTime F64 Axis GoSort Router.
Open Scope Z_scope.

(** ** Capabilities ([internal/canonical/capability.go]) *)

Definition cap_bit (i : Z) : Z := Z.shiftl 1 i.
(** [CapLogprobs], [CapMultipleChoices], [CapStopSequences], [CapServiceTier]. *)
Definition Material : Z := Eval cbv in Z.lor (cap_bit 14) (Z.lor (cap_bit 17) (Z.lor (cap_bit 21) (cap_bit 22))).
(** The ten shapes, [CapMultiBlockContent] to [CapJSONSchema], and [Material]. *)
Definition Structural_mask : Z := Eval cbv in Z.lor (Z.ones 10) Material.
(** [CapParallelToolCalls], [CapReasoningControl], [CapSeed], [CapLogitBias],
    [CapPenalties], [CapTopK], [CapPriority], [CapMetadata], [CapUser]. *)
Definition Droppable_mask : Z := Eval cbv in
  foldr (fun i m => Z.lor (cap_bit i) m) 0 [10; 11; 12; 13; 15; 16; 18; 19; 20].

Definition Has (c want : Z) : bool := Z.land c want =? want.
Definition Missing (c want : Z) : Z := Z.ldiff want c.
Definition Structural (c : Z) : Z := Z.land c Structural_mask.
Definition Droppable (c : Z) : Z := Z.land c Droppable_mask.

(** ** Requests *)

Inductive PinStrength : Type := Preferred | Pinned.
Record Pin : Type := mkPin {
  pinKind : string; Strength : PinStrength; pinFamily : string; pinCredential : string; pinDeployment : string }.

Record Request : Type := mkRequest {
  qModel : string; Principal : string; Tenant : string; qSession : string;
  Required : Z; AllowLossy : Z; Pins : list Pin; Digests : list (list Z);
  PriorityClass : string; PriorityHint : option Z; qPrincipalMax : Z;
  InputTokens : Z; InputTokensExact : bool; InputTokensMethod : string; qMaxOutput : Z;
  Stream : bool; qBatch : bool }.

(** [pins]; [hard] says whether a Pinned entry was seen, [kind] is its kind. *)
Record pins : Type := mkPins {
  pfamily : string; pcredential : string; pdeployment : string;
  softCredential : string; softDeployment : string; pkind : string; hard : bool }.

Definition or_first (old new : string) : string := if String.eqb old "" then new else old.

Definition resolve_one (p : pins) (x : Pin) : pins :=
  match Strength x with
  | Pinned =>
      mkPins (or_first (pfamily p) (pinFamily x)) (or_first (pcredential p) (pinCredential x))
        (or_first (pdeployment p) (pinDeployment x)) (softCredential p) (softDeployment p)
        (if hard p then pkind p else pinKind x) true
  | Preferred =>
      mkPins (pfamily p) (pcredential p) (pdeployment p) (or_first (softCredential p) (pinCredential x))
        (or_first (softDeployment p) (pinDeployment x)) (pkind p) (hard p)
  end.
Definition resolvePins (l : list Pin) : pins := foldl resolve_one (mkPins "" "" "" "" "" "" false) l.

(** ** Sessions, errors, decisions *)

(** [lastErr], the error kept for nobody, is left out. *)
Record sessionState : Type := mkSession {
  started : Z; tried : list string; digests : list (list Z); cause : Cause; sfailed : bool;
  firstByte : bool; reported : bool; attempts : Z; lastWindow : Z; resetAt : Z;
  stickyAt : stickyKey; stickySet : bool }.

Definition newSession (now : Z) : sessionState :=
  mkSession now [] [] CauseNone false false false 0 0 Time.zeroTime ("", "", "") false.

Record Error : Type := mkError {
  Status : Z; Code : string; eCause : Cause; Constructs : Z; ePin : string; eFamily : string;
  eCredential : string; eResetAt : Z; eAttempt : Z; Estimated : bool; EstimateMethod : string; terminal : bool }.

Definition error (status : Z) (code : string) (c : Cause) (attempt : Z) (reset : Z) (term : bool) : Error :=
  mkError status code c 0 "" "" "" reset attempt false "" term.

Definition CodeModelNotFound : string := "model_not_found".
Definition CodeUnsupportedConstruct : string := "unsupported_construct".
Definition CodeStatePinUnroutable : string := "state_pin_unroutable".
Definition CodeCredentialPinLost : string := "credential_pin_unroutable".
Definition CodeCredentialExhausted : string := "credential_pin_exhausted".
Definition CodeCredentialSaturated : string := "credential_pin_saturated".
Definition CodeContextWindow : string := "context_length_exceeded".
Definition CodeQuotaExhausted : string := "insufficient_quota".
Definition CodeOutputCeiling : string := "max_tokens_exceeded".
Definition CodeNoCapacity : string := "capacity_unavailable".
Definition CodeNoCandidate : string := "no_healthy_deployment".
Definition CodeFallbackExhausted : string := "fallback_exhausted".
Definition CodeHopsExhausted : string := "max_hops_exhausted".
Definition CodeBudgetElapsed : string := "fallback_budget_elapsed".
Definition CodeStreamCommitted : string := "stream_committed".
Definition CodeNotChainable : string := "not_a_fallback_condition".

Definition statusFor (c : Cause) : Z :=
  match c with
  | CauseRateLimit | CauseQuotaExhausted => 429
  | CauseAuth => 401
  | CauseBudgetExceeded => 402
  | CauseContextWindow | CauseContentPolicy | CauseBadRequest => 400
  | CauseTimeout => 504
  | _ => 503
  end.

(** The static part of [Router], compiled by [New]. *)
Record Router : Type := mkRouter {
  Aliases : gmap string string; groups : gmap string Group; classes : gmap string (list Group);
  byID : gmap string Deployment; chains : Cause -> list Target;
  rStrategy : list Strategy; rRotation : option Rotation; MaxHops : Z; Budget : Z;
  AuthCooldown : Z; RateLimitCooldown : Z; RateLimitCooldownMax : Z;
  rPriority : PriorityConfig; OnCapacity : Axis.OnCapacity; PinnedWait : Z; usesPrefix : bool }.

Definition Resolve (r : Router) (name : string) : string * bool :=
  let name := match Aliases r !! name with Some t => t | None => name end in
  (name, bool_decide (is_Some (groups r !! name))).

Definition group (r : Router) (name : string) : option Group :=
  groups r !! (match Aliases r !! name with Some t => t | None => name end).

(** [canFallBack]: every boundary a fail-back has. *)
Definition canFallBack (r : Router) (st : sessionState) (now : Z) : option Error :=
  let attempt := attempts st + 1 in
  if negb (reported st) then Some (error 500 "attempt_not_reported" CauseNone attempt Time.zeroTime true)
  else if negb (sfailed st) then Some (error 500 "attempt_succeeded" CauseNone attempt Time.zeroTime true)
  else if firstByte st then Some (error 500 CodeStreamCommitted (cause st) attempt Time.zeroTime true)
  else if negb (Chainable (cause st)) then
    Some (error (statusFor (cause st)) CodeNotChainable (cause st) attempt (resetAt st) true)
  else if (length (chains r (cause st)) =? 0)%nat then
    Some (error (statusFor (cause st)) CodeNotChainable (cause st) attempt (resetAt st) true)
  else if (MaxHops r <=? 0) || (MaxHops r <? attempts st) then
    Some (error (statusFor (cause st)) CodeHopsExhausted (cause st) attempt (resetAt st) true)
  else if (0 <? Budget r) && negb (Time.Before now (Time.Add (started st) (Budget r))) then
    Some (error (statusFor (cause st)) CodeBudgetElapsed (cause st) attempt (resetAt st) true)
  else None.

Definition appendLarger (ds : list Deployment) (larger : bool) (floor : Z) : list Deployment :=
  List.filter (fun d => negb (larger && ((ContextWindow d =? 0) || (ContextWindow d <=? floor)))) ds.

Definition universe (r : Router) (g : Group) (st : sessionState) (c : Cause) : list Deployment :=
  match c with
  | CauseNone => gDeployments g
  | _ =>
      let chain := chains r c in
      let hop := attempts st - 1 in
      let hop := if Z.of_nat (length chain) <=? hop then Z.of_nat (length chain) - 1 else hop in
      let hop := if hop <? 0 then 0 else hop in
      match chain !! Z.to_nat hop with
      | Some TargetSameGroup => gDeployments g
      | Some t =>
          let larger := match t with TargetSameClassLarger => true | _ => false end in
          if String.eqb (gClass g) "" then appendLarger (gDeployments g) larger (lastWindow st)
          else flat_map (fun m => appendLarger (gDeployments m) larger (lastWindow st)) (default [] (classes r !! gClass g))
      | None => []
      end
  end.

Definition defaultOutputShare : Z := 4.

Definition outputReserve (asked declared window : Z) : Z :=
  if 0 <? asked then asked
  else if declared <=? 0 then 0
  else
    let limit := go_quot window defaultOutputShare in
    if (0 <? window) && (limit <? declared) then limit else declared.

Definition stickyKeyFor (enabled : bool) (req : Request) (g : Group) : stickyKey :=
  if negb enabled || String.eqb (qSession req) "" then ("", "", "")
  else (Tenant req, gName g, qSession req).

(** ** The subsystems *)

(** Why a blocking acquisition failed: the context of the request ended, the
    wait was over or the queue full, or something else. *)
Inductive waitError : Type := WaitContext | WaitRefused | WaitOther.

(** The outcome of an attempt as [Report] reads it. [ErrBudget] and
    [ErrDeadline] say what [errors.Is] finds in the error. *)
Record Outcome : Type := mkOutcome {
  HasErr : bool; ErrBudget : bool; ErrDeadline : bool; oStatus : Z; oCause : Cause;
  FirstByteSent : bool; oTTFT : Z; oTotal : Z; OutputTokens : Z; RetryAfter : Z; oResetAt : Z }.

(** [S] is the state of all subsystems, [R] a reservation. *)
Class Subsystems (S R : Type) : Type := {
  Allow : S -> string -> Z -> S * bool;
  HealthReport : S -> string -> bool -> Outcome -> Z -> S;
  MarkUnavailable : S -> string -> Z -> Z -> S;
  MarkRateLimited : S -> string -> Z -> Z -> Z -> S;
  TTFT : S -> string -> S * Z;
  TokensPerSec : S -> string -> S * F64.t;
  LastSuccess : S -> string -> S * Z;
  TryAcquire : S -> Axis.Request -> Z -> S * option R;
  AcquireWait : S -> Axis.Request -> Z -> Z -> S * result waitError R;
  CredentialID : R -> string;
  Release : S -> R -> Z -> S;
  WaitBudget : string -> Z;
  InUse : S -> axisKey -> option Z;
  LeastUsedKey : S -> string -> list Candidate -> string;
  QuotaCheck : S -> string -> Z -> S * (bool * Z);
  QuotaFill : S -> string -> Z -> S;
  PrefixLookup : S -> list (list Z) -> (Z -> bool) -> Z -> S * option (Z * Z);
  PrefixRecord : S -> list (list Z) -> Z -> Z -> S;
  PrefixTTLs : S -> list Z -> S;
  (** [Price]: nothing on an error, else whether the price is missing, and the
      marginal cost. *)
  Price : S -> Deployment -> string -> Z -> Z -> Z -> option (bool * Z);
  hasPricing : bool;
  Urgency : S -> string -> F64.t -> Z -> F64.t;
  hasUrgency : bool;
  Rand : S -> S * F64.t;
  minusLog : F64.t -> F64.t }.

(** What the broker promises: a reservation names one of the candidates it was
    asked for, and no credential when it was asked for none. *)
Definition names_candidate (q : Axis.Request) (cred : string) : Prop :=
  cred ∈ map ID (Candidates q) \/ (Candidates q = [] /\ cred = "").

Class SubsystemLaws (S R : Type) `{Subsystems S R} : Prop := {
  TryAcquire_names s q now s' res : TryAcquire s q now = (s', Some res) -> names_candidate q (CredentialID res);
  AcquireWait_names s q wait now s' res : AcquireWait s q wait now = (s', Ok res) -> names_candidate q (CredentialID res) }.

(** ** Scores of a candidate *)

Definition set_prefix (c : candidate) (depth : Z) : candidate :=
  mkCandidate (dep c) (idx c) (creds c) (preferred c) (pinned c) (costCred c) (costNano c) (costKnown c)
    (busy c) (busyKnown c) (ttft c) (tps c) (urgency c) (urgencyKnown c) (sticky c) true
    depth (rr c) (wr c) (lastOK c) (setPos c).
Definition set_sticky (c : candidate) (b : bool) : candidate :=
  mkCandidate (dep c) (idx c) (creds c) (preferred c) (pinned c) (costCred c) (costNano c) (costKnown c)
    (busy c) (busyKnown c) (ttft c) (tps c) (urgency c) (urgencyKnown c) b (prefixHit c)
    (prefixDepth c) (rr c) (wr c) (lastOK c) (setPos c).
Definition set_cost (c : candidate) (cred : string) (nano : Z) : candidate :=
  mkCandidate (dep c) (idx c) (creds c) (preferred c) (pinned c) cred nano true
    (busy c) (busyKnown c) (ttft c) (tps c) (urgency c) (urgencyKnown c) (sticky c) (prefixHit c)
    (prefixDepth c) (rr c) (wr c) (lastOK c) (setPos c).
Definition set_busy (c : candidate) (n : option Z) : candidate :=
  mkCandidate (dep c) (idx c) (creds c) (preferred c) (pinned c) (costCred c) (costNano c) (costKnown c)
    (default 0 n) (bool_decide (is_Some n)) (ttft c) (tps c) (urgency c) (urgencyKnown c) (sticky c) (prefixHit c)
    (prefixDepth c) (rr c) (wr c) (lastOK c) (setPos c).
Definition set_ttft (c : candidate) (d : Z) : candidate :=
  mkCandidate (dep c) (idx c) (creds c) (preferred c) (pinned c) (costCred c) (costNano c) (costKnown c)
    (busy c) (busyKnown c) d (tps c) (urgency c) (urgencyKnown c) (sticky c) (prefixHit c)
    (prefixDepth c) (rr c) (wr c) (lastOK c) (setPos c).
Definition set_tps (c : candidate) (x : F64.t) : candidate :=
  mkCandidate (dep c) (idx c) (creds c) (preferred c) (pinned c) (costCred c) (costNano c) (costKnown c)
    (busy c) (busyKnown c) (ttft c) x (urgency c) (urgencyKnown c) (sticky c) (prefixHit c)
    (prefixDepth c) (rr c) (wr c) (lastOK c) (setPos c).
Definition set_lastOK (c : candidate) (t : Z) : candidate :=
  mkCandidate (dep c) (idx c) (creds c) (preferred c) (pinned c) (costCred c) (costNano c) (costKnown c)
    (busy c) (busyKnown c) (ttft c) (tps c) (urgency c) (urgencyKnown c) (sticky c) (prefixHit c)
    (prefixDepth c) (rr c) (wr c) t (setPos c).
Definition set_urgency (c : candidate) (u : F64.t) : candidate :=
  mkCandidate (dep c) (idx c) (creds c) (preferred c) (pinned c) (costCred c) (costNano c) (costKnown c)
    (busy c) (busyKnown c) (ttft c) (tps c) u true (sticky c) (prefixHit c)
    (prefixDepth c) (rr c) (wr c) (lastOK c) (setPos c).
Definition set_wr (c : candidate) (x : F64.t) : candidate :=
  mkCandidate (dep c) (idx c) (creds c) (preferred c) (pinned c) (costCred c) (costNano c) (costKnown c)
    (busy c) (busyKnown c) (ttft c) (tps c) (urgency c) (urgencyKnown c) (sticky c) (prefixHit c)
    (prefixDepth c) (rr c) x (lastOK c) (setPos c).

(** The credential a candidate is priced and scored on. *)
Definition serving (c : candidate) : string :=
  if String.eqb (preferred c) "" then match creds c with x :: _ => ID x | [] => "" end else preferred c.

Definition occupancy (n : Z) (cs : list Candidate) : F64.t :=
  let limit := foldl (fun l c => if l <? MaxConcurrent c then MaxConcurrent c else l) 0 cs in
  if limit <=? 0 then F64.zero
  else if limit <=? n then F64.one
  else F64.div (F64.of_Z n) (F64.of_Z limit).

Fixpoint mark_first (f : candidate -> bool) (g : candidate -> candidate) (cands : list candidate) : list candidate :=
  match cands with
  | [] => []
  | c :: cands' => if f c then g c :: cands' else c :: mark_first f g cands'
  end.

(** A pass over the candidates that threads a state. *)
Fixpoint pass {X} (f : X -> candidate -> X * candidate) (x : X) (cands : list candidate) : X * list candidate :=
  match cands with
  | [] => (x, [])
  | c :: cands' =>
      let '(x, c) := f x c in
      let '(x, cs) := pass f x cands' in (x, c :: cs)
  end.

(** ** The filter *)

(** What the filter counts, and the quota reset it remembers. *)
Record tally : Type := mkTally {
  capUnion : Z; nFamily : Z; nCap : Z; nCtx : Z; nOut : Z; nQuota : Z; nTried : Z;
  largest : Z; largestOut : Z; quotaReset : Z; quotaCred : string }.
Definition no_tally : tally := mkTally 0 0 0 0 0 0 0 0 0 Time.zeroTime "".

Definition with_reset (t : tally) (reset : Z) (cred : string) : tally :=
  mkTally (capUnion t) (nFamily t) (nCap t) (nCtx t) (nOut t) (nQuota t) (nTried t) (largest t) (largestOut t) reset cred.
Definition with_union (t : tally) (c : Z) : tally :=
  mkTally (Z.lor (capUnion t) c) (nFamily t) (nCap t) (nCtx t) (nOut t) (nQuota t) (nTried t) (largest t) (largestOut t)
    (quotaReset t) (quotaCred t).
Definition count_tried (t : tally) : tally :=
  mkTally (capUnion t) (nFamily t) (nCap t) (nCtx t) (nOut t) (nQuota t) (nTried t + 1) (largest t) (largestOut t)
    (quotaReset t) (quotaCred t).
Definition count_family (t : tally) : tally :=
  mkTally (capUnion t) (nFamily t + 1) (nCap t) (nCtx t) (nOut t) (nQuota t) (nTried t) (largest t) (largestOut t)
    (quotaReset t) (quotaCred t).
Definition count_cap (t : tally) : tally :=
  mkTally (capUnion t) (nFamily t) (nCap t + 1) (nCtx t) (nOut t) (nQuota t) (nTried t) (largest t) (largestOut t)
    (quotaReset t) (quotaCred t).
Definition count_out (t : tally) (ceiling : Z) : tally :=
  mkTally (capUnion t) (nFamily t) (nCap t) (nCtx t) (nOut t + 1) (nQuota t) (nTried t) (largest t)
    (if largestOut t <? ceiling then ceiling else largestOut t) (quotaReset t) (quotaCred t).
Definition count_ctx (t : tally) (window : Z) : tally :=
  mkTally (capUnion t) (nFamily t) (nCap t) (nCtx t + 1) (nOut t) (nQuota t) (nTried t)
    (if largest t <? window then window else largest t) (largestOut t) (quotaReset t) (quotaCred t).
Definition count_quota (t : tally) : tally :=
  mkTally (capUnion t) (nFamily t) (nCap t) (nCtx t) (nOut t) (nQuota t + 1) (nTried t) (largest t) (largestOut t)
    (quotaReset t) (quotaCred t).

(** Why a filter with nothing left refuses, the most specific reason first. *)
Definition refusal (req : Request) (p : pins) (need : Z) (t : tally) : Error :=
  if hard p then
    if String.eqb (pcredential p) "" then
      mkError 400 CodeStatePinUnroutable CauseNone 0 (pkind p) (pfamily p) (pcredential p) Time.zeroTime 0 false "" true
    else if negb (Time.IsZero (quotaReset t)) && String.eqb (quotaCred t) (pcredential p) then
      mkError 429 CodeCredentialExhausted CauseNone 0 (pkind p) (pfamily p) (pcredential p) (quotaReset t) 0 false "" true
    else
      mkError 400 CodeCredentialPinLost CauseNone 0 (pkind p) (pfamily p) (pcredential p) Time.zeroTime 0 false "" true
  else if (0 <? nCap t) && (nFamily t =? 0) && (nCtx t =? 0) && (nQuota t =? 0) then
    mkError 400 CodeUnsupportedConstruct CauseNone (Missing (capUnion t) need) "" "" "" Time.zeroTime 0 false "" true
  else if (0 <? nOut t) && (nCap t =? 0) && (nCtx t =? 0) && (nQuota t =? 0) then
    error 400 CodeOutputCeiling CauseContextWindow 0 Time.zeroTime false
  else if (0 <? nCtx t) && (nQuota t =? 0) && (nCap t =? 0) then
    mkError 400 CodeContextWindow CauseContextWindow 0 "" "" "" Time.zeroTime 0
      (negb (InputTokensExact req)) (InputTokensMethod req) false
  else if 0 <? nQuota t then
    mkError 429 CodeQuotaExhausted CauseQuotaExhausted 0 "" "" (quotaCred t) (quotaReset t) 0 false "" false
  else if 0 <? nTried t then error 503 CodeFallbackExhausted CauseNone 0 Time.zeroTime true
  else error 429 CodeNoCandidate CauseNone 0 Time.zeroTime false.

(** ** Reasons ([reason.go]) *)

Definition ReasonOnlyCandidate : string := "only_candidate".
Definition ReasonSticky : string := "sticky".
Definition ReasonPinned : string := "pinned".
Definition ReasonConfigOrder : string := "config_order".
Definition ReasonActiveAccount : string := "active_account".

(** [itoa]: the digits of [n], least significant first, onto [acc]. Twenty digits
    hold every [int]. *)
Fixpoint itoa_loop (k : nat) (n : Z) (acc : string) : string :=
  match k with
  | O => acc
  | S k' => if 0 <? n then itoa_loop k' (n / 10) (String (Ascii.ascii_of_N (Z.to_N (48 + n mod 10))) acc) else acc
  end.
Definition itoa (n : Z) : string := if n =? 0 then "0" else itoa_loop 20 n "".

(** [prefix.MaxDepth]. *)
Definition MaxDepth : Z := 24.

Definition prefixHitReason (depth : Z) : string :=
  if (depth <? 0) || (MaxDepth + 1 <=? depth) then "prefix_hit" else "prefix_hit:depth=" +:+ itoa depth.

(** [CauseNone] to [CauseBadRequest] are all in the table. *)
Definition fallbackReason (c : Cause) : string := "fallback:" +:+ Cause_String c.

Section Pipeline.
Context {S R : Type} `{Subsystems S R}.
Variable r : Router.

(** The mutable part of [Router]. *)
Record RState : Type := mkRState {
  pinsAt : option stickyStore; current : list Z; cursor : list Z; unpriced : Z; sub : S }.

Definition set_sub (x : RState) (s : S) : RState := mkRState (pinsAt x) (current x) (cursor x) (unpriced x) s.

Definition quotaOK (x : RState) (t : tally) (cred : string) (now : Z) : RState * tally * bool :=
  let '(s, (allow, reset)) := QuotaCheck (sub x) cred now in
  let x := set_sub x s in
  if allow then (x, t, true)
  else if Time.IsZero (quotaReset t) || (negb (Time.IsZero reset) && Time.Before reset (quotaReset t))
  then (x, with_reset t reset cred, false)
  else (x, t, false).

(** Whether every credential is in quota; it stops at the first that is not. *)
Fixpoint quota_all (x : RState) (t : tally) (cs : list Credential) (now : Z) : RState * tally * bool :=
  match cs with
  | [] => (x, t, true)
  | c :: cs' =>
      let '(x, t, ok) := quotaOK x t (credID c) now in
      if ok then quota_all x t cs' now else (x, t, false)
  end.

(** The capacity candidates of the credentials in quota. *)
Fixpoint quota_filter (x : RState) (t : tally) (cs : list (Credential * Candidate)) (now : Z)
  : RState * tally * list Candidate :=
  match cs with
  | [] => (x, t, [])
  | (c, k) :: cs' =>
      let '(x, t, ok) := quotaOK x t (credID c) now in
      let '(x, t, ks) := quota_filter x t cs' now in
      (x, t, if ok then k :: ks else ks)
  end.

Definition rotate_creds (x : RState) (d : Deployment) (cs : list Candidate) : RState * string :=
  match rRotation r with
  | None | Some RotationFailover => (x, "")
  | Some RotationRandom =>
      if (length cs <? 2)%nat then (x, "")
      else
        let '(s, u) := Rand (sub x) in
        (set_sub x s, (rotate RotationRandom (LeastUsedKey s) u (cursor x) d cs).2)
  | Some rot =>
      let '(cu, pref) := rotate rot (LeastUsedKey (sub x)) F64.zero (cursor x) d cs in
      (mkRState (pinsAt x) (current x) cu (unpriced x) (sub x), pref)
  end.

(** [eligible]: the credentials that may serve, and the preferred one. *)
Definition eligible (x : RState) (t : tally) (d : Deployment) (p : pins) (pin : option stickyEntry) (now : Z)
  : RState * tally * option (list Candidate * string) :=
  if negb (String.eqb (pcredential p) "") then
    match credIndex d !! pcredential p with
    | None => (x, t, None)
    | Some i =>
        let '(x, t, ok) := quotaOK x t (pcredential p) now in
        (x, t, if ok then Some (take 1 (drop i (caps d)), pcredential p) else None)
    end
  else
    let '(x, t, all) := quota_all x t (Credentials d) now in
    let '(x, t, cs) := if (all : bool) then (x, t, caps d)
                       else quota_filter x t (combine (Credentials d) (caps d)) now in
    if (length cs =? 0)%nat && (0 <? length (Credentials d))%nat then (x, t, None)
    else
      let known c := bool_decide (is_Some (credIndex d !! c)) in
      let pref := match pin with
                  | Some e => if String.eqb (sDeployment e) (dID d) && known (sCredential e) then sCredential e else ""
                  | None => ""
                  end in
      let pref := if negb (String.eqb (softCredential p) "") && known (softCredential p) then softCredential p else pref in
      let '(x, pref) := if String.eqb pref "" then rotate_creds x d cs else (x, pref) in
      (x, t, Some (cs, pref)).

Definition fresh_candidate (d : Deployment) (i : Z) (cs : list Candidate) (pref : string) (pinned : bool) : candidate :=
  mkCandidate d i cs pref pinned "" 0 false 0 false 0 F64.zero F64.zero false false false 0 (-1) F64.zero 0 0.

(** The checks of one deployment; [need] is the structural set it must express. *)
Fixpoint filter_loop (x : RState) (t : tally) (ds : list Deployment) (n : Z) (req : Request) (st : sessionState)
    (p : pins) (need : Z) (pin : option stickyEntry) (now : Z) : RState * tally * list candidate :=
  match ds with
  | [] => (x, t, [])
  | d :: ds' =>
      if bool_decide (dID d ∈ tried st) then filter_loop x (count_tried t) ds' n req st p need pin now
      else if negb (String.eqb (pdeployment p) "") && negb (String.eqb (dID d) (pdeployment p))
      then filter_loop x (count_family t) ds' n req st p need pin now
      else if negb (String.eqb (pfamily p) "") && negb (String.eqb (Family d) (pfamily p))
      then filter_loop x (count_family t) ds' n req st p need pin now
      else
        let t := with_union t (Capabilities d) in
        if negb (Has (Capabilities d) need) then filter_loop x (count_cap t) ds' n req st p need pin now
        else if enforceOut d && (MaxOutputTokens d <? qMaxOutput req)
        then filter_loop x (count_out t (MaxOutputTokens d)) ds' n req st p need pin now
        else
          let total := i64 (InputTokens req + outputReserve (qMaxOutput req) (MaxOutputTokens d) (ContextWindow d)) in
          if (0 <? ContextWindow d) && (ContextWindow d <? total)
          then filter_loop x (count_ctx t (ContextWindow d)) ds' n req st p need pin now
          else
            match eligible x t d p pin now with
            | (x, t, None) => filter_loop x (count_quota t) ds' n req st p need pin now
            | (x, t, Some (cs, cred)) =>
                let c := fresh_candidate d n cs cred (hard p && negb (String.eqb (pcredential p) "")) in
                let '(x, t, rest) := filter_loop x t ds' (n + 1) req st p need pin now in
                (x, t, c :: rest)
            end
  end.

Definition filter (x : RState) (ds : list Deployment) (req : Request) (st : sessionState) (p : pins)
    (pin : option stickyEntry) (now : Z) : RState * result Error (list candidate) :=
  let need := Z.ldiff (Structural (Required req)) (AllowLossy req) in
  let '(x, t, cands) := filter_loop x no_tally ds 0 req st p need pin now in
  match cands with
  | [] => (x, Err (refusal req p need t))
  | _ => (x, Ok cands)
  end.

(** ** Scoring *)

Definition busy_of (s : S) (d : Deployment) : option Z :=
  match InUse s (modelAxisKey (dProvider d) (dModel d)) with
  | Some n => Some n
  | None => InUse s (routeKey (dProvider d))
  end.

Definition when (b : bool) (f : RState * list candidate -> RState * list candidate) (y : RState * list candidate)
  : RState * list candidate := if b then f y else y.

Definition score_prefix (req : Request) (now : Z) (y : RState * list candidate) : RState * list candidate :=
  let '(x, cands) := y in
  let '(s, hit) := PrefixLookup (sub x) (Digests req) (fun t => existsb (fun c => interned (dep c) =? t) cands) now in
  (set_sub x s,
   match hit with
   | Some (target, depth) => mark_first (fun c => interned (dep c) =? target) (fun c => set_prefix c depth) cands
   | None => cands
   end).

Definition score_sticky (p : pins) (pin : option stickyEntry) (y : RState * list candidate) : RState * list candidate :=
  let target := match pin with Some e => sDeployment e | None => "" end in
  (y.1, map (fun c => set_sticky c (String.eqb (dID (dep c)) target || String.eqb (dID (dep c)) (softDeployment p))) y.2).

Definition score_cost (req : Request) (now : Z) (y : RState * list candidate) : RState * list candidate :=
  pass (fun x c =>
    match Price (sub x) (dep c) (serving c) (InputTokens req) (qMaxOutput req) now with
    | None => (x, c)
    | Some (true, _) => (mkRState (pinsAt x) (current x) (cursor x) (unpriced x + 1) (sub x), c)
    | Some (false, nano) => (x, set_cost c (serving c) nano)
    end) y.1 y.2.

Definition score_busy (y : RState * list candidate) : RState * list candidate :=
  (y.1, map (fun c => set_busy c (busy_of (sub y.1) (dep c))) y.2).

Definition score_ttft (y : RState * list candidate) : RState * list candidate :=
  pass (fun x c => let '(s, d) := TTFT (sub x) (dID (dep c)) in (set_sub x s, set_ttft c d)) y.1 y.2.
Definition score_tps (y : RState * list candidate) : RState * list candidate :=
  pass (fun x c => let '(s, d) := TokensPerSec (sub x) (dID (dep c)) in (set_sub x s, set_tps c d)) y.1 y.2.
Definition score_lastOK (y : RState * list candidate) : RState * list candidate :=
  pass (fun x c => let '(s, d) := LastSuccess (sub x) (dID (dep c)) in (set_sub x s, set_lastOK c d)) y.1 y.2.

Definition score_urgency (now : Z) (y : RState * list candidate) : RState * list candidate :=
  (y.1, map (fun c =>
     let cred := serving c in
     if String.eqb cred "" then c
     else
       let b := if busyKnown c then Some (busy c) else busy_of (sub y.1) (dep c) in
       let occ := match b with Some n => if 0 <? n then occupancy n (creds c) else F64.zero | None => F64.zero end in
       let u := Urgency (sub y.1) cred occ now in
       if F64.gt u F64.zero then set_urgency c u else c) y.2).

Definition score_rr (y : RState * list candidate) : RState * list candidate :=
  let '(cands, cu) := assignRR (current y.1) y.2 in
  (mkRState (pinsAt y.1) cu (cursor y.1) (unpriced y.1) (sub y.1), cands).

(** [math.SmallestNonzeroFloat64]. *)
Definition smallest : F64.t := SpecFloat.S754_finite false 1 (-1074).

Definition score_random (y : RState * list candidate) : RState * list candidate :=
  pass (fun x c =>
    let '(s, u) := Rand (sub x) in
    let u := if F64.le u F64.zero then smallest else u in
    (set_sub x s, set_wr c (F64.div (minusLog u) (F64.of_Z (weightOf (dep c)))))) y.1 y.2.

Definition score (x : RState) (cands : list candidate) (chain : list Strategy) (req : Request) (p : pins)
    (pin : option stickyEntry) (now : Z) : RState * list candidate :=
  if (length cands =? 0)%nat then (x, cands)
  else
    let y := (x, cands) in
    let y := when ((chainUses chain StrategyPrefixSticky || anySiblings cands) && usesPrefix r
                   && negb (length (Digests req) =? 0)%nat) (score_prefix req now) y in
    let y := when (bool_decide (is_Some pin) || negb (String.eqb (softDeployment p) "")) (score_sticky p pin) y in
    let y := when (chainUses chain StrategyLowestCost && hasPricing) (score_cost req now) y in
    let y := when (chainUses chain StrategyLeastBusy) score_busy y in
    let y := when (chainUses chain StrategyLowestLatency) score_ttft y in
    let y := when (chainUses chain StrategyHighestTPS) score_tps y in
    let y := when (1 <? length cands)%nat score_lastOK y in
    let y := when (chainUses chain StrategyQuotaUrgency && hasUrgency) (score_urgency now) y in
    let y := when (chainUses chain StrategyRoundRobin) score_rr y in
    when (chainUses chain StrategyWeightedRandom) score_random y.

(** ** The decision *)

(** What of [Decision] is decided here; the estimate and the quota figures are
    for the caller to read and are left out. *)
Record Decision : Type := mkDecision {
  Deployment_ : string; Provider_ : string; Credential_ : string; UpstreamModel_ : string;
  Reservation : R; Attempt : Z; Group_ : string; Class_ : string; Kind_ : string; Family_ : string;
  Capabilities_ : Z; dPrefixDepth : Z; PinnedTo : string; CanonicalPriority : Z;
  PriorityHintDropped : bool; Priority_ : Z; PriorityField : string; PriorityUnverified : bool;
  PriorityTier : string; Dropped : Z; Reason : string; ModelKnown : bool; MaxTokensField_ : string;
  Stream_ : bool; dinterned : Z }.

Definition reason_of (c : candidate) (chain : list Strategy) (cands : list candidate) (p : pins) : string :=
  if prefixHit c then prefixHitReason (prefixDepth c)
  else if sticky c then ReasonSticky
  else if hard p then ReasonPinned
  else
    match cands with
    | [_] => ReasonOnlyCandidate
    | a :: b :: _ =>
        if sameAccountSet (dep a) (dep b) then
          match (siblingPolicy chain a b).2 with Some s => Strategy_name s | None => ReasonActiveAccount end
        else match decidedBy chain cands with Some s => Strategy_name s | None => ReasonConfigOrder end
    | [] => ReasonConfigOrder
    end.

Definition decide (x : RState) (c : candidate) (chain : list Strategy) (cands : list candidate) (req : Request)
    (st : sessionState) (p : pins) (res : R) (now : Z) : RState * Decision :=
  let d := dep c in
  let cred := if String.eqb (CredentialID res) "" then preferred c else CredentialID res in
  let x := if String.eqb cred "" then x else set_sub x (QuotaFill (sub x) cred now) in
  let canonical := CanonicalFor (rPriority r) (Principal req) (PriorityClass req) (PriorityHint req) in
  let hintDropped := bool_decide (is_Some (PriorityHint req)) && negb (GrantsHint (rPriority r) (Principal req)) in
  let '(prio, field, unverified) :=
    match Wire (rPriority r) (dKind d) canonical with
    | Some (v, f) => (v, f, negb (PriorityVerified d))
    | None => (canonical, "", false)
    end in
  let dropped := Z.lor (Droppable (Missing (Capabilities d) (Required req))) (Z.land (Suppressed d) (Required req)) in
  let x := if costKnown c && String.eqb (costCred c) cred then x
           else if hasPricing then
             match Price (sub x) d cred (InputTokens req) (qMaxOutput req) now with
             | Some (true, _) => mkRState (pinsAt x) (current x) (cursor x) (unpriced x + 1) (sub x)
             | _ => x
             end
           else x in
  (x, mkDecision (dID d) (dProvider d) cred (dModel d) res (attempts st + 1) (gname d) (gclass d) (dKind d) (Family d)
        (Capabilities d) (prefixDepth c) (if hard p then pkind p else "") canonical hintDropped prio field unverified
        (Tier (rPriority r) (dKind d) (PriorityClass req)) dropped (reason_of c chain cands p)
        (modelKnown d) (MaxTokensField d) (Stream req) (interned d)).

(** ** Dispatch *)

Definition capacity_request (req : Request) (d : Deployment) (cs : list Candidate) (pref : string)
    (on : Axis.OnCapacity) : Axis.Request :=
  mkReq (dProvider d) (dModel d) (dProviderGroup d) (Principal req) (qPrincipalMax req) cs pref on (qBatch req) (Timeout d).

(** [acquire]: a reservation, none, or an error. *)
Definition acquire (x : RState) (req : Request) (c : candidate) (now : Z) : RState * result waitError (option R) :=
  let on := if pinned c then Axis.Wait else OnCapacity r in
  let cr := capacity_request req (dep c) (creds c) (preferred c) on in
  let wait := if pinned c then if PinnedWait r <=? 0 then WaitBudget (Principal req) else PinnedWait r else 0 in
  if 0 <? wait then
    let '(s, res) := AcquireWait (sub x) cr wait now in
    (set_sub x s, match res with
                  | Ok q => Ok (Some q)
                  | Err WaitRefused => Ok None
                  | Err e => Err e
                  end)
  else
    let '(s, res) := TryAcquire (sub x) cr now in (set_sub x s, Ok res).

(** Where the walk over the ranked candidates ends. *)
Inductive walked : Type :=
| Took (c : candidate) (res : R)
| Stopped (unhealthy saturated : Z) (busyCands : list candidate).

Fixpoint walk (x : RState) (cands : list candidate) (chain : list Strategy) (req : Request) (now : Z)
    (unhealthy saturated : Z) (busyCands : list candidate) : RState * walked :=
  match cands with
  | [] => (x, Stopped unhealthy saturated busyCands)
  | c :: cands' =>
      if (match busyCands with
          | b :: _ => chainUses chain StrategyPriority && (Priority (dep b) <? Priority (dep c))
                      && (0 <? WaitBudget (Principal req))
          | [] => false
          end)
      then (x, Stopped unhealthy saturated busyCands)
      else
        let '(s, ok) := Allow (sub x) (dID (dep c)) now in
        let x := set_sub x s in
        if negb ok then walk x cands' chain req now (unhealthy + 1) saturated busyCands
        else
          match acquire x req c now with
          | (x, Err WaitContext) => (x, Stopped unhealthy saturated busyCands)
          | (x, Err _) => walk x cands' chain req now unhealthy saturated busyCands
          | (x, Ok None) => walk x cands' chain req now unhealthy (saturated + 1) (busyCands ++ [c])
          | (x, Ok (Some res)) => (x, Took c res)
          end
  end.

(** Deployments that may share one wait. *)
Definition equivalent (a b : candidate) : bool :=
  String.eqb (dProvider (dep a)) (dProvider (dep b)) && String.eqb (dModel (dep a)) (dModel (dep b)) &&
  String.eqb (dProviderGroup (dep a)) (dProviderGroup (dep b)) && (Timeout (dep a) =? Timeout (dep b)) && negb (pinned a).

(** The wait for the preferred pool: whom the reservation belongs to. [alive] is
    [ctx.Err() == nil]. *)
Definition wait_pool (x : RState) (busyCands : list candidate) (req : Request) (p : pins) (alive : bool) (now : Z)
  : RState * option (candidate * R) :=
  match busyCands with
  | first :: _ =>
      let wait := WaitBudget (Principal req) in
      if negb (hard p) && alive && (0 <? wait) then
        let pool := List.filter (fun c => equivalent c first) busyCands in
        let cr := capacity_request req (dep first) (flat_map creds pool) (preferred first) Axis.Spill in
        let '(s, res) := AcquireWait (sub x) cr wait now in
        match res with
        | Err _ => (set_sub x s, None)
        | Ok q =>
            match List.find (fun c => existsb (fun k => String.eqb (ID k) (CredentialID q)) (creds c) && equivalent c first)
                    busyCands with
            | Some c => (set_sub x s, Some (c, q))
            | None => (set_sub x (Release s q now), None)
            end
        end
      else (x, None)
  | [] => (x, None)
  end.

Definition dispatch (x : RState) (cands : list candidate) (chain : list Strategy) (req : Request) (st : sessionState)
    (p : pins) (alive : bool) (now : Z) : RState * result Error Decision :=
  match walk x cands chain req now 0 0 [] with
  | (x, Took c res) => let '(x, d) := decide x c chain cands req st p res now in (x, Ok d)
  | (x, Stopped unhealthy saturated busyCands) =>
      match wait_pool x busyCands req p alive now with
      | (x, Some (c, res)) => let '(x, d) := decide x c chain cands req st p res now in (x, Ok d)
      | (x, None) =>
          let down := (saturated =? 0) && (0 <? unhealthy) in
          (x, Err (if hard p && negb (String.eqb (pcredential p) "") then
                     mkError 503 (if down then CodeCredentialPinLost else CodeCredentialSaturated) CauseNone 0 (pkind p) ""
                       (pcredential p) Time.zeroTime (attempts st + 1) false "" true
                   else error 429 (if down then CodeNoCandidate else CodeNoCapacity) CauseNone (attempts st + 1)
                          Time.zeroTime false))
      end
  end.

(** ** Routing and reporting *)

Definition set_reason (d : Decision) (s : string) : Decision :=
  mkDecision (Deployment_ d) (Provider_ d) (Credential_ d) (UpstreamModel_ d) (Reservation d) (Attempt d) (Group_ d)
    (Class_ d) (Kind_ d) (Family_ d) (Capabilities_ d) (dPrefixDepth d) (PinnedTo d) (CanonicalPriority d)
    (PriorityHintDropped d) (Priority_ d) (PriorityField d) (PriorityUnverified d) (PriorityTier d) (Dropped d) s
    (ModelKnown d) (MaxTokensField_ d) (Stream_ d) (dinterned d).

Definition with_cause (e : Error) (c : Cause) : Error :=
  mkError (Status e) (Code e) (if bool_decide (eCause e = CauseNone) then c else eCause e) (Constructs e) (ePin e)
    (eFamily e) (eCredential e) (eResetAt e) (eAttempt e) (Estimated e) (EstimateMethod e) (terminal e).
Definition with_attempt (e : Error) (n : Z) : Error :=
  mkError (Status e) (Code e) (eCause e) (Constructs e) (ePin e) (eFamily e) (eCredential e) (eResetAt e) n
    (Estimated e) (EstimateMethod e) (terminal e).

(** [Route]; [prev] is the session of [Request.Previous]. The session it returns
    is the one behind the decision. *)
Definition Route (x : RState) (req : Request) (prev : option sessionState) (alive : bool) (now : Z)
  : RState * result Error (Decision * sessionState) :=
  let st := match prev with Some st => st | None => newSession now end in
  match (match prev with Some st => canFallBack r st now | None => None end) with
  | Some e => (x, Err e)
  | None =>
      let hop := match prev with Some st => cause st | None => CauseNone end in
      match group r (qModel req) with
      | None => (x, Err (error 404 CodeModelNotFound CauseNone (attempts st + 1) Time.zeroTime true))
      | Some g =>
          let chain := match gStrategy g with [] => rStrategy r | c => c end in
          let ds := universe r g st hop in
          if (length ds =? 0)%nat && bool_decide (hop = CauseContextWindow) then
            (x, Err (error 400 CodeContextWindow CauseContextWindow (attempts st + 1) Time.zeroTime true))
          else
            let p := resolvePins (Pins req) in
            let key := stickyKeyFor (bool_decide (is_Some (pinsAt x))) req g in
            let '(store, pin) := match pinsAt x with
                                 | Some s => let '(s, e) := sticky_get s key now in (Some s, e)
                                 | None => (None, None)
                                 end in
            let x := mkRState store (current x) (cursor x) (unpriced x) (sub x) in
            match filter x ds req st p pin now with
            | (x, Err e) => (x, Err (with_cause (with_attempt e (attempts st + 1)) hop))
            | (x, Ok cands) =>
                let '(x, cands) := score x cands chain req p pin now in
                match dispatch x (order chain cands) chain req st p alive now with
                | (x, Err e) => (x, Err (if bool_decide (hop = CauseNone) then e else with_cause e hop))
                | (x, Ok d) =>
                    let d := if bool_decide (hop = CauseNone) then d else set_reason d (fallbackReason hop) in
                    let window := match byID r !! Deployment_ d with Some k => ContextWindow k | None => 0 end in
                    (x, Ok (d, mkSession (started st) (tried st ++ [Deployment_ d]) (Digests req) (cause st) (sfailed st)
                                 (firstByte st) false (Attempt d) window (resetAt st) key (negb (sticky_zero key))))
                end
            end
      end
  end.

(** [Classify]. *)
Definition Classify (status : Z) (hasErr budget deadline : bool) : Cause :=
  if hasErr && budget then CauseBudgetExceeded
  else if hasErr && deadline then CauseTimeout
  else if status =? 0 then if hasErr then CauseUpstream5xx else CauseNone
  else if (status =? 401) || (status =? 403) then CauseAuth
  else if (status =? 408) || (status =? 504) then CauseTimeout
  else if status =? 409 then CauseUpstream5xx
  else if (status =? 425) || (status =? 429) then CauseRateLimit
  else if 500 <=? status then CauseUpstream5xx
  else CauseNone.

(** [ClassifyBody]: a context-window overflow, from the code and the message of a
    decoded refusal. *)
Definition contextCodes : list string := ["context_length_exceeded"; "context_window_exceeded"].
Definition isContextCode (code : string) : bool := existsb (String.eqb code) contextCodes.

Definition contextPhrases : list string :=
  ["maximum context length"; "context length"; "context window"; "context_length"; "too many tokens";
   "prompt is too long"; "input is too long"; "reduce the length of the messages"; "maximum number of tokens";
   "input token count"].

(** A byte with ['A']..['Z'] taken to lower case. *)
Definition lower_byte (c : Ascii.ascii) : Ascii.ascii :=
  let n := Ascii.N_of_ascii c in
  if (65 <=? n)%N && (n <=? 90)%N then Ascii.ascii_of_N (n + 32) else c.

(** [matchFold] on the part of [s] that [lower] covers. *)
Fixpoint matchFold (s lower : list Ascii.ascii) : bool :=
  match lower, s with
  | [], _ => true
  | l :: lower', c :: s' => Ascii.eqb (lower_byte c) l && matchFold s' lower'
  | _ :: _, [] => false
  end.

Fixpoint contains_from (s sub : list Ascii.ascii) : bool :=
  matchFold s sub || match s with [] => false | _ :: s' => contains_from s' sub end.
Definition containsFold (s sub : string) : bool :=
  if (length (list_ascii_of_string sub) =? 0)%nat then false
  else contains_from (list_ascii_of_string s) (list_ascii_of_string sub).

Definition classifyContextMessage (msg : string) : Cause :=
  if String.eqb msg "" then CauseNone
  else if existsb (containsFold msg) contextPhrases then CauseContextWindow else CauseNone.

Definition ClassifyBody (status : Z) (code message : string) : Cause :=
  if (status <? 400) || (500 <=? status) then CauseNone
  else if isContextCode code then CauseContextWindow
  else classifyContextMessage message.

Definition unclassifiedCause (status : Z) : Cause :=
  if (400 <=? status) && (status <? 500) then CauseBadRequest else CauseUpstream5xx.

Definition countsAgainstAvailability (c : Cause) : bool :=
  match c with CauseUpstream5xx | CauseTimeout => true | _ => false end.

Definition discardsPin (c : Cause) : bool :=
  match c with
  | CauseUpstream5xx | CauseTimeout | CauseAuth | CauseQuotaExhausted | CauseRateLimit => true
  | _ => false
  end.

Definition outcome_cause (o : Outcome) : Cause :=
  match oCause o with
  | CauseNone =>
      if HasErr o then
        match Classify (oStatus o) (HasErr o) (ErrBudget o) (ErrDeadline o) with
        | CauseNone => unclassifiedCause (oStatus o)
        | c => c
        end
      else CauseNone
  | c => c
  end.

(** [Report]; [now] is the clock, the same for its readings. *)
Definition Report (x : RState) (d : Decision) (st : sessionState) (o : Outcome) (now : Z) : RState * sessionState :=
  let s := Release (sub x) (Reservation d) now in
  let c := outcome_cause o in
  let ok := bool_decide (c = CauseNone) && negb (HasErr o) in
  let s := HealthReport s (Deployment_ d) (countsAgainstAvailability c) o now in
  let w := Time.Sub (oResetAt o) now in
  let s :=
    match c with
    | CauseAuth => MarkUnavailable s (Deployment_ d) (AuthCooldown r) now
    | CauseQuotaExhausted =>
        if 0 <? RetryAfter o then MarkUnavailable s (Deployment_ d) (RetryAfter o) now
        else if negb (Time.IsZero (oResetAt o)) && (0 <? w) then MarkUnavailable s (Deployment_ d) w now
        else s
    | CauseRateLimit =>
        if 0 <? RetryAfter o then MarkUnavailable s (Deployment_ d) (RetryAfter o) now
        else if negb (Time.IsZero (oResetAt o)) && (0 <? w) then MarkUnavailable s (Deployment_ d) w now
        else MarkRateLimited s (Deployment_ d) (RateLimitCooldown r) (RateLimitCooldownMax r) now
    | _ => s
    end in
  let st := mkSession (started st) (tried st) (digests st) c (negb ok) (firstByte st || FirstByteSent o) true
              (attempts st) (lastWindow st) (if Time.IsZero (oResetAt o) then resetAt st else oResetAt o)
              (stickyAt st) (stickySet st) in
  let on_pins (f : stickyStore -> stickyStore) (y : RState) :=
    mkRState (f <$> pinsAt y) (current y) (cursor y) (unpriced y) (sub y) in
  let x := set_sub x s in
  if ok then
    let x := if usesPrefix r && negb (length (digests st) =? 0)%nat
             then set_sub x (PrefixRecord (sub x) (digests st) (dinterned d) now) else x in
    (if stickySet st then on_pins (fun k => sticky_put k (stickyAt st) (Deployment_ d) (Credential_ d) now) x else x, st)
  else
    (if stickySet st && discardsPin c then on_pins (fun k => sticky_discard k (stickyAt st)) x else x, st).
End Pipeline.
