(* ===== verification/RouterNew.v ===== *)
(** * Compiling a router ([internal/router/router.go]: [New], [compile],
    [publishPrefixTTLs], [warmAxes])

    The configuration as it is written, the derived fields of a deployment, the
    cross-references that are refused, and the two things a new router tells the
    subsystems: the cache lifetimes and the axes that exist. Where the code ranges
    over a map, the order is the one of [map_to_list]. A refused configuration may
    leave ids in the interner; the error does not carry it. *)
From Stdlib Require Import String.
From stdpp Require Import base gmap list strings.
From Stdlib Require Import ZArith Lia.
From S2P Require Import Prelude GoTime F64 Axis PrefixTable GoSort Router RouterRoute.
Open Scope Z_scope.

(** ** Configuration *)

(** [On] is [None] for a nil map. *)
Record FallbackConfig : Type := mkFallback {
  On : option (Cause -> list Target); fMaxHops : Z; fBudget : Z; fAuthCooldown : Z;
  fRateLimitCooldown : Z; fRateLimitCooldownMax : Z }.

(** [cPriority] is [None] when its classes are nil, [StickyTTL] is [None] when
    stickiness is off. The clock and the random source are not data. *)
Record Config : Type := mkConfig {
  Groups : list Group; cAliases : gmap string string; cClasses : gmap string (list string);
  cStrategy : list Strategy; cRotation : option Rotation; StickyTTL : option Z;
  Fallback : FallbackConfig; cPriority : option PriorityConfig; cOnCapacity : Axis.OnCapacity; cPinnedWait : Z }.

Definition DefaultAuthCooldown : Z := 15 * Time.Minute.
Definition DefaultRateLimitCooldown : Z := 10 * Time.Second.
Definition DefaultRateLimitCooldownMax : Z := 15 * Time.Minute.

(** What the router reads of the model catalog: the wire adapter of a kind, and
    of a model whether it is known, its context window and its output ceiling. *)
Record CatalogView : Type := mkCatalogView {
  KindAPI : string -> option string; ModelInfo : string -> string -> bool * Z * Z }.

(** ** Deployments *)

Definition candidate_of (d : Deployment) (c : Credential) : Candidate :=
  mkCand (credID c) (credGroup c) (credMax c) (dProvider d) (dModel d) (dProviderGroup d).

(** A later credential with the same id takes the index. *)
Fixpoint index_creds (i : nat) (cs : list Credential) (m : gmap string nat) : gmap string nat :=
  match cs with
  | [] => m
  | c :: cs' => index_creds (S i) cs' (<[credID c := i]> m)
  end.

(** [compile]; [n] is how many deployments were compiled before. *)
Definition compile (cat : option CatalogView) (it : Interner) (n : nat) (d : Deployment) (g : Group)
  : result Error (Deployment * Interner) :=
  let '(it, id) := Interner_ID it (dID d) in
  let enforce := 0 <? MaxOutputTokens d in
  let family := match cat with
                | Some k => if String.eqb (Family d) "" then default "" (KindAPI k (dKind d)) else Family d
                | None => Family d
                end in
  let '(known, window, out) :=
    match cat with
    | Some k =>
        let '(known, w, o) := ModelInfo k (dKind d) (dModel d) in
        (known, if ContextWindow d =? 0 then w else ContextWindow d, if MaxOutputTokens d =? 0 then o else MaxOutputTokens d)
    | None => (modelKnown d, ContextWindow d, MaxOutputTokens d)
    end in
  let family := if String.eqb family "" then dKind d +:+ "/" +:+ dProvider d else family in
  if existsb (fun c => String.eqb (credID c) "") (Credentials d)
  then Err (error 500 "invalid_config" CauseNone 0 Time.zeroTime false)
  else Ok (mkDeployment (dID d) (dProvider d) (dProviderGroup d) (dKind d) (dModel d) (Credentials d) (Weight d) (Priority d)
             family (Capabilities d) (Suppressed d) window out (PriorityVerified d) (Timeout d) (PrefixTTL d)
             (MaxTokensField d) (map (candidate_of d) (Credentials d)) (index_creds 0 (Credentials d) ∅) id enforce known n
             (gName g) (gClass g), it).

Definition invalid : Error := error 500 "invalid_config" CauseNone 0 Time.zeroTime false.

(** What the loops of [New] build. *)
Record building : Type := mkBuilding {
  bgroups : gmap string Group; bbyID : gmap string Deployment; bclasses : gmap string (list Group); bint : Interner }.

Fixpoint compile_all (cat : option CatalogView) (it : Interner) (seen : gmap string Deployment) (g : Group)
    (ds : list Deployment) : result Error (list Deployment * gmap string Deployment * Interner) :=
  match ds with
  | [] => Ok ([], seen, it)
  | d :: ds' =>
      if String.eqb (dID d) "" then Err invalid
      else match seen !! dID d with
           | Some _ => Err invalid
           | None =>
               match compile cat it (size seen) d g with
               | Err e => Err e
               | Ok (d, it) =>
                   match compile_all cat it (<[dID d := d]> seen) g ds' with
                   | Err e => Err e
                   | Ok (out, seen, it) => Ok (d :: out, seen, it)
                   end
               end
           end
  end.

Fixpoint compile_groups (cat : option CatalogView) (b : building) (gs : list Group) : result Error building :=
  match gs with
  | [] => Ok b
  | g :: gs' =>
      if String.eqb (gName g) "" then Err invalid
      else match bgroups b !! gName g with
           | Some _ => Err invalid
           | None =>
               match compile_all cat (bint b) (bbyID b) g (gDeployments g) with
               | Err e => Err e
               | Ok (ds, seen, it) =>
                   let g := mkGroup (gName g) (gClass g) (gStrategy g) ds in
                   let cls := if String.eqb (gClass g) "" then bclasses b
                              else <[gClass g := default [] (bclasses b !! gClass g) ++ [g]]> (bclasses b) in
                   compile_groups cat (mkBuilding (<[gName g := g]> (bgroups b)) seen cls it) gs'
               end
           end
  end.

Definition alias_ok (groups : gmap string Group) (a : string * string) : bool :=
  bool_decide (is_Some (groups !! a.2)) && bool_decide (groups !! a.1 = None).

(** [containsGroup] compares pointers; a name has one group. *)
Definition containsGroup (gs : list Group) (g : Group) : bool := existsb (fun x => String.eqb (gName x) (gName g)) gs.

(** The members a class names, added to the groups already in it. *)
Fixpoint add_members (groups : gmap string Group) (have : list Group) (names : list string) : option (list Group) :=
  match names with
  | [] => Some have
  | n :: names' =>
      match groups !! n with
      | None => None
      | Some g => add_members groups (if containsGroup have g then have else have ++ [g]) names'
      end
  end.

Fixpoint add_classes (groups : gmap string Group) (cls : gmap string (list Group)) (l : list (string * list string))
  : option (gmap string (list Group)) :=
  match l with
  | [] => Some cls
  | (c, names) :: l' =>
      match add_members groups (default [] (cls !! c)) names with
      | None => None
      | Some [] => add_classes groups cls l'
      | Some gs => add_classes groups (<[c := gs]> cls) l'
      end
  end.

(** The configuration with its defaults, over what was compiled. *)
Definition router_of (cfg : Config) (hasPrefix : bool) (b : building) (cls : gmap string (list Group)) : Router :=
  let f := Fallback cfg in
  let cooldown := if fRateLimitCooldown f =? 0 then DefaultRateLimitCooldown else fRateLimitCooldown f in
  let most := if fRateLimitCooldownMax f =? 0 then DefaultRateLimitCooldownMax else fRateLimitCooldownMax f in
  mkRouter (cAliases cfg) (bgroups b) cls (bbyID b) (default DefaultChains (On f))
    (match cStrategy cfg with [] => DefaultStrategy | s => s end) (cRotation cfg) (fMaxHops f) (fBudget f)
    (if fAuthCooldown f =? 0 then DefaultAuthCooldown else fAuthCooldown f) cooldown
    (if most <? cooldown then cooldown else most) (default DefaultPriority (cPriority cfg)) (cOnCapacity cfg)
    (cPinnedWait cfg) hasPrefix.

(** The lifetimes per interned id; nothing when no deployment declares one. *)
Definition prefix_ttls (ds : list Deployment) : list Z :=
  let declared := List.filter (fun d => negb (PrefixTTL d =? 0)) ds in
  match declared with
  | [] => []
  | _ =>
      let top := foldl (fun m d => if m <? interned d then interned d else m) 0 declared in
      foldl (fun l d => <[Z.to_nat (interned d) := PrefixTTL d]> l) (replicate (Z.to_nat (top + 1)) 0) declared
  end.

Section New.
Context {S R : Type} `{Subsystems S R}.

Definition publishPrefixTTLs (s : S) (r : Router) : S :=
  if usesPrefix r then PrefixTTLs s (prefix_ttls (map snd (map_to_list (byID r)))) else s.

Definition warm_one (now : Z) (d : Deployment) (s : S) (k : Candidate) : S :=
  let '(s, res) := TryAcquire s (mkReq (dProvider d) (dModel d) (dProviderGroup d) "" 0 [k] "" Axis.Wait false 0) now in
  match res with Some q => Release s q now | None => s end.
Definition warmAxes (s : S) (r : Router) (now : Z) : S :=
  foldl (fun s d => foldl (warm_one now d) s (caps d)) s (map snd (map_to_list (byID r))).

(** [New]: the router, its state, and the interner. *)
Definition New (cfg : Config) (cat : option CatalogView) (it : Interner) (hasPrefix : bool) (s : S) (now : Z)
  : result Error (Router * RState (S := S) * Interner) :=
  match compile_groups cat (mkBuilding ∅ ∅ ∅ it) (Groups cfg) with
  | Err e => Err e
  | Ok b =>
      if negb (forallb (alias_ok (bgroups b)) (map_to_list (cAliases cfg))) then Err invalid
      else match add_classes (bgroups b) (bclasses b) (map_to_list (cClasses cfg)) with
           | None => Err invalid
           | Some cls =>
               let r := router_of cfg hasPrefix b cls in
               let n := size (byID r) in
               let s := publishPrefixTTLs (warmAxes s r now) r in
               Ok (r, mkRState (newStickyStore <$> StickyTTL cfg) (replicate n 0) (replicate n 0) 0 s, bint b)
           end
  end.
End New.
