(* ===== verification/RouterSystem.v ===== *)
(** * The router over the components it composes

    The subsystems of [Deps], as they are modelled here: the capacity broker, the
    health tracker, the prefix table, the quota meters and the price catalogue;
    and the proof that together they keep the promises routing relies on. A
    blocking acquisition is the one in which nothing else runs while it waits. *)
From Stdlib Require Import String.
From stdpp Require Import base gmap list strings.
From Stdlib Require Import ZArith Lia SpecFloat.
From S2P Require Import Prelude GoTime F64 Axis WaitQueue Broker Health PrefixTable Meter PriceCatalog Price.
From S2P Require Import GoSort Router RouterRoute RouterNew.
Open Scope Z_scope.

(** The state of the subsystems; [sRand] is what the random source will draw. *)
Record System : Type := mkSystem {
  sBroker : Broker.Broker (Q := waitQueue); sHealth : Health.Tracker; sPrefix : PrefixTable.Table;
  sMeters : gmap string Meter.Meter; sPricing : option Price.Catalog; sRand : list F64.t }.

Definition with_broker (s : System) (b : Broker.Broker (Q := waitQueue)) : System :=
  mkSystem b (sHealth s) (sPrefix s) (sMeters s) (sPricing s) (sRand s).
Definition with_health (s : System) (t : Health.Tracker) : System :=
  mkSystem (sBroker s) t (sPrefix s) (sMeters s) (sPricing s) (sRand s).
Definition with_prefix (s : System) (t : PrefixTable.Table) : System :=
  mkSystem (sBroker s) (sHealth s) t (sMeters s) (sPricing s) (sRand s).
Definition with_meter (s : System) (cred : string) (m : Meter.Meter) : System :=
  mkSystem (sBroker s) (sHealth s) (sPrefix s) (<[cred := m]> (sMeters s)) (sPricing s) (sRand s).

(** [Meters.Check] and [Meters.Fill]; a credential without a meter is allowed. *)
Definition Meters_Check (s : System) (cred : string) (now : Z) : System * (bool * Z) :=
  match sMeters s !! cred with
  | Some m => let '(m, d) := Meter.Check m now in (with_meter s cred m, (Meter.Allow d, DResetAt d))
  | None => (s, (true, Time.zeroTime))
  end.
Definition Meters_Fill (s : System) (cred : string) (now : Z) : System :=
  match sMeters s !! cred with
  | Some m => with_meter s cred (Meter.Fill m now).1
  | None => s
  end.

Definition health_outcome (failure : bool) (o : Outcome) : Health.Outcome :=
  Health.mkOutcome (HasErr o) failure (oTTFT o) (oTotal o) (OutputTokens o).

(** [priceRequest], with the credential it is for. *)
Definition price_request (d : Deployment) (cred : string) (input output now : Z) : PriceCatalog.Request :=
  PriceCatalog.mkRequest (bytes_of_string (dProvider d)) (bytes_of_string (dModel d)) (bytes_of_string cred)
    (bytes_of_string (dID d)) input output 0 0 0 0 0 0 1 0 F64.zero F64.zero BilledUnstated 0 false 0 false now [].

Section System.
(** The shared account store's answers, the eviction order of the prefix table,
    what a float that does not fit an integer converts to, the natural logarithm
    and the urgency score. *)
Variable account_try : nat -> string -> Z -> bool.
Variable coldest : gmap Digest entry -> list Digest.
Variable unspecified : F64.t -> Z.
Variable minus_log : F64.t -> F64.t.
Variable urgency_of : option (string -> F64.t -> Z -> F64.t).
(** The broker's configuration, and whether prices are configured. *)
Variable static : Static.
Variable priced : bool.

(** A reservation and the credential it was taken on, which does not change. *)
Definition reservation (b : Broker.Broker (Q := waitQueue)) (q : nat) : nat * string :=
  (q, match rheap b !! q with Some x => Broker.credID x | None => "" end).

Definition sys_TryAcquire (s : System) (q : Axis.Request) (now : Z) : System * option (nat * string) :=
  let '(b, res) := Broker.TryAcquire account_try (sBroker s) q now in (with_broker s b, reservation b <$> res).

Definition wait_error (e : Broker.error) : waitError :=
  match e with Broker.ErrQueueFull | Broker.ErrQueueTimeout | Broker.ErrContext => WaitRefused | _ => WaitOther end.

Definition sys_AcquireWait (s : System) (q : Axis.Request) (wait now : Z) : System * result waitError (nat * string) :=
  match Broker.Acquire account_try (sBroker s) false q now with
  | (b, AGranted g) => (with_broker s b, Ok (reservation b g))
  | (b, AFailed e) => (with_broker s b, Err (wait_error e))
  | (b, ABlocked w) =>
      let b := match Acquire_cancel account_try (Datatypes.S (size (waiters b))) b w (now + wait) with
               | Some (b, _) => b
               | None => b
               end in
      (with_broker s b, Err WaitRefused)
  end.

Definition sys_Release (s : System) (q : nat * string) (now : Z) : System :=
  match Broker.Release account_try (Datatypes.S (size (waiters (sBroker s)))) (sBroker s) q.1 now with
  | Some b => with_broker s b
  | None => s
  end.

Definition sys_Price (s : System) (d : Deployment) (cred : string) (input output now : Z) : option (bool * Z) :=
  match sPricing s with
  | None => None
  | Some c => match Price.Price c (price_request d cred input output now) now with
              | Some (Ok cost) => Some (Price.Missing cost, Price.MarginalNano cost)
              | _ => None
              end
  end.

#[export] Instance system : Subsystems System (nat * string) := {|
  Allow s id now := let '(t, ok) := Health.Allow (sHealth s) id now in (with_health s t, ok);
  HealthReport s id failure o now := with_health s (Health.Report (sHealth s) id (health_outcome failure o) now);
  MarkUnavailable s id d now := with_health s (Health.MarkUnavailable (sHealth s) id d now);
  MarkRateLimited s id base most now := with_health s (Health.MarkRateLimited (sHealth s) id base most now).1;
  TTFT s id := let '(t, d) := Tracker_TTFT unspecified (sHealth s) id in (with_health s t, d);
  TokensPerSec s id := let '(t, d) := Health.TokensPerSec (sHealth s) id in (with_health s t, d);
  LastSuccess s id := let '(t, d) := Health.LastSuccess (sHealth s) id in (with_health s t, d);
  TryAcquire := sys_TryAcquire;
  AcquireWait := sys_AcquireWait;
  CredentialID q := q.2;
  Release := sys_Release;
  WaitBudget := waitBudget static;
  InUse s k := Broker.InUse (sBroker s) k;
  LeastUsedKey s provider cs := Broker.LeastUsedKey (sBroker s) provider cs;
  QuotaCheck := Meters_Check;
  QuotaFill := Meters_Fill;
  PrefixLookup s ds valid now := let '(t, hit) := PrefixTable.Lookup (sPrefix s) ds valid now now in (with_prefix s t, hit);
  PrefixRecord s ds target now := with_prefix s (Record_ coldest (sPrefix s) ds target now now);
  PrefixTTLs s ttls := with_prefix s (SetTargetTTLs (sPrefix s) ttls);
  RouterRoute.Price := sys_Price;
  hasPricing := priced;
  Urgency s cred occ now := match urgency_of with Some f => f cred occ now | None => F64.zero end;
  hasUrgency := bool_decide (is_Some urgency_of);
  Rand s := match sRand s with
            | u :: us => (mkSystem (sBroker s) (sHealth s) (sPrefix s) (sMeters s) (sPricing s) us, u)
            | [] => (s, F64.zero)
            end;
  minusLog := minus_log |}.

(** ** The promises routing relies on *)

Lemma candidateAt_in req i c : candidateAt req i = Some c -> c ∈ Candidates req.
Proof.
  unfold candidateAt. repeat case_match; intros E; try discriminate; exact (list_elem_of_lookup_2 _ _ _ E).
Qed.

Lemma try_loop_names k : forall (b : Broker.Broker (Q := waitQueue)) req w now i blk perm b' q blk' perm',
  try_loop account_try k b req w now i blk perm = (b', Some q, blk', perm') -> names_candidate req (reservation b' q).2.
Proof.
  induction k as [|k IH]; intros b req w now i blk perm b' q blk' perm' E; cbn [try_loop] in E; [discriminate|].
  destruct (bool_decide (candidateAt req i = None) && _) eqn:B; [discriminate|].
  destruct (if reserved _ _ then _ else _) as [[blk1 ok] pm].
  destruct (ask_account account_try b (candidateAt req i) blk1 ok) as [[[b1 blk2] ok2] acct].
  destruct ok2; [|destruct pm; exact (IH _ _ _ _ _ _ _ _ _ _ _ E)].
  unfold commitLocked in E. injection E as <- <- _ _. unfold reservation. cbn [rheap set_rheap set_nres set_live set_buckets].
  rewrite lookup_insert_eq. cbn [snd Broker.credID]. unfold names_candidate.
  destruct (candidateAt req i) as [c|] eqn:C.
  - left. apply list_elem_of_fmap_2. exact (candidateAt_in _ _ _ C).
  - right. split; [|reflexivity]. cbn in B. apply bool_decide_eq_false_1 in B. destruct (Candidates req); [reflexivity|cbn in B; lia].
Qed.

#[export] Instance system_laws : SubsystemLaws System (nat * string).
Proof using.
  split.
  - intros s q now s' res. cbn. unfold sys_TryAcquire, Broker.TryAcquire. destruct (closed _); [discriminate|].
    destruct (tryLocked _ _ _ _ _) as [[[b [g|]] blk] perm] eqn:T; cbn; intros E; [|discriminate].
    injection E as _ <-. exact (try_loop_names _ _ _ _ _ _ _ _ _ _ _ _ T).
  - intros s q wait now s' res. cbn. unfold sys_AcquireWait, Broker.Acquire. destruct (closed _); [discriminate|].
    destruct (tryLocked _ _ _ _ _) as [[[b [g|]] blk] perm] eqn:T; cbn; intros E.
    + injection E as _ <-. exact (try_loop_names _ _ _ _ _ _ _ _ _ _ _ _ T).
    + destruct (perm || _); [discriminate|]. destruct (queueFullLocked b blk) as [b1 [k|]]; discriminate.
Qed.
End System.

(** ** A small system *)

Module Demo.
Definition broker : Broker.Broker (Q := waitQueue) := 
  Broker.New (Axis.mkConfig false 2 ∅ ∅ {["p" := 1]} [] ∅ (mkQConfig 0 ∅ ∅ ∅ [] ∅ ∅) (S754_zero false) 0 0 0
    SoftReservationsDefault 1).
Definition start : System :=
  mkSystem broker (Health.New (mkOptions 0 0 0 F64.zero)) (NewTable 0 0) ∅ None [].
#[export] Instance subsystems : Subsystems System (nat * string) :=
  system (fun _ _ _ => false) by_age (fun _ => 0) (fun x => x) None (Broker.st broker) false.
#[export] Instance laws : SubsystemLaws System (nat * string).
Proof. apply system_laws. Qed.

Definition deployment (id provider cred : string) : Deployment :=
  mkDeployment id provider "" "openai" "model" [mkCredential cred "" 1] 1 0 "" (Z.ones 23) 0 1000 0 false 0 0 ""
    [] ∅ 0 false false 0 "" "".

(** One group of a class, with two deployments, and one hop. *)
Definition config : Config :=
  mkConfig [mkGroup "m" "c" [] [deployment "a" "p" "ka"; deployment "b" "q" "kb"]] {["alias" := "m"]} ∅ [] None (Some 0)
    (mkFallback None 1 0 0 0 0) None Axis.Spill 0.

Definition compiled : result Error (Router * RState (S := System) * Interner) :=
  New config None NewInterner false start 0.
Definition router : Router :=
  match compiled with Ok (r, _, _) => r | Err _ => router_of config false (mkBuilding ∅ ∅ ∅ NewInterner) ∅ end.
Definition state : RState (S := System) :=
  match compiled with Ok (_, x, _) => x | Err _ => mkRState None [] [] 0 start end.
Definition interner : Interner := match compiled with Ok (_, _, it) => it | Err _ => NewInterner end.

Lemma compiled_ok : compiled = Ok (router, state, interner).
Proof. vm_compute. reflexivity. Qed.

Definition request : Request :=
  mkRequest "alias" "user" "" "" 1 0 [mkPin "previous_response_id" Pinned "" "kb" ""] [] "" None 0 10 true "" 5 false false.
End Demo.
