(* ===== verification/RouterProps.v ===== *)
(** * What routing promises

    A compiled router is well formed; a decision serves the request under every
    constraint it carries, on an account the deployment has; a session makes a
    bounded number of attempts on distinct deployments and none once the client
    has read a byte. *)
From Stdlib Require Import String.
From stdpp Require Import base gmap list strings.
From Stdlib Require Import ZArith Lia.
From S2P Require Import Prelude GoTime F64 Axis PrefixTable GoSort Router RouterOrder RouterRoute RouterNew RouterSystem.
Open Scope Z_scope.

(** ** Compiled routers *)

(** The derived fields of a deployment agree with its credentials. *)
Record deployment_wf (d : Deployment) : Prop := {
  dw_id : dID d <> "";
  dw_creds : Forall (fun c => credID c <> "") (Credentials d);
  dw_caps : caps d = map (candidate_of d) (Credentials d);
  dw_index c i : credIndex d !! c = Some i -> exists k, Credentials d !! i = Some k /\ credID k = c;
  dw_known k : k ∈ Credentials d -> is_Some (credIndex d !! credID k) }.

(** The deployments compiled so far: each under its own id, with an index of its
    own for the round-robin counters. *)
Record seen_wf (m : gmap string Deployment) : Prop := {
  sw_self i d : m !! i = Some d -> dID d = i /\ deployment_wf d /\ (ridx d < size m)%nat;
  sw_ridx i j d e : m !! i = Some d -> m !! j = Some e -> ridx d = ridx e -> i = j }.

Record router_wf (r : Router) : Prop := {
  rw_seen : seen_wf (byID r);
  rw_home i d : byID r !! i = Some d -> exists g, groups r !! gname d = Some g /\ d ∈ gDeployments g;
  rw_group n g : groups r !! n = Some g -> gName g = n /\ NoDup (map dID (gDeployments g)) /\
    forall d, d ∈ gDeployments g -> byID r !! dID d = Some d /\ gname d = n /\ gclass d = gClass g;
  rw_class c gs g : classes r !! c = Some gs -> g ∈ gs -> groups r !! gName g = Some g;
  rw_own n g : groups r !! n = Some g -> gClass g <> "" -> exists gs, classes r !! gClass g = Some gs /\ g ∈ gs;
  rw_alias a n : Aliases r !! a = Some n -> is_Some (groups r !! n) /\ groups r !! a = None }.

Lemma index_creds_spec cs : forall i m,
  (forall c j, index_creds i cs m !! c = Some j -> m !! c = Some j \/
     exists k, cs !! (j - i)%nat = Some k /\ credID k = c /\ (i <= j)%nat) /\
  (forall k, k ∈ cs -> is_Some (index_creds i cs m !! credID k)) /\
  (forall c, is_Some (m !! c) -> is_Some (index_creds i cs m !! c)).
Proof.
  induction cs as [|k cs IH]; intros i m; cbn [index_creds].
  { split_and!; [tauto|intros k H; inversion H|tauto]. }
  destruct (IH (S i) (<[credID k := i]> m)) as (I1 & I2 & I3). split_and!.
  - intros c j Hj. destruct (I1 c j Hj) as [Hm|(k' & Hk & Hc & Hl)].
    + apply lookup_insert_Some in Hm as [[<- <-]|[_ Hm]]; [right|left; exact Hm].
      exists k. rewrite Nat.sub_diag. split_and!; [reflexivity|reflexivity|lia].
    + right. exists k'. replace (j - i)%nat with (S (j - S i)) by lia. split_and!; [exact Hk|exact Hc|lia].
  - intros k' [->|Hk]%elem_of_cons; [apply I3; rewrite lookup_insert_eq; eauto|apply I2, Hk].
  - intros c Hc. apply I3. destruct (base.decide (credID k = c)) as [<-|N]; [rewrite lookup_insert_eq; eauto|].
    rewrite lookup_insert_ne by exact N. exact Hc.
Qed.

Lemma compile_spec cat it n d g d' it' : compile cat it n d g = Ok (d', it') -> dID d <> "" ->
  deployment_wf d' /\ dID d' = dID d /\ ridx d' = n /\ gname d' = gName g /\ gclass d' = gClass g.
Proof.
  unfold compile. destruct (Interner_ID it (dID d)) as [it1 id]. intros E Hid.
  destruct (match cat with Some k => _ | None => (modelKnown d, _, _) end) as [[known window] out].
  destruct (existsb _ _) eqn:Ex in E; [discriminate|]. injection E as <- <-. split; [|split_and!; reflexivity].
  destruct (index_creds_spec (Credentials d) 0 ∅) as (I1 & I2 & _). split; cbn.
  - exact Hid.
  - apply Forall_forall. intros c Hc Ec. rewrite <- not_true_iff_false in Ex. apply Ex, existsb_exists.
    exists c. split; [apply list_elem_of_In, Hc|]. rewrite Ec. reflexivity.
  - reflexivity.
  - intros c i Hi. destruct (I1 c i Hi) as [Hm|(k & Hk & Hc & _)]; [rewrite lookup_empty in Hm; discriminate|].
    rewrite Nat.sub_0_r in Hk. eauto.
  - exact I2.
Qed.

Lemma seen_wf_insert m d : seen_wf m -> m !! dID d = None -> deployment_wf d -> ridx d = size m -> seen_wf (<[dID d := d]> m).
Proof.
  intros [W1 W2] N D Hr. split.
  - intros i e. rewrite map_size_insert_None by exact N. intros [[<- <-]|[_ He]]%lookup_insert_Some.
    + split_and!; [reflexivity|exact D|lia].
    + destruct (W1 i e He) as (E1 & E2 & E3). split_and!; [exact E1|exact E2|lia].
  - intros i j e f [[<- <-]|[_ He]]%lookup_insert_Some [[<- <-]|[_ Hf]]%lookup_insert_Some Eq; [reflexivity| | |].
    + destruct (W1 j f Hf) as (_ & _ & L). lia.
    + destruct (W1 i e He) as (_ & _ & L). lia.
    + exact (W2 i j e f He Hf Eq).
Qed.

Lemma compile_all_spec cat g ds : forall it seen out seen' it',
  compile_all cat it seen g ds = Ok (out, seen', it') -> seen_wf seen ->
  seen_wf seen' /\ seen ⊆ seen' /\ (forall i d, seen' !! i = Some d -> seen !! i = Some d \/ d ∈ out) /\
  NoDup (map dID out) /\
  forall d, d ∈ out -> seen' !! dID d = Some d /\ seen !! dID d = None /\ gname d = gName g /\ gclass d = gClass g.
Proof.
  induction ds as [|d ds IH]; intros it seen out seen' it' E W; cbn [compile_all] in E.
  { injection E as <- <- <-. split_and!; [exact W|reflexivity|tauto|constructor|intros d H; inversion H]. }
  destruct (String.eqb_spec (dID d) "") as [|Hid]; [discriminate|].
  destruct (seen !! dID d) eqn:Hs; [discriminate|].
  destruct (compile cat it (size seen) d g) as [[d' it1]|] eqn:C; [|discriminate].
  destruct (compile_all cat it1 (<[dID d' := d']> seen) g ds) as [[[out' seen''] it2]|] eqn:E2; [|discriminate].
  injection E as <- <- <-. destruct (compile_spec _ _ _ _ _ _ _ C Hid) as (D & Di & Dr & Dg & Dc).
  rewrite <- Di in Hs. destruct (IH _ _ _ _ _ E2 (seen_wf_insert _ _ W Hs D Dr)) as (W' & S' & O & N & P).
  assert (seen'' !! dID d' = Some d') as Hd by (eapply lookup_weaken; [apply lookup_insert_eq|exact S']).
  split_and!; [exact W'| | | |].
  - etransitivity; [|exact S']. apply insert_subseteq, Hs.
  - intros i e He. destruct (O i e He) as [[[_ <-]|[_ Hi]]%lookup_insert_Some|Ho].
    + right. left.
    + left. exact Hi.
    + right. right. exact Ho.
  - cbn. constructor; [|exact N]. intros (e & Ee & He)%list_elem_of_fmap.
    destruct (P e He) as (_ & Hn & _). rewrite <- Ee, lookup_insert_eq in Hn. discriminate.
  - intros e [->|He]%elem_of_cons; [split_and!; assumption|].
    destruct (P e He) as (P1 & P2 & P3 & P4). split_and!; [exact P1| |exact P3|exact P4].
    apply lookup_insert_None in P2. tauto.
Qed.

(** The invariant of the group loop. *)
Record building_wf (b : building) : Prop := {
  bw_seen : seen_wf (bbyID b);
  bw_home i d : bbyID b !! i = Some d -> exists g, bgroups b !! gname d = Some g /\ d ∈ gDeployments g;
  bw_group n g : bgroups b !! n = Some g -> gName g = n /\ NoDup (map dID (gDeployments g)) /\
    forall d, d ∈ gDeployments g -> bbyID b !! dID d = Some d /\ gname d = n /\ gclass d = gClass g;
  bw_class c gs g : bclasses b !! c = Some gs -> g ∈ gs -> bgroups b !! gName g = Some g;
  bw_own n g : bgroups b !! n = Some g -> gClass g <> "" -> exists gs, bclasses b !! gClass g = Some gs /\ g ∈ gs }.

Lemma building_wf_group cat b g ds seen it :
  building_wf b -> bgroups b !! gName g = None ->
  compile_all cat (bint b) (bbyID b) g (gDeployments g) = Ok (ds, seen, it) ->
  let g' := mkGroup (gName g) (gClass g) (gStrategy g) ds in
  building_wf (mkBuilding (<[gName g := g']> (bgroups b)) seen
    (if String.eqb (gClass g) "" then bclasses b
     else <[gClass g := default [] (bclasses b !! gClass g) ++ [g']]> (bclasses b)) it).
Proof.
  intros W N C g'. destruct (compile_all_spec _ _ _ _ _ _ _ _ C (bw_seen b W)) as (S' & Sub & O & ND & P).
  assert (forall n h, bgroups b !! n = Some h -> <[gName g := g']> (bgroups b) !! n = Some h) as Keep.
  { intros n h Hh. rewrite lookup_insert_ne; [exact Hh|]. intros <-. congruence. }
  split; cbn -[insert].
  - exact S'.
  - intros i d Hd. destruct (O i d Hd) as [Hi|Ho].
    + destruct (bw_home b W i d Hi) as (h & Hh & Hm). eauto.
    + destruct (P d Ho) as (_ & _ & Hg & _). exists g'. rewrite Hg, lookup_insert_eq. split; [reflexivity|exact Ho].
  - intros n h [[<- <-]|[_ Hh]]%lookup_insert_Some.
    + cbn. split_and!; [reflexivity|exact ND|]. intros d Hd. destruct (P d Hd) as (P1 & _ & P3 & P4). auto.
    + destruct (bw_group b W n h Hh) as (E1 & E2 & E3). split_and!; [exact E1|exact E2|].
      intros d Hd. destruct (E3 d Hd) as (F1 & F2 & F3). split_and!; [eapply lookup_weaken; eauto|exact F2|exact F3].
  - intros c gs h. destruct (String.eqb (gClass g) ""); [intros Hc Hm; apply Keep; eapply bw_class; eauto|].
    intros [[<- <-]|[_ Hc]]%lookup_insert_Some Hm; [|apply Keep; eapply bw_class; eauto].
    apply elem_of_app in Hm as [Hm|Hm]; [|apply list_elem_of_singleton in Hm as ->; apply lookup_insert_eq].
    destruct (bclasses b !! gClass g) as [gs|] eqn:E; [|inversion Hm]. apply Keep. eapply bw_class; eauto.
  - intros n h [[<- <-]|[_ Hh]]%lookup_insert_Some Hc.
    + cbn in *. rewrite (proj2 (String.eqb_neq _ _) Hc), lookup_insert_eq. eexists. split; [reflexivity|].
      apply elem_of_app. right. left.
    + destruct (bw_own b W n h Hh Hc) as (gs & E & Hm). destruct (String.eqb_spec (gClass g) "") as [|Hg]; [eauto|].
      destruct (base.decide (gClass g = gClass h)) as [Eq|Ne]; [|rewrite lookup_insert_ne by exact Ne; eauto].
      rewrite Eq, E, lookup_insert_eq. eexists. split; [reflexivity|]. apply elem_of_app. left. exact Hm.
Qed.

Lemma compile_groups_spec cat gs : forall b b', compile_groups cat b gs = Ok b' -> building_wf b -> building_wf b'.
Proof.
  induction gs as [|g gs IH]; intros b b' E W; cbn [compile_groups] in E; [injection E as <-; exact W|].
  destruct (String.eqb (gName g) ""); [discriminate|]. destruct (bgroups b !! gName g) eqn:N; [discriminate|].
  destruct (compile_all _ _ _ _ _) as [[[ds seen] it]|] eqn:C; [|discriminate].
  exact (IH _ _ E (building_wf_group _ _ _ _ _ _ W N C)).
Qed.

Lemma building_wf_empty it : building_wf (mkBuilding ∅ ∅ ∅ it).
Proof. split; [split|..]; cbn -[lookup]; intros; simplify_map_eq. Qed.

Lemma add_members_spec groups names : forall have gs, add_members groups have names = Some gs ->
  have ⊆ gs /\ forall g, g ∈ gs -> g ∈ have \/ exists n, groups !! n = Some g.
Proof.
  induction names as [|n names IH]; intros hv gs E; cbn [add_members] in E; [injection E as <-; split; [reflexivity|tauto]|].
  destruct (groups !! n) as [g|] eqn:Hn; [|discriminate]. destruct (IH _ _ E) as (Sub & O). destruct (containsGroup hv g); [auto|].
  split; [intros h Hh; apply Sub, elem_of_app; left; exact Hh|].
  intros h Hh. destruct (O h Hh) as [Hv|X]; [|eauto].
  apply elem_of_app in Hv as [Hv|Hv]; [eauto|]. apply list_elem_of_singleton in Hv as ->. eauto.
Qed.

(** Adding the members a class names keeps what was in it. *)
Lemma add_classes_spec groups l : forall cls cls', add_classes groups cls l = Some cls' ->
  (forall c gs g, cls !! c = Some gs -> g ∈ gs -> exists gs', cls' !! c = Some gs' /\ g ∈ gs') /\
  (forall c gs g, cls' !! c = Some gs -> g ∈ gs -> (exists gs0, cls !! c = Some gs0 /\ g ∈ gs0) \/ exists n, groups !! n = Some g).
Proof.
  induction l as [|[c names] l IH]; intros cls cls' E; cbn [add_classes] in E; [injection E as <-; split; eauto|].
  destruct (add_members groups (default [] (cls !! c)) names) as [m|] eqn:A; [|discriminate].
  destruct (add_members_spec _ _ _ _ A) as (Sub & O).
  assert (add_classes groups (match m with [] => cls | _ => <[c := m]> cls end) l = Some cls') as E' by (destruct m; exact E).
  clear E. destruct (IH _ _ E') as (I1 & I2). clear E' IH. split.
  - intros c' gs g Hc Hg. destruct (base.decide (c = c')) as [<-|N].
    + assert (g ∈ m) as Hm by (apply Sub; rewrite Hc; exact Hg).
      apply (I1 c m g); [destruct m; [inversion Hm|apply lookup_insert_eq]|exact Hm].
    + apply (I1 c' gs g); [destruct m; [exact Hc|rewrite lookup_insert_ne by exact N; exact Hc]|exact Hg].
  - intros c' gs g Hc Hg. destruct (I2 c' gs g Hc Hg) as [(gs0 & H0 & Hm)|X]; [|auto].
    destruct m as [|m0 m]; [eauto|]. apply lookup_insert_Some in H0 as [[<- <-]|[_ H0]]; [|eauto].
    destruct (O g Hm) as [Hd|X]; [|auto]. left. destruct (cls !! c) as [gs1|]; [eauto|inversion Hd].
Qed.

(** The candidates of an attempt, by the target its hop names. *)
Lemma universe_hop r g st c hop : chains r c !! Z.to_nat (Z.min (attempts st - 1) (Z.of_nat (length (chains r c)) - 1)) = Some hop ->
  1 <= attempts st -> c <> CauseNone ->
  universe r g st c =
    match hop with
    | TargetSameGroup => gDeployments g
    | _ =>
        let larger := match hop with TargetSameClassLarger => true | _ => false end in
        if String.eqb (gClass g) "" then appendLarger (gDeployments g) larger (lastWindow st)
        else flat_map (fun m => appendLarger (gDeployments m) larger (lastWindow st)) (default [] (classes r !! gClass g))
    end.
Proof.
  intros Hh Ha Hc. assert (0 < Z.of_nat (length (chains r c))) as L by (apply lookup_lt_Some in Hh; lia).
  assert ((let hop := attempts st - 1 in
           let hop := if Z.of_nat (length (chains r c)) <=? hop then Z.of_nat (length (chains r c)) - 1 else hop in
           if hop <? 0 then 0 else hop) = Z.min (attempts st - 1) (Z.of_nat (length (chains r c)) - 1)) as E.
  { cbv zeta. destruct (_ <=? _) eqn:B1; breflect; destruct (_ <? 0) eqn:B2; breflect; lia. }
  unfold universe. destruct c; [congruence|..]; cbv zeta in E |- *; rewrite E, Hh; destruct hop; reflexivity.
Qed.

Lemma router_of_wf cfg cat it hasPrefix b cls : compile_groups cat (mkBuilding ∅ ∅ ∅ it) (Groups cfg) = Ok b ->
  forallb (alias_ok (bgroups b)) (map_to_list (cAliases cfg)) = true ->
  add_classes (bgroups b) (bclasses b) (map_to_list (cClasses cfg)) = Some cls -> router_wf (router_of cfg hasPrefix b cls).
Proof.
  intros C A K. pose proof (compile_groups_spec _ _ _ _ C (building_wf_empty it)) as W.
  destruct (add_classes_spec _ _ _ _ K) as (K1 & K2). split; cbn.
  - apply W.
  - apply W.
  - apply W.
  - intros c gs g Hc Hg. destruct (K2 c gs g Hc Hg) as [(gs0 & H0 & Hm)|(n & Hn)]; [eapply bw_class; eauto|].
    destruct (bw_group b W n g Hn) as (-> & _). exact Hn.
  - intros n g Hn Hc. destruct (bw_own b W n g Hn Hc) as (gs & H0 & Hm). eauto.
  - intros a n Ha. assert (In (a, n) (map_to_list (cAliases cfg))) as Hin
      by (apply list_elem_of_In, elem_of_map_to_list, Ha).
    pose proof (proj1 (forallb_forall _ _) A _ Hin) as Hok. unfold alias_ok in Hok. apply andb_prop in Hok as (H0 & H1).
    split; [exact (bool_decide_eq_true_1 _ H0)|exact (bool_decide_eq_true_1 _ H1)].
Qed.

Section Compiled.
Context {S R : Type} `{Subsystems S R}.

Lemma New_wf cfg cat it hasPrefix (s : S) now r x it' : New cfg cat it hasPrefix s now = Ok (r, x, it') -> router_wf r.
Proof.
  unfold New. intros E. destruct (compile_groups _ _ _) as [b|] eqn:C; [|discriminate].
  destruct (forallb _ _) eqn:A in E; [cbn [negb] in E|discriminate].
  destruct (add_classes _ _ _) as [cls|] eqn:K; [|discriminate]. injection E as <- <- <-.
  exact (router_of_wf cfg cat it hasPrefix b cls C A K).
Qed.

(** C10. A router is compiled only from a configuration whose references resolve, and
    the compiled router is well formed: every deployment is known under its own
    id, in one group, with a round-robin index no other has; its capacity
    candidates are its credentials in order and the index of a credential finds
    it; an alias names a group and no alias hides one; and a class holds groups
    of the router, among them every group that declares it, so a chain that
    widens from the group to its class never loses a candidate. *)
Theorem New_wellformed cfg cat it hasPrefix (s : S) now r x it' :
  New cfg cat it hasPrefix s now = Ok (r, x, it') ->
  router_wf r /\ length (current x) = size (byID r) /\ length (cursor x) = size (byID r) /\
  forall n g d st, groups r !! n = Some g -> d ∈ gDeployments g ->
    forall c hop, chains r c !! Z.to_nat (Z.min (attempts st - 1) (Z.of_nat (length (chains r c)) - 1)) = Some hop ->
      1 <= attempts st -> c <> CauseNone -> hop <> TargetSameClassLarger -> d ∈ universe r g st c.
Proof.
  intros E. pose proof (New_wf _ _ _ _ _ _ _ _ _ E) as RW. unfold New in E.
  destruct (compile_groups _ _ _) as [b|]; [|discriminate]. destruct (negb _); [discriminate|].
  destruct (add_classes _ _ _) as [cls|]; [|discriminate]. injection E as <- <- <-.
  split_and!; [exact RW|apply length_replicate|apply length_replicate|].
  intros n g d st Hn Hd c hop Hh Ha Hc0 NL. set (r := router_of cfg hasPrefix b cls) in *.
  destruct (rw_group r RW n g Hn) as (_ & _ & Hg).
  assert (forall floor, d ∈ appendLarger (gDeployments g) false floor) as Happ.
  { intros floor. unfold appendLarger. apply list_elem_of_In, filter_In. split; [apply list_elem_of_In, Hd|reflexivity]. }
  rewrite (universe_hop r g st c hop Hh Ha Hc0). destruct hop; [exact Hd| |congruence].
  destruct (String.eqb_spec (gClass g) "") as [|Hc]; [apply Happ|].
  destruct (rw_own r RW n g Hn Hc) as (gs & Hgs & Hm). rewrite Hgs. cbn [default].
  apply list_elem_of_In, in_flat_map. exists g. split; apply list_elem_of_In; [exact Hm|apply Happ].
Qed.
End Compiled.

#[local] Existing Instances Demo.subsystems.

Lemma demo_wf : router_wf Demo.router.
Proof. exact (New_wf _ _ _ _ _ _ _ _ _ Demo.compiled_ok). Qed.

Lemma New_wellformed_witness : exists r x it, New (R := nat * string) Demo.config None NewInterner false Demo.start 0 = Ok (r, x, it) /\
  router_wf r /\ byID r !! "b" <> None.
Proof.
  exists Demo.router, Demo.state, Demo.interner. split; [exact Demo.compiled_ok|].
  split; [exact (proj1 (New_wellformed _ _ _ _ _ _ _ _ _ Demo.compiled_ok))|]. vm_compute. discriminate.
Defined.
