(* ===== verification/RouterSafe.v ===== *)
(** * What a routing decision satisfies

    Filtering, scoring, ordering and the walk, followed from the candidates of the
    attempt to the decision: what the filter established of a candidate is what
    the decision keeps. *)
From Stdlib Require Import String.
From stdpp Require Import base gmap list strings.
From Stdlib Require Import ZArith Lia.
From S2P Require Import Prelude GoTime F64 Axis GoSort Router RouterOrder RouterRoute RouterNew RouterSystem RouterProps.
Open Scope Z_scope.

(** ** Requests and their pins *)

Definition needed (req : Request) : Z := Z.ldiff (Structural (Required req)) (AllowLossy req).

(** What a deployment must satisfy to serve a request in a session. *)
Record admissible (req : Request) (st : sessionState) (p : pins) (d : Deployment) : Prop := {
  ad_fresh : dID d ∉ tried st;
  ad_deployment : pdeployment p <> "" -> dID d = pdeployment p;
  ad_family : pfamily p <> "" -> Family d = pfamily p;
  ad_caps : Has (Capabilities d) (needed req) = true;
  ad_ceiling : enforceOut d = true -> qMaxOutput req <= MaxOutputTokens d;
  ad_window : 0 < ContextWindow d ->
    i64 (InputTokens req + outputReserve (qMaxOutput req) (MaxOutputTokens d) (ContextWindow d)) <= ContextWindow d }.

Lemma resolve_hard l : forall p, (pcredential p <> "" -> hard p = true) ->
  pcredential (foldl resolve_one p l) <> "" -> hard (foldl resolve_one p l) = true.
Proof.
  induction l as [|x l IH]; intros p Hp; [exact Hp|]. apply IH.
  unfold resolve_one. destruct (Strength x); cbn; [exact Hp|reflexivity].
Qed.
Lemma resolvePins_hard l : pcredential (resolvePins l) <> "" -> hard (resolvePins l) = true.
Proof. apply resolve_hard. cbn. congruence. Qed.

(** What a candidate is apart from its scores. *)
Definition core (c : candidate) : Deployment * list Candidate * string * bool := (dep c, creds c, preferred c, pinned c).

Lemma map_core_elem (l l' : list candidate) c : map core l ≡ₚ map core l' -> c ∈ l -> exists c', c' ∈ l' /\ core c' = core c.
Proof.
  intros P Hc. assert (core c ∈ map core l) as Hm by (apply list_elem_of_fmap_2, Hc).
  rewrite P in Hm. apply list_elem_of_fmap in Hm as (c' & E & H'). eauto.
Qed.

Lemma order_core chain cands : map core (order chain cands) ≡ₚ map core cands.
Proof.
  assert (forall l, map core l = map core (map pure l)) as E by (intros l; rewrite map_map; reflexivity).
  rewrite (E (order chain cands)), (E cands). apply fmap_Permutation, order_perm.
Qed.

Lemma pass_core {X} (f : X -> candidate -> X * candidate) l : (forall x c, core (f x c).2 = core c) ->
  forall x, map core (pass f x l).2 = map core l.
Proof.
  intros Hf. induction l as [|c l IH]; intros x; [reflexivity|]. cbn [pass].
  pose proof (Hf x c) as E. destruct (f x c) as [x1 c1]. pose proof (IH x1) as E1.
  destruct (pass f x1 l) as [x2 cs]. cbn in *. congruence.
Qed.

Lemma mark_core f g l : (forall c, core (g c) = core c) -> map core (mark_first f g l) = map core l.
Proof. intros Hg. induction l as [|c l IH]; [reflexivity|]. cbn [mark_first]. destruct (f c); cbn; [rewrite Hg|rewrite IH]; reflexivity. Qed.

Lemma rr_loop_core ranks : forall total l cur cu, map core (rr_loop ranks total l cur cu).1 = map core l.
Proof.
  induction ranks as [|k ranks IH]; intros total l cur cu; [reflexivity|]. cbn [rr_loop].
  destruct (rr_scan 0 l cur None) as [cur1 [[best y]|]]; [|reflexivity]. rewrite IH.
  transitivity (core <$> alter (fun c => set_rr c (Z.of_nat k)) best l); [reflexivity|].
  rewrite (list_fmap_alter core _ (fun x => x)) by (apply Forall_forall; reflexivity).
  rewrite list_alter_id by reflexivity. reflexivity.
Qed.

Lemma assignRR_core cu l : map core (assignRR cu l).1 = map core l.
Proof. unfold assignRR. rewrite rr_loop_core, map_map. reflexivity. Qed.

Section Safe.
Context {S R : Type} `{HL : SubsystemLaws S R}.
Variable r : Router.
Implicit Types x : RState (S := S).

Definition keeps_core (f : RState (S := S) * list candidate -> RState (S := S) * list candidate) : Prop :=
  forall y, map core (f y).2 = map core y.2.

Lemma when_core b f : keeps_core f -> keeps_core (when b f).
Proof. intros K y. destruct b; [apply K|reflexivity]. Qed.

Lemma map_core f l : (forall c, core (f c) = core c) -> map core (map f l) = map core l.
Proof. intros Hf. rewrite map_map. apply map_ext, Hf. Qed.

Lemma score_core x cands chain req p pin now : map core (score r x cands chain req p pin now).2 = map core cands.
Proof.
  unfold score. destruct (length cands =? 0)%nat; [reflexivity|]. rewrite !when_core; [reflexivity|..].
  - intros [x0 l]. unfold score_prefix. destruct (PrefixLookup _ _ _ _) as [s [[target depth]|]]; [|reflexivity].
    apply mark_core. reflexivity.
  - intros y. apply map_core. reflexivity.
  - intros y. apply pass_core. intros x0 c. destruct (Price _ _ _ _ _ _) as [[[] n]|]; reflexivity.
  - intros y. apply map_core. reflexivity.
  - intros y. apply pass_core. intros x0 c. destruct (TTFT (sub x0) (dID (dep c))); reflexivity.
  - intros y. apply pass_core. intros x0 c. destruct (TokensPerSec (sub x0) (dID (dep c))); reflexivity.
  - intros y. apply pass_core. intros x0 c. destruct (LastSuccess (sub x0) (dID (dep c))); reflexivity.
  - intros y. apply map_core. intros c. cbv beta zeta. repeat case_goal; reflexivity.
  - intros y. unfold score_rr. pose proof (assignRR_core (current y.1) y.2) as E.
    destruct (assignRR _ _). exact E.
  - intros y. apply pass_core. intros x0 c. destruct (Rand (sub x0)) as [s0 u]. reflexivity.
Qed.

(** ** The filter *)

(** The quota source allowed the credential when it was asked. *)
Definition quota_passed (cred : string) (now : Z) : Prop :=
  exists s s' reset, QuotaCheck s cred now = (s', (true, reset)).

(** The accounts a candidate may be served by. *)
Definition accounts_ok (p : pins) (now : Z) (d : Deployment) (cs : list Candidate) (pref : string) : Prop :=
  if String.eqb (pcredential p) "" then
    (forall k, k ∈ cs -> k ∈ caps d /\ quota_passed (ID k) now) /\ (cs = [] -> Credentials d = [] /\ pref = "")
  else exists k, k ∈ caps d /\ cs = [k] /\ ID k = pcredential p /\ quota_passed (ID k) now /\ pref = pcredential p.

Lemma quotaOK_passed x t cred now x' t' : quotaOK x t cred now = (x', t', true) -> quota_passed cred now.
Proof.
  unfold quotaOK. destruct (QuotaCheck (sub x) cred now) as [s [allow reset]] eqn:E.
  destruct allow; [intros _; exists (sub x), s, reset; exact E|]. destruct (_ || _); discriminate.
Qed.

Lemma quota_all_passed cs now : forall x t x' t', quota_all x t cs now = (x', t', true) ->
  forall c, c ∈ cs -> quota_passed (credID c) now.
Proof.
  induction cs as [|c cs IH]; intros x t x' t' E k Hk; [inversion Hk|]. cbn [quota_all] in E.
  destruct (quotaOK x t (credID c) now) as [[x1 t1] ok] eqn:Q. destruct ok; [|discriminate].
  apply elem_of_cons in Hk as [->|Hk]; [exact (quotaOK_passed _ _ _ _ _ _ Q)|exact (IH _ _ _ _ E k Hk)].
Qed.

Lemma quota_filter_passed l now : forall x t x' t' ks, quota_filter x t l now = (x', t', ks) ->
  forall k, k ∈ ks -> exists c, (c, k) ∈ l /\ quota_passed (credID c) now.
Proof.
  induction l as [|[c k0] l IH]; intros x t x' t' ks E k Hk; cbn [quota_filter] in E; [injection E as <- <- <-; inversion Hk|].
  destruct (quotaOK x t (credID c) now) as [[x1 t1] ok] eqn:Q.
  destruct (quota_filter x1 t1 l now) as [[x2 t2] ks'] eqn:F. injection E as <- <- <-.
  assert (k ∈ ks' -> exists c0, (c0, k) ∈ (c, k0) :: l /\ quota_passed (credID c0) now) as Rest.
  { intros Hr. destruct (IH _ _ _ _ _ F k Hr) as (c0 & Hin & Hp). exists c0. split; [right; exact Hin|exact Hp]. }
  destruct ok; [|exact (Rest Hk)]. apply elem_of_cons in Hk as [->|Hk]; [|exact (Rest Hk)].
  exists c. split; [left|exact (quotaOK_passed _ _ _ _ _ _ Q)].
Qed.

Lemma rotate_creds_nil x d x' pref : rotate_creds r x d [] = (x', pref) -> pref = "".
Proof. unfold rotate_creds. destruct (rRotation r) as [[]|]; cbn; intros E; injection E as _ <-; reflexivity. Qed.

Lemma caps_credential d k : deployment_wf d -> k ∈ caps d -> exists c, c ∈ Credentials d /\ k = candidate_of d c /\ ID k = credID c.
Proof.
  intros W Hk. rewrite (dw_caps d W) in Hk. apply list_elem_of_fmap in Hk as (c & -> & Hc). exists c. auto.
Qed.

Lemma eligible_ok x t d p pin now x' t' cs pref : deployment_wf d ->
  eligible r x t d p pin now = (x', t', Some (cs, pref)) -> accounts_ok p now d cs pref.
Proof.
  intros W E. unfold eligible in E. unfold accounts_ok. destruct (String.eqb (pcredential p) "") eqn:Ep; cbn [negb] in E.
  - destruct (quota_all x t (Credentials d) now) as [[x1 t1] all] eqn:QA.
    destruct (if all then (x1, t1, caps d) else quota_filter x1 t1 (combine (Credentials d) (caps d)) now) as [[x2 t2] cs2] eqn:QF.
    assert (forall k, k ∈ cs2 -> k ∈ caps d /\ quota_passed (ID k) now) as Hall.
    { intros k Hk. destruct all.
      - injection QF as <- <- <-. split; [exact Hk|].
        destruct (caps_credential d k W Hk) as (c & Hc & _ & ->). exact (quota_all_passed _ _ _ _ _ _ QA c Hc).
      - destruct (quota_filter_passed _ _ _ _ _ _ _ QF k Hk) as (c & Hin & Hq).
        rewrite (dw_caps d W) in Hin. apply list_elem_of_In in Hin.
        assert (k = candidate_of d c /\ c ∈ Credentials d) as (-> & Hc).
        { clear -Hin. induction (Credentials d) as [|c0 l IH]; [destruct Hin|]. cbn in Hin.
          destruct Hin as [E|Hin]; [injection E as -> <-; split; [reflexivity|left]|].
          destruct (IH Hin) as (E & Hc). split; [exact E|right; exact Hc]. }
        split; [rewrite (dw_caps d W); apply list_elem_of_fmap_2, Hc|exact Hq]. }
    destruct ((length cs2 =? 0)%nat && (0 <? length (Credentials d))%nat) eqn:B; [discriminate|].
    match type of E with context [if String.eqb ?q "" then rotate_creds r x2 d cs2 else _] => set (pf := q) in E end.
    destruct (if String.eqb pf "" then rotate_creds r x2 d cs2 else (x2, pf)) as [x3 pf'] eqn:RT.
    injection E as <- <- <- <-. split; [exact Hall|]. intros ->.
    assert (Credentials d = []) as Hn by (destruct (Credentials d); [reflexivity|discriminate B]).
    split; [exact Hn|]. assert (forall c, bool_decide (is_Some (credIndex d !! c)) = false) as Hk.
    { intros c. apply bool_decide_eq_false_2. intros [i Hi]. destruct (dw_index d W c i Hi) as (k & Hk & _).
      rewrite Hn, lookup_nil in Hk. discriminate. }
    assert (pf = "") as Epf.
    { subst pf. rewrite Hk, andb_false_r. destruct pin as [e|]; [rewrite Hk, andb_false_r|]; reflexivity. }
    rewrite Epf in RT. exact (rotate_creds_nil _ _ _ _ RT).
  - destruct (credIndex d !! pcredential p) as [i|] eqn:Ei; [|discriminate].
    destruct (quotaOK x t (pcredential p) now) as [[x1 t1] ok] eqn:Q. destruct ok; [|discriminate].
    injection E as <- <- <- <-. destruct (dw_index d W _ _ Ei) as (k & Hk & Ek).
    exists (candidate_of d k). assert (caps d !! i = Some (candidate_of d k)) as Hc
      by (rewrite (dw_caps d W); exact (eq_trans (list_lookup_fmap _ _ _) (f_equal (fmap _) Hk))).
    assert (ID (candidate_of d k) = pcredential p) as Eid by exact Ek.
    split_and!; [eapply list_elem_of_lookup_2, Hc| |exact Eid|rewrite Eid; exact (quotaOK_passed _ _ _ _ _ _ Q)|reflexivity].
    rewrite (drop_S _ _ _ Hc). reflexivity.
Qed.

(** What the filter establishes of a candidate. *)
Record candidate_ok (ds : list Deployment) (req : Request) (st : sessionState) (p : pins) (now : Z) (c : candidate) : Prop := {
  co_dep : dep c ∈ ds;
  co_admissible : admissible req st p (dep c);
  co_accounts : accounts_ok p now (dep c) (creds c) (preferred c) }.

Lemma candidate_ok_core ds req st p now c c' : core c = core c' -> candidate_ok ds req st p now c -> candidate_ok ds req st p now c'.
Proof. unfold core. intros E [O1 O2 O3]. injection E as E1 E2 E3 E4. rewrite E1, ?E2, ?E3 in *. split; assumption. Qed.

Lemma filter_loop_ok ds0 req st p pin now ds : Forall deployment_wf ds -> ds ⊆ ds0 -> forall x t n x' t' cands,
  filter_loop r x t ds n req st p (needed req) pin now = (x', t', cands) ->
  forall c, c ∈ cands -> candidate_ok ds0 req st p now c.
Proof.
  induction ds as [|d ds IH]; intros W Sub x t n x' t' cands E c Hc; cbn [filter_loop] in E.
  { injection E as <- <- <-. inversion Hc. }
  inversion W as [|? ? Wd W']; subst. specialize (IH W' ltac:(set_solver)).
  destruct (bool_decide (dID d ∈ tried st)) eqn:B1; [exact (IH _ _ _ _ _ _ E c Hc)|].
  destruct (negb (String.eqb (pdeployment p) "") && _) eqn:B2; [exact (IH _ _ _ _ _ _ E c Hc)|].
  destruct (negb (String.eqb (pfamily p) "") && _) eqn:B3; [exact (IH _ _ _ _ _ _ E c Hc)|].
  destruct (negb (Has _ _)) eqn:B4; [exact (IH _ _ _ _ _ _ E c Hc)|].
  destruct (enforceOut d && _) eqn:B5; [exact (IH _ _ _ _ _ _ E c Hc)|].
  destruct ((0 <? ContextWindow d) && _) eqn:B6; [exact (IH _ _ _ _ _ _ E c Hc)|].
  destruct (eligible r x _ d p pin now) as [[x1 t1] [[cs cred]|]] eqn:El; [|exact (IH _ _ _ _ _ _ E c Hc)].
  destruct (filter_loop r x1 t1 ds (n + 1) req st p (needed req) pin now) as [[x2 t2] rest] eqn:F.
  injection E as <- <- <-. apply elem_of_cons in Hc as [->|Hc]; [|exact (IH _ _ _ _ _ _ F c Hc)].
  split; [cbn; apply Sub; left| |exact (eligible_ok _ _ _ _ _ _ _ _ _ _ Wd El)]. cbn. split.
  - exact (bool_decide_eq_false_1 _ B1).
  - intros N. apply andb_false_iff in B2 as [B2|B2]; apply negb_false_iff, String.eqb_eq in B2; congruence.
  - intros N. apply andb_false_iff in B3 as [B3|B3]; apply negb_false_iff, String.eqb_eq in B3; congruence.
  - apply negb_false_iff, B4.
  - intros N. rewrite N in B5. apply Z.ltb_ge, B5.
  - intros N. rewrite (proj2 (Z.ltb_lt _ _) N) in B6. apply Z.ltb_ge, B6.
Qed.

(** ** The walk *)

Definition allowed (id : string) (now : Z) : Prop := exists s s', Allow s id now = (s', true).

(** The reservation is on an account of the candidate. *)
Definition on_account (c : candidate) (res : R) : Prop :=
  CredentialID res ∈ map ID (creds c) \/ (creds c = [] /\ CredentialID res = "").

Lemma acquire_names x req c now x' res : acquire r x req c now = (x', Ok (Some res)) -> on_account c res.
Proof.
  unfold acquire. set (q := capacity_request _ _ _ _ _). intros E.
  assert (names_candidate q (CredentialID res)) as N; [|exact N].
  destruct (0 <? _).
  - destruct (AcquireWait _ _ _ _) as [s [res'|e]] eqn:A; [|destruct e; discriminate].
    injection E as <- <-. eapply AcquireWait_names, A.
  - destruct (TryAcquire _ _ _) as [s res'] eqn:A. injection E as <- ->. eapply TryAcquire_names, A.
Qed.

Lemma walk_spec chain req now cands : forall x u sat busy x' w, walk r x cands chain req now u sat busy = (x', w) ->
  match w with
  | Took c res => c ∈ cands /\ allowed (dID (dep c)) now /\ on_account c res
  | Stopped _ _ busy' => forall c, c ∈ busy' -> c ∈ busy \/ c ∈ cands /\ allowed (dID (dep c)) now
  end.
Proof.
  induction cands as [|c cands IH]; intros x u sat bu x' w E; cbn [walk] in E; [injection E as <- <-; auto|].
  assert (forall w', match w' with
            | Took c0 res => c0 ∈ cands /\ allowed (dID (dep c0)) now /\ on_account c0 res
            | Stopped _ _ busy' => forall c0, c0 ∈ busy' -> c0 ∈ bu \/ c0 ∈ cands /\ allowed (dID (dep c0)) now
            end ->
          match w' with
            | Took c0 res => c0 ∈ c :: cands /\ allowed (dID (dep c0)) now /\ on_account c0 res
            | Stopped _ _ busy' => forall c0, c0 ∈ busy' -> c0 ∈ bu \/ c0 ∈ c :: cands /\ allowed (dID (dep c0)) now
            end) as Wk.
  { intros [c0 res|u' s' b']; [intros (A & B & C); split_and!; [right; exact A|exact B|exact C]|].
    intros Hb c0 H0. destruct (Hb c0 H0) as [|[A B]]; [auto|right; split; [right; exact A|exact B]]. }
  destruct (match bu with b :: _ => _ | [] => false end); [injection E as <- <-; auto|].
  destruct (Allow (sub x) (dID (dep c)) now) as [s ok] eqn:Al.
  destruct ok; cbn [negb] in E; [|exact (Wk _ (IH _ _ _ _ _ _ E))].
  destruct (acquire r (set_sub x s) req c now) as [x1 [[res|]|e]] eqn:Ac.
  - injection E as <- <-. split_and!; [left|exists (sub x), s; exact Al|exact (acquire_names _ _ _ _ _ _ Ac)].
  - pose proof (IH _ _ _ _ _ _ E) as Hw. destruct w as [c0 res|u' s' b']; [exact (Wk (Took c0 res) Hw)|].
    intros c0 H0. destruct (Hw c0 H0) as [H1|H1]; [|right; split; [right|]; apply H1].
    apply elem_of_app in H1 as [H1|H1]; [auto|]. apply list_elem_of_singleton in H1 as ->.
    right. split; [left|exists (sub x), s; exact Al].
  - destruct e; try exact (Wk _ (IH _ _ _ _ _ _ E)). injection E as <- <-. auto.
Qed.

Lemma wait_pool_spec x bu req p alive now x' c res : wait_pool x bu req p alive now = (x', Some (c, res)) ->
  c ∈ bu /\ on_account c res.
Proof.
  unfold wait_pool. destruct bu as [|f bu]; [discriminate|]. destruct (_ && _); [|discriminate].
  destruct (AcquireWait _ _ _ _) as [s [q|e]]; [|discriminate].
  destruct (List.find _ (f :: bu)) as [c0|] eqn:F; [|discriminate]. intros E. injection E as <- <- <-.
  apply find_some in F as (Hin & B). apply andb_prop in B as (B & _). split; [apply list_elem_of_In, Hin|].
  left. apply existsb_exists in B as (k & Hk & Ek). apply String.eqb_eq in Ek. rewrite <- Ek.
  apply list_elem_of_fmap_2, list_elem_of_In, Hk.
Qed.

(** What a decision is made of. *)
Record decided (c : candidate) (st : sessionState) (res : R) (d : Decision (R := R)) : Prop := {
  de_id : Deployment_ d = dID (dep c);
  de_cred : Credential_ d = if String.eqb (CredentialID res) "" then preferred c else CredentialID res;
  de_res : Reservation d = res;
  de_attempt : Attempt d = attempts st + 1;
  de_caps : Capabilities_ d = Capabilities (dep c) }.

Lemma decide_decided x c chain cands req st p res now x' d :
  decide r x c chain cands req st p res now = (x', d) -> decided c st res d.
Proof.
  unfold decide. destruct (match Wire _ _ _ with Some (v, f) => _ | None => _ end) as [[prio field] unverified].
  intros E. injection E as _ <-. split; reflexivity.
Qed.

Lemma dispatch_spec x cands chain req st p alive now x' d :
  dispatch r x cands chain req st p alive now = (x', Ok d) ->
  exists c res, c ∈ cands /\ allowed (dID (dep c)) now /\ on_account c res /\ decided c st res d.
Proof.
  unfold dispatch. destruct (walk r x cands chain req now 0 0 []) as [x1 w] eqn:W. pose proof (walk_spec _ _ _ _ _ _ _ _ _ _ W) as Hw.
  destruct w as [c res|u sat bu].
  - destruct (decide _ _ _ _ _ _ _ _ _ _) as [x2 d2] eqn:D. intros E. injection E as <- <-.
    exists c, res. destruct Hw as (H1 & H2 & H3). split_and!; [exact H1|exact H2|exact H3|exact (decide_decided _ _ _ _ _ _ _ _ _ _ _ D)].
  - destruct (wait_pool x1 bu req p alive now) as [x2 [[c res]|]] eqn:P; [|discriminate].
    destruct (decide _ _ _ _ _ _ _ _ _ _) as [x3 d2] eqn:D. intros E. injection E as <- <-.
    destruct (wait_pool_spec _ _ _ _ _ _ _ _ _ P) as (Hc & Ha). destruct (Hw c Hc) as [Hn|[H1 H2]]; [inversion Hn|].
    exists c, res. split_and!; [exact H1|exact H2|exact Ha|exact (decide_decided _ _ _ _ _ _ _ _ _ _ _ D)].
Qed.

(** ** The width of the fit check *)

(** C13. The fit check adds the prompt and the output a caller asks for in 64 bits.
    An output ceiling close to the largest integer wraps the sum, and a deployment
    whose window holds neither takes the request: the filter accepts it. Nothing
    on the way from the request body bounds the ceiling. *)
Theorem huge_output_passes_window x req st p pin now d x' t' cs cred :
  dID d ∉ tried st -> (pdeployment p = "" \/ dID d = pdeployment p) -> (pfamily p = "" \/ Family d = pfamily p) ->
  Has (Capabilities d) (needed req) = true -> enforceOut d = false -> 0 < ContextWindow d < two63 ->
  0 < InputTokens req < two63 -> qMaxOutput req < two63 -> two63 <= InputTokens req + qMaxOutput req ->
  eligible r x (with_union no_tally (Capabilities d)) d p pin now = (x', t', Some (cs, cred)) ->
  ContextWindow d < InputTokens req + outputReserve (qMaxOutput req) (MaxOutputTokens d) (ContextWindow d) /\
  filter r x [d] req st p pin now =
    (x', Ok [fresh_candidate d 0 cs cred (hard p && negb (String.eqb (pcredential p) ""))]).
Proof.
  intros Ht Hd Hf Hc He Hw Hi Hm Ho El.
  assert (outputReserve (qMaxOutput req) (MaxOutputTokens d) (ContextWindow d) = qMaxOutput req) as Eo
    by (unfold outputReserve; rewrite (proj2 (Z.ltb_lt 0 _)) by lia; reflexivity).
  assert (i64 (InputTokens req + qMaxOutput req) = InputTokens req + qMaxOutput req - two64) as Ei.
  { unfold i64. widths. rewrite (Z.mod_eq _ 18446744073709551616) by lia.
    replace ((InputTokens req + qMaxOutput req + 9223372036854775808) / 18446744073709551616) with 1; [lia|].
    apply Z.div_unique with (InputTokens req + qMaxOutput req + 9223372036854775808 - 18446744073709551616); lia. }
  rewrite Eo. split; [lia|]. unfold filter. cbn [filter_loop]. rewrite bool_decide_eq_false_2 by exact Ht.
  assert (forall a b, a = "" \/ b = a -> negb (String.eqb a "") && negb (String.eqb b a) = false) as Pin.
  { intros a b [->| ->]; [reflexivity|]. rewrite String.eqb_refl, andb_false_r. reflexivity. }
  rewrite (Pin _ _ Hd), (Pin _ _ Hf). fold (needed req). rewrite Hc, He. cbn [negb andb]. rewrite Eo, Ei.
  rewrite (proj2 (Z.ltb_ge (ContextWindow d) _)) by (widths; lia). rewrite andb_false_r, El. reflexivity.
Qed.
End Safe.

(** ** Witness *)

#[local] Existing Instances Demo.subsystems.

(** A prompt twice the window, asking for the largest output. *)
Definition huge_request : Request :=
  mkRequest "m" "user" "" "" 1 0 [] [] "" None 0 2000 true "" (two63 - 1) false false.

Definition demo_deployment_a : Deployment := default (Demo.deployment "" "" "") (byID Demo.router !! "a").

Lemma huge_output_passes_window_witness :
  (filter Demo.router Demo.state [demo_deployment_a] huge_request (newSession 0) (resolvePins []) None 0).2 =
    Ok [fresh_candidate demo_deployment_a 0 (caps demo_deployment_a) "" false] /\ ContextWindow demo_deployment_a = 1000.
Proof.
  split; [|vm_compute; reflexivity].
  refine (f_equal snd (proj2 (huge_output_passes_window Demo.router Demo.state huge_request (newSession 0) (resolvePins []) None 0
    demo_deployment_a Demo.state (with_union no_tally (Capabilities demo_deployment_a)) _ _ _ _ _ _ _ _ _ _ _ _)));
    try (vm_compute; tauto); try (vm_compute; reflexivity); try (vm_compute; split; reflexivity);
    try (left; reflexivity); try (vm_compute; discriminate); try (cbn; set_solver).
Defined.
