(* ===== verification/RouterSession.v ===== *)
(** * Decisions and sessions

    The promises of [Route] for one decision, and those of the session that joins
    the attempts of one request, as a step relation. *)
From Stdlib Require Import String.
From stdpp Require Import base gmap list strings.
From Stdlib Require Import ZArith Lia.
From S2P Require Import Prelude GoTime F64 Axis PrefixTable GoSort Router RouterOrder RouterRoute RouterNew RouterSystem RouterProps RouterSafe.
Open Scope Z_scope.

(** The session a request continues, or the one it starts. *)
Definition session_of (prev : option sessionState) (now : Z) : sessionState :=
  match prev with Some st => st | None => newSession now end.
Definition hop_of (prev : option sessionState) : Cause := match prev with Some st => cause st | None => CauseNone end.

Lemma universe_known r g st c d n : router_wf r -> groups r !! n = Some g -> d ∈ universe r g st c ->
  byID r !! dID d = Some d /\ deployment_wf d.
Proof.
  intros W Hg Hd. assert (exists m h, groups r !! m = Some h /\ d ∈ gDeployments h) as (m & h & Hh & Hm).
  { assert (forall l b f, d ∈ appendLarger l b f -> d ∈ l) as Sub.
    { intros l b f H0. apply list_elem_of_In, filter_In in H0 as [H0 _]. apply list_elem_of_In, H0. }
    unfold universe in Hd. destruct c; cbv zeta in Hd; [eauto|..];
      (destruct (chains r _ !! _) as [t|]; [|inversion Hd]);
      (destruct t; [eauto|..]);
      (destruct (String.eqb (gClass g) ""); [exists n, g; split; [exact Hg|eapply Sub, Hd]|]);
      apply list_elem_of_In, in_flat_map in Hd as (h & Hh & Hd);
      (destruct (classes r !! gClass g) as [gs|] eqn:K; [|destruct Hh]);
      (exists (gName h), h; split; [eapply rw_class; [exact W|exact K|apply list_elem_of_In, Hh]|
        eapply Sub, list_elem_of_In, Hd]). }
  destruct (rw_group r W m h Hh) as (_ & _ & Hall). destruct (Hall d Hm) as (Hb & _). split; [exact Hb|].
  apply (sw_self _ (rw_seen r W) _ _ Hb).
Qed.

Section Session.
Context {S R : Type} `{HL : SubsystemLaws S R}.
Variable r : Router.
Implicit Types x : RState (S := S).

(** A decision, followed back to the candidate it took. *)
Record routed (req : Request) (prev : option sessionState) (now : Z) (d : Decision (R := R)) (st' : sessionState)
    (g : Group) (c : candidate) (res : R) : Prop := {
  ro_boundary : match prev with Some st => canFallBack r st now = None | None => True end;
  ro_group : group r (qModel req) = Some g;
  ro_candidate : candidate_ok (S := S) (R := R) (universe r g (session_of prev now) (hop_of prev)) req (session_of prev now)
                   (resolvePins (Pins req)) now c;
  ro_allowed : allowed (S := S) (R := R) (dID (dep c)) now;
  ro_account : on_account c res;
  ro_decided : decided c (session_of prev now) res d;
  ro_session : exists key window, st' =
    mkSession (started (session_of prev now)) (tried (session_of prev now) ++ [Deployment_ d]) (Digests req)
      (cause (session_of prev now)) (sfailed (session_of prev now)) (firstByte (session_of prev now)) false (Attempt d) window
      (resetAt (session_of prev now)) key (negb (sticky_zero key)) }.

Lemma group_named req g : router_wf r -> group r req = Some g -> exists n, groups r !! n = Some g.
Proof. unfold group. eauto. Qed.

Lemma Route_routed x req prev alive now x' d st' : router_wf r ->
  Route r x req prev alive now = (x', Ok (d, st')) -> exists g c res, routed req prev now d st' g c res.
Proof.
  intros W. unfold Route. fold (session_of prev now) (hop_of prev). set (st := session_of prev now). set (hop := hop_of prev).
  destruct (match prev with Some st => canFallBack r st now | None => None end) eqn:Cf; [discriminate|].
  destruct (group r (qModel req)) as [g|] eqn:G; [|discriminate].
  destruct (_ && bool_decide (hop = _)); [discriminate|].
  destruct (match pinsAt x with Some s => _ | None => (None, None) end) as [store pin].
  destruct (filter r _ _ _ _ _ _ _) as [x1 [cands|e]] eqn:F; [|discriminate].
  destruct (score r x1 cands _ req _ pin now) as [x2 cands2] eqn:Sc.
  destruct (dispatch r x2 _ _ req st _ alive now) as [x3 [d0|e]] eqn:D; [|discriminate].
  intros E. injection E as <- <- <-.
  destruct (dispatch_spec _ _ _ _ _ _ _ _ _ _ _ D) as (c & res & Hc & Ha & Ho & Hd).
  destruct (map_core_elem _ _ c (order_core _ _) Hc) as (c1 & Hc1 & E1).
  pose proof (score_core r x1 cands (match gStrategy g with [] => rStrategy r | c => c end) req (resolvePins (Pins req)) pin now) as Es.
  rewrite Sc in Es. cbn [snd] in Es.
  destruct (map_core_elem cands2 cands c1 ltac:(rewrite Es; reflexivity) Hc1) as (c2 & Hc2 & E2).
  unfold filter in F. destruct (filter_loop _ _ _ _ _ _ _ _ _ _ _) as [[x4 t4] l] eqn:FL.
  assert (c2 ∈ l) as Hl by (destruct l; [discriminate|]; injection F as _ <-; exact Hc2).
  destruct (group_named _ _ W G) as (n & Hn).
  assert (Forall deployment_wf (universe r g st hop)) as Wf
    by (apply Forall_forall; intros dp Hdp; eapply universe_known; eauto).
  pose proof (filter_loop_ok r (universe r g st hop) req st _ _ now _ Wf ltac:(reflexivity) _ _ _ _ _ _ FL c2 Hl) as Ok2.
  exists g, c, res. split.
  - destruct prev; [exact Cf|exact I].
  - exact G.
  - eapply candidate_ok_core; [|exact Ok2]. congruence.
  - exact Ha.
  - exact Ho.
  - destruct (bool_decide (hop = CauseNone)); [exact Hd|]. destruct Hd as [D1 D2 D3 D4 D5]. split; assumption.
  - eexists _, _. reflexivity.
Qed.


(** The account behind a decision: a credential of the deployment the quota source
    allowed, or none when the deployment has none. *)
Lemma account_cases p now d c res : deployment_wf d -> dep c = d ->
  accounts_ok (S := S) (R := R) p now d (creds c) (preferred c) -> on_account c res ->
  (exists k, k ∈ Credentials d /\ credID k = CredentialID res /\ CredentialID res <> "" /\
     quota_passed (S := S) (R := R) (credID k) now /\ (pcredential p <> "" -> CredentialID res = pcredential p)) \/
  (Credentials d = [] /\ CredentialID res = "" /\ preferred c = "" /\ pcredential p = "").
Proof.
  intros W <- Cs Ho. unfold accounts_ok in Cs.
  assert (forall k, k ∈ caps (dep c) -> quota_passed (S := S) (R := R) (ID k) now -> (pcredential p <> "" -> ID k = pcredential p) ->
    exists q, q ∈ Credentials (dep c) /\ credID q = ID k /\ ID k <> "" /\
     quota_passed (S := S) (R := R) (credID q) now /\ (pcredential p <> "" -> ID k = pcredential p)) as Own.
  { intros k Hk Hq Hp. destruct (caps_credential _ _ W Hk) as (q & Hc & _ & Eq). exists q. rewrite <- Eq.
    split_and!; [exact Hc|reflexivity| |exact Hq|exact Hp]. rewrite Eq. exact (proj1 (Forall_forall _ _) (dw_creds _ W) q Hc). }
  destruct (String.eqb_spec (pcredential p) "") as [Ep|Ep].
  - destruct Cs as (C1 & C2). destruct Ho as [Hm|[Hn Hr]]; [left|right].
    + apply list_elem_of_fmap in Hm as (k & -> & Hk). destruct (C1 k Hk) as (C3 & C4). apply Own; [exact C3|exact C4|congruence].
    + destruct (C2 Hn). auto.
  - destruct Cs as (k & C1 & C2 & C3 & C4 & _). unfold on_account in Ho. rewrite C2 in Ho. left.
    destruct Ho as [Hm|[Hn _]]; [|discriminate]. apply list_elem_of_singleton in Hm as ->. apply Own; auto.
Qed.

(** C7. A decision is on an account of its own deployment and never spills from a
    pinned one: the credential is the one the capacity reservation was taken on,
    the quota source allowed it, and when the request carries opaque state pinned
    to an account, it is that account. A deployment without credentials is served
    without one. *)
Theorem decision_on_own_account x req prev alive now x' d st' : router_wf r ->
  Route r x req prev alive now = (x', Ok (d, st')) ->
  Credential_ d = CredentialID (Reservation d) /\
  (pcredential (resolvePins (Pins req)) <> "" -> Credential_ d = pcredential (resolvePins (Pins req))) /\
  exists dp, byID r !! Deployment_ d = Some dp /\
    ((Credentials dp = [] /\ Credential_ d = "") \/
     (exists k, k ∈ Credentials dp /\ credID k = Credential_ d /\ quota_passed (S := S) (R := R) (credID k) now)).
Proof.
  intros W E. destruct (Route_routed _ _ _ _ _ _ _ _ W E) as (g & c & res & Q).
  destruct (group_named _ _ W (ro_group _ _ _ _ _ _ _ _ Q)) as (n & Hn).
  destruct (ro_candidate _ _ _ _ _ _ _ _ Q) as [Cd _ Cs]. destruct (ro_decided _ _ _ _ _ _ _ _ Q) as [D1 D2 D3 _ _].
  destruct (universe_known _ _ _ _ _ _ W Hn Cd) as (Hb & Hwf). rewrite D1, D2, D3.
  destruct (account_cases _ _ _ _ _ Hwf eq_refl Cs (ro_account _ _ _ _ _ _ _ _ Q))
    as [(k & Hk & Ek & Hne & Hq & Hp)|(Hnil & Er & Epr & Ep)].
  - rewrite (proj2 (String.eqb_neq _ _) Hne). split_and!; [reflexivity|exact Hp|]. eauto 10.
  - rewrite Er, Epr. cbn. split_and!; [reflexivity|congruence|]. eauto.
Qed.

(** ** Sessions *)

(** What happens to one session, whatever happens to the router in between. A
    refused [Route] leaves the session as it is. *)
Inductive sstep : sessionState -> sessionState -> Prop :=
| step_hop x req st alive now x' d st' : Route r x req (Some st) alive now = (x', Ok (d, st')) -> sstep st st'
| step_report x (d : Decision (R := R)) st o now x' st' : Report r x d st o now = (x', st') -> sstep st st'.

Definition session_reaches (st : sessionState) : Prop :=
  exists x req alive now x' d st0, Route r x req None alive now = (x', Ok (d, st0)) /\ rtc sstep st0 st.

Lemma Report_session x (d : Decision (R := R)) st o now x' st' : Report r x d st o now = (x', st') ->
  tried st' = tried st /\ attempts st' = attempts st /\ (firstByte st = true -> firstByte st' = true).
Proof.
  unfold Report. destruct (bool_decide _ && _); intros E; injection E as _ <-; cbn; split_and!; auto; intros ->; reflexivity.
Qed.

(** The counts of a session after [n] attempts. *)
Record session_ok (st : sessionState) : Prop := {
  so_nodup : NoDup (tried st);
  so_count : Z.of_nat (length (tried st)) = attempts st;
  so_some : 1 <= attempts st;
  so_bound : attempts st <= Z.max 0 (MaxHops r) + 1;
  so_known i : i ∈ tried st -> is_Some (byID r !! i) }.

Lemma routed_tried req prev now d st' g c res : router_wf r -> routed req prev now d st' g c res ->
  tried st' = tried (session_of prev now) ++ [Deployment_ d] /\ attempts st' = attempts (session_of prev now) + 1 /\
  Deployment_ d ∉ tried (session_of prev now) /\ is_Some (byID r !! Deployment_ d).
Proof.
  intros W Q. destruct (ro_session _ _ _ _ _ _ _ _ Q) as (key & window & ->). cbn.
  destruct (ro_decided _ _ _ _ _ _ _ _ Q) as [D1 _ _ D4 _]. destruct (ro_candidate _ _ _ _ _ _ _ _ Q) as [Cd Ca _].
  destruct (group_named _ _ W (ro_group _ _ _ _ _ _ _ _ Q)) as (n & Hn).
  rewrite D1. split_and!; [reflexivity|exact D4|apply Ca|]. destruct (universe_known _ _ _ _ _ _ W Hn Cd) as (-> & _). eauto.
Qed.

Lemma session_ok_snoc st st' i : tried st' = tried st ++ [i] -> attempts st' = attempts st + 1 -> i ∉ tried st ->
  is_Some (byID r !! i) -> attempts st + 1 <= Z.max 0 (MaxHops r) + 1 -> NoDup (tried st) -> Z.of_nat (length (tried st)) = attempts st ->
  (forall j, j ∈ tried st -> is_Some (byID r !! j)) -> session_ok st'.
Proof.
  intros E1 E2 Hi Hk Hb Hn Hl Hall. split; rewrite ?E1, ?E2.
  - apply NoDup_app. split_and!; [exact Hn| |apply NoDup_singleton]. intros j Hj Hs. apply list_elem_of_singleton in Hs as ->. auto.
  - rewrite length_app. cbn. lia.
  - lia.
  - exact Hb.
  - intros j [Hj|Hj]%elem_of_app; [auto|]. apply list_elem_of_singleton in Hj as ->. exact Hk.
Qed.

Lemma session_ok_step st st' : router_wf r -> session_ok st -> sstep st st' -> session_ok st' /\ (firstByte st = true -> tried st' = tried st /\ firstByte st' = true).
Proof.
  intros W O Hs. revert O. destruct Hs as [x req st0 alive now x' d st1 E|x d st0 o now x' st1 E]; intros O.
  - destruct (Route_routed _ _ _ _ _ _ _ _ W E) as (g & c & res & Q). destruct (routed_tried _ _ _ _ _ _ _ _ W Q) as (T1 & T2 & T3 & T4).
    pose proof (ro_boundary _ _ _ _ _ _ _ _ Q) as B. cbn in B, T1, T2, T3. unfold canFallBack in B.
    repeat case_hyp B; try discriminate. breflect. destruct O as [O1 O2 O3 O4 O5]. split; [|congruence].
    eapply session_ok_snoc; eauto. lia.
  - destruct (Report_session _ _ _ _ _ _ _ E) as (T1 & T2 & T3). destruct O as [O1 O2 O3 O4 O5].
    split; [split; rewrite ?T1, ?T2; assumption|auto].
Qed.

(** C6. A routing session is bounded. However its attempts and reports interleave
    with everything else the router does, it makes at most one attempt more than
    the configured hops, one when fall-back is off, each on another deployment of
    the router; and once a byte of an attempt has reached the client, no further
    attempt is ever made. *)
Theorem session_bounded st : router_wf r -> session_reaches st ->
  NoDup (tried st) /\ Z.of_nat (length (tried st)) = attempts st /\ 1 <= attempts st <= Z.max 0 (MaxHops r) + 1 /\
  (forall i, i ∈ tried st -> is_Some (byID r !! i)) /\
  (firstByte st = true -> forall st', rtc sstep st st' -> tried st' = tried st).
Proof.
  intros W (x & req & alive & now & x' & d & st0 & E & Hr).
  assert (session_ok st0) as O0.
  { destruct (Route_routed _ _ _ _ _ _ _ _ W E) as (g & c & res & Q). destruct (routed_tried _ _ _ _ _ _ _ _ W Q) as (T1 & T2 & T3 & T4).
    cbn in T1, T2, T3.
    apply (session_ok_snoc (newSession now) st0 (Deployment_ d)); [exact T1|exact T2|exact T3|exact T4|cbn; lia|constructor|reflexivity|].
    intros j Hj. inversion Hj. }
  assert (session_ok st) as O.
  { clear E. induction Hr as [|s1 s2 s3 H1 _ IH]; [exact O0|]. apply IH. apply (session_ok_step s1 s2 W O0 H1). }
  destruct O as [O1 O2 O3 O4 O5]. split_and!; try assumption. intros F st' Hr'.
  assert (session_ok st) as O by (split; assumption). clear -HL W O F Hr'.
  induction Hr' as [|s1 s2 s3 H1 _ IH]; [reflexivity|]. destruct (session_ok_step s1 s2 W O H1) as (O' & K).
  destruct (K F) as (T & F'). rewrite (IH F' O'). exact T.
Qed.
End Session.

(** ** Witnesses *)

#[local] Existing Instances Demo.subsystems Demo.laws.

(** The first decision of a pinned request, its session, and the report of a
    rate limit. *)
Definition demo_route : RState (S := System) * result Error (Decision (R := nat * string) * sessionState) :=
  Route Demo.router Demo.state Demo.request None true 0.


Lemma decision_on_own_account_witness : exists x' d st', demo_route = (x', Ok (d, st')) /\ Credential_ d = "kb".
Proof.
  destruct demo_route as [x' [[d st']|e]] eqn:E; [|exfalso; vm_compute in E; discriminate].
  exists x', d, st'. split; [reflexivity|].
  refine (proj1 (proj2 (decision_on_own_account Demo.router _ _ _ _ _ _ _ _ demo_wf E)) _). vm_compute. discriminate.
Defined.

Lemma session_bounded_witness : exists st, session_reaches (S := System) (R := nat * string) Demo.router st /\
  1 <= attempts st <= 2 /\ NoDup (tried st).
Proof.
  destruct demo_route as [x' [[d st]|e]] eqn:E; [|exfalso; vm_compute in E; discriminate].
  assert (session_reaches (S := System) (R := nat * string) Demo.router st) as Hr.
  { exists Demo.state, Demo.request, true, 0, x', d, st. split; [exact E|constructor]. }
  exists st. split; [exact Hr|]. destruct (session_bounded Demo.router st demo_wf Hr) as (H1 & _ & H3 & _).
  split; [|exact H1]. assert (MaxHops Demo.router = 1) as M by (vm_compute; reflexivity). rewrite M in H3. exact H3.
Defined.
