(* ===== verification/RouterProbe.v ===== *)
(** * Probes the router spends without an answer

    [health.Allow] spends the probe of a half-open circuit, and only a success or a
    liveness failure gives the circuit a new state. The router spends it before it
    knows whether there is capacity, and reports a caller's own mistake as neither;
    the circuit then stays half-open without a probe, whatever time passes. The
    other side of the same rule is that no caller's mistake stands a deployment
    down. *)
From Stdlib Require Import String.
From stdpp Require Import base gmap list strings.
From Stdlib Require Import ZArith Lia SpecFloat.
From S2P Require Import Prelude GoTime F64 Axis WaitQueue Broker Health PrefixTable Meter PriceCatalog Price.
From S2P Require Import GoSort Router RouterRoute RouterNew RouterSystem.
Open Scope Z_scope.

(** An outcome that says nothing about the deployment and stands it down for no
    time: a request the deployment refused, a budget of ours, or an exhausted
    quota with no recovery time. *)
Definition says_nothing (o : Outcome) : Prop :=
  HasErr o = true /\
  match outcome_cause o with
  | CauseBadRequest | CauseContextWindow | CauseContentPolicy | CauseBudgetExceeded => True
  | CauseQuotaExhausted => RetryAfter o <= 0 /\ oResetAt o = Time.zeroTime
  | _ => False
  end.

Section Probe.
Context (account_try : nat -> string -> Z -> bool) (coldest : gmap Digest entry -> list Digest)
  (unspecified : F64.t -> Z) (minus_log : F64.t -> F64.t) (urgency_of : option (string -> F64.t -> Z -> F64.t))
  (static : Static) (priced : bool).
#[local] Instance here : Subsystems System (nat * string) :=
  system account_try coldest unspecified minus_log urgency_of static priced.
Variables (r : Router) (id : string).

(** What can happen to the system without a word about deployment [id]: whatever
    leaves health alone, as a capacity refusal does; a question whether a
    deployment may be tried; and a report of this deployment that says nothing, or
    any report of another one. *)
Inductive quiet : System -> System -> Prop :=
| quiet_else s s' : sHealth s' = sHealth s -> quiet s s'
| quiet_allow s i now : quiet s (Allow s i now).1
| quiet_report x (d : Decision (R := nat * string)) st o now x' st' : Report r x d st o now = (x', st') ->
    (Deployment_ d = id -> says_nothing o) -> quiet (sub x) (sub x').

Definition circuit (s : System) : Health.record := Health.rec (sHealth s) id.

(** Half-open, and no probe left after [k] more questions. *)
Definition spent (k : Z) (s : System) : Prop :=
  rstate (circuit s) = HalfOpen /\ - k <= probesLeft (circuit s) <= 0.

Lemma rec_put t i j x : Health.rec (Health.put t i x) j = if base.decide (i = j) then x else Health.rec t j.
Proof.
  unfold Health.rec, Health.put. cbn. case_decide as E; [subst; rewrite lookup_insert_eq; reflexivity|].
  rewrite lookup_insert_ne by exact E. reflexivity.
Qed.

Lemma spent_allow k s i now : spent k s -> 0 <= k < two63 - 1 -> spent (k + 1) (Allow s i now).1 /\ (Allow s id now).2 = false.
Proof.
  intros (Hs & Hp) Hk. unfold spent, circuit in *. cbn. unfold Health.Allow.
  assert (forall n, allow (topts (sHealth s)) (Health.rec (sHealth s) id) n =
    (set_circuit (Health.rec (sHealth s) id) HalfOpen (consecFails (Health.rec (sHealth s) id)) (openedAtNano (Health.rec (sHealth s) id))
       (probesLeft (Health.rec (sHealth s) id) - 1) (rlStrikes (Health.rec (sHealth s) id)) (opens (Health.rec (sHealth s) id)), false)) as A.
  { intros n. unfold allow, take_probe. rewrite Hs. rewrite i64_id by (widths; lia). f_equal. apply Z.leb_gt. lia. }
  rewrite A. destruct (base.decide (i = id)) as [->|N].
  - rewrite A. cbn. rewrite rec_put, decide_True by reflexivity. cbn. split_and!; [reflexivity|lia|lia|reflexivity].
  - destruct (allow _ (Health.rec _ i) _). cbn. rewrite rec_put, decide_False by exact N. split_and!; [exact Hs|lia|lia|reflexivity].
Qed.

(** What a report does to the health tracker. *)
Definition reported_health (t : Health.Tracker) (dep : string) (o : Outcome) (now : Z) : Health.Tracker :=
  let t := Health.Report t dep (health_outcome (countsAgainstAvailability (outcome_cause o)) o) now in
  let w := Time.Sub (oResetAt o) now in
  match outcome_cause o with
  | CauseAuth => Health.MarkUnavailable t dep (AuthCooldown r) now
  | CauseQuotaExhausted =>
      if 0 <? RetryAfter o then Health.MarkUnavailable t dep (RetryAfter o) now
      else if negb (Time.IsZero (oResetAt o)) && (0 <? w) then Health.MarkUnavailable t dep w now
      else t
  | CauseRateLimit =>
      if 0 <? RetryAfter o then Health.MarkUnavailable t dep (RetryAfter o) now
      else if negb (Time.IsZero (oResetAt o)) && (0 <? w) then Health.MarkUnavailable t dep w now
      else (Health.MarkRateLimited t dep (RateLimitCooldown r) (RateLimitCooldownMax r) now).1
  | _ => t
  end.

Lemma Release_health s q now : sHealth (sys_Release account_try s q now) = sHealth s.
Proof. unfold sys_Release. destruct (Broker.Release _ _ _ _ _); reflexivity. Qed.

Lemma Report_health x (d : Decision (R := nat * string)) st o now x' st' : Report r x d st o now = (x', st') ->
  sHealth (sub x') = reported_health (sHealth (sub x)) (Deployment_ d) o now.
Proof.
  intros E. rewrite <- (Release_health (sub x) (Reservation d) now).
  unfold Report in E. cbv zeta in E.
  match type of E with context [set_sub x ?s1] => set (s2 := s1) in E end.
  assert (sHealth (sub x') = sHealth s2) as ->.
  { destruct (bool_decide _ && _) in E; apply (f_equal fst) in E; cbn [fst] in E; rewrite <- E;
      repeat case_match; reflexivity. }
  subst s2. unfold reported_health. cbn. repeat case_match; reflexivity.
Qed.

Lemma reported_other t dep o now : dep <> id -> Health.rec (reported_health t dep o now) id = Health.rec t id.
Proof.
  intros N. unfold reported_health, Health.MarkUnavailable, Health.MarkRateLimited, Health.Report.
  repeat case_match; cbn [fst]; rewrite !rec_put, ?decide_False by exact N; try reflexivity.
Qed.

Lemma reported_nothing t o now : says_nothing o ->
  rstate (Health.rec (reported_health t id o now) id) = rstate (Health.rec t id) /\
  probesLeft (Health.rec (reported_health t id o now) id) = probesLeft (Health.rec t id).
Proof.
  intros (He & Hc). assert (countsAgainstAvailability (outcome_cause o) = false) as Hf by (destruct (outcome_cause o); tauto).
  assert (reported_health t id o now = Health.Report t id (health_outcome false o) now) as ->.
  { unfold reported_health. rewrite Hf. destruct (outcome_cause o); try tauto; try reflexivity.
    destruct Hc as (Hr & Hz). rewrite (proj2 (Z.ltb_ge _ _) Hr), Hz. reflexivity. }
  unfold Health.Report. rewrite rec_put, decide_True by reflexivity. unfold report, health_outcome. cbn. rewrite He. split; reflexivity.
Qed.

Lemma spent_quiet k s s' : spent k s -> 0 <= k < two63 - 1 -> quiet s s' -> spent (k + 1) s'.
Proof.
  intros Hs Hk Q. destruct Q as [s s' E|s i now|x d st o now x' st' E Hd].
  - unfold spent, circuit in *. rewrite E. split; [apply Hs|lia].
  - apply (spent_allow k s i now Hs Hk).
  - unfold spent, circuit in *. rewrite (Report_health _ _ _ _ _ _ _ E).
    destruct (base.decide (Deployment_ d = id)) as [Ed|N]; [|rewrite (reported_other _ _ _ _ N); split; [apply Hs|lia]].
    rewrite Ed. destruct (reported_nothing (sHealth (sub x)) o now (Hd Ed)) as (-> & ->). split; [apply Hs|lia].
Qed.


(** What decides whether a deployment may be tried. *)
Definition standing (t : Health.Tracker) (i : string) : Health.State * Z * Z * Z * Z :=
  let c := Health.rec t i in (rstate c, consecFails c, openedAtNano c, probesLeft c, rlStrikes c).

(** C11. A request the caller got wrong is not held against anybody. A 4xx that is
    neither an authentication failure, a timeout, a model still loading nor
    back-pressure leaves the standing of every deployment and every session pin as
    they were, and ends the session with a cause that has no fall-back; so no
    number of malformed requests takes a deployment away from other callers. *)
Theorem caller_fault_spares_deployments x (d : Decision (R := nat * string)) st o now x' st' :
  Report r x d st o now = (x', st') -> HasErr o = true -> ErrBudget o = false -> ErrDeadline o = false ->
  oCause o = CauseNone -> 400 <= oStatus o < 500 -> oStatus o ∉ [401; 403; 408; 409; 425; 429] ->
  (forall i, standing (sHealth (sub x')) i = standing (sHealth (sub x)) i) /\ pinsAt x' = pinsAt x /\
  forall now', exists e, canFallBack r st' now' = Some e /\ (FirstByteSent o = false -> firstByte st = false -> Code e = CodeNotChainable).
Proof.
  intros E He Hb Hd Hc Hs Hn.
  assert (outcome_cause o = CauseBadRequest) as Hk.
  { unfold outcome_cause, Classify, unclassifiedCause. rewrite Hc, He, Hb, Hd. cbn [andb].
    assert (forall n, n ∈ [401; 403; 408; 409; 425; 429] -> (oStatus o =? n) = false) as Ne
      by (intros n Hi; apply Z.eqb_neq; intros <-; exact (Hn Hi)).
    rewrite (proj2 (Z.eqb_neq _ 0)) by lia. rewrite (Ne 401), (Ne 403), (Ne 408), (Ne 409), (Ne 425), (Ne 429) by set_solver.
    rewrite (proj2 (Z.eqb_neq _ 504)) by lia. rewrite (proj2 (Z.leb_gt 500 _)) by lia. cbn.
    rewrite (proj2 (Z.leb_le 400 _)), (proj2 (Z.ltb_lt _ 500)) by lia. reflexivity. }
  split.
  - intros i. unfold standing. rewrite (Report_health _ _ _ _ _ _ _ E).
    unfold reported_health. rewrite Hk. cbn [countsAgainstAvailability]. unfold Health.Report. rewrite rec_put. case_decide as Ei; [|reflexivity].
    subst i. unfold report, health_outcome. cbn. rewrite He. reflexivity.
  - unfold Report in E. cbv zeta in E. rewrite Hk, He in E. cbn [bool_decide andb negb discardsPin] in E.
    rewrite bool_decide_eq_false_2 in E by discriminate. cbn [andb] in E. rewrite andb_false_r in E. injection E as <- <-.
    split; [reflexivity|]. intros now'. unfold canFallBack. cbn. destruct (firstByte st || FirstByteSent o) eqn:F.
    + eexists. split; [reflexivity|]. intros F1 F2. rewrite F1, F2 in F. discriminate.
    + eexists. split; [reflexivity|]. reflexivity.
Qed.
End Probe.

(** ** Witness *)

#[local] Existing Instances Demo.subsystems.

Definition demo_down : System :=
  with_health Demo.start (Health.MarkUnavailable (sHealth Demo.start) "a" 0 0).

(** The probe an hour later, and the report of a 400 it came back with. *)
Definition demo_probe : System := (Allow demo_down "a" (3600 * Time.Second)).1.
Definition demo_decision : Decision (R := nat * string) :=
  mkDecision "a" "p" "ka" "model" (0%nat, "ka") 1 "m" "c" "openai" "" 0 0 "" 0 false 0 "" false "" 0 "" false "" false 0.
Definition demo_refusal : Outcome := mkOutcome true false false 400 CauseNone false 0 0 0 0 Time.zeroTime.
Definition demo_reported : RState (S := System) * sessionState :=
  Report Demo.router (mkRState None [] [] 0 demo_probe) demo_decision (newSession 0) demo_refusal (3601 * Time.Second).


Lemma caller_fault_spares_deployments_witness :
  standing (sHealth (sub demo_reported.1)) "a" = standing (sHealth demo_probe) "a".
Proof.
  refine (proj1 (caller_fault_spares_deployments (fun _ _ _ => false) by_age (fun _ => 0) (fun x => x) None
    (Broker.st Demo.broker) false Demo.router (mkRState None [] [] 0 demo_probe) demo_decision (newSession 0) demo_refusal
    (3601 * Time.Second) demo_reported.1 demo_reported.2 _ _ _ _ _ _ _) "a");
  [apply surjective_pairing|reflexivity|reflexivity|reflexivity|reflexivity|cbn; lia|cbn; set_solver].
Defined.
